(* ===== verification/_CoqProject ===== *)
-Q . S2P
Prelude.v
Json.v
Event.v
Turn.v
Fsm.v
FsmTheory.v
Queue.v
Bus.v
Config.v
BargeIn.v
Splitter.v
Sse.v
LlmClient.v
Manager.v
PlaybackQueue.v
TtsBridge.v
Engine.v
Devices.v
Supervisor.v
SupervisorThreads.v
Endpointer.v
SpscRing.v
Loopback.v
Capture.v
Utterance.v
AudioPipeline.v
CaptureWorker.v
Wav.v
Repository.v
Recovery.v
MemoryThread.v
TurnWriter.v
Summarizer.v
SummaryWorker.v
PromptBuilder.v
Envelope.v
RealtimeStt.v
FakeDriver.v
TtsClient.v
Dsp.v
SttStack.v
Metrics.v
Log.v
Startup.v
KeepAlive.v
SystemAec.v
TtsStack.v
Endpoints.v
ControlServer.v
Db.v
Runtime.v
Demos.v
Soak.v
DemoAudio.v
