(* ===== verification/Prelude.v ===== *)
(** * A verification development for acva

    acva (src/) is a local voice assistant: microphone audio is cleaned, cut
    into utterances and transcribed by a speech server; a dialogue manager
    streams the answer of a language-model server, cuts it into sentences,
    has them spoken by a text-to-speech server and plays the audio; a state
    machine and a barge-in detector decide whose turn it is; conversations are
    kept in SQLite; a supervisor watches the servers. The parts are threads
    around an event bus. This library models the C++ under src/src/ as
    executable definitions, named as in the source, and proves what makes each
    part correct, and of several parts together.

    ** Conventions

    - A handler is a function of its object's state; its effects (events it
      publishes, calls of callbacks, writes to the network) are a list in
      program order. [Act] below is that state-and-output monad. A record
      has the fields of the class it stands for, with their names, and
      [s <| f := v |>] is an assignment.
    - Concurrency is a step function on labels. A label is what one thread
      does between two points where another can come in: a critical section,
      a single access where the source uses atomics, a callback or a clean-up
      that comes after a mutex is released. Theorems quantify over
      every list of labels, so over every interleaving; a step whose thread
      cannot move leaves the state. Memory is sequentially consistent. Waiting
      on a condition variable is a program point; where a notification can be
      lost the model keeps predicate and wait apart.
    - Strings and byte buffers are [str], lists of [ascii]; integers are [Z]
      with the wrap-around of their width where the code can reach it ([u32],
      [u64] and the like), and the 64-bit tallies of events are unbounded; an
      IEEE float is a [SpecFloat] where the code computes with it and [fl], an
      optional rational with [None] for NaN, where it only compares. Instants
      and durations are integers of the unit the source uses.
    - Code outside src/ is a parameter, with the documented behaviour used
      stated as a hypothesis or a class: libcurl and the HTTP clients (the
      calls they make, their status), the JSON and YAML readers, SQLite under
      [Db], prometheus-cpp, libsoxr, ONNX Runtime, WebRTC, libdatachannel, the
      commands run by a shell, the file system, clocks and random numbers.
    - Fuel. A loop that is not structural takes fuel. In most files it is
      computed from the data that every iteration shortens, and the theorems
      are about the loop at that fuel: the length of the buffer in [Sse] and
      in the blocks and windows of [AudioPipeline], [Dsp] and [DemoAudio], the
      characters of the text in [Manager], [Json] and [ControlServer], four
      steps per queued chunk in [Engine], the sleep divided by its step and the
      sentences of a turn in [FakeDriver]. Two loops need not end, and their
      fuel is an argument: the chunk walk of [Wav] (one step per byte is
      enough unless the length of a chunk makes the 32-bit step wrap to zero,
      where the code loops for ever) and the drain of the resampler in [Dsp],
      as long as libsoxr returns samples. Threads that run for ever are lists
      of labels and need none.

    ** Files, parts and sources (paths under src/src/)

    Base: this file (strings, integers, record update, [Act], lists, URLs);
    [Json] (a reader of the JSON text the program writes by hand).

    Events and turns
    - [Event]: event/event.*. [Queue]: event/queue.hpp, a bounded queue with
      three overflow policies, refines a FIFO list with its history. [Bus]:
      event/bus.*, publishers, subscription workers and stops interleaved:
      what a handler sees is a subsequence of what was published, in order,
      of its type, and nothing after its stop returns.
    - [Turn]: dialogue/turn.*. [Fsm]: dialogue/fsm.*; [FsmTheory]: the ledger
      of turns, the documented diagram and where the code leaves it, the
      completion of an answer, the interrupt cascade, events of turns that are
      over.
    - [BargeIn]: dialogue/barge_in.*, beside the state machine.

    The answer
    - [Sse] and [LlmClient]: llm/sse_parser.*, llm/client.*; [Splitter]:
      dialogue/sentence_splitter.*; [Manager]: dialogue/manager.*, over the
      three: the answer streamed is the answer published, whole turns under
      every interleaving, cancellation. [Endpoints]: probe, ping and the URLs
      derived from the base URLs. [PromptBuilder]: llm/prompt_builder.*, over
      the store.
    - [TtsClient]: tts/openai_tts_client.*; [TtsBridge]:
      dialogue/tts_bridge.*; [PlaybackQueue] and [Engine]: playback/*. From a
      sentence on the bus to the samples of the audio callback: a ledger of
      sentences, the barge-in, the exactness of a callback, what starves.
      [Devices]: start, stop and the choice of the device of playback/engine.*
      and audio/capture.*, with the engine's ticker and publisher.
      [TtsStack]: orchestrator/tts_stack.*, with the self-listening loop.

    The microphone
    - [SpscRing], [Capture]: audio/spsc_ring.hpp, capture.*, clock.*, frame.*,
      half_duplex_gate.hpp; [Endpointer], [Utterance], [AudioPipeline], [Wav]:
      audio/endpointer.*, utterance.*, pipeline.*, wav.cpp; [CaptureWorker]:
      the thread of pipeline.*, over the ring; [Loopback]:
      audio/loopback.*; [Dsp]: audio/resampler.*, vad.*, apm.*; [SystemAec]:
      orchestrator/system_aec.*.
    - [SttStack]: stt/openai_stt_client.*, orchestrator/stt_stack.*;
      [Envelope] and [RealtimeStt]: stt/realtime_*.

    Memory
    - [Db]: memory/db.*; [Repository]: memory/repository.*, schema.hpp, the
      tables and every statement; [Recovery], [MemoryThread], [Summarizer]
      and [SummaryWorker] (request and thread): memory/; [TurnWriter]:
      dialogue/turn_writer.*. Well-formedness of the store over every
      operation, the rows a turn leaves, what the summaries cover, jobs in
      order.

    Around it
    - [Config]: config/config.*, every structure, validation, resolution;
      [Startup]: cli/args.cpp, config/paths.cpp, orchestrator/bootstrap.cpp with
      the ALSA file, and the beginning of main.cpp; [Runtime]: the rest of main.cpp and the
      builders capture_stack.*, stt_stack.*, dialogue_stack.*: what starts and
      ends in which order, and whether anything outlives what it uses.
    - [Supervisor], [SupervisorThreads], [KeepAlive]: supervisor/*; [Metrics]:
      metrics/registry.*, orchestrator/supervisor_setup.cpp; [Log]: log/*,
      orchestrator/event_tracer.cpp; [ControlServer]: http/server.*,
      orchestrator/status_extra.*; [FakeDriver]: pipeline/fake_driver.*.
    - [Demos], [Soak], [DemoAudio]: demos/*: the catalog, what each command
      decides, starts and stops; the load test; the signals.

    ** How they interact

    Events are values of [Event]; a component that subscribes has an
    [on_event] taking one, and a component that publishes emits one, so
    composition is feeding outputs to inputs. Theorems on several parts at
    once: [Manager] over client, parser and splitter; [BargeIn], [Capture] and
    [FakeDriver] beside [Fsm]; [TtsClient] over the bridge and the playback
    queue; [TurnWriter], [PromptBuilder] and [Summarizer] over store and
    memory thread; [Dsp] over loopback ring and pipeline; [CaptureWorker] over
    ring and pipeline; [DemoAudio] over playback queue, loopback ring and
    canceller; [Demos] over the bridge; [Metrics] over the
    events of the manager; [Endpoints] and [KeepAlive] over the supervisor.
    Generic components take their caller as a parameter (the callbacks of
    [LlmClient] act on any state; a job of [MemoryThread] is any function of
    the store). Interfaces with laws are classes: [Prometheus] in [Metrics],
    [Transactional] in [Db], [Escaper] in [Json].

    ** Kinds of theorems

    Invariants over every run (ledgers, phases, protocols); refinement of a
    queue, ring, diagram or stream; exact functional results on every branch;
    equivalence of validation with what components rely on; round trips of
    formats; termination and progress, also the negative results (an answer
    shorter than the prefill never plays; a wake-up lost between predicate
    and wait); bounds and wrap-around; error paths (refused commits, failed
    commands, exits of main). A theorem with hypotheses is followed by a
    witness, an instance where they hold. Examples show the behaviours that
    differ from a comment or from the intent.

    ** Not modelled

    - What the demonstrations print, and the text of the help.
    - Inside the opening of devices and connections: PortAudio is what it
      answers and leaves in the handle in [Devices]; the WebRTC peer connection and the sockets of the
      HTTP server are labels or parameters.
    - Inside libraries: SQL beyond the statements used, the JSON and YAML
      grammars, resampling, echo cancellation, the detector's network. I/O
      errors of SQLite in the statements of [Repository], except where
      [Recovery], [Summarizer] and [PromptBuilder] go on without the answer;
      exceptions of constructors, memory exhaustion.
    - Text that is only logged, except where [Log] says what becomes of it.
    - Weak memory: the rings' acquire and release are taken as sequentially
      consistent accesses. *)
From Stdlib Require Export ZArith QArith_base Lia Ascii Sorted SpecFloat.
From stdpp Require Export base gmap strings list fin_maps.

(** ** Strings *)

(** [std::string] and [std::string_view] are sequences of bytes: here, of
    [ascii] characters, so that the byte-level code (indexing, substr,
    back()) is list code. *)
Abbreviation str := (list ascii).

(** A literal of the source. *)
Definition lit (s : string) : str := String.list_ascii_of_string s.

(** The byte value of a character, as [static_cast<unsigned char>]. *)
Definition byte_of (c : ascii) : Z := Z.of_N (N_of_ascii c).
Definition of_byte (z : Z) : ascii := ascii_of_N (Z.to_N (z mod 256)).

(** [std::string::operator<]: lexicographic on unsigned bytes. *)
Fixpoint str_cmp (a b : str) : comparison :=
  match a, b with
  | [], [] => Eq
  | [], _ :: _ => Lt
  | _ :: _, [] => Gt
  | x :: a, y :: b => match (byte_of x ?= byte_of y)%Z with Eq => str_cmp a b | c => c end
  end.

(** A C string given by its pointer ends at the first NUL. *)
Fixpoint c_str (s : str) : str :=
  match s with [] => [] | c :: s => if decide (c = "000"%char) then [] else c :: c_str s end.

(** [s.starts_with(pat)], and [s.find(pat)] with [None] for npos. *)
Fixpoint starts_with (pat s : str) : bool :=
  match pat, s with
  | [], _ => true
  | p :: pat, c :: s => bool_decide (p = c) && starts_with pat s
  | _ :: _, [] => false
  end.
Fixpoint str_find (pat s : str) : option nat :=
  if starts_with pat s then Some 0
  else match s with [] => None | _ :: s => S <$> str_find pat s end.

(** [std::map<std::string, A>]: its entries in key order, as iteration sees
    them. *)
Abbreviation smap A := (list (str * A)).
Definition smap_find {A} (k : str) (m : smap A) : option A :=
  snd <$> List.find (λ e, bool_decide (e.1 = k)) m.
Definition smap_contains {A} (k : str) (m : smap A) : bool := bool_decide (smap_find k m ≠ None).
(** [m[k] = v] *)
Fixpoint smap_set {A} (k : str) (v : A) (m : smap A) : smap A :=
  match m with
  | [] => [(k, v)]
  | (k', v') :: m' =>
      match str_cmp k k' with
      | Lt => (k, v) :: m
      | Eq => (k, v) :: m'
      | Gt => (k', v') :: smap_set k v m'
      end
  end.

Lemma byte_of_inj c d : byte_of c = byte_of d → c = d.
Proof.
  intros H%N2Z.inj. by rewrite <- (ascii_N_embedding c), <- (ascii_N_embedding d), H.
Qed.

Lemma str_cmp_eq a b : str_cmp a b = Eq ↔ a = b.
Proof.
  revert b. induction a as [|x a IH]; intros [|y b]; cbn; try done.
  destruct (Z.compare_spec (byte_of x) (byte_of y)) as [E|E|E].
  - apply byte_of_inj in E as ->. rewrite IH. naive_solver.
  - split; [done|]. intros [= -> ->]. lia.
  - split; [done|]. intros [= -> ->]. lia.
Qed.

Lemma smap_find_cons {A} k k' (v : A) m :
  smap_find k ((k', v) :: m) = if decide (k' = k) then Some v else smap_find k m.
Proof.
  unfold smap_find. cbn. destruct (decide (k' = k)).
  - by rewrite bool_decide_true.
  - by rewrite bool_decide_false.
Qed.

Lemma smap_find_in {A} k (v : A) m : smap_find k m = Some v → k ∈ m.*1.
Proof.
  induction m as [|[k1 v1] m IH]; [done|]. rewrite smap_find_cons. cbn.
  destruct (decide (k1 = k)) as [->|]; [left|right; auto].
Qed.

Lemma smap_find_elem {A} k (v : A) m : smap_find k m = Some v → (k, v) ∈ m.
Proof.
  induction m as [|[k1 v1] m IH]; [done|]. rewrite smap_find_cons.
  destruct (decide (k1 = k)) as [->|]; [intros [= ->]; left|right; auto].
Qed.

Lemma smap_find_set {A} k k' (v : A) m :
  smap_find k (smap_set k' v m) = if decide (k' = k) then Some v else smap_find k m.
Proof.
  induction m as [|[k1 v1] m IH]; cbn [smap_set].
  - by rewrite smap_find_cons.
  - destruct (str_cmp k' k1) eqn:E.
    + apply str_cmp_eq in E as <-. rewrite !smap_find_cons. by destruct (decide (k' = k)).
    + by rewrite smap_find_cons.
    + rewrite !smap_find_cons, IH. destruct (decide (k1 = k)) as [->|]; [|done].
      destruct (decide (k' = k)) as [->|]; [|done]. by rewrite (proj2 (str_cmp_eq k k) eq_refl) in E.
Qed.

(** The keys of a [std::map] are sorted, so they are distinct. *)
Definition smap_sorted {A} (m : smap A) : Prop := StronglySorted (λ a b, str_cmp a b = Lt) m.*1.

Lemma str_cmp_antisym a b : str_cmp b a = CompOpp (str_cmp a b).
Proof.
  revert b. induction a as [|x a IH]; intros [|y b]; cbn; try done.
  rewrite Z.compare_antisym. destruct (byte_of x ?= byte_of y)%Z; cbn; auto.
Qed.

Lemma str_cmp_trans a b c : str_cmp a b = Lt → str_cmp b c = Lt → str_cmp a c = Lt.
Proof.
  revert b c. induction a as [|x a IH]; intros [|y b] [|z c]; cbn; try done.
  destruct (Z.compare_spec (byte_of x) (byte_of y)) as [E1|E1|E1];
    destruct (Z.compare_spec (byte_of y) (byte_of z)) as [E2|E2|E2]; try done; intros H1 H2.
  - apply byte_of_inj in E1, E2. subst. rewrite Z.compare_refl. eauto.
  - rewrite E1. by rewrite (proj2 (Z.compare_lt_iff _ _) E2).
  - rewrite <- E2. by rewrite (proj2 (Z.compare_lt_iff _ _) E1).
  - by rewrite (proj2 (Z.compare_lt_iff _ _) (Z.lt_trans _ _ _ E1 E2)).
Qed.

Lemma smap_sorted_nodup {A} (m : smap A) : smap_sorted m → NoDup m.*1.
Proof.
  unfold smap_sorted. induction 1 as [|k ks Hs IH Hk]; constructor; [|done].
  intros Hin. rewrite Forall_forall in Hk. specialize (Hk _ Hin).
  by rewrite (proj2 (str_cmp_eq k k) eq_refl) in Hk.
Qed.

Lemma smap_set_keys {A} (P : str → Prop) k (v : A) m :
  P k → Forall P m.*1 → Forall P (smap_set k v m).*1.
Proof.
  intros Hk. induction m as [|[k1 v1] m IH]; cbn; intros H; [by constructor|].
  inversion H; subst. destruct (str_cmp k k1); cbn; auto.
Qed.

Lemma smap_set_sorted {A} k (v : A) m : smap_sorted m → smap_sorted (smap_set k v m).
Proof.
  unfold smap_sorted. induction m as [|[k1 v1] m IH]; cbn; intros H; [repeat constructor|].
  inversion H as [|? ? Hs Hf]; subst. destruct (str_cmp k k1) eqn:E; cbn.
  - apply str_cmp_eq in E as ->. by constructor.
  - constructor; [done|]. constructor; [done|]. eapply Forall_impl; [exact Hf|].
    cbn. intros x Hx. by eapply str_cmp_trans.
  - constructor; [auto|]. apply smap_set_keys; [|done].
    by rewrite str_cmp_antisym, E.
Qed.

Lemma smap_set_id {A} k (v : A) m : smap_sorted m → smap_find k m = Some v → smap_set k v m = m.
Proof.
  unfold smap_sorted. induction m as [|[k1 v1] m IH]; [done|]. rewrite smap_find_cons. cbn.
  intros H. inversion H as [|? ? Hs Hf]; subst. destruct (decide (k1 = k)) as [->|Hne].
  - intros [= ->]. by rewrite (proj2 (str_cmp_eq k k) eq_refl).
  - intros Hk. rewrite Forall_forall in Hf. pose proof (Hf k (smap_find_in _ _ _ Hk)) as Hlt.
    rewrite str_cmp_antisym, Hlt. cbn. by rewrite IH.
Qed.

(** ** Searching in strings *)

(** A prefix is cut off by its length. *)
Lemma starts_with_app pat s : starts_with pat s = true → s = pat ++ drop (length pat) s.
Proof.
  revert s. induction pat as [|c pat IH]; intros [|d s]; cbn; try done.
  rewrite andb_true_iff, bool_decide_eq_true. intros [-> H]. by rewrite <- IH.
Qed.

(** A match is where [str_find] says. *)
Lemma str_find_split pat s i : str_find pat s = Some i → s = take i s ++ pat ++ drop (i + length pat) s.
Proof.
  revert i. induction s as [|c s IH]; intros i.
  - cbn. destruct pat; cbn; [by intros [= <-]|done].
  - cbn [str_find]. destruct (starts_with pat (c :: s)) eqn:E.
    + intros [= <-]. cbn [take Nat.add app]. clear IH. revert E. generalize (c :: s). clear.
      induction pat as [|p pat IH]; intros [|c s]; cbn; try done.
      rewrite andb_true_iff, bool_decide_eq_true. intros [-> H]. f_equal. by apply IH.
    + destruct (str_find pat s) as [j|]; [|done]. intros [= <-]. cbn. f_equal. by apply IH.
Qed.

Lemma str_find_cons pat c s :
  starts_with pat (c :: s) = false → str_find pat (c :: s) = S <$> str_find pat s.
Proof. intros H. cbn [str_find]. by rewrite H. Qed.

(** A character the pattern does not have ends every match. *)
Lemma starts_with_stop pat u c w : c ∉ pat → starts_with pat (u ++ c :: w) = starts_with pat u.
Proof.
  revert u. induction pat as [|p pat IH]; intros [|x u] Hc; cbn; try done.
  - rewrite not_elem_of_cons in Hc. by rewrite bool_decide_false by naive_solver.
  - rewrite not_elem_of_cons in Hc. by rewrite IH by naive_solver.
Qed.

Lemma str_find_skip pat u c w :
  c ∉ pat → pat ≠ [] → str_find pat u = None → str_find pat (u ++ c :: w) = (λ i, i + S (length u)) <$> str_find pat w.
Proof.
  intros Hc Hp. induction u as [|x u IH]; intros Hu.
  - cbn [app str_find]. pose proof (starts_with_stop pat [] c w Hc) as E. cbn [app] in E. rewrite E. destruct pat; [done|]. cbn [starts_with].
    destruct (str_find _ w); [cbn; f_equal; lia|done].
  - cbn [str_find] in Hu. change ((x :: u) ++ c :: w) with (x :: u ++ c :: w). cbn [str_find].
    pose proof (starts_with_stop pat (x :: u) c w Hc) as E. cbn [app] in E. rewrite E.
    destruct (starts_with pat (x :: u)); [done|].
    destruct (str_find pat u); [done|]. rewrite IH by done. destruct (str_find pat w); [cbn; f_equal; lia|done].
Qed.

(** Nor is there a match where one of the pattern's characters is missing. *)
Lemma str_find_absent pat u c : c ∈ pat → c ∉ u → str_find pat u = None.
Proof.
  intros Hp. induction u as [|x u IH]; intros Hu; [by destruct pat; [set_solver|]|].
  rewrite not_elem_of_cons in Hu. destruct Hu as [Hx Hu]. cbn [str_find]. rewrite IH by done.
  destruct (starts_with pat (x :: u)) eqn:E; [|done]. exfalso.
  assert (∀ s, starts_with pat s = true → c ∈ s) as Hs.
  { clear -Hp. intros s. revert s. induction pat as [|p pat IH]; intros [|y s]; cbn; try set_solver.
    rewrite andb_true_iff, bool_decide_eq_true. intros [-> H]. apply elem_of_cons in Hp as [->|Hp]; set_solver. }
  apply Hs in E. set_solver.
Qed.

Lemma str_find_fresh c u w : c ∉ u → str_find [c] (u ++ c :: w) = Some (length u).
Proof.
  intros Hc. rewrite <- (app_nil_r [c]) at 1. induction u as [|x u IH]; cbn; [by rewrite bool_decide_true|].
  rewrite not_elem_of_cons in Hc. rewrite bool_decide_false by naive_solver. cbn. cbn in IH. by rewrite IH by tauto.
Qed.
Lemma char_absent c u : c ∉ u → str_find [c] u = None.
Proof. intros Hc. by apply (str_find_absent _ _ c); [apply list_elem_of_singleton|]. Qed.

(** URLs: the scheme, the host, the path. *)
Lemma slash_in h i : str_find ["/"%char] h = Some i → "/"%char ∈ h.
Proof. intros H%str_find_split. rewrite H. set_solver. Qed.

Lemma scheme_app sch rest : str_find (lit "://") sch = None → ":"%char ∉ sch →
  str_find (lit "://") (sch ++ lit "://" ++ rest) = Some (length sch).
Proof.
  induction sch as [|c sch IH]; intros Hf Hn; [done|]. rewrite not_elem_of_cons in Hn. destruct Hn as [Hc Hn].
  cbn [app str_find length]. cbn [str_find] in Hf.
  destruct (starts_with (lit "://") (c :: sch)); [done|].
  assert (starts_with (lit "://") (c :: sch ++ lit "://" ++ rest) = false) as ->
    by (cbn [lit String.list_ascii_of_string starts_with]; by rewrite bool_decide_false).
  rewrite IH; [done| |done]. by destruct (str_find _ sch).
Qed.

(** ** Machine integers *)

Definition u16 (z : Z) : Z := z mod 2 ^ 16.
Definition u32 (z : Z) : Z := z mod 2 ^ 32.
Definition u64 (z : Z) : Z := z mod 2 ^ 64.

Lemma u64_succ a b : u64 (u64 a + b) = u64 (a + b).
Proof. unfold u64. by rewrite Zplus_mod_idemp_l. Qed.

(** Disjoint bytes: [or] is [+]. *)
Lemma lor_shift a b k : (0 ≤ k)%Z → (0 ≤ a < 2 ^ k)%Z → Z.lor a (Z.shiftl b k) = (a + b * 2 ^ k)%Z.
Proof.
  intros Hk Ha. rewrite <- Z.add_lor_land, <- Z.shiftl_mul_pow2 by lia.
  assert (Z.land a (Z.shiftl b k) = 0%Z) as ->; [|lia].
  apply Z.bits_inj'. intros n Hn. rewrite Z.land_spec, Z.bits_0, Z.shiftl_spec by lia.
  destruct (decide (n < k)%Z); [by rewrite (Z.testbit_neg_r b), andb_false_r by lia|].
  rewrite <- (Z.mod_small a (2 ^ k)) by lia. by rewrite Z.mod_pow2_bits_high by lia.
Qed.

Lemma land_ones_mod z k : (0 ≤ k)%Z → Z.land z (Z.ones k) = (z mod 2 ^ k)%Z.
Proof. intros. by rewrite Z.land_ones. Qed.
Lemma land_3 z : Z.land z 3 = (z mod 4)%Z.
Proof. exact (land_ones_mod z 2 ltac:(lia)). Qed.
Lemma land_15 z : Z.land z 15 = (z mod 16)%Z.
Proof. exact (land_ones_mod z 4 ltac:(lia)). Qed.
Lemma land_63 z : Z.land z 63 = (z mod 64)%Z.
Proof. exact (land_ones_mod z 6 ltac:(lia)). Qed.
Lemma land_255 z : Z.land z 255 = (z mod 256)%Z.
Proof. exact (land_ones_mod z 8 ltac:(lia)). Qed.

Lemma byte_of_range c : (0 ≤ byte_of c < 256)%Z.
Proof. unfold byte_of. pose proof (N_ascii_bounded c). lia. Qed.
Lemma of_byte_of c : of_byte (byte_of c) = c.
Proof.
  unfold of_byte. rewrite Z.mod_small by apply byte_of_range. unfold byte_of.
  by rewrite N2Z.id, ascii_N_embedding.
Qed.
Lemma byte_of_byte z : byte_of (of_byte z) = (z mod 256)%Z.
Proof.
  unfold byte_of, of_byte. pose proof (Z.mod_pos_bound z 256 ltac:(lia)).
  rewrite N_ascii_embedding by lia. lia.
Qed.

(** Masks and bytes as arithmetic, for [lia]. *)
Create Rewrite HintDb words.
#[export] Hint Rewrite land_3 land_15 land_63 land_255 byte_of_byte : words.

(** ** Lists *)

Lemma omap_snoc {A B} (f : A → option B) l x : omap f (l ++ [x]) = omap f l ++ match f x with Some y => [y] | None => [] end.
Proof. rewrite omap_app. cbn. by destruct (f x). Qed.

(** ** Record update: [r <| f := v |>] *)

(** [Eta R] lists the projections of a record once; [Setter f] is found by
    abstracting the projection [f] out of that expansion. *)
Class Eta (R : Type) := eta : R → R.
Class Setter {R T : Type} (proj : R → T) := set_field : (T → T) → R → R.
Arguments set_field {R T} proj {_} _ _.

Ltac build_setter :=
  lazymatch goal with
  | |- @Setter ?R ?T ?proj =>
      let h := constr:(_ : Eta R) in
      let i := eval hnf in h in
      exact (λ (f : T → T) (r : R),
        ltac:(let e := eval cbv beta in (i r) in
              let e' := eval pattern (proj r) in e in
              lazymatch e' with
              | ?g (proj r) => let x := eval cbv beta in (g (f (proj r))) in exact x
              end))
  end.
#[export] Hint Extern 0 (Setter _) => build_setter : typeclass_instances.

Notation "r <| f := v |>" := (set_field f (λ _, v) r)
  (at level 1, f at next level, v at level 200, left associativity,
   format "r  <| f  :=  v |>").
Notation "r <| f ::= g |>" := (set_field f g r)
  (at level 1, f at next level, g at level 200, left associativity,
   format "r  <| f  ::=  g |>").

(** ** The effect monad *)

(** A handler runs on a state [S], emits a list of outputs [O] in program
    order (events published, callbacks invoked) and returns a value. *)
Definition Act (S O A : Type) : Type := S → A * S * list O.

Section act.
Context {S O : Type}.

Definition ret {A} (a : A) : Act S O A := λ s, (a, s, []).
Definition bind {A B} (m : Act S O A) (k : A → Act S O B) : Act S O B := λ s,
  let '(a, s1, o1) := m s in
  let '(b, s2, o2) := k a s1 in
  (b, s2, o1 ++ o2).
Definition gets {A} (f : S → A) : Act S O A := λ s, (f s, s, []).
Definition modify (f : S → S) : Act S O unit := λ s, (tt, f s, []).
Definition emit (o : O) : Act S O unit := λ s, (tt, s, [o]).
Definition skip : Act S O unit := ret tt.

Definition exec {A} (m : Act S O A) (s : S) : S := (m s).1.2.
Definition outs {A} (m : Act S O A) (s : S) : list O := (m s).2.
Definition result {A} (m : Act S O A) (s : S) : A := (m s).1.1.

Lemma run_bind {A B} (m : Act S O A) (k : A → Act S O B) s :
  exec (bind m k) s = exec (k (result m s)) (exec m s) ∧
  outs (bind m k) s = outs m s ++ outs (k (result m s)) (exec m s) ∧
  result (bind m k) s = result (k (result m s)) (exec m s).
Proof.
  unfold exec, outs, result, bind. destruct (m s) as [[a s1] o1]; cbn.
  by destruct (k a s1) as [[b s2] o2].
  Qed.

Lemma exec_bind {A B} (m : Act S O A) (k : A → Act S O B) s :
  exec (bind m k) s = exec (k (result m s)) (exec m s).
Proof. apply run_bind. Qed.

Lemma outs_bind {A B} (m : Act S O A) (k : A → Act S O B) s :
  outs (bind m k) s = outs m s ++ outs (k (result m s)) (exec m s).
Proof. apply run_bind. Qed.

Lemma result_bind {A B} (m : Act S O A) (k : A → Act S O B) s :
  result (bind m k) s = result (k (result m s)) (exec m s).
Proof. apply run_bind. Qed.

(** Reads and writes are steps of their own: one rewriting each. *)
Lemma bind_gets {A B} (f : S → A) (k : A → Act S O B) s : bind (gets f) k s = k (f s) s.
Proof. unfold bind, gets. by destruct (k (f s) s) as [[b s2] o2]. Qed.

Lemma bind_modify {B} (f : S → S) (k : unit → Act S O B) s : bind (modify f) k s = k tt (f s).
Proof. unfold bind, modify. by destruct (k tt (f s)) as [[b s2] o2]. Qed.

Lemma bind_ret {A B} (a : A) (k : A → Act S O B) s : bind (ret a) k s = k a s.
Proof. unfold bind, ret. by destruct (k a s) as [[b s2] o2]. Qed.

(** The same under the projections of a run. *)
Lemma exec_gets {A B} (f : S → A) (k : A → Act S O B) s : exec (bind (gets f) k) s = exec (k (f s)) s.
Proof. unfold exec. by rewrite bind_gets. Qed.
Lemma outs_gets {A B} (f : S → A) (k : A → Act S O B) s : outs (bind (gets f) k) s = outs (k (f s)) s.
Proof. unfold outs. by rewrite bind_gets. Qed.
Lemma exec_modify {B} (f : S → S) (k : unit → Act S O B) s : exec (bind (modify f) k) s = exec (k tt) (f s).
Proof. unfold exec. by rewrite bind_modify. Qed.
Lemma outs_modify {B} (f : S → S) (k : unit → Act S O B) s : outs (bind (modify f) k) s = outs (k tt) (f s).
Proof. unfold outs. by rewrite bind_modify. Qed.
End act.

Create Rewrite HintDb act.
#[export] Hint Rewrite @exec_gets @outs_gets @exec_modify @outs_modify @bind_gets @bind_modify @bind_ret : act.

Declare Scope act_scope.
Delimit Scope act_scope with act.
Notation "x ← m ; k" := (bind m (λ x, k)) : act_scope.
Notation "m ;; k" := (bind m (λ _, k)) : act_scope.
Notation "'when' b 'do' m" := (if b then m else skip)
  (at level 60, b at level 99, m at level 60) : act_scope.

#[global] Arguments decide : simpl never.
#[global] Arguments decide_rel : simpl never.
#[global] Arguments bool_decide : simpl never.

(** Evaluate an action in the goal, splitting on its guards; a branch whose
    guards contradict each other is closed at once. *)
Ltac act_open := unfold exec, outs, result, bind, gets, modify, emit, skip, ret.
Ltac guard_absurd := exfalso; first [congruence | intuition congruence].
Ltac split_decide :=
  match goal with
  | |- context [@decide ?P ?d] =>
      let r := eval hnf in (@decide P d) in
      lazymatch r with
      | left _ => destruct (@decide P d) as [_|]; [|guard_absurd]
      | right _ => destruct (@decide P d) as [|_]; [guard_absurd|]
      | _ => destruct (@decide P d); try solve [guard_absurd]
      end
  | |- context [@bool_decide ?P ?d] =>
      let r := eval hnf in (@bool_decide P d) in
      lazymatch r with
      | true => destruct (bool_decide_reflect P) as [_|]; [|guard_absurd]
      | false => destruct (bool_decide_reflect P) as [|_]; [guard_absurd|]
      | _ => destruct (bool_decide_reflect P); try solve [guard_absurd]
      end
  end; cbn.
Ltac act_cbn := act_open; cbn; repeat split_decide.

(** ** Floats *)

(** A [float] or [double]: a finite value as a rational, or [None] for NaN;
    every ordered comparison with NaN is false. *)
Abbreviation fl := (option Q).
Definition fl_le (a b : fl) : bool :=
  match a, b with Some x, Some y => Qle_bool x y | _, _ => false end.
Definition fl_lt (a b : fl) : bool :=
  match a, b with Some x, Some y => negb (Qle_bool y x) | _, _ => false end.

(** [static_cast<double>] of an integer, and division: IEEE binary64. *)
Definition double_of (z : Z) : spec_float := binary_normalize 53 1024 z 0 false.
Definition double_div (a b : spec_float) : spec_float := SFdiv 53 1024 a b.

(** ** Runs that end

    A measure that some step of [who] decreases, until it is over: then that
    many of their steps are enough. *)
Section measured.
Context {S L : Type} (next : L → S → S) (ok over : S → Prop) `{!∀ s, Decision (over s)} (left : S → nat) (who : list L).
Context (keeps : ∀ l s, ok s → ok (next l s)).
Context (less : ∀ s, ok s → ¬ over s → ∃ l, l ∈ who ∧ left (next l s) < left s).

Lemma ends_within n s :
  ok s → left s ≤ n → ∃ ls, Forall (λ l, l ∈ who) ls ∧ length ls ≤ n ∧ over (foldl (λ s l, next l s) s ls).
Proof.
  revert s. induction n as [|n IH]; intros s Hs Hn; (destruct (decide (over s)) as [|Ho]; [exists []; cbn; auto with lia|]);
    destruct (less s Hs Ho) as (l & Hin & Hl); [lia|].
  destruct (IH (next l s)) as (ls & Hls & Hlen & Hend); [auto|lia|]. exists (l :: ls). cbn. auto with lia.
Qed.
End measured.
