(* ===== verification/Json.v ===== *)
(** * JSON text

    What the program writes as JSON by hand, read back: a reader of flat
    objects over bytes, used to state that the text a component writes means
    what it was given. A component's own escaping is an [Escaper]. *)
From stdpp Require Import pretty.
From S2P Require Import Prelude.

Definition quote : ascii := "034".
Definition backslash : ascii := "\".
Definition hex_digit (z : Z) : ascii := of_byte (if decide (z < 10)%Z then 48 + z else 87 + z)%Z.

(** The six characters of a control character: [printf "\u%04x"] and
    [fmt::format("\\u{:04x}")] of a byte. *)
Definition u_escape (c : ascii) : str :=
  lit "\u00" ++ [hex_digit (Z.shiftr (byte_of c) 4); hex_digit (Z.land (byte_of c) 15)].

(** A literal of the source with a quote for each ['] of ours. *)
Definition jlit (s : string) : str := map (λ c, if decide (c = "'"%char) then quote else c) (lit s).

(** ** The reader *)

(** After the opening quote: the text and what follows the closing quote. *)
Definition hex_value (c : ascii) : option Z :=
  let b := byte_of c in
  if decide (48 <= b <= 57)%Z then Some (b - 48)%Z
  else if decide (97 <= b <= 102)%Z then Some (b - 87)%Z else None.
Definition escapes : list (ascii * ascii) :=
  [(quote, quote); (backslash, backslash); ("/", "/"); ("n", "010"); ("r", "013"); ("t", "009");
   ("b", "008"); ("f", "012")]%char.
Definition escape_value (c : ascii) : option ascii := snd <$> List.find (λ e, bool_decide (e.1 = c)) escapes.

Fixpoint read_string (s : str) : option (str * str) :=
  match s with
  | [] => None
  | c :: s =>
      if decide (c = quote) then Some ([], s)
      else if decide (c = backslash) then
        match s with
        | "u"%char :: a :: b :: x :: y :: s =>
            match hex_value a, hex_value b, hex_value x, hex_value y with
            | Some 0%Z, Some 0%Z, Some x, Some y => prod_map (cons (of_byte (x * 16 + y))) id <$> read_string s
            | _, _, _, _ => None
            end
        | e :: s => escape_value e ≫= λ v, prod_map (cons v) id <$> read_string s
        | [] => None
        end
      else if decide (byte_of c < 32)%Z then None
      else prod_map (cons c) id <$> read_string s
  end.

(** A flat JSON object: strings, and other values as their text. *)
Inductive JValue := JString (s : str) | JRaw (s : str).
Fixpoint read_raw (s : str) : str * str :=
  match s with
  | [] => ([], [])
  | c :: s' => if decide (c = ","%char ∨ c = "}"%char) then ([], s) else prod_map (cons c) id (read_raw s')
  end.
Definition read_value (s : str) : option (JValue * str) :=
  match s with
  | c :: s' => if decide (c = quote) then prod_map JString id <$> read_string s' else Some (prod_map JRaw id (read_raw s))
  | [] => None
  end.
Definition read_member (s : str) : option (str * JValue * str) :=
  match s with
  | c :: s =>
      if decide (c = quote) then
        match read_string s with
        | Some (k, ":"%char :: s) => (λ '(v, s), (k, v, s)) <$> read_value s
        | _ => None
        end
      else None
  | [] => None
  end.
Fixpoint read_members (fuel : nat) (s : str) : option (list (str * JValue)) :=
  match fuel with
  | 0 => None
  | S fuel =>
      match read_member s with
      | Some (k, v, ","%char :: s) => cons (k, v) <$> read_members fuel s
      | Some (k, v, ["}"%char]) => Some [(k, v)]
      | _ => None
      end
  end.
Definition read_object (s : str) : option (list (str * JValue)) :=
  match s with "{"%char :: s => read_members (S (length s)) s | _ => None end.

(** ** Members *)

(** A text that a member of an object can be, whatever follows it. *)
Definition renders (m : str) (kv : str * JValue) : Prop := ∀ c rest,
  c = ","%char ∨ c = "}"%char → read_member (m ++ c :: rest) = Some (kv.1, kv.2, c :: rest).

(** Members one after the other. *)
Definition members (m : str) (ms : list str) : str := m ++ flat_map (cons ","%char) ms.

Lemma read_members_renders m ms kv kvs fuel :
  renders m kv → Forall2 renders ms kvs → length ms < fuel →
  read_members fuel (members m ms ++ ["}"%char]) = Some (kv :: kvs).
Proof.
  intros Hm H. revert m kv fuel Hm. induction H as [|m' kv' ms kvs Hm' H IH]; intros m [k v] [|fuel] Hm Hf; cbn in Hf; try lia.
  - unfold members. cbn. rewrite app_nil_r, Hm by auto. done.
  - specialize (IH m' kv' fuel Hm' ltac:(lia)). unfold members in IH |- *. rewrite <- !app_assoc in IH.
    cbn [flat_map app read_members]. rewrite <- !app_assoc. cbn [app]. rewrite <- ?app_assoc.
    rewrite Hm by auto. by rewrite IH.
Qed.

Lemma read_object_renders m ms kv kvs :
  renders m kv → Forall2 renders ms kvs →
  read_object ("{"%char :: members m ms ++ ["}"%char]) = Some (kv :: kvs).
Proof.
  intros. apply read_members_renders; [done|done|]. unfold members. rewrite !length_app. cbn.
  assert (length ms ≤ length (flat_map (cons ","%char) ms)); [|lia].
  clear. induction ms as [|m ms IH]; cbn; [lia|]. rewrite length_app. lia.
Qed.

Lemma read_raw_to s c rest :
  c = ","%char ∨ c = "}"%char → Forall (λ x, x ≠ ","%char ∧ x ≠ "}"%char) s → read_raw (s ++ c :: rest) = (s, c :: rest).
Proof.
  intros Hc H. induction H as [|x s [H1 H2] _ IH]; cbn; [by rewrite decide_True|].
  rewrite decide_False by naive_solver. by rewrite IH.
Qed.

(** ** Writers *)

(** What a writer puts for a character is read as that character. *)
Class Escaper (esc : ascii → str) : Prop :=
  read_escaped c s : read_string (esc c ++ s) = prod_map (cons c) id <$> read_string s.

Section escaper.
Context (esc : ascii → str) `{!Escaper esc}.

Lemma read_quoted t rest : read_string (flat_map esc t ++ quote :: rest) = Some (t, rest).
Proof.
  induction t as [|c t IH]; [done|]. cbn [flat_map]. by rewrite <- app_assoc, read_escaped, IH.
Qed.

Lemma renders_string k t :
  renders (quote :: flat_map esc k ++ quote :: ":"%char :: quote :: flat_map esc t ++ [quote]) (k, JString t).
Proof.
  intros c rest _. cbn [read_member app]. rewrite decide_True by done. rewrite <- app_assoc. cbn [app]. rewrite read_quoted.
  cbn [read_value app]. rewrite decide_True by done. rewrite <- app_assoc. cbn [app]. by rewrite read_quoted.
Qed.

Lemma renders_raw k n :
  (∃ d n', n = d :: n' ∧ d ≠ quote) → Forall (λ x, x ≠ ","%char ∧ x ≠ "}"%char) n →
  renders (quote :: flat_map esc k ++ quote :: ":"%char :: n) (k, JRaw n).
Proof.
  intros (d & n' & -> & Hd) Hn c rest Hc. cbn [read_member app]. rewrite decide_True by done.
  rewrite <- app_assoc. cbn [app]. rewrite read_quoted. cbn [read_value app]. rewrite decide_False by done.
  change (d :: n' ++ c :: rest) with ((d :: n') ++ c :: rest). by rewrite read_raw_to.
Qed.
End escaper.

(** ** Numbers *)

Definition is_digit (c : ascii) : Prop := (48 <= byte_of c <= 57)%Z.

Lemma pretty_N_go_digits x s :
  Forall is_digit (lit s) → Forall is_digit (lit (pretty_N_go x s)).
Proof.
  revert s. induction (N.lt_wf_0 x) as [x _ IH]; intros s Hs.
  destruct (decide (x = 0)%N) as [->|Hx]; [done|]. rewrite pretty_N_go_step by lia.
  apply IH; [apply N.div_lt; lia|]. cbn [lit String.list_ascii_of_string]. constructor; [|done].
  unfold pretty_N_char, is_digit. repeat case_match; vm_compute; split; discriminate.
Qed.

(** [std::to_string] of a number that is not negative. *)
Lemma pretty_digits (z : Z) :
  (0 ≤ z)%Z → Forall is_digit (lit (pretty z)) ∧ lit (pretty z) ≠ [].
Proof.
  intros Hz. destruct z as [|p|p]; [by repeat constructor| |lia].
  change (pretty (Z.pos p)) with (pretty_N (N.pos p)). unfold pretty_N. rewrite decide_False by done. split.
  - apply pretty_N_go_digits. constructor.
  - rewrite pretty_N_go_step by lia. generalize (N.pos p `mod` 10)%N (N.pos p `div` 10)%N. intros d q.
    cut (∀ s, lit s ≠ [] → lit (pretty_N_go q s) ≠ []); [intros H; apply H; discriminate|].
    induction (N.lt_wf_0 q) as [q _ IH]; intros s Hs.
    destruct (decide (q = 0)%N) as [->|Hq]; [done|]. rewrite pretty_N_go_step by lia.
    apply IH; [apply N.div_lt; lia|discriminate].
Qed.
