(* ===== verification/Event.v ===== *)
(** * Bus events (src/src/event/event.hpp, event.cpp)

    The [Event] variant with one constructor per alternative and its fields in
    declaration order, the health enumeration, and the two accessors the
    logger and the metrics use. Time points are nanoseconds in [Z]. *)
From S2P Require Import Prelude.

Definition TurnId : Type := Z.
Definition kNoTurn : TurnId := 0%Z.
Definition SequenceNo : Type := Z.
Bind Scope Z_scope with TurnId SequenceNo.

#[global] Instance TurnId_eq_dec : EqDecision TurnId := Z.eq_dec.

(** audio::AudioSlice: an immutable utterance (utterance.hpp). *)
Record AudioSlice := {
  slice_samples : list Z;
  slice_sample_rate : Z;
  slice_started_at : Z;
  slice_ended_at : Z;
}.

Inductive HealthState := HUnknown | HHealthy | HDegraded | HUnhealthy.
#[global] Instance HealthState_eq_dec : EqDecision HealthState.
Proof. solve_decision. Defined.

Inductive Event :=
  | SpeechStarted (turn : TurnId) (ts : Z)
  | SpeechEnded (turn : TurnId) (ts : Z)
  | UtteranceReady (turn : TurnId) (slice : option AudioSlice)
  | PartialTranscript (turn : TurnId) (text lang : str) (stable_prefix_len : nat)
      (seq : SequenceNo) (confidence : fl)
  | FinalTranscript (turn : TurnId) (text lang : str) (confidence : fl)
      (audio_duration processing_duration : Z)
  | LlmStarted (turn : TurnId)
  | LlmToken (turn : TurnId) (token : str)
  | LlmSentence (turn : TurnId) (seq : SequenceNo) (text lang : str)
  | LlmFinished (turn : TurnId) (cancelled : bool) (tokens_generated : nat)
  | TtsStarted (turn : TurnId) (seq : SequenceNo)
  | TtsAudioChunk (turn : TurnId) (seq : SequenceNo) (bytes : nat)
  | TtsFinished (turn : TurnId) (seq : SequenceNo)
  | PlaybackStarted (turn : TurnId) (seq : SequenceNo)
  | PlaybackFinished (turn : TurnId) (seq : SequenceNo)
  | UserInterrupted (turn : TurnId) (ts : Z)
  | CancelGeneration (turn : TurnId)
  | Pause
  | Resume
  | ErrorEvent (component message : str)
  | HealthChanged (service : str) (state : HealthState) (detail : str).

(** The index of the active alternative, [std::variant::index]: what the
    bus compares to route a typed subscription. *)
Definition event_index (e : Event) : nat :=
  match e with
  | SpeechStarted _ _ => 0 | SpeechEnded _ _ => 1 | UtteranceReady _ _ => 2
  | PartialTranscript _ _ _ _ _ _ => 3 | FinalTranscript _ _ _ _ _ _ => 4
  | LlmStarted _ => 5 | LlmToken _ _ => 6 | LlmSentence _ _ _ _ => 7
  | LlmFinished _ _ _ => 8 | TtsStarted _ _ => 9 | TtsAudioChunk _ _ _ => 10
  | TtsFinished _ _ => 11 | PlaybackStarted _ _ => 12 | PlaybackFinished _ _ => 13
  | UserInterrupted _ _ => 14 | CancelGeneration _ => 15 | Pause => 16
  | Resume => 17 | ErrorEvent _ _ => 18 | HealthChanged _ _ _ => 19
  end.

Definition event_name (e : Event) : string :=
  match e with
  | SpeechStarted _ _ => "speech_started"
  | SpeechEnded _ _ => "speech_ended"
  | UtteranceReady _ _ => "utterance_ready"
  | PartialTranscript _ _ _ _ _ _ => "partial_transcript"
  | FinalTranscript _ _ _ _ _ _ => "final_transcript"
  | LlmStarted _ => "llm_started"
  | LlmToken _ _ => "llm_token"
  | LlmSentence _ _ _ _ => "llm_sentence"
  | LlmFinished _ _ _ => "llm_finished"
  | TtsStarted _ _ => "tts_started"
  | TtsAudioChunk _ _ _ => "tts_audio_chunk"
  | TtsFinished _ _ => "tts_finished"
  | PlaybackStarted _ _ => "playback_started"
  | PlaybackFinished _ _ => "playback_finished"
  | UserInterrupted _ _ => "user_interrupted"
  | CancelGeneration _ => "cancel_generation"
  | Pause => "pause"
  | Resume => "resume"
  | ErrorEvent _ _ => "error"
  | HealthChanged _ _ _ => "health_changed"
  end.

Definition event_turn (e : Event) : TurnId :=
  match e with
  | SpeechStarted t _ | SpeechEnded t _ | UtteranceReady t _
  | PartialTranscript t _ _ _ _ _ | FinalTranscript t _ _ _ _ _
  | LlmStarted t | LlmToken t _ | LlmSentence t _ _ _ | LlmFinished t _ _
  | TtsStarted t _ | TtsAudioChunk t _ _ | TtsFinished t _
  | PlaybackStarted t _ | PlaybackFinished t _
  | UserInterrupted t _ | CancelGeneration t => t
  | Pause | Resume | ErrorEvent _ _ | HealthChanged _ _ _ => kNoTurn
  end.

(** The metric label determines the alternative: two events share a name
    exactly when they are the same alternative. *)
Lemma event_name_index e1 e2 : event_name e1 = event_name e2 ↔ event_index e1 = event_index e2.
Proof. destruct e1, e2; cbn; split; congruence. Qed.
