(* ===== verification/Turn.v ===== *)
(** * Turn ids and cancellation tokens (src/src/dialogue/turn.hpp, turn.cpp)

    Tokens are shared objects: a context holds a pointer, and every holder of
    the same pointer sees a [cancel]. [Turns] is the store of the flags
    together with the factory's id counter. *)
From S2P Require Import Prelude Event.

(** A [shared_ptr<CancellationToken>]: [None] is the null pointer. *)
Definition token_ptr : Type := option nat.

Record TurnContext := Ctx {
  ctx_id : TurnId;
  ctx_token : token_ptr;
  ctx_started_at : Z;
}.
Definition no_turn_context : TurnContext := Ctx kNoTurn None 0.

(** The factory's [next_] and the [cancelled_] flags of the tokens minted so
    far; the pointer of a token is its index. *)
Record Turns := MkTurns {
  next_ : Z;
  flags : list bool;
}.
#[global] Instance eta_turns : Eta Turns := λ s, MkTurns (next_ s) (flags s).
Definition turns_init : Turns := MkTurns 1 [].

Definition new_token (w : Turns) : nat * Turns :=
  (length (flags w), w <| flags := flags w ++ [false] |>).

Definition cancel_token (p : token_ptr) (w : Turns) : Turns :=
  match p with
  | Some i => w <| flags := <[i := true]> (flags w) |>
  | None => w
  end.

Definition token_cancelled (p : nat) (w : Turns) : bool :=
  default false (flags w !! p).

Definition ctx_valid (c : TurnContext) : bool :=
  bool_decide (ctx_id c ≠ kNoTurn) && bool_decide (ctx_token c ≠ None).

Definition ctx_cancelled (c : TurnContext) (w : Turns) : bool :=
  match ctx_token c with Some p => token_cancelled p w | None => true end.

(** TurnFactory::mint: a fresh id ([fetch_add] on a 64-bit counter) and a
    fresh token. *)
Definition mint (now : Z) (w : Turns) : TurnContext * Turns :=
  let id := next_ w in
  let w := w <| next_ := u64 (next_ w + 1) |> in
  let '(p, w) := new_token w in
  (Ctx id (Some p) now, w).

(** TurnFactory::adopt: a fresh token for an id minted elsewhere. *)
Definition adopt (id : TurnId) (now : Z) (w : Turns) : TurnContext * Turns :=
  let '(p, w) := new_token w in
  (Ctx id (Some p) now, w).

(** ** Lemmas *)

Lemma cancel_token_cancelled p w :
  p < length (flags w) → token_cancelled p (cancel_token (Some p) w) = true.
Proof. intros Hp. unfold token_cancelled. cbn. by rewrite list_lookup_insert_eq. Qed.

Lemma cancel_token_other p q w :
  Some q ≠ p → token_cancelled q (cancel_token p w) = token_cancelled q w.
Proof.
  intros Hne. destruct p as [p|]; cbn; [|done].
  unfold token_cancelled; cbn. rewrite list_lookup_insert_ne; congruence.
Qed.

Lemma new_token_fresh w p w' :
  new_token w = (p, w') → token_cancelled p w' = false ∧ p < length (flags w').
Proof.
  intros [= <- <-]. unfold token_cancelled; cbn.
  rewrite lookup_app_r, Nat.sub_diag by lia. rewrite length_app; cbn. split; [done|lia].
Qed.

Lemma new_token_other w p w' q :
  new_token w = (p, w') → q < length (flags w) → token_cancelled q w' = token_cancelled q w.
Proof. intros [= <- <-] Hq. unfold token_cancelled; cbn. by rewrite lookup_app_l. Qed.

Lemma cancel_token_length p w : length (flags (cancel_token p w)) = length (flags w).
Proof. destruct p; cbn; [apply length_insert | done]. Qed.

(** Successive mints on one factory, as the FSM and the Manager make them. *)
Fixpoint mint_n (n : nat) (now : Z) (w : Turns) : list TurnContext * Turns :=
  match n with
  | O => ([], w)
  | S n => let '(c, w1) := mint now w in
           let '(cs, w2) := mint_n n now w1 in (c :: cs, w2)
  end.

Lemma mint_n_ids n now w cs w' :
  mint_n n now w = (cs, w') → (0 < next_ w)%Z → (next_ w + Z.of_nat n < 2 ^ 64)%Z →
  ctx_id <$> cs = (λ k : nat, (next_ w + Z.of_nat k)%Z) <$> seq 0 n ∧
  next_ w' = (next_ w + Z.of_nat n)%Z.
Proof.
  revert w cs w'. induction n as [|n IH]; intros w cs w'; cbn [mint_n]; intros H Hpos Hlt.
  - injection H as <- <-. cbn. split; [done|lia].
  - unfold mint in H; cbn in H.
    destruct (mint_n n now _) as [cs1 w2] eqn:E. injection H as <- <-.
    assert (Hu : u64 (next_ w + 1) = (next_ w + 1)%Z) by (apply Z.mod_small; lia).
    apply IH in E; cbn in *; rewrite ?Hu in *; try lia.
    destruct E as [E1 E2]. split; [|lia].
    cbn. f_equal; [lia|]. rewrite E1, <- seq_shift, <- list_fmap_compose.
    apply list_fmap_ext. intros i x _. cbn. lia.
Qed.
