(* ===== verification/Fsm.v ===== *)
(** * The dialogue state machine (src/src/dialogue/fsm.hpp, fsm.cpp)

    The bus delivers events to the FSM on one worker thread, so [on_event] is
    a function of the state; its outputs, in program order, are the events it
    publishes and the observer callbacks it makes. The counters of sentences
    are [uint32_t] and wrap; the totals of turns are 64-bit tallies. *)
From S2P Require Import Prelude Event Turn.
Open Scope act_scope.

Module Fsm.

Inductive State :=
  Idle | Listening | UserSpeaking | Transcribing | Thinking | Speaking | Completed | Interrupted.
#[global] Instance State_eq_dec : EqDecision State.
Proof. solve_decision. Defined.

Inductive TurnOutcome :=
  NotStarted | Generating | OSpeaking | OInterrupted | OCompleted | Discarded.
#[global] Instance TurnOutcome_eq_dec : EqDecision TurnOutcome.
Proof. solve_decision. Defined.

Definition state_to_string (s : State) : string :=
  match s with
  | Idle => "idle" | Listening => "listening" | UserSpeaking => "user_speaking"
  | Transcribing => "transcribing" | Thinking => "thinking" | Speaking => "speaking"
  | Completed => "completed" | Interrupted => "interrupted"
  end.

Definition outcome_to_string (o : TurnOutcome) : string :=
  match o with
  | NotStarted => "not_started" | Generating => "generating" | OSpeaking => "speaking"
  | OInterrupted => "interrupted" | OCompleted => "completed" | Discarded => "discarded"
  end.

(** The members of [Fsm]; [turns_] is the factory it holds a reference to,
    with the store of the tokens. *)
Record fsm := MkFsm {
  turns_ : Turns;
  sub_ : bool;
  state_ : State;
  active_ : TurnContext;
  outcome_ : TurnOutcome;
  sentences_played_ : Z;
  sentences_received_ : Z;
  llm_finished_seen_ : bool;
  turns_completed_ : Z;
  turns_interrupted_ : Z;
  turns_discarded_ : Z;
  entered_speaking_at_ : Z;
  outcome_observer_ : bool;
  state_observer_ : bool;
}.
#[global] Instance eta_fsm : Eta fsm := λ s,
  MkFsm (turns_ s) (sub_ s) (state_ s) (active_ s) (outcome_ s) (sentences_played_ s)
    (sentences_received_ s) (llm_finished_seen_ s) (turns_completed_ s)
    (turns_interrupted_ s) (turns_discarded_ s) (entered_speaking_at_ s)
    (outcome_observer_ s) (state_observer_ s).

(** A constructed FSM, with or without its two observers installed. *)
Definition fsm_new (turns : Turns) (oobs sobs : bool) : fsm :=
  MkFsm turns false Idle no_turn_context NotStarted 0 0 false 0 0 0 0 oobs sobs.

Record FsmSnapshot := {
  snap_state : State;
  snap_active_turn : TurnId;
  snap_outcome : TurnOutcome;
  snap_sentences_played : Z;
  snap_turns_completed : Z;
  snap_turns_interrupted : Z;
  snap_turns_discarded : Z;
  snap_entered_speaking_at : Z;
}.

Definition snapshot (s : fsm) : FsmSnapshot := {|
  snap_state := state_ s;
  snap_active_turn := ctx_id (active_ s);
  snap_outcome := outcome_ s;
  snap_sentences_played := sentences_played_ s;
  snap_turns_completed := turns_completed_ s;
  snap_turns_interrupted := turns_interrupted_ s;
  snap_turns_discarded := turns_discarded_ s;
  snap_entered_speaking_at := entered_speaking_at_ s;
|}.

Inductive Out :=
  | Publish (e : Event)
  | StateObserver (prev next : State)
  | OutcomeObserver (label : string).

Abbreviation M := (Act fsm Out).

Definition outcome_observer (label : string) : M unit :=
  has ← gets outcome_observer_;
  when (has : bool) do emit (OutcomeObserver label).

Definition transition (now : Z) (next : State) : M unit :=
  prev ← gets state_;
  modify (λ s, s <| state_ := next |>) ;;
  (when decide (prev ≠ Speaking ∧ next = Speaking) do
     modify (λ s, s <| entered_speaking_at_ := now |>)) ;;
  has ← gets state_observer_;
  when (has : bool) && bool_decide (prev ≠ next) do emit (StateObserver prev next).

Definition mint_turn (now : Z) : M TurnContext :=
  w ← gets turns_;
  let '(ctx, w) := mint now w in
  modify (λ s, s <| turns_ := w |>) ;;
  ret ctx.

Definition handle_speech_started (now : Z) : M unit :=
  current ← gets state_;
  when decide (current = Listening ∨ current = Completed ∨ current = Interrupted) do
    (ctx ← mint_turn now;
     modify (λ s, s <| active_ := ctx |> <| outcome_ := NotStarted |>
                    <| sentences_played_ := 0%Z |> <| sentences_received_ := 0%Z |>
                    <| llm_finished_seen_ := false |>) ;;
     transition now UserSpeaking).

Definition handle_speech_ended (now : Z) : M unit :=
  current ← gets state_;
  when decide (current = UserSpeaking) do transition now Transcribing.

Definition handle_final_transcript (now : Z) : M unit :=
  current ← gets state_;
  (when decide (current = Transcribing) do modify (λ s, s <| outcome_ := Generating |>)) ;;
  when decide (current = Transcribing) do transition now Thinking.

Definition handle_llm_sentence (now : Z) : M unit :=
  modify (λ s, s <| sentences_received_ ::= λ n, u32 (n + 1) |>) ;;
  current ← gets state_;
  (when decide (current = Thinking) do modify (λ s, s <| outcome_ := OSpeaking |>)) ;;
  when decide (current = Thinking) do transition now Speaking.

Definition complete_turn : M unit :=
  modify (λ s, s <| outcome_ := OCompleted |> <| turns_completed_ ::= Z.succ |>).

Definition handle_llm_finished (now : Z) : M unit :=
  modify (λ s, s <| llm_finished_seen_ := true |>) ;;
  s ← gets id;
  done ← (if decide (state_ s = Thinking ∧ sentences_received_ s = 0%Z) then
            complete_turn ;; outcome_observer "completed" ;; ret true
          else if decide (state_ s = Speaking ∧ sentences_played_ s = sentences_received_ s) then
            complete_turn ;; outcome_observer "completed" ;; ret true
          else ret false);
  when (done : bool) do (transition now Completed ;; transition now Listening).

Definition handle_playback_finished (now : Z) (turn : TurnId) : M unit :=
  active ← gets active_;
  if decide (turn ≠ ctx_id active) then ret ()
  else
    modify (λ s, s <| sentences_played_ ::= λ n, u32 (n + 1) |>) ;;
    s ← gets id;
    turn_done ← (if decide (state_ s = Speaking ∧ llm_finished_seen_ s = true
                            ∧ sentences_played_ s = sentences_received_ s) then
                   complete_turn ;; ret true
                 else ret false);
    when (turn_done : bool) do
      (outcome_observer "completed" ;; transition now Completed ;; transition now Listening).

Definition handle_user_interrupted (now : Z) : M unit :=
  s ← gets id;
  let prev_state := state_ s in
  let old := active_ s in
  let already_played_a_sentence := bool_decide (1 ≤ sentences_played_ s)%Z in
  if decide (prev_state = Listening ∨ prev_state = Idle) then ret ()
  else
    modify (λ s, s <| turns_ ::= cancel_token (ctx_token old) |>) ;;
    emit (Publish (CancelGeneration (ctx_id old))) ;;
    label ← (if already_played_a_sentence then
               modify (λ s, s <| outcome_ := OInterrupted |> <| turns_interrupted_ ::= Z.succ |>) ;;
               ret "interrupted"%string
             else
               modify (λ s, s <| outcome_ := Discarded |> <| turns_discarded_ ::= Z.succ |>) ;;
               ret "discarded"%string);
    outcome_observer label ;;
    transition now Interrupted ;;
    transition now Listening.

(** The dispatch of [on_event]; [now] is what the clock reads. *)
Definition on_event (now : Z) (e : Event) : M unit :=
  match e with
  | SpeechStarted _ _ => handle_speech_started now
  | SpeechEnded _ _ => handle_speech_ended now
  | FinalTranscript _ _ _ _ _ _ => handle_final_transcript now
  | LlmSentence _ _ _ _ => handle_llm_sentence now
  | LlmFinished _ _ _ => handle_llm_finished now
  | PlaybackFinished turn _ => handle_playback_finished now turn
  | UserInterrupted _ _ => handle_user_interrupted now
  | _ => skip
  end.

Definition start (now : Z) : M unit :=
  sub ← gets sub_;
  if (sub : bool) then ret ()
  else modify (λ s, s <| sub_ := true |>) ;; transition now Listening.

Definition stop : M unit := modify (λ s, s <| sub_ := false |>).

(** The worker thread: events with the clock reading of each. *)
Fixpoint run (evs : list (Z * Event)) : M unit :=
  match evs with
  | [] => ret ()
  | (now, e) :: evs => on_event now e ;; run evs
  end.

(** ** Specification *)

(** A turn is open from the [SpeechStarted] that minted it to the transition
    that closes it. *)
Definition in_turn (st : State) : bool :=
  match st with UserSpeaking | Transcribing | Thinking | Speaking => true | _ => false end.

(** The diagram of plans/project_design.md, section 6, over the linear
    states. *)
Inductive documented : State → State → Prop :=
  | doc_start : documented Idle Listening
  | doc_speech : documented Listening UserSpeaking
  | doc_speech_end : documented UserSpeaking Transcribing
  | doc_transcript : documented Transcribing Thinking
  | doc_sentence : documented Thinking Speaking
  | doc_done : documented Speaking Completed
  | doc_interrupt : documented Speaking Interrupted
  | doc_cancelled : documented Interrupted UserSpeaking
  | doc_next : documented Completed Listening.

(** What the diagram does not have: a turn without an answer, an interruption
    before the answer, and the way back after one. *)
Inductive deviation : State → State → Prop :=
  | dev_silent : deviation Thinking Completed
  | dev_early st : st = UserSpeaking ∨ st = Transcribing ∨ st = Thinking → deviation st Interrupted
  | dev_resume : deviation Interrupted Listening.

(** The transitions of the code: the diagram's, but for the one that leaves
    [Interrupted], and those. *)
Definition edge (p n : State) : Prop := (documented p n ∧ p ≠ Interrupted) ∨ deviation p n.

(** The observer calls of a step form a path of the diagram from [st] to [st']. *)
Fixpoint path (st : State) (os : list Out) (st' : State) : Prop :=
  match os with
  | [] => st = st'
  | StateObserver p n :: os => st = p ∧ edge p n ∧ path n os st'
  | _ :: os => path st os st'
  end.

(** What the outcome says of the turn in each state the FSM rests in. *)
Definition outcome_ok (st : State) (o : TurnOutcome) : Prop :=
  match st with
  | UserSpeaking | Transcribing => o = NotStarted
  | Thinking => o = Generating
  | Speaking => o = OSpeaking
  | Listening => o = NotStarted ∨ o = OCompleted ∨ o = OInterrupted ∨ o = Discarded
  | _ => False
  end.

Definition count_cancelled (w : Turns) : nat := length (filter (λ b, b = true) (flags w)).

(** The ledger of turns: every token minted belongs to a closed turn or to
    the open one; the cancelled ones are exactly those of the turns that were
    interrupted or discarded; the open turn's token is live. *)
Record inv (s : fsm) : Prop := {
  inv_outcome : outcome_ok (state_ s) (outcome_ s);
  inv_minted : Z.of_nat (length (flags (turns_ s))) =
    (turns_completed_ s + turns_interrupted_ s + turns_discarded_ s +
     (if in_turn (state_ s) then 1 else 0))%Z;
  inv_cancelled : Z.of_nat (count_cancelled (turns_ s)) =
    (turns_interrupted_ s + turns_discarded_ s)%Z;
  inv_live : in_turn (state_ s) = true →
    ∃ p, ctx_token (active_ s) = Some p ∧ flags (turns_ s) !! p = Some false;
}.

(** ** Lemmas *)

Ltac fsm_open :=
  unfold on_event, handle_speech_started, handle_speech_ended, handle_final_transcript,
    handle_llm_sentence, handle_llm_finished, handle_playback_finished,
    handle_user_interrupted, start, complete_turn, mint_turn, transition, outcome_observer.

(** All cases of the current state, or the one that [H] gives. *)
Ltac fsm_cases s :=
  destruct s as [tw sub st act oc sp sr lf tc ti td ent oo so];
  fsm_open; destruct st, oo, so; act_cbn.
Ltac fsm_at s H :=
  destruct s as [tw sub st act oc sp sr lf tc ti td ent oo so];
  cbn in H; subst st; fsm_open; destruct oo, so; act_cbn.

Lemma exec_run_cons now e evs s :
  exec (run ((now, e) :: evs)) s = exec (run evs) (exec (on_event now e) s).
Proof. cbn [run]. apply exec_bind. Qed.

Lemma outs_run_cons now e evs s :
  outs (run ((now, e) :: evs)) s = outs (on_event now e) s ++ outs (run evs) (exec (on_event now e) s).
Proof. cbn [run]. apply outs_bind. Qed.

Lemma count_cancelled_app (l : list bool) b :
  length (filter (λ b, b = true) (l ++ [b])) = length (filter (λ b, b = true) l) + (if b then 1 else 0).
Proof. rewrite filter_app, length_app. by destruct b. Qed.

Lemma count_cancelled_insert (l : list bool) p :
  l !! p = Some false →
  length (filter (λ b, b = true) (<[p := true]> l)) = S (length (filter (λ b, b = true) l)).
Proof.
  revert p. induction l as [|b l IH]; intros [|p] H; [done..| |].
  - injection H as ->. done.
  - change (<[S p := true]> (b :: l)) with (b :: <[p := true]> l).
    rewrite !filter_cons. case_decide; cbn; by rewrite IH by done.
Qed.

Lemma inv_start now turns oo so :
  flags turns = [] → inv (exec (start now) (fsm_new turns oo so)).
Proof.
  intros H. destruct oo, so; split; unfold start, transition, count_cancelled; act_cbn;
    rewrite ?H; auto; done.
Qed.

Lemma inv_open (s s' : fsm) p :
  inv s → in_turn (state_ s) = false → state_ s' = UserSpeaking → outcome_ s' = NotStarted →
  flags (turns_ s') = flags (turns_ s) ++ [false] → p = length (flags (turns_ s)) →
  ctx_token (active_ s') = Some p →
  turns_completed_ s' = turns_completed_ s → turns_interrupted_ s' = turns_interrupted_ s →
  turns_discarded_ s' = turns_discarded_ s → inv s'.
Proof.
  intros [I1 I2 I3 I4] Hin Hst Hoc Hfl -> Htok Hc Hi Hd. rewrite Hin in I2. split.
  - by rewrite Hst, Hoc.
  - rewrite Hfl, length_app, Hc, Hi, Hd, Hst; cbn. lia.
  - unfold count_cancelled in *. rewrite Hfl, count_cancelled_app, Hi, Hd. lia.
  - intros _. eexists; split; [exact Htok|]. rewrite Hfl, lookup_app_r, Nat.sub_diag by lia. done.
Qed.

Lemma inv_same_turn (s s' : fsm) :
  inv s → turns_ s' = turns_ s → active_ s' = active_ s → in_turn (state_ s') = in_turn (state_ s) →
  outcome_ok (state_ s') (outcome_ s') →
  turns_completed_ s' = turns_completed_ s → turns_interrupted_ s' = turns_interrupted_ s →
  turns_discarded_ s' = turns_discarded_ s → inv s'.
Proof.
  intros [I1 I2 I3 I4] Ht Ha Hin Hoc Hc Hi Hd.
  split; rewrite ?Ht, ?Ha, ?Hin, ?Hc, ?Hi, ?Hd; auto.
Qed.

Lemma inv_complete (s s' : fsm) :
  inv s → in_turn (state_ s) = true → turns_ s' = turns_ s → state_ s' = Listening →
  outcome_ s' = OCompleted → turns_completed_ s' = Z.succ (turns_completed_ s) →
  turns_interrupted_ s' = turns_interrupted_ s → turns_discarded_ s' = turns_discarded_ s → inv s'.
Proof.
  intros [I1 I2 I3 I4] Hin Ht Hst Hoc Hc Hi Hd. rewrite Hin in I2.
  split; rewrite ?Ht, ?Hst, ?Hoc, ?Hc, ?Hi, ?Hd; cbn; auto; try done. lia.
Qed.

Lemma inv_interrupt (s s' : fsm) :
  inv s → in_turn (state_ s) = true →
  turns_ s' = cancel_token (ctx_token (active_ s)) (turns_ s) → state_ s' = Listening →
  outcome_ s' = OInterrupted ∨ outcome_ s' = Discarded →
  turns_completed_ s' = turns_completed_ s →
  (turns_interrupted_ s' + turns_discarded_ s' = turns_interrupted_ s + turns_discarded_ s + 1)%Z →
  inv s'.
Proof.
  intros [I1 I2 I3 I4] Hin Ht Hst Hoc Hc Hid. rewrite Hin in I2.
  destruct (I4 Hin) as (p & Hp & Hl). rewrite Hp in Ht.
  split; rewrite ?Ht, ?Hst, ?Hc; cbn; try done.
  - destruct Hoc as [-> | ->]; auto.
  - rewrite length_insert. lia.
  - unfold count_cancelled in *; cbn. rewrite count_cancelled_insert by done. lia.
Qed.

Lemma inv_on_event now e s : inv s → inv (exec (on_event now e) s).
Proof.
  intros I. pose proof (inv_outcome s I) as Hoc. revert I Hoc.
  destruct e; fsm_cases s; intros I Hoc.
  all: try done.
  all: try (eapply inv_same_turn; [exact I|done..]).
  all: try (eapply inv_open; [exact I|done..]).
  all: try (eapply inv_complete; [exact I|done..]).
  all: eapply inv_interrupt; [exact I|try done; cbn; first [by auto|lia]..].
Qed.

Lemma inv_run evs s : inv s → inv (exec (run evs) s).
Proof.
  revert s. induction evs as [|[now e] evs IH]; intros s I; [done|].
  rewrite exec_run_cons. by apply IH, inv_on_event.
Qed.

Lemma path_app st os1 st1 os2 st2 : path st os1 st1 → path st1 os2 st2 → path st (os1 ++ os2) st2.
Proof.
  revert st. induction os1 as [|[e|p n|l] os1 IH]; cbn; intros st H1 H2; subst; auto.
  destruct H1 as (-> & He & H1); auto.
Qed.

Lemma path_on_event now e s :
  outcome_ok (state_ s) (outcome_ s) → state_observer_ s = true →
  path (state_ s) (outs (on_event now e) s) (state_ (exec (on_event now e) s)).
Proof.
  destruct e; fsm_cases s; intros Hoc Hso; try done; try discriminate Hso; repeat split;
    first [by left; split; [constructor|] | by right; constructor; auto].
Qed.

Lemma observer_kept now e s : state_observer_ (exec (on_event now e) s) = state_observer_ s.
Proof. destruct e; fsm_cases s; done. Qed.

Lemma path_run evs s :
  inv s → state_observer_ s = true → path (state_ s) (outs (run evs) s) (state_ (exec (run evs) s)).
Proof.
  revert s. induction evs as [|[now e] evs IH]; intros s I Hso; [done|].
  rewrite outs_run_cons, exec_run_cons. eapply path_app.
  - apply path_on_event; [apply I|done].
  - apply IH; [by apply inv_on_event | by rewrite observer_kept].
Qed.

End Fsm.
