(* ===== verification/FsmTheory.v ===== *)
(** * Theorems on the dialogue state machine

    The ledger of turns, the state diagram, the completion of an answer under
    every interleaving of its events, the interrupt cascade, and what the
    handlers do with events of turns that are over. *)
From S2P Require Import Prelude Event Turn Fsm.
Import Fsm.
Open Scope act_scope.

(** The events that remain of an answer whose first sentence is out:
    [outstanding] sentences emitted and not played, [finished] when the LLM
    has said it is done. Sentences, the end of the stream and the playback of
    what was emitted may interleave in any order; the stream ends after its
    last sentence. *)
Inductive answer (turn : TurnId) : nat → bool → list (Z * Event) → Prop :=
  | answer_done : answer turn 0 true []
  | answer_sentence k now t seq text lang evs :
      answer turn (S k) false evs →
      answer turn k false ((now, LlmSentence t seq text lang) :: evs)
  | answer_finished k now t c n evs :
      answer turn k true evs → answer turn k false ((now, LlmFinished t c n) :: evs)
  | answer_played k fin now seq evs :
      answer turn k fin evs → answer turn (S k) fin ((now, PlaybackFinished turn seq) :: evs).

(** A speaking turn with [k] sentences emitted and not yet played. *)
Record speaking (s : fsm) (k : nat) (fin : bool) : Prop := {
  speaking_state : state_ s = Speaking;
  speaking_received : sentences_received_ s = u32 (sentences_played_ s + Z.of_nat k);
  speaking_played : (0 <= sentences_played_ s < 2 ^ 32)%Z;
  speaking_finished : llm_finished_seen_ s = fin;
}.

(** Completion of the turn of [s] in [s']. *)
Definition completed (s s' : fsm) : Prop :=
  state_ s' = Listening ∧ outcome_ s' = OCompleted ∧
  turns_completed_ s' = Z.succ (turns_completed_ s) ∧
  turns_interrupted_ s' = turns_interrupted_ s ∧
  turns_discarded_ s' = turns_discarded_ s ∧ turns_ s' = turns_ s.

Lemma u32_eq_add a (k : nat) :
  (0 <= a < 2 ^ 32)%Z → (Z.of_nat k < 2 ^ 32)%Z → a = u32 (a + Z.of_nat k) ↔ k = 0.
Proof.
  intros Ha Hk. unfold u32. split; [|intros ->; rewrite Z.add_0_r, Z.mod_small; lia].
  intros H. pose proof (Z.div_mod (a + Z.of_nat k) (2 ^ 32) ltac:(lia)) as D. rewrite <- H in D.
  assert ((a + Z.of_nat k) / 2 ^ 32 = 0)%Z by nia. lia.
Qed.

Lemma u32_add a b : u32 (u32 a + b) = u32 (a + b).
Proof. apply Zplus_mod_idemp_l. Qed.

Lemma u32_range a : (0 <= u32 a < 2 ^ 32)%Z.
Proof. apply Z.mod_pos_bound. lia. Qed.

(** A step inside a turn: same turn, same totals, same tokens. *)
Definition within_turn (s s' : fsm) : Prop :=
  active_ s' = active_ s ∧ turns_ s' = turns_ s ∧ turns_completed_ s' = turns_completed_ s ∧
  turns_interrupted_ s' = turns_interrupted_ s ∧ turns_discarded_ s' = turns_discarded_ s.

Lemma speaking_sentence now t seq text lang s k :
  speaking s k false →
  let s' := exec (on_event now (LlmSentence t seq text lang)) s in
  speaking s' (S k) false ∧ within_turn s s'.
Proof.
  intros [H1 H2 H3 H4]. revert H2 H3 H4.
  fsm_at s H1; intros; simplify_eq; repeat split; cbn; try done; try lia.
  all: rewrite u32_add; f_equal; lia.
Qed.

Lemma speaking_finish now t c n s k :
  speaking s k false → (Z.of_nat k < 2 ^ 32)%Z →
  let s' := exec (on_event now (LlmFinished t c n)) s in
  if decide (k = 0) then completed s s' else speaking s' k true ∧ within_turn s s'.
Proof.
  intros [H1 H2 H3 H4] Hk. pose proof (u32_eq_add (sentences_played_ s) k H3 Hk) as E.
  revert H2 H3 H4 E. fsm_at s H1; intros; simplify_eq; unfold completed; cbn; try guard_absurd.
  all: repeat split; cbn; auto; lia.
Qed.

Lemma speaking_play now seq s k fin :
  speaking s (S k) fin → (Z.of_nat k < 2 ^ 32 - 1)%Z →
  let s' := exec (on_event now (PlaybackFinished (ctx_id (active_ s)) seq)) s in
  if decide (k = 0 ∧ fin = true) then completed s s' else speaking s' k fin ∧ within_turn s s'.
Proof.
  intros [H1 H2 H3 H4] Hk.
  assert (sentences_received_ s = u32 (u32 (sentences_played_ s + 1) + Z.of_nat k)) as H2'
    by (rewrite H2, u32_add; f_equal; lia).
  pose proof (u32_eq_add _ k (u32_range (sentences_played_ s + 1)) ltac:(lia)) as E.
  rewrite <- H2' in E. pose proof (u32_range (sentences_played_ s + 1)) as R.
  revert H2' H3 H4 E R. clear H2.
  fsm_at s H1; intros; simplify_eq; unfold completed; cbn; try guard_absurd.
  all: repeat split; cbn; auto; lia.
Qed.

Lemma completed_within s s1 s2 : within_turn s s1 → completed s1 s2 → completed s s2.
Proof. unfold within_turn, completed. intuition congruence. Qed.

Lemma answer_bound turn k fin evs : answer turn k fin evs → k <= length evs.
Proof. induction 1; cbn; lia. Qed.

Lemma answer_completes turn k fin evs s :
  answer turn k fin evs → (k, fin) ≠ (0, true) → speaking s k fin → ctx_id (active_ s) = turn →
  (Z.of_nat (length evs) < 2 ^ 32)%Z → completed s (exec (run evs) s).
Proof.
  intros Ha. revert s. induction Ha as [|k now t seq text lang evs Ha IH|k now t c n evs Ha IH|k fin now seq evs Ha IH];
    intros s Hne Hs Ht Hlen; cbn [length] in Hlen; rewrite ?exec_run_cons; [done|..].
  - destruct (speaking_sentence now t seq text lang s k Hs) as [Hs' Hw].
    eapply completed_within; [exact Hw|]. apply IH; [congruence|done| |lia].
    by rewrite (proj1 Hw).
  - pose proof (answer_bound _ _ _ _ Ha).
    pose proof (speaking_finish now t c n s k Hs ltac:(lia)) as H'. cbn zeta in H'. case_decide.
    + subst. by inversion Ha; subst.
    + destruct H' as [Hs' Hw]. eapply completed_within; [exact Hw|].
      apply IH; [congruence|done| |lia]. by rewrite (proj1 Hw).
  - pose proof (answer_bound _ _ _ _ Ha). subst turn.
    pose proof (speaking_play now seq s k fin Hs ltac:(lia)) as H'. cbn zeta in H'. case_decide as Hd.
    + destruct Hd as [-> ->]. by inversion Ha; subst.
    + destruct H' as [Hs' Hw]. eapply completed_within; [exact Hw|].
      apply IH; [naive_solver|done| |lia]. by rewrite (proj1 Hw).
Qed.

Lemma answer_prefix_speaking turn k fin evs1 evs2 s :
  answer turn k fin (evs1 ++ evs2) → evs2 ≠ [] → speaking s k fin → ctx_id (active_ s) = turn →
  (Z.of_nat (length (evs1 ++ evs2)) < 2 ^ 32)%Z → state_ (exec (run evs1) s) = Speaking.
Proof.
  revert k fin s. induction evs1 as [|[now e] evs1 IH]; intros k fin s Ha Hne Hs Ht Hlen; [apply Hs|].
  cbn [length app] in Hlen. rewrite exec_run_cons.
  inversion Ha as [|k' now' t seq text lang evs Ha'|k' now' t c n evs Ha'|k' fin' now' seq evs Ha']; subst.
  - destruct (speaking_sentence now t seq text lang s k Hs) as [Hs' Hw].
    eapply IH; [exact Ha'|done|exact Hs'|by rewrite (proj1 Hw)|lia].
  - pose proof (answer_bound _ _ _ _ Ha').
    pose proof (speaking_finish now t c n s k Hs ltac:(lia)) as H'. cbn zeta in H'. case_decide.
    + subst. inversion Ha'. by destruct evs1.
    + destruct H' as [Hs' Hw]. eapply IH; [exact Ha'|done|exact Hs'|by rewrite (proj1 Hw)|lia].
  - pose proof (answer_bound _ _ _ _ Ha').
    pose proof (speaking_play now seq s k' fin Hs ltac:(lia)) as H'. cbn zeta in H'. case_decide as Hd.
    + destruct Hd as [-> ->]. inversion Ha'. by destruct evs1.
    + destruct H' as [Hs' Hw]. eapply IH; [exact Ha'|done|exact Hs'|by rewrite (proj1 Hw)|lia].
Qed.

(** The four events that bring a resting FSM to its first sentence. *)
Definition opening (n1 n2 n3 n4 : Z) (text : str) : list (Z * Event) :=
  [(n1, SpeechStarted kNoTurn n1); (n2, SpeechEnded kNoTurn n2);
   (n3, FinalTranscript kNoTurn text [] None 0 0); (n4, LlmSentence kNoTurn 0 text [])].

Lemma opening_speaking n1 n2 n3 n4 text s :
  state_ s = Listening →
  let s1 := exec (run (opening n1 n2 n3 n4 text)) s in
  speaking s1 1 false ∧ ctx_id (active_ s1) = next_ (turns_ s) ∧
  turns_completed_ s1 = turns_completed_ s ∧
  turns_interrupted_ s1 = turns_interrupted_ s ∧ turns_discarded_ s1 = turns_discarded_ s.
Proof.
  unfold opening, run. intros H. fsm_at s H; repeat split; cbn; lia.
Qed.

Lemma exec_run_app evs1 evs2 s : exec (run (evs1 ++ evs2)) s = exec (run evs2) (exec (run evs1) s).
Proof.
  revert s. induction evs1 as [|[now e] evs1 IH]; intros s; [done|].
  cbn [app]. by rewrite !exec_run_cons, IH.
Qed.

(** A path has edges only. *)
Lemma path_edges st os st' p n : path st os st' → StateObserver p n ∈ os → edge p n.
Proof.
  revert st. induction os as [|[e|q m|l] os IH]; cbn; intros st H Hin; [set_solver|..].
  - apply elem_of_cons in Hin as [?|Hin]; [done|eauto].
  - destruct H as (_ & He & H). apply elem_of_cons in Hin as [[= -> ->]|Hin]; eauto.
  - apply elem_of_cons in Hin as [?|Hin]; [done|eauto].
Qed.

(** A turn with a silent answer, one whose only sentence is played, and one
    interrupted after each of the first [k] events. *)
Definition silent_turn (now : Z) : list (Z * Event) :=
  [(now, SpeechStarted 0 0); (now, SpeechEnded 0 0); (now, FinalTranscript 0 [] [] None 0 0); (now, LlmFinished 1 false 0)].
Definition spoken_turn (now : Z) : list (Z * Event) :=
  [(now, SpeechStarted 0 0); (now, SpeechEnded 0 0); (now, FinalTranscript 0 [] [] None 0 0); (now, LlmSentence 1 0 [] []);
   (now, LlmFinished 1 false 0); (now, PlaybackFinished 1 0)].
Definition cut_turn (k : nat) (now : Z) : list (Z * Event) := take k (spoken_turn now) ++ [(now, UserInterrupted 1 0)].

Ltac taken evs :=
  exists evs; apply list_elem_of_In; match goal with b : bool |- _ => destruct b end; vm_compute; repeat (first [left; reflexivity | right]).
Lemma edge_taken now oobs p n :
  edge p n → ∃ evs, StateObserver p n ∈ outs (start now ;; run evs) (fsm_new turns_init oobs true).
Proof.
  intros [[[] Hn]|[|st [->|[->| ->]]|]]; try done.
  1-5: taken (spoken_turn now).
  - taken (spoken_turn now).
  - taken (cut_turn 4 now).
  - taken (spoken_turn now).
  - taken (silent_turn now).
  - taken (cut_turn 1 now).
  - taken (cut_turn 2 now).
  - taken (cut_turn 3 now).
  - taken (cut_turn 4 now).
Qed.

(** ** Properties *)

(** [C1] The ledger of turns. Whatever events arrive, in whatever order, the
    tokens minted are one per completed, interrupted or discarded turn plus
    one for the turn in progress; exactly the tokens of the interrupted and
    discarded turns are cancelled; the token of the turn in progress is live;
    and the FSM rests in a state whose outcome field agrees with it. *)
Theorem fsm_ledger now oobs sobs evs :
  inv (exec (start now ;; run evs) (fsm_new turns_init oobs sobs)).
Proof. rewrite exec_bind. by apply inv_run, inv_start. Qed.

(** [C2] The transitions reported to the state observer (the half-duplex
    gate) form a path from [Idle] to the state the FSM is in, of transitions
    of the documented diagram other than the one out of [Interrupted], or of
    the three deviations from it: a turn that completes without an answer, an
    interruption before the answer, and the return to [Listening] after one.
    Each of these is taken by some run, so the deviations are real. *)
Theorem fsm_follows_diagram now oobs :
  let s0 := fsm_new turns_init oobs true in
  (∀ evs, path Idle (outs (start now ;; run evs) s0) (state_ (exec (start now ;; run evs) s0))) ∧
  (∀ p n, (documented p n ∧ p ≠ Interrupted) ∨ deviation p n ↔
          ∃ evs, StateObserver p n ∈ outs (start now ;; run evs) s0).
Proof.
  cbn zeta. assert (∀ evs, path Idle (outs (start now ;; run evs) (fsm_new turns_init oobs true))
    (state_ (exec (start now ;; run evs) (fsm_new turns_init oobs true)))) as Hp.
  { intros evs. rewrite exec_bind, outs_bind. eapply path_app.
    2: { apply path_run; [by apply inv_start|]. destruct oobs; unfold start, transition; by act_cbn. }
    destruct oobs; unfold start, transition; act_cbn; repeat split; left; by split; [constructor|]. }
  split; [exact Hp|]. intros p n. split.
  - intros H. by apply edge_taken.
  - intros [evs H]. by eapply path_edges; [apply (Hp evs)|].
Qed.

(** [C8] An answer completes its turn exactly once, at its last event, in
    every interleaving of its sentences, the end of the LLM stream and the
    playback of the sentences emitted; until then the FSM is speaking. The
    wrap-around of the two sentence counters is harmless. *)
Theorem answer_completes_turn n1 n2 n3 n4 text s evs1 evs2 :
  state_ s = Listening → evs2 ≠ [] → answer (next_ (turns_ s)) 1 false (evs1 ++ evs2) →
  (Z.of_nat (length (evs1 ++ evs2)) < 2 ^ 32)%Z →
  let s1 := exec (run (opening n1 n2 n3 n4 text)) s in
  state_ (exec (run evs1) s1) = Speaking ∧
  let s' := exec (run (opening n1 n2 n3 n4 text ++ evs1 ++ evs2)) s in
  state_ s' = Listening ∧ outcome_ s' = OCompleted ∧
  turns_completed_ s' = Z.succ (turns_completed_ s) ∧
  turns_interrupted_ s' = turns_interrupted_ s ∧ turns_discarded_ s' = turns_discarded_ s.
Proof.
  intros Hst Hne Ha Hlen s1.
  destruct (opening_speaking n1 n2 n3 n4 text s Hst) as (Hsp & Hid & Hc & Hi & Hd).
  fold s1 in Hsp, Hid, Hc, Hi, Hd. split; [by eapply answer_prefix_speaking|].
  cbn zeta. rewrite exec_run_app. fold s1.
  destruct (answer_completes _ 1 false _ s1 Ha ltac:(done) Hsp Hid Hlen) as (H1 & H2 & H3 & H4 & H5 & _).
  rewrite H1, H2, H3, H4, H5, Hc, Hi, Hd. done.
Qed.

Lemma answer_completes_turn_witness :
  let s := exec (start 0) (fsm_new turns_init true true) in
  let evs1 := [(4, LlmSentence 1 1 (lit "B.") []); (5, PlaybackFinished 1 0)]%Z in
  let evs2 := [(6, LlmFinished 1 false 2); (7, PlaybackFinished 1 1)]%Z in
  state_ s = Listening ∧
  let s1 := exec (run (opening 0 1 2 3 (lit "A."))) s in
  state_ (exec (run evs1) s1) = Speaking ∧
  state_ (exec (run (opening 0 1 2 3 (lit "A.") ++ evs1 ++ evs2)) s) = Listening.
Proof.
  intros s evs1 evs2. split; [reflexivity|]. cbn zeta.
  destruct (answer_completes_turn 0 1 2 3 (lit "A.") s evs1 evs2) as [H1 [H2 _]].
  - reflexivity.
  - discriminate.
  - repeat constructor.
  - reflexivity.
  - split; [exact H1 | exact H2].
Defined.

(** The interrupt cascade. In a turn in progress [UserInterrupted]
    cancels the token of that turn and no other, publishes
    [CancelGeneration] for it once, reports one outcome (interrupted when a
    sentence was played, discarded otherwise), passes through [Interrupted]
    and comes to rest in [Listening]. *)
Theorem interrupt_cascade now t ts s :
  inv s → in_turn (state_ s) = true →
  let s' := exec (on_event now (UserInterrupted t ts)) s in
  let played := bool_decide (1 ≤ sentences_played_ s)%Z in
  outs (on_event now (UserInterrupted t ts)) s =
    [Publish (CancelGeneration (ctx_id (active_ s)))] ++
    (if outcome_observer_ s
     then [OutcomeObserver (if played then "interrupted" else "discarded")] else []) ++
    (if state_observer_ s
     then [StateObserver (state_ s) Interrupted; StateObserver Interrupted Listening] else []) ∧
  state_ s' = Listening ∧
  outcome_ s' = (if played then OInterrupted else Discarded) ∧
  ctx_cancelled (active_ s) (turns_ s) = false ∧
  ctx_cancelled (active_ s) (turns_ s') = true ∧
  (∀ q, ctx_token (active_ s) ≠ Some q →
        token_cancelled q (turns_ s') = token_cancelled q (turns_ s)).
Proof.
  intros I Hin. cbn zeta. destruct (inv_live s I Hin) as (p & Hp & Hl).
  assert (turns_ (exec (on_event now (UserInterrupted t ts)) s) =
          cancel_token (ctx_token (active_ s)) (turns_ s)) as Ht
    by (revert Hin; clear; fsm_cases s; intros H; try discriminate H; done).
  assert (token_cancelled p (turns_ s) = false) as Hf by (unfold token_cancelled; by rewrite Hl).
  assert (p < length (flags (turns_ s))) by (by eapply lookup_lt_Some).
  repeat match goal with |- _ ∧ _ => split end.
  1-3: revert Hin; clear; fsm_cases s; intros H; try discriminate H; done.
  - unfold ctx_cancelled. by rewrite Hp.
  - unfold ctx_cancelled. rewrite Hp, Ht, Hp. by apply cancel_token_cancelled.
  - intros q Hq. rewrite Ht. apply cancel_token_other. congruence.
Qed.

Lemma interrupt_cascade_witness :
  let s := exec (start 0 ;; run (opening 0 1 2 3 (lit "A."))) (fsm_new turns_init true true) in
  inv s ∧ in_turn (state_ s) = true ∧
  state_ (exec (on_event 4 (UserInterrupted 1 4)) s) = Listening.
Proof.
  intros s. assert (I : inv s) by (unfold s; rewrite exec_bind; by apply inv_run, inv_start).
  split; [exact I|]. split; [reflexivity|].
  exact (proj1 (proj2 (interrupt_cascade 4 1 4 s I eq_refl))).
Defined.

(** The utterance that barges in gets no turn. While the FSM speaks,
    the [SpeechStarted] of the interrupting utterance is ignored; the
    [UserInterrupted] it causes returns the FSM to [Listening]; the
    [SpeechEnded] and [FinalTranscript] of that utterance then find no open
    turn, nothing is minted, the active id stays that of the cancelled turn,
    and the sentences of the answer leave the FSM in [Listening]. *)
Theorem barge_in_utterance_lost n1 n2 n3 n4 n5 text s :
  state_ s = Speaking →
  let s' := exec (run [(n1, SpeechStarted kNoTurn n1);
                       (n2, UserInterrupted (ctx_id (active_ s)) n2);
                       (n3, SpeechEnded kNoTurn n3);
                       (n4, FinalTranscript kNoTurn text [] None 0 0);
                       (n5, LlmSentence (ctx_id (active_ s)) 0 text [])]) s in
  state_ s' = Listening ∧ active_ s' = active_ s ∧ next_ (turns_ s') = next_ (turns_ s) ∧
  turns_completed_ s' = turns_completed_ s.
Proof.
  unfold run. intros Hst. fsm_at s Hst; repeat split; by destruct (ctx_token act).
Qed.

Lemma barge_in_utterance_lost_witness :
  let s := exec (start 0 ;; run (opening 0 1 2 3 (lit "A."))) (fsm_new turns_init true true) in
  state_ s = Speaking ∧
  state_ (exec (run [(4, SpeechStarted kNoTurn 4); (5, UserInterrupted 1 5); (6, SpeechEnded kNoTurn 6);
                     (7, FinalTranscript kNoTurn (lit "no") [] None 0 0);
                     (8, LlmSentence 1 0 (lit "no") [])]%Z) s) = Listening.
Proof.
  intros s. split; [reflexivity|].
  exact (proj1 (barge_in_utterance_lost 4 5 6 7 8 (lit "no") s eq_refl)).
Defined.

(** Turn tags: a [PlaybackFinished] of another turn is ignored, but the
    tag of [LlmFinished] is not looked at. A turn waiting for its first
    sentence is closed as completed by the [LlmFinished] of any other turn,
    cancelled or not, and its answer is then ignored. *)
Theorem stale_finish_completes_turn n1 n2 n3 t c n text s :
  state_ s = Thinking → sentences_received_ s = 0%Z →
  (∀ turn seq, turn ≠ ctx_id (active_ s) →
     on_event n1 (PlaybackFinished turn seq) s = (tt, s, [])) ∧
  let s' := exec (run [(n1, LlmFinished t c n);
                       (n2, LlmSentence (ctx_id (active_ s)) 0 text []);
                       (n3, LlmFinished (ctx_id (active_ s)) false 1)]) s in
  state_ s' = Listening ∧ outcome_ s' = OCompleted ∧
  turns_completed_ s' = Z.succ (turns_completed_ s).
Proof.
  intros Hst Hrec. split.
  - intros turn seq Hne. unfold on_event, handle_playback_finished. by act_cbn.
  - unfold run. revert Hrec. fsm_at s Hst; intros Hrec; cbn in Hrec; try guard_absurd; done.
Qed.

Lemma stale_finish_completes_turn_witness :
  let s := exec (start 0 ;; run [(0, SpeechStarted 0 0); (1, SpeechEnded 0 1);
                                 (2, FinalTranscript 0 (lit "hi") [] None 0 0)]%Z)
                (fsm_new turns_init true true) in
  state_ s = Thinking ∧ sentences_received_ s = 0%Z ∧
  state_ (exec (run [(3, LlmFinished 99 true 0); (4, LlmSentence 1 0 (lit "A.") []);
                     (5, LlmFinished 1 false 1)]%Z) s) = Listening.
Proof.
  intros s. split; [reflexivity|]. split; [reflexivity|].
  exact (proj1 (proj2 (stale_finish_completes_turn 3 4 5 99 true 0 (lit "A.") s eq_refl eq_refl))).
Defined.
