(* ===== verification/Queue.v ===== *)
(** * The bounded queue (src/src/event/queue.hpp)

    Every operation of [BoundedQueue] is one critical section under [mu_], so
    an operation is a function on the state and threads interleave as
    sequences of operations. A wait on a condition variable whose predicate
    is false is the result [PushBlocked] or [PopWait]: the caller holds its
    argument and re-runs the same section when it is woken. [pop_front] on an
    empty deque, which C++ leaves undefined, is the result [PushUndefined]. *)
From S2P Require Import Prelude.

Inductive OverflowPolicy := DropOldest | DropNewest | Block.
#[global] Instance OverflowPolicy_eq_dec : EqDecision OverflowPolicy.
Proof. solve_decision. Defined.

Section queue.
Context {T : Type}.

Record BoundedQueue := MkQueue {
  capacity_ : nat;
  policy_ : OverflowPolicy;
  q_ : list T;
  closed_ : bool;
  pushes_ : Z;
  pops_ : Z;
  drops_ : Z;
}.
#[global] Instance eta_queue : Eta BoundedQueue := λ s,
  MkQueue (capacity_ s) (policy_ s) (q_ s) (closed_ s) (pushes_ s) (pops_ s) (drops_ s).

Definition queue_new (capacity : nat) (policy : OverflowPolicy) : BoundedQueue :=
  MkQueue capacity policy [] false 0 0 0.

Inductive PushResult := PushTrue | PushFalse | PushBlocked | PushUndefined.
Inductive PopResult := PopSome (v : T) | PopNone | PopWait.

Definition push_back (v : T) (s : BoundedQueue) : BoundedQueue :=
  s <| q_ := q_ s ++ [v] |> <| pushes_ ::= Z.succ |>.

Definition push (v : T) (s : BoundedQueue) : PushResult * BoundedQueue :=
  if closed_ s then (PushFalse, s)
  else if decide (capacity_ s ≤ length (q_ s)) then
    match policy_ s with
    | DropOldest =>
        match q_ s with
        | [] => (PushUndefined, s)
        | _ :: rest => (PushTrue, push_back v (s <| q_ := rest |> <| drops_ ::= Z.succ |>))
        end
    | DropNewest => (PushFalse, s <| drops_ ::= Z.succ |>)
    | Block => (PushBlocked, s)
    end
  else (PushTrue, push_back v s).

(** The producer blocked in [push], woken by a notification: the predicate
    of [not_full_.wait] and what follows it. *)
Definition push_wake (v : T) (s : BoundedQueue) : PushResult * BoundedQueue :=
  if bool_decide (length (q_ s) < capacity_ s) || closed_ s then
    if closed_ s then (PushFalse, s) else (PushTrue, push_back v s)
  else (PushBlocked, s).

Definition take_front (s : BoundedQueue) : PopResult * BoundedQueue :=
  match q_ s with
  | [] => (PopNone, s)
  | v :: rest => (PopSome v, s <| q_ := rest |> <| pops_ ::= Z.succ |>)
  end.

Definition try_pop (s : BoundedQueue) : PopResult * BoundedQueue := take_front s.

Definition pop (s : BoundedQueue) : PopResult * BoundedQueue :=
  if bool_decide (q_ s ≠ []) || closed_ s then take_front s else (PopWait, s).

(** [expired]: the deadline has passed when the predicate is evaluated. *)
Definition pop_until (expired : bool) (s : BoundedQueue) : PopResult * BoundedQueue :=
  if bool_decide (q_ s ≠ []) || closed_ s then take_front s
  else if expired then (PopNone, s) else (PopWait, s).

Definition close (s : BoundedQueue) : BoundedQueue := s <| closed_ := true |>.

Definition size (s : BoundedQueue) : nat := length (q_ s).

(** ** Runs and their history *)

Inductive Op := OpPush (v : T) | OpWake (v : T) | OpTryPop | OpPop | OpPopUntil (expired : bool) | OpClose.

(** What the callers saw: the values whose push returned true, the values
    that left the queue in order, each popped ([true]) or evicted, and the
    number of pushes refused for lack of room. *)
Record Hist := MkHist { accepted : list T; departed : list (bool * T); refused : nat }.
#[global] Instance eta_hist : Eta Hist := λ h, MkHist (accepted h) (departed h) (refused h).
Definition hist_nil : Hist := MkHist [] [] 0.

Definition evicted_by (v : T) (s : BoundedQueue) : list (bool * T) :=
  match push v s with
  | (PushTrue, s') => (λ x, (false, x)) <$> take (S (length (q_ s)) - length (q_ s')) (q_ s)
  | _ => []
  end.

Definition record_push (v : T) (s : BoundedQueue) (r : PushResult) (h : Hist) : Hist :=
  match r with
  | PushTrue => h <| accepted := accepted h ++ [v] |> <| departed := departed h ++ evicted_by v s |>
  | PushFalse => if closed_ s then h else h <| refused ::= S |>
  | _ => h
  end.

Definition record_pop (r : PopResult) (h : Hist) : Hist :=
  match r with PopSome v => h <| departed := departed h ++ [(true, v)] |> | _ => h end.

Definition op_step (op : Op) (sh : BoundedQueue * Hist) : BoundedQueue * Hist :=
  let '(s, h) := sh in
  match op with
  | OpPush v => let '(r, s') := push v s in (s', record_push v s r h)
  | OpWake v => let '(r, s') := push_wake v s in
                (s', match r with PushTrue => h <| accepted := accepted h ++ [v] |> | _ => h end)
  | OpTryPop => let '(r, s') := try_pop s in (s', record_pop r h)
  | OpPop => let '(r, s') := pop s in (s', record_pop r h)
  | OpPopUntil x => let '(r, s') := pop_until x s in (s', record_pop r h)
  | OpClose => (close s, h)
  end.

Definition op_run (ops : list Op) (sh : BoundedQueue * Hist) : BoundedQueue * Hist :=
  foldl (λ sh op, op_step op sh) sh ops.

Definition leaving (b : bool) (ds : list (bool * T)) : list T := snd <$> filter (λ d, d.1 = b) ds.
#[global] Arguments leaving : simpl never.
Definition popped (h : Hist) : list T := leaving true (departed h).
Definition evicted (h : Hist) : list T := leaving false (departed h).

(** The contract of the queue against its history. *)
Record queue_ok (cap : nat) (pol : OverflowPolicy) (s : BoundedQueue) (h : Hist) : Prop := {
  ok_cap : capacity_ s = cap;
  ok_pol : policy_ s = pol;
  ok_fifo : accepted h = (snd <$> departed h) ++ q_ s;
  ok_bound : length (q_ s) ≤ cap;
  ok_pushes : pushes_ s = Z.of_nat (length (accepted h));
  ok_pops : pops_ s = Z.of_nat (length (popped h));
  ok_drops : drops_ s = Z.of_nat (length (evicted h) + refused h);
  ok_evict : pol ≠ DropOldest → evicted h = [];
  ok_refuse : pol ≠ DropNewest → refused h = 0;
}.

(** ** Lemmas *)

Lemma leaving_snoc b b' ds v :
  leaving b (ds ++ [(b', v)]) = leaving b ds ++ (if Bool.eqb b' b then [v] else []).
Proof.
  unfold leaving. rewrite filter_app, fmap_app. f_equal. by destruct b, b'.
Qed.

Lemma take_front_ok cap pol s h r s' :
  queue_ok cap pol s h → take_front s = (r, s') → queue_ok cap pol s' (record_pop r h).
Proof.
  intros [H1 H2 H3 H4 H5 H6 H7 H8 H9]. unfold take_front.
  destruct (q_ s) as [|v rest] eqn:E; intros [= <- <-]; cbn.
  - split; rewrite ?E; auto.
  - split; try done; cbn.
    + by rewrite H3, fmap_app, <- app_assoc.
    + cbn in H4. lia.
    + unfold popped in *; cbn. rewrite leaving_snoc, length_app; cbn. lia.
    + unfold evicted in *; cbn. rewrite leaving_snoc, app_nil_r. done.
    + unfold evicted in *; cbn. intros. rewrite leaving_snoc, app_nil_r. auto.
Qed.

Lemma push_back_ok cap pol s h v :
  queue_ok cap pol s h → length (q_ s) < cap →
  queue_ok cap pol (push_back v s) (h <| accepted := accepted h ++ [v] |>).
Proof.
  intros [H1 H2 H3 H4 H5 H6 H7 H8 H9] Hl. split; try done; cbn.
  - by rewrite H3, app_assoc.
  - rewrite length_app; cbn. lia.
  - rewrite length_app; cbn. lia.
Qed.

Lemma push_oldest_full v s x rest :
  closed_ s = false → policy_ s = DropOldest → q_ s = x :: rest → capacity_ s ≤ length (q_ s) →
  push v s = (PushTrue, push_back v (s <| q_ := rest |> <| drops_ ::= Z.succ |>)) ∧
  evicted_by v s = [(false, x)].
Proof.
  intros Hc Hp Hq Hl.
  assert (push v s = (PushTrue, push_back v (s <| q_ := rest |> <| drops_ ::= Z.succ |>))) as E
    by (unfold push; rewrite Hc, Hp, Hq in *; by rewrite decide_True by lia).
  split; [done|]. unfold evicted_by. rewrite E, Hq.
  change (q_ (push_back v (s <| q_ := rest |> <| drops_ ::= Z.succ |>))) with (rest ++ [v]).
  rewrite length_app. cbn [length].
  by replace (S (S (length rest)) - (length rest + 1)) with 1 by lia.
Qed.

Lemma push_room v s :
  closed_ s = false → length (q_ s) < capacity_ s →
  push v s = (PushTrue, push_back v s) ∧ evicted_by v s = [].
Proof.
  intros Hc Hl.
  assert (push v s = (PushTrue, push_back v s)) as E
    by (unfold push; rewrite Hc; by rewrite decide_False by lia).
  split; [done|]. unfold evicted_by. rewrite E. unfold push_back. cbn.
  rewrite length_app, Nat.add_comm. cbn [Nat.add length]. by rewrite Nat.sub_diag.
Qed.

Lemma op_step_ok cap pol op s h s' h' :
  0 < cap → queue_ok cap pol s h → op_step op (s, h) = (s', h') → queue_ok cap pol s' h'.
Proof.
  intros Hc Hok. pose proof Hok as [H1 H2 H3 H4 H5 H6 H7 H8 H9].
  destruct op as [v|v| | |x|]; cbn.
  - destruct (closed_ s) eqn:Ec; [unfold push, record_push; rewrite Ec; by intros [= <- <-]|].
    destruct (decide (capacity_ s ≤ length (q_ s))) as [Hd|Hd].
    2: { destruct (push_room v s Ec ltac:(lia)) as [-> E]. unfold record_push. rewrite E.
         intros [= <- <-]. destruct (push_back_ok cap pol s h v Hok ltac:(lia)).
         split; cbn in *; rewrite ?app_nil_r; done. }
    destruct (policy_ s) eqn:Ep.
    + destruct (q_ s) as [|x rest] eqn:Eq; [cbn in *; lia|].
      rewrite <- Eq in Hd. destruct (push_oldest_full v s x rest Ec Ep Eq Hd) as [-> E].
      unfold record_push. rewrite E. intros [= <- <-].
      cbn in H4.
      split; unfold popped, evicted in *; cbn; rewrite ?leaving_snoc, ?fmap_app, ?length_app; rewrite ?app_nil_r; cbn;
        try congruence; try lia.
      all: first [exact H9 | rewrite H3; by rewrite <- !app_assoc].
    + unfold push. rewrite Ec, Ep, decide_True by done. unfold record_push. rewrite Ec.
      intros [= <- <-]. split; unfold popped, evicted in *; try done; cbn; first [lia|congruence].
    + unfold push. rewrite Ec, Ep, decide_True by done. by intros [= <- <-].
  - unfold push_wake. case_bool_decide; cbn.
    + destruct (closed_ s); intros [= <- <-]; [done|]. apply push_back_ok; [done|lia].
    + by destruct (closed_ s); intros [= <- <-].
  - destruct (try_pop s) as [r s1] eqn:E; intros [= <- <-]. by eapply take_front_ok.
  - unfold pop. destruct (_ || _); [|by intros [= <- <-]].
    destruct (take_front s) as [r s1] eqn:E; intros [= <- <-]. by eapply take_front_ok.
  - unfold pop_until. destruct (_ || _).
    + destruct (take_front s) as [r s1] eqn:E; intros [= <- <-]. by eapply take_front_ok.
    + destruct x; by intros [= <- <-].
  - intros [= <- <-]. by split.
Qed.

Lemma op_run_ok cap pol ops s h :
  0 < cap → queue_ok cap pol s h →
  let '(s', h') := op_run ops (s, h) in queue_ok cap pol s' h'.
Proof.
  intros Hc. revert s h. induction ops as [|op ops IH]; intros s h Hok; [done|].
  change (op_run (op :: ops) (s, h)) with (op_run ops (op_step op (s, h))). destruct (op_step op (s, h)) as [s1 h1] eqn:E.
  by eapply IH, op_step_ok.
Qed.

Lemma queue_new_ok cap pol : queue_ok cap pol (queue_new cap pol) hist_nil.
Proof. split; try done; cbn; lia. Qed.

(** A producer that runs alone. *)
Fixpoint push_all (vs : list T) (s : BoundedQueue) : BoundedQueue :=
  match vs with [] => s | v :: vs => push_all vs (push v s).2 end.

Lemma push_all_oldest vs s :
  closed_ s = false → policy_ s = DropOldest → 0 < capacity_ s → length (q_ s) ≤ capacity_ s →
  q_ (push_all vs s) = drop (length (q_ s ++ vs) - capacity_ s) (q_ s ++ vs).
Proof.
  revert s. induction vs as [|v vs IH]; intros s Hc Hp Hcap Hl; cbn [push_all].
  - rewrite app_nil_r. by replace (length (q_ s) - capacity_ s) with 0 by lia.
  - unfold push. rewrite Hc, Hp. case_decide as Hd.
    + destruct (q_ s) as [|x rest] eqn:E; [cbn in *; lia|]. cbn [snd].
      rewrite IH; try done; cbn in *; [|rewrite length_app; cbn; lia].
      rewrite <- !app_assoc; cbn. rewrite length_app; cbn.
      replace (length rest + S (length vs) - capacity_ s) with (length vs) by lia.
      by replace (S (length rest + S (length vs)) - capacity_ s) with (S (length vs)) by lia.
    + cbn [snd]. rewrite IH; try done; cbn in *; [|rewrite length_app; cbn; lia].
      by rewrite <- !app_assoc.
Qed.

Lemma push_all_newest vs s :
  closed_ s = false → policy_ s = DropNewest → length (q_ s) ≤ capacity_ s →
  q_ (push_all vs s) = take (capacity_ s) (q_ s ++ vs).
Proof.
  revert s. induction vs as [|v vs IH]; intros s Hc Hp Hl; cbn [push_all].
  - by rewrite app_nil_r, take_ge.
  - unfold push. rewrite Hc, Hp. case_decide as Hd; cbn [snd].
    + rewrite IH; try done; cbn. by rewrite !take_app_le by lia.
    + rewrite IH; try done; cbn; [|rewrite length_app; cbn; lia]. by rewrite <- app_assoc.
Qed.

(** A consumer that runs alone. *)
Fixpoint pop_all (n : nat) (s : BoundedQueue) : list PopResult :=
  match n with O => [] | S n => let '(r, s') := pop s in r :: pop_all n s' end.

Lemma pop_all_closed n s :
  closed_ s = true →
  pop_all n s = (PopSome <$> take n (q_ s)) ++ replicate (n - length (q_ s)) PopNone.
Proof.
  revert s. induction n as [|n IH]; intros s Hc; [done|]. cbn [pop_all]. unfold pop.
  rewrite Hc, orb_true_r. unfold take_front. destruct (q_ s) as [|v rest] eqn:E; cbn.
  - rewrite IH by done. rewrite E. cbn. by rewrite take_nil, Nat.sub_0_r.
  - rewrite IH by done. done.
Qed.

End queue.
Arguments BoundedQueue : clear implicits.
Arguments PopResult : clear implicits.
Arguments Op : clear implicits.
Arguments Hist : clear implicits.

(** ** Properties *)

(** [C10] First in, first out, under every interleaving of producers and
    consumers: the values accepted are, in order, those that left the queue
    followed by those in it; nothing is evicted unless the policy drops the
    oldest and nothing is refused for room unless it drops the newest; the
    queue never exceeds its capacity; and the three counters are the lengths
    of what was accepted, popped and dropped. *)
Theorem queue_fifo {T} cap pol (ops : list (Op T)) :
  0 < cap →
  let '(s, h) := op_run ops (queue_new cap pol, hist_nil) in queue_ok cap pol s h.
Proof. intros Hc. apply op_run_ok; [done|apply queue_new_ok]. Qed.

Lemma queue_fifo_witness :
  0 < 2 ∧
  let '(s, h) := op_run [OpPush 1; OpPush 2; OpPush 3; OpTryPop; OpClose; OpPop; OpPop]
                   (queue_new 2 DropOldest, hist_nil) in queue_ok 2 DropOldest s h.
Proof.
  split; [lia|].
  apply (queue_fifo 2 DropOldest [OpPush 1; OpPush 2; OpPush 3; OpTryPop; OpClose; OpPop; OpPop]).
  lia.
Defined.

(** Overload. A producer that pushes [vs] with nobody consuming leaves
    the freshest [capacity] values of the stream under DropOldest and the
    first [capacity] under DropNewest. *)
Theorem overload_keeps {T} (vs : list T) s :
  closed_ s = false → 0 < capacity_ s → length (q_ s) ≤ capacity_ s →
  (policy_ s = DropOldest →
   q_ (push_all vs s) = drop (length (q_ s ++ vs) - capacity_ s) (q_ s ++ vs)) ∧
  (policy_ s = DropNewest → q_ (push_all vs s) = take (capacity_ s) (q_ s ++ vs)).
Proof. intros. split; intros; [by apply push_all_oldest | by apply push_all_newest]. Qed.

Lemma overload_keeps_witness :
  let s := queue_new 2 DropOldest : BoundedQueue nat in
  closed_ s = false ∧ 0 < capacity_ s ∧ length (q_ s) ≤ capacity_ s ∧
  q_ (push_all [1; 2; 3] s) = [2; 3].
Proof.
  intros s. split; [reflexivity|]. split; [cbn; lia|]. split; [cbn; lia|].
  assert (H0 : 0 < capacity_ s) by (cbn; lia). assert (H1 : length (q_ s) ≤ capacity_ s) by (cbn; lia).
  exact (proj1 (overload_keeps [1; 2; 3] s eq_refl H0 H1) eq_refl).
Defined.

(** Shutdown. After [close] no push is accepted, whatever the policy,
    a producer blocked in [push] returns false when woken, and a consumer
    gets the values that were queued, in order, and then nullopt for ever;
    it never waits again. *)
Theorem close_drains {T} (s : BoundedQueue T) n v :
  (push v (close s)).1 = PushFalse ∧ (push_wake v (close s)).1 = PushFalse ∧
  pop_all n (close s) = (PopSome <$> take n (q_ s)) ++ replicate (n - length (q_ s)) PopNone.
Proof.
  split; [done|]. split.
  - unfold push_wake. cbn. by rewrite orb_true_r.
  - by apply (pop_all_closed n (close s)).
Qed.

(** A queue of capacity zero under DropOldest pops an empty deque. *)
Lemma zero_capacity_undefined {T} (v : T) : (push v (queue_new 0 DropOldest)).1 = PushUndefined.
Proof. reflexivity. Qed.
