(* ===== verification/Bus.v ===== *)
(** * The event bus (src/src/event/bus.hpp, bus.cpp)

    Threads interleave: publishers walk their snapshot of the subscribers one
    push at a time, each subscription has a worker that polls, pops and
    handles, and stoppers close and join. A label names the thread that moves
    next; a thread that cannot move (blocked push, empty queue, join) stays
    where it is. The queues are those of [Queue]. *)
From S2P Require Import Prelude Event Queue.

(** Where the worker thread of a subscription is in [run()]: before the test
    of [running_], before [pop], inside the handler, returned. *)
Inductive Worker := WLoop | WPop | WHandle (e : Event) | WDone.

(** [target_] is the index of the alternative subscribed to, [None] for
    [typeid(Event)]. [handled] and [hist] are history: the calls of the
    subscriber's handler and what went through the queue. *)
Record Subscription := MkSub {
  name_ : str;
  target_ : option nat;
  queue_ : BoundedQueue Event;
  running_ : bool;
  worker_ : Worker;
  handled : list Event;
  hist : Hist Event;
}.
#[global] Instance eta_sub : Eta Subscription := λ s,
  MkSub (name_ s) (target_ s) (queue_ s) (running_ s) (worker_ s) (handled s) (hist s).

Definition sub_new (name : str) (target : option nat) (capacity : nat) (policy : OverflowPolicy)
    : Subscription :=
  MkSub name target (queue_new capacity policy) true WLoop [] hist_nil.

Definition matches (target : option nat) (e : Event) : bool :=
  match target with None => true | Some i => bool_decide (event_index e = i) end.

(** A queue operation with its history. *)
Definition sub_op (op : Op Event) (sub : Subscription) : Subscription :=
  let '(q, h) := op_step op (queue_ sub, hist sub) in sub <| queue_ := q |> <| hist := h |>.

(** One step of [Subscription::run]. The handler runs to its end in one step;
    the events it publishes are publishers of their own. A typed handler is
    wrapped in a [get_if]. *)
Definition worker_step (sub : Subscription) : Subscription :=
  match worker_ sub with
  | WLoop => sub <| worker_ := if running_ sub then WPop else WDone |>
  | WPop =>
      match (pop (queue_ sub)).1 with
      | PopSome e => sub_op OpPop sub <| worker_ := WHandle e |>
      | PopNone => sub <| worker_ := WDone |>
      | PopWait => sub
      end
  | WHandle e =>
      sub <| handled ::= λ l, if matches (target_ sub) e then l ++ [e] else l |>
          <| worker_ := WLoop |>
  | WDone => sub
  end.

(** The threads that call into the bus, by what they have left to do. *)
Inductive StopPhase := SFlag | SClose | SJoin.
Inductive Thread :=
  | TSnapshot (e : Event)
  | TPush (e : Event) (todo : list nat) (blocked : bool)
  | TSwap
  | TStop (todo : list nat) (phase : StopPhase)
  | TDone.

(** [heap] holds every subscription created, by address; [subs_] the
    addresses registered. *)
Record EventBus := MkBus {
  heap : list Subscription;
  subs_ : list nat;
  shutting_down_ : bool;
  published_ : Z;
  threads : list Thread;
}.
#[global] Instance eta_bus : Eta EventBus := λ s,
  MkBus (heap s) (subs_ s) (shutting_down_ s) (published_ s) (threads s).
Definition bus_new : EventBus := MkBus [] [] false 0 [].

Definition spawn (t : Thread) (b : EventBus) : EventBus := b <| threads ::= λ ts, ts ++ [t] |>.
Definition set_thread (tid : nat) (t : Thread) (b : EventBus) : EventBus :=
  b <| threads ::= <[tid := t]> |>.
Definition upd_sub (sid : nat) (f : Subscription → Subscription) (b : EventBus) : EventBus :=
  b <| heap ::= alter f sid |>.

Definition register_sub (sub : Subscription) (b : EventBus) : EventBus :=
  b <| subs_ ::= λ l, l ++ [length (heap b)] |> <| heap ::= λ h, h ++ [sub] |>.

Definition publish_event (e : Event) (b : EventBus) : EventBus :=
  if shutting_down_ b then b
  else spawn (TSnapshot e) (b <| published_ ::= λ n, u64 (n + 1) |>).

Definition shutdown (b : EventBus) : EventBus :=
  if shutting_down_ b then b else spawn TSwap (b <| shutting_down_ := true |>).

Definition push_step (tid : nat) (e : Event) (sid : nat) (todo : list nat) (blocked : bool)
    (b : EventBus) : EventBus :=
  match heap b !! sid with
  | None => set_thread tid (TPush e todo false) b
  | Some sub =>
      if matches (target_ sub) e then
        let op := if blocked then OpWake e else OpPush e in
        match (if blocked then push_wake e (queue_ sub) else push e (queue_ sub)).1 with
        | PushBlocked => set_thread tid (TPush e (sid :: todo) true) b
        | _ => set_thread tid (TPush e todo false) (upd_sub sid (sub_op op) b)
        end
      else set_thread tid (TPush e todo false) b
  end.

Definition stop_step (tid sid : nat) (todo : list nat) (phase : StopPhase) (b : EventBus) : EventBus :=
  match heap b !! sid with
  | None => set_thread tid (TStop todo SFlag) b
  | Some sub =>
      match phase with
      | SFlag =>
          if running_ sub then
            set_thread tid (TStop (sid :: todo) SClose)
              (upd_sub sid (λ u, u <| running_ := false |>) b)
          else set_thread tid (TStop todo SFlag) b
      | SClose => set_thread tid (TStop (sid :: todo) SJoin) (upd_sub sid (sub_op OpClose) b)
      | SJoin => match worker_ sub with WDone => set_thread tid (TStop todo SFlag) b | _ => b end
      end
  end.

Definition thread_step (tid : nat) (b : EventBus) : EventBus :=
  match threads b !! tid with
  | Some (TSnapshot e) => set_thread tid (TPush e (subs_ b) false) b
  | Some (TPush e (sid :: todo) blocked) => push_step tid e sid todo blocked b
  | Some TSwap => set_thread tid (TStop (subs_ b) SFlag) (b <| subs_ := [] |>)
  | Some (TStop (sid :: todo) phase) => stop_step tid sid todo phase b
  | Some (TPush _ [] _) | Some (TStop [] _) => set_thread tid TDone b
  | Some TDone | None => b
  end.

Definition subscriber_count (b : EventBus) : nat := length (subs_ b).

Inductive Label :=
  | Subscribe (name : str) (target : option nat) (capacity : nat) (policy : OverflowPolicy)
  | Publish (e : Event)
  | Shutdown
  | Stop (sid : nat)
  | RunThread (tid : nat)
  | RunWorker (sid : nat).

Definition step (l : Label) (b : EventBus) : EventBus :=
  match l with
  | Subscribe name target capacity policy => register_sub (sub_new name target capacity policy) b
  | Publish e => publish_event e b
  | Shutdown => shutdown b
  | Stop sid => spawn (TStop [sid] SFlag) b
  | RunThread tid => thread_step tid b
  | RunWorker sid => upd_sub sid worker_step b
  end.

Definition run (ls : list Label) (b : EventBus) : EventBus := foldl (λ b l, step l b) b ls.

(** ** Specification *)

(** The event a worker holds. *)
Definition in_hand (sub : Subscription) : list Event :=
  match worker_ sub with WHandle e => [e] | _ => [] end.

Record sub_ok (sub : Subscription) : Prop := {
  ok_queue : queue_ok (capacity_ (queue_ sub)) (policy_ (queue_ sub)) (queue_ sub) (hist sub);
  ok_capacity : 0 < capacity_ (queue_ sub);
  ok_popped : popped (hist sub) = handled sub ++ in_hand sub;
  ok_matches : Forall (λ e, matches (target_ sub) e = true) (accepted (hist sub));
}.

Definition label_ok (l : Label) : Prop :=
  match l with Subscribe _ _ capacity _ => 0 < capacity | _ => True end.

(** Steps a worker may still take, and events it may still handle, once
    [running_] is false and the queue closed. *)
Definition worker_fuel (w : Worker) : nat :=
  match w with WDone => 0 | WLoop => 1 | WHandle _ => 2 | WPop => 3 end.
Definition worker_budget (w : Worker) : nat :=
  match w with WDone | WLoop => 0 | WHandle _ | WPop => 1 end.

(** ** Lemmas *)

Lemma leaving_evicted {T} (l : list T) : leaving true ((λ x, (false, x)) <$> l) = [].
Proof. unfold leaving. by induction l. Qed.

Lemma leaving_app {T} b (ds ds' : list (bool * T)) : leaving b (ds ++ ds') = leaving b ds ++ leaving b ds'.
Proof. unfold leaving. by rewrite filter_app, fmap_app. Qed.

Lemma Forall_impl_sublist {T} (P : T → Prop) (l k : list T) :
  Forall P k → l `sublist_of` k → Forall P l.
Proof. intros H Hs. induction Hs; [done|inversion H; subst; auto|inversion H; subst; auto]. Qed.

Lemma departed_popped {T} (ds : list (bool * T)) : leaving true ds `sublist_of` (snd <$> ds).
Proof. unfold leaving. by apply fmap_sublist, sublist_filter. Qed.

Lemma no_eviction {T} (ds : list (bool * T)) : leaving false ds = [] → snd <$> ds = leaving true ds.
Proof.
  unfold leaving. induction ds as [|[[|] v] ds IH]; [done| |by rewrite filter_cons_True].
  rewrite filter_cons_False by done. rewrite filter_cons_True by done. cbn. intros H. by rewrite IH.
Qed.

Definition is_push (op : Op Event) : option Event :=
  match op with OpPush e | OpWake e => Some e | _ => None end.

Lemma push_op_hist op e s h :
  is_push op = Some e →
  let h' := (op_step op (s, h)).2 in
  popped h' = popped h ∧ (accepted h' = accepted h ∨ accepted h' = accepted h ++ [e]).
Proof.
  unfold popped. destruct op as [v|v| | |x|]; intros [= ->]; cbn.
  - destruct (push e s) as [[| | |] s'] eqn:E; unfold record_push; cbn; auto.
    + unfold evicted_by. rewrite E. cbn. rewrite leaving_app, leaving_evicted, app_nil_r. auto.
    + destruct (closed_ s); auto.
  - destruct (push_wake e s) as [[| | |] s'] eqn:E; cbn; auto.
Qed.

Lemma sub_op_fields op sub :
  target_ (sub_op op sub) = target_ sub ∧ running_ (sub_op op sub) = running_ sub ∧
  worker_ (sub_op op sub) = worker_ sub ∧ handled (sub_op op sub) = handled sub ∧
  queue_ (sub_op op sub) = (op_step op (queue_ sub, hist sub)).1 ∧
  hist (sub_op op sub) = (op_step op (queue_ sub, hist sub)).2.
Proof. unfold sub_op. by destruct (op_step _ _). Qed.

Lemma op_step_queue op sub :
  sub_ok sub →
  let sh := op_step op (queue_ sub, hist sub) in
  capacity_ sh.1 = capacity_ (queue_ sub) ∧ policy_ sh.1 = policy_ (queue_ sub) ∧
  queue_ok (capacity_ sh.1) (policy_ sh.1) sh.1 sh.2.
Proof.
  intros [Hq Hc _ _]. cbn zeta. destruct (op_step op (queue_ sub, hist sub)) as [s h] eqn:E.
  pose proof (op_step_ok _ _ _ _ _ _ _ Hc Hq E) as H. cbn.
  rewrite (ok_cap _ _ _ _ H), (ok_pol _ _ _ _ H). done.
Qed.

Lemma sub_op_push_ok op e sub :
  is_push op = Some e → matches (target_ sub) e = true → sub_ok sub → sub_ok (sub_op op sub).
Proof.
  intros Hop Hm Hok. destruct (sub_op_fields op sub) as (Ht & _ & Hw & Hh & Hq & Hhi).
  destruct (op_step_queue op sub Hok) as (Hc & _ & Hqok).
  destruct (push_op_hist op e (queue_ sub) (hist sub) Hop) as [Hp Ha].
  destruct Hok as [_ H2 H3 H4]. split.
  - by rewrite Hq, Hhi.
  - by rewrite Hq, Hc.
  - unfold in_hand. rewrite Hhi, Hp, Hw, Hh. exact H3.
  - rewrite Hhi, Ht. destruct Ha as [->| ->]; [done|]. apply Forall_app. auto.
Qed.

Lemma sub_op_close_ok sub : sub_ok sub → sub_ok (sub_op OpClose sub).
Proof.
  intros Hok. destruct (op_step_queue OpClose sub Hok) as (_ & _ & Hqok).
  destruct Hok as [_ H2 H3 H4]. by split.
Qed.

Lemma worker_step_ok sub : sub_ok sub → sub_ok (worker_step sub).
Proof.
  intros Hok. pose proof Hok as [H1 H2 H3 H4]. unfold worker_step, in_hand in *.
  destruct (worker_ sub) as [| |e|] eqn:Ew; try done.
  - split; try done; unfold in_hand; cbn. destruct (running_ sub); done.
  - destruct (op_step_queue OpPop sub Hok) as (Hc & _ & Hqok).
    cbn in Hc, Hqok. unfold sub_op; cbn. destruct (pop (queue_ sub)) as [[e| |] s'] eqn:Ep; cbn in *.
    + rewrite app_nil_r in H3. split; cbn; try done; [lia|].
      unfold popped, in_hand in *; cbn. by rewrite leaving_snoc, H3.
    + split; try done; unfold in_hand; by cbn.
    + done.
  - assert (matches (target_ sub) e = true) as Hm.
    { rewrite Forall_forall in H4. apply H4. rewrite (ok_fifo _ _ _ _ H1). apply elem_of_app; left.
      assert (e ∈ popped (hist sub)) as He by (rewrite H3; apply elem_of_app; right; constructor).
      unfold popped, leaving in He. apply list_elem_of_fmap in He as (d & -> & Hd).
      apply list_elem_of_filter in Hd as [_ Hd]. by apply list_elem_of_fmap_2. }
    split; try done; unfold in_hand; cbn. by rewrite Hm, app_nil_r.
Qed.

Definition bus_ok (b : EventBus) : Prop := Forall sub_ok (heap b).

Lemma upd_sub_ok sid f b : bus_ok b → (∀ u, sub_ok u → sub_ok (f u)) → bus_ok (upd_sub sid f b).
Proof. intros Hb Hf. unfold bus_ok, upd_sub; cbn. by apply Forall_alter; [|auto]. Qed.

Lemma bus_ok_step l b : label_ok l → bus_ok b → bus_ok (step l b).
Proof.
  intros Hl Hb. destruct l as [name t c p|e| |sid|tid|sid]; cbn in *.
  - unfold bus_ok, register_sub; cbn. apply Forall_app; split; [done|]. constructor; [|done].
    split; cbn; [apply queue_new_ok|done|done|constructor].
  - unfold publish_event. by destruct (shutting_down_ b).
  - unfold shutdown. by destruct (shutting_down_ b).
  - done.
  - unfold thread_step. destruct (threads b !! tid) as [[e|e [|sid todo] bl| |[|sid todo] ph|]|]; try done.
    + unfold push_step. destruct (heap b !! sid) as [sub|] eqn:E; [|done].
      destruct (matches (target_ sub) e) eqn:Em; [|done].
      assert (sub_ok (sub_op (if bl then OpWake e else OpPush e) sub)) as Hs.
      { eapply sub_op_push_ok; [|done|by eapply Forall_lookup_1]. by destruct bl. }
      destruct (if bl then _ else _).1; try done.
      all: unfold bus_ok, upd_sub, set_thread; cbn; apply Forall_alter; [done|];
        intros u Hu; rewrite E in Hu; by simplify_eq.
    + unfold stop_step. destruct (heap b !! sid) as [sub|] eqn:E; [|done].
      destruct ph.
      * destruct (running_ sub); [|done]. apply (upd_sub_ok sid _ b Hb).
        intros u [H1 H2 H3 H4]. by split.
      * apply (upd_sub_ok sid _ b Hb), sub_op_close_ok.
      * by destruct (worker_ sub).
  - by apply upd_sub_ok, worker_step_ok.
Qed.

Lemma bus_ok_run ls b : Forall label_ok ls → bus_ok b → bus_ok (run ls b).
Proof.
  revert b. induction ls as [|l ls IH]; intros b Hls Hb; [done|].
  inversion Hls; subst. change (run (l :: ls) b) with (run ls (step l b)).
  by apply IH, bus_ok_step.
Qed.

(** How one subscription evolves under a step of anybody. *)
Lemma op_step_closed (op : Op Event) q h : closed_ q = true → closed_ (op_step op (q, h)).1 = true.
Proof.
  intros Hc. destruct op as [v|v| | |x|]; cbn; unfold push, push_wake, try_pop, pop, pop_until, take_front;
    rewrite ?Hc, ?orb_true_r; destruct (q_ q); cbn; auto.
Qed.

Record same_worker (u u' : Subscription) : Prop := {
  same_worker_pc : worker_ u' = worker_ u;
  same_handled : handled u' = handled u;
  same_running : running_ u = false → running_ u' = false;
  same_closed : closed_ (queue_ u) = true → closed_ (queue_ u') = true;
}.

Lemma same_worker_refl u : same_worker u u.
Proof. by split. Qed.

Lemma same_worker_op op u : same_worker u (sub_op op u).
Proof.
  destruct (sub_op_fields op u) as (_ & Hr & Hw & Hh & Hq & _).
  split; rewrite ?Hr, ?Hw, ?Hh, ?Hq; auto. apply op_step_closed.
Qed.

Lemma upd_sub_same sid f b sid' u :
  (∀ u, same_worker u (f u)) → heap b !! sid' = Some u →
  ∃ u', heap (upd_sub sid f b) !! sid' = Some u' ∧ same_worker u u'.
Proof.
  intros Hf Hu. unfold upd_sub; cbn. destruct (decide (sid = sid')) as [->|Hne].
  - rewrite list_lookup_alter_eq, Hu. cbn. eauto.
  - rewrite list_lookup_alter_ne by done. eauto using same_worker_refl.
Qed.

Lemma thread_step_same tid b sid u :
  heap b !! sid = Some u → ∃ u', heap (thread_step tid b) !! sid = Some u' ∧ same_worker u u'.
Proof.
  intros Hu. pose proof (same_worker_refl u) as Hr. unfold thread_step.
  destruct (threads b !! tid) as [[e|e [|sid' todo] bl| |[|sid' todo] ph|]|]; eauto.
  - unfold push_step. destruct (heap b !! sid') as [sub|]; [|eauto].
    destruct (matches (target_ sub) e); [|eauto].
    destruct (if bl then _ else _).1; eauto.
    all: eapply (upd_sub_same sid' _ b sid u); [intros ?; apply same_worker_op | done].
  - unfold stop_step. destruct (heap b !! sid') as [sub|]; [|eauto]. destruct ph.
    + destruct (running_ sub); [|eauto]. by eapply (upd_sub_same sid' _ b sid u).
    + eapply (upd_sub_same sid' _ b sid u); [intros ?; apply same_worker_op | done].
    + destruct (worker_ sub); eauto.
Qed.

Lemma step_sub l b sid u :
  heap b !! sid = Some u →
  ∃ u', heap (step l b) !! sid = Some u' ∧
    (l = RunWorker sid ∧ u' = worker_step u ∨ l ≠ RunWorker sid ∧ same_worker u u').
Proof.
  intros Hu. pose proof (same_worker_refl u). destruct l as [name t c p|e| |sid'|tid|sid']; cbn.
  - exists u. unfold register_sub; cbn. rewrite lookup_app_l by (by eapply lookup_lt_Some). auto.
  - exists u. unfold publish_event. by destruct (shutting_down_ b); auto.
  - exists u. unfold shutdown. by destruct (shutting_down_ b); auto.
  - exists u. auto.
  - destruct (thread_step_same tid b sid u Hu) as (u' & ? & ?). exists u'. auto.
  - unfold upd_sub; cbn. destruct (decide (sid' = sid)) as [->|Hne].
    + exists (worker_step u). rewrite list_lookup_alter_eq, Hu. auto.
    + exists u. rewrite list_lookup_alter_ne by done. split; [done|]. right. split; [congruence|done].
Qed.

(** After [stop] has cleared [running_], what a worker may still do. *)
Record winding_down (u u' : Subscription) (k : nat) : Prop := {
  wd_running : running_ u' = false;
  wd_closed : closed_ (queue_ u) = true → closed_ (queue_ u') = true;
  wd_handled : ∃ es, handled u' = handled u ++ es ∧
                     length es + worker_budget (worker_ u') ≤ worker_budget (worker_ u);
  wd_fuel : closed_ (queue_ u) = true → worker_fuel (worker_ u') ≤ worker_fuel (worker_ u) - k;
}.

Lemma winding_worker_step u : running_ u = false → winding_down u (worker_step u) 1.
Proof.
  intros Hr. unfold worker_step. destruct (worker_ u) as [| |e|] eqn:Ew.
  - split; cbn; rewrite ?Hr, ?Ew; auto. exists []. rewrite app_nil_r. split; [done|cbn; lia].
  - unfold pop, sub_op. cbn. unfold pop, take_front.
    destruct (bool_decide (q_ (queue_ u) ≠ []) || closed_ (queue_ u)) eqn:Eb.
    + destruct (q_ (queue_ u)) as [|e q]; split; cbn; rewrite ?Hr, ?Ew; auto; try (cbn; lia).
      all: exists []; rewrite app_nil_r; split; [done|cbn; lia].
    + apply orb_false_iff in Eb as [_ Eb]. split; cbn; rewrite ?Hr, ?Ew, ?Eb; auto; try done.
      exists []. rewrite app_nil_r. split; [done|cbn; lia].
  - split; cbn; rewrite ?Hr, ?Ew; auto.
    destruct (matches _ e); [exists [e] | exists []]; rewrite ?app_nil_r; split; auto; cbn; lia.
  - split; rewrite ?Hr, ?Ew; auto; try (cbn; lia). exists []. rewrite app_nil_r. split; [done|cbn; lia].
Qed.

Lemma winding_trans u1 u2 u3 k k' :
  winding_down u1 u2 k → winding_down u2 u3 k' → winding_down u1 u3 (k + k').
Proof.
  intros [R1 C1 (es1 & H1 & B1) F1] [R2 C2 (es2 & H2 & B2) F2]. split; auto.
  - exists (es1 ++ es2). rewrite H2, H1, length_app, app_assoc. split; [done|lia].
  - intros Hc. specialize (F1 Hc). specialize (F2 (C1 Hc)). lia.
Qed.

Definition worker_steps (sid : nat) (ls : list Label) : nat :=
  length (filter (λ l, (match l with RunWorker i => bool_decide (i = sid) | _ => false end) = true) ls).

Lemma winding_run ls b sid u :
  heap b !! sid = Some u → running_ u = false →
  ∃ u', heap (run ls b) !! sid = Some u' ∧ winding_down u u' (worker_steps sid ls).
Proof.
  revert b u. induction ls as [|l ls IH]; intros b u Hu Hr.
  - exists u. split; [done|]. split; auto; [|unfold worker_steps; cbn; lia].
    exists []. rewrite app_nil_r. split; [done|unfold worker_steps; cbn; lia].
  - change (run (l :: ls) b) with (run ls (step l b)).
    destruct (step_sub l b sid u Hu) as (u1 & Hu1 & Hcase).
    assert (winding_down u u1 (worker_steps sid [l])) as Hw.
    { destruct Hcase as [[-> ->]|[Hne Hs]].
      - unfold worker_steps. rewrite filter_cons_True by (by apply bool_decide_eq_true_2). by apply winding_worker_step.
      - assert (worker_steps sid [l] = 0) as ->.
        { unfold worker_steps. rewrite filter_cons_False; [done|].
        destruct l; try done. intros ?%bool_decide_eq_true_1. naive_solver. }
        destruct Hs as [Hp Hh Hrr Hcc]. split; auto; rewrite Hp, ?Hh; [|lia].
        exists []. rewrite app_nil_r. split; [done|cbn; lia]. }
    destruct (IH _ _ Hu1 (wd_running _ _ _ Hw)) as (u2 & Hu2 & Hw2).
    exists u2. split; [done|].
    replace (worker_steps sid (l :: ls)) with (worker_steps sid [l] + worker_steps sid ls).
    + by eapply winding_trans.
    + unfold worker_steps. change (l :: ls) with ([l] ++ ls). by rewrite filter_app, length_app.
Qed.

(** A publisher that runs alone, and what it does to one subscriber. *)
Definition offer (e : Event) (sub : Subscription) : Subscription :=
  if matches (target_ sub) e then sub_op (OpPush e) sub else sub.

Definition accepts (e : Event) (sub : Subscription) : Prop :=
  matches (target_ sub) e = true → (push e (queue_ sub)).1 ≠ PushBlocked.

Fixpoint run_thread (n tid : nat) (b : EventBus) : EventBus :=
  match n with O => b | S n => run_thread n tid (thread_step tid b) end.

Lemma push_step_offer tid e sid todo b sub :
  heap b !! sid = Some sub → accepts e sub →
  push_step tid e sid todo false b = set_thread tid (TPush e todo false) (upd_sub sid (offer e) b).
Proof.
  intros Hs Ha. unfold push_step, accepts in *. rewrite Hs.
  assert (upd_sub sid (offer e) b =
          if matches (target_ sub) e then upd_sub sid (sub_op (OpPush e)) b else b) as ->.
  { unfold upd_sub, set_field; cbn.
    destruct (matches (target_ sub) e) eqn:Em.
    - f_equal. apply list_alter_ext; [|done]. intros u Hu. simplify_eq. unfold offer. by rewrite Em.
    - rewrite (list_alter_ext _ id _ (heap b)), list_alter_id by
        (done || intros u Hu; simplify_eq; unfold offer; by rewrite Em). by destruct b. }
  destruct (matches (target_ sub) e); [|done].
  by destruct (push e (queue_ sub)).1; specialize (Ha eq_refl).
Qed.

Lemma run_thread_pushes tid e todo b :
  threads b !! tid = Some (TPush e todo false) → NoDup todo →
  (∀ sid, sid ∈ todo → ∃ sub, heap b !! sid = Some sub ∧ accepts e sub) →
  let b' := run_thread (S (length todo)) tid b in
  threads b' !! tid = Some TDone ∧ published_ b' = published_ b ∧
  ∀ sid, heap b' !! sid = (if decide (sid ∈ todo) then offer e else id) <$> heap b !! sid.
Proof.
  revert b. induction todo as [|sid todo IH]; intros b Ht Hnd Hsub; cbn zeta.
  - cbn [run_thread length]. unfold thread_step. rewrite Ht. cbn. split.
    + rewrite list_lookup_insert_eq; [done|]. by eapply lookup_lt_Some.
    + split; [done|]. intros sid. rewrite option_fmap_id. done.
  - change (run_thread (S (length (sid :: todo))) tid b)
      with (run_thread (S (length todo)) tid (thread_step tid b)).
    inversion Hnd as [|? ? Hnin Hnd']; subst.
    destruct (Hsub sid ltac:(left)) as (sub & Hs & Ha).
    unfold thread_step. rewrite Ht, (push_step_offer _ _ _ _ _ sub) by done.
    destruct (IH (set_thread tid (TPush e todo false) (upd_sub sid (offer e) b))) as (H1 & H2 & H3).
    + cbn. rewrite list_lookup_insert_eq; [done|]. by eapply lookup_lt_Some.
    + done.
    + intros sid' Hin. cbn. rewrite list_lookup_alter_ne by set_solver. apply Hsub. by right.
    + split; [done|]. split; [done|]. intros sid'. rewrite H3. cbn.
      destruct (decide (sid = sid')) as [<-|Hne].
      * rewrite list_lookup_alter_eq, decide_False, decide_True by set_solver. by destruct (heap b !! sid).
      * rewrite list_lookup_alter_ne by done. do 2 case_decide; set_solver.
Qed.

(** ** Properties *)

(** [C7] Delivery, for every interleaving of subscribers, publishers,
    workers and stops: a handler is only called with events of the type it
    subscribed to; the calls, the event in the worker's hand and the queue
    are, in order, what the queue accepted less what it evicted, and nothing
    was evicted unless the subscription asked for DropOldest (a Block
    subscription such as the FSM's loses nothing it accepted); the queue
    keeps within its capacity. *)
Theorem bus_delivery ls sid sub :
  Forall label_ok ls → heap (run ls bus_new) !! sid = Some sub →
  Forall (λ e, matches (target_ sub) e = true) (handled sub) ∧
  length (q_ (queue_ sub)) ≤ capacity_ (queue_ sub) ∧
  (handled sub ++ in_hand sub) ++ q_ (queue_ sub) `sublist_of` accepted (hist sub) ∧
  (policy_ (queue_ sub) ≠ DropOldest →
   accepted (hist sub) = (handled sub ++ in_hand sub) ++ q_ (queue_ sub)).
Proof.
  intros Hls Hsub. assert (bus_ok (run ls bus_new)) as Hok by (apply bus_ok_run; [done|constructor]).
  destruct (Forall_lookup_1 _ _ _ _ Hok Hsub) as [Hq _ Hp Hm].
  pose proof (departed_popped (departed (hist sub))) as Hd. fold (popped (hist sub)) in Hd.
  rewrite <- Hp, (ok_fifo _ _ _ _ Hq). split_and!.
  - eapply Forall_impl_sublist; [exact Hm|]. rewrite (ok_fifo _ _ _ _ Hq).
    apply sublist_inserts_r. etrans; [|exact Hd]. rewrite Hp. by apply sublist_inserts_r.
  - apply (ok_bound _ _ _ _ Hq).
  - by apply sublist_app.
  - intros Hpol. f_equal. apply no_eviction, (ok_evict _ _ _ _ Hq Hpol).
Qed.

Lemma bus_delivery_witness :
  let ls := [Subscribe [] None 2 Block; Subscribe [] (Some 4) 1 DropOldest;
             Publish (LlmStarted 1); Publish Pause;
             RunThread 0; RunThread 0; RunThread 0; RunThread 1; RunThread 1;
             RunWorker 0; RunWorker 0; RunWorker 0] in
  Forall label_ok ls ∧
  ∃ sub, heap (run ls bus_new) !! 0 = Some sub ∧
         accepted (hist sub) = (handled sub ++ in_hand sub) ++ q_ (queue_ sub) ∧
         handled sub = [LlmStarted 1].
Proof.
  intros ls. assert (H : Forall label_ok ls) by (repeat constructor).
  split; [exact H|]. eexists. split; [vm_compute; reflexivity|]. split; [|reflexivity].
  apply (bus_delivery ls 0 _ H ltac:(vm_compute; reflexivity)). discriminate.
Defined.

(** One publish reaches every subscriber. A publisher that is not
    blocked offers its event exactly once to each subscription of the bus
    that matches it, touches no other, and returns after one step per
    subscriber. *)
Theorem publish_reaches_all e b :
  shutting_down_ b = false → NoDup (subs_ b) →
  (∀ sid, sid ∈ subs_ b → ∃ sub, heap b !! sid = Some sub ∧ accepts e sub) →
  let tid := length (threads b) in
  let b' := run_thread (2 + length (subs_ b)) tid (publish_event e b) in
  threads b' !! tid = Some TDone ∧ published_ b' = u64 (published_ b + 1) ∧
  ∀ sid, heap b' !! sid = (if decide (sid ∈ subs_ b) then offer e else id) <$> heap b !! sid.
Proof.
  intros Hsd Hnd Hsub tid b'.
  assert (b' = run_thread (S (length (subs_ b))) tid
                 (set_thread tid (TPush e (subs_ b) false) (publish_event e b))) as ->.
  { unfold b'. cbn [run_thread Nat.add]. f_equal. unfold thread_step, publish_event. rewrite Hsd.
    cbn. unfold tid. by rewrite list_lookup_middle. }
  unfold publish_event. rewrite Hsd.
  destruct (run_thread_pushes tid e (subs_ b)
              (set_thread tid (TPush e (subs_ b) false)
                 (spawn (TSnapshot e) (b <| published_ ::= λ n, u64 (n + 1) |>)))) as (H1 & H2 & H3).
  - cbn. rewrite list_lookup_insert_eq; [done|]. rewrite length_app; cbn. lia.
  - done.
  - done.
  - done.
Qed.

Lemma publish_reaches_all_witness :
  let b := run [Subscribe [] None 1 Block; Subscribe [] (Some 4) 1 DropOldest] bus_new in
  shutting_down_ b = false ∧ NoDup (subs_ b) ∧
  (λ u, q_ (queue_ u)) <$> heap (run_thread 4 0 (publish_event (LlmStarted 1) b)) !! 0
    = Some [LlmStarted 1].
Proof.
  intros b. assert (Hnd : NoDup (subs_ b)) by (vm_compute; repeat constructor; set_solver).
  split; [reflexivity|]. split; [exact Hnd|].
  pose proof (publish_reaches_all (LlmStarted 1) b eq_refl Hnd) as H. cbn zeta in H.
  destruct H as (_ & _ & H).
  - intros sid Hin. assert (sid = 0 ∨ sid = 1) as [-> | ->] by (vm_compute in Hin; set_solver).
    all: eexists; split; [vm_compute; reflexivity|]; vm_compute; discriminate.
  - specialize (H 0). change (threads b) with (@nil Thread) in H. cbn [length] in H.
    change (2 + length (subs_ b)) with 4 in H. rewrite H. reflexivity.
Defined.

(** Stopping a subscription. Once [stop] has cleared [running_], under
    every continuation, the handler is called at most once more (for the
    event in the worker's hand, or one it is about to pop): whatever else is
    queued is never handled, although the queue still holds it. And once the
    queue is closed the worker has returned after at most three of its own
    steps, so the join ends. *)
Theorem stop_discards ls b sid u :
  heap b !! sid = Some u → running_ u = false →
  ∃ u', heap (run ls b) !! sid = Some u' ∧
    (∃ es, handled u' = handled u ++ es ∧ length es ≤ 1 ∧
           (worker_ u = WLoop ∨ worker_ u = WDone → es = [])) ∧
    (closed_ (queue_ u) = true → 3 ≤ worker_steps sid ls → worker_ u' = WDone).
Proof.
  intros Hu Hr. destruct (winding_run ls b sid u Hu Hr) as (u' & Hu' & [_ _ (es & Hes & Hb) Hf]).
  exists u'. split; [done|]. split.
  - exists es. split; [done|]. split; [destruct (worker_ u); cbn in Hb; lia|].
    intros [E|E]; rewrite E in Hb; cbn in Hb; destruct es; cbn in Hb; done || lia.
  - intros Hc Hn. specialize (Hf Hc). destruct (worker_ u'); cbn in Hf; try done.
    all: destruct (worker_ u); cbn in Hf; lia.
Qed.

Lemma stop_discards_witness :
  let b := run [Subscribe [] None 4 Block; Publish Pause; Publish Resume;
                RunThread 0; RunThread 0; RunThread 1; RunThread 1; Stop 0; RunThread 2; RunThread 2]
             bus_new in
  ∃ u u', heap b !! 0 = Some u ∧ running_ u = false ∧ q_ (queue_ u) = [Pause; Resume] ∧
    heap (run [RunWorker 0; RunWorker 0; RunWorker 0] b) !! 0 = Some u' ∧
    worker_ u' = WDone ∧ handled u' = [].
Proof.
  intros b. eexists. destruct (stop_discards [RunWorker 0; RunWorker 0; RunWorker 0] b 0 _
    ltac:(vm_compute; reflexivity) eq_refl) as (u' & Hu' & (es & He & _ & Hes) & Hd).
  exists u'. split; [vm_compute; reflexivity|]. split; [reflexivity|]. split; [reflexivity|].
  split; [exact Hu'|]. split; [apply Hd; [reflexivity | vm_compute; lia]|].
  rewrite He, Hes; [reflexivity | by left].
Defined.
