(* ===== verification/Config.v ===== *)
(** * Configuration (src/src/config/config.hpp, config.cpp)

    The structures of the configuration tree, [validate], the personality
    overlay and the alias resolution, and the loader with the YAML reader and
    the file system as parameters. [validate] is the list of its checks in
    program order, each with the error it returns; the result is the first
    that fails. *)
From S2P Require Import Prelude.

(** ** The structures *)

Record LoggingConfig := {
  level : str; sink : str; file_path : option str; dir_path : option str;
  mirror_to_stderr : bool; vram_monitor_interval_ms : Z; vram_low_threshold_mib : Z;
  trace_events : bool;
}.
Record ControlConfig := { bind_ : str; port : Z }.
Record PipelineConfig := {
  fake_driver_enabled : bool; fake_sentences_per_turn : Z; fake_idle_between_turns_ms : Z;
  fake_barge_in_probability : fl;
}.
Record ServiceHealthConfig := {
  health_url : str; fail_pipeline_if_down : bool; probe_interval_healthy_ms : Z;
  probe_interval_degraded_ms : Z; degraded_max_failures : Z;
}.
Record LlmConfig := MkLlmConfig {
  llm_base_url : str; llm_model : str; llm_unit : str; temperature : fl; top_p : fl;
  repeat_penalty : fl; max_tokens : Z; max_prompt_tokens : Z; llm_request_timeout_seconds : Z;
  keep_alive_interval_seconds : Z; llm_health : ServiceHealthConfig;
}.
#[global] Instance eta_llm : Eta LlmConfig := λ s,
  MkLlmConfig (llm_base_url s) (llm_model s) (llm_unit s) (temperature s) (top_p s)
    (repeat_penalty s) (max_tokens s) (max_prompt_tokens s) (llm_request_timeout_seconds s)
    (keep_alive_interval_seconds s) (llm_health s).
Record SttConfig := MkSttConfig {
  stt_base_url : str; stt_model : str; stt_request_timeout_seconds : Z; language : str;
  streaming : bool; warmup_on_startup : bool; min_utterance_rms : Z;
  stt_health : ServiceHealthConfig;
}.
#[global] Instance eta_stt : Eta SttConfig := λ s,
  MkSttConfig (stt_base_url s) (stt_model s) (stt_request_timeout_seconds s) (language s)
    (streaming s) (warmup_on_startup s) (min_utterance_rms s) (stt_health s).
Record TtsVoice := { model_id : str; voice_id : str }.
#[global] Instance TtsVoice_eq_dec : EqDecision TtsVoice.
Proof. solve_decision. Defined.
Record TtsConfig := MkTtsConfig {
  tts_health : ServiceHealthConfig; tts_base_url : str; voices : smap str;
  voices_resolved : smap TtsVoice; fallback_lang : str; tts_request_timeout_seconds : Z;
  tempo_wpm : Z;
}.
#[global] Instance eta_tts : Eta TtsConfig := λ s,
  MkTtsConfig (tts_health s) (tts_base_url s) (voices s) (voices_resolved s) (fallback_lang s)
    (tts_request_timeout_seconds s) (tempo_wpm s).
Record SupervisorConfig := { pipeline_fail_grace_seconds : Z; probe_timeout_ms : Z }.
Record MemorySummaryConfig := {
  trigger : str; turn_threshold : Z; token_threshold : Z; idle_seconds : Z; sum_language : str;
}.
Record MemoryFactsConfig := { facts_policy : str; confidence_threshold : fl }.
Record MemoryConfig := {
  db_path : str; mem_recent_turns_n : Z; write_queue_capacity : Z;
  summary : MemorySummaryConfig; facts : MemoryFactsConfig;
}.
Record SentenceSplitterConfig := MkSplitterConfig {
  max_sentence_chars : Z; detect_code_fences : bool;
}.
#[global] Instance eta_splitter_config : Eta SentenceSplitterConfig := λ s,
  MkSplitterConfig (max_sentence_chars s) (detect_code_fences s).
Record SelfListenConfig := { self_enabled : bool; self_max_in_flight : Z }.
Record DialogueConfig := MkDialogueConfig {
  recent_turns_n : Z; max_assistant_sentences : Z; max_assistant_tokens : Z;
  self_listen : SelfListenConfig; max_tts_queue_sentences : Z; fallback_language : str;
  system_prompts : smap str; sentence_splitter : SentenceSplitterConfig;
}.
#[global] Instance eta_dialogue : Eta DialogueConfig := λ s,
  MkDialogueConfig (recent_turns_n s) (max_assistant_sentences s) (max_assistant_tokens s)
    (self_listen s) (max_tts_queue_sentences s) (fallback_language s) (system_prompts s)
    (sentence_splitter s).
Record AudioLoopbackConfig := { ring_seconds : Z }.
Record AudioConfig := {
  output_device : str; input_device : str; capture_enabled : bool; sample_rate_hz : Z;
  buffer_frames : Z; half_duplex_while_speaking : bool; half_duplex_hangover_ms : Z;
  loopback : AudioLoopbackConfig; skip_alsa_full_probe : bool;
}.
Record ApmConfig := {
  aec_enabled : bool; ns_enabled : bool; agc_enabled : bool;
  initial_delay_estimate_ms : Z; max_delay_ms : Z; use_system_aec : bool;
}.
Record PlaybackConfig := {
  max_queue_chunks : Z; underrun_log_throttle_ms : Z; prefill_ms : Z;
}.
Record VadConfig := MkVadConfig {
  provider : str; model_path : str; onset_threshold : fl; offset_threshold : fl;
  min_speech_ms : Z; hangover_ms : Z; pre_padding_ms : Z; post_padding_ms : Z;
}.
#[global] Instance eta_vad : Eta VadConfig := λ s,
  MkVadConfig (provider s) (model_path s) (onset_threshold s) (offset_threshold s)
    (min_speech_ms s) (hangover_ms s) (pre_padding_ms s) (post_padding_ms s).
Record UtteranceConfig := { utt_max_in_flight : Z; max_duration_ms : Z }.
Record BargeInConfig := {
  barge_enabled : bool; require_aec_converged : bool; min_aec_erle_db : fl;
  min_vad_probability : fl; cool_down_after_turn_ms : Z; min_real_utterance_chars : Z;
}.

Record LlmModelEntry := { llm_file : str; llm_url : str; llm_size : Z; llm_purpose : str }.
Record SttModelEntry := { stt_id : str; stt_purpose : str }.
Record TtsModelEntry := { tts_id : str; tts_voice : str; tts_purpose : str }.
Record VadModelEntry := { vad_file : str; vad_url : str; vad_size : Z; vad_purpose : str }.
Record ModelsConfig := {
  models_llm : smap LlmModelEntry; models_stt : smap SttModelEntry;
  models_tts : smap TtsModelEntry; models_vad : smap VadModelEntry;
}.

Record PersonalityLlmOverride := {
  p_temperature : option fl; p_top_p : option fl; p_repeat_penalty : option fl;
}.
Record PersonalityDialogueOverride := {
  p_max_assistant_sentences : option Z; p_max_assistant_tokens : option Z;
  p_max_sentence_chars : option Z;
}.
Record Personality := {
  p_description : str; p_system_prompts : smap str; p_voices : smap str;
  p_tempo_wpm : option Z; p_llm : PersonalityLlmOverride; p_dialogue : PersonalityDialogueOverride;
}.

Record Config := MkConfig {
  models : ModelsConfig; logging : LoggingConfig; control : ControlConfig;
  pipeline : PipelineConfig; llm : LlmConfig; stt : SttConfig; tts : TtsConfig;
  supervisor : SupervisorConfig; memory : MemoryConfig; dialogue : DialogueConfig;
  audio : AudioConfig; playback : PlaybackConfig; vad : VadConfig; utterance : UtteranceConfig;
  apm : ApmConfig; barge_in : BargeInConfig; personalities : smap Personality;
  active_personality : str;
}.
#[global] Instance eta_config : Eta Config := λ s,
  MkConfig (models s) (logging s) (control s) (pipeline s) (llm s) (stt s) (tts s)
    (supervisor s) (memory s) (dialogue s) (audio s) (playback s) (vad s) (utterance s)
    (apm s) (barge_in s) (personalities s) (active_personality s).

Inductive LogSink := SinkStderr | SinkJournal | SinkFile | SinkDir.

Definition parse_log_sink (s : str) : LogSink :=
  if decide (s = lit "journal") then SinkJournal
  else if decide (s = lit "file") then SinkFile
  else if decide (s = lit "dir") then SinkDir
  else SinkStderr.

(** ** validate *)

Definition kValidLogLevels : list str :=
  lit <$> ["trace"; "debug"; "info"; "warn"; "error"; "critical"; "off"]%string.
Definition kValidSinks : list str := lit <$> ["stderr"; "journal"; "file"; "dir"]%string.
Definition kSummaryTriggers : list str := lit <$> ["turns"; "tokens"; "idle"; "hybrid"]%string.
Definition kFactsPolicies : list str :=
  lit <$> ["conservative"; "moderate"; "aggressive"; "manual_only"]%string.
Definition contains (value : str) (valid_set : list str) : bool := existsb (λ v, bool_decide (v = value)) valid_set.

(** A check: the condition under which it fails, and its error. *)
Definition check : Type := bool * str.
Definition zero (z : Z) : bool := bool_decide (z = 0%Z).
Definition empty_str (s : str) : bool := bool_decide (s = []).
Definition outside (lo hi : Q) (x : fl) : bool := fl_lt x (Some lo) || fl_lt (Some hi) x.
Definition no_scheme (url : str) : bool := bool_decide (str_find (lit "://") url = None).

Definition checks_core (cfg : Config) : list check := [
  (negb (contains (level (logging cfg)) kValidLogLevels),
   lit "config: logging.level: invalid value '" ++ level (logging cfg) ++ lit "'");
  (negb (contains (sink (logging cfg)) kValidSinks),
   lit "config: logging.sink: invalid value '" ++ sink (logging cfg) ++ lit "'");
  (bool_decide (sink (logging cfg) = lit "file") && bool_decide (file_path (logging cfg) = None),
   lit "config: logging.sink='file' requires logging.file_path");
  (bool_decide (sink (logging cfg) = lit "dir") && bool_decide (dir_path (logging cfg) = None),
   lit "config: logging.sink='dir' requires logging.dir_path");
  (zero (port (control cfg)), lit "config: control.port: must be non-zero");
  (outside 0 1 (fake_barge_in_probability (pipeline cfg)),
   lit "config: pipeline.fake_barge_in_probability: must be in [0, 1]");
  (zero (fake_sentences_per_turn (pipeline cfg)),
   lit "config: pipeline.fake_sentences_per_turn: must be > 0");
  (outside 0 2 (temperature (llm cfg)), lit "config: llm.temperature: must be in [0, 2]");
  (fl_le (top_p (llm cfg)) (Some 0) || fl_lt (Some 1) (top_p (llm cfg)),
   lit "config: llm.top_p: must be in (0, 1]");
  (outside 0 2 (repeat_penalty (llm cfg)), lit "config: llm.repeat_penalty: must be in [0, 2]");
  (zero (max_tokens (llm cfg)), lit "config: llm.max_tokens: must be > 0");
  (zero (max_prompt_tokens (llm cfg)), lit "config: llm.max_prompt_tokens: must be > 0");
  (zero (mem_recent_turns_n (memory cfg)), lit "config: memory.recent_turns_n: must be > 0");
  (negb (contains (trigger (summary (memory cfg))) kSummaryTriggers),
   lit "config: memory.summary.trigger: must be one of turns|tokens|idle|hybrid");
  (negb (contains (facts_policy (facts (memory cfg))) kFactsPolicies),
   lit "config: memory.facts.policy: must be conservative|moderate|aggressive|manual_only");
  (zero (max_assistant_sentences (dialogue cfg)),
   lit "config: dialogue.max_assistant_sentences: must be > 0")]%Q.

Definition checks_health (name : str) (h : ServiceHealthConfig) : list check :=
  if empty_str (health_url h) then [] else [
  (zero (probe_interval_healthy_ms h),
   lit "config: " ++ name ++ lit ".health.probe_interval_healthy_ms: must be > 0");
  (zero (probe_interval_degraded_ms h),
   lit "config: " ++ name ++ lit ".health.probe_interval_degraded_ms: must be > 0");
  (zero (degraded_max_failures h),
   lit "config: " ++ name ++ lit ".health.degraded_max_failures: must be > 0")].

Definition checks_prompts (cfg : Config) : list check := [
  (zero (probe_timeout_ms (supervisor cfg)), lit "config: supervisor.probe_timeout_ms: must be > 0");
  (bool_decide (system_prompts (dialogue cfg) ≠ [])
     && negb (smap_contains (fallback_language (dialogue cfg)) (system_prompts (dialogue cfg))),
   lit "config: dialogue.system_prompts: must contain an entry for the fallback_language ('"
     ++ fallback_language (dialogue cfg) ++ lit "')")].

Definition checks_stt (cfg : Config) : list check :=
  if empty_str (stt_base_url (stt cfg)) then [] else [
  (no_scheme (stt_base_url (stt cfg)), lit "config: stt.base_url: must include scheme (http://...)");
  (empty_str (stt_model (stt cfg)), lit "config: stt.model: required when stt.base_url is set");
  (zero (stt_request_timeout_seconds (stt cfg)),
   lit "config: stt.request_timeout_seconds: must be > 0")].

Definition checks_voice (cfg : Config) (entry : str * str) : list check :=
  let '(lang, alias) := entry in
  let rit := smap_find lang (voices_resolved (tts cfg)) in [
  (empty_str alias,
   lit "config: tts.voices[" ++ lang ++ lit "]: alias name required (e.g. en-amy, ru-irina)");
  (bool_decide (rit = None),
   lit "config: tts.voices[" ++ lang ++ lit "]: unknown alias '" ++ alias
     ++ lit "' — register it under models.tts or pick a configured one");
  (match rit with Some v => empty_str (model_id v) || empty_str (voice_id v) | None => false end,
   lit "config: models.tts[" ++ alias ++ lit "]: id + voice required")].

Definition checks_tts (cfg : Config) : list check := [
  (zero (tts_request_timeout_seconds (tts cfg)),
   lit "config: tts.request_timeout_seconds: must be > 0");
  (negb (zero (tempo_wpm (tts cfg)))
     && (bool_decide (tempo_wpm (tts cfg) < 50)%Z || bool_decide (400 < tempo_wpm (tts cfg))%Z),
   lit "config: tts.tempo_wpm: must be 0 or in [50, 400]")]
  ++ checks_stt cfg ++ [
  (bool_decide (voices (tts cfg) ≠ []) && empty_str (tts_base_url (tts cfg)),
   lit "config: tts.base_url: must be set when tts.voices is non-empty");
  (negb (empty_str (tts_base_url (tts cfg))) && no_scheme (tts_base_url (tts cfg)),
   lit "config: tts.base_url: must include scheme (http://...)")]
  ++ flat_map (checks_voice cfg) (voices (tts cfg)) ++ [
  (bool_decide (voices (tts cfg) ≠ [])
     && negb (smap_contains (fallback_lang (tts cfg)) (voices (tts cfg))),
   lit "config: tts.fallback_lang ('" ++ fallback_lang (tts cfg)
     ++ lit "') must match one of tts.voices keys")].

Definition checks_audio (cfg : Config) : list check := [
  (zero (sample_rate_hz (audio cfg)), lit "config: audio.sample_rate_hz: must be > 0");
  (zero (buffer_frames (audio cfg)), lit "config: audio.buffer_frames: must be > 0");
  (zero (max_tts_queue_sentences (dialogue cfg)),
   lit "config: dialogue.max_tts_queue_sentences: must be > 0");
  (outside 0 1 (onset_threshold (vad cfg)), lit "config: vad.onset_threshold: must be in [0, 1]");
  (outside 0 1 (offset_threshold (vad cfg)), lit "config: vad.offset_threshold: must be in [0, 1]");
  (fl_lt (onset_threshold (vad cfg)) (offset_threshold (vad cfg)),
   lit "config: vad.offset_threshold must be <= vad.onset_threshold (otherwise the hysteresis band collapses)");
  (zero (min_speech_ms (vad cfg)), lit "config: vad.min_speech_ms: must be > 0");
  (zero (hangover_ms (vad cfg)), lit "config: vad.hangover_ms: must be > 0");
  (zero (utt_max_in_flight (utterance cfg)), lit "config: utterance.max_in_flight: must be > 0");
  (zero (max_duration_ms (utterance cfg)), lit "config: utterance.max_duration_ms: must be > 0");
  (zero (ring_seconds (loopback (audio cfg))),
   lit "config: audio.loopback.ring_seconds: must be > 0");
  (zero (max_delay_ms (apm cfg)), lit "config: apm.max_delay_ms: must be > 0");
  (bool_decide (max_delay_ms (apm cfg) < initial_delay_estimate_ms (apm cfg))%Z,
   lit "config: apm.initial_delay_estimate_ms must be <= apm.max_delay_ms");
  (fl_lt (min_aec_erle_db (barge_in cfg)) (Some 0%Q),
   lit "config: barge_in.min_aec_erle_db: must be >= 0");
  (outside 0 1 (min_vad_probability (barge_in cfg)),
   lit "config: barge_in.min_vad_probability: must be in [0, 1]");
  (negb (empty_str (active_personality cfg))
     && negb (smap_contains (active_personality cfg) (personalities cfg)),
   lit "config: active_personality: '" ++ active_personality cfg
     ++ lit "' is not a key in personalities — pick one of the configured presets, or leave active_personality empty")].

Definition checks (cfg : Config) : list check :=
  checks_core cfg
  ++ checks_health (lit "llm") (llm_health (llm cfg))
  ++ checks_health (lit "stt") (stt_health (stt cfg))
  ++ checks_health (lit "tts") (tts_health (tts cfg))
  ++ checks_prompts cfg ++ checks_tts cfg ++ checks_audio cfg.

Fixpoint first_failure (cs : list check) : option str :=
  match cs with [] => None | (b, msg) :: cs => if b : bool then Some msg else first_failure cs end.

Definition validate (cfg : Config) : option str := first_failure (checks cfg).

(** ** Personalities and aliases *)

(** [if (o) field = *o] *)
Definition overlay {A} (o : option A) (x : A) : A := default x o.
Definition overlay_map {A} (src dst : smap A) : smap A :=
  foldl (λ m kv, smap_set kv.1 kv.2 m) dst src.

Definition overlay_dialogue (p : Personality) (d : DialogueConfig) : DialogueConfig :=
  d <| system_prompts ::= overlay_map (p_system_prompts p) |>
    <| max_assistant_sentences ::= overlay (p_max_assistant_sentences (p_dialogue p)) |>
    <| max_assistant_tokens ::= overlay (p_max_assistant_tokens (p_dialogue p)) |>
    <| sentence_splitter ::= λ ss,
         ss <| max_sentence_chars ::= overlay (p_max_sentence_chars (p_dialogue p)) |> |>.
Definition overlay_tts (p : Personality) (t : TtsConfig) : TtsConfig :=
  t <| voices ::= overlay_map (p_voices p) |> <| tempo_wpm ::= overlay (p_tempo_wpm p) |>.
Definition overlay_llm (p : Personality) (l : LlmConfig) : LlmConfig :=
  l <| temperature ::= overlay (p_temperature (p_llm p)) |>
    <| top_p ::= overlay (p_top_p (p_llm p)) |>
    <| repeat_penalty ::= overlay (p_repeat_penalty (p_llm p)) |>.
Definition overlay_personality (p : Personality) (cfg : Config) : Config :=
  cfg <| dialogue ::= overlay_dialogue p |> <| tts ::= overlay_tts p |> <| llm ::= overlay_llm p |>.

Definition find_personality (cfg : Config) : option Personality :=
  if empty_str (active_personality cfg) then None
  else smap_find (active_personality cfg) (personalities cfg).

Definition apply_active_personality (cfg : Config) : Config :=
  match find_personality cfg with None => cfg | Some p => overlay_personality p cfg end.

Definition resolve_voices (catalog : smap TtsModelEntry) (vs : smap str) : smap TtsVoice :=
  foldl (λ m kv,
    match smap_find kv.2 catalog with
    | None => m
    | Some e => smap_set kv.1 {| model_id := tts_id e; voice_id := tts_voice e |} m
    end) [] vs.

Definition resolve_stt (m : ModelsConfig) (s : SttConfig) : SttConfig :=
  match smap_find (stt_model s) (models_stt m) with
  | Some e => s <| stt_model := stt_id e |>
  | None => s
  end.

Definition resolve_vad (m : ModelsConfig) (v : VadConfig) : VadConfig :=
  match smap_find (model_path v) (models_vad m) with
  | Some e => v <| model_path := lit "models/silero/" ++ vad_file e |>
  | None => v
  end.

Definition resolve_tts (m : ModelsConfig) (t : TtsConfig) : TtsConfig :=
  t <| voices_resolved := resolve_voices (models_tts m) (voices t) |>.

Definition resolve_aliases (cfg : Config) : Config :=
  let cfg := apply_active_personality cfg in
  cfg <| stt ::= resolve_stt (models cfg) |>
      <| vad ::= resolve_vad (models cfg) |>
      <| tts ::= resolve_tts (models cfg) |>.

(** ** Loading. The YAML reader and the file system are parameters. *)
Section load.
Context (read_yaml : str → str + Config).

Definition load_from_string (yaml : str) : str + Config :=
  match read_yaml yaml with
  | inl ec => inl (lit "config: parse error: " ++ ec)
  | inr cfg =>
      let cfg := resolve_aliases cfg in
      match validate cfg with Some verr => inl verr | None => inr cfg end
  end.

Context (read : str → option str).

Definition load_from_file (path : str) : str + Config :=
  match read path with
  | None => inl (lit "config: cannot open file: " ++ path)
  | Some text => load_from_string text
  end.
End load.

(** ** Specification *)

Definition in_range (lo hi : Q) (x : fl) : Prop := ∀ q, x = Some q → (lo <= q <= hi)%Q.
Definition keyed {A} (k : str) (m : smap A) : Prop := is_Some (smap_find k m).

Record health_ok (h : ServiceHealthConfig) : Prop := {
  ho_healthy : probe_interval_healthy_ms h ≠ 0%Z;
  ho_degraded : probe_interval_degraded_ms h ≠ 0%Z;
  ho_failures : degraded_max_failures h ≠ 0%Z;
}.

(** What the components rely on. NaN is outside no range: [in_range] says
    nothing of it. *)
Record config_ok (cfg : Config) : Prop := {
  co_level : level (logging cfg) ∈ kValidLogLevels;
  co_sink : sink (logging cfg) ∈ kValidSinks;
  co_file : sink (logging cfg) = lit "file" → is_Some (file_path (logging cfg));
  co_dir : sink (logging cfg) = lit "dir" → is_Some (dir_path (logging cfg));
  co_port : port (control cfg) ≠ 0%Z;
  co_barge_prob : in_range 0 1 (fake_barge_in_probability (pipeline cfg));
  co_fake_sentences : fake_sentences_per_turn (pipeline cfg) ≠ 0%Z;
  co_temperature : in_range 0 2 (temperature (llm cfg));
  co_top_p : ∀ q, top_p (llm cfg) = Some q → (0 < q <= 1)%Q;
  co_penalty : in_range 0 2 (repeat_penalty (llm cfg));
  co_max_tokens : max_tokens (llm cfg) ≠ 0%Z;
  co_max_prompt : max_prompt_tokens (llm cfg) ≠ 0%Z;
  co_recent : mem_recent_turns_n (memory cfg) ≠ 0%Z;
  co_trigger : trigger (summary (memory cfg)) ∈ kSummaryTriggers;
  co_policy : facts_policy (facts (memory cfg)) ∈ kFactsPolicies;
  co_sentences : max_assistant_sentences (dialogue cfg) ≠ 0%Z;
  co_health : ∀ h, h ∈ [llm_health (llm cfg); stt_health (stt cfg); tts_health (tts cfg)] →
              health_url h ≠ [] → health_ok h;
  co_probe : probe_timeout_ms (supervisor cfg) ≠ 0%Z;
  co_prompts : system_prompts (dialogue cfg) ≠ [] →
               keyed (fallback_language (dialogue cfg)) (system_prompts (dialogue cfg));
  co_tts_timeout : tts_request_timeout_seconds (tts cfg) ≠ 0%Z;
  co_tempo : tempo_wpm (tts cfg) ≠ 0%Z → (50 ≤ tempo_wpm (tts cfg) ≤ 400)%Z;
  co_stt : stt_base_url (stt cfg) ≠ [] →
           is_Some (str_find (lit "://") (stt_base_url (stt cfg))) ∧ stt_model (stt cfg) ≠ [] ∧
           stt_request_timeout_seconds (stt cfg) ≠ 0%Z;
  co_tts_url : voices (tts cfg) ≠ [] → tts_base_url (tts cfg) ≠ [];
  co_tts_scheme : tts_base_url (tts cfg) ≠ [] → is_Some (str_find (lit "://") (tts_base_url (tts cfg)));
  co_voices : ∀ lang alias, (lang, alias) ∈ voices (tts cfg) →
    alias ≠ [] ∧ ∃ v, smap_find lang (voices_resolved (tts cfg)) = Some v ∧
                      model_id v ≠ [] ∧ voice_id v ≠ [];
  co_fallback : voices (tts cfg) ≠ [] → keyed (fallback_lang (tts cfg)) (voices (tts cfg));
  co_rate : sample_rate_hz (audio cfg) ≠ 0%Z;
  co_frames : buffer_frames (audio cfg) ≠ 0%Z;
  co_tts_queue : max_tts_queue_sentences (dialogue cfg) ≠ 0%Z;
  co_onset : in_range 0 1 (onset_threshold (vad cfg));
  co_offset : in_range 0 1 (offset_threshold (vad cfg));
  co_hysteresis : ∀ a b, offset_threshold (vad cfg) = Some a → onset_threshold (vad cfg) = Some b →
                  (a <= b)%Q;
  co_min_speech : min_speech_ms (vad cfg) ≠ 0%Z;
  co_hangover : hangover_ms (vad cfg) ≠ 0%Z;
  co_in_flight : utt_max_in_flight (utterance cfg) ≠ 0%Z;
  co_duration : max_duration_ms (utterance cfg) ≠ 0%Z;
  co_ring : ring_seconds (loopback (audio cfg)) ≠ 0%Z;
  co_delay : max_delay_ms (apm cfg) ≠ 0%Z;
  co_estimate : (initial_delay_estimate_ms (apm cfg) ≤ max_delay_ms (apm cfg))%Z;
  co_erle : ∀ q, min_aec_erle_db (barge_in cfg) = Some q → (0 <= q)%Q;
  co_vad_prob : in_range 0 1 (min_vad_probability (barge_in cfg));
  co_personality : active_personality cfg ≠ [] → keyed (active_personality cfg) (personalities cfg);
}.

(** ** Lemmas *)

Fixpoint all_pass (cs : list check) : Prop :=
  match cs with [] => True | c :: cs => c.1 = false ∧ all_pass cs end.

Lemma first_failure_none cs : first_failure cs = None ↔ all_pass cs.
Proof. induction cs as [|[[|] m] cs IH]; cbn; naive_solver. Qed.

Lemma all_pass_app cs cs' : all_pass (cs ++ cs') ↔ all_pass cs ∧ all_pass cs'.
Proof. induction cs as [|c cs IH]; cbn; tauto. Qed.

Lemma zero_false z : zero z = false ↔ z ≠ 0%Z.
Proof. unfold zero. by rewrite bool_decide_eq_false. Qed.

Lemma empty_str_false s : empty_str s = false ↔ s ≠ [].
Proof. unfold empty_str. by rewrite bool_decide_eq_false. Qed.

Lemma not_contains v l : negb (contains v l) = false ↔ v ∈ l.
Proof.
  rewrite negb_false_iff. unfold contains. rewrite existsb_exists. split.
  - intros (x & Hx & ->%bool_decide_eq_true_1). by apply list_elem_of_In.
  - intros H. exists v. split; [by apply list_elem_of_In|]. by apply bool_decide_eq_true_2.
Qed.

Lemma fl_lt_false x y : fl_lt x y = false ↔ ∀ p q, x = Some p → y = Some q → (q <= p)%Q.
Proof.
  unfold fl_lt. destruct x as [p|], y as [q|]; try (split; naive_solver).
  rewrite negb_false_iff, Qle_bool_iff. naive_solver.
Qed.

Lemma fl_le_false x y : fl_le x y = false ↔ ∀ p q, x = Some p → y = Some q → (q < p)%Q.
Proof.
  unfold fl_le. destruct x as [p|], y as [q|]; try (split; naive_solver).
  rewrite <- not_true_iff_false, Qle_bool_iff.
  split; [intros H ? ? [= <-] [= <-]; by apply Qnot_le_lt | intros H Hle; by apply (Qlt_not_le _ _ (H p q eq_refl eq_refl))].
Qed.

Lemma outside_false lo hi x : outside lo hi x = false ↔ in_range lo hi x.
Proof.
  unfold outside, in_range. rewrite orb_false_iff, !fl_lt_false. naive_solver.
Qed.

Lemma no_scheme_false s : no_scheme s = false ↔ is_Some (str_find (lit "://") s).
Proof. unfold no_scheme. by rewrite bool_decide_eq_false, <- not_eq_None_Some. Qed.

Lemma missing_false {A} k (m : smap A) : negb (smap_contains k m) = false ↔ keyed k m.
Proof.
  rewrite negb_false_iff. unfold smap_contains, keyed. by rewrite bool_decide_eq_true, <- not_eq_None_Some.
Qed.

Lemma guarded_false (b c : bool) : b && c = false ↔ (b = true → c = false).
Proof. destruct b, c; naive_solver. Qed.

Lemma checks_health_ok name h :
  all_pass (checks_health name h) ↔ (health_url h ≠ [] → health_ok h).
Proof.
  unfold checks_health. destruct (empty_str (health_url h)) eqn:E.
  - apply bool_decide_eq_true_1 in E. rewrite E. done.
  - apply empty_str_false in E. cbn [all_pass fst]. rewrite !zero_false.
    split; [intros (?&?&?&_) _; by split | intros H; by destruct (H E)].
Qed.

Lemma bool_ne_false {A} `{EqDecision A} (l : A) : bool_decide (l ≠ l) = false.
Proof. by apply bool_decide_eq_false_2; intros []. Qed.

Create Rewrite HintDb config_checks.
#[export] Hint Rewrite zero_false not_contains outside_false
  no_scheme_false @missing_false guarded_false orb_false_iff fl_lt_false fl_le_false
  empty_str_false negb_true_iff @bool_decide_eq_true @bool_decide_eq_false @not_eq_None_Some
  Z.nlt_ge : config_checks.

(** The remaining shapes of a condition, all on [bool_decide]. *)
Lemma voice_ok cfg lang alias :
  all_pass (checks_voice cfg (lang, alias)) ↔
  alias ≠ [] ∧ ∃ v, smap_find lang (voices_resolved (tts cfg)) = Some v ∧ model_id v ≠ [] ∧ voice_id v ≠ [].
Proof.
  unfold checks_voice. cbn [all_pass fst]. rewrite empty_str_false.
  destruct (smap_find lang (voices_resolved (tts cfg))) as [v|].
  - rewrite orb_false_iff, !empty_str_false, bool_decide_eq_false. naive_solver.
  - rewrite bool_decide_eq_false. naive_solver.
Qed.

Lemma voices_ok cfg vs :
  all_pass (flat_map (checks_voice cfg) vs) ↔
  ∀ lang alias, (lang, alias) ∈ vs →
    alias ≠ [] ∧ ∃ v, smap_find lang (voices_resolved (tts cfg)) = Some v ∧ model_id v ≠ [] ∧ voice_id v ≠ [].
Proof.
  induction vs as [|[lang alias] vs IH]; cbn [flat_map].
  - split; [set_solver|done].
  - rewrite all_pass_app, voice_ok, IH. split.
    + intros [H1 H2] l a [[= -> ->]|H]%elem_of_cons; eauto.
    + intros H. split; [apply H; by left | intros; apply H; by right].
Qed.

Lemma stt_checks_ok cfg :
  all_pass (checks_stt cfg) ↔
  (stt_base_url (stt cfg) ≠ [] →
   is_Some (str_find (lit "://") (stt_base_url (stt cfg))) ∧ stt_model (stt cfg) ≠ [] ∧
   stt_request_timeout_seconds (stt cfg) ≠ 0%Z).
Proof.
  unfold checks_stt. destruct (empty_str (stt_base_url (stt cfg))) eqn:E.
  - apply bool_decide_eq_true_1 in E. rewrite E. done.
  - apply empty_str_false in E. cbn [all_pass fst].
    rewrite no_scheme_false, empty_str_false, zero_false. naive_solver.
Qed.

(** The health sections are checked one by one. *)
Lemma three_ok {A} (P : A → Prop) x y z : (∀ h, h ∈ [x; y; z] → P h) ↔ P x ∧ P y ∧ P z.
Proof.
  split; [intros H; split_and!; apply H; set_solver|].
  intros (?&?&?) h Hh. rewrite !elem_of_cons in Hh. naive_solver set_solver.
Qed.

Lemma bounded_ok lo hi x : in_range lo hi x ↔ (∀ q, x = Some q → lo <= q)%Q ∧ (∀ q, x = Some q → q <= hi)%Q.
Proof. unfold in_range. naive_solver. Qed.

Lemma overlay_map_find {A} (src dst : smap A) k :
  NoDup src.*1 →
  smap_find k (overlay_map src dst) =
    match smap_find k src with Some v => Some v | None => smap_find k dst end.
Proof.
  unfold overlay_map. revert dst. induction src as [|[k1 v1] src IH]; intros dst Hnd; [done|].
  inversion Hnd; subst. cbn [foldl]. rewrite IH by done. rewrite smap_find_cons. cbn [fst snd].
  rewrite smap_find_set. destruct (decide (k1 = k)) as [->|]; [|done].
  destruct (smap_find k src) eqn:E; [|done]. by apply smap_find_in in E.
Qed.

Definition resolve_voice (catalog : smap TtsModelEntry) (alias : str) : option TtsVoice :=
  (λ e, {| model_id := tts_id e; voice_id := tts_voice e |}) <$> smap_find alias catalog.

Lemma resolve_voices_find catalog vs k :
  NoDup vs.*1 →
  smap_find k (resolve_voices catalog vs) =
    match smap_find k vs with Some alias => resolve_voice catalog alias | None => None end.
Proof.
  unfold resolve_voices. intros Hnd.
  enough (∀ m, smap_find k (foldl (λ m kv, match smap_find kv.2 catalog with None => m
    | Some e => smap_set kv.1 {| model_id := tts_id e; voice_id := tts_voice e |} m end) m vs) =
    match smap_find k vs ≫= resolve_voice catalog with Some v => Some v | None => smap_find k m end) as H.
  { rewrite H. destruct (smap_find k vs); cbn; [by destruct (resolve_voice _ _)|done]. }
  induction vs as [|[k1 a1] vs IH]; intros m; [done|].
  inversion Hnd; subst. cbn [foldl fst snd]. rewrite IH by done. rewrite smap_find_cons.
  destruct (decide (k1 = k)) as [->|Hne].
  - assert (smap_find k vs = None) as ->.
    { destruct (smap_find k vs) eqn:E; [by apply smap_find_in in E|done]. }
    cbn. unfold resolve_voice. destruct (smap_find a1 catalog); cbn; [|done].
    by rewrite smap_find_set, decide_True.
  - destruct (smap_find a1 catalog); [|done]. by rewrite smap_find_set, decide_False.
Qed.

Lemma overlay_map_sorted {A} (src dst : smap A) : smap_sorted dst → smap_sorted (overlay_map src dst).
Proof.
  unfold overlay_map. revert dst. induction src as [|[k v] src IH]; intros dst H; [done|].
  cbn. by apply IH, smap_set_sorted.
Qed.

Lemma overlay_map_twice {A} (src dst : smap A) :
  smap_sorted src → smap_sorted dst → overlay_map src (overlay_map src dst) = overlay_map src dst.
Proof.
  intros Hs Hd. pose proof (overlay_map_sorted src dst Hd) as Hm.
  assert (∀ k v, smap_find k src = Some v → smap_find k (overlay_map src dst) = Some v) as Hf.
  { intros k v Hk. rewrite overlay_map_find by (by apply smap_sorted_nodup). by rewrite Hk. }
  generalize dependent (overlay_map src dst). clear dst Hd. intros m Hm Hf.
  apply smap_sorted_nodup in Hs. unfold overlay_map.
  induction src as [|[k v] src IH]; [done|]. inversion Hs; subst. cbn.
  rewrite (smap_set_id k v m) by (done || (apply Hf; by rewrite smap_find_cons, decide_True)).
  apply IH; [done|]. intros k' v' Hk. apply Hf. rewrite smap_find_cons.
  destruct (decide (k = k')) as [->|]; [|done]. by apply smap_find_in in Hk.
Qed.

Lemma overlay_twice {A} (o : option A) x : overlay o (overlay o x) = overlay o x.
Proof. by destruct o. Qed.

(** The maps of a configuration read from a file are [std::map]s. *)
Record well_keyed (cfg : Config) : Prop := {
  wk_voices : smap_sorted (voices (tts cfg));
  wk_prompts : smap_sorted (system_prompts (dialogue cfg));
  wk_personas : ∀ k p, smap_find k (personalities cfg) = Some p →
    smap_sorted (p_voices p) ∧ smap_sorted (p_system_prompts p);
}.

Lemma config_ext (c c' : Config) :
  models c = models c' → logging c = logging c' → control c = control c' →
  pipeline c = pipeline c' → llm c = llm c' → stt c = stt c' → tts c = tts c' →
  supervisor c = supervisor c' → memory c = memory c' → dialogue c = dialogue c' →
  audio c = audio c' → playback c = playback c' → vad c = vad c' → utterance c = utterance c' →
  apm c = apm c' → barge_in c = barge_in c' → personalities c = personalities c' →
  active_personality c = active_personality c' → c = c'.
Proof. destruct c, c'; cbn. intros. by subst. Qed.

Lemma overlay_dialogue_twice p d :
  smap_sorted (p_system_prompts p) → smap_sorted (system_prompts d) →
  overlay_dialogue p (overlay_dialogue p d) = overlay_dialogue p d.
Proof.
  intros H1 H2. pose proof (overlay_map_twice _ _ H1 H2) as H. destruct d as [? ? ? ? ? ? sp []].
  revert H. lazy -[overlay overlay_map]. intros H. by rewrite !overlay_twice, H.
Qed.

Lemma overlay_llm_twice p l : overlay_llm p (overlay_llm p l) = overlay_llm p l.
Proof. destruct l. lazy -[overlay]. by rewrite !overlay_twice. Qed.

Lemma overlay_resolve_tts p m t :
  smap_sorted (p_voices p) → smap_sorted (voices t) →
  resolve_tts m (overlay_tts p (resolve_tts m (overlay_tts p t))) = resolve_tts m (overlay_tts p t).
Proof.
  intros H1 H2. pose proof (overlay_map_twice _ _ H1 H2) as H. destruct t as [? ? vs ? ? ? ?].
  revert H. lazy -[overlay overlay_map resolve_voices]. intros H. by rewrite overlay_twice, H.
Qed.

Ltac config_eq :=
  apply config_ext;
  lazy -[resolve_stt resolve_vad resolve_tts overlay_dialogue overlay_tts overlay_llm]; try reflexivity.

Lemma resolve_with o cfg :
  find_personality cfg = o →
  resolve_aliases cfg =
    (match o with None => cfg | Some p => overlay_personality p cfg end)
      <| stt ::= resolve_stt (models cfg) |> <| vad ::= resolve_vad (models cfg) |>
      <| tts ::= resolve_tts (models cfg) |>.
Proof. intros <-. unfold resolve_aliases, apply_active_personality. by destruct (find_personality cfg). Qed.

Lemma resolve_twice cfg :
  well_keyed cfg →
  resolve_aliases (resolve_aliases cfg) =
    (resolve_aliases cfg) <| stt ::= resolve_stt (models cfg) |> <| vad ::= resolve_vad (models cfg) |>.
Proof.
  intros [Hv Hp Hk]. pose proof (resolve_with _ cfg eq_refl) as E.
  assert (find_personality (resolve_aliases cfg) = find_personality cfg) as Hf
    by (rewrite E; destruct (find_personality cfg) eqn:Ef; exact Ef).
  rewrite (resolve_with _ _ Hf), E.
  destruct (find_personality cfg) as [p|] eqn:Ef; [|destruct cfg; config_eq].
  assert (smap_sorted (p_voices p) ∧ smap_sorted (p_system_prompts p)) as [H1 H2].
  { unfold find_personality in Ef. destruct (empty_str _); [done|eauto]. }
  pose proof (overlay_llm_twice p (llm cfg)). pose proof (overlay_dialogue_twice p (dialogue cfg) H2 Hp).
  pose proof (overlay_resolve_tts p (models cfg) (tts cfg) H1 Hv).
  destruct cfg. config_eq; assumption.
Qed.

Lemma resolved_voices cfg :
  well_keyed cfg →
  let cfg' := resolve_aliases cfg in let p := find_personality cfg in
  models cfg' = models cfg ∧
  (∀ lang, smap_find lang (voices (tts cfg')) =
     match p ≫= λ p, smap_find lang (p_voices p) with
     | Some alias => Some alias | None => smap_find lang (voices (tts cfg)) end) ∧
  (∀ lang, smap_find lang (voices_resolved (tts cfg')) =
     match smap_find lang (voices (tts cfg')) with
     | Some alias => resolve_voice (models_tts (models cfg)) alias | None => None end) ∧
  temperature (llm cfg') = match p with Some p => overlay (p_temperature (p_llm p)) (temperature (llm cfg))
                                      | None => temperature (llm cfg) end.
Proof.
  intros [Hv Hp Hk]. cbn zeta. rewrite (resolve_with _ cfg eq_refl).
  destruct (find_personality cfg) as [p|] eqn:Ef.
  - assert (smap_sorted (p_voices p)) as H1.
    { unfold find_personality in Ef. destruct (empty_str _); [done|]. by destruct (Hk _ _ Ef). }
    change (let vs := overlay_map (p_voices p) (voices (tts cfg)) in
      models cfg = models cfg ∧
      (∀ lang, smap_find lang vs = match smap_find lang (p_voices p) with
         | Some alias => Some alias | None => smap_find lang (voices (tts cfg)) end) ∧
      (∀ lang, smap_find lang (resolve_voices (models_tts (models cfg)) vs) =
         match smap_find lang vs with
         | Some alias => resolve_voice (models_tts (models cfg)) alias | None => None end) ∧
      overlay (p_temperature (p_llm p)) (temperature (llm cfg))
        = overlay (p_temperature (p_llm p)) (temperature (llm cfg))).
    cbn zeta. split_and!; try done; intros lang.
    + apply overlay_map_find. by apply smap_sorted_nodup.
    + apply resolve_voices_find. by apply smap_sorted_nodup, overlay_map_sorted.
  - split_and!; try done. intros lang. apply (resolve_voices_find _ (voices (tts cfg))).
    by apply smap_sorted_nodup.
Qed.

Lemma resolved_models cfg :
  stt (resolve_aliases cfg) = resolve_stt (models cfg) (stt cfg) ∧
  vad (resolve_aliases cfg) = resolve_vad (models cfg) (vad cfg).
Proof. rewrite (resolve_with _ cfg eq_refl). by destruct (find_personality cfg). Qed.

Lemma resolve_stt_twice m s :
  resolve_stt m (resolve_stt m s) = resolve_stt m s ↔
  ∀ e e', smap_find (stt_model s) (models_stt m) = Some e →
          smap_find (stt_id e) (models_stt m) = Some e' → stt_id e' = stt_id e.
Proof.
  unfold resolve_stt at 2 3. destruct (smap_find (stt_model s) (models_stt m)) as [e|] eqn:E.
  - unfold resolve_stt. cbn. destruct (smap_find (stt_id e) (models_stt m)) as [e'|] eqn:E'.
    + split; [intros H%(f_equal stt_model) ? ? [= <-] Hf; cbn in H; congruence|].
      intros H. specialize (H e e' eq_refl E'). by rewrite H.
    + split; [intros _ ? ? [= <-]; congruence|done].
  - unfold resolve_stt. rewrite E. split; [congruence|done].
Qed.

Lemma resolve_vad_twice m s :
  resolve_vad m (resolve_vad m s) = resolve_vad m s ↔
  ∀ e e', smap_find (model_path s) (models_vad m) = Some e →
          smap_find (lit "models/silero/" ++ vad_file e) (models_vad m) = Some e' →
          vad_file e' = vad_file e.
Proof.
  unfold resolve_vad at 2 3. destruct (smap_find (model_path s) (models_vad m)) as [e|] eqn:E.
  - unfold resolve_vad.
    change (model_path (s <| model_path := lit "models/silero/" ++ vad_file e |>))
      with (lit "models/silero/" ++ vad_file e).
    destruct (smap_find (lit "models/silero/" ++ vad_file e) (models_vad m)) as [e'|] eqn:E'.
    + split.
      * intros H%(f_equal model_path) ? ? [= <-] Hf. rewrite E' in Hf. injection Hf as <-.
        exact (app_inv_head _ _ _ H).
      * intros H. specialize (H e e' eq_refl E'). by rewrite H.
    + split; [intros _ ? ? [= <-]; congruence|done].
  - unfold resolve_vad. rewrite E. split; [congruence|done].
Qed.

Lemma validate_none cfg : validate cfg = None ↔ config_ok cfg.
Proof.
  unfold validate. rewrite first_failure_none. unfold checks, checks_tts.
  rewrite !all_pass_app, !checks_health_ok, stt_checks_ok, voices_ok.
  cbn [all_pass fst checks_core checks_prompts checks_audio].
  split.
  - intros H. decompose [and] H. clear H. autorewrite with config_checks in *.
    split; try assumption; try (by eauto).
    + intros q Hq. split; naive_solver.
    + by apply (three_ok (λ h, health_url h ≠ [] → health_ok h)).
  - intros []. autorewrite with config_checks. apply (three_ok (λ h, health_url h ≠ [] → health_ok h)) in co_health0.
    split_and!; try assumption; try done; try (by eauto).
    + intros p q Hp [= <-]. by apply co_top_p0.
    + intros p q [= <-] Hp. by apply co_top_p0.
    + by apply co_health0.
    + by apply co_health0.
    + by apply co_health0.
    + intros p q Hp [= <-]. eauto.
Qed.

(** ** Properties *)

(** [C14] [validate] accepts exactly the configurations the components rely
    on: every check, in the order of the program, against the record of
    their assumptions. NaN passes every range check. *)
Theorem validate_exact cfg : validate cfg = None ↔ config_ok cfg.
Proof. apply validate_none. Qed.

(** Loading. A configuration that loads satisfies the record of
    assumptions; the voice of each language is the active personality's where
    it names one and the top-level one otherwise, and is resolved through the
    catalog of models to the entry registered under that alias (never left
    unresolved); a scalar the personality sets replaces the top-level one. *)
Theorem load_resolves (read_yaml : str → str + Config) yaml cfg cfg' :
  read_yaml yaml = inr cfg → well_keyed cfg → load_from_string read_yaml yaml = inr cfg' →
  let p := find_personality cfg in
  config_ok cfg' ∧ models cfg' = models cfg ∧
  (∀ lang, smap_find lang (voices (tts cfg')) =
     match p ≫= λ p, smap_find lang (p_voices p) with
     | Some alias => Some alias | None => smap_find lang (voices (tts cfg)) end) ∧
  (∀ lang alias, smap_find lang (voices (tts cfg')) = Some alias →
     ∃ e, smap_find alias (models_tts (models cfg)) = Some e ∧
       smap_find lang (voices_resolved (tts cfg'))
         = Some {| model_id := tts_id e; voice_id := tts_voice e |}) ∧
  temperature (llm cfg') = match p with Some p => overlay (p_temperature (p_llm p)) (temperature (llm cfg))
                                      | None => temperature (llm cfg) end.
Proof.
  intros Hr Hw Hl. cbn zeta. unfold load_from_string in Hl. rewrite Hr in Hl. cbn zeta in Hl.
  destruct (validate (resolve_aliases cfg)) eqn:Hv; [done|]. injection Hl as <-.
  apply validate_none in Hv. destruct (resolved_voices cfg Hw) as (Hm & Hvo & Hres & Ht).
  split_and!; try done. intros lang alias Hf. rewrite Hres, Hf. cbn.
  pose proof (co_voices _ Hv lang alias (smap_find_elem _ _ _ Hf)) as (_ & v & Hv' & _).
  rewrite Hres, Hf in Hv'. cbn in Hv'. unfold resolve_voice in *.
  destruct (smap_find alias (models_tts (models cfg))) as [e|] eqn:Ee; [|done]. eauto.
Qed.

(** A minimal configuration, for the witnesses. *)
Definition example_health : ServiceHealthConfig := Build_ServiceHealthConfig [] true 5000 1000 3.
Definition example_config : Config :=
  MkConfig
    {| models_llm := []; models_stt := [(lit "small", {| stt_id := lit "org/small"; stt_purpose := [] |})];
       models_tts := [(lit "en-amy", {| tts_id := lit "piper"; tts_voice := lit "amy"; tts_purpose := [] |})];
       models_vad := [] |}
    (Build_LoggingConfig (lit "info") (lit "stderr") None None false 1000 100 true)
    (Build_ControlConfig (lit "127.0.0.1") 9876)
    (Build_PipelineConfig false 3 1500 (Some 0%Q))
    (MkLlmConfig (lit "http://127.0.0.1") (lit "m") [] (Some (7 # 10)) (Some 1%Q) (Some 1%Q)
       400 3000 60 60 example_health)
    (MkSttConfig [] (lit "small") 30 (lit "en") true true 200 example_health)
    (MkTtsConfig example_health (lit "http://127.0.0.1") [(lit "en", lit "none")] [] (lit "en") 10 200)
    (Build_SupervisorConfig 30 3000)
    (Build_MemoryConfig [] 10 256 (Build_MemorySummaryConfig (lit "turns") 15 4000 120 (lit "dominant"))
       (Build_MemoryFactsConfig (lit "conservative") (Some (7 # 10))))
    (MkDialogueConfig 10 6 400 (Build_SelfListenConfig false 1) 3 (lit "en") [] (MkSplitterConfig 600 true))
    (Build_AudioConfig [] [] false 48000 480 false 200 (Build_AudioLoopbackConfig 2) true)
    (Build_PlaybackConfig 0 1000 100)
    (MkVadConfig (lit "silero") [] (Some (1 # 2)) (Some (35 # 100)) 200 600 300 100)
    (Build_UtteranceConfig 3 60000) (Build_ApmConfig true true true 50 250 false)
    (Build_BargeInConfig true true (Some 15%Q) (Some (6 # 10)) 300 3)
    [(lit "bender", Build_Personality [] [] [(lit "en", lit "en-amy")] (Some 180%Z)
        (Build_PersonalityLlmOverride (Some (Some 1%Q)) None None)
        (Build_PersonalityDialogueOverride (Some 2%Z) None None))]
    (lit "bender").

Lemma example_keyed : well_keyed example_config.
Proof.
  split; [repeat constructor..|]. intros k p. unfold example_config. cbn [personalities].
  rewrite smap_find_cons. case_decide; [|done]. intros [= <-]. split; repeat constructor.
Qed.

Lemma load_resolves_witness :
  ∃ cfg', load_from_string (λ _, inr example_config) [] = inr cfg' ∧ config_ok cfg' ∧
    smap_find (lit "en") (voices_resolved (tts cfg'))
      = Some {| model_id := lit "piper"; voice_id := lit "amy" |}.
Proof.
  eexists. split; [vm_compute; reflexivity|].
  destruct (load_resolves (λ _, inr example_config) [] example_config
    (resolve_aliases example_config) eq_refl example_keyed ltac:(vm_compute; reflexivity))
    as (Hok & _ & _ & Hv & _).
  split; [exact Hok|]. destruct (Hv (lit "en") (lit "en-amy") ltac:(vm_compute; reflexivity)) as (e & He & Hr).
  vm_compute in He. injection He as <-. exact Hr.
Defined.

(** The resolution is called idempotent. The overlay and the voices
    are; the recogniser's model and the path of the VAD are exactly when the
    name an alias resolves to is not registered as another alias. *)
Theorem resolve_idempotent cfg :
  well_keyed cfg →
  resolve_aliases (resolve_aliases cfg) = resolve_aliases cfg ↔
  (∀ e e', smap_find (stt_model (stt cfg)) (models_stt (models cfg)) = Some e →
     smap_find (stt_id e) (models_stt (models cfg)) = Some e' → stt_id e' = stt_id e) ∧
  (∀ e e', smap_find (model_path (vad cfg)) (models_vad (models cfg)) = Some e →
     smap_find (lit "models/silero/" ++ vad_file e) (models_vad (models cfg)) = Some e' →
     vad_file e' = vad_file e).
Proof.
  intros Hw. rewrite (resolve_twice cfg Hw).
  destruct (resolved_models cfg) as [Hs Hv].
  rewrite <- (resolve_stt_twice (models cfg)), <- (resolve_vad_twice (models cfg)), <- Hs, <- Hv.
  split.
  - intros H. split; [exact (f_equal stt H) | exact (f_equal vad H)].
  - intros [H1 H2]. clear Hs Hv Hw. generalize dependent (resolve_aliases cfg). generalize (models cfg).
    intros m c H1 H2. destruct c. config_eq; [exact H1 | exact H2].
Qed.

Lemma resolve_idempotent_witness :
  well_keyed example_config ∧ resolve_aliases (resolve_aliases example_config) = resolve_aliases example_config.
Proof.
  split; [exact example_keyed|]. apply (resolve_idempotent example_config example_keyed).
  split; [|intros e e'; vm_compute; discriminate].
  intros e e' H. vm_compute in H. injection H as <-. vm_compute. discriminate.
Defined.
