(* ===== verification/BargeIn.v ===== *)
(** * The barge-in detector (src/src/dialogue/barge_in.hpp, barge_in.cpp)

    [on_speech_started] as a function of the FSM snapshot it takes, the
    readings of the audio-processing module ([None] for a null pointer) and
    the clock; and the detector run next to the state machine it watches. *)
From S2P Require Import Prelude Event Turn Fsm Config.
Import Fsm.
Open Scope act_scope.

(** What the detector reads from [audio::Apm]: [aec_active()] and
    [erle_db()]. *)
Definition Apm : Type := option (bool * fl).

Record detector := MkDetector {
  system_aec_active_ : bool;
  cfg_ : BargeInConfig;
  det_sub_ : bool;
  fires_total_ : Z;
  suppressed_total_ : Z;
  suppressed_cooldown_ : Z;
  suppressed_aec_ : Z;
  last_fired_ns_ : Z;
  last_fired_turn_ : TurnId;
  has_on_fired_ : bool;
}.
#[global] Instance eta_detector : Eta detector := λ s,
  MkDetector (system_aec_active_ s) (cfg_ s) (det_sub_ s) (fires_total_ s) (suppressed_total_ s)
    (suppressed_cooldown_ s) (suppressed_aec_ s) (last_fired_ns_ s) (last_fired_turn_ s)
    (has_on_fired_ s).

Definition detector_new (system_aec : bool) (cfg : BargeInConfig) (on_fired : bool) : detector :=
  MkDetector system_aec cfg false 0 0 0 0 0 kNoTurn on_fired.

Inductive DetOut :=
  | DetPublish (e : Event)
  | OnFired (turn : TurnId) (now : Z).

Definition aec_active (apm : Apm) : bool := match apm with Some (active, _) => active | None => false end.

Definition erle_meets (apm : Apm) (threshold_db : fl) : bool :=
  match apm with
  | None => false
  | Some (_, None) => false
  | Some (_, Some erle) => fl_le threshold_db (Some erle)
  end.

Definition det_start (d : detector) : detector :=
  if det_sub_ d then d
  else if negb (barge_enabled (cfg_ d)) then d
  else d <| det_sub_ := true |>.

Definition det_stop (d : detector) : detector :=
  if negb (det_sub_ d) then d else d <| det_sub_ := false |>.

(** [None] is the default-constructed time point. *)
Definition last_fired_at (d : detector) : option Z :=
  if decide (last_fired_ns_ d = 0%Z) then None else Some (last_fired_ns_ d).

Definition aec_ok (apm : Apm) : Act detector DetOut bool :=
  d ← gets id;
  if negb (require_aec_converged (cfg_ d)) then ret true
  else if system_aec_active_ d then ret true
  else if negb (aec_active apm) then
    modify (λ d, d <| suppressed_aec_ ::= Z.succ |>) ;; ret false
  else if negb (erle_meets apm (min_aec_erle_db (cfg_ d))) then
    modify (λ d, d <| suppressed_aec_ ::= Z.succ |>) ;; ret false
  else ret true.

(** Time points are nanoseconds; [duration_cast] to milliseconds truncates
    towards zero. *)
Definition since_ms (now entered : Z) : Z := Z.quot (now - entered) 1000000.

Definition det_on_speech_started (snap : FsmSnapshot) (apm : Apm) (now : Z) : Act detector DetOut unit :=
  d ← gets id;
  if decide (snap_state snap ≠ Speaking) then ret ()
  else if decide (snap_active_turn snap = kNoTurn) then ret ()
  else if decide (last_fired_turn_ d = snap_active_turn snap) then ret ()
  else if decide (since_ms now (snap_entered_speaking_at snap) < cool_down_after_turn_ms (cfg_ d))%Z then
    modify (λ d, d <| suppressed_cooldown_ ::= Z.succ |> <| suppressed_total_ ::= Z.succ |>)
  else
    ok ← aec_ok apm;
    if negb ok then modify (λ d, d <| suppressed_total_ ::= Z.succ |>)
    else
      modify (λ d, d <| last_fired_turn_ := snap_active_turn snap |> <| last_fired_ns_ := now |>
                     <| fires_total_ ::= Z.succ |>) ;;
      emit (DetPublish (UserInterrupted (snap_active_turn snap) now)) ;;
      has ← gets has_on_fired_;
      when (has : bool) do emit (OnFired (snap_active_turn snap) now).

Definition evaluate_for_test (snap : FsmSnapshot) (apm : Apm) (now : Z) : Act detector DetOut bool :=
  det_on_speech_started snap apm now ;;
  d ← gets id;
  ret (bool_decide (last_fired_ns_ d ≠ 0%Z) && bool_decide (last_fired_turn_ d = snap_active_turn snap)).

(** ** The detector beside the FSM. The bus delivers events to each in its
    own thread: an event handled by the FSM, or a [SpeechStarted] evaluated
    by the detector against the FSM's state of that moment. *)
Inductive SysLabel :=
  | FsmEvent (now : Z) (e : Event)
  | Detect (apm : Apm) (now : Z).

Definition sys_step (l : SysLabel) (s : fsm) (d : detector) : fsm * detector * list DetOut :=
  match l with
  | FsmEvent now e => (exec (on_event now e) s, d, [])
  | Detect apm now =>
      let m := det_on_speech_started (snapshot s) apm now in (s, exec m d, outs m d)
  end.

Fixpoint sys_run (ls : list SysLabel) (s : fsm) (d : detector) : fsm * detector * list DetOut :=
  match ls with
  | [] => (s, d, [])
  | l :: ls => let '(s1, d1, o1) := sys_step l s d in
               let '(s2, d2, o2) := sys_run ls s1 d1 in (s2, d2, o1 ++ o2)
  end.

(** ** Specification *)

(** The gates, as the header documents them. *)
Definition echo_gate (d : detector) (apm : Apm) : Prop :=
  require_aec_converged (cfg_ d) = true → system_aec_active_ d = false →
  ∃ erle thr, apm = Some (true, Some erle) ∧ min_aec_erle_db (cfg_ d) = Some thr ∧ (thr <= erle)%Q.

Definition gates (d : detector) (snap : FsmSnapshot) (apm : Apm) (now : Z) : Prop :=
  snap_state snap = Speaking ∧ snap_active_turn snap ≠ kNoTurn ∧
  last_fired_turn_ d ≠ snap_active_turn snap ∧
  (cool_down_after_turn_ms (cfg_ d) ≤ since_ms now (snap_entered_speaking_at snap))%Z ∧
  echo_gate d apm.

(** The turns interrupted, in order. *)
Definition fired (os : list DetOut) : list TurnId :=
  omap (λ o, match o with DetPublish e => Some (event_turn e) | OnFired _ _ => None end) os.

(** The tallies agree with what was published. *)
Record det_inv (d : detector) (os : list DetOut) : Prop := {
  di_fires : fires_total_ d = Z.of_nat (length (fired os));
  di_suppressed : suppressed_total_ d = (suppressed_cooldown_ d + suppressed_aec_ d)%Z;
  di_last : last_fired_turn_ d = default kNoTurn (last (fired os));
  di_increasing : StronglySorted Z.lt (fired os);
  di_real : Forall (λ t, t ≠ kNoTurn) (fired os);
}.

(** ** Lemmas *)

Lemma erle_meets_spec apm thr :
  erle_meets apm thr = true ↔
  ∃ b e t, apm = Some (b, Some e) ∧ thr = Some t ∧ (t <= e)%Q.
Proof.
  unfold erle_meets, fl_le. destruct apm as [[b [e|]]|], thr as [t|]; try naive_solver.
  rewrite Qle_bool_iff. naive_solver.
Qed.

Definition aec_pass (d : detector) (apm : Apm) : bool :=
  negb (require_aec_converged (cfg_ d)) || system_aec_active_ d
  || (aec_active apm && erle_meets apm (min_aec_erle_db (cfg_ d))).

Lemma aec_pass_spec d apm : aec_pass d apm = true ↔ echo_gate d apm.
Proof.
  unfold aec_pass, echo_gate. destruct (require_aec_converged (cfg_ d)), (system_aec_active_ d); cbn;
    try (split; [done|intros _; done]).
  rewrite andb_true_iff, erle_meets_spec. split.
  - intros [Ha (b & e & t & -> & -> & Hle)] _ _. cbn in Ha. subst. eauto 10.
  - intros H. destruct (H eq_refl eq_refl) as (e & t & -> & -> & Hle). cbn. eauto 10.
Qed.

Lemma aec_ok_run apm d :
  aec_ok apm d = (aec_pass d apm, (if aec_pass d apm then d else d <| suppressed_aec_ ::= Z.succ |>), []).
Proof.
  unfold aec_ok, aec_pass. act_open. cbn. destruct (require_aec_converged (cfg_ d)); cbn; [|done].
  destruct (system_aec_active_ d); cbn; [done|].
  destruct (aec_active apm); cbn; [|done]. by destruct (erle_meets apm _).
Qed.

#[local] Arguments aec_ok : simpl never.

(** A [SpeechStarted] that is a barge-in candidate: past the first three
    tests. *)
Definition candidate (d : detector) (snap : FsmSnapshot) : bool :=
  bool_decide (snap_state snap = Speaking) && bool_decide (snap_active_turn snap ≠ kNoTurn)
  && bool_decide (last_fired_turn_ d ≠ snap_active_turn snap).

Definition cooling (d : detector) (snap : FsmSnapshot) (now : Z) : bool :=
  bool_decide (since_ms now (snap_entered_speaking_at snap) < cool_down_after_turn_ms (cfg_ d))%Z.

Lemma detect_run snap apm now d :
  det_on_speech_started snap apm now d =
  if negb (candidate d snap) then (tt, d, [])
  else if cooling d snap now then
    (tt, d <| suppressed_cooldown_ ::= Z.succ |> <| suppressed_total_ ::= Z.succ |>, [])
  else if negb (aec_pass d apm) then
    (tt, d <| suppressed_aec_ ::= Z.succ |> <| suppressed_total_ ::= Z.succ |>, [])
  else
    (tt, d <| last_fired_turn_ := snap_active_turn snap |> <| last_fired_ns_ := now |>
           <| fires_total_ ::= Z.succ |>,
     DetPublish (UserInterrupted (snap_active_turn snap) now)
       :: if has_on_fired_ d then [OnFired (snap_active_turn snap) now] else []).
Proof.
  unfold det_on_speech_started, candidate, cooling. act_open. cbn.
  case_bool_decide as H1; [rewrite decide_False by tauto | by rewrite decide_True by tauto].
  case_bool_decide as H2; [rewrite decide_False by tauto | by rewrite decide_True by tauto].
  case_bool_decide as H3; [rewrite decide_False by tauto | by rewrite decide_True by tauto].
  case_bool_decide as H4; [by rewrite decide_True by tauto | rewrite decide_False by tauto].
  rewrite aec_ok_run. destruct (aec_pass d apm); [|done]. cbn. by destruct (has_on_fired_ d).
Qed.

Lemma gates_spec d snap apm now :
  gates d snap apm now ↔ candidate d snap = true ∧ cooling d snap now = false ∧ aec_pass d apm = true.
Proof.
  unfold gates, candidate, cooling. rewrite aec_pass_spec, !andb_true_iff, !bool_decide_eq_true,
    bool_decide_eq_false, Z.nlt_ge. tauto.
Qed.

(** The ids of the state machine's turns only grow. *)
Definition ids_ok (s : fsm) : Prop := (0 < next_ (turns_ s))%Z ∧ (ctx_id (active_ s) < next_ (turns_ s))%Z.

Lemma fsm_active_step now e s :
  let s' := exec (on_event now e) s in
  (active_ s' = active_ s ∧ next_ (turns_ s') = next_ (turns_ s)) ∨
  (ctx_id (active_ s') = next_ (turns_ s) ∧ next_ (turns_ s') = u64 (next_ (turns_ s) + 1)).
Proof. destruct e; fsm_cases s; auto; left; by destruct (ctx_token act). Qed.

Lemma ids_step now e s :
  ids_ok s → (next_ (turns_ s) + 1 < 2 ^ 64)%Z →
  let s' := exec (on_event now e) s in
  ids_ok s' ∧ (ctx_id (active_ s) ≤ ctx_id (active_ s'))%Z ∧
  (next_ (turns_ s') ≤ next_ (turns_ s) + 1)%Z.
Proof.
  intros [H1 H2] Hlt. cbn zeta. unfold ids_ok.
  destruct (fsm_active_step now e s) as [[-> ->]|[-> ->]]; [lia|].
  unfold u64. rewrite Z.mod_small by lia. lia.
Qed.

Lemma snoc_increasing (l : list Z) x :
  StronglySorted Z.lt l → Forall (λ y, (y ≤ x)%Z) l → default 0%Z (last l) ≠ x ∨ l = [] →
  StronglySorted Z.lt (l ++ [x]).
Proof.
  induction 1 as [|y l Hs IH Hy]; intros Hle Hlast; cbn; [repeat constructor|].
  inversion Hle; subst. destruct l as [|z l].
  - cbn in *. constructor; [repeat constructor|]. constructor; [|done]. destruct Hlast; [lia|done].
  - change (last (y :: z :: l)) with (last (z :: l)) in Hlast. constructor.
    + apply IH; [done|]. destruct Hlast; [by left|done].
    + apply Forall_app. split; [done|]. constructor; [|done].
      inversion Hy; subst. inversion H2; subst. lia.
Qed.

Lemma detect_inv s d os apm now :
  det_inv d os → Forall (λ t, (t ≤ ctx_id (active_ s))%Z) (fired os) →
  let '(_, d', o) := det_on_speech_started (snapshot s) apm now d in
  det_inv d' (os ++ o) ∧ Forall (λ t, (t ≤ ctx_id (active_ s))%Z) (fired (os ++ o)).
Proof.
  intros I Hle. pose proof I as [I1 I2 I3 I4 I5]. rewrite detect_run.
  destruct (candidate d (snapshot s)) eqn:Ec; cbn [negb]; [|by rewrite app_nil_r].
  destruct (cooling _ _ _); [rewrite app_nil_r; split; [split|]; cbn; auto; lia|].
  destruct (aec_pass d apm); cbn [negb]; [|rewrite app_nil_r; split; [split|]; cbn; auto; lia].
  unfold candidate in Ec. rewrite !andb_true_iff, !bool_decide_eq_true in Ec.
  destruct Ec as [[_ Hne] Hlast].
  set (turn := snap_active_turn (snapshot s)) in *.
  assert (fired (os ++ (DetPublish (UserInterrupted turn now)
    :: (if has_on_fired_ d then [OnFired turn now] else []))) = fired os ++ [turn]) as Hf.
  { unfold fired. rewrite omap_app. by destruct (has_on_fired_ d). }
  split.
  - split; rewrite ?Hf; cbn; auto.
    + rewrite length_app; cbn. lia.
    + by rewrite last_snoc.
    + apply snoc_increasing; [done|done|]. left. intros E. apply Hlast. by rewrite I3.
    + apply Forall_app; auto.
  - rewrite Hf. apply Forall_app. split; [done|]. constructor; [|done]. unfold turn, snapshot; cbn. lia.
Qed.

Lemma sys_run_inv ls s d os :
  det_inv d os → ids_ok s → Forall (λ t, (t ≤ ctx_id (active_ s))%Z) (fired os) →
  (next_ (turns_ s) + Z.of_nat (length ls) < 2 ^ 64)%Z →
  let '(s', d', o) := sys_run ls s d in det_inv d' (os ++ o).
Proof.
  revert s d os. induction ls as [|l ls IH]; intros s d os I Hids Hle Hlen; cbn [sys_run].
  - by rewrite app_nil_r.
  - cbn [length] in Hlen. destruct l as [now e|apm now]; cbn [sys_step].
    + destruct (ids_step now e s Hids ltac:(lia)) as (Hids' & Hm & Hn).
      specialize (IH (exec (on_event now e) s) d os I Hids').
      destruct (sys_run ls _ d) as [[s2 d2] o2]. cbn. apply IH; [|lia].
      eapply Forall_impl; [exact Hle|]. cbn. lia.
    + pose proof (detect_inv s d os apm now I Hle) as H. unfold exec, outs.
      destruct (det_on_speech_started (snapshot s) apm now d) as [[u d1] o1]. cbn.
      destruct H as [I1 Hle1]. specialize (IH s d1 (os ++ o1) I1 Hids Hle1 ltac:(lia)).
      destruct (sys_run ls s d1) as [[s2 d2] o2]. by rewrite app_assoc.
Qed.

(** ** Properties *)

(** The detector fires exactly when the documented gates hold: the FSM
    is speaking a turn not fired for yet, the cool-down has passed, and echo
    cancellation is converged where that is required. It then publishes one
    [UserInterrupted] of the active turn and calls the observer with the same
    turn and time; otherwise it publishes nothing, remembers nothing, and
    counts the event as suppressed when it was a candidate. *)
Theorem detector_gates snap apm now d :
  let d' := exec (det_on_speech_started snap apm now) d in
  let os := outs (det_on_speech_started snap apm now) d in
  (gates d snap apm now →
     os = DetPublish (UserInterrupted (snap_active_turn snap) now)
            :: (if has_on_fired_ d then [OnFired (snap_active_turn snap) now] else []) ∧
     last_fired_turn_ d' = snap_active_turn snap ∧ last_fired_at d' = (if decide (now = 0%Z) then None else Some now) ∧
     fires_total_ d' = Z.succ (fires_total_ d) ∧ suppressed_total_ d' = suppressed_total_ d) ∧
  (¬ gates d snap apm now →
     os = [] ∧ last_fired_turn_ d' = last_fired_turn_ d ∧ last_fired_ns_ d' = last_fired_ns_ d ∧
     fires_total_ d' = fires_total_ d ∧
     suppressed_total_ d' = (suppressed_total_ d + if candidate d snap then 1 else 0)%Z).
Proof.
  cbn zeta. rewrite gates_spec. unfold exec, outs. rewrite detect_run.
  destruct (candidate d snap); cbn [negb].
  2: { split; [naive_solver|]. intros _. cbn. by rewrite Z.add_0_r. }
  destruct (cooling d snap now); [split; [naive_solver|done]|].
  destruct (aec_pass d apm); cbn [negb]; [|split; [naive_solver|done]].
  split; [intros _|naive_solver]. cbn. split_and!; try done.
Qed.

Lemma detector_gates_witness :
  let cfg := Build_BargeInConfig true true (Some 15%Q) (Some (6 # 10)) 300 3 in
  let d := detector_new false cfg true in
  let snap := {| snap_state := Speaking; snap_active_turn := 7%Z; snap_outcome := OSpeaking;
                 snap_sentences_played := 0%Z; snap_turns_completed := 0%Z;
                 snap_turns_interrupted := 0%Z; snap_turns_discarded := 0%Z;
                 snap_entered_speaking_at := 1000000%Z |} in
  gates d snap (Some (true, Some 20%Q)) 400000000%Z ∧
  outs (det_on_speech_started snap (Some (true, Some 20%Q)) 400000000%Z) d
    = [DetPublish (UserInterrupted 7 400000000); OnFired 7 400000000] ∧
  outs (det_on_speech_started snap (Some (true, None)) 400000000%Z) d = [].
Proof.
  intros cfg d snap.
  assert (H : gates d snap (Some (true, Some 20%Q)) 400000000%Z).
  { apply gates_spec. split_and!; vm_compute; reflexivity. }
  assert (H' : ¬ gates d snap (Some (true, None)) 400000000%Z).
  { rewrite gates_spec. vm_compute. intros (_ & _ & ?). discriminate. }
  split; [exact H|].
  split; [exact (proj1 (proj1 (detector_gates snap _ _ d) H))|exact (proj1 (proj2 (detector_gates snap _ _ d) H'))].
Defined.

(** [C13] At most one interruption per turn. With the detector beside the
    state machine, whatever the order in which events reach the two, the
    turns it interrupts are real and strictly increasing, and its tallies are
    exact: one fire per [UserInterrupted] published, and the suppressed total
    is the sum of its two causes. *)
Theorem one_interrupt_per_turn ls now system_aec cfg on_fired oobs sobs :
  (Z.of_nat (length ls) < 2 ^ 63)%Z →
  let '(_, d, os) := sys_run ls (exec (start now) (fsm_new turns_init oobs sobs))
                       (detector_new system_aec cfg on_fired) in
  StronglySorted Z.lt (fired os) ∧ Forall (λ t, t ≠ kNoTurn) (fired os) ∧
  fires_total_ d = Z.of_nat (length (fired os)) ∧
  suppressed_total_ d = (suppressed_cooldown_ d + suppressed_aec_ d)%Z.
Proof.
  intros Hlen. set (s0 := exec (start now) (fsm_new turns_init oobs sobs)).
  assert (ids_ok s0 ∧ next_ (turns_ s0) = 1%Z) as [Hids Hn]
    by (unfold s0, start, transition; destruct oobs, sobs; act_cbn; repeat split; cbn; lia).
  pose proof (sys_run_inv ls s0 (detector_new system_aec cfg on_fired) []) as H.
  destruct (sys_run ls s0 _) as [[s d] os]. cbn [app] in H.
  destruct H as [H1 H2 _ H4 H5].
  - split; try done; constructor.
  - done.
  - constructor.
  - rewrite Hn. lia.
  - done.
Qed.

Lemma one_interrupt_per_turn_witness :
  let cfg := Build_BargeInConfig true false None None 0 3 in
  let evs := [FsmEvent 1 (SpeechStarted 0 1); FsmEvent 2 (SpeechEnded 0 2);
              FsmEvent 3 (FinalTranscript 0 [] [] None 0 0); FsmEvent 4 (LlmSentence 1 0 [] []);
              Detect None 5; Detect None 6]%Z in
  let '(_, d, os) := sys_run evs (exec (start 0) (fsm_new turns_init true true))
                       (detector_new false cfg false) in
  fired os = [1%Z] ∧ fires_total_ d = Z.of_nat (length (fired os)).
Proof.
  intros cfg evs. pose proof (one_interrupt_per_turn evs 0 false cfg false true true ltac:(reflexivity)) as H.
  vm_compute in H. destruct H as (_ & _ & H & _). split; [reflexivity|]. exact H.
Defined.

(** The test hook answers whether the current turn was fired for, not
    whether this call published: the second call on a turn answers true. *)
Lemma evaluate_for_test_again snap apm now d :
  last_fired_turn_ d = snap_active_turn snap → last_fired_ns_ d ≠ 0%Z →
  result (evaluate_for_test snap apm now) d = true ∧ outs (evaluate_for_test snap apm now) d = [].
Proof.
  intros Ht Hns. unfold evaluate_for_test. rewrite result_bind, outs_bind.
  unfold exec, outs. rewrite detect_run. unfold candidate. rewrite (bool_decide_eq_false_2 (last_fired_turn_ d ≠ _)), andb_false_r by tauto.
  cbn. rewrite !bool_decide_eq_true_2 by done. done.
Qed.
