(* ===== verification/Splitter.v ===== *)
(** * The sentence splitter (src/src/dialogue/sentence_splitter.hpp, .cpp)

    Streaming: one character at a time, emitting sentences in order. The
    buffer is the list of its bytes; [pending_term_pos_] is [None] for npos.
    [size_t] counters of characters are [nat]. *)
From S2P Require Import Prelude Config.
Open Scope act_scope.

Definition kFenceOpen : str := lit "```".
Definition kAbbreviations : list str := lit <$>
  ["dr"; "mr"; "mrs"; "ms"; "prof"; "sr"; "jr"; "e.g"; "i.e"; "etc"; "vs"; "vol"; "no"; "fig";
   "approx"; "st"; "ave"; "blvd"; "rd"; "u.s"; "u.k"; "u.s.a"; "a.m"; "p.m"]%string.

Definition between (lo hi c : ascii) : bool :=
  bool_decide (byte_of lo ≤ byte_of c)%Z && bool_decide (byte_of c ≤ byte_of hi)%Z.
Definition is_lower (c : ascii) : bool := between "a" "z" c.
Definition is_upper (c : ascii) : bool := between "A" "Z" c.
Definition is_digit (c : ascii) : bool := between "0" "9" c.
Definition is_terminator (c : ascii) : bool :=
  bool_decide (c = "."%char) || bool_decide (c = "!"%char) || bool_decide (c = "?"%char).
Definition is_whitespace (c : ascii) : bool :=
  bool_decide (c = " "%char) || bool_decide (c = "009"%char)
  || bool_decide (c = "010"%char) || bool_decide (c = "013"%char).
Definition to_lower (c : ascii) : ascii := if is_upper c then of_byte (byte_of c + 32) else c.

Fixpoint trim_leading (s : str) : str :=
  match s with [] => [] | c :: s' => if is_whitespace c then trim_leading s' else s end.

Definition starts_with_at (s : str) (pos : nat) (needle : str) : bool :=
  if decide (length s < pos + length needle) then false
  else bool_decide (take (length needle) (drop pos s) = needle).

Inductive Mode := Normal | InCodeFence.
#[global] Instance Mode_eq_dec : EqDecision Mode.
Proof. solve_decision. Defined.

Record splitter := MkSplitter {
  cfg_ : SentenceSplitterConfig;
  buf_ : str;
  mode_ : Mode;
  chars_since_terminator_ : nat;
  pending_term_pos_ : option nat;
  pending_dot_run_ : nat;
}.
#[global] Instance eta_splitter : Eta splitter := λ s,
  MkSplitter (cfg_ s) (buf_ s) (mode_ s) (chars_since_terminator_ s) (pending_term_pos_ s)
    (pending_dot_run_ s).

Definition splitter_new (cfg : SentenceSplitterConfig) : splitter := MkSplitter cfg [] Normal 0 None 0.
Definition splitter_reset (s : splitter) : splitter := MkSplitter (cfg_ s) [] Normal 0 None 0.

Abbreviation M := (Act splitter str).

(** [buf_[i]], for an index in bounds. *)
Definition at_ (buf : str) (i : nat) : ascii := nth i buf "000"%char.
Definition back (buf : str) : ascii := at_ buf (length buf - 1).

(** [while (i > 0 && ok(buf_[i-1])) --i;] *)
Fixpoint scan_back (ok : ascii → bool) (buf : str) (i : nat) : nat :=
  match i with O => O | S j => if ok (at_ buf j) then scan_back ok buf j else i end.

Definition last_word_is_abbreviation (buf : str) : bool :=
  if decide (length buf < 2) then false
  else if decide (back buf ≠ "."%char) then false
  else
    let end_ := length buf - 1 in
    let i := scan_back (λ c, is_lower c || is_upper c || bool_decide (c = "."%char) || is_digit c)
               buf end_ in
    if decide (i = end_) then false
    else
      let word := to_lower <$> take (end_ - i) (drop i buf) in
      bool_decide (word ∈ kAbbreviations).

Definition buffer_ends_with_list_marker (buf : str) : bool :=
  if decide (length buf < 2) then false
  else if decide (back buf ≠ "."%char) then false
  else
    let end_ := length buf - 1 in
    let i := scan_back (λ c, is_digit c || is_lower c || is_upper c) buf end_ in
    if decide (i = end_) then false
    else
      let len := end_ - i in
      if decide (len < 1 ∨ 3 < len) then false
      else if decide (0 < i) then is_whitespace (at_ buf (i - 1))
      else true.

Definition buffer_ends_with_ellipsis (buf : str) : bool :=
  let n := length buf in
  if decide (3 ≤ n) then
    bool_decide (drop (n - 3) buf = lit "...")
    || bool_decide (byte_of <$> drop (n - 3) buf = [226; 128; 166]%Z)
  else false.

Definition buffer_ends_with_decimal (buf : str) : bool :=
  if decide (length buf < 2) then false
  else if decide (back buf ≠ "."%char) then false
  else is_digit (at_ buf (length buf - 2)).

Definition emit_sentence (raw : str) : M unit :=
  let sentence := trim_leading raw in
  when bool_decide (sentence ≠ []) do emit sentence.

Definition clear_pending : M unit :=
  modify (λ s, s <| pending_term_pos_ := None |> <| pending_dot_run_ := 0 |>).
Definition defer (run : nat) : M unit :=
  modify (λ s, s <| pending_term_pos_ := Some (length (buf_ s) - 1) |> <| pending_dot_run_ := run |>).
Definition count_char : M unit := modify (λ s, s <| chars_since_terminator_ ::= S |>).

Definition resolve_pending : M bool :=
  pos ← gets pending_term_pos_;
  modify (λ s, s <| pending_term_pos_ := None |>) ;;
  match pos with
  | None => ret false
  | Some p =>
      buf ← gets buf_;
      let head := take (S p) buf in
      let tail := drop (S p) buf in
      modify (λ s, s <| buf_ := tail |> <| chars_since_terminator_ := length tail |>) ;;
      emit_sentence head ;;
      ret true
  end.

Definition flush_buffer : M unit :=
  buf ← gets buf_;
  modify (λ s, s <| buf_ := [] |> <| chars_since_terminator_ := 0 |> <| pending_term_pos_ := None |>
                 <| pending_dot_run_ := 0 |>) ;;
  emit_sentence buf.

(** The block of [push] that decides a deferred terminator; the result says
    whether the loop continues with the next character. *)
Definition resolve_deferred (c : ascii) : M bool :=
  s ← gets id;
  match pending_term_pos_ s with
  | None => ret false
  | Some p =>
      if bool_decide (c = "."%char) && bool_decide (at_ (buf_ s) p = "."%char) then
        modify (λ s, s <| pending_dot_run_ ::= S |>) ;; ret true
      else if is_digit c then clear_pending ;; count_char ;; ret true
      else if decide (2 ≤ pending_dot_run_ s) then clear_pending ;; count_char ;; ret true
      else resolve_pending ;; ret false
  end.

Definition on_terminator (c : ascii) : M unit :=
  buf ← gets buf_;
  if last_word_is_abbreviation buf || buffer_ends_with_list_marker buf then clear_pending
  else if buffer_ends_with_decimal buf then defer 1
  else if buffer_ends_with_ellipsis buf then clear_pending
  else defer (if decide (c = "."%char) then 1 else 0).

Definition forced_flush (c : ascii) : M unit :=
  s ← gets id;
  when bool_decide (max_sentence_chars (cfg_ s) ≤ Z.of_nat (chars_since_terminator_ s))%Z
       && (is_whitespace c || bool_decide (c = ","%char)) do flush_buffer.

(** The code-fence transition, after the character is appended. *)
Definition fence_transition (pre_size : nat) : M unit :=
  s ← gets id;
  when detect_code_fences (cfg_ s) && bool_decide (length kFenceOpen ≤ pre_size + 1)
        && starts_with_at (buf_ s) (length (buf_ s) - length kFenceOpen) kFenceOpen do
    modify (λ s, s <| mode_ := if decide (mode_ s = Normal) then InCodeFence else Normal |>).

(** The body of the loop of [push]. *)
Definition push_char (c : ascii) : M unit :=
  pre_size ← gets (λ s, length (buf_ s));
  modify (λ s, s <| buf_ ::= λ b, b ++ [c] |>) ;;
  fence_transition pre_size ;;
  mode ← gets mode_;
  if decide (mode = InCodeFence) then count_char
  else
    continue ← resolve_deferred c;
    if (continue : bool) then ret ()
    else if is_terminator c then on_terminator c
    else count_char ;; forced_flush c.

Fixpoint push (text : str) : M unit :=
  match text with [] => ret () | c :: text => push_char c ;; push text end.

Definition flush : M unit :=
  clear_pending ;;
  buf ← gets buf_;
  (when bool_decide (buf ≠ []) do flush_buffer) ;;
  modify (λ s, s <| chars_since_terminator_ := 0 |>).

(** A whole stream: the chunks pushed in order, then the end. *)
Definition split_all (cfg : SentenceSplitterConfig) (chunks : list str) : list str :=
  outs (push (concat chunks) ;; flush) (splitter_new cfg).

Example split_usage :
  outs (push (lit "Hello, world. ")) (splitter_new (MkSplitterConfig 600 true)) = [lit "Hello, world."]
  ∧ split_all (MkSplitterConfig 600 true) [lit "Hello, world. "; lit "How are "; lit "you?"]
    = [lit "Hello, world."; lit "How are you?"]
  ∧ split_all (MkSplitterConfig 600 true) [lit "See Dr. Who. Pi is 3.14! Wait... ok"]
    = [lit "See Dr. Who. Pi is 3.14!"; lit "Wait... ok"]
  ∧ split_all (MkSplitterConfig 600 true) [lit "What?! hello.world"]
    = [lit "What?"; lit "!"; lit "hello."; lit "world"].
Proof. vm_compute. auto. Qed.

(** ** Specification *)

(** What a segment of the stream is emitted as. *)
Definition sentence_of (raw : str) : list str :=
  if decide (trim_leading raw = []) then [] else [trim_leading raw].

(** A segment is cut at a terminator, or by the forced flush. *)
Definition seg_ok (cfg : SentenceSplitterConfig) (raw : str) : Prop :=
  (∃ h t, raw = h ++ [t] ∧ is_terminator t = true) ∨
  (max_sentence_chars cfg ≤ Z.of_nat (length raw) + 1)%Z.

(** From [s] to [s'] the front of the buffer left it as segments, and they
    are what was emitted. *)
Definition emits (s s' : splitter) (os : list str) : Prop :=
  ∃ raws, buf_ s = concat raws ++ buf_ s' ∧ os = flat_map sentence_of raws ∧
          Forall (seg_ok (cfg_ s)) raws ∧ cfg_ s' = cfg_ s.

(** [slack] is 1 when the last character has been counted. *)
Record good (slack : nat) (s : splitter) : Prop := {
  good_pending : ∀ p, pending_term_pos_ s = Some p →
    p < length (buf_ s) ∧ is_terminator (at_ (buf_ s) p) = true;
  good_count : chars_since_terminator_ s ≤ length (buf_ s) + slack;
}.

Definition keeps {A} (i j : nat) (m : M A) : Prop :=
  ∀ s, good i s → good j (exec m s) ∧ emits s (exec m s) (outs m s).

Definition has_ws (s : str) : bool := match s with c :: _ => is_whitespace c | [] => false end.
Definition visible (s : str) : str := filter (λ c, is_whitespace c = false) s.

(** ** Lemmas *)

Lemma emits_refl s s' : buf_ s = buf_ s' → cfg_ s' = cfg_ s → emits s s' [].
Proof. intros H1 H2. exists []. by rewrite H1. Qed.

Lemma emits_trans s1 s2 s3 o1 o2 : emits s1 s2 o1 → emits s2 s3 o2 → emits s1 s3 (o1 ++ o2).
Proof.
  intros (r1 & H1 & -> & F1 & C1) (r2 & H2 & -> & F2 & C2). exists (r1 ++ r2).
  rewrite H1, H2, concat_app, app_assoc, flat_map_app, C2, C1. split_and!; try done.
  apply Forall_app. split; [done|]. by rewrite <- C1.
Qed.

Lemma keeps_bind {A B} i j k (m : M A) (f : A → M B) :
  keeps i j m → (∀ a, keeps j k (f a)) → keeps i k (bind m f).
Proof.
  intros Hm Hf s Hs. rewrite exec_bind, outs_bind. destruct (Hm s Hs) as [H1 H2].
  destruct (Hf (result m s) _ H1) as [H3 H4]. split; [done|]. by eapply emits_trans.
Qed.

Lemma keeps_ret {A} i (a : A) : keeps i i (ret a).
Proof. intros s Hs. split; [done|]. by apply emits_refl. Qed.

Lemma keeps_slack {A} i j (m : M A) : keeps i j m → keeps i (S j) m.
Proof.
  intros Hm s Hs. destruct (Hm s Hs) as [[H1 H2] H3]. split; [|done]. split; [done|lia].
Qed.

Lemma keeps_gets {A B} i j (f : splitter → A) (k : A → M B) :
  (∀ s, good i s → good j (exec (k (f s)) s) ∧ emits s (exec (k (f s)) s) (outs (k (f s)) s)) →
  keeps i j (bind (gets f) k).
Proof. intros H s Hs. rewrite exec_bind, outs_bind. cbn. by apply H. Qed.

Lemma keeps_clear i : keeps i i clear_pending.
Proof. intros s [H1 H2]. split; [by split|]. by apply emits_refl. Qed.

Lemma keeps_count : keeps 0 1 count_char.
Proof.
  intros s [H1 H2]. split; [|by apply emits_refl]. split; [done|].
  unfold count_char, exec, modify; cbn. lia.
Qed.

Lemma emit_run raw s : emit_sentence raw s = (tt, s, sentence_of raw).
Proof.
  unfold emit_sentence, sentence_of. case_bool_decide as E; case_decide; try done; tauto.
Qed.
#[local] Arguments emit_sentence : simpl never.

Lemma at_lookup b p : p < length b → b !! p = Some (at_ b p).
Proof. intros H. unfold at_. rewrite nth_lookup. by destruct (lookup_lt_is_Some_2 b p H) as [x ->]. Qed.

Lemma head_ends b p :
  p < length b → take (S p) b = take p b ++ [at_ b p].
Proof. intros H. by apply take_S_r, at_lookup. Qed.

Lemma keeps_resolve : keeps 0 0 resolve_pending.
Proof.
  intros s [H1 H2]. unfold resolve_pending. act_open. cbn.
  destruct (pending_term_pos_ s) as [p|] eqn:Ep; cbn.
  2: { split; [split; cbn; [done|lia]|]. by apply emits_refl. }
  destruct (H1 p eq_refl) as [Hlt Ht]. rewrite emit_run. cbn. split.
  - split; cbn; [done|lia].
  - exists [take (S p) (buf_ s)]. cbn. rewrite !app_nil_r. split_and!; try done.
    + by rewrite take_drop.
    + constructor; [|done]. left. rewrite head_ends by done. eauto.
Qed.

Lemma keeps_flush s :
  good 1 s → (max_sentence_chars (cfg_ s) ≤ Z.of_nat (chars_since_terminator_ s))%Z →
  good 1 (exec flush_buffer s) ∧ emits s (exec flush_buffer s) (outs flush_buffer s).
Proof.
  intros [H1 H2] Hm. unfold flush_buffer. act_open. cbn. rewrite emit_run. cbn.
  split; [split; cbn; [done|lia]|]. exists [buf_ s]. cbn. rewrite !app_nil_r.
  split_and!; try done. constructor; [|done]. right. lia.
Qed.

#[local] Arguments flush_buffer : simpl never.
#[local] Arguments resolve_pending : simpl never.
#[local] Arguments clear_pending : simpl never.
#[local] Arguments count_char : simpl never.

Lemma keeps_forced c : keeps 1 1 (forced_flush c).
Proof.
  intros s Hs. unfold forced_flush. act_open. cbn.
  case_bool_decide as Hm; cbn; [|split; [done|by apply emits_refl]].
  destruct (is_whitespace c || _); cbn; [|split; [done|by apply emits_refl]].
  apply (keeps_flush s Hs) in Hm. unfold exec, outs in Hm.
  by destruct (flush_buffer s) as [[u s'] o]; cbn in *.
Qed.

Lemma deferred_ok c s :
  good 0 s →
  let m := resolve_deferred c in
  good (if result m s then 1 else 0) (exec m s) ∧ emits s (exec m s) (outs m s).
Proof.
  intros Hs. cbn zeta. unfold resolve_deferred.
  assert (∀ b, keeps 0 1 (clear_pending ;; count_char ;; @ret splitter str bool b)) as Hcc.
  { intros b. eapply keeps_bind; [apply keeps_clear|]. intros _.
    eapply keeps_bind; [apply keeps_count|]. intros _. apply keeps_ret. }
  assert (keeps 0 0 (resolve_pending ;; @ret splitter str bool false)) as Hr.
  { eapply keeps_bind; [apply keeps_resolve|]. intros _. apply keeps_ret. }
  unfold exec, outs, result. rewrite bind_gets. change (id s) with s.
  destruct (pending_term_pos_ s) as [p|] eqn:Ep; [|split; [done|by apply emits_refl]].
  destruct (_ && _).
  - destruct Hs as [H1 H2]. split; [|by apply emits_refl]. split; [exact H1|cbn; lia].
  - destruct (is_digit c); [exact (Hcc true s Hs)|]. case_decide; [exact (Hcc true s Hs)|].
    replace ((resolve_pending ;; ret false) s).1.1 with false; [exact (Hr s Hs)|].
    unfold bind. by destruct (resolve_pending s) as [[? ?] ?].
Qed.

Lemma keeps_terminator c s :
  good 0 s → is_terminator c = true → (∃ b, buf_ s = b ++ [c]) →
  good 1 (exec (on_terminator c) s) ∧ emits s (exec (on_terminator c) s) (outs (on_terminator c) s).
Proof.
  intros Hs Hc [b Hb]. assert (∀ r, good 1 (exec (defer r) s)) as Hd.
  { intros r. destruct Hs as [_ H2]. split; cbn; [|lia]. intros p [= <-].
    rewrite Hb, length_app; cbn. split; [lia|]. unfold at_.
    by rewrite app_nth2, Nat.add_sub, Nat.sub_diag by lia. }
  assert (good 1 (exec clear_pending s) ∧ emits s (exec clear_pending s) (outs clear_pending s)) as Hcl
    by by apply (keeps_slack 0 0 clear_pending (keeps_clear 0)).
  unfold on_terminator, exec, outs. rewrite bind_gets. destruct (_ || _); [done|].
  destruct (buffer_ends_with_decimal _); [split; [apply Hd|by apply emits_refl]|].
  destruct (buffer_ends_with_ellipsis _); [done|]. split; [apply Hd|by apply emits_refl].
Qed.

(** [push_char] after the character is appended. *)
Definition push_rest (c : ascii) (pre_size : nat) : M unit :=
  fence_transition pre_size ;;
  mode ← gets mode_;
  if decide (mode = InCodeFence) then count_char
  else
    continue ← resolve_deferred c;
    if (continue : bool) then ret ()
    else if is_terminator c then on_terminator c
    else count_char ;; forced_flush c.

Lemma push_char_run c s :
  push_char c s = push_rest c (length (buf_ s)) (s <| buf_ ::= λ b, b ++ [c] |>).
Proof. unfold push_char. by rewrite bind_gets, bind_modify. Qed.

(** A resolution leaves the last character in the buffer. *)
Lemma deferred_last c s b :
  good 0 s → buf_ s = b ++ [c] → (∀ p, pending_term_pos_ s = Some p → p < length b) →
  ∃ b', buf_ (exec (resolve_deferred c) s) = b' ++ [c].
Proof.
  intros Hs Hb Hp. unfold resolve_deferred, exec. rewrite bind_gets. change (id s) with s.
  destruct (pending_term_pos_ s) as [p|] eqn:Ep; [|by eauto]. specialize (Hp p eq_refl).
  destruct (_ && _); [by eauto|]. destruct (is_digit c); [by eauto|]. case_decide; [by eauto|].
  unfold bind, resolve_pending. act_open. cbn. rewrite Ep. rewrite emit_run. cbn.
  rewrite Hb, drop_app_le by lia. eauto.
Qed.

(** Whether the buffer now ends a fence marker. *)
Definition at_fence (n : nat) (s : splitter) : bool :=
  detect_code_fences (cfg_ s) && bool_decide (length kFenceOpen ≤ n + 1)
  && starts_with_at (buf_ s) (length (buf_ s) - length kFenceOpen) kFenceOpen.
Definition toggle (m : Mode) : Mode := if decide (m = Normal) then InCodeFence else Normal.

Lemma fence_run n s :
  fence_transition n s = (tt, (if at_fence n s then s <| mode_ := toggle (mode_ s) |> else s), []).
Proof. unfold fence_transition. rewrite bind_gets. unfold at_fence. by destruct (_ && _). Qed.

Lemma rest_run c n s :
  push_rest c n s =
  let s := if at_fence n s then s <| mode_ := toggle (mode_ s) |> else s in
  if decide (mode_ s = InCodeFence) then count_char s
  else bind (resolve_deferred c) (λ continue : bool,
    if continue then ret ()
    else if is_terminator c then on_terminator c
    else bind count_char (λ _, forced_flush c)) s.
Proof.
  unfold push_rest. unfold bind at 1. rewrite fence_run. cbv zeta.
  set (s1 := if at_fence n s then _ else _). rewrite bind_gets.
  destruct (decide (mode_ s1 = InCodeFence)); [by destruct (count_char s1) as [[? ?] ?]|].
  by destruct (bind _ _ s1) as [[? ?] ?].
Qed.

Lemma keeps_rest c n s b :
  good 0 s → buf_ s = b ++ [c] → (∀ p, pending_term_pos_ s = Some p → p < length b) →
  good 1 (exec (push_rest c n) s) ∧ emits s (exec (push_rest c n) s) (outs (push_rest c n) s).
Proof.
  intros Hs Hb Hp. unfold exec, outs. rewrite rest_run. cbv zeta.
  set (s1 := if at_fence n s then _ else _).
  assert (good 0 s1 ∧ buf_ s1 = buf_ s ∧ cfg_ s1 = cfg_ s ∧ pending_term_pos_ s1 = pending_term_pos_ s)
    as (Hs1 & Hb1 & Hc1 & Hp1).
  { unfold s1. destruct (at_fence n s); [|done]. destruct Hs. split; [by split|done]. }
  assert (∀ s' o, good 1 s' ∧ emits s1 s' o → good 1 s' ∧ emits s s' o) as Hmv.
  { unfold emits. rewrite Hb1, Hc1. done. }
  apply Hmv. clear Hmv. rewrite <- Hb1 in Hb. rewrite <- Hp1 in Hp.
  case_decide; [by apply keeps_count|].
  pose proof (deferred_ok c s1 Hs1) as [H1 H2]. pose proof (deferred_last c s1 b Hs1 Hb Hp) as Hl.
  set (m := bind _ _). change (m s1).1.2 with (exec m s1). change (m s1).2 with (outs m s1).
  unfold m. rewrite exec_bind, outs_bind.
  set (s2 := exec (resolve_deferred c) s1) in *. set (r := result (resolve_deferred c) s1) in *.
  enough (good 1 (exec (if r then ret () else if is_terminator c then on_terminator c
             else bind count_char (λ _, forced_flush c)) s2) ∧
          emits s2 (exec (if r then ret () else if is_terminator c then on_terminator c
             else bind count_char (λ _, forced_flush c)) s2)
             (outs (if r then ret () else if is_terminator c then on_terminator c
             else bind count_char (λ _, forced_flush c)) s2)) as [G E].
  { split; [done|]. by eapply emits_trans. }
  destruct r; [split; [done|by apply emits_refl]|].
  destruct (is_terminator c) eqn:Et; [by apply keeps_terminator|].
  eapply keeps_bind; [apply keeps_count|intros _; apply keeps_forced|done].
Qed.

Lemma good_append c s :
  good 1 s → let s' := s <| buf_ ::= λ b, b ++ [c] |> in
  good 0 s' ∧ ∀ p, pending_term_pos_ s' = Some p → p < length (buf_ s).
Proof.
  intros [H1 H2]. cbn zeta. split; [|intros p Hp; by apply H1].
  split; cbn; [|rewrite length_app; cbn; lia]. intros p Hp. destruct (H1 p Hp) as [H3 H4].
  rewrite length_app. split; [lia|]. unfold at_ in *. by rewrite app_nth1.
Qed.

Lemma push_step c text s : push (c :: text) s = bind (push_char c) (λ _, push text) s.
Proof. done. Qed.

Lemma push_ok text s :
  good 1 s →
  good 1 (exec (push text) s) ∧
  emits (s <| buf_ ::= λ b, b ++ text |>) (exec (push text) s) (outs (push text) s).
Proof.
  revert s. induction text as [|c text IH]; intros s Hs.
  - split; [done|]. apply emits_refl; [|done]. cbn. by rewrite app_nil_r.
  - cbn [push]. rewrite exec_bind, outs_bind.
    destruct (good_append c s Hs) as [Ha Hp].
    pose proof (keeps_rest c (length (buf_ s)) _ (buf_ s) Ha eq_refl Hp) as [H1 H2].
    unfold exec, outs in H1, H2. rewrite <- push_char_run in H1, H2.
    fold (exec (push_char c) s) in H1, H2. fold (outs (push_char c) s) in H2.
    destruct (IH _ H1) as [H3 H4]. split; [done|].
    destruct H2 as (r1 & E1 & O1 & F1 & C1). destruct H4 as (r2 & E2 & O2 & F2 & C2).
    exists (r1 ++ r2). cbn in *. split_and!.
    + rewrite concat_app, <- app_assoc, <- E2, app_assoc, <- E1, <- app_assoc. done.
    + by rewrite O1, O2, flat_map_app.
    + apply Forall_app. split; [done|]. by rewrite <- C1.
    + by rewrite C2.
Qed.

Lemma good_new cfg : good 1 (splitter_new cfg).
Proof. split; cbn; [done|lia]. Qed.

Lemma flush_run s :
  flush s = (tt, s <| buf_ := [] |> <| chars_since_terminator_ := 0 |> <| pending_term_pos_ := None |>
                   <| pending_dot_run_ := 0 |>, sentence_of (buf_ s)).
Proof.
  unfold flush, clear_pending. rewrite bind_modify, bind_gets. cbn [buf_ set_field].
  case_bool_decide as E.
  - unfold flush_buffer, bind, gets, modify. cbn. rewrite emit_run. cbn. by rewrite app_nil_r.
  - destruct s as [cf b m n p r]. cbn in *. by subst.
Qed.

Lemma visible_trim s : visible (trim_leading s) = visible s.
Proof.
  unfold visible. induction s as [|c s IH]; [done|]. cbn [trim_leading].
  destruct (is_whitespace c) eqn:E; [|done]. rewrite IH. by rewrite filter_cons_False by congruence.
Qed.

Lemma visible_app a b : visible (a ++ b) = visible a ++ visible b.
Proof. apply filter_app. Qed.

Lemma visible_sentence raw : visible (concat (sentence_of raw)) = visible raw.
Proof.
  unfold sentence_of. case_decide as E; cbn; [|by rewrite app_nil_r, visible_trim].
  by rewrite <- visible_trim, E.
Qed.

Lemma visible_sentences raws : visible (concat (flat_map sentence_of raws)) = visible (concat raws).
Proof.
  induction raws as [|r raws IH]; cbn; [done|].
  by rewrite concat_app, !visible_app, visible_sentence, IH.
Qed.

Lemma trim_head s : has_ws (trim_leading s) = false.
Proof. induction s as [|c s IH]; cbn; [done|]. by destruct (is_whitespace c) eqn:E. Qed.

Lemma sentences_clean raws :
  Forall (λ s, s ≠ [] ∧ has_ws s = false) (flat_map sentence_of raws).
Proof.
  induction raws as [|r raws IH]; cbn; [constructor|]. apply Forall_app. split; [|done].
  unfold sentence_of. case_decide; constructor; [|done]. split; [done|apply trim_head].
Qed.

Lemma push_app a b s :
  exec (push (a ++ b)) s = exec (push b) (exec (push a) s) ∧
  outs (push (a ++ b)) s = outs (push a) s ++ outs (push b) (exec (push a) s).
Proof.
  revert s. induction a as [|c a IH]; intros s; [done|]. cbn [push app].
  rewrite !exec_bind, !outs_bind. destruct (IH (exec (push_char c) s)) as [-> ->].
  by rewrite app_assoc.
Qed.

(** Fences and plain text. *)
Definition plain (c : ascii) : bool := negb (is_terminator c) && negb (bool_decide (c = "`"%char)).

Lemma fence_at_end n s :
  at_fence n s = true → ∃ b, buf_ s = b ++ kFenceOpen.
Proof.
  unfold at_fence, starts_with_at. rewrite !andb_true_iff. intros [_ H].
  case_decide; [done|]. apply bool_decide_eq_true in H.
  exists (take (length (buf_ s) - length kFenceOpen) (buf_ s)).
  rewrite take_ge in H by (rewrite length_drop; lia).
  rewrite <- (take_drop (length (buf_ s) - length kFenceOpen) (buf_ s)) at 1. by rewrite H.
Qed.

Lemma no_fence n s b c : buf_ s = b ++ [c] → c ≠ "`"%char → at_fence n s = false.
Proof.
  intros Hb Hc. destruct (at_fence n s) eqn:E; [|done]. apply fence_at_end in E as [b' E].
  rewrite Hb in E. apply (f_equal last) in E. rewrite !last_app in E. cbn in E. congruence.
Qed.

Lemma push_plain_char c s :
  mode_ s = Normal → pending_term_pos_ s = None → plain c = true →
  (Z.of_nat (S (chars_since_terminator_ s)) < max_sentence_chars (cfg_ s))%Z →
  push_char c s =
    (tt, s <| buf_ ::= λ b, b ++ [c] |> <| chars_since_terminator_ ::= S |>, []).
Proof.
  intros Hm Hp Hc Hk. unfold plain in Hc. apply andb_true_iff in Hc as [Ht Hb].
  apply negb_true_iff in Ht, Hb. apply bool_decide_eq_false in Hb.
  rewrite push_char_run, rest_run. cbv zeta.
  rewrite (no_fence _ _ (buf_ s) c) by done. rewrite decide_False by (cbn; rewrite Hm; done).
  unfold resolve_deferred. unfold bind at 1. rewrite bind_gets. cbn. rewrite Hp. cbn. rewrite Ht.
  unfold count_char. rewrite bind_modify. unfold forced_flush. rewrite bind_gets. cbn.
  rewrite bool_decide_false by (cbn in *; lia). done.
Qed.

Lemma push_plain t s :
  mode_ s = Normal → pending_term_pos_ s = None → Forall (λ c, plain c = true) t →
  (Z.of_nat (chars_since_terminator_ s + length t) < max_sentence_chars (cfg_ s))%Z →
  push t s = (tt, s <| buf_ ::= λ b, b ++ t |>
                    <| chars_since_terminator_ ::= λ n, n + length t |>, []).
Proof.
  revert s. induction t as [|c t IH]; intros s Hm Hp Ht Hk.
  - destruct s. unfold set_field, ret; cbn. by rewrite app_nil_r, Nat.add_0_r.
  - inversion Ht; subst. cbn [length] in Hk. rewrite push_step. unfold bind.
    rewrite push_plain_char by (done || lia). rewrite IH by (cbn; done || lia).
    destruct s. unfold set_field; cbn. by rewrite <- app_assoc, <- Nat.add_succ_comm.
Qed.

(** The word before a full stop. *)
Lemma scan_back_word ok pre x w suf :
  ok x = false → Forall (λ c, ok c = true) w →
  scan_back ok (pre ++ x :: w ++ suf) (length pre + S (length w)) = S (length pre).
Proof.
  intros Hx Hw. revert suf. induction w as [|c w IH] using rev_ind; intros suf.
  - cbn [length]. rewrite Nat.add_1_r. cbn [scan_back].
    assert (at_ (pre ++ x :: [] ++ suf) (length pre) = x) as ->; [|by rewrite Hx].
    unfold at_. by rewrite app_nth2, Nat.sub_diag by lia.
  - apply Forall_app in Hw as [Hw Hc]. inversion Hc; subst.
    rewrite length_app. cbn [length]. replace (length pre + S (length w + 1)) with (S (length pre + S (length w))) by lia.
    cbn [scan_back]. assert (at_ (pre ++ x :: (w ++ [c]) ++ suf) (length pre + S (length w)) = c) as ->.
    { unfold at_. rewrite app_nth2 by lia. replace (length pre + S (length w) - length pre) with (S (length w)) by lia.
      cbn. rewrite <- app_assoc, app_nth2, Nat.sub_diag by lia. done. }
    rewrite H1. rewrite <- app_assoc. by apply IH.
Qed.

Definition is_word (c : ascii) : bool := is_digit c || is_lower c || is_upper c.

Lemma list_marker_word pre x w :
  is_whitespace x = true → Forall (λ c, is_word c = true) w → 1 ≤ length w ≤ 3 →
  buffer_ends_with_list_marker (pre ++ x :: w ++ lit ".") = true.
Proof.
  intros Hx Hw Hl. unfold buffer_ends_with_list_marker.
  assert (length (pre ++ x :: w ++ lit ".") = S (length pre + S (length w))) as E
    by (rewrite length_app; cbn; rewrite length_app; cbn; lia).
  assert (is_word x = false) as Hxw.
  { unfold is_whitespace in Hx. rewrite !orb_true_iff, !bool_decide_eq_true in Hx.
    by destruct Hx as [[[->| ->]| ->]| ->]. }
  rewrite decide_False by (rewrite E; lia).
  assert (back (pre ++ x :: w ++ lit ".") = "."%char) as Hback.
  { unfold back, at_. rewrite E. cbn [Nat.sub]. rewrite app_nth2 by lia. rewrite Nat.sub_0_r.
    replace (length pre + S (length w) - length pre) with (S (length w)) by lia. cbn.
    by rewrite app_nth2, Nat.sub_diag by lia. }
  rewrite decide_False by tauto. rewrite E. cbn [Nat.sub]. rewrite Nat.sub_0_r.
  fold is_word. rewrite scan_back_word by done.
  rewrite decide_False by lia. rewrite decide_False by lia. rewrite decide_True by lia.
  unfold at_. by rewrite Nat.sub_succ, Nat.sub_0_r, app_nth2, Nat.sub_diag by lia.
Qed.

Lemma push_marker s pre x w :
  mode_ s = Normal → pending_term_pos_ s = None → buf_ s = pre ++ x :: w →
  is_whitespace x = true → Forall (λ c, is_word c = true) w → 1 ≤ length w ≤ 3 →
  push_char "." s = (tt, s <| buf_ ::= λ b, b ++ lit "." |> <| pending_dot_run_ := 0 |>, []).
Proof.
  intros Hm Hp Hb Hx Hw Hl. rewrite push_char_run, rest_run. cbv zeta.
  rewrite (no_fence _ _ (buf_ s) "."%char) by done. rewrite decide_False by (cbn; rewrite Hm; done).
  unfold resolve_deferred. unfold bind at 1. rewrite bind_gets. cbn. rewrite Hp. cbn.
  change (is_terminator ".") with true. cbn iota.
  unfold on_terminator. rewrite bind_gets. cbn. rewrite Hb, <- app_assoc. cbn.
  change ["."%char] with (lit "."). rewrite list_marker_word by done. rewrite orb_true_r.
  unfold clear_pending, modify. destruct s; cbn in *. by subst.
Qed.

(** A fenced block. *)
Lemma push_tick_inside c s :
  mode_ s = InCodeFence → c ≠ "`"%char →
  push_char c s = (tt, s <| buf_ ::= λ b, b ++ [c] |> <| chars_since_terminator_ ::= S |>, []).
Proof.
  intros Hm Hc. rewrite push_char_run, rest_run. cbv zeta.
  rewrite (no_fence _ _ (buf_ s) c) by done. by rewrite decide_True.
Qed.

Lemma push_inside t s :
  mode_ s = InCodeFence → Forall (λ c, c ≠ "`"%char) t →
  push t s = (tt, s <| buf_ ::= λ b, b ++ t |>
                    <| chars_since_terminator_ ::= λ n, n + length t |>, []).
Proof.
  revert s. induction t as [|c t IH]; intros s Hm Ht.
  - destruct s. unfold set_field, ret; cbn. by rewrite app_nil_r, Nat.add_0_r.
  - inversion Ht; subst. rewrite push_step. unfold bind.
    rewrite push_tick_inside by done. rewrite IH by done.
    destruct s. unfold set_field; cbn. by rewrite <- app_assoc, <- Nat.add_succ_comm.
Qed.

Lemma push_tick s :
  mode_ s = InCodeFence → at_fence (length (buf_ s)) (s <| buf_ ::= λ b, b ++ lit "`" |>) = false →
  push_char "`" s = (tt, s <| buf_ ::= λ b, b ++ lit "`" |> <| chars_since_terminator_ ::= S |>, []).
Proof.
  intros Hm Hf. rewrite push_char_run, rest_run. cbv zeta.
  change ["`"%char] with (lit "`"). rewrite Hf. by rewrite decide_True.
Qed.

Lemma push_close s :
  mode_ s = InCodeFence → pending_term_pos_ s = None →
  at_fence (length (buf_ s)) (s <| buf_ ::= λ b, b ++ lit "`" |>) = true →
  push_char "`" s = (tt, s <| buf_ ::= λ b, b ++ lit "`" |> <| mode_ := Normal |>
                           <| chars_since_terminator_ ::= S |>, []).
Proof.
  intros Hm Hp Hf. rewrite push_char_run, rest_run. cbv zeta.
  change ["`"%char] with (lit "`"). rewrite Hf. cbn [mode_ set_field]. rewrite Hm.
  rewrite decide_False by done. unfold resolve_deferred. unfold bind at 1. rewrite bind_gets.
  cbn. rewrite Hp. cbn. change (is_terminator "`") with false. cbn iota.
  unfold count_char. rewrite bind_modify. unfold forced_flush. rewrite bind_gets. cbn.
  rewrite andb_false_r. done.
Qed.

Lemma fence_suffix b l b' :
  b ++ l = b' ++ kFenceOpen → length l ≤ 3 → l = drop (3 - length l) kFenceOpen.
Proof.
  intros E Hl. rewrite <- (take_drop (3 - length l) kFenceOpen), app_assoc in E.
  apply app_inj_2 in E as [_ E]; [exact E|]. rewrite length_drop. cbn. lia.
Qed.

(** The three backticks that close a fence. *)
Lemma push_fence_close s b c :
  mode_ s = InCodeFence → pending_term_pos_ s = None → detect_code_fences (cfg_ s) = true →
  buf_ s = b ++ [c] → c ≠ "`"%char →
  (push kFenceOpen s).2 = [] ∧ buf_ (push kFenceOpen s).1.2 = buf_ s ++ kFenceOpen ∧
  mode_ (push kFenceOpen s).1.2 = Normal.
Proof.
  intros Hm Hp Hd Hb Hc. change kFenceOpen with ["`"; "`"; "`"]%char. rewrite push_step. unfold bind.
  rewrite push_tick; [|done|].
  2: { destruct (at_fence _ _) eqn:E; [|done]. apply fence_at_end in E as [b' E]. cbn in E.
       rewrite Hb, <- app_assoc in E. apply fence_suffix in E; [|cbn; lia]. cbn in E. congruence. }
  rewrite push_step. unfold bind. rewrite push_tick; [|done|].
  2: { destruct (at_fence _ _) eqn:E; [|done]. apply fence_at_end in E as [b' E]. cbn in E.
       rewrite Hb, <- !app_assoc in E. apply fence_suffix in E; [|cbn; lia]. cbn in E. congruence. }
  rewrite push_step. unfold bind. rewrite push_close; [|done|done|].
  - split_and!; [done| |done]. cbn. by rewrite <- !app_assoc.
  - unfold at_fence, starts_with_at. cbn. rewrite Hd, Hb, !length_app. cbn.
    rewrite bool_decide_true by lia. rewrite decide_False by lia. cbn.
    replace (length b + 1 + 1 + 1 + 1 - 3) with (length (b ++ [c])) by (rewrite length_app; cbn; lia).
    rewrite <- !app_assoc. by rewrite app_assoc, drop_app_length.
Qed.

(** ** Properties *)

(** [C9] Nothing is lost and nothing invented. Whatever is pushed, in
    whatever chunks, the sentences emitted are, in order, the segments the
    buffer was cut into, less their leading white space; the segments and the
    rest of the buffer make up the text; every cut is after a terminator or
    past the length limit; no sentence is empty or starts with white space;
    and once the stream is flushed the visible characters of the sentences
    are exactly those of the text. *)
Theorem splitter_conserves cfg chunks :
  let text := concat chunks in
  let s := exec (push text) (splitter_new cfg) in
  (∃ raws, text = concat raws ++ buf_ s ∧ Forall (seg_ok cfg) raws ∧
     outs (push text) (splitter_new cfg) = flat_map sentence_of raws ∧
     split_all cfg chunks = flat_map sentence_of (raws ++ [buf_ s])) ∧
  Forall (λ s, s ≠ [] ∧ has_ws s = false) (split_all cfg chunks) ∧
  visible (concat (split_all cfg chunks)) = visible text.
Proof.
  cbv zeta. set (text := concat chunks).
  destruct (push_ok text _ (good_new cfg)) as [_ (raws & Hb & Ho & Hf & _)].
  cbn in Hb, Hf. set (s := exec (push text) (splitter_new cfg)) in *.
  assert (split_all cfg chunks = flat_map sentence_of (raws ++ [buf_ s])) as Hall.
  { unfold split_all. fold text. rewrite outs_bind, Ho. fold s. unfold outs. rewrite flush_run.
    rewrite flat_map_app. cbn. by rewrite app_nil_r. }
  split; [exists raws; split_and!; done|]. rewrite Hall. split; [apply sentences_clean|].
  rewrite visible_sentences, concat_app, Hb. cbn. by rewrite app_nil_r.
Qed.

(** The rule for the full stop. The header documents a list marker as
    a short word at the start of a line; the code takes any word of up to
    three letters after any white space for one, so a full stop after such a
    word ends no sentence, whatever plain text follows (up to the length
    limit), a capital letter included. *)
Theorem short_word_ends_no_sentence s pre x w t :
  mode_ s = Normal → pending_term_pos_ s = None → buf_ s = pre ++ x :: w →
  is_whitespace x = true → Forall (λ c, is_word c = true) w → 1 ≤ length w ≤ 3 →
  Forall (λ c, plain c = true) t →
  (Z.of_nat (chars_since_terminator_ s + length t) < max_sentence_chars (cfg_ s))%Z →
  outs (push ("."%char :: t)) s = [] ∧
  buf_ (exec (push ("."%char :: t)) s) = buf_ s ++ "."%char :: t.
Proof.
  intros Hm Hp Hb Hx Hw Hl Ht Hk. unfold outs, exec. rewrite push_step. unfold bind.
  rewrite (push_marker s pre x w) by done. rewrite push_plain by (cbn; done).
  split; [done|]. cbn. by rewrite <- app_assoc.
Qed.

Lemma short_word_ends_no_sentence_witness :
  let s := exec (push (lit "How are you")) (splitter_new (MkSplitterConfig 600 true)) in
  (buf_ s = lit "How are" ++ " "%char :: lit "you") ∧
  outs (push (lit ". Fine, and you")) s = [].
Proof.
  intros s. split; [reflexivity|].
  refine (proj1 (short_word_ends_no_sentence s (lit "How are") " "%char (lit "you")
    (lit " Fine, and you") eq_refl eq_refl eq_refl eq_refl _ _ _ _)).
  - repeat constructor.
  - cbn. lia.
  - repeat constructor.
  - reflexivity.
Defined.

(** A fenced block. Inside a fence nothing is emitted and everything
    is buffered, terminators and long lines included, until the three
    backticks that close it; the sentence that contains the block is then
    still open. *)
Theorem fence_is_whole s t :
  mode_ s = InCodeFence → pending_term_pos_ s = None → detect_code_fences (cfg_ s) = true →
  t ≠ [] → Forall (λ c, c ≠ "`"%char) t →
  let s' := exec (push (t ++ kFenceOpen)) s in
  outs (push (t ++ kFenceOpen)) s = [] ∧ buf_ s' = buf_ s ++ t ++ kFenceOpen ∧ mode_ s' = Normal.
Proof.
  intros Hm Hp Hd Hne Ht. cbv zeta. destruct (push_app t kFenceOpen s) as [-> ->].
  unfold outs, exec. rewrite push_inside by done. cbn [fst snd app].
  destruct (exists_last Hne) as (b & c & ->).
  assert (c ≠ "`"%char) as Hc by (apply Forall_app in Ht as [_ Ht]; by inversion Ht).
  edestruct (push_fence_close (s <| buf_ ::= λ b0, b0 ++ b ++ [c] |>
    <| chars_since_terminator_ ::= λ n, n + length (b ++ [c]) |>) (buf_ s ++ b) c)
    as (H1 & H2 & H3); try done; [cbn; by rewrite app_assoc|].
  split_and!; [exact H1| |exact H3]. rewrite H2. cbn. by rewrite <- !app_assoc.
Qed.

Lemma fence_is_whole_witness :
  let s := exec (push (lit "Run this: ```")) (splitter_new (MkSplitterConfig 600 true)) in
  mode_ s = InCodeFence ∧ outs (push (lit "rm a.b. Then? " ++ kFenceOpen)) s = [].
Proof.
  intros s. split; [reflexivity|].
  refine (proj1 (fence_is_whole s (lit "rm a.b. Then? ") eq_refl eq_refl eq_refl _ _)).
  - discriminate.
  - repeat constructor; discriminate.
Defined.
