(* ===== verification/Sse.v ===== *)
(** * The server-sent-events parser (src/src/llm/sse_parser.hpp, .cpp)

    The callbacks are the outputs, in order; each may be unset. The two
    loops carry fuel, their measure: every turn of the event loop erases at
    least two bytes of the buffer, every turn of the line loop moves the
    cursor. *)
From S2P Require Import Prelude.
Open Scope act_scope.

Definition kDataPrefix : str := lit "data:".
Definition kDoneSentinel : str := lit "[DONE]".
Definition newline : ascii := "010"%char.

Inductive SseOut := OnData (payload : str) | OnDone | OnComment (line : str).

Record SseParser := MkSse {
  buffer_ : str;
  done_seen_ : bool;
  on_data_ : bool;
  on_done_ : bool;
  on_comment_ : bool;
}.
#[global] Instance eta_sse : Eta SseParser := λ s,
  MkSse (buffer_ s) (done_seen_ s) (on_data_ s) (on_done_ s) (on_comment_ s).
Definition sse_new (data done comment : bool) : SseParser := MkSse [] false data done comment.
Definition sse_reset (s : SseParser) : SseParser := s <| buffer_ := [] |> <| done_seen_ := false |>.

Abbreviation M := (Act SseParser SseOut).

Definition trim_leading_space (s : str) : str :=
  match s with c :: s' => if decide (c = " "%char) then s' else s | [] => [] end.

Definition find_event_boundary (buf : str) : option nat := str_find [newline; newline] buf.

(** [s.find(c, cursor)] *)
Definition find_from (c : ascii) (s : str) (cursor : nat) : option nat :=
  (λ i, cursor + i) <$> str_find [c] (drop cursor s).

Definition callback (set : SseParser → bool) (o : SseOut) : M unit :=
  has ← gets set;
  when (has : bool) do emit o.

(** One line; the result says whether the loop returns. *)
Definition emit_line (line : str) : M bool :=
  match line with
  | [] => ret false
  | front :: rest =>
      if decide (front = ":"%char) then callback on_comment_ (OnComment rest) ;; ret false
      else if starts_with kDataPrefix line then
        let payload := trim_leading_space (drop (length kDataPrefix) line) in
        if decide (payload = kDoneSentinel) then
          modify (λ s, s <| done_seen_ := true |>) ;;
          callback on_done_ OnDone ;;
          ret true
        else callback on_data_ (OnData payload) ;; ret false
      else ret false
  end.

Fixpoint emit_lines (fuel : nat) (event_text : str) (cursor : nat) : M unit :=
  match fuel with
  | O => ret ()
  | S fuel =>
      if decide (cursor < length event_text) then
        let line_end := default (length event_text) (find_from newline event_text cursor) in
        let line := take (line_end - cursor) (drop cursor event_text) in
        return_ ← emit_line line;
        if (return_ : bool) then ret () else emit_lines fuel event_text (S line_end)
      else ret ()
  end.

Definition emit_event (event_text : str) : M unit :=
  emit_lines (S (length event_text)) event_text 0.

Fixpoint feed_loop (fuel : nat) : M unit :=
  match fuel with
  | O => ret ()
  | S fuel =>
      buffer ← gets buffer_;
      match find_event_boundary buffer with
      | None => ret ()
      | Some pos =>
          emit_event (take pos buffer) ;;
          modify (λ s, s <| buffer_ ::= drop (pos + 2) |>) ;;
          done ← gets done_seen_;
          if (done : bool) then modify (λ s, s <| buffer_ := [] |>) else feed_loop fuel
      end
  end.

Definition feed (bytes : str) : M unit :=
  done ← gets done_seen_;
  if (done : bool) then ret ()
  else
    modify (λ s, s <| buffer_ ::= λ b, b ++ bytes |>) ;;
    n ← gets (λ s, length (buffer_ s));
    feed_loop (S n).

Definition finish : M unit :=
  s ← gets id;
  if done_seen_ s then ret ()
  else if decide (buffer_ s = []) then ret ()
  else emit_event (buffer_ s) ;; modify (λ s, s <| buffer_ := [] |>).

Fixpoint feed_all (chunks : list str) : M unit :=
  match chunks with [] => ret () | c :: chunks => feed c ;; feed_all chunks end.

(** What a server sends. *)
Definition data_event (payload : str) : str := lit "data: " ++ payload ++ [newline; newline].
Definition done_event : str := data_event kDoneSentinel.
Definition crlf : str := ["013"%char; newline].
Definition data_event_crlf (payload : str) : str := lit "data: " ++ payload ++ crlf ++ crlf.
Definition one_line (payload : str) : Prop := newline ∉ payload.

(** ** Lemmas *)

Lemma str_find_app pat s t i : str_find pat s = Some i → i + length pat ≤ length s ∧ str_find pat (s ++ t) = Some i.
Proof.
  revert i. assert (∀ p u, starts_with p u = true → length p ≤ length u ∧ starts_with p (u ++ t) = true) as Hs.
  { induction p as [|c p IH]; intros [|d u]; cbn; try done; [split; [lia|done]..|].
    rewrite !andb_true_iff. intros [H1 H2]. destruct (IH _ H2). split; [lia|done]. }
  induction s as [|c s IH]; intros i.
  - cbn. destruct (starts_with pat []) eqn:E; [|done]. intros [= <-].
    destruct (Hs _ _ E) as [H1 H2]. split; [cbn in *; lia|]. destruct t; cbn in *; by rewrite ?H2.
  - cbn [str_find app]. destruct (starts_with pat (c :: s)) eqn:E.
    + intros [= <-]. destruct (Hs _ _ E) as [H1 H2]. cbn [app] in H2. rewrite H2. split; [lia|done].
    + destruct (str_find pat s) as [j|] eqn:Ej; [|done]. intros [= <-].
      destruct (IH j eq_refl) as [H1 H2]. split; [cbn; lia|].
      destruct (starts_with pat (c :: s ++ t)) eqn:E'; [|by rewrite H2].
      exfalso. revert E E' H1. clear. destruct pat as [|p pat]; [done|].
      cbn. rewrite andb_true_iff, andb_false_iff. intros [->|E]; [intros [? _]; done|].
      intros [_ E'] Hl. revert s E E' Hl. induction pat as [|p' pat IHp]; intros [|d s]; cbn; try done; try lia.
      rewrite andb_true_iff, andb_false_iff. intros [->|E]; [intros [? _]; done|]. intros [_ E'] Hl.
      eapply (IHp s); [done|done|cbn in *; lia].
Qed.

(** Dispatching a line or an event does not look at the buffer. *)
Definition addb (b : str) (s : SseParser) : SseParser := s <| buffer_ ::= λ x, x ++ b |>.

Definition framed {A} (m : M A) : Prop :=
  ∀ s, buffer_ (exec m s) = buffer_ s ∧
       (on_data_ (exec m s), on_done_ (exec m s), on_comment_ (exec m s))
         = (on_data_ s, on_done_ s, on_comment_ s) ∧
       ∀ b, m (addb b s) = (result m s, addb b (exec m s), outs m s).

Lemma framed_ret {A} (a : A) : framed (ret a).
Proof. done. Qed.

Lemma framed_bind {A B} (m : M A) (k : A → M B) :
  framed m → (∀ a, framed (k a)) → framed (bind m k).
Proof.
  intros Hm Hk s. destruct (Hm s) as (H1 & H2 & H3).
  destruct (Hk (result m s) (exec m s)) as (K1 & K2 & K3).
  rewrite exec_bind, outs_bind, result_bind. split_and!; [congruence|congruence|].
  intros b. unfold bind. rewrite H3. by rewrite K3.
Qed.

Lemma framed_callback f o :
  (∀ b s, f (addb b s) = f s) → framed (callback f o).
Proof.
  intros Hf s. unfold callback, exec, outs, result. rewrite bind_gets. split_and!.
  1-2: by destruct (f s). intros b. rewrite bind_gets, Hf. by destruct (f s).
Qed.

Lemma framed_line line : framed (emit_line line).
Proof.
  assert (∀ f o r, (∀ b s, f (addb b s) = f s) → framed (callback f o ;; @ret SseParser SseOut bool r)) as Hc.
  { intros f o r Hf. apply framed_bind; [by apply framed_callback|]. intros _. apply framed_ret. }
  unfold emit_line. destruct line as [|c line]; [apply framed_ret|].
  case_decide; [by apply Hc|]. destruct (starts_with kDataPrefix (c :: line)); [|apply framed_ret].
  cbv zeta. case_decide; [|by apply Hc].
  apply framed_bind; [done|]. intros _. by apply Hc.
Qed.

Lemma framed_lines n t c : framed (emit_lines n t c).
Proof.
  revert c. induction n as [|n IH]; intros c; cbn [emit_lines]; [apply framed_ret|].
  case_decide; [|apply framed_ret]. cbv zeta. apply framed_bind; [apply framed_line|].
  intros []; [apply framed_ret|apply IH].
Qed.

Lemma framed_event t : framed (emit_event t).
Proof. apply framed_lines. Qed.
#[local] Arguments emit_event : simpl never.

(** One turn of the event loop. *)
Definition after_event (pos : nat) (s : SseParser) : SseParser :=
  (exec (emit_event (take pos (buffer_ s))) s) <| buffer_ ::= drop (pos + 2) |>.

Lemma loop_turn n s :
  feed_loop (S n) s =
  match find_event_boundary (buffer_ s) with
  | None => (tt, s, [])
  | Some pos =>
      let s' := after_event pos s in
      let o := outs (emit_event (take pos (buffer_ s))) s in
      if done_seen_ s' then (tt, s' <| buffer_ := [] |>, o)
      else (tt, exec (feed_loop n) s', o ++ outs (feed_loop n) s')
  end.
Proof.
  cbn [feed_loop]. rewrite bind_gets. destruct (find_event_boundary (buffer_ s)) as [pos|]; [|done].
  unfold bind at 1, after_event, exec, outs.
  destruct (emit_event (take pos (buffer_ s)) s) as [[u s1] o1] eqn:E. cbn [fst snd].
  rewrite bind_modify, bind_gets. cbv zeta. set (s2 := s1 <| buffer_ ::= _ |>).
  destruct (done_seen_ s2); [cbn; by rewrite app_nil_r|].
  by destruct (feed_loop n s2) as [[[] s3] o3].
Qed.

Lemma after_event_buffer pos s :
  find_event_boundary (buffer_ s) = Some pos →
  buffer_ (after_event pos s) = drop (pos + 2) (buffer_ s) ∧
  length (buffer_ (after_event pos s)) < length (buffer_ s).
Proof.
  intros Hf. destruct (str_find_app _ _ [] _ Hf) as [Hl _]. cbn in Hl.
  unfold after_event. cbn. destruct (framed_event (take pos (buffer_ s)) s) as (-> & _).
  split; [done|]. rewrite length_drop. lia.
Qed.

Lemma loop_fuel n m s :
  length (buffer_ s) < n → length (buffer_ s) < m → feed_loop n s = feed_loop m s.
Proof.
  revert m s. induction n as [|n IH]; intros [|m] s Hn Hm; try lia. rewrite !loop_turn.
  destruct (find_event_boundary (buffer_ s)) as [pos|] eqn:E; [|done].
  destruct (after_event_buffer pos s E) as [_ Hl]. cbv zeta.
  destruct (done_seen_ _); [done|]. unfold exec, outs. by rewrite (IH m) by lia.
Qed.

Lemma addb_after pos b s :
  find_event_boundary (buffer_ s) = Some pos →
  find_event_boundary (buffer_ (addb b s)) = Some pos ∧
  after_event pos (addb b s) = addb b (after_event pos s) ∧
  outs (emit_event (take pos (buffer_ (addb b s)))) (addb b s)
    = outs (emit_event (take pos (buffer_ s))) s.
Proof.
  intros E. destruct (str_find_app _ _ b _ E) as [Hl Hf]. cbn in Hl.
  change (buffer_ (addb b s)) with (buffer_ s ++ b). rewrite take_app_le by lia.
  destruct (framed_event (take pos (buffer_ s)) s) as (H1 & _ & H2). split_and!.
  - exact Hf.
  - unfold after_event. change (buffer_ (addb b s)) with (buffer_ s ++ b).
    rewrite take_app_le by lia. unfold exec at 1. rewrite H2. unfold addb, set_field; cbn. rewrite H1.
    by rewrite drop_app_le by lia.
  - unfold outs at 1. by rewrite H2.
Qed.

Lemma loop_append n m k b s :
  length (buffer_ s) < n → length (buffer_ s) + length b < m → done_seen_ s = false →
  let '(_, s', o) := feed_loop n s in
  length (buffer_ s') + length b < k →
  feed_loop m (addb b s) =
    if done_seen_ s' then (tt, s', o)
    else let '(_, s'', o') := feed_loop k (addb b s') in (tt, s'', o ++ o').
Proof.
  revert m s. induction n as [|n IH]; intros m s Hn Hm Hd; [lia|]. rewrite loop_turn.
  destruct (find_event_boundary (buffer_ s)) as [pos|] eqn:E.
  - destruct m as [|m]; [lia|]. rewrite (loop_turn m).
    destruct (addb_after pos b s E) as (-> & -> & ->). cbv zeta.
    change (done_seen_ (addb b (after_event pos s))) with (done_seen_ (after_event pos s)).
    destruct (after_event_buffer pos s E) as [_ Hlt].
    destruct (done_seen_ (after_event pos s)) eqn:Ed.
    { intros _. change (done_seen_ ((after_event pos s) <| buffer_ := [] |>)) with (done_seen_ (after_event pos s)).
      by rewrite Ed. }
    specialize (IH m (after_event pos s) ltac:(lia) ltac:(lia) Ed). unfold exec, outs.
    destruct (feed_loop n (after_event pos s)) as [[u s1] o1]. cbn [fst snd]. intros Hk.
    rewrite (IH Hk). destruct (done_seen_ s1); [done|].
    destruct (feed_loop k (addb b s1)) as [[v s2] o2]. cbn [fst snd]. by rewrite app_assoc.
  - intros Hk. rewrite Hd. rewrite (loop_fuel k m) by (cbn in *; rewrite ?length_app in *; lia).
    by destruct (feed_loop m (addb b s)) as [[[] s1] o1].
Qed.

Lemma feed_run b s :
  done_seen_ s = false → feed b s = feed_loop (S (length (buffer_ s) + length b)) (addb b s).
Proof.
  intros Hd. unfold feed. rewrite bind_gets, Hd, bind_modify, bind_gets.
  change (buffer_ (s <| buffer_ ::= λ x, x ++ b |>)) with (buffer_ s ++ b). by rewrite length_app.
Qed.

Lemma feed_done b s : done_seen_ s = true → feed b s = (tt, s, []).
Proof. intros Hd. unfold feed. by rewrite bind_gets, Hd. Qed.

Lemma addb_app a b s : addb b (addb a s) = addb (a ++ b) s.
Proof. destruct s. unfold addb, set_field; cbn. by rewrite app_assoc. Qed.

(** The bytes may be cut anywhere. *)
Lemma feed_app a b s : feed (a ++ b) s = (feed a ;; feed b) s.
Proof.
  destruct (done_seen_ s) eqn:Hd.
  - unfold bind. by rewrite !feed_done.
  - unfold bind. rewrite !feed_run, <- addb_app by done.
    pose proof (loop_append (S (length (buffer_ s) + length a)) (S (length (buffer_ s) + length (a ++ b)))) as H.
    destruct (feed_loop (S (length (buffer_ s) + length a)) (addb a s)) as [[u s1] o1] eqn:E1.
    specialize (H (S (length (buffer_ s1) + length b)) b (addb a s)). rewrite E1 in H.
    rewrite H; try done; try (cbn; rewrite ?length_app; lia).
    destruct (done_seen_ s1) eqn:Hd1; [rewrite feed_done by done; by rewrite app_nil_r|].
    rewrite feed_run by done. by destruct (feed_loop _ (addb b s1)) as [[[] s2] o2].
Qed.

(** A state that has dispatched all it can. *)
Definition settled (s : SseParser) : Prop :=
  done_seen_ s = true ∨ find_event_boundary (buffer_ s) = None.

Lemma feed_nil s : settled s → feed [] s = (tt, s, []).
Proof.
  intros Hs. destruct (done_seen_ s) eqn:Hd; [by apply feed_done|]. rewrite feed_run by done.
  destruct Hs as [?|Hf]; [congruence|].
  assert (addb [] s = s) as -> by (destruct s; unfold addb, set_field; cbn; by rewrite app_nil_r).
  by rewrite loop_turn, Hf.
Qed.

Lemma loop_settled n s : length (buffer_ s) < n → done_seen_ s = false → settled (exec (feed_loop n) s).
Proof.
  revert s. induction n as [|n IH]; intros s Hn Hd; [lia|]. unfold exec. rewrite loop_turn.
  destruct (find_event_boundary (buffer_ s)) as [pos|] eqn:E; [|by right]. cbv zeta.
  destruct (after_event_buffer pos s E) as [_ Hl].
  destruct (done_seen_ (after_event pos s)) eqn:Ed; [by left|]. apply IH; [lia|done].
Qed.

Lemma feed_settled b s : settled s → settled (exec (feed b) s).
Proof.
  intros Hs. unfold exec. destruct (done_seen_ s) eqn:Hd; [by rewrite feed_done|].
  rewrite feed_run by done. apply loop_settled; [cbn; rewrite length_app; lia|done].
Qed.

Lemma feed_all_concat chunks s : settled s → feed_all chunks s = feed (concat chunks) s.
Proof.
  revert s. induction chunks as [|c chunks IH]; intros s Hs; cbn [feed_all concat].
  - by rewrite feed_nil.
  - rewrite feed_app. unfold bind. pose proof (feed_settled c s Hs) as Hs'. unfold exec in Hs'.
    destruct (feed c s) as [[u s1] o1]. cbn in Hs'. by rewrite IH.
Qed.

(** One event whose text is a single line. *)
Lemma boundary_fresh line t :
  newline ∉ line → find_event_boundary (line ++ newline :: newline :: t) = Some (length line).
Proof.
  unfold find_event_boundary. induction line as [|d s IH]; intros Hc.
  - cbn. done.
  - cbn [app str_find starts_with length]. rewrite bool_decide_false by set_solver.
    cbn [andb]. rewrite IH by set_solver. done.
Qed.

Lemma event_line line s : one_line line → line ≠ [] → 
  emit_event line s = (tt, exec (emit_line line) s, outs (emit_line line) s).
Proof.
  intros Hl Hne. unfold emit_event. cbn [emit_lines].
  rewrite decide_True by (destruct line; [done|cbn; lia]).
  unfold find_from. rewrite char_absent by done. cbn [fmap option_fmap option_map default].
  rewrite drop_0, Nat.sub_0_r, firstn_all. unfold bind, exec, outs.
  destruct (emit_line line s) as [[r s1] o1]. cbn [fst snd].
  assert (∀ n c s, length line < c → emit_lines n line c s = (tt, s, [])) as Hend.
  { intros [|n] c s0 Hc; [done|]. cbn [emit_lines]. by rewrite decide_False by lia. }
  destruct r; [cbn; by rewrite app_nil_r|]. rewrite Hend by lia. by rewrite app_nil_r.
Qed.

Definition data_line (payload : str) : str := lit "data: " ++ payload.

Lemma data_line_run p s :
  emit_line (data_line p) s =
  if decide (p = kDoneSentinel) then
    (true, s <| done_seen_ := true |>, if on_done_ s then [OnDone] else [])
  else (false, s, if on_data_ s then [OnData p] else []).
Proof.
  unfold emit_line, data_line. cbn [app lit String.list_ascii_of_string].
  rewrite decide_False by done. cbn [starts_with kDataPrefix lit String.list_ascii_of_string].
  rewrite !bool_decide_true by done. cbn [andb length drop trim_leading_space].
  destruct (decide (" "%char = " "%char)) as [_|[]]; [|done]. cbv zeta. case_decide.
  - rewrite bind_modify. unfold callback, bind at 1. rewrite bind_gets. cbn. by destruct (on_done_ s).
  - unfold callback, bind at 1. rewrite bind_gets. by destruct (on_data_ s).
Qed.

Lemma drop_fed e n s : buffer_ s = [] → length e ≤ n → (addb e s) <| buffer_ ::= drop n |> = s.
Proof.
  intros Hb Hn. destruct s. cbn in Hb. subst. unfold addb, set_field; cbn. by rewrite drop_ge.
Qed.

Lemma feed_data p s :
  buffer_ s = [] → done_seen_ s = false → on_data_ s = true → one_line p → p ≠ kDoneSentinel →
  feed (data_event p) s = (tt, s, [OnData p]).
Proof.
  intros Hb Hd Ho Hl Hp. rewrite feed_run by done.
  assert (buffer_ (addb (data_event p) s) = data_line p ++ [newline; newline]) as Hbuf
    by (change (buffer_ s ++ data_event p = data_line p ++ [newline; newline]); rewrite Hb;
        unfold data_event, data_line; by rewrite <- app_assoc).
  assert (one_line (data_line p)) as Hl' by (unfold one_line, data_line, newline in *; set_solver).
  rewrite loop_turn, Hbuf, boundary_fresh by done. cbv zeta.
  unfold after_event. rewrite Hbuf, take_app_length. unfold exec, outs.
  rewrite event_line by done. unfold exec, outs. rewrite data_line_run, decide_False by done. cbn [fst snd].
  set (s2 := _ <| buffer_ ::= _ |>).
  assert (s2 = s) as ->.
  { apply drop_fed; [done|]. unfold data_event, data_line. rewrite !length_app. cbn. lia. }
  assert (∀ n, feed_loop n s = (tt, s, [])) as Hn by (intros [|n]; [done|]; by rewrite loop_turn, Hb).
  rewrite Hd. unfold exec, outs. rewrite !Hn. cbn. by rewrite Ho.
Qed.

Lemma feed_done_event s :
  buffer_ s = [] → done_seen_ s = false → on_done_ s = true →
  feed done_event s = (tt, s <| done_seen_ := true |>, [OnDone]).
Proof.
  intros Hb Hd Ho. rewrite feed_run by done. unfold done_event.
  assert (buffer_ (addb (data_event kDoneSentinel) s) = data_line kDoneSentinel ++ [newline; newline]) as Hbuf
    by (change (buffer_ s ++ data_event kDoneSentinel = data_line kDoneSentinel ++ [newline; newline]);
        rewrite Hb; unfold data_event, data_line; by rewrite <- app_assoc).
  assert (one_line (data_line kDoneSentinel)) as Hl' by (apply (bool_decide_unpack _); vm_compute; exact I).
  rewrite loop_turn, Hbuf, boundary_fresh by done. cbv zeta.
  unfold after_event. rewrite Hbuf, take_app_length. unfold exec, outs.
  rewrite event_line by done. unfold exec, outs. rewrite data_line_run, decide_True by done. cbn [fst snd].
  cbn [done_seen_ set_field]. destruct s; unfold addb, set_field; cbn in *. by subst.
Qed.

Lemma feed_events ps s :
  buffer_ s = [] → done_seen_ s = false → on_data_ s = true →
  Forall (λ p, one_line p ∧ p ≠ kDoneSentinel) ps →
  feed (concat (data_event <$> ps)) s = (tt, s, OnData <$> ps).
Proof.
  intros Hb Hd Ho. induction ps as [|p ps IH]; intros Hf.
  - apply feed_nil. right. by rewrite Hb.
  - inversion Hf as [|? ? [H1 H2] Hf']; subst. cbn [fmap list_fmap concat].
    rewrite feed_app. unfold bind. rewrite feed_data by done. by rewrite IH.
Qed.

Lemma feed_stream ps junk chunks comment :
  Forall (λ p, one_line p ∧ p ≠ kDoneSentinel) ps →
  concat chunks = concat (data_event <$> ps) ++ done_event ++ junk →
  feed_all chunks (sse_new true true comment) =
    (tt, (sse_new true true comment) <| done_seen_ := true |>, (OnData <$> ps) ++ [OnDone]).
Proof.
  intros Hps Hc. rewrite feed_all_concat by (by right). rewrite Hc, feed_app. unfold bind.
  rewrite feed_events by done. rewrite feed_app. unfold bind. rewrite feed_done_event by done.
  by rewrite feed_done.
Qed.

Lemma crlf_none l t :
  newline ∉ l → (∀ c t', t = c :: t' → c ≠ newline) → find_event_boundary t = None →
  find_event_boundary (l ++ crlf ++ t) = None.
Proof.
  intros Hl Ht Hn. unfold find_event_boundary in *.
  induction l as [|d l IH].
  - assert (starts_with [newline; newline] (newline :: t) = false) as E.
    { cbn [starts_with]. destruct t as [|c t']; [by rewrite andb_false_r|].
      rewrite (bool_decide_false (newline = c)) by (intros <-; by eapply Ht). by rewrite !andb_false_r. }
    unfold crlf. cbn [app str_find]. rewrite E, Hn. done.
  - cbn [app str_find starts_with]. rewrite bool_decide_false by set_solver. cbn [andb].
    rewrite IH by set_solver. done.
Qed.

Lemma crlf_events ps :
  Forall one_line ps → find_event_boundary (concat (data_event_crlf <$> ps)) = None.
Proof.
  induction 1 as [|p ps Hp Hps IH]; [done|]. cbn [fmap list_fmap concat]. unfold data_event_crlf at 1.
  rewrite app_assoc. change (lit "data: " ++ p) with (data_line p). rewrite <- !app_assoc.
  assert (one_line (data_line p)) as Hl by (unfold one_line, data_line, newline in *; set_solver).
  apply crlf_none; [done|by intros ? ? [= <- _]|]. apply (crlf_none []); [set_solver| |done].
  intros c t'. destruct ps as [|q ps]; [done|]. by intros [= <- _].
Qed.

(** ** Properties *)

(** The framing does not see the network. However the bytes of a
    stream are cut into reads, the parser ends in the same state after the
    same callbacks. *)
Theorem sse_chunking chunks chunks' s :
  settled s → concat chunks = concat chunks' → feed_all chunks s = feed_all chunks' s.
Proof. intros Hs H. by rewrite !feed_all_concat, H. Qed.

Lemma sse_chunking_witness :
  let s := sse_new true true true in
  settled s ∧ feed_all [lit "da"; lit "ta: x"] s = feed_all [lit "data"; lit ": x"] s.
Proof.
  intros s. assert (H : settled s) by (right; reflexivity). split; [exact H|].
  apply (sse_chunking _ _ s H). reflexivity.
Defined.

(** [C15] Round trip. The events a server writes, in any chunks, come out as
    one [on_data] call each with the payload written, then one [on_done] for
    the sentinel; nothing that follows the sentinel is delivered, and the
    buffer is left empty. *)
Theorem sse_round_trip ps junk chunks comment :
  Forall (λ p, one_line p ∧ p ≠ kDoneSentinel) ps →
  concat chunks = concat (data_event <$> ps) ++ done_event ++ junk →
  let s := sse_new true true comment in
  outs (feed_all chunks ;; finish) s = (OnData <$> ps) ++ [OnDone] ∧
  exec (feed_all chunks ;; finish) s = s <| done_seen_ := true |>.
Proof.
  intros Hps Hc. cbv zeta. unfold exec, outs, bind. rewrite (feed_stream ps junk) by done.
  unfold finish. rewrite bind_gets. cbn. split; [|done]. by rewrite !app_nil_r.
Qed.

Lemma sse_round_trip_witness :
  Forall (λ p, one_line p ∧ p ≠ kDoneSentinel) [lit "{}"; lit "a b"] ∧
  outs (feed_all [lit "data: {}" ++ [newline]; [newline] ++ data_event (lit "a b") ++ done_event; lit "data: z"]
        ;; finish) (sse_new true true false) = [OnData (lit "{}"); OnData (lit "a b"); OnDone].
Proof.
  assert (H : Forall (λ p, one_line p ∧ p ≠ kDoneSentinel) [lit "{}"; lit "a b"]).
  { repeat constructor; try discriminate; apply (bool_decide_unpack _); vm_compute; exact I. }
  split; [exact H|].
  exact (proj1 (sse_round_trip [lit "{}"; lit "a b"] (lit "data: z")
    [lit "data: {}" ++ [newline]; [newline] ++ data_event (lit "a b") ++ done_event; lit "data: z"]
    false H eq_refl)).
Defined.

(** CRLF framing. A comment says that with CRLF line ends the carriage
    return is harmless; in fact no event of a CRLF stream has a boundary, so
    nothing at all is delivered while the stream lasts, and the bytes pile up
    in the buffer. *)
Theorem sse_crlf_stalls ps chunks s :
  Forall one_line ps → concat chunks = concat (data_event_crlf <$> ps) →
  buffer_ s = [] → done_seen_ s = false →
  outs (feed_all chunks) s = [] ∧ buffer_ (exec (feed_all chunks) s) = concat (data_event_crlf <$> ps).
Proof.
  intros Hps Hc Hb Hd. unfold outs, exec. rewrite feed_all_concat by (right; by rewrite Hb).
  rewrite Hc, feed_run by done.
  assert (buffer_ (addb (concat (data_event_crlf <$> ps)) s) = concat (data_event_crlf <$> ps)) as Hbuf
    by (change (buffer_ s ++ concat (data_event_crlf <$> ps) = concat (data_event_crlf <$> ps)); by rewrite Hb).
  by rewrite loop_turn, Hbuf, crlf_events.
Qed.

Lemma sse_crlf_stalls_witness :
  let s := sse_new true true true in
  Forall one_line [lit "{}"] ∧ outs (feed_all [data_event_crlf (lit "{}")]) s = [] ∧
  outs (feed (data_event_crlf (lit "{}")) ;; finish) s = [OnData (lit "{}" ++ ["013"%char])].
Proof.
  intros s. assert (H : Forall one_line [lit "{}"]).
  { repeat constructor. apply (bool_decide_unpack _); vm_compute; exact I. }
  split; [exact H|]. split; [|reflexivity].
  exact (proj1 (sse_crlf_stalls [lit "{}"] [data_event_crlf (lit "{}")] s H eq_refl eq_refl eq_refl)).
Defined.
