(* ===== verification/LlmClient.v ===== *)
(** * The LLM client (src/src/llm/client.hpp, client.cpp)

    [submit] drives one streamed completion. libcurl and the JSON reader are
    outside the source: curl is the sequence of its calls of [curl_write] and
    the result of [curl_easy_perform], the reader is the parameter [read].
    The client is generic in its caller: the callbacks act on the caller's
    state [St], and [is_cancelled] reads the request's token there. The error
    text, which is only logged, and the request body are left out. *)
From S2P Require Import Prelude Event.
From S2P Require Sse.
Open Scope act_scope.

(** What [glz::read] extracts of a payload: the [content] of each choice. *)
Record SseChunk := MkChunk { choices : list (option str) }.

Record LlmFinish := MkFinish {
  fin_turn : TurnId;
  cancelled : bool;
  error : bool;
  tokens_generated : nat;
}.

(** The locals of one [submit]. *)
Record submission := MkSub { parser : Sse.SseParser; tokens : nat }.
#[global] Instance eta_submission : Eta submission := λ c, MkSub (parser c) (tokens c).

Definition submission_new : submission := MkSub (Sse.sse_new true true false) 0.

Section client.
Context {St O : Type}.
Variable read : str → option SseChunk.
Variable on_token : str → Act St O unit.
Variable on_finished : LlmFinish → Act St O unit.
Variable is_cancelled : St → bool.
Variable publish : Event → O.

(** The handler of a [data:] payload. *)
Definition on_data (payload : str) (c : submission) : Act St O submission :=
  match read payload with
  | None => ret c
  | Some chunk =>
      match choices chunk with
      | Some (x :: content) :: _ =>
          on_token (x :: content) ;; ret (c <| tokens ::= S |>)
      | _ => ret c
      end
  end.

(** The callbacks the parser makes, in order; [on_done] does nothing. *)
Fixpoint deliver_all (os : list Sse.SseOut) (c : submission) : Act St O submission :=
  match os with
  | [] => ret c
  | Sse.OnData payload :: os => c ← on_data payload c; deliver_all os c
  | _ :: os => deliver_all os c
  end.

Definition parse (m : Act Sse.SseParser Sse.SseOut unit) (c : submission) : Act St O submission :=
  let '(_, p, os) := m (parser c) in deliver_all os (c <| parser := p |>).

(** One call by libcurl; [false] is the return of 0, which aborts the
    transfer. *)
Definition curl_write (bytes : str) (c : submission) : Act St O (bool * submission) :=
  stop ← gets is_cancelled;
  if (stop : bool) then ret (false, c)
  else c ← parse (Sse.feed bytes) c; ret (true, c).

(** [curl_progress]: whether the transfer is aborted. *)
Definition curl_progress (s : St) : bool := is_cancelled s.

(** What follows [curl_easy_perform]: [rc_ok] is CURLE_OK. *)
Definition submit_end (turn : TurnId) (rc_ok : bool) (http_status : Z) (c : submission) : Act St O unit :=
  c ← parse Sse.finish c;
  stop ← gets is_cancelled;
  let f := MkFinish turn stop (negb stop && (negb rc_ok || bool_decide (http_status ≠ 200%Z))) (tokens c) in
  on_finished f ;;
  emit (publish (LlmFinished turn (cancelled f) (tokens_generated f))).

(** [curl_easy_init] failed: [on_finished] is called, but the bus hears
    nothing. *)
Definition submit_failed (turn : TurnId) : Act St O unit := on_finished (MkFinish turn false true 0).

(** ** Lemmas *)

(** A stream whose token stays uncancelled through its callbacks: the writes
    are one parse of all the bytes. *)
Fixpoint write_all (chunks : list str) (c : submission) : Act St O (bool * submission) :=
  match chunks with
  | [] => ret (true, c)
  | b :: chunks => r ← curl_write b c; let '(ok, c) := r in if ok then write_all chunks c else ret (false, c)
  end.

Lemma deliver_app os os' c s :
  deliver_all (os ++ os') c s = (c ← deliver_all os c; deliver_all os' c) s.
Proof.
  revert c s. induction os as [|o os IH]; intros c s; [cbn [app deliver_all]; by rewrite bind_ret|].
  destruct o; cbn [app deliver_all]; try apply IH.
  unfold bind. destruct (on_data payload c s) as [[c1 s1] o1]. rewrite IH. unfold bind.
  destruct (deliver_all os c1 s1) as [[c2 s2] o2]. destruct (deliver_all os' c2 s2) as [[c3 s3] o3].
  by rewrite app_assoc.
Qed.

(** The deliveries never look at the parser. *)
Lemma deliver_parser os c p s :
  deliver_all os (c <| parser := p |>) s =
  let '(c', s', o) := deliver_all os c s in (c' <| parser := p |>, s', o).
Proof.
  revert c s. induction os as [|o os IH]; intros c s; [done|].
  destruct o; cbn [deliver_all]; try apply IH. unfold bind, on_data.
  destruct (read payload) as [[[|[[|x l]|] ch]]|]; cbn [choices];
    try (unfold ret; cbn; rewrite IH; by destruct (deliver_all os c s) as [[? ?] ?]).
  unfold bind. destruct (on_token (x :: l) s) as [[[] s1] o1]. unfold ret.
  change ((c <| parser := p |>) <| tokens ::= S |>) with ((c <| tokens ::= S |>) <| parser := p |>).
  rewrite IH. by destruct (deliver_all os (c <| tokens ::= S |>) s1) as [[? ?] ?].
Qed.

(** A property of actions that sequencing preserves and every call of
    [on_token] has, the deliveries have. *)
Section closed.
Variable P : ∀ A, Act St O A → Prop.
Hypothesis P_ret : ∀ A (a : A), P A (ret a).
Hypothesis P_bind : ∀ A B (m : Act St O A) (k : A → Act St O B), P A m → (∀ a, P B (k a)) → P B (bind m k).
Hypothesis P_gets : ∀ A (f : St → A), P A (gets f).
Hypothesis P_token : ∀ d, P unit (on_token d).

Lemma deliver_closed os c : P submission (deliver_all os c).
Proof.
  revert c. induction os as [|o os IH]; intros c; [apply P_ret|].
  destruct o; cbn [deliver_all]; auto. apply P_bind; [|done]. unfold on_data.
  destruct (read payload) as [[[|[[|x l]|] ch]]|]; cbn [choices]; auto.
Qed.

Lemma parse_closed m c : P submission (parse m c).
Proof. unfold parse. destruct (m (parser c)) as [[[] p] os]. apply deliver_closed. Qed.

Lemma write_closed bytes c : P (bool * submission) (curl_write bytes c).
Proof.
  apply P_bind; [apply P_gets|]. intros []; [apply P_ret|]. apply P_bind; [apply parse_closed|auto].
Qed.
End closed.

Section uncancelled.
Variable live : St → Prop.
Hypothesis live_open : ∀ s, live s → is_cancelled s = false.
Hypothesis token_live : ∀ d s, live s → live (exec (on_token d) s).

Lemma deliver_live os c s : live s → live (exec (deliver_all os c) s).
Proof.
  revert s. apply (deliver_closed (λ A m, ∀ s, live s → live (exec m s))); try done.
  intros A B m k Hm Hk s Hs. rewrite exec_bind. by apply Hk, Hm.
Qed.

Lemma write_all_run chunks c s :
  live s →
  write_all chunks c s = (c ← parse (Sse.feed_all chunks) c; ret (true, c)) s.
Proof.
  revert c s. induction chunks as [|b chunks IH]; intros c s Hs.
  - unfold bind, parse. cbn. by destruct c.
  - cbn [write_all Sse.feed_all]. unfold bind, parse, curl_write. rewrite bind_gets, live_open by done.
    unfold bind, parse. destruct (Sse.feed b (parser c)) as [[[] p1] os1].
    destruct (Sse.feed_all chunks p1) as [[[] p2] os2] eqn:E2.
    rewrite deliver_app. unfold bind.
    pose proof (deliver_live os1 (c <| parser := p1 |>) s Hs) as Hl. unfold exec in Hl.
    rewrite !deliver_parser in *. destruct (deliver_all os1 c s) as [[c1 s1] o1]. cbn [fst snd] in *.
    unfold ret at 1. rewrite IH by done. unfold bind, parse. change (parser (c1 <| parser := p1 |>)) with p1.
    rewrite E2. change ((c1 <| parser := p1 |>) <| parser := p2 |>) with (c1 <| parser := p2 |>).
    destruct (deliver_all os2 (c1 <| parser := p2 |>) s1) as [[c2 s2] o2]. cbn. by rewrite !app_nil_r.
Qed.
End uncancelled.

(** A stream whose token may be cancelled by its own callbacks, which then
    do nothing: it comes to what one parse of all the bytes does. *)
Section dying.
Variable ok : St → Prop.
Hypothesis token_ok : ∀ d s, ok s → ok (exec (on_token d) s).
Hypothesis token_dead : ∀ d s, ok s → is_cancelled s = true → on_token d s = (tt, s, []).

Lemma deliver_dead os c s : ok s → is_cancelled s = true → ∃ c', deliver_all os c s = (c', s, []).
Proof.
  intros Hok Hd. revert c. induction os as [|o os IH]; intros c; [by eexists|].
  destruct o; cbn [deliver_all]; try apply IH. unfold bind, on_data.
  destruct (read payload) as [[[|[[|x l]|] ch]]|]; cbn [choices];
    try (unfold ret; cbv beta iota; destruct (IH c) as [c' ->]; by eexists).
  unfold bind. rewrite token_dead by done. unfold ret. cbv beta iota.
  destruct (IH (c <| tokens ::= S |>)) as [c' ->]. by eexists.
Qed.

Lemma deliver_keeps os c s : ok s → ok (exec (deliver_all os c) s).
Proof.
  revert s. apply (deliver_closed (λ A m, ∀ s, ok s → ok (exec m s))); try done.
  intros A B m k Hm Hk s Hs. rewrite exec_bind. by apply Hk, Hm.
Qed.

Lemma write_all_cons b chunks c s :
  write_all (b :: chunks) c s =
  if is_cancelled s then (false, c, s, []) else (c ← parse (Sse.feed b) c; write_all chunks c) s.
Proof.
  cbn [write_all]. unfold bind, curl_write, bind, gets, ret. destruct (is_cancelled s); [done|].
  destruct (parse (Sse.feed b) c s) as [[c1 s1] o1]. destruct (write_all chunks c1 s1) as [[? ?] ?].
  by rewrite app_nil_r.
Qed.

Lemma write_all_dying chunks c s :
  ok s →
  let '(c1, s1, os) := parse (Sse.feed_all chunks) c s in
  ∃ b c', write_all chunks c s = (b, c', s1, os) ∧ (is_cancelled s1 = false → b = true ∧ c' = c1).
Proof.
  revert c s. induction chunks as [|b chunks IH]; intros c s Hs.
  - unfold parse. cbn. exists true, c. split; [done|]. intros _. split; [done|]. by destruct c.
  - rewrite write_all_cons. cbn [Sse.feed_all]. destruct (is_cancelled s) eqn:Hc.
    + unfold parse. destruct ((_ ;; _) (parser c)) as [[[] p] os].
      destruct (deliver_dead os (c <| parser := p |>) s Hs Hc) as [c1 ->].
      exists false, c. split; [done|congruence].
    + unfold bind, parse. destruct (Sse.feed b (parser c)) as [[[] p1] os1].
      destruct (Sse.feed_all chunks p1) as [[[] p2] os2] eqn:E2.
      pose proof (deliver_keeps os1 (c <| parser := p1 |>) s Hs) as Hl. unfold exec in Hl.
      rewrite deliver_app. unfold bind. rewrite !deliver_parser in *.
      destruct (deliver_all os1 c s) as [[c1 s1] o1]. cbn [fst snd] in *.
      specialize (IH (c1 <| parser := p1 |>) s1 Hl). unfold parse in IH.
      change (parser (c1 <| parser := p1 |>)) with p1 in IH. rewrite E2 in IH.
      change ((c1 <| parser := p1 |>) <| parser := p2 |>) with (c1 <| parser := p2 |>) in IH.
      destruct (deliver_all os2 (c1 <| parser := p2 |>) s1) as [[c2 s2] o2].
      destruct IH as (b' & c' & -> & H). by exists b', c'.
Qed.
End dying.

(** A cancelled request accepts no byte. *)
Lemma write_cancelled bytes c s : is_cancelled s = true → curl_write bytes c s = (false, c, s, []).
Proof. intros H. unfold curl_write. rewrite bind_gets, H. done. Qed.
End client.
