(* ===== verification/Manager.v ===== *)
(** * The dialogue manager (src/src/dialogue/manager.hpp, manager.cpp)

    The bus thread delivers events; the I/O thread runs one turn at a time
    through the LLM client of [LlmClient]. Each label of [step] is what one
    thread does between two points where the other can come in: a lock
    taken, a call of libcurl, a return. The parameter [read] is the JSON
    reader. The answers of the gate and of the turn provider, the clock and
    libcurl's results come with the labels. Logging (its rate limit
    included) and the request body are left out. *)
From S2P Require Import Prelude Event Turn Config.
From S2P Require Fsm Splitter Sse LlmClient.
Open Scope act_scope.

(** [normalised_visible_chars]: [i += step], which may pass the end. *)
Fixpoint visible_chars (fuel : nat) (s : str) : nat :=
  match fuel, s with
  | S fuel, c :: _ =>
      let b := byte_of c in
      let step := if decide (b < 128)%Z then 1
                  else if decide (Z.land b 224 = 192)%Z then 2
                  else if decide (Z.land b 240 = 224)%Z then 3 else 4 in
      let one := if decide (b < 128)%Z
                 then if decide (32 < b ∧ b ≠ 127)%Z then 1 else 0
                 else 1 in
      one + visible_chars fuel (drop step s)
  | _, _ => 0
  end.
Definition normalised_visible_chars (s : str) : nat := visible_chars (length s) s.

Record Transcript := MkTr { tr_turn : TurnId; tr_text : str; tr_lang : str }.

(** The predicate installed by [set_pipeline_gate], and what it does now. *)
Inductive Gate := NoGate | Answers (b : bool) | Throws.
Definition gate_open (g : Gate) : bool :=
  match g with NoGate => true | Answers b => b | Throws => true end.

Inductive CapState := CapNone | CapPending | CapCancelled.
#[global] Instance CapState_eq_dec : EqDecision CapState.
Proof. solve_decision. Defined.

Inductive Out := Publish (e : Event) | TurnStartedHook (t : TurnId).

(** The locals of [run_one] that its callbacks change. *)
Record Locals := MkLocals { splitter : Splitter.splitter; seq : SequenceNo; cap_state : CapState }.
#[global] Instance eta_locals : Eta Locals := λ l, MkLocals (splitter l) (seq l) (cap_state l).

(** What never changes in one [run_one]. *)
Record Turn := MkTurn { ctx : TurnContext; lang : str; cap : Z }.

Inductive IoPc :=
  | MWait
  | MBegin (e : Transcript)            (* popped, [active_] not set yet *)
  | MActive (u : Turn)
  | MStream (u : Turn) (c : LlmClient.submission) (l : Locals) (aborted : bool)
  | MDone.

Record manager := MkManager {
  cfg_ : Config;
  turns_ : Turns;
  has_hook_ : bool;
  pending_ : option Transcript;
  stopping_ : bool;
  active_ : TurnContext;
  gated_turns_ : Z;
  pc : IoPc;
}.
#[global] Instance eta_manager : Eta manager := λ s,
  MkManager (cfg_ s) (turns_ s) (has_hook_ s) (pending_ s) (stopping_ s) (active_ s) (gated_turns_ s) (pc s).

Definition manager_new (cfg : Config) (turns : Turns) (hook : bool) : manager :=
  MkManager cfg turns hook None false no_turn_context 0 MWait.

(** ** The bus thread *)

Definition cancel_active (target : TurnId) (s : manager) : manager :=
  if negb (ctx_valid (active_ s)) then s
  else if decide (target ≠ kNoTurn ∧ target ≠ ctx_id (active_ s)) then s
  else s <| turns_ ::= cancel_token (ctx_token (active_ s)) |>.

Definition enqueue_turn (e : Transcript) (s : manager) : manager := s <| pending_ := Some e |>.

Definition on_final_transcript (e : Transcript) (g : Gate) (now : Z) (s : manager) : manager * list Out :=
  let min_chars := min_real_utterance_chars (barge_in (cfg_ s)) in
  if bool_decide (0 < min_chars)%Z
     && bool_decide (Z.of_nat (normalised_visible_chars (tr_text e)) < min_chars)%Z
  then (s, [Publish (UserInterrupted (tr_turn e) now)])
  else if negb (gate_open g)
  then (s <| gated_turns_ ::= λ n, u64 (n + 1) |>, [Publish (UserInterrupted (tr_turn e) now)])
  else (enqueue_turn e s, []).

Definition on_event (e : Event) (g : Gate) (now : Z) (s : manager) : manager * list Out :=
  match e with
  | FinalTranscript t text lang _ _ _ => on_final_transcript (MkTr t text lang) g now s
  | UserInterrupted t _ => (cancel_active t s, [])
  | CancelGeneration t => (cancel_active t s, [])
  | _ => (s, [])
  end.

(** ** The I/O thread *)

(** One turn runs on its locals and the shared tokens. *)
Definition Run : Type := Locals * Turns.
Abbreviation M := (Act Run Out).

Definition upd (f : Locals → Locals) : M unit := modify (λ r : Run, (f r.1, r.2)).

Definition request_cancel (u : Turn) : M unit :=
  r ← gets fst;
  if decide (cap_state r = CapCancelled) then ret ()
  else upd (λ l, l <| cap_state := CapCancelled |>) ;;
       modify (λ r : Run, (r.1, cancel_token (ctx_token (ctx u)) r.2)).

(** [const SequenceNo cap_backstop = cap > 0 ? cap + 1 : 0] *)
Definition cap_backstop (u : Turn) : Z := if decide (0 < cap u)%Z then u32 (cap u + 1) else 0.
Definition past_backstop (u : Turn) (l : Locals) : bool :=
  bool_decide (0 < cap_backstop u)%Z && bool_decide (cap_backstop u ≤ seq l)%Z.

Definition publish_sentence (u : Turn) (s : str) : M unit :=
  l ← gets fst;
  emit (Publish (LlmSentence (ctx_id (ctx u)) (seq l) s (lang u))) ;;
  upd (λ l, l <| seq ::= λ n, u32 (n + 1) |>).

(** The loop of [on_token] over the sentences of one delta. *)
Fixpoint token_sentences (u : Turn) (emitted : list str) : M unit :=
  match emitted with
  | [] => ret ()
  | s :: emitted =>
      l ← gets fst;
      if past_backstop u l then request_cancel u
      else
        publish_sentence u s ;;
        l ← gets fst;
        if bool_decide (cap_state l = CapNone) && bool_decide (0 < cap u)%Z && bool_decide (cap u ≤ seq l)%Z
        then upd (λ l, l <| cap_state := CapPending |>) ;; token_sentences u emitted
        else if decide (cap_state l = CapPending) then request_cancel u
        else token_sentences u emitted
  end.

(** The splitter, run on its own state. *)
Definition split (m : Act Splitter.splitter str unit) : M (list str) :=
  l ← gets fst;
  let '(_, sp, emitted) := m (splitter l) in
  upd (λ l, l <| splitter := sp |>) ;; ret emitted.

Definition on_token (u : Turn) (delta : str) : M unit :=
  l ← gets fst;
  if decide (cap_state l = CapCancelled) then ret ()
  else
    emitted ← split (Splitter.push delta);
    token_sentences u emitted ;;
    l ← gets fst;
    when negb (bool_decide (cap_state l = CapCancelled))
      do emit (Publish (LlmToken (ctx_id (ctx u)) delta)).

(** The loop of [on_finished]. *)
Fixpoint final_sentences (u : Turn) (emitted : list str) : M unit :=
  match emitted with
  | [] => ret ()
  | s :: emitted =>
      l ← gets fst;
      if past_backstop u l then ret ()
      else publish_sentence u s ;; final_sentences u emitted
  end.

Definition on_finished (u : Turn) (f : LlmClient.LlmFinish) : M unit :=
  emitted ← split Splitter.flush;
  final_sentences u emitted.

(** The start of [run_one]: the turn's context is adopted from the FSM or
    minted, and published in [active_]. [provider] is the provider's answer,
    [None] when none is installed. *)
Definition begin_turn (e : Transcript) (provider : option TurnId) (now : Z) (s : manager) : manager :=
  let '(c, w) := match provider with
                 | Some id => if decide (id ≠ kNoTurn) then adopt id now (turns_ s) else mint now (turns_ s)
                 | None => mint now (turns_ s)
                 end in
  let lang := match tr_lang e with [] => fallback_language (dialogue (cfg_ s)) | l => l end in
  s <| turns_ := w |> <| active_ := c |>
    <| pc := MActive (MkTurn c lang (max_assistant_sentences (dialogue (cfg_ s)))) |>.

Definition locals_init (s : manager) : Locals :=
  MkLocals (Splitter.splitter_new (sentence_splitter (dialogue (cfg_ s)))) 0 CapNone.

Definition end_turn (s : manager) : manager := s <| active_ := no_turn_context |> <| pc := MWait |>.

Section io.
Variable read : str → option LlmClient.SseChunk.

Definition is_cancelled (u : Turn) (r : Run) : bool :=
  match ctx_token (ctx u) with Some p => token_cancelled p r.2 | None => false end.

Definition curl_write (u : Turn) (bytes : str) : LlmClient.submission → M (bool * LlmClient.submission) :=
  LlmClient.curl_write read (on_token u) (is_cancelled u) bytes.
Definition submit_end (u : Turn) (rc_ok : bool) (status : Z) : LlmClient.submission → M unit :=
  LlmClient.submit_end read (on_token u) (on_finished u) (is_cancelled u) Publish
    (ctx_id (ctx u)) rc_ok status.

(** The hook and [LlmStarted], then [submit] up to [curl_easy_perform]. *)
Definition start_turn (u : Turn) (curl_ok : bool) (s : manager) : manager * list Out :=
  let id := ctx_id (ctx u) in
  let started := (if has_hook_ s then [TurnStartedHook id] else []) ++ [Publish (LlmStarted id)] in
  if curl_ok then (s <| pc := MStream u LlmClient.submission_new (locals_init s) false |>, started)
  else let '(_, (_, w), os) := LlmClient.submit_failed (on_finished u) id (locals_init s, turns_ s) in
       (end_turn (s <| turns_ := w |>), started ++ os).

Inductive Label :=
  | Deliver (e : Event) (g : Gate) (now : Z)
  | Pop
  | Begin (provider : option TurnId) (now : Z)
  | Start (curl_ok : bool)
  | Write (bytes : str)
  | Perform (rc_ok : bool) (status : Z)
  | StopCancel                          (* the two halves of [stop] *)
  | StopFlag.

(** A label that its thread cannot take now changes nothing. *)
Definition step (l : Label) (s : manager) : manager * list Out :=
  match l, pc s with
  | Deliver e g now, _ => on_event e g now s
  | StopCancel, _ => (cancel_active kNoTurn s, [])
  | StopFlag, _ => (s <| stopping_ := true |>, [])
  | Pop, MWait =>
      match pending_ s with
      | Some e => (s <| pending_ := None |> <| pc := MBegin e |>, [])
      | None => (if stopping_ s then s <| pc := MDone |> else s, [])
      end
  | Begin provider now, MBegin e => (begin_turn e provider now s, [])
  | Start curl_ok, MActive u => start_turn u curl_ok s
  | Write bytes, MStream u c l false =>
      let '((ok, c), (l, w), os) := curl_write u bytes c (l, turns_ s) in
      (s <| turns_ := w |> <| pc := MStream u c l (negb ok) |>, os)
  | Perform rc_ok status, MStream u c l aborted =>
      let '(_, (_, w), os) := submit_end u (rc_ok && negb aborted) status c (l, turns_ s) in
      (end_turn (s <| turns_ := w |>), os)
  | _, _ => (s, [])
  end.

Fixpoint run (ls : list Label) (s : manager) : manager * list Out :=
  match ls with
  | [] => (s, [])
  | l :: ls => let '(s, o1) := step l s in let '(s, o2) := run ls s in (s, o1 ++ o2)
  end.
End io.

(** ** Specification *)

(** The events the manager publishes, read by an automaton: its state is the
    open turn with the number of its next sentence. Within a turn the
    sentences are numbered from 0 without gaps, and at most one follows the
    cap. *)
Definition accept (cap : Z) (o : Out) (st : option (TurnId * Z)) : option (option (TurnId * Z)) :=
  match o, st with
  | TurnStartedHook _, None => Some None
  | Publish (LlmStarted t), None => Some (Some (t, 0%Z))
  | Publish (LlmSentence t' n' _ _), Some (t, n) =>
      if decide (t' = t ∧ n' = n ∧ ((0 < cap)%Z → (n ≤ cap)%Z)) then Some (Some (t, u32 (n + 1))) else None
  | Publish (LlmToken t' _), Some (t, n) => if decide (t' = t) then Some st else None
  | Publish (LlmFinished t' _ _), Some (t, _) => if decide (t' = t) then Some None else None
  | Publish (UserInterrupted _ _), _ => Some st
  | _, _ => None
  end.
Fixpoint accepts (cap : Z) (os : list Out) (st : option (TurnId * Z)) : option (option (TurnId * Z)) :=
  match os with [] => Some st | o :: os => accept cap o st ≫= accepts cap os end.

Lemma accepts_app cap os os' st : accepts cap (os ++ os') st = accepts cap os st ≫= accepts cap os'.
Proof.
  revert st. induction os as [|o os IH]; intros st; [done|]. cbn.
  destruct (accept cap o st); cbn; [apply IH|done].
Qed.

(** The state of the automaton the I/O thread's position stands for. *)
Definition open_turn (s : manager) : option (TurnId * Z) :=
  match pc s with MStream u _ l _ => Some (ctx_id (ctx u), seq l) | _ => None end.

Section trace.
Variable u : Turn.
Hypothesis cap_range : (0 ≤ cap u < 2 ^ 32 - 1)%Z.

(** An action of the turn that keeps the numbering. *)
Definition streams {A} (m : M A) : Prop := ∀ r,
  accepts (cap u) (outs m r) (Some (ctx_id (ctx u), seq r.1))
  = Some (Some (ctx_id (ctx u), seq (exec m r).1)).

Lemma streams_ret {A} (a : A) : streams (ret a).
Proof. done. Qed.
Lemma streams_gets {A} (f : Run → A) : streams (gets f).
Proof. done. Qed.
Lemma streams_upd f : (∀ l, seq (f l) = seq l) → streams (upd f).
Proof. intros Hf [l w]. cbn. by rewrite Hf. Qed.
Lemma streams_bind {A B} (m : M A) (k : A → M B) : streams m → (∀ a, streams (k a)) → streams (bind m k).
Proof.
  intros Hm Hk r. rewrite outs_bind, exec_bind, accepts_app, (Hm r). cbn. apply Hk.
Qed.
Lemma streams_cancel : streams (request_cancel u).
Proof. intros [l w]. unfold request_cancel. act_cbn; done. Qed.
Lemma streams_split m : streams (split m).
Proof.
  intros [l w]. unfold split, outs, exec. rewrite bind_gets. cbn.
  by destruct (m (splitter l)) as [[[] sp] e].
Qed.

(** A sentence within the backstop. *)
Lemma publish_streams s (k : M unit) l w :
  past_backstop u l = false → streams k →
  accepts (cap u) (outs (publish_sentence u s ;; k) (l, w)) (Some (ctx_id (ctx u), seq l))
  = Some (Some (ctx_id (ctx u), seq (exec (publish_sentence u s ;; k) (l, w)).1)).
Proof.
  intros Hb Hk. rewrite outs_bind, exec_bind, accepts_app.
  set (l' := l <| seq ::= λ n, u32 (n + 1) |>).
  assert (publish_sentence u s (l, w) = (tt, (l', w), [Publish (LlmSentence (ctx_id (ctx u)) (seq l) s (lang u))])) as E
    by done.
  unfold exec, outs, result. rewrite E. cbn. rewrite decide_True; [apply Hk|].
  split_and!; [done..|]. intros Hc. unfold past_backstop, cap_backstop in Hb. rewrite decide_True in Hb by done.
  unfold u32 in Hb. rewrite Z.mod_small in Hb by lia.
  apply andb_false_iff in Hb as [Hb|Hb]; apply bool_decide_eq_false in Hb; lia.
Qed.

Lemma streams_sentences emitted : streams (token_sentences u emitted).
Proof.
  induction emitted as [|s emitted IH]; [apply streams_ret|]. intros [l w]. cbn [token_sentences].
  unfold exec, outs. rewrite bind_gets. cbn [fst]. destruct (past_backstop u l) eqn:Hb; [apply streams_cancel|].
  apply publish_streams; [done|]. apply streams_bind; [apply streams_gets|]. intros l'.
  destruct (_ && _ && _); [apply streams_bind; [by apply streams_upd|done]|].
  case_decide; [apply streams_cancel|done].
Qed.

Lemma streams_final emitted : streams (final_sentences u emitted).
Proof.
  induction emitted as [|s emitted IH]; [apply streams_ret|]. intros [l w]. cbn [final_sentences].
  unfold exec, outs. rewrite bind_gets. cbn [fst]. destruct (past_backstop u l) eqn:Hb; [done|].
  by apply publish_streams.
Qed.

Lemma streams_token delta : streams (on_token u delta).
Proof.
  apply streams_bind; [apply streams_gets|]. intros l. case_decide; [apply streams_ret|].
  apply streams_bind; [apply streams_split|]. intros e.
  apply streams_bind; [apply streams_sentences|]. intros _.
  apply streams_bind; [apply streams_gets|]. intros l'.
  destruct (negb _); [|apply streams_ret]. intros r. cbn. by rewrite decide_True.
Qed.

Lemma streams_finished f : streams (on_finished u f).
Proof. apply streams_bind; [apply streams_split|]. intros e. apply streams_final. Qed.

Variable read : str → option LlmClient.SseChunk.

Lemma streams_write bytes c : streams (curl_write read u bytes c).
Proof.
  apply (LlmClient.write_closed read (on_token u) (is_cancelled u) (@streams));
    [apply @streams_ret|apply @streams_bind|apply @streams_gets|apply streams_token].
Qed.

(** The end of the stream closes the turn. *)
Lemma accepts_end rc status c r :
  accepts (cap u) (outs (submit_end read u rc status c) r) (Some (ctx_id (ctx u), seq r.1)) = Some None.
Proof.
  unfold submit_end, LlmClient.submit_end. rewrite outs_bind, accepts_app.
  rewrite (LlmClient.parse_closed read (on_token u) (@streams));
    [|apply @streams_ret|apply @streams_bind|apply streams_token].
  cbn. generalize (exec (LlmClient.parse read (on_token u) Sse.finish c) r).
  generalize (result (LlmClient.parse read (on_token u) Sse.finish c) r).
  intros c' r'. unfold outs. rewrite bind_gets.
  match goal with |- context [bind ?m ?k r'] => change ((bind m k r').2) with (outs (bind m k) r') end.
  rewrite outs_bind, accepts_app, streams_finished. cbn. by rewrite decide_True.
Qed.
End trace.

(** What holds between two steps. *)
Record mgr_ok (cfg : Config) (s : manager) : Prop := {
  mk_cfg : cfg_ s = cfg;
  mk_turn : match pc s with
            | MActive u | MStream u _ _ _ =>
                cap u = max_assistant_sentences (dialogue cfg) ∧ active_ s = ctx u ∧
                ∃ p, ctx_token (ctx u) = Some p ∧ p < length (flags (turns_ s))
            | _ => active_ s = no_turn_context
            end;
}.

Lemma mgr_ok_new cfg turns hook : mgr_ok cfg (manager_new cfg turns hook).
Proof. by split. Qed.

Lemma cancel_active_flags t s : length (flags (turns_ (cancel_active t s))) = length (flags (turns_ s)).
Proof.
  unfold cancel_active. destruct (negb _); [done|]. case_decide; [done|]. apply cancel_token_length.
Qed.

Lemma cancel_active_ok cfg t s : mgr_ok cfg s → mgr_ok cfg (cancel_active t s).
Proof.
  intros [Hc Ht]. pose proof (cancel_active_flags t s) as Hl. unfold cancel_active in *.
  destruct (negb _); [by split|]. case_decide; [by split|]. split; [done|].
  cbn -[cancel_token] in *. rewrite Hl. done.
Qed.

(** The I/O thread only adds to the token store, or cancels in it. *)
Definition grows {A} (m : M A) : Prop := ∀ r, length (flags (exec m r).2) = length (flags r.2).

Lemma grows_bind {A B} (m : M A) (k : A → M B) : grows m → (∀ a, grows (k a)) → grows (bind m k).
Proof. intros Hm Hk r. rewrite exec_bind, Hk. apply Hm. Qed.
Lemma grows_cancel u : grows (request_cancel u).
Proof. intros [l w]. unfold request_cancel. act_cbn; [done|]. apply cancel_token_length. Qed.
Lemma grows_split m : grows (split m).
Proof. intros [l w]. unfold split, exec. rewrite bind_gets. cbn. by destruct (m (splitter l)) as [[[] sp] e]. Qed.
Lemma grows_publish u s : grows (publish_sentence u s).
Proof. by intros [l w]. Qed.
Lemma grows_sentences u emitted : grows (token_sentences u emitted).
Proof.
  induction emitted as [|s emitted IH]; [done|]. apply grows_bind; [done|]. intros l.
  destruct (past_backstop u l); [apply grows_cancel|]. apply grows_bind; [apply grows_publish|]. intros _.
  apply grows_bind; [done|]. intros l'. destruct (_ && _ && _); [by apply grows_bind|].
  case_decide; [apply grows_cancel|done].
Qed.
Lemma grows_final u emitted : grows (final_sentences u emitted).
Proof.
  induction emitted as [|s emitted IH]; [done|]. apply grows_bind; [done|]. intros l.
  destruct (past_backstop u l); [done|]. by apply grows_bind; [apply grows_publish|].
Qed.
Lemma grows_token u d : grows (on_token u d).
Proof.
  apply grows_bind; [done|]. intros l. case_decide; [done|]. apply grows_bind; [apply grows_split|].
  intros e. apply grows_bind; [apply grows_sentences|]. intros _. apply grows_bind; [done|].
  intros l'. by destruct (negb _).
Qed.
Lemma grows_write read u bytes c : grows (curl_write read u bytes c).
Proof.
  apply (LlmClient.write_closed read (on_token u) (is_cancelled u) (@grows)); try done;
    [apply @grows_bind|apply grows_token].
Qed.

Lemma mgr_ok_step read l cfg s : mgr_ok cfg s → mgr_ok cfg (step read l s).1.
Proof.
  intros H. pose proof H as [Hc Ht]. destruct l as [e g now| |prov now|ok|bytes|rc st| |]; cbn [step].
  - destruct e; try done; cbn [on_event fst]; try by apply cancel_active_ok.
    unfold on_final_transcript. destruct (_ && _); [done|]. destruct (negb _); [by split|]. by split.
  - destruct (pc s) eqn:E; try done. destruct (pending_ s); [by split|].
    destruct (stopping_ s); [by split|done].
  - destruct (pc s) eqn:E; try done. cbn [fst]. unfold begin_turn, adopt, mint. destruct prov as [id|];
      [case_decide|]; cbn; (split; [done|]); cbn; rewrite Hc; split_and!; try done;
      (eexists; split; [done|]; rewrite length_app; cbn; lia).
  - destruct (pc s) eqn:E; try done. unfold start_turn. destruct ok; [by split|].
    destruct (LlmClient.submit_failed _ _ _) as [[[] [l w]] os]. by split.
  - destruct (pc s) as [| | |u c l []|] eqn:E; try done.
    pose proof (grows_write read u bytes c (l, turns_ s)) as Hg. unfold exec in Hg.
    destruct (curl_write read u bytes c (l, turns_ s)) as [[[ok c'] [l' w]] os]. cbn in Hg.
    split; [done|]. cbn. rewrite Hg. exact Ht.
  - destruct (pc s) as [| | |u c l ab|] eqn:E; try done.
    destruct (submit_end _ _ _ _ _ _) as [[[] [l' w]] os]. by split.
  - cbn. by apply cancel_active_ok.
  - by split.
Qed.

Lemma cancel_active_pc t s : pc (cancel_active t s) = pc s.
Proof. unfold cancel_active. destruct (negb _); [done|]. by case_decide. Qed.

Lemma accepts_step read l cfg s :
  mgr_ok cfg s → l ≠ Start false → (0 ≤ max_assistant_sentences (dialogue cfg) < 2 ^ 32 - 1)%Z →
  accepts (max_assistant_sentences (dialogue cfg)) (step read l s).2 (open_turn s)
  = Some (open_turn (step read l s).1).
Proof.
  intros [Hc Ht] Hl Hcap. destruct l as [e g now| |prov now|ok|bytes|rc st| |]; cbn [step].
  - destruct e; try done; cbn [on_event fst snd]; unfold open_turn; try by rewrite cancel_active_pc.
    unfold on_final_transcript. destruct (_ && _); [done|]. by destruct (negb _).
  - destruct (pc s) eqn:E; try done. unfold open_turn. rewrite E. destruct (pending_ s); [done|].
    destruct (stopping_ s); cbn; [done|by rewrite E].
  - destruct (pc s) eqn:E; try done. cbn [fst snd]. unfold open_turn, begin_turn. rewrite E.
    by destruct (match prov with Some _ => _ | None => _ end) as [c w].
  - destruct (pc s) eqn:E; try done. unfold start_turn. destruct ok; [|done].
    unfold open_turn. rewrite E. by destruct (has_hook_ s).
  - destruct (pc s) as [| | |u c l []|] eqn:E; try done. destruct Ht as (Hu & _).
    pose proof (streams_write u ltac:(rewrite Hu; lia) read bytes c (l, turns_ s)) as H. unfold exec, outs in H.
    unfold open_turn. rewrite E, <- Hu.
    by destruct (curl_write read u bytes c (l, turns_ s)) as [[[ok c'] [l' w]] os].
  - destruct (pc s) as [| | |u c l ab|] eqn:E; try done. destruct Ht as (Hu & _).
    pose proof (accepts_end u ltac:(rewrite Hu; lia) read (rc && negb ab) st c (l, turns_ s)) as H. unfold outs in H.
    unfold open_turn. rewrite E, <- Hu.
    by destruct (submit_end _ _ _ _ _ _) as [[[] [l' w]] os].
  - cbn. unfold open_turn. by rewrite cancel_active_pc.
  - done.
Qed.

Lemma manager_run read ls cfg s :
  mgr_ok cfg s →
  mgr_ok cfg (run read ls s).1 ∧
  (Forall (λ l, l ≠ Start false) ls → (0 ≤ max_assistant_sentences (dialogue cfg) < 2 ^ 32 - 1)%Z →
   accepts (max_assistant_sentences (dialogue cfg)) (run read ls s).2 (open_turn s)
   = Some (open_turn (run read ls s).1)).
Proof.
  revert s. induction ls as [|l ls IH]; intros s Hs; [done|]. cbn [run].
  pose proof (mgr_ok_step read l cfg s Hs) as Hs'. pose proof (accepts_step read l cfg s Hs) as Ha.
  destruct (step read l s) as [s1 o1]. cbn [fst snd] in *. destruct (IH s1 Hs') as [H1 H2].
  destruct (run read ls s1) as [s2 o2]. cbn [fst snd] in *. split; [done|]. intros Hf Hcap.
  inversion Hf; subst. rewrite accepts_app, Ha by done. cbn. auto.
Qed.

(** ** An undisturbed turn *)

Fixpoint number (n : Z) (ss : list str) : Z :=
  match ss with [] => n | _ :: ss => number (u32 (n + 1)) ss end.
Fixpoint sentences_from (u : Turn) (n : Z) (ss : list str) : list Out :=
  match ss with
  | [] => []
  | s :: ss => Publish (LlmSentence (ctx_id (ctx u)) n s (lang u)) :: sentences_from u (u32 (n + 1)) ss
  end.

Definition sentence_text (o : Out) : option (TurnId * SequenceNo * str * str) :=
  match o with Publish (LlmSentence t n s lang) => Some (t, n, s, lang) | _ => None end.
Definition token_text (o : Out) : option (TurnId * str) :=
  match o with Publish (LlmToken t d) => Some (t, d) | _ => None end.

Lemma sentence_texts u k ss :
  omap sentence_text (sentences_from u (u32 (Z.of_nat k)) ss)
  = imap (λ i s, (ctx_id (ctx u), u32 (Z.of_nat (k + i)), s, lang u)) ss.
Proof.
  revert k. induction ss as [|s ss IH]; intros k; [done|]. cbn [sentences_from omap list_omap sentence_text imap].
  rewrite Nat.add_0_r. f_equal.
  assert (u32 (u32 (Z.of_nat k) + 1) = u32 (Z.of_nat (S k))) as ->
    by (unfold u32; rewrite Zplus_mod_idemp_l; f_equal; lia).
  rewrite IH. apply imap_ext. intros i x _. cbn. by rewrite Nat.add_succ_r.
Qed.

Lemma token_texts u n ss : omap token_text (sentences_from u n ss) = [].
Proof. revert n. induction ss as [|s ss IH]; intros n; [done|]. apply IH. Qed.

Lemma sentences_from_app u n ss ss' :
  sentences_from u n (ss ++ ss') = sentences_from u n ss ++ sentences_from u (number n ss) ss'.
Proof. revert n. induction ss as [|s ss IH]; intros n; [done|]. cbn. by rewrite IH. Qed.

Lemma number_app n ss ss' : number n (ss ++ ss') = number (number n ss) ss'.
Proof. revert n. induction ss as [|s ss IH]; intros n; [done|]. cbn. by rewrite IH. Qed.

Definition is_answer (o : Out) : Prop := is_Some (sentence_text o) ∨ is_Some (token_text o).

Lemma sentences_are_answer u n ss : Forall is_answer (sentences_from u n ss).
Proof. revert n. induction ss as [|s ss IH]; intros n; constructor; [left; by eexists|apply IH]. Qed.

(** The turn with a cap on its sentences. [limit] is the backstop: the number
    of sentences after which the stream is cancelled. *)
Section capped.
Variable u : Turn.
Hypothesis cap_range : (0 < cap u < 2 ^ 32 - 1)%Z.
Let K := Z.to_nat (cap u).
Let limit := S K.

(** After [k] sentences. *)
Record at_seq (k : nat) (r : Run) : Prop := {
  as_seq : seq r.1 = Z.of_nat k;
  as_cap : cap_state r.1 = if k <? K then CapNone else if k <? limit then CapPending else CapCancelled;
  as_token : ∃ p, ctx_token (ctx u) = Some p ∧ p < length (flags r.2) ∧
                  token_cancelled p r.2 = negb (k <? limit);
}.

Lemma at_seq_cancelled k r : at_seq k r → is_cancelled u r = negb (k <? limit).
Proof. intros [_ _ (p & Hp & _ & Hc)]. unfold is_cancelled. by rewrite Hp. Qed.

Lemma at_seq_splitter k l w sp : at_seq k (l, w) → at_seq k (l <| splitter := sp |>, w).
Proof. by intros [? ? ?]; split. Qed.

Lemma below_backstop k l w : at_seq k (l, w) → k < limit → past_backstop u l = false.
Proof.
  intros [Hs _ _] Hk. unfold past_backstop, cap_backstop. rewrite decide_True by lia.
  unfold u32. rewrite Z.mod_small by lia. cbn in Hs.
  apply andb_false_iff. right. apply bool_decide_eq_false. lia.
Qed.

Lemma at_backstop l w : at_seq limit (l, w) → past_backstop u l = true.
Proof.
  intros [Hs _ _]. unfold past_backstop, cap_backstop. rewrite decide_True by lia.
  unfold u32. rewrite Z.mod_small by lia. cbn in Hs. rewrite !bool_decide_true by lia. done.
Qed.

Lemma next_number k : k < limit → u32 (Z.of_nat k + 1) = Z.of_nat (S k).
Proof. intros Hk. unfold u32. rewrite Z.mod_small; lia. Qed.

Ltac at_ltb := repeat match goal with
  | |- context [?a <? ?b] => destruct (Nat.ltb_spec a b); try lia
  | H : context [?a <? ?b] |- _ => destruct (Nat.ltb_spec a b); try lia
  end.

Lemma token_sentences_run ss l w k :
  at_seq k (l, w) → k < limit →
  ∃ l' w', token_sentences u ss (l, w) = (tt, (l', w'), sentences_from u (Z.of_nat k) (take (limit - k) ss)) ∧
           at_seq (Nat.min (k + length ss) limit) (l', w') ∧ splitter l' = splitter l.
Proof.
  revert l w k. induction ss as [|s ss IH]; intros l w k Hat Hk.
  { exists l, w. rewrite take_nil. split_and!; [done| |done]. by rewrite Nat.add_0_r, Nat.min_l by lia. }
  cbn [token_sentences]. rewrite bind_gets. cbn [fst]. rewrite (below_backstop k l w) by done.
  destruct Hat as [Hs Hcs (p & Hp & Hlt & Htok)]. cbn [fst snd] in *. unfold bind at 1.
  change (publish_sentence u s (l, w)) with
    (tt, (l <| seq ::= λ n, u32 (n + 1) |>, w), [Publish (LlmSentence (ctx_id (ctx u)) (seq l) s (lang u))]).
  cbv beta iota. set (l1 := l <| seq ::= _ |>).
  assert (seq l1 = Z.of_nat (S k)) as Hs1 by (unfold l1; cbn; rewrite Hs; by apply next_number).
  assert (cap_state l1 = cap_state l) as Hc1 by done.
  rewrite bind_gets. cbn [fst]. rewrite Hc1, Hcs, Hs1. replace (limit - k) with (S (K - k)) by lia.
  cbn [take sentences_from]. rewrite Hs, next_number by done.
  rewrite (bool_decide_true (0 < cap u)%Z) by lia. rewrite andb_true_r.
  destruct (Nat.ltb_spec k K) as [HkK|HkK].
  - rewrite (bool_decide_true (CapNone = CapNone)) by done. cbn [andb].
    destruct (decide (cap u ≤ Z.of_nat (S k))%Z) as [He|He];
      [rewrite bool_decide_true by done|rewrite bool_decide_false, decide_False by done].
    + unfold bind at 1.
      change (upd _ (l1, w)) with (tt, (l1 <| cap_state := CapPending |>, w), @nil Out). cbv beta iota.
      destruct (IH (l1 <| cap_state := CapPending |>) w (S k)) as (l' & w' & -> & Hat' & Hsp); [|lia|].
      { split; [done| |exists p; split_and!; [done..|cbn [snd]; rewrite Htok; at_ltb; done]].
        change (CapPending = if S k <? K then CapNone else if S k <? limit then CapPending else CapCancelled).
        at_ltb; done. }
      exists l', w'. replace (limit - S k) with (K - k) by lia. split_and!; [done| |by rewrite Hsp].
      cbn [length]. by rewrite Nat.add_succ_r.
    + destruct (IH l1 w (S k)) as (l' & w' & -> & Hat' & Hsp); [|lia|].
      { split; [done| |exists p; split_and!; [done..|cbn [snd]; rewrite Htok; at_ltb; done]].
        change (cap_state l1 = if S k <? K then CapNone else if S k <? limit then CapPending else CapCancelled).
        rewrite Hc1, Hcs. at_ltb; done. }
      exists l', w'. replace (limit - S k) with (K - k) by lia. split_and!; [done| |by rewrite Hsp].
      cbn [length]. by rewrite Nat.add_succ_r.
  - destruct (Nat.ltb_spec k limit); [|lia]. rewrite bool_decide_false by done. cbn [andb].
    rewrite decide_True by done. replace (K - k) with 0 by lia. rewrite take_0.
    unfold request_cancel. rewrite bind_gets. cbn [fst]. rewrite Hc1, Hcs, decide_False by done.
    unfold bind, upd, modify. cbn [fst snd sentences_from app].
    eexists _, _. split; [done|]. split; [|done]. rewrite Nat.min_r by (cbn [length]; lia).
    split.
    + change (seq l1 = Z.of_nat limit). rewrite Hs1. f_equal. lia.
    + change (CapCancelled = if limit <? K then CapNone else if limit <? limit then CapPending else CapCancelled).
      at_ltb; done.
    + exists p. cbn [snd]. rewrite Hp, cancel_token_length. split_and!; [done..|].
      rewrite cancel_token_cancelled by done. at_ltb; done.
Qed.

Lemma final_sentences_run ss l w k :
  at_seq k (l, w) → k ≤ limit →
  outs (final_sentences u ss) (l, w) = sentences_from u (Z.of_nat k) (take (limit - k) ss) ∧
  (exec (final_sentences u ss) (l, w)).2 = w.
Proof.
  intros [Hs _ _] Hk. cbn in Hs. revert l k Hs Hk. unfold outs, exec.
  induction ss as [|s ss IH]; intros l k Hs Hk; [by rewrite take_nil|].
  cbn [final_sentences]. rewrite bind_gets. cbn [fst].
  assert (past_backstop u l = negb (k <? limit)) as ->.
  { unfold past_backstop, cap_backstop. rewrite decide_True by lia. unfold u32. rewrite Z.mod_small by lia.
    rewrite bool_decide_true by lia. rewrite Hs. at_ltb;
      [rewrite bool_decide_false by lia|rewrite bool_decide_true by lia]; done. }
  destruct (Nat.ltb_spec k limit); cbn [negb]; [|by replace (limit - k) with 0 by lia].
  unfold bind at 1 2.
  change (publish_sentence u s (l, w)) with
    (tt, (l <| seq ::= λ n, u32 (n + 1) |>, w), [Publish (LlmSentence (ctx_id (ctx u)) (seq l) s (lang u))]).
  cbv beta iota. destruct (IH (l <| seq ::= λ n, u32 (n + 1) |>) (S k)) as [H1 H2];
    [cbn; rewrite Hs; by apply next_number|lia|].
  destruct (final_sentences u ss _) as [[[] r] os]. cbn [fst snd] in *. split; [|done].
  replace (limit - k) with (S (limit - S k)) by lia. cbn [take sentences_from]. by rewrite H1, Hs, next_number.
Qed.

Lemma split_run m l w :
  split m (l, w) = (outs m (splitter l), (l <| splitter := exec m (splitter l) |>, w), []).
Proof.
  unfold split, outs, exec. rewrite bind_gets. cbn [fst].
  destruct (m (splitter l)) as [[[] sp] e]. done.
Qed.

(** One delta. *)
Lemma token_run d l w k :
  at_seq k (l, w) → k < limit →
  let ss := outs (Splitter.push d) (splitter l) in
  ∃ l' w', on_token u d (l, w) = (tt, (l', w'),
      sentences_from u (Z.of_nat k) (take (limit - k) ss)
        ++ (if k + length ss <? limit then [Publish (LlmToken (ctx_id (ctx u)) d)] else [])) ∧
    at_seq (Nat.min (k + length ss) limit) (l', w') ∧
    splitter l' = exec (Splitter.push d) (splitter l).
Proof.
  intros Hat Hk ss. unfold on_token. rewrite bind_gets. cbn [fst]. rewrite decide_False.
  2:{ destruct Hat as [_ Hc _]. cbn [fst] in Hc. rewrite Hc. at_ltb; done. }
  unfold bind at 1. rewrite split_run. unfold bind at 1. fold ss.
  destruct (token_sentences_run ss _ w k (at_seq_splitter k l w (exec (Splitter.push d) (splitter l)) Hat) Hk)
    as (l' & w' & -> & Hat' & Hsp). cbv beta iota. rewrite bind_gets. cbn [fst].
  exists l', w'. split_and!; [|done|done].
  destruct Hat' as [_ Hc _]. cbn [fst] in Hc. rewrite Hc.
  destruct (Nat.ltb_spec (k + length ss) limit).
  - rewrite (Nat.min_l (k + length ss)) by lia. rewrite bool_decide_false by (at_ltb; done). done.
  - rewrite (Nat.min_r (k + length ss)) by lia. rewrite bool_decide_true by (at_ltb; done). done.
Qed.

Lemma token_dead d r : at_seq limit r → on_token u d r = (tt, r, []).
Proof.
  intros [_ Hc _]. unfold on_token. rewrite bind_gets, decide_True; [done|]. rewrite Hc. at_ltb; done.
Qed.

Variable read : str → option LlmClient.SseChunk.
Variable encode : str → str.

(** The server's payload for a delta, as the JSON reader sees it. *)
Definition payload_of (d : str) : Prop :=
  d ≠ [] ∧ Sse.one_line (encode d) ∧ encode d ≠ Sse.kDoneSentinel ∧
  ∃ rest, read (encode d) = Some (LlmClient.MkChunk (Some d :: rest)).
(** What the splitter completes while it is fed [ds]. *)
Definition completed (sp : Splitter.splitter) (ds : list str) : list str := outs (Splitter.push (concat ds)) sp.

Lemma completed_cons sp d ds :
  completed sp (d :: ds) = completed sp [d] ++ completed (exec (Splitter.push d) sp) ds.
Proof.
  unfold completed. cbn [concat]. rewrite app_nil_r. apply (Splitter.push_app d (concat ds) sp).
Qed.

(** What the deliveries from the [k]-th sentence on come to: the events are
    those of sentences [k] to [limit], and the deltas [take m ds] that leave
    the number of sentences within the cap. *)
Record streamed (ds : list str) (k : nat) (l l' : Locals) (w' : Turns) (os : list Out) (m : nat) : Prop := {
  sd_at : at_seq (Nat.min (k + length (completed (splitter l) ds)) limit) (l', w');
  sd_answer : Forall is_answer os;
  sd_sentences : omap sentence_text os
    = imap (λ i x, (ctx_id (ctx u), u32 (Z.of_nat (k + i)), x, lang u))
        (take (limit - k) (completed (splitter l) ds));
  sd_tokens : omap token_text os = (λ d, (ctx_id (ctx u), d)) <$> take m ds;
  sd_le : m ≤ length ds;
  sd_exact : ∀ j, j ≤ length ds → (j ≤ m ↔ k + length (completed (splitter l) (take j ds)) < limit);
  sd_splitter : k + length (completed (splitter l) ds) < limit →
    splitter l' = exec (Splitter.push (concat ds)) (splitter l);
}.

Lemma sentence_texts_at k ss :
  k ≤ limit →
  omap sentence_text (sentences_from u (Z.of_nat k) ss)
  = imap (λ i s, (ctx_id (ctx u), u32 (Z.of_nat (k + i)), s, lang u)) ss.
Proof.
  intros Hk. replace (Z.of_nat k) with (u32 (Z.of_nat k)) at 1 by (unfold u32; rewrite Z.mod_small; lia).
  apply sentence_texts.
Qed.

Definition alive (r : Run) : Prop := ∃ k, k ≤ limit ∧ at_seq k r.

Lemma alive_token d r : alive r → alive (exec (on_token u d) r).
Proof.
  intros (k & Hk & Hat). destruct r as [l w]. destruct (decide (k < limit)).
  - destruct (token_run d l w k Hat) as (l' & w' & E & Hat' & _); [done|]. unfold exec. rewrite E.
    eexists. split; [|exact Hat']. lia.
  - replace k with limit in * by lia. unfold exec. rewrite token_dead by done. by exists limit.
Qed.

Lemma alive_dead d r : alive r → is_cancelled u r = true → on_token u d r = (tt, r, []).
Proof.
  intros (k & Hk & Hat) Hc. rewrite (at_seq_cancelled k r Hat) in Hc. apply token_dead.
  replace limit with k; [done|]. at_ltb; done.
Qed.

Lemma limit_cancelled r : at_seq limit r → is_cancelled u r = true.
Proof. intros Hat. rewrite (at_seq_cancelled _ _ Hat). at_ltb; done. Qed.

Lemma deliver_run ds c l w k :
  at_seq k (l, w) → k < limit → Forall payload_of ds →
  ∃ c' l' w' os m,
    LlmClient.deliver_all read (on_token u) ((Sse.OnData <$> (encode <$> ds)) ++ [Sse.OnDone]) c (l, w)
    = (c', (l', w'), os) ∧ streamed ds k l l' w' os m ∧
    (k + length (completed (splitter l) ds) < limit → c' = c <| LlmClient.tokens ::= λ n, length ds + n |>).
Proof.
  intros Hat Hk Hds. revert c l w k Hat Hk. induction Hds as [|d ds (Hne & _ & _ & rest & Hr) _ IH]; intros c l w k Hat Hk.
  - exists c, l, w, [], 0. split_and!; [done| |intros; by destruct c]. cbn. split; cbn; try done.
    + by rewrite Nat.add_0_r, Nat.min_l by lia.
    + by rewrite take_nil.
    + intros j Hj. replace j with 0 by lia. cbn. lia.
  - rewrite !fmap_cons. cbn [app LlmClient.deliver_all]. unfold bind at 1, LlmClient.on_data. rewrite Hr.
    cbn [LlmClient.choices]. destruct d as [|x d]; [done|]. unfold bind at 1.
    destruct (token_run (x :: d) l w k Hat Hk) as (l1 & w1 & -> & Hat1 & Hsp1).
    unfold ret. cbv beta iota.
    assert (completed (splitter l) [x :: d] = outs (Splitter.push (x :: d)) (splitter l)) as Hone
      by (unfold completed; cbn [concat]; by rewrite app_nil_r).
    rewrite <- Hone in *.
    pose proof (completed_cons (splitter l) (x :: d)) as Hcons.
    set (ss := completed (splitter l) [x :: d]) in *. clearbody ss.
    destruct (Nat.ltb_spec (k + length ss) limit) as [Hlt|Hge].
    + rewrite Nat.min_l in Hat1 by lia.
      destruct (IH (c <| LlmClient.tokens ::= S |>) l1 w1 _ Hat1 Hlt) as (c' & l' & w' & os & m & -> & [] & Hc').
      rewrite Hsp1 in *.
      do 5 eexists. split; [done|]. split.
      * apply (Build_streamed _ _ _ _ _ _ (S m)); rewrite ?Hcons.
        -- by rewrite length_app, Nat.add_assoc.
        -- rewrite app_nil_r, !Forall_app. split_and!; [apply sentences_are_answer| |done].
           constructor; [right; by eexists|done].
        -- rewrite app_nil_r, !omap_app. rewrite sentence_texts_at by lia. rewrite sd_sentences0.
           rewrite (take_ge ss) by lia. rewrite take_app_ge, imap_app, <- Nat.sub_add_distr by lia.
           cbn [omap list_omap sentence_text]. rewrite app_nil_r. f_equal.
           apply imap_ext. intros i y _. cbn. by rewrite Nat.add_assoc.
        -- rewrite app_nil_r, !omap_app, token_texts, sd_tokens0. done.
        -- cbn. lia.
        -- intros [|j] Hj; [cbn; lia|]. cbn [take]. rewrite Hcons,
           length_app, Nat.add_assoc, <- sd_exact0; cbn in Hj; lia.
        -- rewrite length_app, Nat.add_assoc. intros H. rewrite sd_splitter0 by done.
           cbn [concat]. by destruct (Splitter.push_app (x :: d) (concat ds) (splitter l)) as [-> _].
      * rewrite Hcons. rewrite length_app, Nat.add_assoc. intros H. rewrite Hc' by done.
        destruct c as [pa n]. unfold set_field. cbn. by rewrite Nat.add_succ_r.
    + rewrite Nat.min_r in Hat1 by lia.
      destruct (LlmClient.deliver_dead read (on_token u) (is_cancelled u) alive alive_dead
        ((Sse.OnData <$> (encode <$> ds)) ++ [Sse.OnDone]) (c <| LlmClient.tokens ::= S |>) (l1, w1))
        as [c' ->]; [by exists limit|by apply limit_cancelled|].
      do 5 eexists. split; [done|]. split; [|rewrite Hcons; rewrite length_app; lia].
      apply (Build_streamed _ _ _ _ _ _ 0); rewrite ?Hcons.
      * rewrite length_app, Nat.min_r by lia. done.
      * rewrite !app_nil_r. apply sentences_are_answer.
      * rewrite !app_nil_r, sentence_texts_at by lia. by rewrite take_app_le by lia.
      * by rewrite !app_nil_r, token_texts.
      * lia.
      * intros [|j] Hj; [cbn; lia|]. cbn [take]. rewrite Hcons. rewrite length_app. lia.
      * rewrite length_app. lia.
Qed.

(** A whole answer, in any reads. *)
Lemma stream_run ds chunks junk l w :
  at_seq 0 (l, w) → Forall payload_of ds →
  concat chunks = concat (Sse.data_event <$> (encode <$> ds)) ++ Sse.done_event ++ junk →
  ∃ b c' l' w' os m,
    LlmClient.write_all read (on_token u) (is_cancelled u) chunks LlmClient.submission_new (l, w)
    = (b, c', (l', w'), os) ∧ streamed ds 0 l l' w' os m ∧
    (length (completed (splitter l) ds) < limit →
     b = true ∧ LlmClient.tokens c' = length ds ∧ Sse.done_seen_ (LlmClient.parser c') = true).
Proof.
  intros Hat Hds Hch.
  assert (Forall (λ p, Sse.one_line p ∧ p ≠ Sse.kDoneSentinel) (encode <$> ds)) as Hps
    by (apply Forall_fmap; eapply Forall_impl; [exact Hds|]; by intros d (_ & ? & ? & _)).
  pose proof (LlmClient.write_all_dying read (on_token u) (is_cancelled u) alive alive_token alive_dead
    chunks LlmClient.submission_new (l, w) ltac:(exists 0; split; [lia|done])) as H.
  unfold LlmClient.parse, LlmClient.submission_new in H. cbn [LlmClient.parser] in H.
  rewrite (Sse.feed_stream (encode <$> ds) junk) in H by done.
  match type of H with context [LlmClient.deliver_all _ _ _ ?c _] =>
    destruct (deliver_run ds c l w 0 Hat ltac:(lia) Hds) as (c1 & l1 & w1 & os & m & E & Hst & Hc1) end.
  rewrite E in H. destruct H as (b & c' & Hw & Hlive).
  exists b, c', l1, w1, os, m. split_and!; [exact Hw|done|]. intros Hlt.
  destruct Hlive as [-> ->].
  - rewrite (at_seq_cancelled _ _ (sd_at _ _ _ _ _ _ _ Hst)). rewrite Nat.min_l by lia. at_ltb; done.
  - rewrite Hc1 by done. cbn. by rewrite Nat.add_0_r.
Qed.

(** The end of the stream, when the answer is within the cap and when not. *)
Lemma end_live c l w k :
  at_seq k (l, w) → k < limit → Sse.done_seen_ (LlmClient.parser c) = true →
  outs (submit_end read u true 200 c) (l, w)
  = sentences_from u (Z.of_nat k) (take (limit - k) (outs Splitter.flush (splitter l)))
      ++ [Publish (LlmFinished (ctx_id (ctx u)) false (LlmClient.tokens c))].
Proof.
  intros Hat Hk Hd. assert (is_cancelled u (l, w) = false) as Hc
    by (rewrite (at_seq_cancelled _ _ Hat); at_ltb; done).
  unfold submit_end, LlmClient.submit_end, LlmClient.parse, Sse.finish, outs at 1.
  unfold bind at 1. rewrite bind_gets. cbn [id]. rewrite Hd. unfold ret at 1. cbn [LlmClient.deliver_all].
  unfold ret at 1. cbv beta iota. rewrite bind_gets, Hc. cbn [negb orb andb].
  rewrite bool_decide_false by tauto. unfold on_finished, bind. rewrite split_run.
  match goal with |- context [final_sentences u ?ss (?l', w)] =>
    destruct (final_sentences_run ss l' w k (at_seq_splitter k l w _ Hat) ltac:(lia)) as [H1 _];
    unfold outs at 1 in H1; destruct (final_sentences u ss (l', w)) as [[[] r] os] end.
  cbn [snd] in H1. subst os. by destruct c.
Qed.

Lemma end_dead rc status c l w :
  at_seq limit (l, w) →
  ∃ n, outs (submit_end read u rc status c) (l, w) = [Publish (LlmFinished (ctx_id (ctx u)) true n)].
Proof.
  intros Hat. pose proof (limit_cancelled _ Hat) as Hc.
  unfold submit_end, LlmClient.submit_end, LlmClient.parse, outs.
  unfold bind at 1. destruct (Sse.finish (LlmClient.parser c)) as [[[] p] os0].
  destruct (LlmClient.deliver_dead read (on_token u) (is_cancelled u) alive alive_dead os0
    (c <| LlmClient.parser := p |>) (l, w)) as [c' ->]; [by exists limit|done|].
  rewrite bind_gets, Hc. cbn [negb andb].
  unfold on_finished, bind. rewrite split_run.
  match goal with |- context [final_sentences u ?ss (?l', w)] =>
    destruct (final_sentences_run ss l' w limit (at_seq_splitter limit l w _ Hat) ltac:(lia)) as [H1 _];
    unfold outs at 1 in H1; destruct (final_sentences u ss (l', w)) as [[[] r] os] end.
  cbn [snd] in H1. subst os. rewrite Nat.sub_diag. cbn. by eexists.
Qed.

Lemma stream_end ds b c l l' w os m :
  streamed ds 0 l l' w os m →
  (length (completed (splitter l) ds) < limit →
   b = true ∧ LlmClient.tokens c = length ds ∧ Sse.done_seen_ (LlmClient.parser c) = true) →
  ∃ pre n,
    outs (submit_end read u b 200 c) (l', w)
    = pre ++ [Publish (LlmFinished (ctx_id (ctx u)) (negb (m =? length ds)) n)] ∧
    Forall is_answer pre ∧ omap token_text pre = [] ∧
    omap sentence_text (os ++ pre)
    = imap (λ i x, (ctx_id (ctx u), u32 (Z.of_nat i), x, lang u))
        (take limit (completed (splitter l) ds ++ outs Splitter.flush (exec (Splitter.push (concat ds)) (splitter l)))) ∧
    (m = length ds → n = length ds).
Proof.
  intros [Hat Ha Hs Ht Hm Hx Hsp] Hlive. set (ss := completed (splitter l) ds) in *. cbn [Nat.add] in Hat.
  pose proof (Hx (length ds) ltac:(lia)) as Hlen. rewrite firstn_all in Hlen. fold ss in Hlen.
  destruct (Nat.ltb_spec (length ss) limit) as [Hlt|Hge].
  - destruct (Hlive Hlt) as (-> & Hn & Hd). rewrite Nat.min_l in Hat by lia.
    assert (m = length ds) as -> by lia. rewrite Nat.eqb_refl.
    exists (sentences_from u (Z.of_nat (length ss)) (take (limit - length ss) (outs Splitter.flush (splitter l')))), (length ds).
    rewrite (end_live c l' w _ Hat Hlt Hd), Hn. rewrite Hsp by (fold ss; lia).
    split_and!; [done|apply sentences_are_answer|apply token_texts| |done].
    rewrite omap_app, Hs, Nat.sub_0_r, sentence_texts_at by lia.
    rewrite (take_ge ss), take_app_ge, imap_app by lia. done.
  - rewrite Nat.min_r in Hat by lia. destruct (end_dead b 200 c l' w Hat) as [n ->].
    exists [], n. destruct (Nat.eqb_spec m (length ds)); [lia|].
    split_and!; [done|done|done| |lia]. rewrite app_nil_r, Hs, Nat.sub_0_r, take_app_le by lia. done.
Qed.

Lemma at_seq_start l w :
  seq l = 0%Z → cap_state l = CapNone →
  (∃ p, ctx_token (ctx u) = Some p ∧ p < length (flags w) ∧ token_cancelled p w = false) →
  at_seq 0 (l, w).
Proof.
  intros Hs Hc Htok. assert (0 < K) by lia.
  split; cbn [fst snd]; [done|rewrite Hc; at_ltb; done|exact Htok].
Qed.
End capped.

Lemma mgr_run_app read ls ls' s :
  run read (ls ++ ls') s =
  let '(s1, o1) := run read ls s in let '(s2, o2) := run read ls' s1 in (s2, o1 ++ o2).
Proof.
  revert s. induction ls as [|l ls IH]; intros s; cbn [run app].
  - by destruct (run read ls' s).
  - destruct (step read l s) as [s1 o1]. rewrite IH. destruct (run read ls s1) as [s2 o2].
    destruct (run read ls' s2) as [s3 o3]. by rewrite app_assoc.
Qed.

Lemma run_aborted read u chunks s c l :
  pc s = MStream u c l true → run read (Write <$> chunks) s = (s, []).
Proof.
  intros Hpc. induction chunks as [|b chunks IH]; [done|]. rewrite fmap_cons. cbn [run step]. by rewrite Hpc, IH.
Qed.

Lemma run_writes read u chunks s c l ok c' l' w' os :
  pc s = MStream u c l false →
  LlmClient.write_all read (on_token u) (is_cancelled u) chunks c (l, turns_ s) = (ok, c', (l', w'), os) →
  run read (Write <$> chunks) s = (s <| turns_ := w' |> <| pc := MStream u c' l' (negb ok) |>, os).
Proof.
  revert s c l os. induction chunks as [|b chunks IH]; intros s c l os Hpc.
  - cbn. intros [= <- <- <- <- <-]. destruct s. cbn in *. by subst.
  - rewrite fmap_cons. cbn [LlmClient.write_all run step]. rewrite Hpc. unfold bind.
    fold (curl_write read u b). destruct (curl_write read u b c (l, turns_ s)) as [[[ok1 c1] [l1 w1]] o1].
    destruct ok1; cbn [negb].
    + destruct (LlmClient.write_all _ _ _ _ _ _) as [[[ok2 c2] [l2 w2]] o2] eqn:E2.
      intros [= -> -> <- <- <-].
      erewrite (IH (s <| turns_ := w1 |> <| pc := MStream u c1 l1 false |>)); [by destruct s|done|exact E2].
    + intros [= <- <- <- <- <-]. set (s1 := _ <| pc := _ |>).
      rewrite (run_aborted read u chunks s1 c1 l1) by done. by rewrite !app_nil_r.
Qed.

(** The id [begin_turn] settles on. *)
Definition turn_id (provider : option TurnId) (s : manager) : TurnId :=
  match provider with
  | Some id => if decide (id ≠ kNoTurn) then id else next_ (turns_ s)
  | None => next_ (turns_ s)
  end.

Lemma begin_turn_run e provider now s :
  ∃ c w, begin_turn e provider now s
    = s <| turns_ := w |> <| active_ := c |>
        <| pc := MActive (MkTurn c (match tr_lang e with [] => fallback_language (dialogue (cfg_ s)) | l => l end)
                            (max_assistant_sentences (dialogue (cfg_ s)))) |> ∧
    ctx_id c = turn_id provider s ∧ ∃ p, ctx_token c = Some p ∧ p < length (flags w) ∧ token_cancelled p w = false.
Proof.
  unfold begin_turn, turn_id, adopt, mint.
  destruct provider as [id|]; [case_decide|]; cbn; (do 2 eexists; split; [done|]; split; [done|]);
    (eexists; split; [done|]); unfold token_cancelled; cbn; rewrite length_app, lookup_app_r, Nat.sub_diag by lia;
    (split; [cbn; lia|done]).
Qed.

Lemma start_run read s e provider now :
  pc s = MWait → pending_ s = Some e →
  ∃ c w, let u := MkTurn c (match tr_lang e with [] => fallback_language (dialogue (cfg_ s)) | l => l end)
                         (max_assistant_sentences (dialogue (cfg_ s))) in
    run read [Pop; Begin provider now; Start true] s
    = (s <| pending_ := None |> <| turns_ := w |> <| active_ := c |>
         <| pc := MStream u LlmClient.submission_new (locals_init s) false |>,
       (if has_hook_ s then [TurnStartedHook (turn_id provider s)] else [])
         ++ [Publish (LlmStarted (turn_id provider s))]) ∧
    ctx_id c = turn_id provider s ∧
    ∃ p, ctx_token c = Some p ∧ p < length (flags w) ∧ token_cancelled p w = false.
Proof.
  intros Hpc Hp. cbn [run step]. rewrite Hpc, Hp.
  destruct (begin_turn_run e provider now (s <| pending_ := None |> <| pc := MBegin e |>))
    as (c & w & Hb & Hid & Hlive).
  exists c, w. cbn [pc set_field]. rewrite Hb. unfold start_turn. cbn. rewrite Hid. split; [|done].
  rewrite app_nil_r. done.
Qed.

(** What one undisturbed turn publishes. *)
Definition answer_labels (provider : option TurnId) (now : Z) (chunks : list str) : list Label :=
  [Pop; Begin provider now; Start true] ++ (Write <$> chunks) ++ [Perform true 200].

(** Cancelling the turn in progress. *)
Lemma cancel_hits cfg s u c l ab t :
  mgr_ok cfg s → pc s = MStream u c l ab → ctx_id (ctx u) ≠ kNoTurn → t = kNoTurn ∨ t = ctx_id (ctx u) →
  is_cancelled u (l, turns_ (cancel_active t s)) = true.
Proof.
  intros [_ Ht] Hpc Hid Htgt. rewrite Hpc in Ht. destruct Ht as (_ & Ha & p & Hp & Hlt).
  unfold cancel_active, ctx_valid. rewrite Ha, Hp, !bool_decide_true by (done || congruence). cbn [andb negb].
  rewrite decide_False by naive_solver. unfold is_cancelled. cbn -[cancel_token].
  rewrite Hp. by apply cancel_token_cancelled.
Qed.

Lemma writes_refused read u c l ab bytes s :
  pc s = MStream u c l ab → is_cancelled u (l, turns_ s) = true →
  let '(s', os) := run read (Write <$> bytes) s in
  os = [] ∧ turns_ s' = turns_ s ∧ ∃ ab', pc s' = MStream u c l ab'.
Proof.
  revert s ab. induction bytes as [|b bytes IH]; intros s ab Hpc Hc; [cbn; eauto|].
  rewrite fmap_cons. cbn [run step]. rewrite Hpc. destruct ab.
  - specialize (IH s true Hpc Hc). destruct (run read (Write <$> bytes) s) as [s' os]. naive_solver.
  - unfold curl_write. rewrite LlmClient.write_cancelled by done. cbn [negb].
    set (s1 := _ <| pc := _ |>).
    specialize (IH s1 true eq_refl Hc). destruct (run read (Write <$> bytes) s1) as [s' os]. cbn in IH. naive_solver.
Qed.

Lemma flush_at_most_one s : length (outs Splitter.flush s) ≤ 1.
Proof.
  unfold outs. rewrite Splitter.flush_run. cbn [snd]. unfold Splitter.sentence_of. by case_decide; cbn; lia.
Qed.

Lemma final_outs u ss l w :
  length (outs (final_sentences u ss) (l, w)) ≤ length ss ∧
  Forall (λ o, is_Some (sentence_text o)) (outs (final_sentences u ss) (l, w)).
Proof.
  revert l w. induction ss as [|s ss IH]; intros l w; [split; [done|constructor]|]. cbn [final_sentences].
  unfold outs. rewrite bind_gets. cbn [fst]. destruct (past_backstop u l); [cbn; split; [lia|constructor]|].
  unfold bind at 1 2.
  change (publish_sentence u s (l, w)) with
    (tt, (l <| seq ::= λ n, u32 (n + 1) |>, w), [Publish (LlmSentence (ctx_id (ctx u)) (seq l) s (lang u))]).
  cbv beta iota. specialize (IH (l <| seq ::= λ n, u32 (n + 1) |>) w). unfold outs in IH.
  destruct (final_sentences u ss _) as [[[] r] os]. cbn in *. split; [lia|].
  constructor; [by eexists|apply IH].
Qed.

(** The deltas that come of what the parser has buffered when the transfer
    ends: the lines of an event whose blank line never came. *)
Definition delta_of (read : str → option LlmClient.SseChunk) (o : Sse.SseOut) : option str :=
  match o with
  | Sse.OnData payload =>
      match LlmClient.choices <$> read payload with
      | Some (Some (x :: content) :: _) => Some (x :: content)
      | _ => None
      end
  | _ => None
  end.
Definition tail_deltas (read : str → option LlmClient.SseChunk) (c : LlmClient.submission) : list str :=
  omap (delta_of read) (outs Sse.finish (LlmClient.parser c)).

Lemma no_tail read c : Sse.buffer_ (LlmClient.parser c) = [] → tail_deltas read c = [].
Proof.
  intros Hb. unfold tail_deltas, Sse.finish, outs. rewrite bind_gets. cbn [id]. rewrite Hb.
  by destruct (Sse.done_seen_ _).
Qed.

Section bound.
Variable u : Turn.

Definition sentences (os : list Out) : Prop := Forall (λ o, is_Some (sentence_text o)) os.
Lemma sentences_answer os : sentences os → Forall is_answer os.
Proof. intros H. eapply Forall_impl; [exact H|]. intros o Ho. by left. Qed.
Lemma length_texts os : length (omap sentence_text os) ≤ length os.
Proof.
  induction os as [|o os IH]; [done|]. change (o :: os) with ([o] ++ os). rewrite omap_app, !length_app.
  cbn. destruct (sentence_text o); cbn; lia.
Qed.
Lemma sentences_no_token os : sentences os → omap token_text os = [].
Proof. induction 1 as [|o os [x Ho] _ IH]; [done|]. by destruct o as [[]|]. Qed.

(** The loop on one delta, whatever the cap: one turn of it, and what it
    publishes. *)
Definition rest_of_delta (ss : list str) (l : Locals) : M unit :=
  if bool_decide (cap_state l = CapNone) && bool_decide (0 < cap u)%Z && bool_decide (cap u ≤ seq l)%Z
  then upd (λ l, l <| cap_state := CapPending |>) ;; token_sentences u ss
  else if decide (cap_state l = CapPending) then request_cancel u
  else token_sentences u ss.

Lemma token_sentences_cons s ss l w :
  token_sentences u (s :: ss) (l, w) =
  if past_backstop u l then request_cancel u (l, w)
  else let l1 := l <| seq ::= λ n, u32 (n + 1) |> in
       let '(x, r, os) := rest_of_delta ss l1 (l1, w) in
       (x, r, Publish (LlmSentence (ctx_id (ctx u)) (seq l) s (lang u)) :: os).
Proof.
  cbn [token_sentences]. rewrite bind_gets. cbn [fst]. destruct (past_backstop u l); [done|]. unfold bind at 1.
  change (publish_sentence u s (l, w)) with
    (tt, (l <| seq ::= λ n, u32 (n + 1) |>, w), [Publish (LlmSentence (ctx_id (ctx u)) (seq l) s (lang u))]).
  cbv beta iota. rewrite bind_gets. reflexivity.
Qed.

Definition bounded (n : nat) (r : Run) (res : unit * Run * list Out) : Prop :=
  sentences res.2 ∧ length res.2 ≤ n ∧ splitter res.1.2.1 = splitter r.1.

Lemma cancel_bounded n r : bounded n r (request_cancel u r).
Proof.
  destruct r as [l w]. unfold request_cancel. rewrite bind_gets. cbn [fst].
  case_decide; (split_and!; [constructor|cbn; lia|done]).
Qed.

Lemma token_sentences_bound ss r : bounded (length ss) r (token_sentences u ss r).
Proof.
  revert r. induction ss as [|s ss IH]; intros [l w]; [split_and!; [constructor|done|done]|].
  rewrite token_sentences_cons. destruct (past_backstop u l); [apply cancel_bounded|].
  set (l1 := l <| seq ::= _ |>).
  assert (bounded (length ss) (l1, w) (rest_of_delta ss l1 (l1, w))) as (H1 & H2 & H3).
  { unfold rest_of_delta. destruct (_ && _ && _).
    - pose proof (IH (l1 <| cap_state := CapPending |>, w)) as H. unfold bind.
      change (upd _ (l1, w)) with (tt, (l1 <| cap_state := CapPending |>, w), @nil Out). cbv beta iota.
      by destruct (token_sentences u ss _) as [[[] r2] os].
    - case_decide; [apply cancel_bounded|apply IH]. }
  cbn zeta. destruct (rest_of_delta ss l1 (l1, w)) as [[[] r2] os]. cbn in *.
  split_and!; [constructor; [by eexists|done]|cbn; lia|done].
Qed.

Lemma token_bound d l w :
  let '(_, (l', w'), os) := on_token u d (l, w) in
  Forall is_answer os ∧
  ((cap_state l' = CapCancelled ∧ omap token_text os = []) ∨
   (cap_state l' ≠ CapCancelled ∧ omap token_text os = [(ctx_id (ctx u), d)])) ∧
  length (omap sentence_text os) ≤ length (completed (splitter l) [d]) ∧
  (cap_state l = CapCancelled → l' = l ∧ os = []) ∧
  (cap_state l ≠ CapCancelled → splitter l' = exec (Splitter.push d) (splitter l)).
Proof.
  unfold on_token. rewrite bind_gets. cbn [fst]. case_decide as Hc.
  { cbn. split_and!; [constructor|by left|lia|done|congruence]. }
  unfold bind at 1. rewrite split_run. unfold bind at 1. set (sp := exec (Splitter.push d) (splitter l)).
  pose proof (token_sentences_bound (outs (Splitter.push d) (splitter l)) (l <| splitter := sp |>, w)) as (H1 & H2 & H3).
  assert (∀ ss o, sentences ss → token_text o = Some (ctx_id (ctx u), d) → sentence_text o = None →
    length ss ≤ length (outs (Splitter.push d) (splitter l)) →
    Forall is_answer (ss ++ [o]) ∧ omap token_text (ss ++ [o]) = [(ctx_id (ctx u), d)] ∧
    length (omap sentence_text (ss ++ [o])) ≤ length (completed (splitter l) [d])) as Hone.
  { intros ss o Hs Ht Hn Hl. rewrite !omap_app, sentences_no_token by done. cbn [omap list_omap]. rewrite Ht, Hn.
    split_and!; [apply Forall_app; split; [by apply sentences_answer|constructor; [right; by eexists|constructor]]|done|].
    rewrite app_nil_r. unfold completed. cbn [concat]. rewrite app_nil_r. etrans; [|exact Hl]. apply length_texts. }
  destruct (token_sentences u _ _) as [[[] [l' w']] os]. cbn [fst snd] in *. rewrite bind_gets. cbn [fst].
  case_bool_decide as Hc'; cbn.
  - rewrite app_nil_r. split_and!; [by apply sentences_answer|left; by rewrite sentences_no_token| |congruence|done].
    unfold completed. cbn [concat]. rewrite app_nil_r. etrans; [apply length_texts|done].
  - destruct (Hone os (Publish (LlmToken (ctx_id (ctx u)) d)) H1 eq_refl eq_refl H2) as (G1 & G2 & G3).
    split_and!; [done|by right|done|congruence|done].
Qed.

Variable read : str → option LlmClient.SseChunk.

Lemma deliver_bound os c l w :
  let ds := omap (delta_of read) os in
  let '(c', (l', w'), out) := LlmClient.deliver_all read (on_token u) os c (l, w) in
  LlmClient.tokens c' = LlmClient.tokens c + length ds ∧ Forall is_answer out ∧
  omap token_text out `prefix_of` ((λ d, (ctx_id (ctx u), d)) <$> ds) ∧
  length (omap sentence_text out) ≤ length (completed (splitter l) ds) ∧
  (cap_state l = CapCancelled → out = []).
Proof.
  revert c l w. induction os as [|o os IH]; intros c l w.
  { cbn. split_and!; [lia|constructor|apply prefix_nil|lia|done]. }
  assert (∀ c1, delta_of read o = None → LlmClient.tokens c1 = LlmClient.tokens c →
     let ds := omap (delta_of read) (o :: os) in
     let '(c', (l', w'), out) := LlmClient.deliver_all read (on_token u) os c1 (l, w) in
     LlmClient.tokens c' = LlmClient.tokens c + length ds ∧ Forall is_answer out ∧
     omap token_text out `prefix_of` ((λ d, (ctx_id (ctx u), d)) <$> ds) ∧
     length (omap sentence_text out) ≤ length (completed (splitter l) ds) ∧
     (cap_state l = CapCancelled → out = [])) as Hskip.
  { intros c1 Hn Hc1. cbn [omap list_omap]. rewrite Hn. rewrite <- Hc1. apply (IH c1). }
  destruct o as [payload| |]; cbn [LlmClient.deliver_all]; [|by apply Hskip..].
  cbn [omap list_omap delta_of] in *. unfold bind at 1, LlmClient.on_data.
  destruct (read payload) as [[[|[[|x d]|] ch]]|]; cbn [LlmClient.choices fmap option_fmap option_map] in *;
    try (unfold ret at 1; cbv beta iota; specialize (Hskip c eq_refl eq_refl);
         destruct (LlmClient.deliver_all _ _ _ _ _) as [[c' [l' w']] out]; exact Hskip).
  clear Hskip. unfold bind at 1. pose proof (token_bound (x :: d) l w) as Ht.
  destruct (on_token u (x :: d) (l, w)) as [[[] [l1 w1]] o1]. unfold ret at 1. cbv beta iota.
  specialize (IH (c <| LlmClient.tokens ::= S |>) l1 w1).
  destruct (LlmClient.deliver_all _ _ _ _ _) as [[c' [l' w']] out].
  destruct Ht as (Ha & Htok & Hs & Hdead & Hlive), IH as (Ih1 & Ih2 & Ih3 & Ih4 & Ih5).
  set (ds := omap (delta_of read) os) in *. rewrite app_nil_r. split_and!.
  - rewrite Ih1. cbn. lia.
  - by apply Forall_app.
  - rewrite omap_app, fmap_cons. destruct Htok as [[Hc ->]|[_ ->]].
    + rewrite (Ih5 Hc). apply prefix_nil.
    + by apply prefix_cons.
  - rewrite omap_app, length_app, completed_cons, length_app.
    destruct (decide (cap_state l = CapCancelled)) as [Hc|Hc].
    + destruct (Hdead Hc) as [-> ->]. rewrite (Ih5 Hc). cbn. lia.
    + rewrite <- Hlive by done. lia.
  - intros Hc. destruct (Hdead Hc) as [-> ->]. by rewrite (Ih5 Hc).
Qed.

(** A cancelled token stays so. *)
Definition stays {A} (m : M A) : Prop := ∀ r, is_cancelled u r = true → is_cancelled u (exec m r) = true.

Lemma stays_bind {A B} (m : M A) (k : A → M B) : stays m → (∀ a, stays (k a)) → stays (bind m k).
Proof. intros Hm Hk r Hr. rewrite exec_bind. by apply Hk, Hm. Qed.
Lemma stays_ret {A} (a : A) : stays (ret a).
Proof. by intros r. Qed.
Lemma stays_gets {A} (f : Run → A) : stays (gets f).
Proof. by intros r. Qed.
Lemma stays_upd f : stays (upd f).
Proof. by intros [l w]. Qed.
Lemma stays_cancel : stays (request_cancel u).
Proof.
  intros [l w] Hr. unfold request_cancel. act_cbn; [done|]. unfold is_cancelled in *.
  destruct (ctx_token (ctx u)) as [p|]; [|done]. cbn [fst snd] in *.
  apply cancel_token_cancelled. unfold token_cancelled in Hr.
  destruct (flags w !! p) eqn:E; [by eapply lookup_lt_Some|done].
Qed.
Lemma stays_split m : stays (split m).
Proof. intros [l w] Hr. unfold exec. by rewrite split_run. Qed.
Lemma stays_publish s : stays (publish_sentence u s).
Proof. by intros [l w]. Qed.
Lemma stays_sentences ss : stays (token_sentences u ss).
Proof.
  induction ss as [|s ss IH]; [apply stays_ret|]. apply stays_bind; [apply stays_gets|]. intros l.
  destruct (past_backstop u l); [apply stays_cancel|]. apply stays_bind; [apply stays_publish|]. intros _.
  apply stays_bind; [apply stays_gets|]. intros l'. destruct (_ && _ && _); [by apply stays_bind; [apply stays_upd|]|].
  case_decide; [apply stays_cancel|done].
Qed.
Lemma stays_token d : stays (on_token u d).
Proof.
  apply stays_bind; [apply stays_gets|]. intros l. case_decide; [apply stays_ret|].
  apply stays_bind; [apply stays_split|]. intros e. apply stays_bind; [apply stays_sentences|]. intros _.
  apply stays_bind; [apply stays_gets|]. intros l'. destruct (negb _); [by intros r|apply stays_ret].
Qed.

(** The end of a cancelled stream. *)
Lemma cancelled_end rc status c l w :
  is_cancelled u (l, w) = true →
  let tail := tail_deltas read c in
  ∃ pre, outs (submit_end read u rc status c) (l, w)
    = pre ++ [Publish (LlmFinished (ctx_id (ctx u)) true (LlmClient.tokens c + length tail))] ∧
    Forall is_answer pre ∧
    omap token_text pre `prefix_of` ((λ d, (ctx_id (ctx u), d)) <$> tail) ∧
    length (omap sentence_text pre) ≤ length (completed (splitter l) tail) + 1.
Proof.
  intros Hc tail. unfold outs at 1, submit_end, LlmClient.submit_end, bind at 1, LlmClient.parse.
  unfold tail, tail_deltas, outs at 1 2 3. destruct (Sse.finish (LlmClient.parser c)) as [[[] p] os0]. cbn [snd].
  pose proof (deliver_bound os0 (c <| LlmClient.parser := p |>) l w) as H.
  pose proof (LlmClient.deliver_closed read (on_token u) (@stays) (@stays_ret) (@stays_bind)
    stays_token os0 (c <| LlmClient.parser := p |>) (l, w) Hc) as Hc'.
  unfold exec in Hc'. destruct (LlmClient.deliver_all _ _ _ _ _) as [[c' [l' w']] o1]. cbn [fst snd] in Hc'.
  destruct H as (H1 & H2 & H3 & H4 & _). rewrite bind_gets, Hc'. cbn [negb andb].
  unfold bind at 1, on_finished, bind at 1. rewrite split_run.
  match goal with |- context [final_sentences u ?ss (?l', ?w)] =>
    pose proof (final_outs u ss l' w) as [G1 G2];
    change (outs (final_sentences u ss) (l', w)) with (final_sentences u ss (l', w)).2 in G1, G2;
    destruct (final_sentences u ss (l', w)) as [[[] r] os] end.
  cbn [snd app] in *. exists (o1 ++ os). rewrite !omap_app, (sentences_no_token os) by done.
  split_and!.
  - cbn. rewrite H1. by rewrite <- app_assoc.
  - apply Forall_app. split; [done|by apply sentences_answer].
  - by rewrite app_nil_r.
  - rewrite length_app. pose proof (flush_at_most_one (splitter l')). pose proof (length_texts os).
    unfold outs in *. cbn in H1. lia.
Qed.
End bound.

(** ** Properties *)

(** [C3] From the network to the sentences. A transcript taken by the idle
    I/O thread, answered by a server that streams the deltas [ds] as
    server-sent events, in any reads, under a cap of at least one sentence as
    [validate] requires (below 2^32 - 1, where [cap + 1] wraps): the turn
    started is the FSM's, or a fresh one; the sentences published are,
    numbered from 0, those of the splitter on the whole answer, all of them
    or, beyond the cap, the first [cap + 1]; the tokens are the deltas in
    order, up to the one that completes sentence [cap + 1]; and the turn
    finishes, with the number of deltas, or cancelled when there is such a
    delta. *)
Theorem manager_answers read encode ds chunks junk s e provider now :
  pc s = MWait → pending_ s = Some e →
  (0 < max_assistant_sentences (dialogue (cfg_ s)) < 2 ^ 32 - 1)%Z →
  Forall (payload_of read encode) ds →
  concat chunks = concat (Sse.data_event <$> (encode <$> ds)) ++ Sse.done_event ++ junk →
  let '(s', os) := run read (answer_labels provider now chunks) s in
  let t := turn_id provider s in
  let lang := match tr_lang e with [] => fallback_language (dialogue (cfg_ s)) | l => l end in
  let cap := Z.to_nat (max_assistant_sentences (dialogue (cfg_ s))) in
  let cfg := sentence_splitter (dialogue (cfg_ s)) in
  pc s' = MWait ∧ pending_ s' = None ∧ active_ s' = no_turn_context ∧
  ∃ body m n, os = (if has_hook_ s then [TurnStartedHook t] else []) ++ Publish (LlmStarted t) ::
                 body ++ [Publish (LlmFinished t (negb (m =? length ds)) n)] ∧
    Forall is_answer body ∧
    omap sentence_text body = imap (λ i x, (t, u32 (Z.of_nat i), x, lang))
      (take (S cap) (Splitter.split_all cfg ds)) ∧
    omap token_text body = (λ d, (t, d)) <$> take m ds ∧
    m ≤ length ds ∧
    (∀ j, j ≤ length ds → (j ≤ m ↔ length (completed (Splitter.splitter_new cfg) (take j ds)) ≤ cap)) ∧
    (m = length ds → n = length ds).
Proof.
  intros Hpc Hp Hcap Hds Hch. unfold answer_labels. rewrite mgr_run_app.
  destruct (start_run read s e provider now Hpc Hp) as (c & w & -> & Ht & Htok). cbn zeta.
  set (u := MkTurn c _ _). set (l := locals_init s). set (s2 := set_field pc _ _).
  destruct (stream_run u Hcap read encode ds chunks junk l w (at_seq_start u Hcap l w eq_refl eq_refl Htok) Hds Hch)
    as (b & c' & l' & w' & os & m & Hw & Hst & Hlive).
  rewrite mgr_run_app, (run_writes read u chunks s2 _ l b c' l' w' os eq_refl Hw). cbn [run step pc set_field].
  destruct (stream_end u Hcap read ds b c' l l' w' os m Hst Hlive) as (pre & n & He & Ha & Hnt & Hs & Hn).
  change (turns_ (set_field pc _ (set_field turns_ (λ _, w') s2))) with w'. rewrite negb_involutive. cbn [andb]. unfold outs in He.
  destruct (submit_end _ _ _ _ _ _) as [[[] [l3 w3]] os3]. cbn [snd] in He. subst os3.
  change (ctx_id (ctx u)) with (ctx_id c) in *. rewrite <- Ht.
  destruct Hst. split_and!; [done..|]. exists (os ++ pre), m, n.
  split_and!; [|by apply Forall_app| | |done| |done].
  - rewrite !app_nil_r. cbn. by rewrite <- !app_assoc.
  - rewrite Hs. unfold Splitter.split_all. by rewrite outs_bind.
  - by rewrite omap_app, sd_tokens0, Hnt, app_nil_r.
  - intros j Hj. rewrite sd_exact0 by done. exact (Nat.lt_succ_r _ _).
Qed.

(** A concrete service for the witnesses: the payload is the delta, and one
    token is sent per read. *)
Definition example_read (payload : str) : option LlmClient.SseChunk :=
  Some (LlmClient.MkChunk [Some payload]).
Definition example_manager (max_sentences min_chars : Z) : manager :=
  let cfg := example_config in
  let d := dialogue cfg in
  let cfg := MkConfig (models cfg) (logging cfg) (control cfg) (pipeline cfg) (llm cfg) (stt cfg) (tts cfg)
    (supervisor cfg) (memory cfg)
    (MkDialogueConfig (recent_turns_n d) max_sentences (max_assistant_tokens d) (self_listen d)
      (max_tts_queue_sentences d) (lit "en") (system_prompts d) (MkSplitterConfig 600 true))
    (audio cfg) (playback cfg) (vad cfg) (utterance cfg) (apm cfg)
    (Build_BargeInConfig true true (Some 15%Q) (Some (6 # 10)) 300 min_chars) (personalities cfg)
    (active_personality cfg) in
  manager_new cfg turns_init true.

Lemma manager_answers_witness :
  let s := (step example_read (Deliver (FinalTranscript 1 (lit "Hi") (lit "de") None 0 0) NoGate 0)
              (manager_new (resolve_aliases example_config) turns_init true)).1 in
  let s := (step example_read (Deliver (FinalTranscript 1 (lit "Hello") (lit "de") None 0 0) NoGate 0) s).1 in
  let ds := [lit "Hi the"; lit "re. Bye"; lit "! So! Or! "; lit "And"] in
  let chunks := [Sse.data_event (lit "Hi the") ++ lit "da"; drop 2 (Sse.data_event (lit "re. Bye"));
                 Sse.data_event (lit "! So! Or! ") ++ Sse.data_event (lit "And") ++ Sse.done_event] in
  let os := (run example_read (answer_labels (Some 7%Z) 0 chunks) s).2 in
  validate (cfg_ s) = None ∧
  omap sentence_text os = [(7, 0, lit "Hi there.", lit "de"); (7, 1, lit "Bye!", lit "de"); (7, 2, lit "So!", lit "de")]%Z ∧
  omap token_text os = [(7, lit "Hi the"); (7, lit "re. Bye")]%Z.
Proof.
  intros s0 s ds chunks os. split; [vm_compute; reflexivity|].
  assert (Forall (payload_of example_read id) ds) as Hds.
  { repeat constructor; try discriminate; try (apply (bool_decide_unpack _); vm_compute; exact I).
    all: by exists []. }
  pose proof (manager_answers example_read id ds chunks [] s (MkTr 1 (lit "Hello") (lit "de")) (Some 7%Z) 0
    eq_refl eq_refl ltac:(split; reflexivity) Hds eq_refl) as H. subst os.
  destruct (run example_read (answer_labels (Some 7%Z) 0 chunks) s) as [s' os].
  destruct H as (_ & _ & _ & body & m & n & -> & _ & H & Ht & Hm & Hx & _). cbn [snd].
  pose proof (proj2 (Hx 2 ltac:(cbn; lia)) ltac:(apply (bool_decide_unpack _); vm_compute; exact I)).
  assert (¬ 3 ≤ m) by (intros H3; apply (Hx 3) in H3; [|cbn; lia]; revert H3; apply (bool_decide_unpack _); vm_compute; exact I).
  assert (m = 2) as -> by lia.
  split; rewrite !omap_app; cbn [omap list_omap sentence_text token_text]; rewrite omap_app, ?H, ?Ht; vm_compute; reflexivity.
Defined.

(** [C6] The published trace. Under every interleaving of the bus thread,
    the I/O thread and libcurl (unless curl cannot be initialised), the
    manager's events are whole turns, one after another: [LlmStarted], then
    tokens and sentences of that turn, the sentences numbered without gaps,
    then one [LlmFinished]; and where a cap is configured no more than one
    sentence follows the capped number. *)
Theorem manager_trace read ls cfg turns hook :
  Forall (λ l, l ≠ Start false) ls → (0 ≤ max_assistant_sentences (dialogue cfg) < 2 ^ 32 - 1)%Z →
  let '(s, os) := run read ls (manager_new cfg turns hook) in
  accepts (max_assistant_sentences (dialogue cfg)) os None
  = Some (match pc s with MStream u _ l _ => Some (ctx_id (ctx u), seq l) | _ => None end).
Proof.
  intros Hls Hcap. destruct (manager_run read ls cfg _ (mgr_ok_new cfg turns hook)) as [_ H].
  specialize (H Hls Hcap). by destruct (run read ls _) as [s os].
Qed.

Lemma manager_trace_witness :
  let s := example_manager 1 0 in
  let ls := Deliver (FinalTranscript 0 [] [] None 0 0) NoGate 0 ::
              answer_labels None 0 [Sse.data_event (lit "A b c d. Some. More. "); Sse.data_event (lit "x")] in
  Forall (λ l, l ≠ Start false) ls ∧
  accepts 1 (run example_read ls s).2 None = Some None ∧
  omap sentence_text (run example_read ls s).2
  = [(1, 0, lit "A b c d. Some.", lit "en"); (1, 1, lit "More.", lit "en")]%Z.
Proof.
  intros s ls.
  assert (Hls : Forall (λ l, l ≠ Start false) ls) by (repeat constructor; discriminate).
  split; [exact Hls|]. split; [|vm_compute; reflexivity].
  pose proof (manager_trace example_read ls (cfg_ s) turns_init true Hls
    ltac:(split; [intro Hx; discriminate Hx|reflexivity])) as H.
  change (manager_new (cfg_ s) turns_init true) with s in H.
  destruct (run example_read ls s) as [s' os] eqn:E. cbn [snd]. etrans; [exact H|].
  assert (pc s' = MWait) as -> by (change s' with (s', os).1; rewrite <- E; vm_compute; reflexivity).
  reflexivity.
Defined.

(** [C12] Cancelling the turn in progress. In every reachable state in
    which a turn streams, [CancelGeneration] for it makes every later read of
    the response refuse its bytes: no token and no sentence comes of them;
    and when libcurl returns, [LlmFinished] says cancelled, whatever the
    result. What still comes before it, although the turn is cancelled: the
    deltas [tail] of an event the parser had received without its blank line
    (none when nothing is buffered), the sentences they complete, and the
    unfinished sentence of the splitter. *)
Theorem cancel_stops_stream read ls cfg turns hook u c l ab bytes rc status g now :
  let s := (run read ls (manager_new cfg turns hook)).1 in
  pc s = MStream u c l ab → ctx_id (ctx u) ≠ kNoTurn →
  let s1 := (step read (Deliver (CancelGeneration (ctx_id (ctx u))) g now) s).1 in
  let '(s2, os) := run read (Write <$> bytes) s1 in
  os = [] ∧
  let '(s3, os) := step read (Perform rc status) s2 in
  pc s3 = MWait ∧ active_ s3 = no_turn_context ∧
  let tail := tail_deltas read c in
  (Sse.buffer_ (LlmClient.parser c) = [] → tail = []) ∧
  ∃ pre, os = pre ++ [Publish (LlmFinished (ctx_id (ctx u)) true (LlmClient.tokens c + length tail))] ∧
    Forall is_answer pre ∧
    omap token_text pre `prefix_of` ((λ d, (ctx_id (ctx u), d)) <$> tail) ∧
    length (omap sentence_text pre) ≤ length (completed (splitter l) tail) + 1.
Proof.
  intros s Hpc Hid. destruct (manager_run read ls cfg _ (mgr_ok_new cfg turns hook)) as [Hok _].
  fold s in Hok. cbn [step on_event fst].
  pose proof (cancel_hits cfg s u c l ab _ Hok Hpc Hid (or_intror eq_refl)) as Hc.
  set (s1 := cancel_active _ s) in *.
  assert (pc s1 = MStream u c l ab) as Hpc1 by (unfold s1; by rewrite cancel_active_pc).
  pose proof (writes_refused read u c l ab bytes s1 Hpc1 Hc) as H.
  destruct (run read (Write <$> bytes) s1) as [s2 os]. destruct H as (-> & Hw & ab' & Hpc2).
  split; [done|]. cbn [step]. rewrite Hpc2, Hw.
  destruct (cancelled_end u read (rc && negb ab') status c l (turns_ s1) Hc) as (pre & Hpre & H1 & H2 & H3).
  unfold outs in Hpre. destruct (submit_end _ _ _ _ _ _) as [[[] [l3 w3]] os3]. cbn in Hpre.
  split_and!; [done|done|apply no_tail|]. eauto 6.
Qed.

Lemma cancel_stops_stream_witness :
  let ls := [Deliver (FinalTranscript 0 [] [] None 0 0) NoGate 0; Pop; Begin None 0; Start true;
             Write (Sse.data_event (lit "A sentence. And an unf") ++ lit "data: inished. And")] in
  let s := (run example_read ls (example_manager 6 0)).1 in
  let s1 := (step example_read (Deliver (CancelGeneration 1) NoGate 0) s).1 in
  let '(s2, os) := run example_read [Write (lit " more." ++ [Sse.newline; Sse.newline])] s1 in
  os = [] ∧ (step example_read (Perform false 0) s2).2
            = [Publish (LlmSentence 1 1 (lit "And an unfinished.") (lit "en")); Publish (LlmToken 1 (lit "inished. And"));
               Publish (LlmSentence 1 2 (lit "And") (lit "en")); Publish (LlmFinished 1 true 2)].
Proof.
  intros ls s s1. pose (cfg := cfg_ (example_manager 6 0)).
  pose proof (λ u c l ab, cancel_stops_stream example_read ls cfg turns_init true u c l ab
    [lit " more." ++ [Sse.newline; Sse.newline]] false 0 NoGate 0) as H.
  change (manager_new cfg turns_init true) with (example_manager 6 0) in H. cbv zeta in H.
  change (run example_read ls (example_manager 6 0)).1 with s in H.
  edestruct (pc s) as [| | |u c l ab|] eqn:E; try (vm_compute in E; discriminate E).
  specialize (H u c l ab eq_refl).
  assert (ctx_id (ctx u) = 1%Z) as Hu by (vm_compute in E; by injection E as <- <- <- <-).
  rewrite Hu in H. specialize (H ltac:(discriminate)). fold s1 in H.
  change (Write <$> [lit " more." ++ [Sse.newline; Sse.newline]])
    with [Write (lit " more." ++ [Sse.newline; Sse.newline])] in H.
  destruct (run example_read [Write _] s1) as [s2 os] eqn:E2. split; [apply H|].
  change s2 with (s2, os).1. rewrite <- E2. vm_compute. reflexivity.
Defined.

(** A cancellation that comes early is lost. While the I/O thread is
    between turns, or has taken a transcript but not yet published its
    context, the manager's [active_] is empty, so in every reachable state
    [UserInterrupted] and [CancelGeneration], for whatever turn, change
    nothing: the transcript that waits is answered all the same. *)
Theorem early_cancel_lost read ls cfg turns hook e g now ls' :
  let s := (run read ls (manager_new cfg turns hook)).1 in
  match pc s with MWait | MBegin _ => True | _ => False end →
  match e with UserInterrupted _ _ | CancelGeneration _ => True | _ => False end →
  run read (Deliver e g now :: ls') s = run read ls' s.
Proof.
  intros s Hpc He. destruct (manager_run read ls cfg _ (mgr_ok_new cfg turns hook)) as [[_ Ha] _].
  fold s in Ha. assert (active_ s = no_turn_context) as Hact by (destruct (pc s); done).
  assert (∀ t, cancel_active t s = s) as Hc by (intros t; unfold cancel_active; by rewrite Hact).
  cbn [run step]. destruct e; try done; cbn [on_event]; rewrite Hc; by destruct (run read ls' s).
Qed.

Lemma early_cancel_lost_witness :
  let s := (run example_read [Deliver (FinalTranscript 7 [] [] None 0 0) NoGate 0; Pop] (example_manager 0 0)).1 in
  let ls := [Begin (Some 7%Z) 0; Start true; Write (Sse.data_event (lit "Too late. "))] in
  (run example_read (Deliver (UserInterrupted 7 0) NoGate 0 :: ls) s).2
  = [TurnStartedHook 7; Publish (LlmStarted 7); Publish (LlmSentence 7 0 (lit "Too late.") (lit "en"));
     Publish (LlmToken 7 (lit "Too late. "))].
Proof.
  intros s ls. pose proof (early_cancel_lost example_read
    [Deliver (FinalTranscript 7 [] [] None 0 0) NoGate 0; Pop] (cfg_ (example_manager 0 0)) turns_init true
    (UserInterrupted 7 0) NoGate 0 ls I I) as H.
  change (manager_new (cfg_ (example_manager 0 0)) turns_init true) with (example_manager 0 0) in H.
  fold s in H. rewrite H. vm_compute. reflexivity.
Defined.

(** Noise interrupts the answer. The short-utterance filter means to
    discard the noise's own turn; but the event it publishes is applied by
    the state machine to the turn it is in. While the assistant speaks, a
    transcript below the limit (which the barge-in detector never saw) stops
    the answer: the turn is closed and its generation cancelled. *)
Theorem noise_interrupts_answer s f t text lg conf d1 d2 g now :
  (Z.of_nat (normalised_visible_chars text) < min_real_utterance_chars (barge_in (cfg_ s)))%Z →
  Fsm.Fsm.state_ f = Fsm.Fsm.Speaking →
  on_event (FinalTranscript t text lg conf d1 d2) g now s = (s, [Publish (UserInterrupted t now)]) ∧
  let m := Fsm.Fsm.on_event now (UserInterrupted t now) in
  Fsm.Fsm.state_ (exec m f) = Fsm.Fsm.Listening ∧
  Fsm.Fsm.Publish (CancelGeneration (ctx_id (Fsm.Fsm.active_ f))) ∈ outs m f ∧
  Fsm.Fsm.turns_completed_ (exec m f) = Fsm.Fsm.turns_completed_ f.
Proof.
  intros Hn Hf. split.
  - cbn [on_event]. unfold on_final_transcript. cbn [tr_text tr_turn].
    rewrite !bool_decide_true by lia. done.
  - Fsm.Fsm.fsm_at f Hf; set_solver.
Qed.

Lemma noise_interrupts_answer_witness :
  let f := exec (Fsm.Fsm.start 0 ;; Fsm.Fsm.run
             [(1, SpeechStarted 0 1); (2, SpeechEnded 0 2); (3, FinalTranscript 0 [] [] None 0 0);
              (4, LlmSentence 1 0 [] [])]%Z) (Fsm.Fsm.fsm_new turns_init false false) in
  let s := example_manager 0 3 in
  Fsm.Fsm.state_ f = Fsm.Fsm.Speaking ∧
  (on_event (FinalTranscript 0 (lit " hm") [] None 0 0) NoGate 5 s).2 = [Publish (UserInterrupted 0 5)] ∧
  Fsm.Fsm.Publish (CancelGeneration 1) ∈ outs (Fsm.Fsm.on_event 5 (UserInterrupted 0 5)) f.
Proof.
  intros f s. assert (Hf : Fsm.Fsm.state_ f = Fsm.Fsm.Speaking) by (vm_compute; reflexivity).
  pose proof (noise_interrupts_answer s f 0 (lit " hm") [] None 0 0 NoGate 5 ltac:(vm_compute; reflexivity) Hf)
    as (H1 & _ & H2 & _).
  split; [exact Hf|]. split; [exact (f_equal snd H1)|].
  assert (E : ctx_id (Fsm.Fsm.active_ f) = 1%Z) by (vm_compute; reflexivity). rewrite E in H2. exact H2.
Defined.
