(* ===== verification/PlaybackQueue.v ===== *)
(** * The playback queue (src/src/playback/queue.hpp, queue.cpp)

    Every operation is one critical section, so threads interleave as
    sequences of operations. [enqueue_blocking] polls: one attempt is one
    operation, and [Retry] is the sleep before the next. The tallies are
    64-bit and taken as unbounded. *)
From S2P Require Import Prelude Event Turn.

Record AudioChunk := Chunk {
  turn : TurnId;
  seq : SequenceNo;
  samples : list Z;
  end_of_sentence : bool;
}.

Record PlaybackQueue := MkPQ {
  q_ : list AudioChunk;
  cap_ : nat;
  drops_ : nat;
  enqueued_ : nat;
  dequeued_ : nat;
}.
#[global] Instance eta_pq : Eta PlaybackQueue := λ s,
  MkPQ (q_ s) (cap_ s) (drops_ s) (enqueued_ s) (dequeued_ s).
Definition pq_new (max_chunks : nat) : PlaybackQueue := MkPQ [] max_chunks 0 0 0.

Definition accept (c : AudioChunk) (s : PlaybackQueue) : PlaybackQueue :=
  s <| q_ ::= λ q, q ++ [c] |> <| enqueued_ ::= S |>.

Definition enqueue (c : AudioChunk) (s : PlaybackQueue) : bool * PlaybackQueue :=
  if negb (bool_decide (cap_ s = 0)) && bool_decide (cap_ s ≤ length (q_ s))
  then (false, s <| drops_ ::= S |>)
  else (true, accept c s).

Inductive Attempt := Accepted | Cancelled | Retry.

(** One turn of the loop of [enqueue_blocking]; [cancelled] is what the
    token says, [false] for a null token. *)
Definition enqueue_blocking (c : AudioChunk) (cancelled : bool) (s : PlaybackQueue)
    : Attempt * PlaybackQueue :=
  if bool_decide (cap_ s = 0) || bool_decide (length (q_ s) < cap_ s) then (Accepted, accept c s)
  else if cancelled then (Cancelled, s)
  else (Retry, s).

Definition drop_front (s : PlaybackQueue) : PlaybackQueue :=
  s <| q_ ::= tail |> <| drops_ ::= S |>.

(** The loop that skips stale chunks: at most one turn per chunk. *)
Fixpoint skip_stale (n : nat) (active_turn : TurnId) (s : PlaybackQueue) : PlaybackQueue :=
  match n, q_ s with
  | S n, c :: _ => if decide (turn c ≠ active_turn) then skip_stale n active_turn (drop_front s) else s
  | _, _ => s
  end.

Definition dequeue_active (active_turn : TurnId) (s : PlaybackQueue)
    : option AudioChunk * PlaybackQueue :=
  let s := skip_stale (length (q_ s)) active_turn s in
  match q_ s with
  | [] => (None, s)
  | c :: q => (Some c, s <| q_ := q |> <| dequeued_ ::= S |>)
  end.

Definition invalidate_before (next_turn : TurnId) (s : PlaybackQueue) : nat * PlaybackQueue :=
  match q_ s with
  | [] => (0, s)
  | q =>
      let kept := filter (λ c, ¬ (turn c < next_turn)%Z) q in
      let dropped := length (filter (λ c, (turn c < next_turn)%Z) q) in
      (dropped, s <| q_ := kept |> <| drops_ ::= Nat.add dropped |>)
  end.

Definition clear (s : PlaybackQueue) : nat * PlaybackQueue :=
  let n := length (q_ s) in (n, s <| q_ := [] |> <| drops_ ::= Nat.add n |>).

Definition size (s : PlaybackQueue) : nat := length (q_ s).

Definition pending_samples_for (t : TurnId) (s : PlaybackQueue) : nat :=
  foldl (λ total c, if decide (turn c = t) then total + length (samples c) else total) 0 (q_ s).

(** ** Runs and their history *)

Inductive Op :=
  | Enqueue (c : AudioChunk)
  | EnqueueBlocking (c : AudioChunk) (cancelled : bool)
  | Dequeue (active_turn : TurnId)
  | Invalidate (next_turn : TurnId)
  | Clear.

Record Hist := MkHist { accepted : list AudioChunk; played : list AudioChunk; rejected : nat }.

Definition op_step (op : Op) (sh : PlaybackQueue * Hist) : PlaybackQueue * Hist :=
  let '(s, MkHist a p r) := sh in
  match op with
  | Enqueue c => match enqueue c s with
                 | (true, s) => (s, MkHist (a ++ [c]) p r)
                 | (false, s) => (s, MkHist a p (S r))
                 end
  | EnqueueBlocking c x => match enqueue_blocking c x s with
                           | (Accepted, s) => (s, MkHist (a ++ [c]) p r)
                           | (_, s) => (s, MkHist a p r)
                           end
  | Dequeue t => match dequeue_active t s with
                 | (Some c, s) => (s, MkHist a (p ++ [c]) r)
                 | (None, s) => (s, MkHist a p r)
                 end
  | Invalidate t => ((invalidate_before t s).2, MkHist a p r)
  | Clear => ((clear s).2, MkHist a p r)
  end.
Definition op_run (ops : list Op) (sh : PlaybackQueue * Hist) : PlaybackQueue * Hist :=
  foldl (λ sh op, op_step op sh) sh ops.

(** ** Specification *)

Record pq_ok (cap : nat) (s : PlaybackQueue) (h : Hist) : Prop := {
  po_cap : cap_ s = cap;
  po_bound : cap ≠ 0 → length (q_ s) ≤ cap;
  po_order : played h ++ q_ s `sublist_of` accepted h;
  po_enqueued : enqueued_ s = length (accepted h);
  po_dequeued : dequeued_ s = length (played h);
  po_drops : drops_ s + length (played h) + length (q_ s) = length (accepted h) + rejected h;
}.

(** ** Lemmas *)

Lemma skip_stale_spec n t s :
  length (q_ s) ≤ n →
  let s' := skip_stale n t s in
  ∃ stale, q_ s = stale ++ q_ s' ∧ Forall (λ c, turn c ≠ t) stale ∧
    (∀ c q, q_ s' = c :: q → turn c = t) ∧
    drops_ s' = length stale + drops_ s ∧ cap_ s' = cap_ s ∧ enqueued_ s' = enqueued_ s ∧
    dequeued_ s' = dequeued_ s.
Proof.
  revert s. induction n as [|n IH]; intros s Hn; cbn zeta.
  - exists []. destruct s as [[|c q] ? ? ? ?]; [|cbn in *; lia]. split_and!; done || constructor.
  - cbn [skip_stale]. destruct (q_ s) as [|c q] eqn:E.
    + exists []. rewrite E. split_and!; done || constructor.
    + case_decide as Hc.
      * destruct (IH (drop_front s)) as (st & H1 & H2 & H3 & H4 & H5 & H6 & H7);
          [cbn in *; rewrite E; cbn in *; lia|].
        cbn in H1, H4, H5, H6, H7. rewrite E in H1. cbn in H1.
        exists (c :: st). cbn. rewrite H1. split_and!; try done; [by constructor|lia].
      * exists []. rewrite E. split_and!; try done. intros ? ? [= <- _].
        done.
Qed.

Lemma filter_length_split {A} (P : A → Prop) `{∀ x, Decision (P x)} l :
  length (filter P l) + length (filter (λ x, ¬ P x) l) = length l.
Proof.
  induction l as [|x l IH]; [done|]. rewrite !filter_cons. do 2 case_decide; cbn; try tauto; lia.
Qed.

Lemma pq_step_ok cap op s h :
  pq_ok cap s h → pq_ok cap (op_step op (s, h)).1 (op_step op (s, h)).2.
Proof.
  destruct h as [a p r]. intros Hok. pose proof Hok as [H1 H2 H3 H4 H5 H6]. cbn in *.
  assert (∀ c, (cap ≠ 0 → length (q_ s) < cap) → pq_ok cap (accept c s) (MkHist (a ++ [c]) p r)) as Hacc.
  { intros c Hc. split; cbn; rewrite ?length_app; cbn; try lia.
    rewrite app_assoc. by apply sublist_app. }
  destruct op as [c|c x|t|t|]; cbn.
  - unfold enqueue. repeat case_bool_decide; cbn; try (apply Hacc; lia).
    split; cbn; try done; lia.
  - unfold enqueue_blocking. repeat case_bool_decide; cbn; try (apply Hacc; lia). by destruct x.
  - unfold dequeue_active. destruct (skip_stale_spec (length (q_ s)) t s (le_n _))
      as (st & E1 & _ & _ & E4 & E5 & E6 & E7). cbn zeta in *.
    set (s' := skip_stale _ _ _) in *. clearbody s'. rewrite E1 in H2, H3, H6. rewrite !length_app in *.
    destruct (q_ s') as [|c q] eqn:E.
    + rewrite app_nil_r in *. cbn in H2, H6. split; cbn; rewrite ?E; cbn; try lia; try congruence.
      * etrans; [|exact H3]. rewrite app_nil_r. by apply sublist_inserts_r.
    + cbn in H2, H6. split; cbn; rewrite ?length_app; cbn; try lia; try congruence.
      etrans; [|exact H3]. rewrite <- app_assoc. apply sublist_app; [done|]. by apply sublist_inserts_l.
  - unfold invalidate_before. destruct (q_ s) as [|c q] eqn:E; [done|]. cbn [snd].
    pose proof (filter_length_split (λ c, (turn c < t)%Z) (c :: q)) as Hl.
    set (kept := filter (λ c, ¬ (turn c < t)%Z) (c :: q)) in *.
    split; cbn [cap_ q_ drops_ enqueued_ dequeued_ set_field accepted played rejected]; try done; try lia.
    etrans; [|exact H3]. apply sublist_app; [done|]. apply sublist_filter.
  - split; cbn; try done; try lia. etrans; [|exact H3]. rewrite app_nil_r. by apply sublist_inserts_r.
Qed.

Lemma pq_run_ok cap ops s h :
  pq_ok cap s h → pq_ok cap (op_run ops (s, h)).1 (op_run ops (s, h)).2.
Proof.
  revert s h. induction ops as [|op ops IH]; intros s h Hok; [done|].
  change (op_run (op :: ops) (s, h)) with (op_run ops (op_step op (s, h))).
  pose proof (pq_step_ok cap op s h Hok). destruct (op_step op (s, h)) as [s1 h1]. by apply IH.
Qed.

Lemma pq_new_ok cap : pq_ok cap (pq_new cap) (MkHist [] [] 0).
Proof. by split; cbn; try lia. Qed.

Lemma pending_sum t q n :
  foldl (λ total c, if decide (turn c = t) then total + length (samples c) else total) n q
  = n + length (concat (samples <$> filter (λ c, turn c = t) q)).
Proof.
  revert n. induction q as [|c q IH]; intros n; cbn [foldl]; [cbn; lia|].
  rewrite IH, filter_cons. case_decide; cbn; rewrite ?length_app; lia.
Qed.

(** ** Properties *)

(** The audio played is what was queued. Over every interleaving of the
    producer, the audio callback and the barge-in handler: the chunks played
    followed by those still queued are, in order, a part of those accepted,
    never more and never repeated; the queue keeps within its capacity; and
    every chunk is accounted for: played, queued, or counted as a drop, with
    the refused ones. *)
Theorem playback_ledger cap ops :
  let '(s, h) := op_run ops (pq_new cap, MkHist [] [] 0) in pq_ok cap s h.
Proof.
  pose proof (pq_run_ok cap ops _ _ (pq_new_ok cap)) as H. by destruct (op_run _ _) as [s h].
Qed.

(** The callback never plays another turn's audio: [dequeue_active]
    gives the first queued chunk of the active turn, and removes exactly that
    chunk and the ones before it, which are counted; if no chunk of the turn
    is queued it gives nothing and leaves the queue empty. *)
Theorem dequeue_exact t s :
  let '(r, s') := dequeue_active t s in
  match r with
  | Some c => turn c = t ∧ ∃ stale, q_ s = stale ++ c :: q_ s' ∧ Forall (λ c, turn c ≠ t) stale ∧
                drops_ s' = length stale + drops_ s ∧ dequeued_ s' = S (dequeued_ s)
  | None => Forall (λ c, turn c ≠ t) (q_ s) ∧ q_ s' = [] ∧
            drops_ s' = length (q_ s) + drops_ s ∧ dequeued_ s' = dequeued_ s
  end.
Proof.
  unfold dequeue_active.
  destruct (skip_stale_spec (length (q_ s)) t s (le_n _)) as (st & E1 & E2 & E3 & E4 & _ & _ & E7).
  cbn zeta in *. set (s' := skip_stale _ _ _) in *. clearbody s'.
  destruct (q_ s') as [|c q] eqn:E.
  - rewrite app_nil_r in E1. subst st. done.
  - split; [by eapply E3|]. exists st. cbn. split_and!; try done. lia.
Qed.

(** Barge-in drains the old audio: after [invalidate_before] only
    chunks of the new turns are queued, in their order, and the number
    returned is the number removed; but, against its comment, [enqueue] does
    not refuse a chunk of an invalidated turn. *)
Theorem invalidate_exact t s c :
  let '(n, s') := invalidate_before t s in
  q_ s' = filter (λ c, ¬ (turn c < t)%Z) (q_ s) ∧ n = length (q_ s) - length (q_ s') ∧
  drops_ s' = n + drops_ s ∧
  ((cap_ s = 0 ∨ length (q_ s') < cap_ s) → (enqueue c s').1 = true ∧ q_ (enqueue c s').2 = q_ s' ++ [c]).
Proof.
  unfold invalidate_before. destruct (q_ s) as [|c0 q] eqn:E.
  - rewrite E. split_and!; try done. intros H. unfold enqueue. rewrite E.
    repeat case_bool_decide; cbn; rewrite ?E; try done; cbn in *; lia.
  - pose proof (filter_length_split (λ c, (turn c < t)%Z) (c0 :: q)) as Hl.
    set (kept := filter (λ c, ¬ (turn c < t)%Z) (c0 :: q)) in *. clearbody kept.
    cbn [q_ set_field cap_ drops_]. split_and!; try done; [lia|]. intros H. unfold enqueue.
    cbn [q_ set_field cap_]. repeat case_bool_decide; cbn; try done; lia.
Qed.
