(* ===== verification/TtsBridge.v ===== *)
(** * The TTS bridge (src/src/dialogue/tts_bridge.hpp, tts_bridge.cpp)

    Two threads: the bus subscriber runs [on_event]; the I/O thread pops a
    job, submits it to the TTS client and enqueues its audio. A step is what
    a thread does between two points where the other may interfere: the
    critical sections, the reads and writes of the cancellation flags, the
    calls on the playback queue. The TTS client is the environment: it calls back in any
    order ([Callback]) and returns ([SubmitReturn]). The resampler (libsoxr)
    is a parameter. *)
From S2P Require Import Prelude Event Turn.
From S2P Require PlaybackQueue.
Abbreviation AudioChunk := PlaybackQueue.AudioChunk.
Abbreviation Chunk := PlaybackQueue.Chunk.

Record LlmSentence := Sentence { s_turn : TurnId; s_seq : SequenceNo; s_text : str; s_lang : str }.
Record Job := MkJob { sentence : LlmSentence; cancel : nat }.

Inductive Cb :=
  | OnFormat (rate : Z)
  | OnAudio (samples : list Z)
  | OnFinished
  | OnError (m : str).

Inductive BridgeOut :=
  | Publish (e : Event)
  | SelfListen (turn : TurnId) (seq : SequenceNo) (text lang : str) (rate : Z) (samples : list Z).

Section bridge.
Context {Resampler : Type}.
Context (rs_new : Z → Z → Resampler).
Context (rs_process : Resampler → list Z → list Z * Resampler).
(** [None]: [flush] threw. *)
Context (rs_flush : Resampler → option (list Z)).

(** The locals of [run_one] that the callbacks capture. *)
Record Locals := MkLocals {
  resampler : option Resampler;
  got_format : bool;
  got_error : bool;
  native_rate : Z;
  self_listen_samples : list Z;
}.
#[global] Instance eta_locals : Eta Locals := λ s,
  MkLocals (resampler s) (got_format s) (got_error s) (native_rate s) (self_listen_samples s).
Definition locals_init : Locals := MkLocals None false false 0 [].

(** Where the I/O thread is. *)
Inductive IoPc :=
  | PWait
  | PBegin (job : Job)
  | PSubmit (job : Job) (l : Locals)
  | PEnqueue (job : Job) (l : Locals) (chunk : AudioChunk)
  | PTail (job : Job) (l : Locals) (tail : list Z)
  | PEos (job : Job) (l : Locals) (tail : list Z)
  | PFinal (job : Job) (l : Locals)
  | PRelease
  | PExit.

(** Where the bus thread is: [on_user_interrupted] cancels the tokens of its
    [to_cancel] and clears the queue after it has released [mu_]. *)
Inductive BusPc := BIdle | BCancel (to_cancel : list nat).

Record bridge := MkBridge {
  device_rate : Z;
  queue_ : PlaybackQueue.PlaybackQueue;
  world : Turns;
  pending_ : list Job;
  stopping_ : bool;
  tokens_ : gmap Z nat;
  in_flight_ : option nat;
  synthesized_ : nat;
  cancelled_ : nat;
  errored_ : nat;
  self_listen_ : bool;
  pc : IoPc;
  bus : BusPc;
}.
#[global] Instance eta_bridge : Eta bridge := λ s,
  MkBridge (device_rate s) (queue_ s) (world s) (pending_ s) (stopping_ s) (tokens_ s) (in_flight_ s)
    (synthesized_ s) (cancelled_ s) (errored_ s) (self_listen_ s) (pc s) (bus s).

Definition bridge_new (rate : Z) (q : PlaybackQueue.PlaybackQueue) (w : Turns) (self : bool) : bridge :=
  MkBridge rate q w [] false ∅ None 0 0 0 self PWait BIdle.

Definition is_cancelled (tok : nat) (s : bridge) : bool := token_cancelled tok (world s).
Definition cancel_tokens (toks : list nat) (s : bridge) : bridge :=
  s <| world ::= λ w, foldl (λ w t, cancel_token (Some t) w) w toks |>.

(** ** The subscriber thread *)

Definition token_for (t : TurnId) (s : bridge) : nat * bridge :=
  match tokens_ s !! t with
  | None => let '(tok, w) := new_token (world s) in
            (tok, s <| world := w |> <| tokens_ ::= <[t := tok]> |>)
  | Some tok => (tok, s)
  end.

Definition on_llm_started (t : TurnId) (s : bridge) : bridge :=
  let '(tok, w) := new_token (world s) in s <| world := w |> <| tokens_ ::= <[t := tok]> |>.

Definition on_llm_sentence (se : LlmSentence) (s : bridge) : bridge :=
  let '(tok, s) := token_for (s_turn se) s in
  if is_cancelled tok s then s <| cancelled_ ::= S |>
  else s <| pending_ ::= λ p, p ++ [MkJob se tok] |>.

Definition on_llm_finished (t : TurnId) (s : bridge) : bridge := s <| tokens_ ::= delete t |>.

(** Up to the end of the critical section. *)
Definition on_user_interrupted (t : TurnId) (s : bridge) : bridge :=
  let '(to_cancel, s) :=
    match tokens_ s !! t with
    | Some tok => ([tok], s)
    | None => let '(tok, w) := new_token (world s) in
              ([], s <| world := cancel_token (Some tok) w |> <| tokens_ ::= <[t := tok]> |>)
    end in
  let dropped := filter (λ j, s_turn (sentence j) = t) (pending_ s) in
  let s := s <| cancelled_ ::= Nat.add (length dropped) |>
             <| pending_ ::= filter (λ j, ¬ s_turn (sentence j) = t) |> in
  let to_cancel := to_cancel ++ match in_flight_ s with Some tok => [tok] | None => [] end in
  s <| bus := BCancel to_cancel |>.

(** The loop over [to_cancel], a token at a time, then [queue_.clear()]. *)
Definition clear_queue (s : bridge) : bridge := s <| queue_ ::= λ q, (PlaybackQueue.clear q).2 |>.
Definition bus_step (s : bridge) : bridge :=
  match bus s with
  | BIdle => s
  | BCancel (tok :: to_cancel) => cancel_tokens [tok] s <| bus := BCancel to_cancel |>
  | BCancel [] => clear_queue s <| bus := BIdle |>
  end.

(** What is left of the handler, without an interruption: the bus thread
    takes the next event only after it. *)
Definition bus_settle (s : bridge) : bridge :=
  match bus s with
  | BIdle => s
  | BCancel to_cancel => clear_queue (cancel_tokens to_cancel s) <| bus := BIdle |>
  end.

Definition on_event (e : Event) (s : bridge) : bridge :=
  match e with
  | Event.LlmStarted t => on_llm_started t s
  | Event.LlmSentence t seq text lang => on_llm_sentence (Sentence t seq text lang) s
  | Event.LlmFinished t _ _ => on_llm_finished t s
  | Event.UserInterrupted t _ => on_user_interrupted t s
  | _ => s
  end.

Definition pending (s : bridge) : nat := length (pending_ s).

(** [stop]: cancel what is in flight, tell the loop; the join waits for
    [PExit]. *)
Definition stop (s : bridge) : bridge :=
  let s := match in_flight_ s with Some tok => cancel_tokens [tok] s | None => s end in
  s <| stopping_ := true |>.

(** ** The I/O thread *)

Definition bytes_of (l : list Z) : nat := 2 * length l.
Definition job_turn (j : Job) := s_turn (sentence j).
Definition job_seq (j : Job) := s_seq (sentence j).

(** The wait of [io_loop] and the critical section after it. *)
Definition io_pop (s : bridge) : bridge :=
  match pending_ s with
  | [] => if stopping_ s then s <| pc := PExit |> else s
  | job :: rest => s <| pending_ := rest |> <| in_flight_ := Some (cancel job) |> <| pc := PBegin job |>
  end.

Definition io_begin (job : Job) (s : bridge) : bridge * list BridgeOut :=
  if is_cancelled (cancel job) s then (s <| cancelled_ ::= S |> <| pc := PRelease |>, [])
  else (s <| pc := PSubmit job locals_init |>,
        [Publish (Event.TtsStarted (job_turn job) (job_seq job))]).

Definition on_format (rate : Z) (device_rate : Z) (l : Locals) : Locals :=
  if decide (rate ≤ 0)%Z then l <| got_error := true |>
  else l <| native_rate := rate |>
         <| resampler := if decide (rate = device_rate) then None else Some (rs_new rate device_rate) |>
         <| got_format := true |>.

(** Up to the call of [enqueue]. *)
Definition on_audio (samples : list Z) (job : Job) (l : Locals) (s : bridge) : bridge :=
  if got_error l || is_cancelled (cancel job) s then s
  else
    let l := if self_listen_ s then l <| self_listen_samples ::= λ x, x ++ samples |> else l in
    let '(out, l) :=
      match resampler l with
      | Some r => let '(out, r) := rs_process r samples in (out, l <| resampler := Some r |>)
      | None => (samples, l)
      end in
    if decide (out = []) then s <| pc := PSubmit job l |>
    else s <| pc := PEnqueue job l (Chunk (job_turn job) (job_seq job) out false) |>.

Definition on_callback (c : Cb) (job : Job) (l : Locals) (s : bridge) : bridge :=
  match c with
  | OnFormat rate => s <| pc := PSubmit job (on_format rate (device_rate s) l) |>
  | OnAudio samples => on_audio samples job l s
  | OnFinished => s
  | OnError m => s <| pc := PSubmit job (l <| got_error := true |>) |>
  end.

Definition io_enqueue (job : Job) (l : Locals) (chunk : AudioChunk) (s : bridge)
    : bridge * list BridgeOut :=
  let '(ok, q) := PlaybackQueue.enqueue chunk (queue_ s) in
  (s <| queue_ := q |> <| pc := PSubmit job l |>,
   if ok then [Publish (Event.TtsAudioChunk (job_turn job) (job_seq job)
                          (bytes_of (PlaybackQueue.samples chunk)))] else []).

(** [submit] has returned: the tail of the resampler. *)
Definition io_returned (job : Job) (l : Locals) (s : bridge) : bridge :=
  let tail := match resampler l with
              | Some r => if got_format l then default [] (rs_flush r) else []
              | None => [] end in
  s <| pc := PTail job l tail |>.

Definition io_tail (job : Job) (l : Locals) (tail : list Z) (s : bridge) : bridge :=
  s <| pc := if is_cancelled (cancel job) s then PFinal job l else PEos job l tail |>.

(** One attempt of [enqueue_blocking]. *)
Definition io_eos (job : Job) (l : Locals) (tail : list Z) (s : bridge) : bridge * list BridgeOut :=
  match PlaybackQueue.enqueue_blocking (Chunk (job_turn job) (job_seq job) tail true)
          (is_cancelled (cancel job) s) (queue_ s) with
  | (PlaybackQueue.Accepted, q) =>
      (s <| queue_ := q |> <| pc := PFinal job l |>,
       if decide (tail = []) then []
       else [Publish (Event.TtsAudioChunk (job_turn job) (job_seq job) (bytes_of tail))])
  | (PlaybackQueue.Cancelled, _) => (s <| pc := PFinal job l |>, [])
  | (PlaybackQueue.Retry, _) => (s, [])
  end.

Definition io_final (job : Job) (l : Locals) (s : bridge) : bridge * list BridgeOut :=
  let s' := s <| pc := PRelease |> in
  if is_cancelled (cancel job) s then (s' <| cancelled_ ::= S |>, [])
  else if got_error l then (s' <| errored_ ::= S |>, [])
  else (s' <| synthesized_ ::= S |>,
        Publish (Event.TtsFinished (job_turn job) (job_seq job))
        :: if self_listen_ s && negb (bool_decide (self_listen_samples l = []))
              && bool_decide (0 < native_rate l)%Z
           then [SelfListen (job_turn job) (job_seq job) (s_text (sentence job)) (s_lang (sentence job))
                   (native_rate l) (self_listen_samples l)]
           else []).

(** The I/O thread moves; inside [submit] it is the client that moves. *)
Definition io_step (s : bridge) : bridge * list BridgeOut :=
  match pc s with
  | PWait => (io_pop s, [])
  | PBegin job => io_begin job s
  | PSubmit _ _ => (s, [])
  | PEnqueue job l chunk => io_enqueue job l chunk s
  | PTail job l tail => (io_tail job l tail s, [])
  | PEos job l tail => io_eos job l tail s
  | PFinal job l => io_final job l s
  | PRelease => (s <| in_flight_ := None |> <| pc := PWait |>, [])
  | PExit => (s, [])
  end.

Inductive Label :=
  | Deliver (e : Event)
  | Bus                                 (* the bus thread goes on in its handler *)
  | Stop
  | Io
  | Callback (c : Cb)
  | SubmitReturn
  | Consume (active_turn : TurnId).

Definition step (l : Label) (s : bridge) : bridge * list BridgeOut :=
  match l with
  | Deliver e => (on_event e (bus_settle s), [])
  | Bus => (bus_step s, [])
  | Stop => (stop s, [])
  | Io => io_step s
  | Callback c => match pc s with PSubmit job lo => (on_callback c job lo s, []) | _ => (s, []) end
  | SubmitReturn => match pc s with PSubmit job lo => (io_returned job lo s, []) | _ => (s, []) end
  | Consume t => (s <| queue_ ::= λ q, (PlaybackQueue.dequeue_active t q).2 |>, [])
  end.

Fixpoint run (ls : list Label) (s : bridge) : bridge * list BridgeOut :=
  match ls with
  | [] => (s, [])
  | l :: ls => let '(s1, o1) := step l s in let '(s2, o2) := run ls s1 in (s2, o1 ++ o2)
  end.

(** ** Specification *)

Definition current (p : IoPc) : option Job :=
  match p with
  | PBegin j | PSubmit j _ | PEnqueue j _ _ | PTail j _ _ | PEos j _ _ | PFinal j _ => Some j
  | PWait | PRelease | PExit => None
  end.

Definition is_sentence (l : Label) : bool :=
  match l with Deliver (Event.LlmSentence _ _ _ _) => true | _ => false end.
Definition received (ls : list Label) : nat := length (filter (λ l, is_sentence l = true) ls).
Definition is_finished (o : BridgeOut) : bool :=
  match o with Publish (Event.TtsFinished _ _) => true | _ => false end.
Definition finished_events (os : list BridgeOut) : nat :=
  length (filter (λ o, is_finished o = true) os).

#[global] Arguments finished_events : simpl never.

(** Every sentence received is in exactly one place. *)
Definition tally (s : bridge) : nat :=
  synthesized_ s + cancelled_ s + errored_ s + length (pending_ s)
  + match current (pc s) with Some _ => 1 | None => 0 end.

(** The token of a job in progress is the one [in_flight_] holds. *)
Definition flight_ok (s : bridge) : Prop :=
  match current (pc s) with Some j => in_flight_ s = Some (cancel j) | None => True end.

(** ** Lemmas *)

Ltac bridge_split := repeat match goal with
  | |- context [match ?x with _ => _ end] => destruct x eqn:?; cbn in *
  end.

Lemma token_for_frame t s :
  let '(tok, s') := token_for t s in
  tally s' = tally s ∧ pc s' = pc s ∧ pending_ s' = pending_ s ∧ in_flight_ s' = in_flight_ s ∧
  synthesized_ s' = synthesized_ s ∧ tokens_ s' !! t = Some tok ∧ queue_ s' = queue_ s ∧
  cancelled_ s' = cancelled_ s ∧ errored_ s' = errored_ s.
Proof.
  unfold token_for. destruct (tokens_ s !! t) as [tok|] eqn:E; [done|].
  split_and!; try done. cbn. apply lookup_insert_eq.
Qed.

Lemma filter_split {A} (P : A → Prop) `{∀ x, Decision (P x)} l :
  length (filter P l) + length (filter (λ x, ¬ P x) l) = length l.
Proof.
  induction l as [|x l IH]; [done|]. rewrite !filter_cons. do 2 case_decide; cbn; try tauto; lia.
Qed.

Lemma cancel_tokens_frame toks s :
  tally (cancel_tokens toks s) = tally s ∧ pc (cancel_tokens toks s) = pc s ∧
  in_flight_ (cancel_tokens toks s) = in_flight_ s ∧ synthesized_ (cancel_tokens toks s) = synthesized_ s.
Proof. done. Qed.

Definition step_ok (l : Label) (s : bridge) (r : bridge * list BridgeOut) : Prop :=
  tally r.1 = tally s + (if is_sentence l then 1 else 0) ∧
  (flight_ok s → flight_ok r.1) ∧
  synthesized_ r.1 = synthesized_ s + finished_events r.2.

(** The rest of the handler touches the tokens and the queue only. *)
Record bus_frame (s s' : bridge) : Prop := {
  bf_tally : tally s' = tally s;
  bf_pc : pc s' = pc s;
  bf_flight : in_flight_ s' = in_flight_ s;
  bf_synthesized : synthesized_ s' = synthesized_ s;
  bf_pending : pending_ s' = pending_ s;
  bf_tokens : tokens_ s' = tokens_ s;
  bf_cancelled : cancelled_ s' = cancelled_ s;
}.
Lemma bus_step_frame s : bus_frame s (bus_step s).
Proof. unfold bus_step. destruct (bus s) as [|[|tok toks]]; by split. Qed.
Lemma bus_settle_frame s : bus_frame s (bus_settle s).
Proof. unfold bus_settle. destruct (bus s) as [|toks]; by split. Qed.

Lemma bus_settle_steps s : bus_settle s = match bus s with
  | BIdle => s | BCancel toks => Nat.iter (S (length toks)) bus_step s end.
Proof.
  unfold bus_settle. destruct (bus s) as [|toks] eqn:E; [done|]. revert s E.
  induction toks as [|tok toks IH]; intros s E; [cbn; unfold bus_step; by rewrite E|].
  cbn [length]. rewrite Nat.iter_succ_r. unfold bus_step at 2. rewrite E. by rewrite <- IH.
Qed.

Lemma on_event_ok e s : step_ok (Deliver e) s (on_event e s, []).
Proof.
  unfold step_ok, finished_events; cbn [fst snd filter length]. rewrite Nat.add_0_r.
  destruct e; cbn [on_event is_sentence]; try (rewrite Nat.add_0_r; done).
  - unfold on_llm_sentence. cbn [s_turn]. pose proof (token_for_frame turn s) as H.
    destruct (token_for turn s) as [tok s1]. destruct H as (Ht & Hp & Hpe & Hf & Hs & _ & _ & Hc & He).
    unfold tally, flight_ok in *. destruct (is_cancelled tok s1); cbn; rewrite ?length_app; cbn;
      rewrite ?Hp, ?Hf; split_and!; try done; rewrite ?Hpe in *; lia.
  - rewrite Nat.add_0_r. unfold on_user_interrupted.
    set (x := match tokens_ s !! turn with Some _ => _ | None => _ end).
    assert (tally x.2 = tally s ∧ pc x.2 = pc s ∧ pending_ x.2 = pending_ s ∧ in_flight_ x.2 = in_flight_ s
      ∧ synthesized_ x.2 = synthesized_ s ∧ cancelled_ x.2 = cancelled_ s ∧ errored_ x.2 = errored_ s)
      as (Ht & Hp & Hpe & Hf & Hs & Hc & He) by (unfold x; by destruct (tokens_ s !! turn)).
    destruct x as [tc s1]. cbn [snd] in *.
    pose proof (filter_split (λ j, s_turn (sentence j) = turn) (pending_ s1)) as Hl.
    unfold tally, flight_ok in *. cbn. rewrite Hp, Hf. split_and!; try done.
    rewrite Hpe in *. lia.
Qed.

Lemma deliver_ok e s : step_ok (Deliver e) s (on_event e (bus_settle s), []).
Proof.
  destruct (bus_settle_frame s) as [H1 H2 H3 H4 _ _ _]. destruct (on_event_ok e (bus_settle s)) as (K1 & K2 & K3).
  split_and!; [by rewrite K1, H1| |by rewrite K3, H4].
  intros Hf. apply K2. unfold flight_ok in *. by rewrite H2, H3.
Qed.

Lemma finished_cons o os : finished_events (o :: os) = (if is_finished o then 1 else 0) + finished_events os.
Proof. unfold finished_events. rewrite filter_cons. by destruct (is_finished o). Qed.
Lemma finished_nil : finished_events [] = 0.
Proof. done. Qed.

Lemma io_step_ok s : step_ok Io s (io_step s).
Proof.
  unfold step_ok, io_step, tally, flight_ok. cbn [is_sentence].
  destruct (pc s) as [|job|job l|job l c|job l tl|job l tl|job l| |] eqn:Epc; cbn.
  - unfold io_pop. destruct (pending_ s) as [|j rest] eqn:Ep; [destruct (stopping_ s)|]; cbn;
      rewrite ?Ep, ?Epc; cbn; split_and!; try done; lia.
  - unfold io_begin. destruct (is_cancelled _ s); cbn; split_and!; try done; lia.
  - rewrite Epc. cbn. split_and!; try done; lia.
  - unfold io_enqueue. destruct (PlaybackQueue.enqueue c (queue_ s)) as [[] q]; cbn;
      rewrite ?finished_cons, ?finished_nil; cbn; split_and!; try done; lia.
  - destruct (is_cancelled _ s); cbn; split_and!; try done; lia.
  - unfold io_eos. destruct (PlaybackQueue.enqueue_blocking _ _ _) as [[] q]; cbn; rewrite ?Epc; cbn;
      try case_decide; cbn; rewrite ?finished_cons, ?finished_nil; cbn; split_and!; try done; lia.
  - unfold io_final. destruct (is_cancelled _ s); cbn; [split_and!; try done; lia|].
    destruct (got_error l); cbn; [split_and!; try done; lia|].
    rewrite finished_cons. destruct (_ && _); cbn; rewrite ?finished_cons, ?finished_nil; cbn; split_and!; try done; lia.
  - split_and!; try done; lia.
  - rewrite Epc. cbn. split_and!; try done; lia.
Qed.

Lemma step_ok_all l s : step_ok l s (step l s).
Proof.
  destruct l as [e| | | |c| |t]; cbn [step].
  - apply deliver_ok.
  - destruct (bus_step_frame s) as [H1 H2 H3 H4 _ _ _]. unfold step_ok, finished_events, flight_ok. cbn.
    rewrite H1, H2, H3, H4. split_and!; try done; lia.
  - unfold step_ok, stop, finished_events, tally, flight_ok. cbn [fst snd is_sentence].
    destruct (in_flight_ s) eqn:E; cbn; rewrite ?E; split_and!; try done; lia.
  - apply io_step_ok.
  - unfold step_ok, finished_events, tally, flight_ok. cbn [is_sentence].
    destruct (pc s) as [|job|job l|job l ck|job l tl|job l tl|job l| |] eqn:Epc; cbn;
      rewrite ?Epc; cbn; try (split_and!; done || lia).
    destruct c; cbn; rewrite ?Epc; cbn; try (split_and!; done || lia).
    unfold on_audio. destruct (_ || _); rewrite ?Epc; cbn; try (split_and!; done || lia).
    set (l' := if self_listen_ s then _ else _). destruct (resampler l').
    + destruct (rs_process r samples) as [out r']. case_decide; cbn; split_and!; done || lia.
    + case_decide; cbn; split_and!; done || lia.
  - unfold step_ok, finished_events, tally, flight_ok. cbn [is_sentence].
    destruct (pc s) eqn:Epc; cbn; rewrite ?Epc; cbn; split_and!; done || lia.
  - unfold step_ok, finished_events, tally, flight_ok. cbn. split_and!; done || lia.
Qed.

Lemma received_cons l ls : received (l :: ls) = (if is_sentence l then 1 else 0) + received ls.
Proof. unfold received. rewrite filter_cons. destruct (is_sentence l); done. Qed.

Lemma finished_app o1 o2 : finished_events (o1 ++ o2) = finished_events o1 + finished_events o2.
Proof. unfold finished_events. by rewrite filter_app, length_app. Qed.

Lemma run_ok ls s :
  flight_ok s →
  let '(s', os) := run ls s in
  tally s' = tally s + received ls ∧ synthesized_ s' = synthesized_ s + finished_events os ∧ flight_ok s'.
Proof.
  revert s. induction ls as [|l ls IH]; intros s Hf; cbn [run].
  - unfold finished_events; cbn. split_and!; try done; unfold received; cbn; lia.
  - pose proof (step_ok_all l s) as (H1 & H2 & H3). destruct (step l s) as [s1 o1]. cbn [fst snd] in *.
    specialize (IH s1 (H2 Hf)). destruct (run ls s1) as [s2 o2]. destruct IH as (K1 & K2 & K3).
    rewrite received_cons, finished_app. split_and!; try done; lia.
Qed.

(** The tokens the bridge holds exist. *)
Record toks_ok (s : bridge) : Prop := {
  tk_map : ∀ t tok, tokens_ s !! t = Some tok → tok < length (flags (world s));
  tk_flight : ∀ tok, in_flight_ s = Some tok → tok < length (flags (world s));
  tk_pending : Forall (λ j, cancel j < length (flags (world s))) (pending_ s);
}.

#[local] Arguments cancel_token : simpl never.
Lemma cancel_all_length toks w :
  length (flags (foldl (λ w t, cancel_token (Some t) w) w toks)) = length (flags w).
Proof.
  revert w. induction toks as [|t toks IH]; intros w; cbn; [done|].
  rewrite IH. apply cancel_token_length.
Qed.

Lemma cancel_all_mono toks w tok :
  token_cancelled tok w = true → token_cancelled tok (foldl (λ w t, cancel_token (Some t) w) w toks) = true.
Proof.
  revert w. induction toks as [|t toks IH]; intros w Hw; [done|]. cbn. apply IH.
  destruct (decide (tok = t)) as [->|Hne].
  - apply cancel_token_cancelled. unfold token_cancelled in Hw.
    destruct (flags w !! t) eqn:E; [by eapply lookup_lt_Some|done].
  - by rewrite (cancel_token_other (Some t)) by congruence.
Qed.

Lemma cancel_all_hit toks w tok :
  tok ∈ toks → tok < length (flags w) →
  token_cancelled tok (foldl (λ w t, cancel_token (Some t) w) w toks) = true.
Proof.
  revert w. induction toks as [|t toks IH]; intros w; [set_solver|].
  intros [->|Hin]%elem_of_cons Hlt; cbn.
  - apply cancel_all_mono. by apply (cancel_token_cancelled t).
  - apply IH; [done|]. by rewrite (cancel_token_length (Some t)).
Qed.

Lemma toks_grow s s' :
  toks_ok s → length (flags (world s)) ≤ length (flags (world s')) →
  tokens_ s' = tokens_ s → in_flight_ s' = in_flight_ s → pending_ s' = pending_ s → toks_ok s'.
Proof.
  intros [H1 H2 H3] Hl Ht Hf Hp. split; rewrite ?Ht, ?Hf, ?Hp.
  - intros t tok E. specialize (H1 t tok E). lia.
  - intros tok E. specialize (H2 tok E). lia.
  - eapply Forall_impl; [exact H3|]. cbn. lia.
Qed.

Lemma toks_new s t b :
  toks_ok s →
  toks_ok (s <| world := (if b : bool then cancel_token (Some (length (flags (world s)))) else id)
                           (new_token (world s)).2 |>
             <| tokens_ ::= <[t := length (flags (world s))]> |>).
Proof.
  intros [H1 H2 H3].
  assert (length (flags ((if b then cancel_token (Some (length (flags (world s)))) else id)
    (new_token (world s)).2)) = S (length (flags (world s)))) as El.
  { destruct b; [rewrite cancel_token_length|]; cbn; rewrite length_app; cbn; lia. }
  split; cbn -[cancel_token new_token]; rewrite El.
  - intros t' tok. rewrite lookup_insert_Some. intros [[_ <-]|[_ E]]; [lia|]. specialize (H1 _ _ E). lia.
  - intros tok E. specialize (H2 _ E). lia.
  - eapply Forall_impl; [exact H3|]. cbn. lia.
Qed.

Lemma toks_deliver e s : toks_ok s → toks_ok (on_event e s).
Proof.
  intros Hs. destruct e; cbn [on_event]; try done.
  - exact (toks_new s turn false Hs).
  - unfold on_llm_sentence, token_for. cbn [s_turn].
    destruct (tokens_ s !! turn) as [tok|] eqn:E.
    + destruct (is_cancelled tok s); [by eapply toks_grow|]. destruct Hs as [H1 H2 H3].
      split; cbn; auto. apply Forall_app. split; [done|]. constructor; [by eapply H1|done].
    + pose proof (toks_new s turn false Hs) as [H1 H2 H3]. cbn in H1, H2, H3. cbn.
      destruct (is_cancelled _ _); [by split|]. split; cbn; auto.
      apply Forall_app. split; [done|]. constructor; [cbn; rewrite length_app; cbn; lia|done].
  - destruct Hs as [H1 H2 H3]. split; cbn; auto. intros t tok. rewrite lookup_delete_Some.
    intros [_ E]. eauto.
  - unfold on_user_interrupted.
    set (x := match tokens_ s !! turn with Some _ => _ | None => _ end).
    assert (toks_ok x.2) as Hx.
    { unfold x. destruct (tokens_ s !! turn); [done|]. exact (toks_new s turn true Hs). }
    destruct x as [tc s1]. cbn [snd] in Hx. destruct Hx as [H1 H2 H3].
    split; cbn; auto. rewrite Forall_forall in H3 |- *. intros j [_ Hj]%list_elem_of_filter. by apply H3.
Qed.

Lemma bus_step_length s : length (flags (world (bus_step s))) = length (flags (world s)).
Proof. unfold bus_step. destruct (bus s) as [|[|tok toks]]; try done. apply (cancel_token_length (Some tok)). Qed.
Lemma bus_settle_length s : length (flags (world (bus_settle s))) = length (flags (world s)).
Proof. unfold bus_settle. destruct (bus s) as [|toks]; [done|]. apply cancel_all_length. Qed.
Lemma toks_settle s : toks_ok s → toks_ok (bus_settle s).
Proof.
  intros Hs. destruct (bus_settle_frame s). pose proof (bus_settle_length s). eapply toks_grow; [exact Hs|lia|done..].
Qed.

Lemma toks_step l s : toks_ok s → toks_ok (step l s).1.
Proof.
  intros Hs. destruct l as [e| | | |c| |t]; cbn [step fst].
  - by apply toks_deliver, toks_settle.
  - destruct (bus_step_frame s). pose proof (bus_step_length s). eapply toks_grow; [exact Hs|lia|done..].
  - unfold stop. destruct (in_flight_ s) eqn:E; [|by eapply toks_grow].
    eapply toks_grow; [exact Hs|cbn; rewrite cancel_token_length; lia|done..].
  - unfold io_step. destruct (pc s) as [|job|job l|job l c|job l tl|job l tl|job l| |] eqn:Epc; cbn;
      try (by eapply toks_grow).
    + unfold io_pop. destruct (pending_ s) as [|j rest] eqn:Ep.
      * destruct (stopping_ s); [by eapply toks_grow|done].
      * destruct Hs as [H1 H2 H3]. rewrite Ep in H3. inversion H3; subst. split; cbn; auto. by intros ? [= <-].
    + unfold io_begin. destruct (is_cancelled _ s); by eapply toks_grow.
    + unfold io_enqueue. destruct (PlaybackQueue.enqueue c (queue_ s)) as [[] q]; by eapply toks_grow.
    + unfold io_eos. destruct (PlaybackQueue.enqueue_blocking _ _ _) as [[] q]; try done; by eapply toks_grow.
    + unfold io_final. destruct (is_cancelled _ s); [|destruct (got_error l)]; by eapply toks_grow.
    + destruct Hs. by split.
  - destruct (pc s) as [|job|job l|job l ck|job l tl|job l tl|job l| |] eqn:Epc; try done. cbn.
    destruct c; cbn; try (by eapply toks_grow).
    unfold on_audio. destruct (_ || _); [done|]. set (l' := if self_listen_ s then _ else _).
    destruct (resampler l'); [destruct (rs_process r samples)|]; case_decide; by eapply toks_grow.
  - destruct (pc s); try done. by eapply toks_grow.
  - by eapply toks_grow.
Qed.

Lemma toks_run ls s : toks_ok s → toks_ok (run ls s).1.
Proof.
  revert s. induction ls as [|l ls IH]; intros s Hs; [done|]. cbn [run].
  pose proof (toks_step l s Hs) as H1. destruct (step l s) as [s1 o1]. specialize (IH s1 H1).
  by destruct (run ls s1).
Qed.

Lemma toks_init rate q w self : toks_ok (bridge_new rate q w self).
Proof. split; cbn; try done. Qed.

(** A job that runs undisturbed. *)
Definition audio_labels (audio : list (list Z)) : list Label :=
  flat_map (λ a, [Callback (OnAudio a); Io]) audio.
Definition chunk_of (job : Job) (a : list Z) : AudioChunk := Chunk (job_turn job) (job_seq job) a false.
Definition chunk_event (job : Job) (a : list Z) : BridgeOut :=
  Publish (Event.TtsAudioChunk (job_turn job) (job_seq job) (bytes_of a)).

Record same_but_audio (s s' : bridge) : Prop := {
  sb_world : world s' = world s;
  sb_cap : PlaybackQueue.cap_ (queue_ s') = PlaybackQueue.cap_ (queue_ s);
  sb_pending : pending_ s' = pending_ s;
  sb_synth : synthesized_ s' = synthesized_ s;
  sb_err : errored_ s' = errored_ s;
  sb_self : self_listen_ s' = self_listen_ s;
  sb_rate : device_rate s' = device_rate s;
}.

Lemma run_app ls1 ls2 s :
  run (ls1 ++ ls2) s = let '(s1, o1) := run ls1 s in let '(s2, o2) := run ls2 s1 in (s2, o1 ++ o2).
Proof.
  revert s. induction ls1 as [|l ls1 IH]; intros s; cbn [run app].
  - by destruct (run ls2 s).
  - destruct (step l s) as [s0 o0]. rewrite IH. destruct (run ls1 s0) as [s1 o1].
    destruct (run ls2 s1) as [s2 o2]. by rewrite app_assoc.
Qed.

Lemma run_audio audio s job l :
  pc s = PSubmit job l → resampler l = None → got_error l = false →
  is_cancelled (cancel job) s = false → PlaybackQueue.cap_ (queue_ s) = 0 → Forall (λ a, a ≠ []) audio →
  let '(s', os) := run (audio_labels audio) s in
  same_but_audio s s' ∧ os = chunk_event job <$> audio ∧
  PlaybackQueue.q_ (queue_ s') = PlaybackQueue.q_ (queue_ s) ++ (chunk_of job <$> audio) ∧
  ∃ l', pc s' = PSubmit job l' ∧ resampler l' = None ∧ got_error l' = false ∧
    got_format l' = got_format l ∧ native_rate l' = native_rate l ∧
    self_listen_samples l' = self_listen_samples l ++ (if self_listen_ s then concat audio else []).
Proof.
  revert s l. induction audio as [|a audio IH]; intros s l Hpc Hr He Hc Hcap Ha.
  - cbn. split_and!; [done|done|by rewrite app_nil_r|]. exists l. split_and!; try done.
    destruct (self_listen_ s); by rewrite app_nil_r.
  - inversion Ha; subst. cbn [audio_labels flat_map app run step]. rewrite Hpc. cbn [on_callback].
    unfold on_audio. rewrite He, Hc. cbn [orb].
    set (l1 := if self_listen_ s then _ else _).
    assert (resampler l1 = None ∧ got_error l1 = false ∧ got_format l1 = got_format l ∧
      native_rate l1 = native_rate l ∧
      self_listen_samples l1 = self_listen_samples l ++ (if self_listen_ s then a else []))
      as (Hr1 & He1 & Hg1 & Hn1 & Hs1).
    { unfold l1. destruct (self_listen_ s); [done|]. by rewrite app_nil_r. }
    clearbody l1. rewrite Hr1. rewrite decide_False by done.
    unfold io_step. cbn [pc set_field]. unfold io_enqueue, PlaybackQueue.enqueue. cbn [queue_ set_field].
    rewrite Hcap. rewrite bool_decide_true by done. cbn [negb andb].
    set (s2 := (s <| pc := _ |>) <| queue_ := _ |> <| pc := _ |>).
    specialize (IH s2 l1 eq_refl Hr1 He1 Hc Hcap H2).
    fold (audio_labels audio). destruct (run (audio_labels audio) s2) as [s' os].
    destruct IH as (Hsb & Hos & Hq & l' & K1 & K2 & K3 & K4 & K5 & K6).
    split_and!.
    + destruct Hsb. by split.
    + by rewrite Hos.
    + rewrite Hq. unfold s2. cbn. by rewrite <- app_assoc.
    + exists l'. split_and!; try done; [congruence..|]. rewrite K6, Hs1. cbn.
      change (self_listen_ s2) with (self_listen_ s). destruct (self_listen_ s); cbn; rewrite ?app_nil_r; [|done].
      by rewrite app_assoc.
Qed.

Definition ending (err : option str) : Cb := match err with Some m => OnError m | None => OnFinished end.
Definition job_labels (rate : Z) (audio : list (list Z)) (err : option str) : list Label :=
  [Io; Io; Callback (OnFormat rate)] ++ audio_labels audio
  ++ [Callback (ending err); SubmitReturn; Io; Io; Io; Io].

Lemma run_begin s job rest :
  pc s = PWait → pending_ s = job :: rest → is_cancelled (cancel job) s = false → (0 < device_rate s)%Z →
  let '(s', os) := run [Io; Io; Callback (OnFormat (device_rate s))] s in
  os = [Publish (Event.TtsStarted (job_turn job) (job_seq job))] ∧
  pc s' = PSubmit job (MkLocals None true false (device_rate s) []) ∧
  world s' = world s ∧ queue_ s' = queue_ s ∧ pending_ s' = rest ∧ synthesized_ s' = synthesized_ s ∧
  errored_ s' = errored_ s ∧ self_listen_ s' = self_listen_ s ∧ device_rate s' = device_rate s.
Proof.
  intros Hpc Hp Hc Hr. cbn [run step]. unfold io_step at 1. rewrite Hpc. unfold io_pop. rewrite Hp.
  unfold io_step. cbn [pc set_field]. unfold io_begin.
  set (s1 := s <| pending_ := rest |> <| in_flight_ := Some (cancel job) |> <| pc := PBegin job |>).
  change (is_cancelled (cancel job) s1) with (is_cancelled (cancel job) s). rewrite Hc.
  unfold on_callback, on_format. cbn [pc set_field device_rate].
  rewrite decide_False by (unfold s1; cbn; lia).
  rewrite decide_True by done. done.
Qed.

Lemma run_end s job l err :
  pc s = PSubmit job l → resampler l = None → got_error l = false →
  is_cancelled (cancel job) s = false → PlaybackQueue.cap_ (queue_ s) = 0 →
  let '(s', os) := run [Callback (ending err); SubmitReturn; Io; Io; Io; Io] s in
  pc s' = PWait ∧ in_flight_ s' = None ∧ pending_ s' = pending_ s ∧
  PlaybackQueue.q_ (queue_ s')
    = PlaybackQueue.q_ (queue_ s) ++ [Chunk (job_turn job) (job_seq job) [] true] ∧
  match err with
  | Some _ => os = [] ∧ errored_ s' = S (errored_ s) ∧ synthesized_ s' = synthesized_ s
  | None =>
      os = Publish (Event.TtsFinished (job_turn job) (job_seq job)) ::
           (if self_listen_ s && negb (bool_decide (self_listen_samples l = []))
              && bool_decide (0 < native_rate l)%Z
            then [SelfListen (job_turn job) (job_seq job) (s_text (sentence job)) (s_lang (sentence job))
                    (native_rate l) (self_listen_samples l)] else []) ∧
      errored_ s' = errored_ s ∧ synthesized_ s' = S (synthesized_ s)
  end.
Proof.
  intros Hpc Hr He Hc Hcap. cbn [run step]. rewrite Hpc.
  set (l1 := match err with Some _ => l <| got_error := true |> | None => l end).
  assert (∃ s1, on_callback (ending err) job l s = s1 ∧ pc s1 = PSubmit job l1 ∧ world s1 = world s ∧
    queue_ s1 = queue_ s ∧ pending_ s1 = pending_ s ∧ synthesized_ s1 = synthesized_ s ∧
    errored_ s1 = errored_ s ∧ self_listen_ s1 = self_listen_ s) as (s1 & -> & K1 & K2 & K3 & K4 & K5 & K6 & K7)
    by (eexists; split; [done|]; unfold l1; by destruct err).
  rewrite K1. assert (resampler l1 = None) as Hr1 by (unfold l1; by destruct err).
  unfold io_returned. rewrite Hr1.
  unfold io_step at 1. cbn [pc set_field]. unfold io_tail.
  assert (∀ x, is_cancelled (cancel job) (s1 <| pc := x |>) = false) as Hc1
    by (intros x; unfold is_cancelled in *; cbn; by rewrite K2).
  rewrite Hc1. unfold io_step at 1. cbn [pc set_field]. unfold io_eos, PlaybackQueue.enqueue_blocking.
  cbn [queue_ set_field]. rewrite K3, Hcap. rewrite bool_decide_true by done. cbn [orb].
  rewrite decide_True by done. unfold io_step at 1. cbn [pc set_field]. unfold io_final.
  assert (∀ s2, world s2 = world s1 → is_cancelled (cancel job) s2 = false) as Hc2
    by (intros s2 E; unfold is_cancelled in *; by rewrite E, K2).
  rewrite Hc2 by done. destruct err as [m|]; cbn [got_error set_field l1].
  - cbn. by rewrite K4, K5, K6.
  - unfold l1. rewrite He. cbn. rewrite K4, K5, K6, K7. by rewrite app_nil_r.
Qed.
End bridge.

Arguments bridge : clear implicits.
Arguments Label : clear implicits.
#[local] Arguments cancel_token : simpl never.

(** ** Properties *)

(** [C4] No sentence is lost or counted twice. Under every interleaving of
    the bus thread, the I/O thread, the callbacks of the TTS client, the
    consumer of the queue and a stop, the sentences received are exactly those synthesized,
    cancelled, failed, pending, and the one in progress; and one
    [TtsFinished] was published per sentence counted as synthesized. *)
Theorem bridge_ledger {R} (rs_new : Z → Z → R) rs_process rs_flush ls rate q w self :
  let '(s, os) := run rs_new rs_process rs_flush ls (bridge_new rate q w self) in
  received ls = synthesized_ s + cancelled_ s + errored_ s + pending s
                + match current (pc s) with Some _ => 1 | None => 0 end ∧
  synthesized_ s = finished_events os.
Proof.
  pose proof (run_ok rs_new rs_process rs_flush ls (bridge_new rate q w self) I) as H.
  destruct (run _ _ _ ls _) as [s os]. destruct H as (H1 & H2 & _). unfold tally in H1. cbn in *.
  unfold pending. split; lia.
Qed.

(** One job, undisturbed, at the device's rate: the audio the client
    produced is queued in order and unchanged, followed by exactly one
    end-of-sentence chunk, also when the synthesis fails (the FSM waits for
    it); the sentence is counted once, and [TtsFinished] (then the
    self-listen copy) is published only on success. *)
Theorem bridge_job {R} (rs_new : Z → Z → R) rs_process rs_flush s job rest audio err :
  pc s = PWait → pending_ s = job :: rest → is_cancelled (cancel job) s = false →
  PlaybackQueue.cap_ (queue_ s) = 0 → (0 < device_rate s)%Z → Forall (λ a, a ≠ []) audio →
  let '(s', os) := run rs_new rs_process rs_flush (job_labels (device_rate s) audio err) s in
  pc s' = PWait ∧ pending_ s' = rest ∧
  PlaybackQueue.q_ (queue_ s') = PlaybackQueue.q_ (queue_ s) ++ (chunk_of job <$> audio)
                                   ++ [Chunk (job_turn job) (job_seq job) [] true] ∧
  (synthesized_ s' + errored_ s' = S (synthesized_ s + errored_ s)) ∧
  os = Publish (Event.TtsStarted (job_turn job) (job_seq job)) :: (chunk_event job <$> audio) ++
       match err with
       | Some _ => []
       | None => Publish (Event.TtsFinished (job_turn job) (job_seq job)) ::
           (if self_listen_ s && negb (bool_decide (concat audio = []))
            then [SelfListen (job_turn job) (job_seq job) (s_text (sentence job)) (s_lang (sentence job))
                    (device_rate s) (concat audio)] else [])
       end.
Proof.
  intros Hpc Hp Hc Hcap Hr Ha. unfold job_labels. rewrite run_app.
  pose proof (run_begin rs_new rs_process rs_flush s job rest Hpc Hp Hc Hr) as H1.
  destruct (run _ _ _ [Io; Io; Callback _] s) as [s1 o1].
  destruct H1 as (-> & Hpc1 & Hw1 & Hq1 & Hpe1 & Hs1 & He1 & Hsl1 & Hr1).
  rewrite run_app.
  assert (Hc1 : is_cancelled (cancel job) s1 = false) by (unfold is_cancelled in *; by rewrite Hw1).
  pose proof (run_audio rs_new rs_process rs_flush audio s1 job _ Hpc1 eq_refl eq_refl Hc1
    ltac:(by rewrite Hq1) Ha) as H2.
  destruct (run _ _ _ (audio_labels audio) s1) as [s2 o2].
  destruct H2 as ([Hw2 Hcap2 Hpe2 Hs2 He2 Hsl2 Hr2] & -> & Hq2 & l2 & Hpc2 & K1 & K2 & K3 & K4 & K5).
  pose proof (run_end rs_new rs_process rs_flush s2 job l2 err Hpc2 K1 K2
    ltac:(unfold is_cancelled in *; by rewrite Hw2) ltac:(by rewrite Hcap2, Hq1)) as H3.
  destruct (run _ _ _ [Callback (ending err); _; _; _; _; _] s2) as [s3 o3].
  destruct H3 as (Hpc3 & _ & Hpe3 & Hq3 & Hout).
  cbn [native_rate self_listen_samples app] in K4, K5. rewrite K4, K5, Hsl2, Hsl1 in Hout.
  split_and!; [done|congruence| | |].
  - by rewrite Hq3, Hq2, Hq1, <- app_assoc.
  - destruct err; destruct Hout as (_ & -> & ->); lia.
  - cbn. f_equal. f_equal. destruct err; destruct Hout as (-> & _ & _); [done|].
    f_equal. rewrite (bool_decide_true (0 < device_rate s)%Z) by done. rewrite andb_true_r.
    by destruct (self_listen_ s).
Qed.

Lemma bridge_job_witness :
  let rs_new := λ _ _ : Z, tt in
  let rs_process := λ (_ : unit) (x : list Z), (x, tt) in
  let rs_flush := λ _ : unit, Some ([] : list Z) in
  let s := (run rs_new rs_process rs_flush
              [Deliver (Event.LlmStarted 1); Deliver (Event.LlmSentence 1 0 (lit "Hi.") (lit "en"))]
              (bridge_new 24000 (PlaybackQueue.pq_new 0) turns_init false)).1 in
  let '(s', os) := run rs_new rs_process rs_flush (job_labels 24000 [[1; 2]; [3]]%Z None) s in
  PlaybackQueue.q_ (queue_ s') = [Chunk 1 0 [1; 2] false; Chunk 1 0 [3] false; Chunk 1 0 [] true]%Z ∧
  os = [Publish (Event.TtsStarted 1 0); Publish (Event.TtsAudioChunk 1 0 4);
        Publish (Event.TtsAudioChunk 1 0 2); Publish (Event.TtsFinished 1 0)].
Proof.
  intros rs_new rs_process rs_flush s.
  pose proof (bridge_job rs_new rs_process rs_flush s
    (MkJob (Sentence 1 0 (lit "Hi.") (lit "en")) 0) [] [[1; 2]; [3]]%Z None
    eq_refl eq_refl eq_refl eq_refl ltac:(reflexivity) ltac:(repeat constructor; discriminate)) as H.
  change (device_rate s) with 24000%Z in H.
  destruct (run rs_new rs_process rs_flush (job_labels 24000 [[1; 2]; [3]]%Z None) s) as [s' os].
  destruct H as (_ & _ & H1 & _ & H2). split; [exact H1 | exact H2].
Defined.

(** The state in which the token of a turn is looked up, and the tokens to
    cancel: an unknown turn gets a token that is cancelled at once. *)
Definition marked {R} (t : TurnId) (s : bridge R) : list nat * bridge R :=
  match tokens_ s !! t with
  | Some tok => ([tok], s)
  | None => let '(tok, w) := new_token (world s) in
            ([], s <| world := cancel_token (Some tok) w |> <| tokens_ ::= <[t := tok]> |>)
  end.

Lemma marked_spec {R} t (s : bridge R) : toks_ok s → let '(tc, s1) := marked t s in
  pending_ s1 = pending_ s ∧ in_flight_ s1 = in_flight_ s ∧ pc s1 = pc s ∧
  length (flags (world s)) ≤ length (flags (world s1)) ∧
  ∃ tok, tokens_ s1 !! t = Some tok ∧
    (tok ∈ tc ∧ tok < length (flags (world s1)) ∨ token_cancelled tok (world s1) = true).
Proof.
  intros Ht. unfold marked. destruct (tokens_ s !! t) as [tok|] eqn:E.
  - split_and!; try done. exists tok. split; [done|]. left. split; [by left|]. by apply (tk_map _ Ht t).
  - cbn. split_and!; try done; [rewrite cancel_token_length; cbn; rewrite length_app; lia|].
    exists (length (flags (world s))). split; [apply lookup_insert_eq|]. right.
    apply cancel_token_cancelled. cbn. rewrite length_app. cbn. lia.
Qed.

(** *** A barge-in, from its critical section on *)
Section silence.
Context {R : Type} (rs_new : Z → Z → R) (rs_process : R → list Z → list Z * R) (rs_flush : R → option (list Z)).
Abbreviation step := (step rs_new rs_process rs_flush).
Abbreviation run := (run rs_new rs_process rs_flush).

(** The tokens the handler has still to cancel. *)
Definition to_go (b : BusPc) : list nat := match b with BIdle => [] | BCancel toks => toks end.
(** The steps the handler has left. *)
Definition bus_left (b : BusPc) : nat := match b with BIdle => 0 | BCancel toks => S (length toks) end.

Definition doomed (tok : nat) (s : bridge R) : Prop :=
  tok < length (flags (world s)) ∧ (tok ∈ to_go (bus s) ∨ is_cancelled tok s = true).

(** A chunk of the turn the I/O thread is about to queue. *)
Definition due (t : TurnId) (p : IoPc (Resampler := R)) : nat :=
  match p with
  | PEnqueue j _ c => if decide (PlaybackQueue.turn c = t) then 1 else 0
  | PEos j _ _ => if decide (job_turn j = t) then 1 else 0
  | _ => 0
  end.
Definition queued (t : TurnId) (s : bridge R) : nat :=
  length (filter (λ c, PlaybackQueue.turn c = t) (PlaybackQueue.q_ (queue_ s))).

(** The chunk the I/O thread holds is its job's. *)
Definition chunk_ok (s : bridge R) : Prop :=
  match pc s with PEnqueue j _ c => PlaybackQueue.turn c = job_turn j | _ => True end.

(** While the turn [t] is silenced; [fl] is the token in flight at the
    interruption. *)
Record silenced (t : TurnId) (fl : option nat) (s : bridge R) : Prop := {
  si_pending : Forall (λ j, job_turn j ≠ t) (pending_ s);
  si_token : ∃ tok, tokens_ s !! t = Some tok ∧ doomed tok s;
  si_flight : ∀ tok, fl = Some tok → doomed tok s;
  si_current : ∀ j, current (pc s) = Some j → job_turn j = t → doomed (cancel j) s;
  si_queue : bus s = BIdle → queued t s + due t (pc s) ≤ 1;
}.

Lemma doomed_frame s s' tok :
  world s' = world s → bus s' = bus s → doomed tok s → doomed tok s'.
Proof. unfold doomed, is_cancelled. by intros -> ->. Qed.

Lemma doomed_idle tok s : bus s = BIdle → doomed tok s → is_cancelled tok s = true.
Proof. intros E [_ [H|H]]; [rewrite E in H; set_solver|done]. Qed.

(** Steps that leave tokens, queue and the bus thread alone. *)
Lemma silenced_io t fl s s' :
  world s' = world s → bus s' = bus s → tokens_ s' = tokens_ s →
  (∃ k, pending_ s' = drop k (pending_ s)) →
  (∀ j, current (pc s') = Some j → job_turn j = t → current (pc s) = Some j) →
  (bus s = BIdle → queued t s' + due t (pc s') ≤ queued t s + due t (pc s)) →
  silenced t fl s → silenced t fl s'.
Proof.
  intros Hw Hb Ht [k Hp] Hc Hq [H1 (tok & H2 & H2') H3 H4 H5]. split.
  - rewrite Hp. by apply Forall_drop.
  - exists tok. rewrite Ht. split; [done|]. by eapply doomed_frame.
  - intros tk Htk. eapply doomed_frame; eauto.
  - intros j Hj Hjt. eapply doomed_frame; eauto.
  - rewrite Hb. intros E. specialize (H5 E). specialize (Hq E). lia.
Qed.

(** Only the tokens change. *)
Lemma silenced_cancel t fl s toks :
  silenced t fl s → silenced t fl (cancel_tokens toks s).
Proof.
  assert (∀ tok, doomed tok s → doomed tok (cancel_tokens toks s)) as Hd.
  { intros tok [Hl Hc]. split; [cbn; by rewrite cancel_all_length|].
    destruct Hc as [Hc|Hc]; [by left|right]. by apply cancel_all_mono. }
  intros [H1 (tok & H2 & H2') H3 H4 H5]. split; try done; eauto.
Qed.

Lemma silenced_bus t fl s : silenced t fl s → silenced t fl (bus_step s).
Proof.
  unfold bus_step. destruct (bus s) as [|[|tok toks]] eqn:Eb; [done|..].
  - intros [H1 (tok & H2 & H2') H3 H4 H5].
    assert (∀ tok, doomed tok s → doomed tok (clear_queue s <| bus := BIdle |>)) as Hd.
    { intros tk [Hl [Hc|Hc]]; [rewrite Eb in Hc; set_solver|]. split; [done|by right]. }
    split; eauto. intros _. unfold queued. cbn. unfold due. destruct (pc s); try lia; case_decide; lia.
  - intros Hs. apply (silenced_cancel _ _ _ [tok]) in Hs as [H1 (tk & H2 & H2') H3 H4 H5].
    assert (∀ tk, doomed tk (cancel_tokens [tok] s) → doomed tk (cancel_tokens [tok] s <| bus := BCancel toks |>)) as Hd.
    { intros k [Hl Hc]. split; [done|]. cbn in Hc |- *. rewrite Eb in Hc. cbn in Hc.
      destruct Hc as [[->|Hc]%elem_of_cons|Hc]; [right|by left|by right].
      unfold is_cancelled. cbn. cbn in Hl. rewrite cancel_token_length in Hl. by apply cancel_token_cancelled. }
    split; eauto. done.
Qed.

Lemma chunk_step l s : chunk_ok s → chunk_ok (step l s).1.
Proof.
  destruct l as [e| | | |c| |t]; cbn [TtsBridge.step fst].
  - intros H. assert (pc (on_event e (bus_settle s)) = pc s) as E.
    { destruct (bus_settle_frame s) as [_ E _ _ _ _ _]. rewrite <- E. set (s1 := bus_settle s).
      destruct e; cbn [on_event]; try done.
      - unfold on_llm_sentence, token_for. destruct (tokens_ s1 !! _); [by destruct (is_cancelled _ _)|].
        cbn. by destruct (is_cancelled _ _).
      - unfold on_user_interrupted. by destruct (tokens_ s1 !! _). }
    unfold chunk_ok in *. by rewrite E.
  - destruct (bus_step_frame s) as [_ E _ _ _ _ _]. unfold chunk_ok. by rewrite E.
  - unfold stop, chunk_ok. by destruct (in_flight_ s).
  - unfold io_step, chunk_ok. destruct (pc s) as [|job|job l|job l c|job l tl|job l tl|job l| |] eqn:Epc; cbn; rewrite ?Epc; try done.
    + intros _. unfold io_pop. destruct (pending_ s); [destruct (stopping_ s)|]; cbn; rewrite ?Epc; done.
    + intros _. unfold io_begin. by destruct (is_cancelled _ s).
    + intros _. unfold io_enqueue. by destruct (PlaybackQueue.enqueue c (queue_ s)).
    + intros _. by destruct (is_cancelled _ s).
    + intros _. unfold io_eos. destruct (PlaybackQueue.enqueue_blocking _ _ _) as [[] q]; cbn; rewrite ?Epc; done.
    + intros _. unfold io_final. destruct (is_cancelled _ s); [done|]. by destruct (got_error l).
  - unfold chunk_ok. destruct (pc s) as [|job|job l|job l ck|job l tl|job l tl|job l| |] eqn:Epc; cbn; rewrite ?Epc; try done.
    intros _. destruct c; cbn; rewrite ?Epc; try done.
    unfold on_audio. destruct (_ || _); [by rewrite Epc|]. set (l' := if self_listen_ s then _ else _).
    destruct (resampler l') as [r|]; [destruct (rs_process r samples)|]; by case_decide.
  - unfold chunk_ok. destruct (pc s) eqn:Epc; cbn; by rewrite ?Epc.
  - done.
Qed.

Lemma chunk_run ls s : chunk_ok s → chunk_ok (run ls s).1.
Proof.
  revert s. induction ls as [|l ls IH]; intros s Hs; [done|]. cbn [TtsBridge.run].
  pose proof (chunk_step l s Hs) as H1. destruct (step l s) as [s1 o1]. specialize (IH s1 H1).
  by destruct (run ls s1).
Qed.

Definition is_deliver (l : Label) : bool := match l with Deliver _ => true | _ => false end.
Definition is_bus (l : Label) : bool := match l with Bus => true | _ => false end.

Lemma queue_shrinks t active q :
  length (filter (λ c, PlaybackQueue.turn c = t) (PlaybackQueue.q_ (PlaybackQueue.dequeue_active active q).2))
  ≤ length (filter (λ c, PlaybackQueue.turn c = t) (PlaybackQueue.q_ q)).
Proof.
  assert (∀ n q, ∃ l, PlaybackQueue.q_ q = l ++ PlaybackQueue.q_ (PlaybackQueue.skip_stale n active q)) as Hs.
  { induction n as [|n IH]; intros q0; cbn; [by exists []|].
    destruct (PlaybackQueue.q_ q0) as [|c l] eqn:E; [by exists []; rewrite E|].
    case_decide; [|by exists []; rewrite E]. destruct (IH (PlaybackQueue.drop_front q0)) as [l' Hl'].
    exists (c :: l'). cbn in Hl'. rewrite E in Hl'. cbn in Hl'. by rewrite Hl'. }
  unfold PlaybackQueue.dequeue_active. destruct (Hs (length (PlaybackQueue.q_ q)) q) as [l Hl].
  set (q' := PlaybackQueue.skip_stale _ _ _) in *. rewrite Hl, filter_app, length_app.
  destruct (PlaybackQueue.q_ q') as [|c rest] eqn:E; cbn [snd]; [rewrite E; lia|].
  change (PlaybackQueue.q_ _) with rest at 1. rewrite filter_cons. case_decide; cbn [length]; lia.
Qed.

Lemma queue_adds t c (s : bridge R) q :
  PlaybackQueue.q_ q = PlaybackQueue.q_ (queue_ s) ++ [c] ∨ PlaybackQueue.q_ q = PlaybackQueue.q_ (queue_ s) →
  length (filter (λ c, PlaybackQueue.turn c = t) (PlaybackQueue.q_ q))
  ≤ queued t s + (if decide (PlaybackQueue.turn c = t) then 1 else 0).
Proof.
  unfold queued. intros [->| ->]; [|case_decide; lia]. rewrite filter_app, length_app, filter_cons.
  case_decide; cbn; lia.
Qed.

Lemma silenced_step l t fl s :
  is_deliver l = false → chunk_ok s → silenced t fl s →
  silenced t fl (step l s).1 ∧ (∃ k, pending_ (step l s).1 = drop k (pending_ s)) ∧
  bus_left (bus (step l s).1) = bus_left (bus s) - (if is_bus l then 1 else 0).
Proof.
  intros Hl Hc Hs. pose proof (si_current _ _ _ Hs) as Hcur. unfold chunk_ok in Hc.
  assert (∀ s', world s' = world s → bus s' = bus s → tokens_ s' = tokens_ s →
    (∃ k, pending_ s' = drop k (pending_ s)) →
    (∀ j, current (pc s') = Some j → job_turn j = t → current (pc s) = Some j) →
    (bus s = BIdle → queued t s' + due t (pc s') ≤ queued t s + due t (pc s)) →
    silenced t fl s' ∧ (∃ k, pending_ s' = drop k (pending_ s)) ∧ bus_left (bus s') = bus_left (bus s) - 0) as Hgo.
  { intros s' H1 H2 H3 H4 H5 H6. split_and!; [by eapply silenced_io|done|]. rewrite H2. lia. }
  assert (silenced t fl s ∧ (∃ k, pending_ s = drop k (pending_ s)) ∧ bus_left (bus s) = bus_left (bus s) - 0) as Hsame
    by (split_and!; [done|by exists 0|lia]).
  assert (∃ k, pending_ s = drop k (pending_ s)) as H0 by by exists 0.
  destruct l as [e| | | |c| |a]; [done|..]; cbn [TtsBridge.step fst is_bus].
  - split_and!; [by apply silenced_bus| |].
    + destruct (bus_step_frame s) as [_ _ _ _ E _ _]. by exists 0.
    + unfold bus_step. destruct (bus s) as [|[|tok toks]] eqn:E; cbn; rewrite ?E; cbn; lia.
  - unfold stop. split_and!.
    + destruct (in_flight_ s) as [tok|]; [apply (silenced_cancel _ _ _ [tok]) in Hs|]; by destruct Hs; split.
    + by destruct (in_flight_ s).
    + destruct (in_flight_ s); cbn; lia.
  - unfold io_step. destruct (pc s) as [|job|job l|job l ck|job l tl|job l tl|job l| |] eqn:Epc; cbn [fst]; try done.
    + unfold io_pop. destruct (pending_ s) as [|job rest] eqn:Ep.
      * destruct (stopping_ s); [|split_and!; [done|by exists 0|lia]]. apply Hgo; rewrite ?Ep; try done; try (by exists 0); intros; unfold queued; cbn; lia.
      * apply Hgo; rewrite ?Ep; try done; [by exists 1|]. cbn. intros j [= <-] Hj.
        pose proof (si_pending _ _ _ Hs) as Hp. rewrite Ep in Hp. by inversion Hp.
    + unfold io_begin. destruct (is_cancelled _ s); apply Hgo; try done; cbn; intros; unfold queued; cbn; lia.
    + unfold io_enqueue, PlaybackQueue.enqueue. cbn in Hcur.
      destruct (_ && _); apply Hgo; try done; intros _; cbn [pc set_field due].
      * unfold queued. cbn. lia.
      * rewrite Nat.add_0_r. apply queue_adds. by left.
    + unfold io_tail. destruct (is_cancelled (cancel job) s) eqn:Ecan; apply Hgo; try done; intros Hb; unfold queued; cbn.
      case_decide as Hj; [|lia]. exfalso. specialize (Hcur job eq_refl Hj).
      apply doomed_idle in Hcur; [congruence|done].
    + unfold io_eos, PlaybackQueue.enqueue_blocking. destruct (_ || _); [|destruct (is_cancelled _ s)]; cbn [fst].
      * apply Hgo; try done. intros _. cbn [pc set_field due]. rewrite Nat.add_0_r.
        apply (queue_adds t (Chunk (job_turn job) (job_seq job) tl true)). by left.
      * apply Hgo; try done. intros _. unfold queued. cbn. case_decide; lia.
      * done.
    + unfold io_final. destruct (is_cancelled _ s); [|destruct (got_error l)]; apply Hgo; try done; intros; unfold queued; cbn; lia.
    + apply Hgo; try done; intros; unfold queued; cbn; lia.
  - destruct (pc s) as [|job|job l|job l ck|job l tl|job l tl|job l| |] eqn:Epc; cbn [fst]; try done.
    destruct c; cbn [on_callback]; try (apply Hgo; done).
    + unfold on_audio. destruct (got_error l || is_cancelled (cancel job) s) eqn:Ecan; [done|].
      apply orb_false_iff in Ecan as [_ Ecan].
      assert (bus s = BIdle → job_turn job ≠ t) as Hne.
      { intros Hb Hj. specialize (Hcur job eq_refl Hj). apply doomed_idle in Hcur; [congruence|done]. }
      set (l' := if self_listen_ s then _ else _).
      destruct (resampler l') as [r|]; [destruct (rs_process r samples)|];
        case_decide; apply Hgo; try done; intros Hb; unfold queued; cbn; specialize (Hne Hb);
        try rewrite decide_False by done; lia.
    + done.
  - destruct (pc s) as [|job|job l|job l ck|job l tl|job l tl|job l| |] eqn:Epc; cbn [fst]; try done.
    apply Hgo; try done; intros; unfold queued; cbn; lia.
  - apply Hgo; try done. intros _. cbn [pc set_field]. unfold queued. cbn.
    pose proof (queue_shrinks t a (queue_ s)). lia.
Qed.

Lemma silenced_run ls t fl s :
  Forall (λ l, is_deliver l = false) ls → chunk_ok s → silenced t fl s →
  silenced t fl (run ls s).1 ∧ (∃ k, pending_ (run ls s).1 = drop k (pending_ s)) ∧
  bus_left (bus (run ls s).1) = bus_left (bus s) - length (filter (λ l, is_bus l = true) ls).
Proof.
  intros Hls. revert s. induction Hls as [|l ls Hl _ IH]; intros s Hc Hs.
  - split_and!; [done|by exists 0|cbn; lia].
  - cbn [TtsBridge.run]. destruct (silenced_step l t fl s Hl Hc Hs) as (H1 & [k H2] & H3).
    pose proof (chunk_step l s Hc) as Hc1. destruct (step l s) as [s1 o1]. cbn [fst] in *.
    destruct (IH s1 Hc1 H1) as (K1 & [k' K2] & K3). destruct (run ls s1) as [s2 o2]. cbn [fst] in *.
    split_and!; [done|exists (k + k'); by rewrite K2, H2, drop_drop|].
    rewrite K3, H3, filter_cons. destruct (is_bus l); [rewrite decide_True by done|rewrite decide_False by done]; cbn [length]; lia.
Qed.

(** The critical section itself. *)
Lemma silenced_interrupt t s :
  toks_ok s → flight_ok s →
  let s1 := on_user_interrupted t s in
  silenced t (in_flight_ s) s1 ∧ pending_ s1 = filter (λ j, ¬ job_turn j = t) (pending_ s) ∧ pc s1 = pc s ∧
  bus_left (bus s1) ≤ 3.
Proof.
  intros Ht Hfl. pose proof (marked_spec t s Ht) as Hm. unfold on_user_interrupted.
  fold (marked t s). destruct (marked t s) as [tc s1] eqn:Em.
  destruct Hm as (Hp & Hf & Hpc & Hlen & tok & Htok & Hcan).
  assert (length tc ≤ 1) as Hone by (unfold marked in Em; destruct (tokens_ s !! t); injection Em as <- _; cbn; lia).
  assert (tok < length (flags (world s1))) as Hlt.
  { destruct Hcan as [[_ Hcan]|Hcan]; [done|]. unfold token_cancelled in Hcan.
    destruct (flags (world s1) !! tok) eqn:E; [by eapply lookup_lt_Some|done]. }
  cbn. rewrite Hp, Hf. split_and!; [|done|done|rewrite length_app; destruct (in_flight_ s); cbn; lia].
  assert (∀ tk, in_flight_ s = Some tk → ∀ s', world s' = world s1 →
    bus s' = BCancel (tc ++ match in_flight_ s with Some tok => [tok] | None => [] end) → doomed tk s') as Hfd.
  { intros tk Htk s' Hw Hb. split; [rewrite Hw; pose proof (tk_flight _ Ht _ Htk); lia|].
    left. rewrite Hb, Htk. cbn. set_solver. }
  split; cbn.
  - rewrite Hp. apply Forall_forall. intros j [Hj _]%list_elem_of_filter. exact Hj.
  - exists tok. split; [done|]. split; [done|]. cbn. destruct Hcan as [[Hin _]|Hcan]; [left; set_solver|by right].
  - intros tk Htk. by apply (Hfd tk Htk).
  - rewrite Hpc. intros j Hj _. unfold flight_ok in Hfl. rewrite Hj in Hfl. by apply (Hfd _ Hfl).
  - done.
Qed.
End silence.

(** [C11] Barge-in. The handler of [UserInterrupted] takes the turn's
    sentences out of the pending ones in its critical section, the others
    keeping their order. Whatever the I/O thread, the TTS client, the consumer
    and [stop] then do, in whatever order, while the bus thread goes on: the
    pending sentences only leave from the front; and once the bus thread has
    made the at most three steps left (the token of the turn, that of the job
    in flight, the queue) the job that was in progress is cancelled, so is any
    in progress of the turn, the queue holds at most one chunk of the turn
    (the one the I/O thread was about to queue), and a later sentence of the
    turn is counted as cancelled and not queued. *)
Theorem bridge_interrupt {R} (rs_new : Z → Z → R) rs_process rs_flush ls ls1 rate q w self t now seq text lang :
  Forall (λ l, is_deliver l = false) ls1 →
  3 ≤ length (filter (λ l, is_bus l = true) ls1) →
  let s := (run rs_new rs_process rs_flush ls (bridge_new rate q w self)).1 in
  let s1 := (step rs_new rs_process rs_flush (Deliver (Event.UserInterrupted t now)) s).1 in
  let s2 := (run rs_new rs_process rs_flush ls1 s1).1 in
  pending_ s1 = filter (λ j, ¬ job_turn j = t) (pending_ s) ∧
  (∃ k, pending_ s2 = drop k (pending_ s1)) ∧
  bus s2 = BIdle ∧
  (∀ j, current (pc s) = Some j → is_cancelled (cancel j) s2 = true) ∧
  (∀ j, current (pc s2) = Some j → job_turn j = t → is_cancelled (cancel j) s2 = true) ∧
  queued t s2 ≤ 1 ∧
  let s3 := on_llm_sentence (Sentence t seq text lang) s2 in
  pending_ s3 = pending_ s2 ∧ cancelled_ s3 = S (cancelled_ s2).
Proof.
  intros Hls Hn s s1 s2. assert (toks_ok s) as Ht by apply toks_run, toks_init.
  assert (flight_ok s) as Hfl.
  { unfold s. pose proof (run_ok rs_new rs_process rs_flush ls (bridge_new rate q w self) I) as H.
    destruct (run _ _ _ ls _) as [s0 os]. apply H. }
  assert (chunk_ok s) as Hch by (by apply chunk_run).
  pose proof (bus_settle_frame s) as [_ Hpc Hin _ Hpe _ _].
  assert (flight_ok (bus_settle s)) as Hfl' by (unfold flight_ok in *; by rewrite Hpc, Hin).
  destruct (silenced_interrupt rs_new rs_process rs_flush t (bus_settle s) (toks_settle s Ht) Hfl') as (Hs & Hp & Hpc1 & Hl).
  change (on_user_interrupted t (bus_settle s)) with s1 in *. rewrite Hpe in Hp. rewrite Hin in Hs. rewrite Hpc in Hpc1.
  assert (chunk_ok s1) as Hch1 by (unfold chunk_ok in *; by rewrite Hpc1).
  destruct (silenced_run rs_new rs_process rs_flush ls1 t _ s1 Hls Hch1 Hs) as (Hs2 & Hk & Hb).
  fold s2 in Hs2, Hk, Hb.
  assert (bus s2 = BIdle) as Hidle by (assert (bus_left (bus s2) = 0) as E by lia; by destruct (bus s2)).
  split_and!; [done|done|done|..].
  - intros j Hj. unfold flight_ok in Hfl. rewrite Hj in Hfl.
    by apply doomed_idle, (si_flight _ _ _ Hs2).
  - intros j Hj Hjt. by apply doomed_idle, (si_current _ _ _ Hs2).
  - pose proof (si_queue _ _ _ Hs2 Hidle). lia.
  - destruct (si_token _ _ _ Hs2) as (tok & Htok & Hd). apply doomed_idle in Hd; [|done].
    unfold on_llm_sentence, token_for. cbn [s_turn]. rewrite Htok, Hd. done.
Qed.

(** The bound is reached: the I/O thread tests the token between the
    critical section and the cancellation, and queues after the clear. *)
Lemma bridge_interrupt_witness :
  let rs_new := λ _ _ : Z, tt in
  let rs_process := λ (_ : unit) (x : list Z), (x, tt) in
  let rs_flush := λ _ : unit, Some ([] : list Z) in
  let ls := [Deliver (Event.LlmStarted 1); Deliver (Event.LlmSentence 1 0 (lit "Hi.") (lit "en"));
             Deliver (Event.LlmSentence 1 1 (lit "Ho.") (lit "en")); Io; Io; Callback (OnFormat 24000)] in
  let ls1 := [Callback (OnAudio [7%Z]); Bus; Bus; Bus; Io; Callback (OnAudio [8%Z]); Io] in
  let s := (run rs_new rs_process rs_flush ls (bridge_new 24000 (PlaybackQueue.pq_new 0) turns_init false)).1 in
  let s1 := (step rs_new rs_process rs_flush (Deliver (Event.UserInterrupted 1 0)) s).1 in
  let s2 := (run rs_new rs_process rs_flush ls1 s1).1 in
  length (pending_ s) = 1 ∧ pending_ s1 = [] ∧ queued 1 s2 = 1 ∧
  cancelled_ (on_llm_sentence (Sentence 1 2 (lit "He.") (lit "en")) s2) = 2.
Proof.
  intros rs_new rs_process rs_flush ls ls1 s s1 s2.
  pose proof (bridge_interrupt rs_new rs_process rs_flush ls ls1 24000 (PlaybackQueue.pq_new 0) turns_init false
    1 0 2 (lit "He.") (lit "en") ltac:(repeat constructor) ltac:(vm_compute; lia)) as (H1 & _ & _ & _ & _ & _ & _ & H2).
  fold s in H1. fold s1 in H1. fold s in H2. fold s1 in H2. fold s2 in H2.
  split_and!; [reflexivity|rewrite H1; reflexivity|reflexivity|rewrite H2; reflexivity].
Defined.

(** The race of a barge-in. When the interruption is handled between the
    I/O thread's test of the token and its call on the queue, the chunk of
    the interrupted turn is queued after the queue was drained, is announced
    as queued, and is the next one [dequeue_active] plays for that turn. *)
Theorem interrupt_race {R} (rs_new : Z → Z → R) rs_process rs_flush s job l c :
  pc s = PEnqueue job l c → PlaybackQueue.turn c = job_turn job →
  let '(s', os) := run rs_new rs_process rs_flush
                     [Deliver (Event.UserInterrupted (job_turn job) 0); Bus; Bus; Bus; Io] s in
  PlaybackQueue.q_ (queue_ s') = [c] ∧
  os = [Publish (Event.TtsAudioChunk (job_turn job) (job_seq job) (bytes_of (PlaybackQueue.samples c)))] ∧
  (PlaybackQueue.dequeue_active (job_turn job) (queue_ s')).1 = Some c.
Proof.
  intros Hpc Ht. cbn [run step on_event].
  assert (∀ s0 : bridge R, bus_left (bus s0) ≤ 3 → bus_left (bus s0) ≠ 0 →
    pc (bus_step (bus_step (bus_step s0))) = pc s0 ∧
    PlaybackQueue.q_ (queue_ (bus_step (bus_step (bus_step s0)))) = []) as Hb.
  { intros s0. unfold bus_step at 3 6. destruct (bus s0) as [|[|t1 [|t2 [|t3 toks]]]]; cbn; intros; by try lia. }
  assert (pc (on_user_interrupted (job_turn job) (bus_settle s)) = PEnqueue job l c ∧
    bus_left (bus (on_user_interrupted (job_turn job) (bus_settle s))) ≤ 3 ∧
    bus_left (bus (on_user_interrupted (job_turn job) (bus_settle s))) ≠ 0) as (Hpc0 & Hl1 & Hl2).
  { destruct (bus_settle_frame s) as [_ E _ _ _ _ _]. rewrite Hpc in E. revert E. generalize (bus_settle s). intros s0 E.
    unfold on_user_interrupted. destruct (tokens_ s0 !! job_turn job); cbn; destruct (in_flight_ s0); cbn; (split_and!; [done|lia|lia]). }
  destruct (Hb _ Hl1 Hl2) as [Hpc' Hq]. rewrite Hpc0 in Hpc'.
  set (s1 := bus_step _) in *. clearbody s1.
  unfold io_step. rewrite Hpc'. unfold io_enqueue, PlaybackQueue.enqueue. rewrite Hq. cbn [length].
  assert (negb (bool_decide (PlaybackQueue.cap_ (queue_ s1) = 0))
    && bool_decide (PlaybackQueue.cap_ (queue_ s1) ≤ 0) = false) as ->
    by (repeat case_bool_decide; done || lia).
  cbn. rewrite Hq. cbn. split_and!; try done.
  unfold PlaybackQueue.dequeue_active. cbn. rewrite Hq. cbn. rewrite Hq. cbn.
  rewrite decide_False by tauto. cbn. by rewrite Hq.
Qed.

Lemma interrupt_race_witness :
  let rs_new := λ _ _ : Z, tt in
  let rs_process := λ (_ : unit) (x : list Z), (x, tt) in
  let rs_flush := λ _ : unit, Some ([] : list Z) in
  let s := (run rs_new rs_process rs_flush
              [Deliver (Event.LlmStarted 1); Deliver (Event.LlmSentence 1 0 (lit "Hi.") (lit "en"));
               Io; Io; Callback (OnFormat 24000); Callback (OnAudio [7%Z])]
              (bridge_new 24000 (PlaybackQueue.pq_new 0) turns_init false)).1 in
  let '(s', os) := run rs_new rs_process rs_flush [Deliver (Event.UserInterrupted 1 0); Bus; Bus; Bus; Io] s in
  PlaybackQueue.q_ (queue_ s') = [Chunk 1 0 [7%Z] false].
Proof.
  intros rs_new rs_process rs_flush s.
  pose proof (interrupt_race rs_new rs_process rs_flush s
    (MkJob (Sentence 1 0 (lit "Hi.") (lit "en")) 0) (MkLocals None true false 24000 [])
    (Chunk 1 0 [7%Z] false) eq_refl eq_refl) as H.
  destruct (run rs_new rs_process rs_flush _ s) as [s' os]. exact (proj1 H).
Defined.
