(* ===== verification/Engine.v ===== *)
(** * The playback engine (src/src/playback/engine.hpp, engine.cpp)

    [render_into] is the audio callback: here one label of [step] per turn of
    its loop, split where it reads the queue twice (the prefill gate, then
    the pop), so that the producer, the barge-in handler and the publisher
    interleave with it. What [active_turn_] answers and what the clock reads
    come with the label. PortAudio, the choice of a device and the headless
    ticker only decide when [Render] happens and are left out. The 64-bit
    counters are taken as unbounded and a latency is kept in nanoseconds. *)
From S2P Require Import Prelude Event.
From S2P Require Queue.
From S2P Require Export PlaybackQueue.

Definition kPostboxCapacity : nat := 256.
Definition no_chunk : AudioChunk := Chunk kNoTurn 0 [] false.

Inductive Out :=
  | Emitted (out : list Z)                  (* [render_into] returned this buffer *)
  | OnEmitted (samples : list Z) (now : Z)  (* the loopback tap *)
  | Took (c : AudioChunk)
  | Posted (t : TurnId) (n : SequenceNo)
  | Publish (e : Event).

Inductive RenderPc :=
  | PIdle
  | PLoop (frames : nat) (out : list Z)
  | PDequeue (frames : nat) (out : list Z) (active : TurnId).

Record engine := MkEngine {
  current : AudioChunk;
  pos : nat;
  postbox : Queue.BoundedQueue Event;
  queue_ : PlaybackQueue;
  prefill_target_samples_ : nat;
  primed_turn_ : TurnId;
  underruns_ : nat;
  frames_played_ : nat;
  chunks_played_ : nat;
  prefill_silence_frames_ : nat;
  loopback_sink_ : bool;
  barge_in_publish_ns_ : Z;
  barge_in_target_turn_ : TurnId;
  barge_in_pending_latency_ : option Z;
  pc : RenderPc;
}.
#[global] Instance eta_engine : Eta engine := λ s,
  MkEngine (current s) (pos s) (postbox s) (queue_ s) (prefill_target_samples_ s) (primed_turn_ s)
    (underruns_ s) (frames_played_ s) (chunks_played_ s) (prefill_silence_frames_ s) (loopback_sink_ s)
    (barge_in_publish_ns_ s) (barge_in_target_turn_ s) (barge_in_pending_latency_ s) (pc s).

Definition engine_new (prefill_ms sample_rate_hz : nat) (q : PlaybackQueue) (sink : bool) : engine :=
  MkEngine no_chunk 0 (Queue.queue_new kPostboxCapacity Queue.DropOldest) q
    (prefill_ms * sample_rate_hz / 1000) kNoTurn 0 0 0 0 sink 0 kNoTurn None PIdle.

Definition note_barge_in (cancelled_turn : TurnId) (ns : Z) (s : engine) : engine :=
  s <| barge_in_target_turn_ := cancelled_turn |> <| barge_in_publish_ns_ := ns |>.

Definition consume_pending_barge_in_latency (s : engine) : option Z * engine :=
  (barge_in_pending_latency_ s, s <| barge_in_pending_latency_ := None |>).

Definition maybe_close_barge_in_timer (active : TurnId) (now : Z) (s : engine) : engine :=
  let ns := barge_in_publish_ns_ s in
  if decide (ns = 0%Z) then s
  else if decide (active = barge_in_target_turn_ s) then s
  else s <| barge_in_publish_ns_ := 0%Z |> <| barge_in_pending_latency_ := Some (now - ns)%Z |>.

(** The chunk just consumed: counted, and reported once per sentence. *)
Definition finish_chunk (s : engine) : engine * list Out :=
  let c := current s in
  if decide (turn c ≠ kNoTurn) then
    let s := if decide (samples c ≠ []) then s <| chunks_played_ ::= S |> else s in
    let s := if end_of_sentence c
             then s <| postbox ::= λ q, (Queue.push (PlaybackFinished (turn c) (seq c)) q).2 |> else s in
    (s <| current := no_chunk |> <| pos := 0 |>,
     if end_of_sentence c then [Posted (turn c) (seq c)] else [])
  else (s, []).

(** The buffer is completed with zeros and the callback returns. *)
Definition silence (frames : nat) (out : list Z) (s : engine) : engine * list Out :=
  (s <| pc := PIdle |>, [Emitted (out ++ replicate (frames - length out) 0%Z)]).

Definition gate_closed (active : TurnId) (s : engine) : bool :=
  bool_decide (0 < prefill_target_samples_ s) && bool_decide (active ≠ kNoTurn)
  && bool_decide (primed_turn_ s ≠ active).

Definition loop_step (frames : nat) (out : list Z) (active : TurnId) (now : Z) (s : engine)
    : engine * list Out :=
  if decide (length out < frames) then
    if decide (length (samples (current s)) ≤ pos s) then
      let '(s, o1) := finish_chunk s in
      if gate_closed active s then
        if decide (prefill_target_samples_ s ≤ pending_samples_for active (queue_ s)) then
          (s <| primed_turn_ := active |> <| pc := PDequeue frames out active |>, o1)
        else
          let s := s <| prefill_silence_frames_ ::= λ n, n + (frames - length out) |> in
          let '(s, o2) := silence frames out (maybe_close_barge_in_timer active now s) in (s, o1 ++ o2)
      else (s <| pc := PDequeue frames out active |>, o1)
    else
      let take_ := Nat.min (frames - length out) (length (samples (current s)) - pos s) in
      (s <| pos ::= λ p, p + take_ |>
         <| pc := PLoop frames (out ++ take take_ (drop (pos s) (samples (current s)))) |>, [])
  else
    (s <| frames_played_ ::= λ n, n + frames |> <| pc := PIdle |>,
     (if loopback_sink_ s then [OnEmitted out now] else []) ++ [Emitted out]).

Definition dequeue_step (frames : nat) (out : list Z) (active : TurnId) (now : Z) (s : engine)
    : engine * list Out :=
  match dequeue_active active (queue_ s) with
  | (None, q) =>
      silence frames out (maybe_close_barge_in_timer active now
        (s <| queue_ := q |> <| underruns_ ::= S |>))
  | (Some c, q) =>
      (s <| queue_ := q |> <| current := c |> <| pos := 0 |> <| pc := PLoop frames out |>, [Took c])
  end.

Definition audio_step (active : TurnId) (now : Z) (s : engine) : engine * list Out :=
  match pc s with
  | PIdle => (s, [])
  | PLoop frames out => loop_step frames out active now s
  | PDequeue frames out active => dequeue_step frames out active now s
  end.

Inductive Label :=
  | Render (frames : nat)               (* the device calls [render_into] *)
  | Audio (active : TurnId) (now : Z)
  | QueueOp (op : Op)
  | Publisher
  | NoteBargeIn (t : TurnId) (ns : Z)
  | Consume.

Definition step (l : Label) (s : engine) : engine * list Out :=
  match l with
  | Render frames => match pc s with PIdle => (s <| pc := PLoop frames [] |>, []) | _ => (s, []) end
  | Audio active now => audio_step active now s
  | QueueOp op => (s <| queue_ ::= λ q, (op_step op (q, MkHist [] [] 0)).1 |>, [])
  | Publisher => match Queue.try_pop (postbox s) with
                 | (Queue.PopSome e, q) => (s <| postbox := q |>, [Publish e])
                 | (_, q) => (s <| postbox := q |>, [])
                 end
  | NoteBargeIn t ns => (note_barge_in t ns s, [])
  | Consume => ((consume_pending_barge_in_latency s).2, [])
  end.

Fixpoint run (ls : list Label) (s : engine) : engine * list Out :=
  match ls with
  | [] => (s, [])
  | l :: ls => let '(s, o1) := step l s in let '(s, o2) := run ls s in (s, o1 ++ o2)
  end.

(** One call of [render_into] with nobody else about. *)
Fixpoint render (fuel : nat) (active : TurnId) (now : Z) (s : engine) : engine * list Out :=
  match fuel, pc s with
  | O, _ | _, PIdle => (s, [])
  | S fuel, _ => let '(s, o1) := audio_step active now s in
                 let '(s, o2) := render fuel active now s in (s, o1 ++ o2)
  end.
Definition render_into (frames : nat) (active : TurnId) (now : Z) (s : engine) : engine * list Out :=
  let s := s <| pc := PLoop frames [] |> in
  render (4 * length (q_ (queue_ s)) + 4) active now s.

(** ** Specification *)

(** The audio the active turn has ready: the rest of the chunk being played
    and its chunks in the queue. *)
Definition ready (t : TurnId) (q : PlaybackQueue) : list Z :=
  concat (samples <$> filter (λ c, turn c = t) (q_ q)).
Definition avail (t : TurnId) (s : engine) : list Z :=
  drop (pos s) (samples (current s)) ++ ready t (queue_ s).

Definition emitted (os : list Out) : list (list Z) :=
  omap (λ o, match o with Emitted b => Some b | _ => None end) os.
Definition tapped (os : list Out) : list (list Z) :=
  omap (λ o, match o with OnEmitted b _ => Some b | _ => None end) os.
Definition took (os : list Out) : list AudioChunk :=
  omap (λ o, match o with Took c => Some c | _ => None end) os.
Definition posts (os : list Out) : list (TurnId * SequenceNo) :=
  omap (λ o, match o with Posted t n => Some (t, n) | _ => None end) os.
Definition published (os : list Out) : list Event :=
  omap (λ o, match o with Publish e => Some e | _ => None end) os.

(** ** Lemmas *)

#[local] Arguments Queue.push : simpl never.

Lemma dequeue_spec t s :
  match dequeue_active t s with
  | (Some c, s') => turn c = t ∧ filter (λ c, turn c = t) (q_ s) = c :: filter (λ c, turn c = t) (q_ s') ∧
                    length (q_ s') < length (q_ s)
  | (None, s') => filter (λ c, turn c = t) (q_ s) = [] ∧ q_ s' = []
  end.
Proof.
  unfold dequeue_active.
  destruct (skip_stale_spec (length (q_ s)) t s (le_n _)) as (st & E1 & E2 & E3 & _).
  cbn zeta in *. set (s' := skip_stale _ _ _) in *. clearbody s'.
  assert (filter (λ c, turn c = t) st = []) as Hst.
  { clear -E2. induction E2 as [|c st Hc _ IH]; [done|]. rewrite filter_cons. by rewrite decide_False. }
  rewrite E1, filter_app, Hst. destruct (q_ s') as [|c q] eqn:E; [done|].
  split; [by eapply E3|]. rewrite app_nil_l, filter_cons, decide_True by (by eapply E3).
  split; [done|]. rewrite length_app. cbn. lia.
Qed.

Definition primed (t : TurnId) (s : engine) : Prop :=
  t ≠ kNoTurn ∧ (prefill_target_samples_ s = 0 ∨ primed_turn_ s = t).

Lemma gate_open_primed t s : primed t s → gate_closed t s = false.
Proof.
  intros [_ [H|H]]; unfold gate_closed; rewrite H.
  - done.
  - rewrite (bool_decide_false (t ≠ t)) by tauto. by rewrite andb_false_r.
Qed.

(** What [finish_chunk] leaves alone. *)
Lemma finish_spec s :
  length (samples (current s)) ≤ pos s →
  let '(s', os) := finish_chunk s in
  queue_ s' = queue_ s ∧ primed_turn_ s' = primed_turn_ s ∧
  prefill_target_samples_ s' = prefill_target_samples_ s ∧ loopback_sink_ s' = loopback_sink_ s ∧
  underruns_ s' = underruns_ s ∧ frames_played_ s' = frames_played_ s ∧ pc s' = pc s ∧
  drop (pos s') (samples (current s')) = [] ∧ emitted os = [] ∧ tapped os = [] ∧ took os = [].
Proof.
  intros H. unfold finish_chunk. case_decide.
  - destruct (decide (samples (current s) ≠ [])), (end_of_sentence (current s)); done.
  - split_and!; try done. by apply drop_ge.
Qed.

(** The result of one undisturbed callback from a buffer filled with [out]. *)
Record rendered (frames : nat) (t : TurnId) (out : list Z) (s s' : engine) (os : list Out) : Prop := {
  rd_pc : pc s' = PIdle;
  rd_out : emitted os = [out ++ take (frames - length out) (avail t s)
             ++ replicate (frames - length out - length (avail t s)) 0%Z];
  rd_avail : avail t s' = drop (frames - length out) (avail t s);
  rd_tap : tapped os = if loopback_sink_ s && bool_decide (frames - length out ≤ length (avail t s))
                       then emitted os else [];
  rd_under : underruns_ s' = underruns_ s + if decide (frames - length out ≤ length (avail t s)) then 0 else 1;
  rd_played : frames_played_ s' = frames_played_ s + if decide (frames - length out ≤ length (avail t s)) then frames else 0;
}.

Lemma timer_same t now s :
  let s' := maybe_close_barge_in_timer t now s in
  queue_ s' = queue_ s ∧ pos s' = pos s ∧ current s' = current s ∧ underruns_ s' = underruns_ s ∧
  frames_played_ s' = frames_played_ s ∧ chunks_played_ s' = chunks_played_ s ∧ postbox s' = postbox s ∧
  primed_turn_ s' = primed_turn_ s ∧ prefill_target_samples_ s' = prefill_target_samples_ s.
Proof. unfold maybe_close_barge_in_timer. do 2 (case_decide; [done|]). done. Qed.

Lemma emitted_app a b : emitted (a ++ b) = emitted a ++ emitted b.
Proof. apply omap_app. Qed.
Lemma tapped_app a b : tapped (a ++ b) = tapped a ++ tapped b.
Proof. apply omap_app. Qed.

(** The measure: chunks left, twice, and whether the current one has more. *)
Definition work (s : engine) : nat :=
  2 * length (q_ (queue_ s)) + if decide (length (samples (current s)) ≤ pos s) then 0 else 1.

(** The buffer is full: the tap is fed and the callback returns. *)
Lemma render_full fuel frames t now out s :
  pc s = PLoop frames out → length out = frames → 0 < fuel →
  let '(s', os) := render fuel t now s in rendered frames t out s s' os.
Proof.
  intros Hpc Hl Hf. destruct fuel as [|fuel]; [lia|]. cbn [render]. rewrite Hpc.
  unfold audio_step. rewrite Hpc. unfold loop_step. rewrite decide_False by lia.
  replace (render fuel t now _) with (s <| frames_played_ ::= λ n, n + frames |> <| pc := PIdle |>, @nil Out)
    by (by destruct fuel).
  split; rewrite ?Hl, ?Nat.sub_diag; cbn; rewrite ?decide_True, ?bool_decide_true by lia.
  - done.
  - destruct (loopback_sink_ s); cbn; by rewrite app_nil_r.
  - done.
  - by destruct (loopback_sink_ s).
  - lia.
  - lia.
Qed.

(** One copy out of the current chunk. *)
Lemma rendered_copy frames t out k s s1 s' os :
  k ≤ length (avail t s) → k ≤ frames - length out → length out ≤ frames →
  avail t s1 = drop k (avail t s) → loopback_sink_ s1 = loopback_sink_ s →
  underruns_ s1 = underruns_ s → frames_played_ s1 = frames_played_ s →
  rendered frames t (out ++ take k (avail t s)) s1 s' os → rendered frames t out s s' os.
Proof.
  intros Hk Hn Ho Ha Hs Hu Hp [H1 H2 H3 H4 H5 H6]. rewrite Ha, Hs, Hu, Hp in *.
  assert (length (out ++ take k (avail t s)) = length out + k) as El by (rewrite length_app, length_take; lia).
  rewrite El, length_drop in *.
  assert ((frames - (length out + k) ≤ length (avail t s) - k) ↔ (frames - length out ≤ length (avail t s))) as Hiff by lia.
  split.
  - done.
  - rewrite H2. rewrite <- !app_assoc. do 2 f_equal.
    assert (frames - (length out + k) = frames - length out - k) as -> by lia.
    rewrite app_assoc. f_equal.
    + by rewrite take_take_drop, <- Nat.le_add_sub by lia.
    + f_equal. lia.
  - rewrite H3, drop_drop. f_equal. lia.
  - rewrite H4. by rewrite (bool_decide_ext _ _ Hiff).
  - rewrite H5. destruct (decide (frames - length out ≤ length (avail t s))) as [Hd|Hd].
    + by rewrite decide_True by lia. 
    + by rewrite decide_False by lia.
  - rewrite H6. destruct (decide (frames - length out ≤ length (avail t s))) as [Hd|Hd].
    + by rewrite decide_True by lia. 
    + by rewrite decide_False by lia.
Qed.

(** A step that neither emits nor moves the audio. *)
Lemma rendered_quiet frames t out s s1 s' o1 os :
  avail t s1 = avail t s → loopback_sink_ s1 = loopback_sink_ s →
  underruns_ s1 = underruns_ s → frames_played_ s1 = frames_played_ s →
  emitted o1 = [] → tapped o1 = [] →
  rendered frames t out s1 s' os → rendered frames t out s s' (o1 ++ os).
Proof.
  intros Ha Hs Hu Hp He Ht [H1 H2 H3 H4 H5 H6]. rewrite Ha, Hs, Hu, Hp in *.
  split; rewrite ?emitted_app, ?tapped_app, ?He, ?Ht; done.
Qed.

(** The pop: nothing ready, or the next chunk of the turn. *)
Lemma dequeue_step_spec frames out t now s :
  drop (pos s) (samples (current s)) = [] →
  let '(s', os) := dequeue_step frames out t now s in
  (∃ c, os = [Took c] ∧ pc s' = PLoop frames out ∧ avail t s' = avail t s ∧ primed_turn_ s' = primed_turn_ s ∧
        prefill_target_samples_ s' = prefill_target_samples_ s ∧ loopback_sink_ s' = loopback_sink_ s ∧
        underruns_ s' = underruns_ s ∧ frames_played_ s' = frames_played_ s ∧
        length (q_ (queue_ s')) < length (q_ (queue_ s))) ∨
  (avail t s = [] ∧ avail t s' = [] ∧ pc s' = PIdle ∧
   os = [Emitted (out ++ replicate (frames - length out) 0%Z)] ∧
   underruns_ s' = S (underruns_ s) ∧ frames_played_ s' = frames_played_ s).
Proof.
  intros Hcur. unfold dequeue_step. pose proof (dequeue_spec t (queue_ s)) as H.
  unfold avail, ready. rewrite Hcur. cbn [app].
  destruct (dequeue_active t (queue_ s)) as [[c|] q].
  - destruct H as (_ & Hf & Hl). left. exists c. cbn. rewrite Hf. split_and!; done.
  - destruct H as [Hf Hq]. right. rewrite Hf.
    set (s1 := (s <| queue_ := q |>) <| underruns_ ::= S |>).
    pose proof (timer_same t now s1) as (E1 & E2 & E3 & E4 & E5 & _). unfold silence. cbn.
    rewrite E1, E2, E3, E4, E5. cbn. rewrite Hcur, Hq. done.
Qed.

Lemma render_idle fuel t now s : pc s = PIdle → render fuel t now s = (s, []).
Proof. destruct fuel; cbn; [done|]. by intros ->. Qed.

(** What the loop does from states with at most [m] of work left. *)
Definition loop_ok (m : nat) : Prop := ∀ fuel frames t now out s,
  pc s = PLoop frames out → length out ≤ frames → primed t s → work s ≤ m → 2 * m + 2 ≤ fuel →
  let '(s', os) := render fuel t now s in rendered frames t out s s' os.

(** A turn of the loop with nothing left of the current chunk, and one that
    copies of it. *)
Lemma render_pop m fuel frames t now out s :
  (∀ m', m' < m → loop_ok m') → pc s = PLoop frames out → length out < frames → primed t s →
  work s ≤ m → 2 * m + 2 ≤ S fuel → length (samples (current s)) ≤ pos s →
  let '(s', os) := render (S fuel) t now s in rendered frames t out s s' os.
Proof.
  intros IH Hpc Ho Hp Hw Hf Hpos. cbn [render]. rewrite Hpc. unfold audio_step. rewrite Hpc.
  unfold loop_step. rewrite decide_True by lia. unfold work in Hw. rewrite decide_True in Hw by done. rewrite (decide_True (P:=length _ ≤ pos s)) by done.
  pose proof (finish_spec s Hpos) as Hfin. destruct (finish_chunk s) as [s1 o1] eqn:Efin.
  destruct Hfin as (Q1 & Q2 & Q3 & Q4 & Q5 & Q6 & Q7 & Q8 & Q9 & Q10 & _).
  rewrite gate_open_primed by (unfold primed in *; by rewrite Q2, Q3).
  set (s2 := s1 <| pc := PDequeue frames out t |>).
  destruct fuel as [|fuel]; [lia|].
  change (render (S fuel) t now s2) with
    (let '(s, o1) := dequeue_step frames out t now s2 in
     let '(s, o2) := render fuel t now s in (s, o1 ++ o2)).
  pose proof (dequeue_step_spec frames out t now s2 Q8) as Hd.
  assert (avail t s2 = avail t s) as Ha
    by (unfold avail; cbn; rewrite Q1, Q8; by rewrite drop_ge).
  destruct (dequeue_step frames out t now s2) as [s3 o2].
  destruct Hd as [(c & -> & E1 & E2 & E3 & E4 & E5 & E6 & E7 & E8)|(E1 & E2 & E3 & -> & E5 & E6)].
  + cbn in E3, E4, E5, E6, E7, E8. rewrite Q1 in E8.
    assert (work s3 < work s) as Hlt
      by (unfold work; case_decide; case_decide; lia).
    unfold work in Hlt at 2. rewrite decide_True in Hlt by done.
    pose proof (IH (work s3) ltac:(lia) fuel frames t now out s3 E1 ltac:(lia)
      ltac:(unfold primed in *; rewrite E3, E4, Q2, Q3; done) ltac:(lia) ltac:(lia)) as H.
    destruct (render fuel t now s3) as [s' os]. rewrite app_assoc.
    eapply rendered_quiet; [by rewrite E2| | | | | |exact H]; try congruence.
    * by rewrite emitted_app, Q9.
    * by rewrite tapped_app, Q10.
  + rewrite render_idle by done. rewrite app_nil_r. rewrite Ha in E1. cbn in E5, E6.
    split; rewrite ?emitted_app, ?tapped_app, ?Q9, ?Q10, ?E1, ?E5, ?E6, ?Q5, ?Q6; cbn [length].
    * done.
    * by rewrite take_nil, Nat.sub_0_r.
    * by rewrite E2, drop_nil.
    * rewrite bool_decide_false by lia. by rewrite andb_false_r.
    * rewrite decide_False by lia. lia.
    * rewrite decide_False by lia. lia.
Qed.

Lemma render_copy m fuel frames t now out s :
  (∀ m', m' < m → loop_ok m') → pc s = PLoop frames out → length out < frames → primed t s →
  work s ≤ m → 2 * m + 2 ≤ S fuel → ¬ length (samples (current s)) ≤ pos s →
  let '(s', os) := render (S fuel) t now s in rendered frames t out s s' os.
Proof.
  intros IH Hpc Ho Hp Hw Hf Hpos. cbn [render]. rewrite Hpc. unfold audio_step. rewrite Hpc.
  unfold loop_step. rewrite decide_True by lia. unfold work in Hw. rewrite decide_False in Hw by done. rewrite (decide_False (P:=length _ ≤ pos s)) by done.
  set (k := Nat.min _ _).
  assert (take k (drop (pos s) (samples (current s))) = take k (avail t s)) as Hk
    by (unfold avail; rewrite take_app_le; [done|rewrite length_drop; lia]).
  rewrite Hk. set (s1 := set_field pc _ _).
  assert (k ≤ length (avail t s)) by (unfold avail; rewrite length_app, length_drop; lia).
  assert (rendered frames t (out ++ take k (avail t s)) s1 (render fuel t now s1).1 (render fuel t now s1).2) as Hr.
  { assert (length (out ++ take k (avail t s)) = length out + k) as El by (rewrite length_app, length_take; lia).
    destruct (decide (length out + k = frames)) as [Hfull|Hfull].
    - pose proof (render_full fuel frames t now (out ++ take k (avail t s)) s1 eq_refl ltac:(lia) ltac:(lia)) as H0.
      by destruct (render fuel t now s1).
    - assert (work s1 = 2 * length (q_ (queue_ s))) as Hwork
        by (unfold work; cbn [s1 queue_ current pos set_field]; case_decide; lia).
      pose proof (IH (2 * length (q_ (queue_ s))) ltac:(lia) fuel frames t now (out ++ take k (avail t s)) s1
        eq_refl ltac:(lia) Hp ltac:(lia) ltac:(lia)) as H0.
      by destruct (render fuel t now s1). }
  destruct (render fuel t now s1) as [s' os]. cbn [fst snd] in Hr.
  apply (rendered_copy frames t out k s s1); try done; try lia.
  unfold avail. cbn. rewrite skipn_app, length_drop, drop_drop.
  replace (k - (length (samples (current s)) - pos s)) with 0 by lia. by rewrite drop_0.
Qed.

Lemma render_loop m : loop_ok m.
Proof.
  induction m as [m IH] using lt_wf_ind. intros fuel frames t now out s Hpc Ho Hp Hw Hf.
  destruct (decide (length out = frames)) as [He|He]; [apply render_full; done || lia|].
  destruct fuel as [|fuel]; [lia|]. destruct (decide (length (samples (current s)) ≤ pos s)).
  - apply (render_pop m); done || lia.
  - apply (render_copy m); done || lia.
Qed.

(** ** The ledger of sentences *)

Definition real (c : AudioChunk) : Prop := turn c ≠ kNoTurn.
(** The reports a list of consumed chunks is owed, and the chunks it counts for. *)
Definition sentence_ends (cs : list AudioChunk) : list (TurnId * SequenceNo) :=
  (λ c, (turn c, seq c)) <$> filter (λ c, end_of_sentence c = true ∧ turn c ≠ kNoTurn) cs.
Definition with_audio (cs : list AudioChunk) : nat :=
  length (filter (λ c, samples c ≠ [] ∧ turn c ≠ kNoTurn) cs).
Definition finished_of (p : TurnId * SequenceNo) : Event := PlaybackFinished p.1 p.2.

Record ledger (s : engine) (os : list Out) : Prop := {
  lg_posts : posts os ++ sentence_ends [current s] = sentence_ends (took os);
  lg_chunks : chunks_played_ s + with_audio [current s] = with_audio (took os);
  lg_published : published os ++ Queue.q_ (postbox s) `sublist_of` (finished_of <$> posts os);
  lg_dequeue : match pc s with PDequeue _ _ _ => turn (current s) = kNoTurn | _ => True end;
}.

Lemma sentence_ends_app a b : sentence_ends (a ++ b) = sentence_ends a ++ sentence_ends b.
Proof. unfold sentence_ends. by rewrite filter_app, fmap_app. Qed.
Lemma with_audio_app a b : with_audio (a ++ b) = with_audio a + with_audio b.
Proof. unfold with_audio. by rewrite filter_app, length_app. Qed.
Lemma no_turn_owes c : turn c = kNoTurn → sentence_ends [c] = [] ∧ with_audio [c] = 0.
Proof.
  intros H. unfold sentence_ends, with_audio. rewrite !filter_cons, !decide_False by tauto. done.
Qed.

(** A push leaves the queue a part, in order, of what it was and the value. *)
Lemma push_sublist {T} (v : T) s : Queue.q_ (Queue.push v s).2 `sublist_of` Queue.q_ s ++ [v].
Proof.
  unfold Queue.push. destruct (Queue.closed_ s); [by apply sublist_inserts_r|].
  case_decide; [|done]. destruct (Queue.policy_ s); try by apply sublist_inserts_r.
  destruct (Queue.q_ s) as [|x q] eqn:E; cbn; [rewrite E; apply sublist_nil_l|].
  by apply sublist_cons.
Qed.

Lemma ledger_same s s' os o1 :
  ledger s os → current s' = current s → chunks_played_ s' = chunks_played_ s → postbox s' = postbox s →
  posts o1 = [] → took o1 = [] → published o1 = [] →
  match pc s' with PDequeue _ _ _ => turn (current s) = kNoTurn | _ => True end →
  ledger s' (os ++ o1).
Proof.
  intros [H1 H2 H3 H4] Hc Hn Hb Hp Ht Hu Hd. unfold posts, took, published in *.
  split; unfold posts, took, published; rewrite ?omap_app, ?Hp, ?Ht, ?Hu, ?app_nil_r, ?Hc, ?Hn, ?Hb; done.
Qed.

Lemma ledger_finish s os :
  ledger s os → (match pc s with PDequeue _ _ _ => False | _ => True end) →
  let '(s', o1) := finish_chunk s in
  ledger s' (os ++ o1) ∧ turn (current s') = kNoTurn ∧ pc s' = pc s.
Proof.
  intros Hl Hpc. pose proof Hl as [H1 H2 H3 H4]. unfold finish_chunk. case_decide as Ht.
  2: { by rewrite app_nil_r. }
  assert (∀ p : bool, sentence_ends [current s] = (if end_of_sentence (current s) then [(turn (current s), seq (current s))] else []))
    as He by (intros _; unfold sentence_ends; rewrite filter_cons;
              destruct (end_of_sentence (current s)); [by rewrite decide_True|by rewrite decide_False by naive_solver]).
  specialize (He true).
  assert (with_audio [current s] = if decide (samples (current s) ≠ []) then 1 else 0) as Ha
    by (unfold with_audio; rewrite filter_cons; destruct (decide (samples (current s) ≠ []));
        [by rewrite decide_True|by rewrite decide_False by naive_solver]).
  rewrite He in H1. rewrite Ha in H2.
  destruct (no_turn_owes no_chunk eq_refl) as [Hn1 Hn2].
  set (s1 := if decide (samples (current s) ≠ []) then s <| chunks_played_ ::= S |> else s).
  assert (current s1 = current s ∧ postbox s1 = postbox s ∧ pc s1 = pc s ∧
    chunks_played_ s1 = chunks_played_ s + if decide (samples (current s) ≠ []) then 1 else 0) as (C1 & C2 & C3 & C4)
    by (unfold s1; destruct (decide _); cbn; split_and!; done || lia).
  clearbody s1. unfold posts, took, published in *.
  destruct (end_of_sentence (current s)); (split; [|done]);
    (split; unfold posts, took, published; rewrite ?omap_app, ?fmap_app; cbn [current postbox chunks_played_ pc set_field omap list_omap fmap list_fmap];
     rewrite ?Hn1, ?Hn2, ?app_nil_r, ?C2, ?C3, ?C4; try done; try lia; try by destruct (pc s)).
  - etrans; [apply sublist_app; [done|apply push_sublist]|]. rewrite app_assoc. by apply sublist_app.
  - by rewrite app_nil_r in H1.
Qed.

Lemma ledger_audio s os active now :
  ledger s os → let '(s', o1) := audio_step active now s in ledger s' (os ++ o1).
Proof.
  intros Hl. unfold audio_step. destruct (pc s) as [|frames out|frames out a] eqn:E.
  - by rewrite app_nil_r.
  - unfold loop_step. case_decide; [|by eapply ledger_same; [exact Hl|try done; destruct (loopback_sink_ s); done..]].
    case_decide.
    2: by eapply ledger_same; [exact Hl|done..].
    pose proof (ledger_finish s os Hl) as Hf. rewrite E in Hf. specialize (Hf I).
    destruct (finish_chunk s) as [s1 o1]. destruct Hf as (Hl1 & Ht & Hpc).
    destruct (gate_closed active s1).
    + case_decide.
      * rewrite <- (app_nil_r (os ++ o1)). eapply ledger_same; [exact Hl1|done..].
      * unfold silence. rewrite app_assoc.
        set (s2 := s1 <| prefill_silence_frames_ ::= _ |>).
        destruct (timer_same active now s2) as (_ & _ & T3 & _ & _ & T6 & T7 & _).
        eapply ledger_same; [exact Hl1|done..].
    + rewrite <- (app_nil_r (os ++ o1)). eapply ledger_same; [exact Hl1|done..].
  - pose proof Hl as [H1 H2 H3 H4]. rewrite E in H4. unfold dequeue_step.
    destruct (dequeue_active a (queue_ s)) as [[c|] q].
    + destruct (no_turn_owes _ H4) as [N1 N2]. unfold posts, took, published in *.
      split; unfold posts, took, published; rewrite ?omap_app; cbn [current postbox chunks_played_ pc set_field omap list_omap];
        rewrite ?app_nil_r; try done.
      * rewrite sentence_ends_app, <- H1, N1, app_nil_r. done.
      * rewrite with_audio_app, <- H2, N2. lia.
    + unfold silence. set (s2 := (s <| queue_ := q |>) <| underruns_ ::= S |>).
      destruct (timer_same a now s2) as (_ & _ & T3 & _ & _ & T6 & T7 & _).
      eapply ledger_same; [exact Hl|done..].
Qed.

Lemma ledger_step l s os : ledger s os → let '(s', o1) := step l s in ledger s' (os ++ o1).
Proof.
  intros Hl. destruct l as [frames|active now|op| |t ns|]; cbn [step].
  - destruct (pc s) eqn:E; [by eapply ledger_same; [exact Hl|done..]|by rewrite app_nil_r..].
  - by apply ledger_audio.
  - pose proof (lg_dequeue _ _ Hl). by eapply ledger_same; [exact Hl|done..].
  - pose proof Hl as [H1 H2 H3 H4]. unfold Queue.try_pop, Queue.take_front.
    destruct (Queue.q_ (postbox s)) as [|e q] eqn:E.
    + pose proof (lg_dequeue _ _ Hl). by eapply ledger_same; [exact Hl|done..].
    + unfold posts, took, published in *.
      split; unfold posts, took, published; rewrite ?omap_app; cbn; rewrite ?app_nil_r; try done.
      by rewrite <- app_assoc.
  - pose proof (lg_dequeue _ _ Hl). by eapply ledger_same; [exact Hl|done..].
  - pose proof (lg_dequeue _ _ Hl). by eapply ledger_same; [exact Hl|done..].
Qed.

Lemma ledger_run ls s os : ledger s os → let '(s', o1) := run ls s in ledger s' (os ++ o1).
Proof.
  revert s os. induction ls as [|l ls IH]; intros s os Hl; cbn [run]; [by rewrite app_nil_r|].
  pose proof (ledger_step l s os Hl) as H1. destruct (step l s) as [s1 o1].
  specialize (IH s1 _ H1). destruct (run ls s1) as [s2 o2]. by rewrite app_assoc.
Qed.

(** ** The prefill gate *)

(** The audio thread alone, with the turn [t] active. *)
Definition audio_only (t : TurnId) (l : Label) : Prop :=
  match l with Render _ | Consume => True | Audio active _ => active = t | _ => False end.

Record starving (t : TurnId) (q : PlaybackQueue) (s : engine) : Prop := {
  st_turn : t ≠ kNoTurn;
  st_queue : queue_ s = q;
  st_current : current s = no_chunk;
  st_target : pending_samples_for t q < prefill_target_samples_ s;
  st_primed : primed_turn_ s ≠ t;
  st_pc : match pc s with PIdle => True | PLoop _ out => out = [] | PDequeue _ _ _ => False end;
}.

Definition all_zero (b : list Z) : Prop := Forall (λ x, x = 0%Z) b.
Definition silent_out (o : Out) : Prop :=
  match o with Emitted b => all_zero b | OnEmitted b _ => all_zero b | _ => False end.

Lemma starving_step t q l s :
  starving t q s → audio_only t l →
  starving t q (step l s).1 ∧ Forall silent_out (step l s).2.
Proof.
  intros Hs Hl. pose proof Hs as [H1 H2 H3 H4 H5 H6].
  destruct l as [frames|active now|op| |t' ns|]; cbn [step]; try done.
  - destruct (pc s) eqn:E; (split; [|constructor]); done.
  - cbn in Hl. subst active. unfold audio_step. destruct (pc s) as [|frames out|] eqn:E; try done.
    subst out. unfold loop_step. cbn [length]. case_decide as Hfr.
      * rewrite H3. cbn [samples no_chunk length]. rewrite decide_True by lia.
        unfold finish_chunk. rewrite H3. cbn [turn no_chunk]. rewrite decide_False by tauto.
        assert (gate_closed t s = true) as -> by (unfold gate_closed; rewrite !bool_decide_true by (done || lia); done).
        rewrite H2, decide_False by lia. unfold silence.
        set (s2 := s <| prefill_silence_frames_ ::= _ |>).
        destruct (timer_same t now s2) as (T1 & T2 & T3 & T4 & T5 & T6 & T7 & T8 & T9).
        split; [by split; cbn; rewrite ?T1, ?T3, ?T8, ?T9|]. cbn.
        constructor; [|constructor]. cbn. by apply Forall_replicate.
      * split; [by split|]. apply Forall_app. split; [|by repeat constructor].
        destruct (loopback_sink_ s); by repeat constructor.
Qed.

Lemma starving_run t q ls s :
  starving t q s → Forall (audio_only t) ls →
  starving t q (run ls s).1 ∧ Forall silent_out (run ls s).2.
Proof.
  intros Hs Hf. revert s Hs. induction Hf as [|l ls Hl _ IH]; intros s Hs; [done|]. cbn [run].
  destruct (starving_step t q l s Hs Hl) as [H1 H2]. destruct (step l s) as [s1 o1].
  destruct (IH s1 H1) as [H3 H4]. destruct (run ls s1) as [s2 o2]. cbn in *. split; [done|].
  by apply Forall_app.
Qed.

(** ** Properties *)

(** [C5] One audio callback. For an active turn past the prefill gate and
    nobody else about, the buffer returned is the audio the turn has ready
    (the rest of the current chunk, then its chunks in order, the chunks of
    other turns skipped), completed with zeros; exactly the audio played is
    consumed; an underrun is counted when it does not fill the buffer. The
    loopback tap gets the buffer only when the audio fills it: the callbacks
    that end in silence feed it nothing. *)
Theorem render_exact frames t now s :
  pc s = PIdle → primed t s →
  let '(s', os) := render_into frames t now s in
  let a := avail t s in
  pc s' = PIdle ∧
  emitted os = [take frames a ++ replicate (frames - length a) 0%Z] ∧
  avail t s' = drop frames a ∧
  underruns_ s' = underruns_ s + (if decide (frames ≤ length a) then 0 else 1) ∧
  frames_played_ s' = frames_played_ s + (if decide (frames ≤ length a) then frames else 0) ∧
  tapped os = if loopback_sink_ s && bool_decide (frames ≤ length a) then emitted os else [].
Proof.
  intros Hpc Hp. unfold render_into. set (s0 := s <| pc := PLoop frames [] |>).
  pose proof (render_loop (2 * length (q_ (queue_ s)) + 1) (4 * length (q_ (queue_ s0)) + 4) frames t now [] s0
    eq_refl ltac:(cbn; lia) Hp ltac:(unfold work; cbn; case_decide; lia) ltac:(cbn; lia)) as H.
  destruct (render _ t now s0) as [s' os]. destruct H as [H1 H2 H3 H4 H5 H6]. cbn [length app] in *.
  rewrite Nat.sub_0_r in *. done.
Qed.

Lemma render_exact_witness :
  let q := (op_run [Enqueue (Chunk 1 0 [9%Z] false); Enqueue (Chunk 2 0 [1; 2; 3]%Z false);
                    Enqueue (Chunk 2 0 [] true); Enqueue (Chunk 2 1 [4%Z] true)] (pq_new 0, MkHist [] [] 0)).1 in
  let s := engine_new 0 48000 q true in
  (emitted (render_into 2 2 7 s).2 = [[1; 2]]%Z) ∧
  (emitted (render_into 3 2 7 (render_into 2 2 7 s).1).2 = [[3; 4; 0]]%Z).
Proof.
  intros q s. assert (H1 : primed 2 s) by (split; [discriminate|left; reflexivity]).
  pose proof (render_exact 2 2 7 s eq_refl H1) as H.
  destruct (render_into 2 2 7 s) as [s1 os] eqn:E. destruct H as (Hpc & Ho & Ha & _). cbn [fst snd].
  split; [exact Ho|].
  assert (H2 : primed 2 s1) by (change s1 with (s1, os).1; rewrite <- E; vm_compute; split; [discriminate|left; reflexivity]).
  pose proof (render_exact 3 2 7 s1 Hpc H2) as H. rewrite Ha in H.
  destruct (render_into 3 2 7 s1) as [s2 os2]. exact (proj1 (proj2 H)).
Defined.

(** The ledger of sentences. Under every interleaving of the audio
    thread, the producer, the barge-in handler and the publisher, whatever
    turn is active when: each chunk the callback takes that ends a sentence
    is reported exactly once, in order, when it has been consumed; the
    chunks counted as played are those with audio; and what reaches the bus
    is, in order, part of what was reported. *)
Theorem engine_ledger ls prefill_ms rate q sink :
  let '(s, os) := run ls (engine_new prefill_ms rate q sink) in
  posts os ++ sentence_ends [current s] = sentence_ends (took os) ∧
  chunks_played_ s + with_audio [current s] = with_audio (took os) ∧
  published os ++ Queue.q_ (postbox s) `sublist_of` (finished_of <$> posts os).
Proof.
  pose proof (ledger_run ls (engine_new prefill_ms rate q sink) []) as H.
  destruct (run ls _) as [s os]. destruct H as [H1 H2 H3 _]; [|done].
  split; done.
Qed.

(** [C16] A short answer is never played. The prefill gate opens once the
    turn has enough audio queued, and nothing else opens it: with the whole
    answer queued, its end-of-sentence chunks included, but shorter than the
    target, every callback returns silence for ever, takes nothing from the
    queue and reports nothing, so no [PlaybackFinished] comes. *)
Theorem short_answer_starves t ls s :
  t ≠ kNoTurn → pc s = PIdle → current s = no_chunk → primed_turn_ s ≠ t →
  pending_samples_for t (queue_ s) < prefill_target_samples_ s →
  Forall (audio_only t) ls →
  let '(s', os) := run ls s in
  queue_ s' = queue_ s ∧ took os = [] ∧ posts os = [] ∧ published os = [] ∧ Forall all_zero (emitted os).
Proof.
  intros Ht Hpc Hc Hp Hlt Hls.
  destruct (starving_run t (queue_ s) ls s) as [H1 H2]; [split; try done; by rewrite Hpc|done|].
  destruct (run ls s) as [s' os]. cbn [fst snd] in *. split; [apply H1|].
  unfold took, posts, published, emitted. clear -H2.
  induction H2 as [|o os Ho _ IH]; [done|]. destruct IH as (I1 & I2 & I3 & I4).
  destruct o; cbn in *; rewrite ?I1, ?I2, ?I3; try done; split_and!; try done. by constructor.
Qed.

Lemma short_answer_starves_witness :
  let q := (op_run [Enqueue (Chunk 1 0 [5; 5; 5]%Z false); Enqueue (Chunk 1 0 [] true)] (pq_new 0, MkHist [] [] 0)).1 in
  let s := engine_new 100 48000 q true in
  let ls := [Render 2; Audio 1 0; Render 2; Audio 1 0; Audio 1 0] in
  emitted (run ls s).2 = [[0; 0]; [0; 0]]%Z ∧ took (run ls s).2 = [].
Proof.
  intros q s ls. split; [vm_compute; reflexivity|].
  pose proof (short_answer_starves 1 ls s ltac:(discriminate) eq_refl eq_refl ltac:(discriminate)) as H.
  assert (H1 : pending_samples_for 1 (queue_ s) < prefill_target_samples_ s).
  { apply Nat.ltb_lt. vm_compute. reflexivity. }
  specialize (H H1 ltac:(repeat constructor)). destruct (run ls s) as [s' os]. exact (proj1 (proj2 H)).
Defined.
