(* ===== verification/Devices.v ===== *)
(** * Audio devices (src/src/audio/capture.cpp, src/src/playback/engine.cpp)

    How the two engines open and close their PortAudio stream, with headless
    mode as the fallback, and the threads of the playback engine around the
    audio callback: the headless ticker and the publisher. What PortAudio
    answers is an argument. The callbacks are in [Capture] and [Engine]. *)
From S2P Require Import Prelude Event.
From S2P Require Queue.

(** ** Choosing a device *)

Record DeviceInfo := MkDevice { dev_name : str; max_channels : Z }.
Definition paNoDevice : Z := (-1)%Z.

(** [std::tolower] in the C locale. *)
Definition tolower (c : ascii) : ascii :=
  if decide (65 ≤ byte_of c ≤ 90)%Z then of_byte (byte_of c + 32)%Z else c.
Definition lower (s : str) : str := tolower <$> s.
Definition contains_folded (name selector : str) : bool := bool_decide (is_Some (str_find (lower selector) (lower name))).

(** A device that [Pa_GetDeviceInfo] knows nothing of is [None]. *)
Fixpoint match_device (selector : str) (i : Z) (ds : list (option DeviceInfo)) : Z :=
  match ds with
  | [] => paNoDevice
  | None :: ds => match_device selector (i + 1) ds
  | Some d :: ds =>
      if decide (max_channels d ≤ 0)%Z then match_device selector (i + 1) ds
      else if contains_folded (dev_name d) selector then i
      else match_device selector (i + 1) ds
  end.

Definition is_default (selector : str) : bool := bool_decide (selector = [] ∨ selector = lit "default").
(** [default_device]: the answer of [Pa_GetDefaultInputDevice], or its twin. *)
Definition pick_input_device (selector : str) (default_device : Z) (ds : list (option DeviceInfo)) : Z :=
  if is_default selector then default_device else match_device selector 0 ds.

(** The output side passes a plain [char] to [std::tolower]: outside ASCII it
    is negative and the behaviour undefined ([None]). *)
Definition ascii_only (s : str) : bool := forallb (λ c, bool_decide (byte_of c < 128)%Z) s.
Fixpoint match_output (selector : str) (i : Z) (ds : list (option DeviceInfo)) : option Z :=
  match ds with
  | [] => Some paNoDevice
  | None :: ds => match_output selector (i + 1) ds
  | Some d :: ds =>
      if decide (max_channels d ≤ 0)%Z then match_output selector (i + 1) ds
      else if negb (ascii_only (dev_name d) && ascii_only selector) then None
      else if contains_folded (dev_name d) selector then Some i
      else match_output selector (i + 1) ds
  end.
Definition pick_device (selector : str) (default_device : Z) (ds : list (option DeviceInfo)) : option Z :=
  if is_default selector then Some default_device else match_output selector 0 ds.

(** ** The stream *)

(** [Pa_OpenStream]: PortAudio documents the pointer it is given as valid on
    success and as invalid on failure. [Refused stored]: it failed, and left
    something that is not null in it, or left it alone. *)
Inductive OpenAnswer := Granted | Refused (stored : bool).
Definition granted (a : OpenAnswer) : bool := match a with Granted => true | Refused _ => false end.
Record PortAudio := MkPa {
  init_ok : bool; default_device : Z; devices : list (option DeviceInfo); open_answer : OpenAnswer; start_ok : bool;
}.
(** The pointer [stream]: null, an open stream, or what a failed
    [Pa_OpenStream] left. *)
Inductive Handle := Null | Open | Invalid.
#[global] Instance Handle_eq_dec : EqDecision Handle.
Proof. solve_decision. Defined.
Inductive Call :=
  | Initialize (ok : bool) | OpenStream (device : Z) (ok : bool) | StartStream (ok : bool)
  | StopStream (h : Handle) | CloseStream (h : Handle) | Terminate.

Record stream := MkStream { running_ : bool; headless_ : bool; force_headless_ : bool; handle : Handle; pa_initialized : bool }.
#[global] Instance eta_stream : Eta stream := λ s,
  MkStream (running_ s) (headless_ s) (force_headless_ s) (handle s) (pa_initialized s).
Definition stream_new : stream := MkStream false false false Null false.
Definition opened (s : stream) : bool := bool_decide (handle s = Open).
Local Open Scope act_scope.

Definition force_headless : Act stream Call unit := modify (λ s, s <| force_headless_ := true |>).
Definition run_headless : Act stream Call unit := modify (λ s, s <| headless_ := true |> <| running_ := true |>).

(** [true]: the stream runs. *)
Definition open_device (pa : PortAudio) (device : Z) : Act stream Call bool :=
  if decide (device = paNoDevice) then ret false else
  emit (OpenStream device (granted (open_answer pa)));;
  match open_answer pa with
  | Refused stored => (when stored do modify (λ s, s <| handle := Invalid |>));; ret false
  | Granted =>
      modify (λ s, s <| handle := Open |>);; emit (StartStream (start_ok pa));;
      if negb (start_ok pa) then emit (CloseStream Open);; modify (λ s, s <| handle := Null |>);; ret false
      else modify (λ s, s <| running_ := true |> <| headless_ := false |>);; ret true
  end.
(** Both [start]s, past their headless test; [pick] chooses the device. The
    result [None]: the choice was undefined. *)
Definition try_device (pa : PortAudio) (pick : option Z) : Act stream Call (option bool) :=
  s ← gets id;
  (when negb (pa_initialized s) do
     (emit (Initialize (init_ok pa));; when init_ok pa do modify (λ s, s <| pa_initialized := true |>)));;
  s ← gets id;
  if negb (pa_initialized s) then ret (Some false)
  else match pick with None => ret None | Some device => b ← open_device pa device; ret (Some b) end.
Definition start_with (wants_headless : stream → bool) (pa : PortAudio) (pick : option Z) : Act stream Call (option bool) :=
  s ← gets id;
  if running_ s then ret (Some true) else
  if wants_headless s then run_headless;; ret (Some true) else
  r ← try_device pa pick;
  match r with
  | None => ret None
  | Some true => ret (Some true)
  | Some false => run_headless;; ret (Some true)
  end.

Definition none : str := lit "none".
Definition capture_start (input_device : str) (pa : PortAudio) : Act stream Call (option bool) :=
  start_with (λ s, force_headless_ s || bool_decide (input_device = none) || bool_decide (input_device = [])) pa
    (Some (pick_input_device input_device (default_device pa) (devices pa))).
Definition playback_start (output_device : str) (pa : PortAudio) : Act stream Call (option bool) :=
  start_with (λ s, force_headless_ s || bool_decide (output_device = none)) pa
    (pick_device output_device (default_device pa) (devices pa)).
(** Both [stop]s, as far as PortAudio goes. *)
Definition stream_stop : Act stream Call unit :=
  s ← gets id;
  if negb (running_ s) then skip else
  modify (λ s, s <| running_ := false |>);;
  (when negb (bool_decide (handle s = Null))
   do (emit (StopStream (handle s));; emit (CloseStream (handle s));; modify (λ s, s <| handle := Null |>)));;
  (when pa_initialized s do (emit Terminate;; modify (λ s, s <| pa_initialized := false |>))).

(** *** Its use of PortAudio *)

(** Where PortAudio is: the calls in an order it accepts. *)
Inductive Phase := Off | Inited | Opened | Started.
Definition call_step (p : Phase) (c : Call) : option Phase :=
  match p, c with
  | Off, Initialize ok => Some (if ok then Inited else Off)
  | Inited, OpenStream _ ok => Some (if ok then Opened else Inited)
  | Opened, StartStream ok => Some (if ok then Started else Opened)
  | Started, StopStream Open => Some Opened
  | Opened, CloseStream Open => Some Inited
  | Inited, Terminate => Some Off
  | _, _ => None
  end.
Fixpoint accept (p : Phase) (cs : list Call) : option Phase :=
  match cs with [] => Some p | c :: cs => match call_step p c with Some p => accept p cs | None => None end end.
Definition phase_of (s : stream) : Phase := if opened s then Started else if pa_initialized s then Inited else Off.

(** A call on what a failed [Pa_OpenStream] left. *)
Definition on_invalid (c : Call) : bool := match c with StopStream Invalid | CloseStream Invalid => true | _ => false end.

(** An engine used from one thread: starts, once the device is chosen, stops,
    and the destructor, which is a stop. *)
Inductive Op := OpStart (wants_headless : stream → bool) (pa : PortAudio) (device : Z) | OpStop | OpForce.
Definition op (o : Op) : Act stream Call unit :=
  match o with
  | OpStart w pa d => start_with w pa (Some d);; skip
  | OpStop => stream_stop
  | OpForce => force_headless
  end.
Fixpoint ops (os : list Op) : Act stream Call unit :=
  match os with [] => skip | o :: os => op o;; ops os end.

(** No failed [Pa_OpenStream] leaves a value. *)
Definition tidy (o : Op) : Prop :=
  match o with OpStart _ pa _ => open_answer pa ≠ Refused true | _ => True end.

(** Open exactly in device mode; a value left behind only in headless mode;
    PortAudio is initialised only while running. *)
Definition stream_ok (s : stream) : Prop :=
  opened s = running_ s && negb (headless_ s) ∧ (handle s ≠ Null → pa_initialized s = true) ∧
  (pa_initialized s = true → running_ s = true).
(** What PortAudio sees, calls on invalid streams apart. *)
Definition valid_calls (cs : list Call) : list Call := List.filter (λ c, negb (on_invalid c)) cs.

Lemma accept_app p cs ds : accept p (cs ++ ds) = match accept p cs with Some q => accept q ds | None => None end.
Proof. revert p. induction cs as [|c cs IH]; intros p; cbn; [done|]. by destruct (call_step p c). Qed.

Lemma start_ok_step w pa d s :
  stream_ok s → running_ s = false →
  let m := start_with w pa (Some d) in
  stream_ok (exec m s) ∧ accept (phase_of s) (outs m s) = Some (phase_of (exec m s)) ∧
  running_ (exec m s) = true ∧ result m s = Some true ∧ existsb on_invalid (outs m s) = false ∧
  (handle (exec m s) = Invalid → open_answer pa = Refused true).
Proof.
  intros (Ho & Hh & Hi) Hr. destruct s as [r h f o i]. cbn in Hr, Ho, Hh, Hi. subst r.
  destruct i; [by specialize (Hi eq_refl)|]. destruct o; try by specialize (Hh ltac:(discriminate)). clear Ho Hh Hi.
  unfold start_with, try_device, open_device, run_headless. act_open. cbn.
  destruct (w _); [by repeat split|]. destruct pa as [[] dd ds [|[]] []]; cbn; try case_decide; by repeat split.
Qed.

Lemma op_ok o s :
  stream_ok s →
  stream_ok (exec (op o) s) ∧ accept (phase_of s) (valid_calls (outs (op o) s)) = Some (phase_of (exec (op o) s)) ∧
  running_ (exec (op o) s) = (match o with OpStart _ _ _ => true | OpStop => false | OpForce => running_ s end) ∧
  (handle s ≠ Invalid → existsb on_invalid (outs (op o) s) = false ∧ (tidy o → handle (exec (op o) s) ≠ Invalid)).
Proof.
  intros H. destruct o as [w pa d| |].
  - unfold op. rewrite exec_bind, outs_bind. cbn [exec outs skip ret fst snd]. rewrite app_nil_r.
    destruct (running_ s) eqn:Er.
    + unfold start_with. act_open. cbn. rewrite Er. by split; [exact H|].
    + destruct (start_ok_step w pa d s H Er) as (H1 & H2 & H3 & _ & H4 & H5).
      assert (valid_calls (outs (start_with w pa (Some d)) s) = outs (start_with w pa (Some d)) s) as Hv.
      { unfold valid_calls. revert H4. generalize (outs (start_with w pa (Some d)) s). intros l.
        induction l as [|c l IH]; intros Hl; [done|]. cbn in *. destruct (on_invalid c); [done|]. cbn. by rewrite IH. }
      rewrite Hv. split; [done|]. split; [done|]. split; [done|]. intros _. split; [done|].
      intros Ht E. by destruct (Ht (H5 E)).
  - destruct H as (Ho & Hi & Hp), s as [[] [] [] [] []]; cbn in *; try discriminate;
      (by specialize (Hi ltac:(discriminate)) || by specialize (Hp eq_refl) || by repeat split).
  - destruct s; exact (conj H (conj eq_refl (conj eq_refl (λ N, conj eq_refl (λ _, N))))).
Qed.

Lemma ops_ok os s :
  stream_ok s →
  stream_ok (exec (ops os) s) ∧ accept (phase_of s) (valid_calls (outs (ops os) s)) = Some (phase_of (exec (ops os) s)) ∧
  (handle s ≠ Invalid → Forall tidy os → existsb on_invalid (outs (ops os) s) = false ∧ handle (exec (ops os) s) ≠ Invalid).
Proof.
  revert s. induction os as [|o os IH]; intros s H; [done|]. cbn [ops]. rewrite exec_bind, outs_bind.
  unfold valid_calls. rewrite List.filter_app, accept_app, existsb_app. fold (valid_calls (outs (op o) s)).
  destruct (op_ok o s H) as (H' & Ha & _ & Hv). rewrite Ha. destruct (IH _ H') as (H'' & Ha' & Hv').
  split; [done|]. split; [done|]. intros Hn Ht. inversion Ht; subst. destruct (Hv Hn) as [-> Hn'].
  by destruct (Hv' (Hn' ltac:(done)) ltac:(done)) as [-> ?].
Qed.

(** [C38] An engine over PortAudio, whatever it answers, whatever device was
    chosen and in whatever order the engine is started, stopped and forced
    headless. As long as no failing [Pa_OpenStream] leaves a value in the
    handle ([tidy]), every call is one PortAudio accepts at that point: opened
    once initialised, started once opened, stopped, closed and terminated as
    often as started, opened and initialised. A start always leaves the
    engine running, with a device exactly when the stream runs; after a stop
    nothing is left open or initialised. PortAudio promises no value after a
    failure: when one is left the engine runs headless, the next stop stops
    and closes it as if it were a stream, and the other calls are still in
    order. *)
Theorem device_protocol os o :
  let s := exec (ops os) stream_new in
  let s' := exec (op o) s in
  let calls := outs (ops os) stream_new in
  (Forall tidy os → accept Off calls = Some (phase_of s) ∧ handle s ≠ Invalid) ∧
  accept Off (valid_calls calls) = Some (phase_of s) ∧
  opened s = running_ s && negb (headless_ s) ∧
  match o with
  | OpStart _ _ _ => running_ s' = true ∧ opened s' = negb (headless_ s')
  | OpStop => phase_of s' = Off ∧ handle s' = Null ∧
      (handle s = Invalid → headless_ s = true ∧ outs (op o) s = [StopStream Invalid; CloseStream Invalid; Terminate])
  | OpForce => True
  end.
Proof.
  assert (stream_ok stream_new) as H0 by (repeat split; done).
  destruct (ops_ok os stream_new H0) as (H & Ha & Hv). cbn zeta. split; [|split; [exact Ha|split; [apply H|]]].
  - intros Ht. destruct (Hv ltac:(discriminate) Ht) as [Hn Hi]. split; [|done]. change Off with (phase_of stream_new).
    rewrite <- Ha. f_equal. revert Hn. generalize (outs (ops os) stream_new). intros l. induction l as [|c l IH]; [done|].
    cbn. intros Hl. apply orb_false_iff in Hl as [Hc Hl]. rewrite Hc. cbn. f_equal. by apply IH.
  - destruct (op_ok o _ H) as ((Ho & Hi & Hp) & _ & Hr & _). destruct o; [|..|done].
    + split; [done|]. by rewrite Ho, Hr.
    + unfold phase_of. rewrite Ho, Hr. cbn [andb].
      destruct (pa_initialized (exec (op OpStop) _)) eqn:E; [by rewrite Hp in Hr|]. split; [done|]. split.
      * destruct (decide (handle (exec (op OpStop) (exec (ops os) stream_new)) = Null)) as [|N]; [done|]. by specialize (Hi N).
      * intros Hinv. destruct H as (K1 & K2 & K3). destruct (exec (ops os) stream_new) as [[] [] f h i];
          cbn in *; subst h; try discriminate; specialize (K2 ltac:(discriminate)); subst i; try done; by specialize (K3 eq_refl).
Qed.

(** A device that cannot be opened, a driver that leaves a value, and a stop. *)
Example stop_of_refused :
  let pa := MkPa true 3 [] (Refused true) true in
  outs (playback_start [] pa;; stream_stop) stream_new =
    [Initialize true; OpenStream 3 false; StopStream Invalid; CloseStream Invalid; Terminate].
Proof. reflexivity. Qed.

(** *** The choice *)

Definition misses (selector : str) (o : option DeviceInfo) : Prop :=
  ∀ x, o = Some x → (0 < max_channels x)%Z → contains_folded (dev_name x) selector = false.
Definition first_match (selector : str) (i : Z) (ds : list (option DeviceInfo)) (d : Z) : Prop :=
  (d = paNoDevice ∧ Forall (misses selector) ds) ∨
  ∃ k x, d = (i + Z.of_nat k)%Z ∧ ds !! k = Some (Some x) ∧ (0 < max_channels x)%Z ∧
    contains_folded (dev_name x) selector = true ∧ Forall (misses selector) (take k ds).

Lemma match_device_spec selector i ds : first_match selector i ds (match_device selector i ds).
Proof.
  revert i. induction ds as [|o ds IH]; intros i; [by left|]. cbn [match_device].
  assert (misses selector o → first_match selector i (o :: ds) (match_device selector (i + 1) ds)) as Hnext.
  { intros Hd. destruct (IH (i + 1)%Z) as [[-> H]|(k & x & -> & Hk & Hc & Hf & Ht)].
    - left. split; [done|]. by constructor.
    - right. exists (S k), x. split; [lia|]. split; [done|]. split; [done|]. split; [done|]. by constructor. }
  destruct o as [x|]; [|by apply Hnext].
  case_decide as Hc; [apply Hnext; intros ? [= <-]; lia|].
  destruct (contains_folded (dev_name x) selector) eqn:Hf; [|by apply Hnext; intros ? [= <-]].
  right. exists 0, x. split; [lia|]. repeat split; [lia|done|constructor].
Qed.

(** A named device is the first, among those with channels, whose name
    contains the selector whatever the case, and none when there is none; on
    the output side the choice is the same while names and selector are
    ASCII. *)
Theorem first_matching_device selector dd ds :
  is_default selector = false →
  let d := pick_input_device selector dd ds in
  first_match selector 0 ds d ∧
  (ascii_only selector = true → Forall (λ o, ∀ x, o = Some x → ascii_only (dev_name x) = true) ds →
   pick_device selector dd ds = Some d).
Proof.
  intros Hs. cbn zeta. unfold pick_input_device, pick_device. rewrite Hs. split; [apply (match_device_spec selector 0)|].
  intros Ha. generalize 0%Z. induction ds as [|[x|] ds IH]; intros i H; inversion H; subst; cbn; [done| |by apply IH].
  case_decide; [by apply IH|]. rewrite Ha, (H2 x) by done. cbn. destruct (contains_folded _ _); [done|by apply IH].
Qed.
Lemma first_matching_device_witness :
  is_default (lit "usb") = false ∧
  pick_device (lit "usb") 0 [Some (MkDevice (lit "HDMI") 2); Some (MkDevice (lit "USB in") 0); Some (MkDevice (lit "My USB mic") 1)] = Some 2%Z.
Proof.
  split; [vm_compute; reflexivity|].
  set (ds := [Some (MkDevice (lit "HDMI") 2); Some (MkDevice (lit "USB in") 0); Some (MkDevice (lit "My USB mic") 1)]).
  assert (H : is_default (lit "usb") = false) by (vm_compute; reflexivity).
  destruct (first_matching_device (lit "usb") 0 ds H) as [_ H2].
  rewrite H2; [vm_compute; reflexivity..|].
  repeat constructor; intros ? [= <-]; vm_compute; reflexivity.
Defined.

(** An accent in the name of a device that is looked at, and the choice of
    the output is undefined; no selector means the default device to the
    player and headless mode to the recorder. *)
Example accented_device : pick_device (lit "usb") 0 [Some (MkDevice (of_byte 195 :: lit "cho") 2); Some (MkDevice (lit "USB") 2)] = None.
Proof. vm_compute. reflexivity. Qed.
Example empty_selector pa :
  running_ (exec (capture_start [] pa) stream_new) = true ∧ outs (capture_start [] pa) stream_new = [] ∧
  outs (playback_start [] (MkPa true 3 [] Granted true)) stream_new = [Initialize true; OpenStream 3 true; StartStream true].
Proof. by repeat split. Qed.

(** ** The threads around the audio callback

    [PlaybackEngine] once its stream is decided: the headless ticker, the
    publisher and the thread that starts and stops. The ticker and [stop]
    share [headless_mu]; the audio thread, the device's or the ticker's own,
    posts to the postbox. *)
Module Threads.
Import Queue.

(** The ticker: at its test of [running_], in the callback, locking, at the
    predicate of [wait_for], asleep ([woken]: notified), taking the mutex back
    ([timed]: for the deadline), unlocking, returned. *)
Inductive TickPc := TNone | TTest | TRender | TLock | TPred | TAsleep (woken : bool) | TRelock (timed : bool) | TUnlock | TDone.
Inductive StopPc := SIdle | SLock | SUnlock | SNotify | SJoin | SStore | SClose | SJoinPublisher.
#[global] Instance stop_pc_eq_dec : EqDecision StopPc.
Proof. solve_decision. Defined.
Inductive PubPc := PNone | PTest | PPop | PPublish (e : Event) | PDone.
Inductive Owner := Nobody | ByTicker | ByStop.

Record engine := MkEngine {
  running_ : bool; publisher_stop : bool; postbox : BoundedQueue Event; headless_mu : Owner;
  ticker : TickPc; stopper : StopPc; publisher : PubPc;
}.
#[global] Instance eta_engine : Eta engine := λ s,
  MkEngine (running_ s) (publisher_stop s) (postbox s) (headless_mu s) (ticker s) (stopper s) (publisher s).
Definition engine_new : engine := MkEngine false false (queue_new 256 DropOldest) Nobody TNone SIdle PNone.

(** [Start ticks]: headless with a positive tick. *)
Inductive Label := Start (ticks : bool) | StopCall | Stop | Ticker | Timeout | Publisher | Post (e : Event).

Definition start (ticks : bool) (s : engine) : engine :=
  if running_ s then s
  else s <| publisher_stop := false |> <| publisher := PTest |> <| running_ := true |>
         <| ticker := if ticks then TTest else TNone |>.
Definition notify (t : TickPc) : TickPc := match t with TAsleep _ => TAsleep true | t => t end.
Definition stop_step (s : engine) : engine :=
  match stopper s with
  | SIdle => s
  | SLock => match headless_mu s with Nobody => s <| headless_mu := ByStop |> <| stopper := SUnlock |> | _ => s end
  | SUnlock => s <| headless_mu := Nobody |> <| stopper := SNotify |>
  | SNotify => s <| ticker ::= notify |> <| stopper := SJoin |>
  | SJoin => match ticker s with TNone | TDone => s <| ticker := TNone |> <| stopper := SStore |> | _ => s end
  | SStore => s <| publisher_stop := true |> <| stopper := SClose |>
  | SClose => s <| postbox ::= close |> <| stopper := SJoinPublisher |>
  | SJoinPublisher => match publisher s with PNone | PDone => s <| publisher := PNone |> <| stopper := SIdle |> | _ => s end
  end.
Definition lock_ticker (next : TickPc) (s : engine) : engine :=
  match headless_mu s with Nobody => s <| headless_mu := ByTicker |> <| ticker := next |> | _ => s end.
Definition ticker_step (s : engine) : engine :=
  match ticker s with
  | TTest => s <| ticker := if running_ s then TRender else TDone |>
  | TRender => s <| ticker := TLock |>
  | TLock => lock_ticker TPred s
  | TPred => if running_ s then s <| ticker := TAsleep false |> <| headless_mu := Nobody |> else s <| ticker := TUnlock |>
  | TAsleep true => s <| ticker := TRelock false |>
  | TRelock timed => lock_ticker (if timed then TUnlock else TPred) s
  | TUnlock => s <| ticker := TTest |> <| headless_mu := Nobody |>
  | TNone | TAsleep false | TDone => s
  end.
Definition publisher_step (s : engine) : engine * list Event :=
  match publisher s with
  | PTest => (s <| publisher := if publisher_stop s then PDone else PPop |>, [])
  | PPop =>
      match pop (postbox s) with
      | (PopSome e, q) => (s <| postbox := q |> <| publisher := PPublish e |>, [])
      | (PopNone, _) => (s <| publisher := PDone |>, [])
      | (PopWait, _) => (s, [])
      end
  | PPublish e => (s <| publisher := PTest |>, [e])
  | PNone | PDone => (s, [])
  end.
(** The thread in [start] or [stop] is one; a call while it is in [stop] waits. *)
Definition step (l : Label) (s : engine) : engine * list Event :=
  match l with
  | Start ticks => (match stopper s with SIdle => start ticks s | _ => s end, [])
  | StopCall =>
      (match stopper s with SIdle => if running_ s then s <| running_ := false |> <| stopper := SLock |> else s | _ => s end, [])
  | Stop => (stop_step s, [])
  | Ticker => (ticker_step s, [])
  | Timeout => (match ticker s with TAsleep _ => s <| ticker := TRelock true |> | _ => s end, [])
  | Publisher => publisher_step s
  | Post e => (s <| postbox ::= λ q, (push e q).2 |>, [])
  end.
Fixpoint run (ls : list Label) (s : engine) : engine * list Event :=
  match ls with
  | [] => (s, [])
  | l :: ls => let '(s, o1) := step l s in let '(s, o2) := run ls s in (s, o1 ++ o2)
  end.

(** *** Invariant *)

Definition holds_mutex (t : TickPc) : bool := match t with TPred | TUnlock => true | _ => false end.
Definition past_notify (p : StopPc) : bool := match p with SJoin | SStore | SClose | SJoinPublisher => true | _ => false end.
Definition past_join (p : StopPc) : bool := match p with SStore | SClose | SJoinPublisher => true | _ => false end.
Definition past_store (p : StopPc) : bool := match p with SClose | SJoinPublisher => true | _ => false end.

Record engine_ok (s : engine) : Prop := {
  ok_mutex : headless_mu s = if holds_mutex (ticker s) then ByTicker else match stopper s with SUnlock => ByStop | _ => Nobody end;
  ok_excl : holds_mutex (ticker s) = true → stopper s ≠ SUnlock;
  ok_stopping : stopper s ≠ SIdle → running_ s = false;
  ok_awake : past_notify (stopper s) = true → ticker s ≠ TAsleep false;
  ok_joined : past_join (stopper s) = true → ticker s = TNone;
  ok_flag : past_store (stopper s) = true → publisher_stop s = true;
  ok_closed : stopper s = SJoinPublisher → closed_ (postbox s) = true;
  ok_idle : stopper s = SIdle → running_ s = false → publisher s = PNone ∧ ticker s = TNone;
}.

Lemma pop_closed (q : BoundedQueue Event) r q' : pop q = (r, q') → closed_ q' = closed_ q.
Proof. unfold pop, take_front. destruct (bool_decide _ || _); [|by intros [= <- <-]]. destruct (q_ q); by intros [= <- <-]. Qed.
Lemma pop_now (q : BoundedQueue Event) : closed_ q = true → pop q = take_front q.
Proof. intros E. unfold pop. by rewrite E, orb_true_r. Qed.
Lemma postbox_push_closed e (q : BoundedQueue Event) : closed_ (push e q).2 = closed_ q.
Proof. unfold push. destruct (closed_ q) eqn:E; [done|]. case_decide; [|done]. destruct (policy_ q); [|done..]. by destruct (q_ q). Qed.
Lemma push_refused e (q : BoundedQueue Event) : closed_ q = true → (push e q).2 = q.
Proof. intros E. unfold push. by rewrite E. Qed.

Lemma threads_new_ok : engine_ok engine_new.
Proof. by split. Qed.

(** A step of one thread: its program counter is known, the others vary. *)
Ltac fields H := destruct H as [Hm Hx Hs Ha Hj Hf Hc Hi]; cbn in Hm, Hx, Hs, Ha, Hj, Hf, Hc, Hi.
Ltac known :=
  cbn in *; repeat match goal with
  | H : ?x = ?x → _ |- _ => specialize (H eq_refl)
  | H : ?x ≠ ?y → _ |- _ => specialize (H ltac:(discriminate))
  | H : ?A → _, H' : ?A |- _ => specialize (H H')
  | H : _ ∧ _ |- _ => destruct H
  end; try discriminate; try congruence.
Ltac each := known; split; cbn; intros; (done || congruence || auto || (by split; auto) || (by known)).

Lemma start_keeps ticks s : engine_ok s → stopper s = SIdle → engine_ok (start ticks s).
Proof.
  intros H Hp. unfold start. destruct (running_ s) eqn:Er; [done|]. destruct s as [r ps q mu t p pb]. fields H.
  cbn in *. subst. destruct (Hi eq_refl eq_refl) as [-> ->]. cbn in *. subst. destruct ticks; each.
Qed.
Lemma stop_keeps s : engine_ok s → engine_ok (stop_step s).
Proof.
  intros H. destruct s as [r ps q mu t p pb]. fields H. destruct p; cbn.
  - each.
  - destruct (holds_mutex t) eqn:Et; subst mu; split; cbn; rewrite ?Et; intros; auto; done.
  - destruct (holds_mutex t) eqn:Et; [by destruct (Hx eq_refl)|]. split; cbn; rewrite ?Et; intros; auto; done.
  - assert (holds_mutex (notify t) = holds_mutex t) as Ht by by destruct t.
    split; cbn; rewrite ?Ht; intros; auto; try done. by destruct t.
  - destruct t; each.
  - each.
  - each.
  - destruct pb; each.
Qed.
Lemma ticker_keeps s : engine_ok s → engine_ok (ticker_step s).
Proof.
  intros H. destruct s as [r ps q mu t p pb]. fields H.
  destruct t as [| | | | |[]|[]| |]; cbn; try (unfold lock_ticker; cbn; destruct mu); try (destruct r); 
   destruct p; each.
Qed.
Lemma publisher_keeps s : engine_ok s → engine_ok (publisher_step s).1.
Proof.
  intros H. destruct s as [r ps q mu t p pb]. fields H. unfold publisher_step. cbn.
  destruct pb; cbn; [each| | |each|each].
  - destruct ps; each.
  - destruct (pop q) as [[e| |] q'] eqn:E; cbn; [apply pop_closed in E|..]; destruct p; each.
Qed.

Lemma threads_step_ok l s : engine_ok s → engine_ok (step l s).1.
Proof.
  intros H. destruct l as [ticks| | | | | |e]; cbn [step fst].
  - destruct (stopper s) eqn:E; [by apply start_keeps|done..].
  - destruct (stopper s) eqn:Ep; [|exact H..]. destruct (running_ s) eqn:Er; [|exact H].
    destruct s as [r ps q mu t p pb]. fields H. cbn in Ep, Er. subst p r. each.
  - by apply stop_keeps.
  - by apply ticker_keeps.
  - destruct s as [r ps q mu t p pb]. fields H. cbn. destruct t as [| | | | |w| | |]; try (by split). each.
  - by apply publisher_keeps.
  - destruct s as [r ps q mu t p pb]. fields H. split; cbn; rewrite ?postbox_push_closed; auto.
Qed.
Lemma threads_run_cons l ls s : run (l :: ls) s = ((run ls (step l s).1).1, (step l s).2 ++ (run ls (step l s).1).2).
Proof. cbn. destruct (step l s) as [s1 o1]. cbn. by destruct (run ls s1). Qed.
Lemma threads_run_ok ls s : engine_ok s → engine_ok (run ls s).1.
Proof.
  revert s. induction ls as [|l ls IH]; intros s H; [done|]. rewrite threads_run_cons. by apply IH, threads_step_ok.
Qed.

(** *** stop returns *)

(** What is left of a [stop]: its own steps, the ticker's to its return, and
    the publisher's once it has been told. *)
Definition stop_left (p : StopPc) : nat :=
  match p with SIdle => 0 | SLock => 7 | SUnlock => 6 | SNotify => 5 | SJoin => 4 | SStore => 3 | SClose => 2 | SJoinPublisher => 1 end.
Definition ticker_left (t : TickPc) : nat :=
  match t with
  | TNone | TDone => 0 | TTest => 1 | TUnlock => 2 | TPred | TRelock true => 3 | TRelock false | TLock => 4
  | TRender | TAsleep true => 5 | TAsleep false => 6
  end.
Definition publisher_left (told : bool) (p : PubPc) : nat :=
  if told then match p with PNone | PDone => 0 | PTest => 1 | PPublish _ => 2 | PPop => 3 end else 3.
Definition left_to_stop (s : engine) : nat :=
  match stopper s with
  | SIdle => 0
  | p => stop_left p + ticker_left (ticker s) + publisher_left (past_store p) (publisher s)
  end.

Lemma never_more l s : engine_ok s → stopper s ≠ SIdle → left_to_stop (step l s).1 ≤ left_to_stop s.
Proof.
  intros H Hp. pose proof (ok_stopping s H Hp) as Hr. destruct H as [Hm Hx Hs Ha Hj Hf Hc _].
  destruct s as [r ps q mu t p pb]. cbn in *. subst r.
  destruct l as [ticks| | | | | |e]; cbn; unfold left_to_stop; cbn.
  - by destruct p.
  - by destruct p.
  - destruct p; cbn; try (destruct mu); try (destruct t as [| | | | |[]|[]| |]); try (destruct pb); cbn; lia.
  - destruct p; try done; destruct t as [| | | | |[]|[]| |]; cbn; try (unfold lock_ticker; cbn; destruct mu); cbn; lia.
  - destruct p; try done; destruct t as [| | | | |[]|[]| |]; cbn; lia.
  - unfold publisher_step. destruct p; try done; destruct pb; cbn; try (destruct (pop q) as [[e'| |] q']); cbn; try (rewrite (Hf eq_refl)); try destruct ps; cbn; lia.
  - by destruct p.
Qed.

Ltac by_stop := exists Stop; split; [set_solver|cbn; lia].
Ltac by_ticker := exists Ticker; split; [set_solver|cbn; lia].
Lemma playback_less s : engine_ok s → stopper s ≠ SIdle →
  ∃ l, l ∈ [Stop; Ticker; Publisher] ∧ left_to_stop (step l s).1 < left_to_stop s.
Proof.
  intros H Hp. pose proof (ok_stopping s H Hp) as Hr. destruct H as [Hm Hx Hs Ha Hj Hf Hc _].
  destruct s as [r ps q mu t p pb]. cbn in *. subst r. unfold left_to_stop.
  destruct p; cbn; [done|..].
  - destruct t as [| | | | |[]|[]| |]; cbn in Hm; subst mu; (by_stop || by_ticker).
  - by_stop.
  - exists Stop. split; [set_solver|]. destruct t as [| | | | |[]|[]| |]; cbn; lia.
  - destruct t as [| | | | |[]|[]| |]; cbn in Hm; subst mu; try (by_stop || by_ticker). by destruct (Ha eq_refl).
  - exists Stop. split; [set_solver|]. destruct pb; cbn; lia.
  - by_stop.
  - specialize (Hc eq_refl). specialize (Hf eq_refl). subst ps. destruct pb; try by_stop; exists Publisher; (split; [set_solver|]).
    + cbn. lia.
    + cbn [step]. unfold publisher_step. cbn [publisher postbox]. rewrite pop_now by done.
      unfold take_front. destruct (q_ q); cbn; lia.
    + cbn. lia.
Qed.

Lemma threads_run_state ls s : (run ls s).1 = foldl (λ s l, (step l s).1) s ls.
Proof. revert s. induction ls as [|l ls IH]; intros s; [done|]. rewrite threads_run_cons. apply IH. Qed.
Lemma playback_ends s : engine_ok s →
  ∃ ls, Forall (λ l, l ∈ [Stop; Ticker; Publisher]) ls ∧ length ls ≤ left_to_stop s ∧ stopper (run ls s).1 = SIdle.
Proof.
  intros H. setoid_rewrite threads_run_state.
  by apply (ends_within (λ l s, (step l s).1) engine_ok (λ s, stopper s = SIdle) left_to_stop); auto using threads_step_ok, playback_less.
Qed.

(** *** What the publisher still publishes *)

Definition no_start (l : Label) : bool := match l with Start _ => false | _ => true end.
Definition in_hand (s : engine) : list Event := match publisher s with PPublish e => [e] | _ => [] end.
Definition may_publish (s : engine) : nat := match publisher s with PPop | PPublish _ => 1 | _ => 0 end.

Lemma told_step l s : no_start l = true → publisher_stop s = true →
  publisher_stop (step l s).1 = true ∧ length (step l s).2 + may_publish (step l s).1 ≤ may_publish s.
Proof.
  intros Hl Hs. destruct s as [r ps q mu t p pb]. cbn in Hs. subst ps. unfold may_publish.
  destruct l as [ticks| | | | | |e]; try done; cbn.
  - destruct p; [destruct r|..]; by split.
  - destruct p; cbn; try (destruct mu); try (destruct t as [| | | | |[]|[]| |]); try (destruct pb); cbn; split; (done || lia).
  - destruct t as [| | | | |[]|[]| |]; cbn; try (unfold lock_ticker; cbn; destruct mu); try (destruct r); cbn; split; (done || lia).
  - destruct t as [| | | | |[]|[]| |]; cbn; split; (done || lia).
  - unfold publisher_step. destruct pb; cbn; try (destruct (pop q) as [[e'| |] q']); cbn; split; (done || lia).
Qed.

Lemma told_run ls s : forallb no_start ls = true → publisher_stop s = true → length (run ls s).2 ≤ may_publish s.
Proof.
  revert s. induction ls as [|l ls IH]; intros s Hl Hs; [cbn; lia|]. apply andb_true_iff in Hl as [Hl Hls].
  destruct (told_step l s Hl Hs) as [Hs' Hle]. specialize (IH _ Hls Hs').
  rewrite threads_run_cons. cbn [snd]. rewrite length_app. lia.
Qed.

(** A closed postbox gives what it holds and nothing else. *)
Lemma closed_step l s : engine_ok s → closed_ (postbox s) = true →
  closed_ (postbox (step l s).1) = true ∧
  (step l s).2 ++ in_hand (step l s).1 ++ q_ (postbox (step l s).1) `prefix_of` in_hand s ++ q_ (postbox s).
Proof.
  intros H Hc. destruct l as [ticks| | | | | |e]; cbn [step fst snd].
  - destruct (stopper s) eqn:Ep; [|by split..]. unfold start. destruct (running_ s) eqn:Er; [by split|].
    destruct (ok_idle s H Ep Er) as [Hpb _]. split; [done|]. unfold in_hand. by rewrite Hpb.
  - destruct (stopper s); [|by split..]. by destruct (running_ s).
  - destruct s as [r ps q mu t p pb]. cbn in Hc. unfold in_hand.
    destruct p; cbn; try (destruct mu); try (destruct t as [| | | | |[]|[]| |]); try (destruct pb); by split.
  - destruct s as [r ps q mu t p pb]. cbn in Hc. unfold in_hand.
    destruct t as [| | | | |[]|[]| |]; cbn; try (unfold lock_ticker; cbn; destruct mu); try (destruct r); by split.
  - destruct s as [r ps q mu t p pb]. cbn in Hc. by destruct t as [| | | | |[]|[]| |].
  - unfold publisher_step, in_hand. destruct (publisher s) eqn:Ep; cbn.
    + by rewrite Ep.
    + by destruct (publisher_stop s).
    + rewrite pop_now by done. unfold take_front. destruct (q_ (postbox s)) as [|e q] eqn:Eq; cbn; by rewrite ?Eq.
    + by split.
    + by rewrite Ep.
  - destruct s. cbn in Hc |- *. rewrite push_refused by done. by split.
Qed.

Lemma closed_run ls s : engine_ok s → closed_ (postbox s) = true → (run ls s).2 `prefix_of` in_hand s ++ q_ (postbox s).
Proof.
  revert s. induction ls as [|l ls IH]; intros s H Hc; [apply prefix_nil|].
  destruct (closed_step l s H Hc) as [Hc' Hp]. specialize (IH _ (threads_step_ok l s H) Hc').
  rewrite threads_run_cons. cbn [snd]. etrans; [|exact Hp]. by apply prefix_app.
Qed.

Lemma running_kept l s : stopper s ≠ SIdle → running_ (step l s).1 = running_ s.
Proof.
  intros Hp. destruct s as [r ps q mu t p pb]. cbn in Hp. destruct l as [ticks| | | | | |e]; cbn.
  - by destruct p.
  - by destruct p.
  - destruct p; cbn; try (destruct mu); try (destruct t as [| | | | |[]|[]| |]); by destruct pb.
  - destruct t as [| | | | |[]|[]| |]; cbn; try (unfold lock_ticker; cbn; destruct mu); by destruct r.
  - by destruct t as [| | | | |[]|[]| |].
  - unfold publisher_step. destruct pb; cbn; try done. by destruct (pop q) as [[e'| |] q'].
  - done.
Qed.

(** *** Properties *)

Definition reached (ls : list Label) : engine := (run ls engine_new).1.

(** [stop] returns: from every reachable state inside it, at most 17 steps
    of the stopping thread, the ticker and the publisher end it - without the
    ticker's deadline, so within no tick interval - and whatever else happens
    in between (posts, deadlines, further calls) adds nothing to what is left.
    Then no thread is left. *)
Theorem playback_stop_returns ls :
  let s := reached ls in
  stopper s ≠ SIdle →
  left_to_stop s ≤ 17 ∧
  (∃ ks, Forall (λ l, l ∈ [Stop; Ticker; Publisher]) ks ∧ length ks ≤ left_to_stop s ∧ stopper (run ks s).1 = SIdle) ∧
  (∀ l, left_to_stop (step l s).1 ≤ left_to_stop s) ∧
  (∀ l, stopper (step l s).1 = SIdle → publisher (step l s).1 = PNone ∧ ticker (step l s).1 = TNone).
Proof.
  cbn zeta. intros Hp. unfold reached in *. pose proof (threads_run_ok ls _ threads_new_ok) as H. set (s := (run ls engine_new).1) in *.
  split; [|split; [|split]].
  - pose proof (ok_awake s H). pose proof (ok_joined s H). unfold left_to_stop.
    destruct s as [r ps q mu t p pb]. cbn in *. destruct p; try done; destruct t as [| | | | |[]|[]| |]; cbn; try lia; destruct pb; lia.
  - by apply playback_ends.
  - intros l. by apply never_more.
  - intros l Hl. apply (ok_idle _ (threads_step_ok l s H) Hl). by rewrite running_kept, (ok_stopping s H Hp).
Qed.
Lemma playback_stop_returns_witness :
  let ls := [Start true; Ticker; Ticker; Ticker; Ticker; Publisher; StopCall] in
  stopper (reached ls) = SLock ∧ ticker (reached ls) = TAsleep false ∧ left_to_stop (reached ls) ≤ 17.
Proof.
  cbn zeta. split; [reflexivity|]. split; [reflexivity|].
  apply (playback_stop_returns [Start true; Ticker; Ticker; Ticker; Ticker; Publisher; StopCall]). discriminate.
Defined.

(** [C39] What of the finished sentences reaches the bus: once [stop] has told
    the publisher, at most one more event is published until the next start,
    whatever the postbox holds; and once a [stop] has returned, every event
    ever published again, through any further starts, is one the postbox held
    then, in order: an event posted after a restart never is. *)
Theorem stopped_publisher ls ks :
  let s := reached ls in
  (publisher_stop s = true → forallb no_start ks = true → length (run ks s).2 ≤ 1) ∧
  (closed_ (postbox s) = true → stopper s = SIdle → running_ s = false → (run ks s).2 `prefix_of` q_ (postbox s)).
Proof.
  cbn zeta. unfold reached. pose proof (threads_run_ok ls _ threads_new_ok) as H. set (s := (run ls engine_new).1) in *. split.
  - intros Hs Hk. etrans; [by apply told_run|]. unfold may_publish. destruct (publisher s); lia.
  - intros Hc Hp Hr. destruct (ok_idle s H Hp Hr) as [Hpb _].
    pose proof (closed_run ks s H Hc) as Hx. unfold in_hand in Hx. by rewrite Hpb in Hx.
Qed.

(** Two sentences finished when [stop] is called: one is published, the other
    stays; the engine runs again, and neither the new sentence nor any later
    one is announced. *)
Definition finished (n : Z) : Event := PlaybackFinished 1 n.
Definition whole_stop : list Label := StopCall :: replicate 6 Stop ++ concat (replicate 4 [Publisher; Stop]).
Lemma stopped_publisher_witness :
  let ls := [Start false; Publisher; Post (finished 0); Post (finished 1)] ++ whole_stop in
  let ks := [Start false; Publisher; Publisher; Post (finished 2); Publisher; Publisher; Publisher] in
  running_ (run ks (reached ls)).1 = true ∧ q_ (postbox (reached ls)) = [finished 1] ∧
  (run ks (reached ls)).2 `prefix_of` [finished 1].
Proof.
  cbn zeta. split; [vm_compute; reflexivity|]. split; [vm_compute; reflexivity|].
  apply (stopped_publisher ([Start false; Publisher; Post (finished 0); Post (finished 1)] ++ whole_stop)
    [Start false; Publisher; Publisher; Post (finished 2); Publisher; Publisher; Publisher]); vm_compute; reflexivity.
Defined.
End Threads.
