(* ===== verification/Supervisor.v ===== *)
(** * The supervisor (src/src/supervisor/service.hpp, service.cpp,
    supervisor.hpp, supervisor.cpp)

    [Module Monitor] is one service's probe loop: [apply_result] is its only
    change of state and one label of a run is one probe result, with the
    clock. [Module Pipeline] is the evaluator: one label is one evaluation,
    with what the monitors say at that moment. The probe itself (HTTP), the
    waits of the two loops and the logging are left out. Time points and
    durations are nanoseconds. *)
From S2P Require Import Prelude Event.
From S2P Require Import Config.

Inductive ServiceState := NotConfigured | Probing | Healthy | Degraded | Unhealthy.
#[global] Instance ServiceState_eq_dec : EqDecision ServiceState.
Proof. solve_decision. Defined.

Definition service_state_name (s : ServiceState) : string :=
  match s with
  | NotConfigured => "not_configured" | Probing => "probing" | Healthy => "healthy"
  | Degraded => "degraded" | Unhealthy => "unhealthy"
  end.

Definition to_health_state (s : ServiceState) : HealthState :=
  match s with
  | NotConfigured | Probing => HUnknown
  | Healthy => HHealthy
  | Degraded => HDegraded
  | Unhealthy => HUnhealthy
  end.

Definition ms (n : Z) : Z := (n * 1000000)%Z.

Record ServiceConfig := MkService {
  svc_name : str;
  svc_url : str;
  svc_fail_pipeline : bool;
  svc_interval_healthy : Z;
  svc_interval_degraded : Z;
  svc_max_failures : Z;
}.
Definition from_health (name : str) (h : ServiceHealthConfig) : ServiceConfig :=
  MkService name (health_url h) (fail_pipeline_if_down h) (ms (probe_interval_healthy_ms h))
    (ms (probe_interval_degraded_ms h)) (degraded_max_failures h).

Record ProbeResult := MkProbe { ok : bool; http_status : Z; latency : Z; body_excerpt : str }.

Record ServiceSnapshot := MkSnap {
  snap_name : str;
  snap_state : ServiceState;
  snap_last_probe_at : Z;
  snap_last_ok_at : Z;
  snap_consecutive_failures : Z;
  snap_total_probes : Z;
  snap_total_failures : Z;
  snap_http_status : Z;
  snap_error : str;
  snap_latency : Z;
  snap_fail_pipeline : bool;
}.

Module Monitor.

Record monitor := MkMonitor {
  cfg_ : ServiceConfig;
  state_ : ServiceState;
  last_probe_at_ : Z;
  last_ok_at_ : Z;
  consecutive_failures_ : Z;
  total_probes_ : Z;
  total_failures_ : Z;
  last_http_status_ : Z;
  last_error_ : str;
  last_latency_ : Z;
  probe_seq_ : Z;
}.
#[global] Instance eta_monitor : Eta monitor := λ s,
  MkMonitor (cfg_ s) (state_ s) (last_probe_at_ s) (last_ok_at_ s) (consecutive_failures_ s)
    (total_probes_ s) (total_failures_ s) (last_http_status_ s) (last_error_ s) (last_latency_ s) (probe_seq_ s).

Definition monitor_new (cfg : ServiceConfig) : monitor :=
  MkMonitor cfg (if decide (svc_url cfg = []) then NotConfigured else Probing) 0 0 0 0 0 0 [] 0 0.

Definition snapshot (m : monitor) : ServiceSnapshot :=
  MkSnap (svc_name (cfg_ m)) (state_ m) (last_probe_at_ m) (last_ok_at_ m) (consecutive_failures_ m)
    (total_probes_ m) (total_failures_ m) (last_http_status_ m) (last_error_ m) (last_latency_ m)
    (svc_fail_pipeline (cfg_ m)).

Definition current_interval (m : monitor) : Z :=
  if decide (state_ m = Healthy) then svc_interval_healthy (cfg_ m) else svc_interval_degraded (cfg_ m).

Definition publish_if_changed (prev : ServiceState) (m : monitor) : list Event :=
  let next := state_ m in
  if decide (prev = next) then []
  else if decide (to_health_state prev = to_health_state next) then []
  else [HealthChanged (svc_name (cfg_ m)) (to_health_state next) (last_error_ m)].

Definition apply_result (r : ProbeResult) (now : Z) (m : monitor) : monitor * list Event :=
  let prev := state_ m in
  let m := m <| total_probes_ ::= λ n, u64 (n + 1) |> <| last_probe_at_ := now |>
             <| last_http_status_ := http_status r |> <| last_latency_ := latency r |>
             <| last_error_ := body_excerpt r |> in
  let m :=
    if ok r then m <| consecutive_failures_ := 0%Z |> <| last_ok_at_ := now |> <| state_ := Healthy |>
    else
      let m := m <| consecutive_failures_ ::= λ n, u32 (n + 1) |> <| total_failures_ ::= λ n, u64 (n + 1) |> in
      m <| state_ := if decide (svc_max_failures (cfg_ m) ≤ consecutive_failures_ m)%Z
                     then Unhealthy else Degraded |> in
  (m <| probe_seq_ ::= λ n, u64 (n + 1) |>, publish_if_changed prev m).

(** The loop: one result after another. *)
Fixpoint run (rs : list (ProbeResult * Z)) (m : monitor) : monitor * list Event :=
  match rs with
  | [] => (m, [])
  | (r, now) :: rs => let '(m, o1) := apply_result r now m in let '(m, o2) := run rs m in (m, o1 ++ o2)
  end.

(** The state the header documents, from the results alone: the failures
    since the last success. *)
Fixpoint failures (rs : list (ProbeResult * Z)) (n : Z) : Z :=
  match rs with [] => n | (r, _) :: rs => failures rs (if ok r then 0 else n + 1) end.
Definition documented (max : Z) (n : Z) : ServiceState :=
  if decide (n = 0)%Z then Healthy else if decide (n < max)%Z then Degraded else Unhealthy.
(** What [HealthChanged] must report: the changes of the public state. *)
Fixpoint changes (name : str) (max n : Z) (prev : HealthState) (rs : list (ProbeResult * Z)) : list Event :=
  match rs with
  | [] => []
  | (r, _) :: rs =>
      let n := if ok r then 0%Z else (n + 1)%Z in
      let next := to_health_state (documented max n) in
      (if decide (prev = next) then [] else [HealthChanged name next (body_excerpt r)])
        ++ changes name max n next rs
  end.

Lemma failures_nonneg rs n : (0 ≤ n)%Z → (0 ≤ failures rs n)%Z.
Proof. revert n. induction rs as [|[r now] rs IH]; intros n Hn; cbn; [done|]. apply IH. destruct (ok r); lia. Qed.

Lemma publish_spec prev m :
  publish_if_changed prev m =
  if decide (to_health_state prev = to_health_state (state_ m)) then []
  else [HealthChanged (svc_name (cfg_ m)) (to_health_state (state_ m)) (last_error_ m)].
Proof.
  unfold publish_if_changed. destruct (decide (prev = state_ m)) as [->|]; [|done]. by rewrite decide_True.
Qed.

(** One result from a state that agrees with the documentation. *)
Lemma apply_result_spec r now m :
  (0 ≤ consecutive_failures_ m < 2 ^ 32 - 1)%Z → (0 < svc_max_failures (cfg_ m))%Z →
  let '(m', os) := apply_result r now m in
  let n := if ok r then 0%Z else (consecutive_failures_ m + 1)%Z in
  cfg_ m' = cfg_ m ∧ consecutive_failures_ m' = n ∧ state_ m' = documented (svc_max_failures (cfg_ m)) n ∧
  total_probes_ m' = u64 (total_probes_ m + 1) ∧
  os = (if decide (to_health_state (state_ m) = to_health_state (state_ m')) then []
        else [HealthChanged (svc_name (cfg_ m)) (to_health_state (state_ m')) (body_excerpt r)]).
Proof.
  intros Hn Hmax. unfold apply_result, documented. rewrite publish_spec. destruct (ok r); cbn -[to_health_state].
  - done.
  - assert (u32 (consecutive_failures_ m + 1) = (consecutive_failures_ m + 1)%Z) as ->
      by (apply Z.mod_small; lia).
    rewrite (decide_False (P := (consecutive_failures_ m + 1 = 0)%Z)) by lia.
    split_and!; try done. repeat case_decide; done || lia.
Qed.

Lemma mon_run_spec rs m :
  (0 ≤ consecutive_failures_ m)%Z → (consecutive_failures_ m + Z.of_nat (length rs) < 2 ^ 32)%Z →
  (0 < svc_max_failures (cfg_ m))%Z →
  let '(m', os) := run rs m in
  cfg_ m' = cfg_ m ∧ consecutive_failures_ m' = failures rs (consecutive_failures_ m) ∧
  state_ m' = match rs with [] => state_ m
              | _ => documented (svc_max_failures (cfg_ m)) (failures rs (consecutive_failures_ m)) end ∧
  os = changes (svc_name (cfg_ m)) (svc_max_failures (cfg_ m)) (consecutive_failures_ m)
         (to_health_state (state_ m)) rs.
Proof.
  revert m. induction rs as [|[r now] rs IH]; intros m H0 Hn Hmax; [done|]. cbn [run failures changes length] in *.
  pose proof (apply_result_spec r now m ltac:(lia) Hmax) as H.
  destruct (apply_result r now m) as [m1 o1]. cbn zeta in H. destruct H as (E1 & E2 & E3 & _ & E6).
  specialize (IH m1). rewrite E1, E2 in IH.
  specialize (IH ltac:(destruct (ok r); lia) ltac:(destruct (ok r); lia) Hmax).
  destruct (run rs m1) as [m2 o2]. destruct IH as (F1 & F2 & F3 & F5).
  split_and!; try done.
  - rewrite F3. by destruct rs.
  - by rewrite F5, E6, E3.
Qed.
End Monitor.

Module Pipeline.

Inductive PipelineState := Ok | Failed | NoConfiguredCriticalServices.
#[global] Instance PipelineState_eq_dec : EqDecision PipelineState.
Proof. solve_decision. Defined.

Definition pipeline_state_name (s : PipelineState) : string :=
  match s with
  | Ok => "ok" | Failed => "failed" | NoConfiguredCriticalServices => "no_configured_critical_services"
  end.

(** The supervisor: its monitors by name, in the order they were registered,
    and the evaluator's table. *)
Record supervisor := MkSupervisor {
  grace_seconds : Z;
  monitors_ : list Monitor.monitor;
  unhealthy_since_ : list (str * Z);
  pipeline_state_ : PipelineState;
}.
#[global] Instance eta_supervisor : Eta supervisor := λ s,
  MkSupervisor (grace_seconds s) (monitors_ s) (unhealthy_since_ s) (pipeline_state_ s).

Definition supervisor_new (grace : Z) : supervisor :=
  MkSupervisor grace [] [] NoConfiguredCriticalServices.

Definition monitor_name (m : Monitor.monitor) : str := svc_name (Monitor.cfg_ m).

(** [find_if] over the monitors, then a replacement in place or an append. *)
Fixpoint replace_monitor (m : Monitor.monitor) (ms : list Monitor.monitor) : list Monitor.monitor :=
  match ms with
  | [] => [m]
  | m' :: ms => if decide (monitor_name m' = monitor_name m) then m :: ms else m' :: replace_monitor m ms
  end.
Definition register_service (svc : ServiceConfig) (s : supervisor) : supervisor :=
  s <| monitors_ ::= replace_monitor (Monitor.monitor_new svc) |>.

(** [find_if] on the table; [push_back]; [erase] of the entry found. *)
Definition since_of (name : str) (tab : list (str * Z)) : option Z :=
  snd <$> List.find (λ e, bool_decide (e.1 = name)) tab.
Fixpoint erase (name : str) (tab : list (str * Z)) : list (str * Z) :=
  match tab with
  | [] => []
  | e :: tab => if decide (e.1 = name) then tab else e :: erase name tab
  end.

Record Acc := MkAcc { table : list (str * Z); any_critical : bool; any_failed : bool }.

(** The body of the loop of [evaluate_pipeline] for one monitor. *)
Definition evaluate_one (now grace : Z) (a : Acc) (snap : ServiceSnapshot) : Acc :=
  if negb (snap_fail_pipeline snap) then a
  else if decide (snap_state snap = NotConfigured) then a
  else
    let it := since_of (snap_name snap) (table a) in
    if decide (snap_state snap = Unhealthy) then
      let '(tab, since) := match it with
                           | None => (table a ++ [(snap_name snap, now)], now)
                           | Some since => (table a, since)
                           end in
      MkAcc tab true (any_failed a || bool_decide (grace ≤ now - since)%Z)
    else
      MkAcc (match it with Some _ => erase (snap_name snap) (table a) | None => table a end) true (any_failed a).

Definition pipeline_failed_message : str :=
  lit "pipeline failed: critical service unhealthy past grace".

Definition evaluate (now : Z) (snaps : list ServiceSnapshot) (s : supervisor) : supervisor * list Event :=
  let a := foldl (evaluate_one now (ms (1000 * grace_seconds s))) (MkAcc (unhealthy_since_ s) false false) snaps in
  let next := if any_critical a then if any_failed a then Failed else Ok else NoConfiguredCriticalServices in
  (s <| unhealthy_since_ := table a |> <| pipeline_state_ := next |>,
   if decide (pipeline_state_ s ≠ next ∧ next = Failed)
   then [ErrorEvent (lit "supervisor") pipeline_failed_message] else []).

Definition evaluate_pipeline (now : Z) (s : supervisor) : supervisor * list Event :=
  evaluate now (Monitor.snapshot <$> monitors_ s) s.

(** The gate installed in the dialogue manager (dialogue_stack.cpp). *)
Definition pipeline_gate (s : supervisor) : bool := negb (bool_decide (pipeline_state_ s = Failed)).

(** A run of the evaluator, one label per evaluation: the time and what the
    monitors say. *)
Fixpoint run (evs : list (Z * list ServiceSnapshot)) (s : supervisor) : supervisor * list Event :=
  match evs with
  | [] => (s, [])
  | (now, snaps) :: evs => let '(s, o1) := evaluate now snaps s in let '(s, o2) := run evs s in (s, o1 ++ o2)
  end.

(** ** Specification *)

Definition counted (snap : ServiceSnapshot) : Prop :=
  snap_fail_pipeline snap = true ∧ snap_state snap ≠ NotConfigured.
#[global] Instance counted_dec snap : Decision (counted snap).
Proof. unfold counted. apply _. Defined.

(** Since when a service has been seen unhealthy, from its own reports. *)
Definition streak_step (name : str) (now : Z) (snaps : list ServiceSnapshot) (st : option Z) : option Z :=
  match List.find (λ s, bool_decide (snap_name s = name)) snaps with
  | Some snap => if decide (counted snap)
                 then if decide (snap_state snap = Unhealthy) then Some (default now st) else None
                 else st
  | None => st
  end.
Fixpoint streak (name : str) (evs : list (Z * list ServiceSnapshot)) (st : option Z) : option Z :=
  match evs with [] => st | (now, snaps) :: evs => streak name evs (streak_step name now snaps st) end.

(** A service that has been down past the grace window. *)
Definition past_grace (grace now : Z) (since : str → option Z) (snap : ServiceSnapshot) : Prop :=
  counted snap ∧ snap_state snap = Unhealthy ∧ (grace ≤ now - default now (since (snap_name snap)))%Z.
#[global] Instance past_grace_dec grace now since snap : Decision (past_grace grace now since snap).
Proof. unfold past_grace. apply _. Defined.

(** ** Lemmas *)

#[local] Arguments since_of : simpl never.
#[local] Arguments streak_step : simpl never.

Lemma since_cons name n t tab :
  since_of name ((n, t) :: tab) = if decide (n = name) then Some t else since_of name tab.
Proof. apply smap_find_cons. Qed.

Lemma since_none name tab : since_of name tab = None ↔ name ∉ tab.*1.
Proof.
  induction tab as [|[n t] tab IH]; [split; [set_solver|done]|]. rewrite since_cons. cbn.
  case_decide; subst; [split; [done|set_solver]|]. rewrite IH. set_solver.
Qed.

Lemma since_snoc name n t tab :
  since_of name (tab ++ [(n, t)]) =
  match since_of name tab with Some x => Some x | None => if decide (n = name) then Some t else None end.
Proof.
  induction tab as [|[n' t'] tab IH]; [by rewrite app_nil_l, since_cons|]. cbn [app]. rewrite !since_cons, IH.
  by destruct (decide (n' = name)).
Qed.

Lemma erase_names name tab : (erase name tab).*1 `sublist_of` tab.*1.
Proof.
  induction tab as [|[n t] tab IH]; [done|]. cbn [erase fst]. case_decide; cbn; [by apply sublist_cons|by apply sublist_skip].
Qed.

Lemma since_erase name n tab :
  NoDup tab.*1 → since_of name (erase n tab) = if decide (n = name) then None else since_of name tab.
Proof.
  induction tab as [|[n' t] tab IH]; cbn [erase fst]; intros Hn; [by case_decide|]. inversion Hn as [|? ? Hin Hn']; subst.
  destruct (decide (n' = n)) as [->|Hne].
  - rewrite since_cons. case_decide as Hd; [|done]. subst. by apply since_none.
  - rewrite !since_cons, IH by done. repeat case_decide; congruence.
Qed.

(** What one monitor does to the accumulator. *)
Lemma evaluate_one_spec now grace a snap :
  NoDup (table a).*1 →
  let a' := evaluate_one now grace a snap in
  NoDup (table a').*1 ∧
  (∀ name, since_of name (table a') =
     if decide (snap_name snap = name ∧ counted snap) then
       if decide (snap_state snap = Unhealthy) then Some (default now (since_of name (table a))) else None
     else since_of name (table a)) ∧
  any_critical a' = any_critical a || bool_decide (counted snap) ∧
  any_failed a' = any_failed a || bool_decide (past_grace grace now (λ n, since_of n (table a)) snap).
Proof.
  intros Hn. destruct (decide (counted snap)) as [Hc|Hc].
  2: { assert (evaluate_one now grace a snap = a) as ->.
       { unfold evaluate_one. destruct (snap_fail_pipeline snap) eqn:E; [|done]. cbn.
         case_decide; [done|]. by destruct Hc. }
       split; [done|]. split; [intros name; by rewrite decide_False by naive_solver|].
       rewrite !bool_decide_false by (unfold past_grace; naive_solver). by rewrite !orb_false_r. }
  pose proof Hc as [E1 E2]. unfold evaluate_one. rewrite E1. cbn [negb]. rewrite decide_False by done.
  rewrite (bool_decide_true (counted snap)) by done. rewrite orb_true_r.
  destruct (decide (snap_state snap = Unhealthy)) as [U|U].
  - assert (bool_decide (past_grace grace now (λ n, since_of n (table a)) snap)
            = bool_decide (grace ≤ now - default now (since_of (snap_name snap) (table a)))%Z) as ->
      by (apply bool_decide_ext; unfold past_grace; naive_solver).
    destruct (since_of (snap_name snap) (table a)) as [t|] eqn:Es; cbn [table any_critical any_failed default].
    + split; [done|]. split; [|done].
      intros name. case_decide as Hd; [|done]. destruct Hd as [<- _]. by rewrite Es.
    + split. { rewrite fmap_app. apply NoDup_app. split; [done|]. split; [|apply NoDup_singleton].
               intros x Hx. apply since_none in Es. set_solver. }
      split; [|done].
      intros name. rewrite since_snoc. destruct (decide (snap_name snap = name)) as [<-|Hd].
      * rewrite Es. by rewrite decide_True.
      * rewrite decide_False by naive_solver. by destruct (since_of name (table a)).
  - assert (∀ tab', tab' = match since_of (snap_name snap) (table a) with
                           | Some _ => erase (snap_name snap) (table a) | None => table a end →
      NoDup tab'.*1 ∧ ∀ name, since_of name tab' = if decide (snap_name snap = name) then None else since_of name (table a))
      as Htab.
    { intros tab' ->. destruct (since_of (snap_name snap) (table a)) eqn:Es.
      - split; [eapply sublist_NoDup; [done|apply erase_names]|]. intros name. by apply since_erase.
      - split; [done|]. intros name. case_decide; subst; done. }
    destruct (Htab _ eq_refl) as [H1 H2]. cbn [table any_critical any_failed]. split; [done|]. split.
    + intros name. rewrite H2. repeat case_decide; try done; naive_solver.
    + split; [done|]. rewrite bool_decide_false by (unfold past_grace; naive_solver). by rewrite orb_false_r.
Qed.

Lemma evaluate_all now grace snaps a :
  NoDup (table a).*1 → NoDup (snap_name <$> snaps) →
  let a' := foldl (evaluate_one now grace) a snaps in
  NoDup (table a').*1 ∧
  (∀ name, since_of name (table a') = streak_step name now snaps (since_of name (table a))) ∧
  any_critical a' = any_critical a || existsb (λ s, bool_decide (counted s)) snaps ∧
  any_failed a' = any_failed a
    || existsb (λ s, bool_decide (past_grace grace now (λ n, since_of n (table a)) s)) snaps.
Proof.
  revert a. induction snaps as [|snap snaps IH]; intros a Ha Hn; cbn [foldl existsb];
    [by rewrite !orb_false_r|].
  rewrite fmap_cons in Hn. inversion Hn as [|? ? Hin Hn']; subst.
  destruct (evaluate_one_spec now grace a snap Ha) as (H1 & H2 & H3 & H4).
  destruct (IH _ H1 Hn') as (I1 & I2 & I3 & I4). cbn zeta in *.
  split; [done|]. split; [|rewrite I3, I4, H3, H4, !orb_assoc; split; [done|]].
  - intros name. rewrite I2, H2. unfold streak_step. cbn [List.find].
    destruct (decide (snap_name snap = name)) as [<-|Hne].
    + rewrite bool_decide_true by done.
      assert (List.find (λ s, bool_decide (snap_name s = snap_name snap)) snaps = None) as ->.
      { clear -Hin. induction snaps as [|s snaps IH]; [done|]. cbn. rewrite fmap_cons in Hin.
        rewrite bool_decide_false by set_solver. apply IH. set_solver. }
      destruct (decide (counted snap)); [by rewrite decide_True|by rewrite decide_False by naive_solver].
    + rewrite bool_decide_false by done. by rewrite decide_False by naive_solver.
  - f_equal. clear -Hin H2. induction snaps as [|s snaps IH]; [done|]. cbn. rewrite fmap_cons in Hin.
    rewrite IH by set_solver. f_equal. apply bool_decide_ext. unfold past_grace.
    cbv beta. rewrite H2. rewrite decide_False; [done|]. intros [E _]. apply Hin. rewrite E. left.
Qed.

Lemma pipe_run_spec evs s :
  Forall (λ e, NoDup (snap_name <$> e.2)) evs → NoDup (unhealthy_since_ s).*1 →
  let s' := (run evs s).1 in
  grace_seconds s' = grace_seconds s ∧ NoDup (unhealthy_since_ s').*1 ∧
  ∀ name, since_of name (unhealthy_since_ s') = streak name evs (since_of name (unhealthy_since_ s)).
Proof.
  intros Hf. revert s. induction Hf as [|[now snaps] evs Hn _ IH]; intros s Hs; [done|]. cbn [run streak] in *.
  destruct (evaluate_all now (ms (1000 * grace_seconds s)) snaps (MkAcc (unhealthy_since_ s) false false) Hs Hn)
    as (H1 & H2 & _). unfold evaluate. set (a := foldl _ _ _) in *. clearbody a.
  set (s1 := set_field pipeline_state_ _ _). specialize (IH s1 H1).
  destruct (run evs s1) as [s2 o2]. cbn in *. destruct IH as (I1 & I2 & I3). split; [done|]. split; [done|].
  intros name. by rewrite I3, H2.
Qed.

(** Registering keeps the names distinct. *)
Lemma replace_names m mons :
  NoDup (monitor_name <$> mons) →
  NoDup (monitor_name <$> replace_monitor m mons) ∧
  (∀ n, n ∈ monitor_name <$> replace_monitor m mons ↔ n = monitor_name m ∨ n ∈ monitor_name <$> mons).
Proof.
  induction mons as [|m' mons IH]; intros Hn; cbn [replace_monitor].
  - split; [apply NoDup_singleton|]. intros n.
    by rewrite fmap_cons, elem_of_cons.
  - rewrite fmap_cons in Hn. inversion Hn as [|? ? Hin Hn']; subst. case_decide as Hd.
    + rewrite !fmap_cons, Hd in *. split; [by constructor|]. intros n. rewrite !elem_of_cons. tauto.
    + destruct (IH Hn') as [I1 I2]. rewrite !fmap_cons. split.
      * constructor; [|done]. rewrite I2. naive_solver.
      * intros n. rewrite !elem_of_cons, I2. tauto.
Qed.
End Pipeline.

(** ** Properties *)

(** [C17] The state of a service is the documented function of its probes:
    after any sequence of results it is Healthy when the last succeeded, and
    otherwise Degraded or Unhealthy by the failures since the last success;
    [HealthChanged] is published exactly when the public state changes, with
    the detail of the probe that changed it. *)
Theorem monitor_documented cfg rs :
  svc_url cfg ≠ [] → (0 < svc_max_failures cfg)%Z → (Z.of_nat (length rs) < 2 ^ 32)%Z →
  let '(m, os) := Monitor.run rs (Monitor.monitor_new cfg) in
  Monitor.state_ m = match rs with
    | [] => Probing | _ => Monitor.documented (svc_max_failures cfg) (Monitor.failures rs 0) end ∧
  Monitor.consecutive_failures_ m = Monitor.failures rs 0 ∧
  os = Monitor.changes (svc_name cfg) (svc_max_failures cfg) 0 HUnknown rs.
Proof.
  intros Hu Hm Hl. pose proof (Monitor.mon_run_spec rs (Monitor.monitor_new cfg)) as H.
  specialize (H ltac:(done) Hl Hm). destruct (Monitor.run rs _) as [m os].
  destruct H as (_ & H2 & H3 & H4). cbn in *. rewrite decide_False in H3, H4 by done. done.
Qed.

Lemma monitor_documented_witness :
  let cfg := MkService (lit "llm") (lit "http://x/health") true 5000000000 1000000000 3 in
  let good := MkProbe true 200 0 [] in
  let bad := MkProbe false 0 0 (lit "refused") in
  let '(m, os) := Monitor.run ((λ r, (r, 0%Z)) <$> [bad; good; bad; bad; bad; bad]) (Monitor.monitor_new cfg) in
  Monitor.state_ m = Unhealthy ∧
  os = [HealthChanged (lit "llm") HDegraded (lit "refused"); HealthChanged (lit "llm") HHealthy [];
        HealthChanged (lit "llm") HDegraded (lit "refused"); HealthChanged (lit "llm") HUnhealthy (lit "refused")].
Proof.
  intros cfg good bad.
  pose proof (monitor_documented cfg ((λ r, (r, 0%Z)) <$> [bad; good; bad; bad; bad; bad])
    ltac:(discriminate) eq_refl eq_refl) as H.
  destruct (Monitor.run _ _) as [m os]. destruct H as (H1 & _ & H2). split; [exact H1|exact H2].
Defined.

(** The gate closes for exactly the services that stay down. After
    any evaluations, the next one makes the pipeline Failed if and only if
    some critical configured service is Unhealthy in it and has been in
    every evaluation since one at least the grace period ago; services that
    are not critical or not configured never count; and [ErrorEvent] is
    published exactly when the pipeline becomes Failed. *)
Theorem gate_exact grace evs now snaps :
  Forall (λ e, NoDup (snap_name <$> e.2)) evs → NoDup (snap_name <$> snaps) →
  let s := (Pipeline.run evs (Pipeline.supervisor_new grace)).1 in
  let '(s', os) := Pipeline.evaluate now snaps s in
  (Pipeline.pipeline_state_ s' = Pipeline.Failed ↔
     ∃ snap, snap ∈ snaps ∧ Pipeline.counted snap ∧ snap_state snap = Unhealthy ∧
       (grace * 1000000000 ≤ now - default now (Pipeline.streak (snap_name snap) evs None))%Z) ∧
  (Pipeline.pipeline_state_ s' = Pipeline.NoConfiguredCriticalServices ↔
     Forall (λ snap, ¬ Pipeline.counted snap) snaps) ∧
  os = (if decide (Pipeline.pipeline_state_ s ≠ Pipeline.Failed ∧ Pipeline.pipeline_state_ s' = Pipeline.Failed)
        then [ErrorEvent (lit "supervisor") Pipeline.pipeline_failed_message] else []).
Proof.
  intros Hf Hn s. destruct (Pipeline.pipe_run_spec evs (Pipeline.supervisor_new grace) Hf (NoDup_nil_2))
    as (Hg & Hd & Hs). fold s in Hg, Hd, Hs.
  destruct (Pipeline.evaluate_all now (ms (1000 * Pipeline.grace_seconds s)) snaps
    (Pipeline.MkAcc (Pipeline.unhealthy_since_ s) false false) Hd Hn) as (_ & _ & H3 & H4).
  unfold Pipeline.evaluate. set (a := foldl _ _ _) in *. clearbody a. cbn [Pipeline.pipeline_state_ set_field] in *.
  cbn [orb Pipeline.any_critical Pipeline.any_failed Pipeline.table] in H3, H4. rewrite Hg in H4.
  assert (Pipeline.any_failed a = true ↔ ∃ snap, snap ∈ snaps ∧ Pipeline.counted snap ∧
    snap_state snap = Unhealthy ∧
    (grace * 1000000000 ≤ now - default now (Pipeline.streak (snap_name snap) evs None))%Z) as Hfail.
  { rewrite H4, existsb_exists. split.
    - intros (x & Hx & Hp%bool_decide_eq_true). destruct Hp as (P1 & P2 & P3). rewrite Hs in P3.
      exists x. split; [by apply list_elem_of_In|]. split; [done|]. split; [done|]. unfold ms in P3. cbn in P3. lia.
    - intros (x & Hx & P1 & P2 & P3). exists x. split; [by apply list_elem_of_In|]. apply bool_decide_eq_true.
      split; [done|]. split; [done|]. rewrite Hs. unfold ms. cbn. lia. }
  assert (Pipeline.any_critical a = false ↔ Forall (λ snap, ¬ Pipeline.counted snap) snaps) as Hcrit.
  { rewrite H3. clear. induction snaps as [|x snaps IH]; [done|]. cbn. rewrite orb_false_iff, IH, Forall_cons.
    by rewrite bool_decide_eq_false. }
  assert (Pipeline.any_failed a = true → Pipeline.any_critical a = true) as Himp.
  { intros Ht%Hfail. destruct (Pipeline.any_critical a); [done|]. destruct Ht as (x & Hx & Hc & _).
    pose proof (proj1 Hcrit eq_refl) as E. rewrite Forall_forall in E. by destruct (E x Hx). }
  rewrite <- Hfail, <- Hcrit. destruct (Pipeline.any_critical a), (Pipeline.any_failed a);
    cbn in *; try (by specialize (Himp eq_refl)).
  all: split_and!; try (split; congruence).
  all: repeat case_decide; try done; intuition congruence.
Qed.

Lemma gate_exact_witness :
  let snap st := MkSnap (lit "llm") st 0 0 0 0 0 0 [] 0 true in
  let evs := [(0, [snap Unhealthy]); (5000000000, [snap Healthy]); (6000000000, [snap Unhealthy]);
              (30000000000, [snap Unhealthy])]%Z in
  let s := (Pipeline.run evs (Pipeline.supervisor_new 30)).1 in
  Pipeline.pipeline_state_ s = Pipeline.Ok ∧
  Pipeline.pipeline_state_ (Pipeline.evaluate 36000000000 [snap Unhealthy] s).1 = Pipeline.Failed.
Proof.
  intros snap evs s. split; [vm_compute; reflexivity|].
  assert (Hnd : ∀ st, NoDup (snap_name <$> [snap st])) by (intros st; apply NoDup_singleton).
  pose proof (gate_exact 30 evs 36000000000 [snap Unhealthy]) as H.
  specialize (H ltac:(repeat (apply Forall_cons_2; [apply Hnd|]); apply Forall_nil_2) (Hnd _)). cbn zeta in H. fold s in H.
  destruct (Pipeline.evaluate 36000000000 [snap Unhealthy] s) as [s' os]. cbn [fst].
  apply (proj1 H). exists (snap Unhealthy). split; [left|]. split; [split; [reflexivity|discriminate]|].
  split; [reflexivity|]. vm_compute. intro Hx. discriminate Hx.
Defined.
