(* ===== verification/SupervisorThreads.v ===== *)
(** * The supervisor's threads (src/src/supervisor/service.cpp, supervisor.cpp)

    [start] and [stop] of a service monitor and of the supervisor, with their
    loops cut at their shared accesses and waits: the monitor shares its mutex
    with [stop], the evaluator waits on a mutex of its own. What a result and
    an evaluation do is in [Supervisor]. *)
From S2P Require Import Prelude.
From S2P Require Supervisor.

(** ** One monitor *)

Module MonitorThread.

(** At the loop's test, in the probe, at the test after it, with a result to
    apply, at the predicate of the wait (under [mu_]), asleep, returned. *)
Inductive WorkerPc := WNone | WTop | WProbe | WTest | WApply | WPredicate | WAsleep (woken : bool) | WCheck | WDone.
(** [stop]: the flag under the mutex, the notification, the join. *)
Inductive StopPc := SIdle | SFlag | SNotify | SJoin.
#[global] Instance stop_pc_eq_dec : EqDecision StopPc.
Proof. solve_decision. Defined.

Record thread := MkThread { running_ : bool; stopping_ : bool; worker : WorkerPc; stopper : StopPc }.
#[global] Instance eta_thread : Eta thread := λ s, MkThread (running_ s) (stopping_ s) (worker s) (stopper s).
Definition thread_new : thread := MkThread false false WNone SIdle.

(** [dormant]: the service has no health URL. *)
Definition start (dormant : bool) (s : thread) : thread :=
  if dormant then s else if running_ s then s
  else s <| running_ := true |> <| stopping_ := false |> <| worker := WTop |>.
Definition stop_call (s : thread) : thread := if running_ s then s <| running_ := false |> <| stopper := SFlag |> else s.
Definition wake (w : WorkerPc) : WorkerPc := match w with WAsleep _ => WAsleep true | w => w end.
Definition stop_step (s : thread) : thread :=
  match stopper s with
  | SIdle => s
  | SFlag => s <| stopping_ := true |> <| stopper := SNotify |>
  | SNotify => s <| worker ::= wake |> <| stopper := SJoin |>
  | SJoin => match worker s with WNone | WDone => s <| worker := WNone |> <| stopper := SIdle |> | _ => s end
  end.
(** The number: results applied. A probe that throws is a failed result. *)
Definition worker_step (s : thread) : thread * nat :=
  match worker s with
  | WTop => (s <| worker := if running_ s then WProbe else WDone |>, 0)
  | WProbe => (s <| worker := WTest |>, 0)
  | WTest => (s <| worker := if running_ s then WApply else WDone |>, 0)
  | WApply => (s <| worker := WPredicate |>, 1)
  | WPredicate => (s <| worker := if stopping_ s then WCheck else WAsleep false |>, 0)
  | WAsleep true => (s <| worker := WPredicate |>, 0)
  | WCheck => (s <| worker := if stopping_ s then WDone else WTop |>, 0)
  | _ => (s, 0)
  end.

Inductive Label := Start (dormant : bool) | StopCall | Stop | Worker | Timeout.
Definition step (l : Label) (s : thread) : thread * nat :=
  match l with
  | Start d => (match stopper s with SIdle => start d s | _ => s end, 0)
  | StopCall => (match stopper s with SIdle => stop_call s | _ => s end, 0)
  | Stop => (stop_step s, 0)
  | Worker => worker_step s
  | Timeout => (match worker s with WAsleep _ => s <| worker := WCheck |> | _ => s end, 0)
  end.
Fixpoint run (ls : list Label) (s : thread) : thread * nat :=
  match ls with
  | [] => (s, 0)
  | l :: ls => let '(s, n) := step l s in let '(s, m) := run ls s in (s, n + m)
  end.
Definition reached (ls : list Label) : thread := (run ls thread_new).1.

Record thread_ok (s : thread) : Prop := {
  ok_stopping : stopper s ≠ SIdle → running_ s = false;
  ok_flag : stopper s = SNotify ∨ stopper s = SJoin → stopping_ s = true;
  ok_fresh : stopper s = SIdle ∨ stopper s = SFlag → worker s ≠ WNone → stopping_ s = false;
  ok_asleep : worker s = WAsleep false → stopping_ s = true → stopper s = SNotify;
  ok_idle : stopper s = SIdle → running_ s = false → worker s = WNone;
  ok_done : worker s = WDone → stopper s ≠ SIdle;
}.
Ltac fields H := destruct H as [Hr Hf Hn Ha Hi Hd]; cbn in Hr, Hf, Hn, Ha, Hi, Hd.
Ltac each := split; cbn; intros; cbn in *; (done || congruence || solve [intuition congruence] || naive_solver).

Lemma monitor_new_ok : thread_ok thread_new.
Proof. each. Qed.
Lemma monitor_step_ok l s : thread_ok s → thread_ok (step l s).1.
Proof.
  intros H. destruct s as [r st w p]. destruct l as [d| | | |]; cbn.
  - destruct p; try done. destruct d; [done|]. destruct r; [done|]. fields H. each.
  - destruct p; try done. destruct r; [|done]. fields H. each.
  - destruct p; try done; [| |destruct w; try done]; fields H; try destruct w; each.
  - unfold worker_step. cbn. destruct w as [| | | | | |[]| |]; try done; try (destruct r); try (destruct st); fields H; each.
  - destruct w; try done. fields H. each.
Qed.
Lemma monitor_run_cons l ls s : run (l :: ls) s = ((run ls (step l s).1).1, (step l s).2 + (run ls (step l s).1).2).
Proof. cbn. destruct (step l s) as [s1 n]. cbn. by destruct (run ls s1). Qed.
Lemma monitor_run_state ls s : (run ls s).1 = foldl (λ s l, (step l s).1) s ls.
Proof. revert s. induction ls as [|l ls IH]; intros s; [done|]. rewrite monitor_run_cons. apply IH. Qed.
Lemma monitor_reached_ok ls : thread_ok (reached ls).
Proof.
  unfold reached. generalize monitor_new_ok. generalize thread_new.
  induction ls as [|l ls IH]; intros s H; [done|]. rewrite monitor_run_cons. by apply IH, monitor_step_ok.
Qed.

Definition worker_left (w : WorkerPc) : nat :=
  match w with
  | WNone | WDone => 0 | WTop | WTest => 1 | WCheck | WProbe => 2 | WPredicate => 3 | WApply | WAsleep true => 4 | WAsleep false => 5
  end.
Definition left_to_stop (s : thread) : nat :=
  match stopper s with SIdle => 0 | SFlag => 3 + 5 | SNotify => 2 + worker_left (worker s) | SJoin => 1 + worker_left (worker s) end.
Ltac use_step l := exists l; split; [set_solver|cbn; lia].

Lemma monitor_less s : thread_ok s → stopper s ≠ SIdle →
  ∃ l, l ∈ [Stop; Worker] ∧ left_to_stop (step l s).1 < left_to_stop s.
Proof.
  intros H Hne. destruct s as [r st w p]. fields H. cbn in Hne. unfold left_to_stop. specialize (Hr Hne). subst r.
  destruct p; [done| | |].
  - exists Stop. split; [set_solver|]. destruct w as [| | | | | |[]| |]; cbn; lia.
  - exists Stop. split; [set_solver|]. destruct w as [| | | | | |[]| |]; cbn; lia.
  - assert (st = true) as -> by auto. destruct w as [| | | | | |[]| |]; try use_step Stop; try use_step Worker. by specialize (Ha eq_refl eq_refl).
Qed.

Definition may_apply (w : WorkerPc) : nat := match w with WApply => 1 | _ => 0 end.
Definition no_start (l : Label) : bool := match l with Start _ => false | _ => true end.
Lemma stopped_applies ls s : forallb no_start ls = true → running_ s = false → (run ls s).2 ≤ may_apply (worker s).
Proof.
  revert s. induction ls as [|l ls IH]; intros s Hl Hs; [cbn; lia|]. apply andb_true_iff in Hl as [Hl Hls].
  assert (running_ (step l s).1 = false ∧ (step l s).2 + may_apply (worker (step l s).1) ≤ may_apply (worker s)) as [Hs' Hle].
  { destruct s as [r st w p]. cbn in Hs. subst r. destruct l; try done; cbn.
    - by destruct p.
    - destruct p; try (by split); destruct w; by split.
    - unfold worker_step. cbn. destruct w as [| | | | | |[]| |]; try (destruct st); cbn; split; (done || lia).
    - by destruct w. }
  specialize (IH _ Hls Hs'). rewrite monitor_run_cons. cbn [snd]. lia.
Qed.

(** A monitor's [stop] returns without waiting for the probe interval:
    it is ended by at most eight steps of its thread and the worker (one of
    them the end of the probe in progress) and leaves no thread; asleep with
    the stop flag up the worker has a notification coming; and once the
    running flag is down at most one more result is applied until the next
    start, the one already past the test. *)
Theorem monitor_stops ls :
  let s := reached ls in
  (worker s = WAsleep false → stopping_ s = true → stopper s = SNotify) ∧
  (running_ s = false → ∀ ks, forallb no_start ks = true → (run ks s).2 ≤ may_apply (worker s)) ∧
  (stopper s ≠ SIdle → ∃ ks, Forall (λ l, l ∈ [Stop; Worker]) ks ∧ length ks ≤ 8 ∧
     stopper (run ks s).1 = SIdle ∧ left_to_stop (run ks s).1 = 0).
Proof.
  cbn zeta. pose proof (monitor_reached_ok ls) as H. split; [apply H|]. split.
  - intros Hr ks Hk. by apply stopped_applies.
  - intros Hp. setoid_rewrite monitor_run_state.
    destruct (ends_within (λ l s, (step l s).1) thread_ok (λ s, stopper s = SIdle) left_to_stop [Stop; Worker]
      (λ l s, monitor_step_ok l s) monitor_less 8 (reached ls) H) as (ks & Hks & Hlen & Hend).
    + unfold left_to_stop. destruct (stopper (reached ls)), (worker (reached ls)) as [| | | | | |[]| |]; cbn; lia.
    + exists ks. split; [done|]. split; [done|]. split; [done|]. unfold left_to_stop. by rewrite Hend.
Qed.
End MonitorThread.

(** ** The evaluator *)

Module Evaluator.

(** At the test of [running_], at the predicate, between the predicate and
    the wait (the mutex is the loop's own), asleep, clearing the wake flag, at
    the second test, evaluating, returned. *)
Inductive LoopPc := ENone | ETop | EPredicate | EFalling | EAsleep (woken : bool) | EClear | ETest | EEvaluate | EDone.
Inductive StopPc := SIdle | SWake | SNotify | SJoin.
#[global] Instance stop_pc_eq_dec : EqDecision StopPc.
Proof. solve_decision. Defined.

Record evaluator := MkEvaluator { running_ : bool; evaluator_wake_ : bool; loop : LoopPc; stopper : StopPc }.
#[global] Instance eta_evaluator : Eta evaluator := λ s,
  MkEvaluator (running_ s) (evaluator_wake_ s) (loop s) (stopper s).
Definition evaluator_new : evaluator := MkEvaluator false false ENone SIdle.

Definition wake (e : LoopPc) : LoopPc := match e with EAsleep _ => EAsleep true | e => e end.
Definition start (s : evaluator) : evaluator := if running_ s then s else s <| running_ := true |> <| loop := ETop |>.
Definition stop_step (s : evaluator) : evaluator :=
  match stopper s with
  | SIdle => s
  | SWake => s <| evaluator_wake_ := true |> <| stopper := SNotify |>
  | SNotify => s <| loop ::= wake |> <| stopper := SJoin |>
  | SJoin => match loop s with ENone | EDone => s <| loop := ENone |> <| stopper := SIdle |> | _ => s end
  end.
(** The number: evaluations. *)
Definition loop_step (s : evaluator) : evaluator * nat :=
  match loop s with
  | ETop => (s <| loop := if running_ s then EPredicate else EDone |>, 0)
  | EPredicate => (s <| loop := if evaluator_wake_ s || negb (running_ s) then EClear else EFalling |>, 0)
  | EFalling => (s <| loop := EAsleep false |>, 0)
  | EAsleep true => (s <| loop := EPredicate |>, 0)
  | EClear => (s <| evaluator_wake_ := false |> <| loop := ETest |>, 0)
  | ETest => (s <| loop := if running_ s then EEvaluate else EDone |>, 0)
  | EEvaluate => (s <| loop := ETop |>, 1)
  | _ => (s, 0)
  end.

(** [HealthWake] and [HealthNotify]: the handler of [HealthChanged]; [Tick]:
    the second of the wait is over. *)
Inductive Label := Start | StopCall | Stop | Loop | Tick | HealthWake | HealthNotify.
Definition step (l : Label) (s : evaluator) : evaluator * nat :=
  match l with
  | Start => (match stopper s with SIdle => start s | _ => s end, 0)
  | StopCall => (match stopper s with SIdle => if running_ s then s <| running_ := false |> <| stopper := SWake |> else s | _ => s end, 0)
  | Stop => (stop_step s, 0)
  | Loop => loop_step s
  | Tick => (match loop s with EAsleep _ => s <| loop := EClear |> | _ => s end, 0)
  | HealthWake => (s <| evaluator_wake_ := true |>, 0)
  | HealthNotify => (s <| loop ::= wake |>, 0)
  end.
Fixpoint run (ls : list Label) (s : evaluator) : evaluator * nat :=
  match ls with
  | [] => (s, 0)
  | l :: ls => let '(s, n) := step l s in let '(s, m) := run ls s in (s, n + m)
  end.
Definition reached (ls : list Label) : evaluator := (run ls evaluator_new).1.

Definition ev_ok (s : evaluator) : Prop := stopper s ≠ SIdle → running_ s = false.
Lemma ev_step_ok l s : ev_ok s → ev_ok (step l s).1.
Proof.
  unfold ev_ok. destruct s as [r w e p]. intros H. destruct l; cbn in *.
  - destruct p; try done. by destruct r.
  - destruct p; try done. by destruct r.
  - destruct p; [done| | |destruct e]; cbn; intros; (done || by apply H).
  - unfold loop_step. cbn. by destruct e as [| | | |[]| | | |].
  - by destruct e.
  - done.
  - done.
Qed.
Lemma ev_run_cons l ls s : run (l :: ls) s = ((run ls (step l s).1).1, (step l s).2 + (run ls (step l s).1).2).
Proof. cbn. destruct (step l s) as [s1 n]. cbn. by destruct (run ls s1). Qed.
Lemma ev_run_state ls s : (run ls s).1 = foldl (λ s l, (step l s).1) s ls.
Proof. revert s. induction ls as [|l ls IH]; intros s; [done|]. rewrite ev_run_cons. apply IH. Qed.
Lemma ev_reached_ok ls : ev_ok (reached ls).
Proof.
  unfold reached. assert (ev_ok evaluator_new) as H by done. revert H. generalize evaluator_new.
  induction ls as [|l ls IH]; intros s H; [done|]. rewrite ev_run_cons. by apply IH, ev_step_ok.
Qed.

Definition loop_left (e : LoopPc) : nat :=
  match e with
  | ENone | EDone => 0 | ETop | ETest => 1 | EEvaluate | EClear => 2 | EPredicate => 3 | EAsleep true => 4 | EAsleep false => 5 | EFalling => 6
  end.
Definition left_to_stop (s : evaluator) : nat :=
  match stopper s with SIdle => 0 | SWake => 3 + loop_left (loop s) | SNotify => 2 + loop_left (loop s) | SJoin => 1 + loop_left (loop s) end.
Lemma ev_less s : ev_ok s → stopper s ≠ SIdle →
  ∃ l, l ∈ [Stop; Loop; Tick] ∧ left_to_stop (step l s).1 < left_to_stop s.
Proof.
  intros H Hne. specialize (H Hne). destruct s as [r w e p]. cbn in H, Hne. subst r. unfold left_to_stop.
  destruct p; [done| | |].
  - exists Stop. split; [set_solver|]. destruct e as [| | | |[]| | | |]; cbn; lia.
  - exists Stop. split; [set_solver|]. destruct e as [| | | |[]| | | |]; cbn; lia.
  - destruct e as [| | | |[]| | | |]; try (exists Stop; split; [set_solver|cbn; lia]);
      try (exists Loop; split; [set_solver|cbn; rewrite ?orb_true_r; cbn; lia]).
    exists Tick. split; [set_solver|cbn; lia].
Qed.

(** [Supervisor::stop] ends its evaluator in at most nine steps of its
    thread, the loop and the clock of the wait, whatever came before. *)
Theorem evaluator_stops ls :
  let s := reached ls in
  stopper s ≠ SIdle → ∃ ks, Forall (λ l, l ∈ [Stop; Loop; Tick]) ks ∧ length ks ≤ 9 ∧ stopper (run ks s).1 = SIdle.
Proof.
  cbn zeta. intros Hp. setoid_rewrite ev_run_state.
  apply (ends_within (λ l s, (step l s).1) ev_ok (λ s, stopper s = SIdle) left_to_stop [Stop; Loop; Tick] ev_step_ok ev_less 9);
    [apply ev_reached_ok|].
  unfold left_to_stop. destruct (stopper (reached ls)), (loop (reached ls)) as [| | | |[]| | | |]; cbn; lia.
Qed.
Definition lost : list Label := [Start; Loop; Loop; StopCall; Stop; Stop; Loop].
Lemma evaluator_stops_witness :
  stopper (reached lost) ≠ SIdle ∧
  ∃ ks, length ks ≤ 9 ∧ stopper (run ks (reached lost)).1 = SIdle.
Proof.
  assert (stopper (reached lost) ≠ SIdle) as H by discriminate. split; [exact H|].
  destruct (evaluator_stops lost H) as (ks & _ & Hlen & Hend). by exists ks.
Defined.

(** The clock is needed: the flags are set and the notification sent between
    the predicate and the wait, without the mutex, and nobody but the clock
    can move. [stop] then takes up to the second of the tick. *)
Example wakeup_lost :
  loop (reached lost) = EAsleep false ∧ stopper (reached lost) = SJoin ∧
  Forall (λ l, step l (reached lost) = (reached lost, 0)) [Start; StopCall; Stop; Loop].
Proof. split; [done|]. split; [done|]. repeat constructor. Qed.
End Evaluator.

(** ** The supervisor *)

Module Whole.
Inductive Action :=
  | StartMonitor (name : str) | StartEvaluator | Evaluate | StopEvaluator | StopMonitor (name : str) | Unsubscribe.
Record supervisor := MkSupervisor { running_ : bool; monitors_ : list str; health_sub_ : bool }.
#[global] Instance eta_supervisor : Eta supervisor := λ s, MkSupervisor (running_ s) (monitors_ s) (health_sub_ s).
(** The constructor subscribes. *)
Definition supervisor_new : supervisor := MkSupervisor false [] true.
Local Open Scope act_scope.

Fixpoint each (a : str → Action) (ms : list str) : Act supervisor Action unit :=
  match ms with [] => skip | m :: ms => emit (a m);; each a ms end.
Definition register_service (name : str) : Act supervisor Action unit :=
  s ← gets id;
  if decide (name ∈ monitors_ s) then emit (StopMonitor name) else modify (λ s, s <| monitors_ := monitors_ s ++ [name] |>).
Definition start : Act supervisor Action unit :=
  s ← gets id;
  if running_ s then skip else
  modify (λ s, s <| running_ := true |>);; each StartMonitor (monitors_ s);; emit StartEvaluator;; emit Evaluate.
Definition stop : Act supervisor Action unit :=
  s ← gets id;
  if negb (running_ s) then skip else
  modify (λ s, s <| running_ := false |>);; emit StopEvaluator;; each StopMonitor (monitors_ s);;
  when health_sub_ s do (modify (λ s, s <| health_sub_ := false |>);; emit Unsubscribe).

Lemma each_run a ms s : each a ms s = (tt, s, a <$> ms).
Proof.
  induction ms as [|m ms IH]; [done|]. cbn [each]. act_open. by rewrite IH.
Qed.

(** [start] starts every monitor registered so far and then the
    evaluator, [stop] ends the evaluator first, then every monitor, and takes
    the subscription back; both do nothing the second time. A service
    registered while running is never started, and one registered again under
    its name is stopped and not started. *)
Theorem supervisor_life names late :
  late ∉ names →
  let s0 := MkSupervisor false names true in
  let s1 := exec start s0 in
  outs start s0 = (StartMonitor <$> names) ++ [StartEvaluator; Evaluate] ∧ outs start s1 = [] ∧
  outs stop s1 = StopEvaluator :: (StopMonitor <$> names) ++ [Unsubscribe] ∧ outs stop (exec stop s1) = [] ∧
  outs start (exec (register_service late) s1) = [] ∧ outs (register_service late) s1 = [] ∧
  ∀ n, n ∈ names → outs (register_service n) s1 = [StopMonitor n] ∧ outs start (exec (register_service n) s1) = [].
Proof.
  intros Hl. cbn zeta.
  assert (start (MkSupervisor false names true)
          = (tt, MkSupervisor true names true, (StartMonitor <$> names) ++ [StartEvaluator; Evaluate])) as E.
  { unfold start. act_open. cbn. by rewrite each_run. }
  unfold exec, outs. rewrite E. cbn [fst snd]. split; [done|]. split; [done|].
  assert (stop (MkSupervisor true names true)
          = (tt, MkSupervisor false names false, StopEvaluator :: (StopMonitor <$> names) ++ [Unsubscribe])) as E'.
  { unfold stop. act_open. cbn. by rewrite each_run. }
  rewrite E'. cbn [fst snd]. split; [done|]. split; [done|].
  unfold register_service, gets, bind. cbn. rewrite decide_False by done. split; [done|]. split; [done|].
  intros n Hn. by rewrite decide_True by done.
Qed.
Lemma supervisor_life_witness :
  outs stop (exec start (MkSupervisor false [lit "llm"] true)) = [StopEvaluator; StopMonitor (lit "llm"); Unsubscribe].
Proof.
  assert (lit "stt" ∉ [lit "llm"]) as Hl by (rewrite list_elem_of_singleton; discriminate).
  by destruct (supervisor_life _ _ Hl) as (_ & _ & H & _).
Defined.

(** Destroyed without a start it keeps its subscription, whose handler holds a
    pointer to it; started again after a stop it is not told of changes. *)
Example unstarted_stays_subscribed : health_sub_ (exec stop supervisor_new) = true ∧ outs stop supervisor_new = [].
Proof. done. Qed.
Example restarted_deaf : health_sub_ (exec start (exec stop (exec start supervisor_new))) = false.
Proof. done. Qed.
End Whole.
