(* ===== verification/Endpointer.v ===== *)
(** * The endpointer (src/src/audio/endpointer.hpp, endpointer.cpp)

    The state machine that turns the voice-activity probability of each audio
    frame into the start and the end of speech. Time points and durations are
    milliseconds in [Z]; a probability is a float and may be NaN, which is
    neither above nor below any threshold. *)
From S2P Require Import Prelude.

Inductive EndpointerState := Quiet | Onset | Speaking | Endpoint.
#[global] Instance EndpointerState_eq_dec : EqDecision EndpointerState.
Proof. solve_decision. Defined.

Definition endpointer_state_name (s : EndpointerState) : string :=
  match s with Quiet => "quiet" | Onset => "onset" | Speaking => "speaking" | Endpoint => "endpoint" end.

Inductive FrameOutcome := None_ | SpeechStarted | SpeechEnded | FalseStart.
#[global] Instance FrameOutcome_eq_dec : EqDecision FrameOutcome.
Proof. solve_decision. Defined.

Record EndpointerConfig := MkEndpointerConfig {
  onset_threshold : fl;
  offset_threshold : fl;
  min_speech_ms : Z;
  hangover_ms : Z;
  pre_padding_ms : Z;
  post_padding_ms : Z;
}.

Record endpointer := MkEndpointer {
  cfg_ : EndpointerConfig;
  state_ : EndpointerState;
  speech_dur_ : Z;
  quiet_dur_ : Z;
  started_at_ : Z;
  ended_at_ : Z;
  sample_rate_ : Z;
}.
#[global] Instance eta_endpointer : Eta endpointer := λ s,
  MkEndpointer (cfg_ s) (state_ s) (speech_dur_ s) (quiet_dur_ s) (started_at_ s) (ended_at_ s)
    (sample_rate_ s).

Definition endpointer_new (cfg : EndpointerConfig) (sample_rate : Z) : endpointer :=
  MkEndpointer cfg Quiet 0 0 0 0 sample_rate.
Definition reset (s : endpointer) : endpointer :=
  s <| state_ := Quiet |> <| speech_dur_ := 0%Z |> <| quiet_dur_ := 0%Z |>
    <| started_at_ := 0%Z |> <| ended_at_ := 0%Z |>.

Record Frame := MkFrame { prob : fl; dur : Z; time : Z }.

Definition above_onset (c : EndpointerConfig) (f : Frame) : bool := fl_le (onset_threshold c) (prob f).
Definition below_offset (c : EndpointerConfig) (f : Frame) : bool := fl_lt (prob f) (offset_threshold c).

Definition on_frame (f : Frame) (s : endpointer) : FrameOutcome * endpointer :=
  let c := cfg_ s in
  match state_ s with
  | Quiet =>
      if above_onset c f
      then (None_, s <| state_ := Onset |> <| speech_dur_ := dur f |> <| quiet_dur_ := 0%Z |> <| started_at_ := time f |>)
      else (None_, s)
  | Onset =>
      if above_onset c f then
        let s := s <| speech_dur_ ::= λ d, (d + dur f)%Z |> in
        if decide (min_speech_ms c ≤ speech_dur_ s)%Z
        then (SpeechStarted, s <| state_ := Speaking |> <| quiet_dur_ := 0%Z |>)
        else (None_, s)
      else if below_offset c f
      then (FalseStart, s <| state_ := Quiet |> <| speech_dur_ := 0%Z |> <| quiet_dur_ := 0%Z |> <| started_at_ := 0%Z |>)
      else (None_, s)
  | Speaking =>
      if above_onset c f
      then (None_, s <| speech_dur_ ::= λ d, (d + dur f)%Z |> <| quiet_dur_ := 0%Z |>)
      else if below_offset c f
      then (None_, s <| state_ := Endpoint |> <| quiet_dur_ := dur f |> <| ended_at_ := time f |>)
      else (None_, s <| speech_dur_ ::= λ d, (d + dur f)%Z |>)
  | Endpoint =>
      if above_onset c f
      then (None_, s <| state_ := Speaking |> <| speech_dur_ ::= λ d, (d + dur f)%Z |> <| quiet_dur_ := 0%Z |>
                     <| ended_at_ := 0%Z |>)
      else
        let s := s <| quiet_dur_ ::= λ d, (d + dur f)%Z |> in
        if decide (hangover_ms c ≤ quiet_dur_ s)%Z then (SpeechEnded, s <| state_ := Quiet |>) else (None_, s)
  end.

Definition force_endpoint (now : Z) (s : endpointer) : FrameOutcome * endpointer :=
  match state_ s with
  | Speaking | Endpoint => (SpeechEnded, s <| ended_at_ := now |> <| state_ := Quiet |>)
  | Onset => (FalseStart, s <| state_ := Quiet |>)
  | Quiet => (None_, s)
  end.

Inductive Input := InFrame (f : Frame) | InForce (now : Z) | InReset.
Definition step (i : Input) (s : endpointer) : FrameOutcome * endpointer :=
  match i with InFrame f => on_frame f s | InForce now => force_endpoint now s | InReset => (None_, reset s) end.

Fixpoint run (is_ : list Input) (s : endpointer) : list FrameOutcome * endpointer :=
  match is_ with
  | [] => ([], s)
  | i :: is_ => let '(o, s) := step i s in let '(os, s) := run is_ s in (o :: os, s)
  end.

(** ** Specification *)

(** The frames of an input, in order. *)
Definition frames_of (is_ : list Input) : list Frame :=
  omap (λ i, match i with InFrame f => Some f | _ => None end) is_.

Definition total (fs : list Frame) : Z := foldr (λ f z, (dur f + z)%Z) 0%Z fs.

(** A run of frames that starts a word: it opens above the onset threshold,
    never falls below the offset threshold, and the frames above onset last. *)
Record onset_run (c : EndpointerConfig) (start : Z) (heard : Z) (fs : list Frame) : Prop := {
  on_first : ∃ f rest, fs = f :: rest ∧ above_onset c f = true ∧ time f = start;
  on_stays : Forall (λ f, above_onset c f = true ∨ below_offset c f = false) fs;
  on_heard : total (filter (λ f, above_onset c f = true) fs) = heard;
}.
(** A run of frames that ends one: it opens below the offset threshold and
    never rises above the onset threshold. *)
Record quiet_run (c : EndpointerConfig) (end_ : Z) (silent : Z) (fs : list Frame) : Prop := {
  qu_first : ∃ f rest, fs = f :: rest ∧ below_offset c f = true ∧ time f = end_;
  qu_stays : Forall (λ f, above_onset c f = false) fs;
  qu_silent : total fs = silent;
}.

(** What the machine remembers of the frames so far. *)
Definition remembers (s : endpointer) (fs : list Frame) : Prop :=
  match state_ s with
  | Onset => ∃ pre seg, fs = pre ++ seg ∧ onset_run (cfg_ s) (started_at_ s) (speech_dur_ s) seg
  | Endpoint => ∃ pre seg, fs = pre ++ seg ∧ quiet_run (cfg_ s) (ended_at_ s) (quiet_dur_ s) seg
  | _ => True
  end.

(** The outcomes as a protocol: [true] while speech is on. *)
Fixpoint protocol (on : bool) (os : list FrameOutcome) : option bool :=
  match os with
  | [] => Some on
  | None_ :: os => protocol on os
  | SpeechStarted :: os => if on then None else protocol true os
  | SpeechEnded :: os => if on then protocol false os else None
  | FalseStart :: os => if on then None else protocol false os
  end.
Definition speaking (s : EndpointerState) : bool :=
  match s with Speaking | Endpoint => true | _ => false end.

(** ** Lemmas *)

Lemma total_app a b : total (a ++ b) = (total a + total b)%Z.
Proof. induction a as [|f a IH]; [done|]. unfold total in *. cbn. rewrite IH. lia. Qed.

Lemma onset_snoc c st h fs f :
  onset_run c st h fs → above_onset c f = true ∨ below_offset c f = false →
  onset_run c st (h + if above_onset c f then dur f else 0)%Z (fs ++ [f]).
Proof.
  intros [(g & rest & -> & H1 & H2) H3 H4] Hf. split.
  - exists g, (rest ++ [f]). done.
  - apply Forall_app. split; [done|]. by constructor.
  - rewrite filter_app, total_app, H4. rewrite filter_cons, filter_nil.
    destruct (above_onset c f); [rewrite decide_True by done|rewrite decide_False by done]; unfold total; cbn; lia.
Qed.

Lemma quiet_snoc c en q fs f :
  quiet_run c en q fs → above_onset c f = false → quiet_run c en (q + dur f)%Z (fs ++ [f]).
Proof.
  intros [(g & rest & -> & H1 & H2) H3 H4] Hf. split.
  - exists g, (rest ++ [f]). done.
  - apply Forall_app. split; [done|]. by constructor.
  - rewrite total_app, H4. unfold total. cbn. lia.
Qed.

(** One frame: what is remembered stays true, and each boundary reported is
    backed by the frames. *)
Lemma frame_step s fs f :
  remembers s fs →
  let '(o, s') := on_frame f s in
  cfg_ s' = cfg_ s ∧ remembers s' (fs ++ [f]) ∧
  match o with
  | SpeechStarted => ∃ pre seg, fs ++ [f] = pre ++ seg ∧
      onset_run (cfg_ s) (started_at_ s') (speech_dur_ s') seg ∧ (min_speech_ms (cfg_ s) ≤ speech_dur_ s')%Z
  | SpeechEnded => ∃ pre seg, fs ++ [f] = pre ++ seg ∧
      quiet_run (cfg_ s) (ended_at_ s') (quiet_dur_ s') seg ∧ (hangover_ms (cfg_ s) ≤ quiet_dur_ s')%Z
  | _ => True
  end.
Proof.
  unfold remembers, on_frame. intros H. destruct (state_ s) eqn:E.
  - destruct (above_onset (cfg_ s) f) eqn:Ea; cbn; rewrite ?E; [|done].
    split; [done|]. split; [|done]. exists fs, [f]. split; [done|]. split.
    + by exists f, [].
    + constructor; [by left|constructor].
    + rewrite filter_cons, filter_nil, decide_True by done. unfold total. cbn. lia.
  - destruct H as (pre & seg & -> & Hr). destruct (above_onset (cfg_ s) f) eqn:Ea.
    + pose proof (onset_snoc _ _ _ _ f Hr (or_introl Ea)) as Hr'. rewrite Ea in Hr'.
      cbn [speech_dur_ set_field]. case_decide; cbn; rewrite ?E; split_and!; try done.
      * exists pre, (seg ++ [f]). by rewrite app_assoc.
      * exists pre, (seg ++ [f]). by rewrite app_assoc.
    + destruct (below_offset (cfg_ s) f) eqn:Eb; cbn; rewrite ?E; split_and!; try done.
      pose proof (onset_snoc _ _ _ _ f Hr (or_intror Eb)) as Hr'. rewrite Ea, Z.add_0_r in Hr'.
      exists pre, (seg ++ [f]). by rewrite app_assoc.
  - destruct (above_onset (cfg_ s) f) eqn:Ea; [|destruct (below_offset (cfg_ s) f) eqn:Eb];
      cbn; rewrite ?E; split_and!; try done.
    exists fs, [f]. split; [done|]. split; cbn.
    + by exists f, [].
    + by constructor.
    + unfold total. cbn. lia.
  - destruct H as (pre & seg & -> & Hr). destruct (above_onset (cfg_ s) f) eqn:Ea; [cbn; done|].
    pose proof (quiet_snoc _ _ _ _ f Hr Ea) as Hr'. cbn [quiet_dur_ set_field].
    case_decide; cbn; rewrite ?E; split_and!; try done; exists pre, (seg ++ [f]); by rewrite app_assoc.
Qed.

Lemma step_remembers i s fs :
  remembers s fs → remembers (step i s).2 (fs ++ frames_of [i]) ∧ cfg_ (step i s).2 = cfg_ s.
Proof.
  intros H. destruct i as [f|now|]; cbn [step frames_of omap list_omap].
  - pose proof (frame_step s fs f H) as Hf. destruct (on_frame f s) as [o s']. naive_solver.
  - rewrite app_nil_r. unfold force_endpoint, remembers in *. by destruct (state_ s) eqn:E; cbn; rewrite ?E.
  - by rewrite app_nil_r.
Qed.

Lemma run_remembers is_ s fs :
  remembers s fs → remembers (run is_ s).2 (fs ++ frames_of is_) ∧ cfg_ (run is_ s).2 = cfg_ s.
Proof.
  revert s fs. induction is_ as [|i is_ IH]; intros s fs H; [by rewrite app_nil_r|]. cbn [run].
  destruct (step_remembers i s fs H) as [H1 H2]. destruct (step i s) as [o s1].
  destruct (IH s1 _ H1) as [H3 H4]. destruct (run is_ s1) as [os s2]. cbn [fst snd] in *.
  rewrite <- app_assoc in H3. split; [|congruence].
  change (i :: is_) with ([i] ++ is_). unfold frames_of. by rewrite omap_app.
Qed.

(** One input keeps the protocol. *)
Lemma protocol_step i s os :
  protocol (speaking (state_ s)) ((step i s).1 :: os)
  = match i with
    | InReset => protocol (speaking (state_ s)) os
    | _ => protocol (speaking (state_ (step i s).2)) os
    end.
Proof.
  destruct i as [f|now|]; cbn [step].
  - unfold on_frame. destruct (state_ s) eqn:E; cbn; rewrite ?E; repeat case_match; cbn; rewrite ?E; done.
  - unfold force_endpoint. destruct (state_ s) eqn:E; cbn; by rewrite ?E.
  - done.
Qed.

Lemma protocol_run is_ s :
  Forall (λ i, i ≠ InReset) is_ →
  protocol (speaking (state_ s)) (run is_ s).1 = Some (speaking (state_ (run is_ s).2)).
Proof.
  intros H. revert s. induction H as [|i is_ Hi _ IH]; intros s; [done|]. cbn [run].
  pose proof (λ os, protocol_step i s os) as Hp. destruct (step i s) as [o s1].
  specialize (IH s1). destruct (run is_ s1) as [os s2]. cbn [fst snd] in *. rewrite Hp. by destruct i.
Qed.

(** ** Properties *)

(** [C18] Every boundary is backed by the audio. After any frames, forced
    ends and resets, a frame that starts speech closes a run of frames that
    opened above the onset threshold, at the time reported as the start, in
    which no frame fell below the offset threshold and those above onset
    last at least [min_speech_ms]; a frame that ends it closes a run that
    opened below the offset threshold, at the time reported as the end, in
    which no frame rose above onset and which lasts at least the hangover;
    and without resets starts and ends alternate, a false start only in
    silence. *)
Theorem boundaries_backed cfg sr is_ f :
  let '(os, s) := run is_ (endpointer_new cfg sr) in
  let '(o, s') := on_frame f s in
  let fs := frames_of is_ ++ [f] in
  (o = SpeechStarted → ∃ pre seg, fs = pre ++ seg ∧
     onset_run cfg (started_at_ s') (speech_dur_ s') seg ∧ (min_speech_ms cfg ≤ speech_dur_ s')%Z) ∧
  (o = SpeechEnded → ∃ pre seg, fs = pre ++ seg ∧
     quiet_run cfg (ended_at_ s') (quiet_dur_ s') seg ∧ (hangover_ms cfg ≤ quiet_dur_ s')%Z) ∧
  (Forall (λ i, i ≠ InReset) is_ → protocol false (os ++ [o]) = Some (speaking (state_ s'))).
Proof.
  pose proof (run_remembers is_ (endpointer_new cfg sr) [] I) as [Hr Hc].
  pose proof (protocol_run (is_ ++ [InFrame f]) (endpointer_new cfg sr)) as Hp.
  assert (∀ is_ s, run (is_ ++ [InFrame f]) s =
    let '(os, s1) := run is_ s in let '(o, s2) := on_frame f s1 in (os ++ [o], s2)) as Happ.
  { clear. intros is_. induction is_ as [|i is_ IH]; intros s; cbn [run app step].
    - by destruct (on_frame f s).
    - destruct (step i s) as [o s1]. rewrite IH. destruct (run is_ s1) as [os s2].
      by destruct (on_frame f s2). }
  rewrite Happ in Hp. destruct (run is_ (endpointer_new cfg sr)) as [os s]. cbn [fst snd app] in *.
  pose proof (frame_step s (frames_of is_) f Hr) as Hf. destruct (on_frame f s) as [o s'].
  rewrite Hc in Hf. destruct Hf as (_ & _ & Hf). cbn in Hf.
  split; [by intros ->|]. split; [by intros ->|]. intros Hi. apply Hp. apply Forall_app. by repeat constructor.
Qed.
