(* ===== verification/SpscRing.v ===== *)
(** * The capture ring (src/src/audio/spsc_ring.hpp)

    The single-producer single-consumer ring between the audio callback and
    the capture pipeline. [push] and [pop] are cut at every access to shared
    memory (load of the own index, load of the other index, access to the
    slot, store of the own index), and the two threads interleave at these
    steps. The release stores and acquire loads of the indices order the slot
    accesses, so steps are taken in a sequentially consistent order; that the
    two threads never touch one slot at the same time is proved here. *)
From S2P Require Import Prelude.

Section spsc.
Context {T : Type} (Capacity : Z).

Definition kMask : Z := (Capacity - 1)%Z.
Definition capacity : Z := (Capacity - 1)%Z.

(** The static assertions of the class; the capacity is a [std::size_t]. *)
Definition valid_capacity : Prop :=
  (1 < Capacity < 2 ^ 64)%Z ∧ Z.land Capacity (Capacity - 1) = 0%Z.

(** Where each thread is inside its call; the indices it has loaded. *)
Inductive Producer :=
  | PIdle
  | PCall (value : T)
  | PTail (value : T) (tail : Z)
  | PRoom (value : T) (tail next_tail : Z)
  | PStored (value : T) (next_tail : Z).
Inductive Consumer :=
  | CIdle
  | CCall
  | CHead (head : Z)
  | CFull (head : Z)
  | CTaken (head : Z) (out : T).

Record ring := MkRing {
  tail_ : Z;
  head_ : Z;
  slots_ : list T;
  producer : Producer;
  consumer : Consumer;
}.
#[global] Instance eta_ring : Eta ring := λ s,
  MkRing (tail_ s) (head_ s) (slots_ s) (producer s) (consumer s).

Definition ring_new (zero : T) : ring :=
  MkRing 0 0 (replicate (Z.to_nat Capacity) zero) PIdle CIdle.

(** What the calls return. *)
Inductive Out := Pushed (value : T) | Refused (value : T) | Popped (value : T) | Nullopt.

(** One step of [push]. *)
Definition push_step (s : ring) : ring * list Out :=
  match producer s with
  | PIdle => (s, [])
  | PCall v => (s <| producer := PTail v (tail_ s) |>, [])
  | PTail v tail =>
      let next_tail := Z.land (tail + 1) kMask in
      if decide (next_tail = head_ s) then (s <| producer := PIdle |>, [Refused v])
      else (s <| producer := PRoom v tail next_tail |>, [])
  | PRoom v tail next_tail =>
      (s <| slots_ := <[Z.to_nat tail := v]> (slots_ s) |> <| producer := PStored v next_tail |>, [])
  | PStored v next_tail => (s <| tail_ := next_tail |> <| producer := PIdle |>, [Pushed v])
  end.

(** One step of [pop]; a slot out of the array would be undefined. *)
Definition pop_step (s : ring) : option (ring * list Out) :=
  match consumer s with
  | CIdle => Some (s, [])
  | CCall => Some (s <| consumer := CHead (head_ s) |>, [])
  | CHead head =>
      if decide (head = tail_ s) then Some (s <| consumer := CIdle |>, [Nullopt])
      else Some (s <| consumer := CFull head |>, [])
  | CFull head => out ← slots_ s !! Z.to_nat head; Some (s <| consumer := CTaken head out |>, [])
  | CTaken head out =>
      Some (s <| head_ := Z.land (head + 1) kMask |> <| consumer := CIdle |>, [Popped out])
  end.

Inductive Label := Push (value : T) | PushStep | Pop | PopStep.

(** A call starts only when the thread's last one has returned. *)
Definition step (l : Label) (s : ring) : option (ring * list Out) :=
  match l with
  | Push v => match producer s with PIdle => Some (s <| producer := PCall v |>, []) | _ => Some (s, []) end
  | PushStep => Some (push_step s)
  | Pop => match consumer s with CIdle => Some (s <| consumer := CCall |>, []) | _ => Some (s, []) end
  | PopStep => pop_step s
  end.

Fixpoint run (ls : list Label) (s : ring) : option (ring * list Out) :=
  match ls with
  | [] => Some (s, [])
  | l :: ls => '(s1, o1) ← step l s; '(s2, o2) ← run ls s1; Some (s2, o1 ++ o2)
  end.

(** [empty] and [size] load [head_] (the argument [h]) and then [tail_] ([t]):
    steps of both threads may come between the loads. *)
Definition empty (h t : Z) : bool := bool_decide (h = t).
Definition size (h t : Z) : Z := Z.land (u64 (t - h)) kMask.

(** ** Specification *)

Definition pushed (os : list Out) : list T := omap (λ o, match o with Pushed v => Some v | _ => None end) os.
Definition popped (os : list Out) : list T := omap (λ o, match o with Popped v => Some v | _ => None end) os.

(** The values stored between the indices. *)
Definition contents (s : ring) : list T :=
  omap (λ i, slots_ s !! Z.to_nat ((head_ s + Z.of_nat i) mod Capacity))
    (seq 0 (Z.to_nat ((tail_ s - head_ s) mod Capacity))).

(** The slot a thread touches in its next step. *)
Definition producer_slot (s : ring) : option Z :=
  match producer s with PRoom _ tail _ => Some tail | _ => None end.
Definition consumer_slot (s : ring) : option Z :=
  match consumer s with CFull head => Some head | _ => None end.

(** ** Lemmas *)

(** The assertions make the capacity a power of two and the mask its
    remainder. *)
Lemma capacity_pow2 : valid_capacity → Capacity = (2 ^ Z.log2 Capacity)%Z.
Proof.
  intros [[H1 _] H2]. destruct (Z.log2_spec Capacity) as [L1 L2]; [lia|].
  destruct (decide (Capacity = (2 ^ Z.log2 Capacity)%Z)) as [|Hne]; [done|].
  assert (Z.log2 (Capacity - 1) = Z.log2 Capacity) as E.
  { apply Z.log2_unique; [apply Z.log2_nonneg|]. remember (2 ^ Z.log2 Capacity)%Z as p. split; lia. }
  pose proof (Z.bit_log2 Capacity ltac:(lia)) as B1.
  pose proof (Z.bit_log2 (Capacity - 1) ltac:(lia)) as B2. rewrite E in B2.
  apply (f_equal (λ z, Z.testbit z (Z.log2 Capacity))) in H2.
  by rewrite Z.land_spec, B1, B2, Z.bits_0 in H2.
Qed.

Lemma mask_mod z : valid_capacity → Z.land z kMask = (z mod Capacity)%Z.
Proof.
  intros H. pose proof (capacity_pow2 H) as E. unfold kMask. rewrite E.
  rewrite <- (Z.land_ones z) by apply Z.log2_nonneg. by rewrite Z.ones_equiv, Z.sub_1_r.
Qed.

(** Two counters less than a capacity apart have the same slot only when
    they are equal. *)
Lemma mod_near a b :
  (1 < Capacity)%Z → (a ≤ b < a + Capacity)%Z → (a mod Capacity = b mod Capacity)%Z → a = b.
Proof.
  intros Hc Hab E. pose proof (Z.div_mod a Capacity ltac:(lia)). pose proof (Z.div_mod b Capacity ltac:(lia)).
  rewrite E in *. set (p := (a / Capacity)%Z) in *. set (q := (b / Capacity)%Z) in *. clearbody p q.
  assert (p = q) by nia. subst. lia.
Qed.

(** The state, read through the history: the counters are the numbers of
    values pushed and popped. *)
Record ring_inv (P Q : list T) (s : ring) : Prop := {
  inv_prefix : Q = take (length Q) P;
  inv_room : (length Q ≤ length P)%nat ∧ (Z.of_nat (length P) - Z.of_nat (length Q) ≤ Capacity - 1)%Z;
  inv_tail : tail_ s = (Z.of_nat (length P) mod Capacity)%Z;
  inv_head : head_ s = (Z.of_nat (length Q) mod Capacity)%Z;
  inv_slots : Z.of_nat (length (slots_ s)) = Capacity;
  inv_stored : ∀ i v, (length Q ≤ i)%nat → P !! i = Some v →
    slots_ s !! Z.to_nat (Z.of_nat i mod Capacity) = Some v;
  inv_producer : match producer s with
    | PIdle | PCall _ => True
    | PTail _ tail => tail = tail_ s
    | PRoom _ tail next => tail = tail_ s ∧ next = ((Z.of_nat (length P) + 1) mod Capacity)%Z ∧
        (Z.of_nat (length P) - Z.of_nat (length Q) < Capacity - 1)%Z
    | PStored v next => next = ((Z.of_nat (length P) + 1) mod Capacity)%Z ∧
        (Z.of_nat (length P) - Z.of_nat (length Q) < Capacity - 1)%Z ∧
        slots_ s !! Z.to_nat (Z.of_nat (length P) mod Capacity) = Some v
    end;
  inv_consumer : match consumer s with
    | CIdle | CCall => True
    | CHead head => head = head_ s
    | CFull head => head = head_ s ∧ (length Q < length P)%nat
    | CTaken head out => head = head_ s ∧ P !! length Q = Some out
    end;
}.

Lemma mod_succ z : (0 < Capacity)%Z → (((z mod Capacity) + 1) mod Capacity = (z + 1) mod Capacity)%Z.
Proof. intros. by rewrite Zplus_mod_idemp_l. Qed.
Lemma slot_nat z : (1 < Capacity)%Z → (0 ≤ z mod Capacity < Capacity)%Z.
Proof. intros. apply Z.mod_pos_bound. lia. Qed.

(** The slot the producer fills holds none of the queued values. *)
Lemma free_slot (P Q : list T) i :
  (1 < Capacity)%Z → (length Q ≤ i < length P)%nat →
  (Z.of_nat (length P) - Z.of_nat (length Q) < Capacity - 1)%Z →
  Z.to_nat (Z.of_nat i mod Capacity) ≠ Z.to_nat (Z.of_nat (length P) mod Capacity).
Proof.
  intros Hc Hi Hr E. pose proof (slot_nat (Z.of_nat i) Hc). pose proof (slot_nat (Z.of_nat (length P)) Hc).
  assert (Z.of_nat i = Z.of_nat (length P)); [|lia]. apply mod_near; lia.
Qed.

Lemma push_inv P Q s :
  valid_capacity → ring_inv P Q s →
  let '(s', os) := push_step s in
  ring_inv (P ++ pushed os) Q s' ∧ popped os = [] ∧
  (∀ v, os = [Refused v] → (Z.of_nat (length P) - Z.of_nat (length Q) = Capacity - 1)%Z) ∧
  os ≠ [Nullopt].
Proof.
  intros Hv [I1 [I2 I2'] I3 I4 I5 I6 I7 I8]. pose proof (proj1 (proj1 Hv)) as Hc. unfold push_step.
  destruct (producer s) as [|v|v tail|v tail next|v next] eqn:Ep; cbn [pushed popped omap list_omap]; rewrite ?app_nil_r.
  - split; [split; rewrite ?Ep; done|]. done.
  - split; [by split|done].
  - subst tail. rewrite mask_mod, I3, mod_succ by (done || lia). case_decide as Hd; cbn [omap list_omap]; rewrite ?app_nil_r.
    + split; [by split|]. split; [done|]. split; [|done]. intros _ _. rewrite I4 in Hd.
      destruct (decide (Z.of_nat (length P) + 1 - Z.of_nat (length Q) < Capacity)%Z); [|lia].
      symmetry in Hd. apply mod_near in Hd; lia.
    + split; [|done]. split; try done. cbn. split_and!; try done.
      destruct (decide (Z.of_nat (length P) - Z.of_nat (length Q) = Capacity - 1)%Z) as [E|]; [|lia]. destruct Hd.
      rewrite I4. assert (Z.of_nat (length P) + 1 = Z.of_nat (length Q) + 1 * Capacity)%Z as -> by lia. apply Z_mod_plus_full.
  - destruct I7 as (-> & -> & Hr). split; [|done]. split; try done; cbn.
    + by rewrite length_insert.
    + intros i w Hi Hw. rewrite I3, list_lookup_insert_ne; [by apply I6|]. apply lookup_lt_Some in Hw as Hl.
      intros E. symmetry in E. revert E. by apply (free_slot P Q).
    + split_and!; try done. rewrite I3. apply list_lookup_insert_eq. pose proof (slot_nat (Z.of_nat (length P)) Hc). lia.
  - destruct I7 as (-> & Hr & Hs). cbn. split; [|done]. split; cbn; rewrite ?length_app; cbn; try done.
    + rewrite I1 at 1. by rewrite take_app_le by lia.
    + lia.
    + f_equal. lia.
    + intros i w Hi Hw. apply lookup_app_Some in Hw as [Hw|[Hl Hw]]; [by apply I6|].
      apply list_lookup_singleton_Some in Hw as [Hz <-]. by assert (i = length P) as -> by lia.
    + destruct (consumer s); try done; destruct I8 as [-> I8]; split; try done; [lia|].
      by apply lookup_app_l_Some.
Qed.

Lemma pop_inv P Q s :
  valid_capacity → ring_inv P Q s →
  ∃ s' os, pop_step s = Some (s', os) ∧ ring_inv P (Q ++ popped os) s' ∧ pushed os = [] ∧
    (os = [Nullopt] → P = Q) ∧ (∀ v, os ≠ [Refused v]).
Proof.
  intros Hv [I1 [I2 I2'] I3 I4 I5 I6 I7 I8]. pose proof (proj1 (proj1 Hv)) as Hc. unfold pop_step.
  destruct (consumer s) as [| |head|head|head out] eqn:Ec.
  - eexists _, _. split; [done|]. cbn. rewrite app_nil_r. split; [split; rewrite ?Ec; done|done].
  - eexists _, _. split; [done|]. cbn. rewrite app_nil_r. split; [by split|done].
  - subst head. case_decide as Hd; eexists _, _; (split; [done|]); cbn; rewrite app_nil_r; (split; [split; try done|split; try done]).
    + split; [|done]. intros _. rewrite I3, I4 in Hd. apply mod_near in Hd; [|lia|lia].
      rewrite I1. rewrite take_ge; [done|lia].
    + cbn. split; [done|]. destruct (decide (length Q = length P)) as [E|]; [|lia]. destruct Hd. by rewrite I3, I4, E.
  - destruct I8 as [-> Hl]. destruct (lookup_lt_is_Some_2 P (length Q) Hl) as [v Hvv].
    pose proof (I6 _ _ (le_n _) Hvv) as Hs. rewrite <- I4 in Hs. rewrite Hs. cbn.
    eexists _, _. split; [done|]. cbn. rewrite app_nil_r. split; [by split|done].
  - destruct I8 as [-> Hl]. eexists _, _. split; [done|]. cbn.
    pose proof (lookup_lt_Some _ _ _ Hl) as Hlt. rewrite mask_mod by done. split; [|done].
    split; cbn; rewrite ?length_app; cbn; try done.
    + rewrite Nat.add_1_r, (take_S_r _ _ _ Hl). by rewrite <- I1.
    + lia.
    + rewrite I4, mod_succ by lia. f_equal. lia.
    + intros i w Hi Hw. apply I6; [lia|done].
    + destruct (producer s); try done; [destruct I7 as (-> & -> & I7)|destruct I7 as (-> & I7 & I7')]; split_and!; try done; lia.
Qed.

Lemma inv_contents P Q s : (1 < Capacity)%Z → ring_inv P Q s → P = Q ++ contents s.
Proof.
  intros Hc [I1 [I2 I2'] I3 I4 _ I6 _ _]. unfold contents. rewrite I3, I4.
  assert ((Z.of_nat (length P) mod Capacity - Z.of_nat (length Q) mod Capacity) mod Capacity
          = Z.of_nat (length P - length Q))%Z as ->.
  { rewrite <- Zminus_mod, Z.mod_small; lia. }
  rewrite Nat2Z.id. rewrite <- (take_drop (length Q) P) at 1. rewrite <- I1. f_equal.
  assert (∀ n, (n ≤ length P - length Q)%nat →
    omap (λ j, slots_ s !! Z.to_nat ((Z.of_nat (length Q) mod Capacity + Z.of_nat j) mod Capacity)) (seq 0 n)
    = take n (drop (length Q) P)) as Hn.
  { intros n. induction n as [|n IH]; intros Hn; [done|]. rewrite seq_S, omap_app, IH by lia. cbn [omap list_omap].
    destruct (lookup_lt_is_Some_2 P (length Q + n)) as [v Hv]; [lia|].
    rewrite Zplus_mod_idemp_l, <- Nat2Z.inj_add, (I6 _ v) by (done || lia).
    symmetry. apply take_S_r. by rewrite lookup_drop. }
  rewrite Hn by lia. by rewrite take_ge by (rewrite length_drop; lia).
Qed.
Lemma step_inv l P Q s :
  valid_capacity → ring_inv P Q s →
  ∃ s' os, step l s = Some (s', os) ∧ ring_inv (P ++ pushed os) (Q ++ popped os) s' ∧
    (∀ v, os = [Refused v] → (Z.of_nat (length P) - Z.of_nat (length Q) = Capacity - 1)%Z) ∧
    (os = [Nullopt] → P = Q).
Proof.
  intros Hv H. destruct l as [v| | |]; cbn [step].
  - destruct (producer s) eqn:E; (eexists _, _; split; [done|]); cbn; rewrite !app_nil_r; (split; [|done]);
      try done. destruct H. by split.
  - pose proof (push_inv P Q s Hv H) as Hp. destruct (push_step s) as [s' os]. destruct Hp as (H1 & H2 & H3 & H4).
    exists s', os. by rewrite H2, app_nil_r.
  - destruct (consumer s) eqn:E; (eexists _, _; split; [done|]); cbn; rewrite !app_nil_r; (split; [|done]);
      try done. destruct H. by split.
  - destruct (pop_inv P Q s Hv H) as (s' & os & E & H1 & H2 & H3 & H4). exists s', os.
    rewrite H2, app_nil_r. split; [done|]. split; [done|]. split; [|done]. intros v ->. by destruct (H4 v).
Qed.

Lemma run_inv ls P Q s :
  valid_capacity → ring_inv P Q s →
  ∃ s' os, run ls s = Some (s', os) ∧ ring_inv (P ++ pushed os) (Q ++ popped os) s'.
Proof.
  intros Hv. revert P Q s. induction ls as [|l ls IH]; intros P Q s H; cbn [run].
  - exists s, []. cbn. by rewrite !app_nil_r.
  - destruct (step_inv l P Q s Hv H) as (s1 & o1 & -> & H1 & _). destruct (IH _ _ _ H1) as (s2 & o2 & E & H2).
    exists s2, (o1 ++ o2). cbn. rewrite E. split; [done|]. unfold pushed, popped in *.
    by rewrite !omap_app, !app_assoc.
Qed.

Lemma ring_new_inv zero : valid_capacity → ring_inv [] [] (ring_new zero).
Proof.
  intros [[H _] _]. split; cbn; try done.
  - lia.
  - rewrite length_replicate. lia.
Qed.

Lemma size_mod h t : valid_capacity → size h t = ((t - h) mod Capacity)%Z.
Proof.
  intros Hv. unfold size. rewrite mask_mod by done. unfold u64. symmetry. apply Znumtheory.Zmod_div_mod; [destruct Hv; lia|lia|].
  pose proof (capacity_pow2 Hv) as E. rewrite E.
  exists (2 ^ (64 - Z.log2 Capacity))%Z. rewrite <- Z.pow_add_r; [f_equal; lia| |apply Z.log2_nonneg].
  destruct Hv as [Hv _]. pose proof (Z.log2_lt_pow2 Capacity 64 ltac:(lia)). lia.
Qed.

Lemma contents_length P Q s :
  (1 < Capacity)%Z → ring_inv P Q s →
  Z.of_nat (length (contents s)) = (Z.of_nat (length P) - Z.of_nat (length Q))%Z.
Proof. intros Hc H. rewrite (inv_contents P Q s Hc H), length_app. lia. Qed.

(** The head is loaded in [s], the tail in [s']. *)
Lemma size_between P Q s P' Q' s' :
  valid_capacity → ring_inv P Q s → ring_inv (P ++ P') (Q ++ Q') s' →
  size (head_ s) (tail_ s')
    = (Z.of_nat (length (contents s) + length P') mod Capacity)%Z ∧
  (P' = [] → size (head_ s) (tail_ s') = Z.of_nat (length (contents s))) ∧
  (Q' = [] → size (head_ s) (tail_ s') = Z.of_nat (length (contents s'))).
Proof.
  intros Hv H H'. pose proof (proj1 (proj1 Hv)) as Hc.
  pose proof (contents_length _ _ _ Hc H) as L. pose proof (contents_length _ _ _ Hc H') as L'.
  pose proof (inv_room _ _ _ H) as [R1 R2]. pose proof (inv_room _ _ _ H') as [R1' R2'].
  rewrite size_mod by done. rewrite (inv_tail _ _ _ H'), (inv_head _ _ _ H), <- Zminus_mod.
  rewrite !length_app in *. split_and!; [f_equal; lia|..]; intros ->; cbn [length] in *; rewrite Z.mod_small; lia.
Qed.

(** [empty] errs on neither side when the other thread is idle. *)
Lemma empty_between P Q s P' Q' s' :
  valid_capacity → ring_inv P Q s → ring_inv (P ++ P') (Q ++ Q') s' →
  (P' = [] → empty (head_ s) (tail_ s') = bool_decide (contents s = [])) ∧
  (Q' = [] → empty (head_ s) (tail_ s') = bool_decide (contents s' = [])).
Proof.
  intros Hv H H'. destruct (size_between P Q s P' Q' s' Hv H H') as (_ & H1 & H2).
  pose proof (proj1 (proj1 Hv)) as Hc.
  assert ((head_ s = tail_ s') ↔ size (head_ s) (tail_ s') = 0%Z) as He.
  { rewrite size_mod by done. rewrite (inv_tail _ _ _ H'), (inv_head _ _ _ H), <- Zminus_mod.
    rewrite (Zminus_mod (Z.of_nat (length (P ++ P')))).
    pose proof (slot_nat (Z.of_nat (length Q)) Hc). pose proof (slot_nat (Z.of_nat (length (P ++ P'))) Hc).
    set (a := (Z.of_nat (length Q) mod Capacity)%Z) in *. set (b := (Z.of_nat (length (P ++ P')) mod Capacity)%Z) in *.
    split; [intros ->; by rewrite Z.sub_diag, Z.mod_0_l by lia|]. intros Hm. apply Z.mod_divide in Hm; [|lia].
    destruct Hm as [k Hk]. assert (k = 0)%Z by nia. lia. }
  unfold empty. split; intros E; apply bool_decide_ext; rewrite He, <- length_zero_iff_nil;
    [rewrite (H1 E)|rewrite (H2 E)]; lia.
Qed.

(** No data race on a slot. *)
Lemma inv_race P Q s i :
  valid_capacity → ring_inv P Q s → producer_slot s = Some i → consumer_slot s ≠ Some i.
Proof.
  intros [[Hc _] _] [_ [I2 I2'] I3 I4 _ _ I7 I8]. unfold producer_slot, consumer_slot.
  destruct (producer s) as [| | |v tail next|]; try done. destruct (consumer s) as [| | |head|]; try done.
  intros [= <-] [= E]. destruct I7 as (-> & -> & I7), I8 as [-> I8]. rewrite I3, I4 in E. apply mod_near in E; lia.
Qed.
End spsc.

(** ** Properties *)

(** [C19] The ring is a bounded FIFO queue for every interleaving of the
    producer's and the consumer's memory accesses: no access is out of the
    array, the values popped followed by those in the ring are the values
    pushed, at most capacity; a push is refused only while the ring holds that
    many, a pop returns nothing only while it holds none; and the two threads
    never access one slot at the same time. [size], which loads the head and,
    after any steps [ls2] of the two threads, the tail, returns the number of
    values in the ring at the first load plus those pushed since, modulo
    [Capacity]: the exact number at that load when none was pushed in between,
    at the second load when none was popped. *)
Theorem ring_fifo {T} (Capacity : Z) (zero : T) (ls : list (Label (T := T))) :
  valid_capacity Capacity →
  ∃ s os, run Capacity ls (ring_new Capacity zero) = Some (s, os) ∧
    pushed os = popped os ++ contents Capacity s ∧
    (Z.of_nat (length (contents Capacity s)) ≤ capacity Capacity)%Z ∧
    (∀ v s', step Capacity PushStep s = Some (s', [Refused v]) →
       Z.of_nat (length (contents Capacity s)) = capacity Capacity) ∧
    (∀ s', step Capacity PopStep s = Some (s', [Nullopt]) → contents Capacity s = []) ∧
    (∀ i, producer_slot s = Some i → consumer_slot s ≠ Some i) ∧
    (∀ ls2, ∃ s2 os2, run Capacity ls2 s = Some (s2, os2) ∧
       size Capacity (head_ s) (tail_ s2)
         = (Z.of_nat (length (contents Capacity s) + length (pushed os2)) mod Capacity)%Z ∧
       (pushed os2 = [] → size Capacity (head_ s) (tail_ s2) = Z.of_nat (length (contents Capacity s))) ∧
       (popped os2 = [] → size Capacity (head_ s) (tail_ s2) = Z.of_nat (length (contents Capacity s2)))).
Proof.
  intros Hv. destruct (run_inv Capacity ls [] [] _ Hv (ring_new_inv Capacity zero Hv)) as (s & os & E & H).
  exists s, os. split; [done|]. cbn [app] in H. pose proof (inv_contents Capacity _ _ _ (proj1 (proj1 Hv)) H) as HP.
  split; [done|]. pose proof (inv_room _ _ _ _ H) as [R1 R2]. unfold capacity.
  pose proof (contents_length Capacity _ _ _ (proj1 (proj1 Hv)) H) as El.
  rewrite El. split; [lia|]. split; [|split; [|split]].
  - intros v s' Hs. destruct (step_inv Capacity PushStep _ _ _ Hv H) as (s1 & o1 & Hs1 & _ & Hr & _).
    rewrite Hs in Hs1. injection Hs1 as <- <-. by rewrite (Hr v).
  - intros s' Hs. destruct (step_inv Capacity PopStep _ _ _ Hv H) as (s1 & o1 & Hs1 & _ & _ & Hr).
    rewrite Hs in Hs1. injection Hs1 as <- <-. specialize (Hr eq_refl). rewrite HP in Hr at 1.
    by apply (app_inv_head (popped os)); rewrite Hr, app_nil_r.
  - intros i. by apply (inv_race Capacity _ _ _ i Hv H).
  - intros ls2. destruct (run_inv Capacity ls2 _ _ _ Hv H) as (s2 & os2 & E2 & H2). exists s2, os2.
    split; [done|]. rewrite <- El. by apply (size_between Capacity _ _ _ _ _ _ Hv H H2).
Qed.

Lemma ring_fifo_witness :
  ∃ s os, run 4 ([Push 7; PushStep; PushStep; PushStep; PushStep; Push 8; PushStep; Pop; PopStep; PopStep; PushStep;
                  PopStep; PushStep; PopStep]%Z) (ring_new 4 0%Z) = Some (s, os) ∧
    pushed os = popped os ++ contents 4 s.
Proof.
  destruct (ring_fifo 4 0%Z [Push 7; PushStep; PushStep; PushStep; PushStep; Push 8; PushStep; Pop; PopStep; PopStep;
    PushStep; PopStep; PushStep; PopStep]%Z) as (s & os & E & H & _); [done|]. by exists s, os.
Defined.

(** The comment of [size] allows it to be off by one. It can be off by the
    whole ring: the head of a full ring is loaded, a value is popped and
    another pushed, and [size] answers 0 for a ring that is full at both
    loads. *)
Example size_off_by_capacity :
  let push v := [Push v; PushStep; PushStep; PushStep; PushStep] in
  let pop := [Pop; PopStep; PopStep; PopStep; PopStep] in
  match run 4 (push 1 ++ push 2 ++ push 3)%Z (ring_new 4 0%Z) with
  | Some (s, _) =>
      match run 4 (pop ++ push 4%Z) s with
      | Some (s2, _) => contents 4 s = [1; 2; 3]%Z ∧ contents 4 s2 = [2; 3; 4]%Z ∧ size 4 (head_ s) (tail_ s2) = 0%Z
      | None => False
      end
  | None => False
  end.
Proof. vm_compute. auto. Qed.
