(* ===== verification/Loopback.v ===== *)
(** * The loopback ring (src/src/audio/loopback.hpp, loopback.cpp)

    The echo canceller's reference: the samples the playback engine has just
    emitted, in a ring, and their alignment with an instant of capture. Time
    points are nanoseconds and 0 is the epoch [time_point{}] the code uses as
    a mark; each method is one critical section. The int64 products of
    [aligned] are taken in [Z]: at 48 kHz they overflow when the two instants
    are more than two days apart. *)
From S2P Require Import Prelude.

Record sink := MkSink {
  sample_rate_hz_ : Z;
  ring_ : list Z;
  write_pos_ : nat;
  total_frames_ : Z;
  last_emit_time_ : Z;
  last_emit_first_frame_ : Z;
}.
#[global] Instance eta_sink : Eta sink := λ s,
  MkSink (sample_rate_hz_ s) (ring_ s) (write_pos_ s) (total_frames_ s) (last_emit_time_ s)
    (last_emit_first_frame_ s).

Definition sink_new (capacity_samples : nat) (sample_rate_hz : Z) : sink :=
  MkSink sample_rate_hz (replicate (if decide (0 < capacity_samples) then capacity_samples else 1) 0%Z) 0 0 0 0.

(** [memcpy] of [n] samples from [src + from] to [ring + at_]. *)
Definition memcpy (at_ : nat) (src : list Z) (from n : nat) (ring : list Z) : list Z :=
  list_inserts at_ (take n (drop from src)) ring.

Definition on_emitted (samples : list Z) (emit_time : Z) (s : sink) : sink :=
  match samples with
  | [] => s
  | _ =>
      let cap := length (ring_ s) in
      let n := length samples in
      let to_copy := Nat.min n cap in
      let skipped := n - to_copy in
      let first := cap - write_pos_ s in
      s <| ring_ ::= λ ring,
             if decide (to_copy ≤ cap - write_pos_ s) then memcpy (write_pos_ s) samples skipped to_copy ring
             else memcpy 0 samples (skipped + first) (to_copy - first)
                    (memcpy (write_pos_ s) samples skipped first ring) |>
        <| write_pos_ ::= λ p, (p + to_copy) mod cap |>
        <| last_emit_first_frame_ := u64 (total_frames_ s + Z.of_nat skipped) |>
        <| total_frames_ ::= λ t, u64 (t + Z.of_nat n) |>
        <| last_emit_time_ := emit_time |>
  end.

(** [static_cast<std::int64_t>]. *)
Definition i64 (z : Z) : Z := ((z + 2 ^ 63) mod 2 ^ 64 - 2 ^ 63)%Z.

(** The distance in frames, rounded to the nearest; C++ division truncates. *)
Definition delta_frames (sr delta_ns : Z) : Z :=
  if decide (0 ≤ delta_ns)%Z then Z.quot (delta_ns * sr + 500000000) 1000000000
  else Z.quot (delta_ns * sr - 500000000) 1000000000.

Definition sample_at (s : sink) (f : Z) : Z :=
  let cap := length (ring_ s) in
  let oldest_frame := (i64 (total_frames_ s) - i64 (Z.min (Z.of_nat cap) (total_frames_ s)))%Z in
  let newest_frame := i64 (total_frames_ s) in
  if decide (f < oldest_frame ∨ newest_frame ≤ f)%Z then 0%Z
  else
    let back := Z.to_nat (newest_frame - f) in
    let slot := (write_pos_ s + cap - back) mod cap in
    default 0%Z (ring_ s !! slot).

Definition aligned (capture_time : Z) (samples_needed : nat) (s : sink) : list Z :=
  if decide (last_emit_time_ s = 0)%Z then replicate samples_needed 0%Z
  else
    let first_target_frame :=
      (i64 (last_emit_first_frame_ s) + delta_frames (sample_rate_hz_ s) (capture_time - last_emit_time_ s))%Z in
    (λ i, sample_at s (first_target_frame + Z.of_nat i)) <$> seq 0 samples_needed.

Definition total_frames_emitted (s : sink) : Z := total_frames_ s.
Definition has_data (s : sink) : bool := bool_decide (0 < total_frames_ s)%Z.
Definition clear (s : sink) : sink :=
  s <| ring_ ::= λ r, replicate (length r) 0%Z |> <| write_pos_ := 0 |> <| total_frames_ := 0%Z |>
    <| last_emit_first_frame_ := 0%Z |> <| last_emit_time_ := 0%Z |>.

Fixpoint emit_all (ems : list (list Z * Z)) (s : sink) : sink :=
  match ems with [] => s | (x, t) :: ems => emit_all ems (on_emitted x t s) end.

(** ** Lemmas *)

#[local] Arguments Nat.modulo : simpl never.
#[local] Arguments memcpy : simpl never.

Lemma mod_once a c : c ≠ 0 → a < c + c → a mod c = if decide (a < c) then a else a - c.
Proof.
  intros Hc Ha. case_decide; [by apply Nat.mod_small|].
  replace a with (a - c + 1 * c) at 1 by lia. rewrite Nat.Div0.mod_add. apply Nat.mod_small. lia.
Qed.

Lemma memcpy_length at_ src from n ring : length (memcpy at_ src from n ring) = length ring.
Proof. unfold memcpy. apply length_inserts. Qed.

Lemma memcpy_lookup at_ src from n ring i :
  from + n ≤ length src → at_ + n ≤ length ring →
  memcpy at_ src from n ring !! i = if decide (at_ ≤ i < at_ + n) then src !! (from + (i - at_)) else ring !! i.
Proof.
  intros H1 H2. unfold memcpy.
  assert (length (take n (drop from src)) = n) as El by (rewrite length_take, length_drop; lia).
  case_decide.
  - rewrite list_lookup_inserts by (rewrite ?El; lia). rewrite lookup_take_lt by lia. by rewrite lookup_drop.
  - destruct (decide (i < at_)); [by apply list_lookup_inserts_lt|]. apply list_lookup_inserts_ge. rewrite El. lia.
Qed.

(** The wrapped copy of [on_emitted], slot by slot from the write position. *)
Lemma wrapped_copy ring wp samples j :
  let cap := length ring in
  let to_copy := Nat.min (length samples) cap in
  let skipped := length samples - to_copy in
  wp < cap → j < cap →
  (if decide (to_copy ≤ cap - wp) then memcpy wp samples skipped to_copy ring
   else memcpy 0 samples (skipped + (cap - wp)) (to_copy - (cap - wp)) (memcpy wp samples skipped (cap - wp) ring))
    !! ((wp + j) mod cap)
  = if decide (j < to_copy) then samples !! (skipped + j) else ring !! ((wp + j) mod cap).
Proof.
  intros cap to_copy skipped Hwp Hj. rewrite mod_once by lia.
  destruct (decide (to_copy ≤ cap - wp)).
  - rewrite memcpy_lookup by (subst cap; lia). repeat case_decide; try lia; try done. f_equal. lia.
  - rewrite memcpy_lookup by (rewrite ?memcpy_length; lia). rewrite memcpy_lookup by (fold cap; lia).
    repeat case_decide; try lia; try done; f_equal; lia.
Qed.

(** The ring holds the last samples emitted, counted back from the write
    position. *)
Record sink_inv (all : list Z) (s : sink) : Prop := {
  si_cap : 0 < length (ring_ s);
  si_pos : write_pos_ s < length (ring_ s);
  si_total : total_frames_ s = Z.of_nat (length all);
  si_held : ∀ k, 0 < k ≤ Nat.min (length (ring_ s)) (length all) →
    ring_ s !! ((write_pos_ s + length (ring_ s) - k) mod length (ring_ s)) = all !! (length all - k);
}.

Lemma on_emitted_fields x t s :
  x ≠ [] →
  let s' := on_emitted x t s in
  let cap := length (ring_ s) in
  let to_copy := Nat.min (length x) cap in
  let skipped := length x - to_copy in
  ring_ s' = (if decide (to_copy ≤ cap - write_pos_ s) then memcpy (write_pos_ s) x skipped to_copy (ring_ s)
     else memcpy 0 x (skipped + (cap - write_pos_ s)) (to_copy - (cap - write_pos_ s))
            (memcpy (write_pos_ s) x skipped (cap - write_pos_ s) (ring_ s))) ∧
  write_pos_ s' = (write_pos_ s + to_copy) mod cap ∧ total_frames_ s' = u64 (total_frames_ s + Z.of_nat (length x)) ∧
  last_emit_time_ s' = t ∧ last_emit_first_frame_ s' = u64 (total_frames_ s + Z.of_nat skipped) ∧
  sample_rate_hz_ s' = sample_rate_hz_ s.
Proof. destruct x; [done|]. intros _. by split_and!. Qed.

Lemma on_emitted_inv all s x t :
  sink_inv all s → (Z.of_nat (length all + length x) < 2 ^ 63)%Z →
  let s' := on_emitted x t s in
  sink_inv (all ++ x) s' ∧ length (ring_ s') = length (ring_ s) ∧ sample_rate_hz_ s' = sample_rate_hz_ s ∧
  (x ≠ [] → last_emit_time_ s' = t ∧
     last_emit_first_frame_ s' = Z.of_nat (length all + (length x - Nat.min (length x) (length (ring_ s))))).
Proof.
  intros [I1 I2 I3 I4] Hlen. destruct (decide (x = [])) as [->|Hx]; [rewrite app_nil_r; by split_and!|].
  destruct (on_emitted_fields x t s Hx) as (F1 & F2 & F3 & F4 & F5 & F6). cbn zeta in *.
  set (s' := on_emitted x t s) in *. clearbody s'.
  set (cap := length (ring_ s)) in *. set (to_copy := Nat.min (length x) cap) in *.
  assert (length (ring_ s') = cap) as El by (rewrite F1; case_decide; by rewrite !memcpy_length).
  split; [|split_and!; try done; intros _; rewrite F4, F5, I3; split; [done|]; unfold u64; rewrite Z.mod_small; lia].
  split; rewrite ?El, ?F2, ?F3; [lia| |rewrite I3, length_app; unfold u64; rewrite Z.mod_small; lia|].
  { apply Nat.mod_upper_bound. lia. }
  intros k Hk. assert (to_copy ≤ length x ∧ to_copy ≤ cap) as [Ht1 Ht2] by (unfold to_copy; lia).
  rewrite length_app in *. pose proof (wrapped_copy (ring_ s) (write_pos_ s) x) as Hc.
  fold cap in Hc. cbn zeta in Hc. fold to_copy in Hc. rewrite <- F1 in Hc. clear F1.
  assert (((write_pos_ s + to_copy) mod cap + cap - k) mod cap
          = (write_pos_ s + if decide (k ≤ to_copy) then to_copy - k else to_copy + cap - k) mod cap) as ->.
  { rewrite (mod_once (write_pos_ s + to_copy)) by lia. rewrite !mod_once by (repeat case_decide; lia).
    repeat case_decide; lia. }
  rewrite Hc by (repeat case_decide; lia). destruct (decide (k ≤ to_copy)); case_decide; try lia.
  - rewrite lookup_app_r by lia. f_equal. lia.
  - pose proof (I4 (k - to_copy) ltac:(lia)) as Hk'. rewrite lookup_app_l by lia.
    replace (length all + length x - k) with (length all - (k - to_copy)) by lia. rewrite <- Hk'. f_equal. f_equal. lia.
Qed.

Lemma emit_all_inv ems all s :
  sink_inv all s → (Z.of_nat (length all + length (concat ems.*1)) < 2 ^ 63)%Z →
  sink_inv (all ++ concat ems.*1) (emit_all ems s) ∧
  length (ring_ (emit_all ems s)) = length (ring_ s) ∧ sample_rate_hz_ (emit_all ems s) = sample_rate_hz_ s.
Proof.
  revert all s. induction ems as [|[x t] ems IH]; intros all s H Hl; [cbn; by rewrite app_nil_r|].
  rewrite fmap_cons in *. cbn [concat fst emit_all] in *. rewrite length_app in Hl.
  destruct (on_emitted_inv all s x t H) as (H1 & H2 & H3 & _); [lia|].
  destruct (IH _ _ H1) as (G1 & G2 & G3); [rewrite length_app; lia|].
  rewrite <- app_assoc in G1. split; [done|]. split; congruence.
Qed.

Lemma sink_new_inv cap sr : sink_inv [] (sink_new cap sr).
Proof.
  split; cbn; rewrite ?length_replicate; try done; try (case_decide; lia).
Qed.

Lemma emit_all_app a b s : emit_all (a ++ b) s = emit_all b (emit_all a s).
Proof. revert s. induction a as [|[x t] a IH]; intros s; [done|]. apply IH. Qed.

Lemma i64_small n : (0 ≤ n < 2 ^ 63)%Z → i64 n = n.
Proof. intros H. unfold i64. rewrite Z.mod_small; lia. Qed.

(** The sample of a frame that is still held, and silence for the others. *)
Lemma sample_at_spec all s f :
  sink_inv all s → (Z.of_nat (length all) < 2 ^ 63)%Z →
  sample_at s f =
  if decide (Z.of_nat (length all) - Z.of_nat (Nat.min (length (ring_ s)) (length all)) ≤ f < Z.of_nat (length all))%Z
  then default 0%Z (all !! Z.to_nat f) else 0%Z.
Proof.
  intros [I1 I2 I3 I4] Hl. unfold sample_at. rewrite I3.
  rewrite !i64_small by lia. repeat case_decide; try lia; try done.
  rewrite I4 by lia. f_equal. f_equal. lia.
Qed.

(** ** Properties *)

(** The echo reference. After any chunks, the last of them emitted at
    [t0], the samples returned for the instant [t] are those whose frame lies
    at the rounded distance of [t] from [t0] and after it, for the frames the
    ring still holds, which are the last ones up to its capacity, and zero
    for the frames not yet emitted or aged out. *)
Theorem aligned_exact cap sr ems x t0 t n :
  x ≠ [] → t0 ≠ 0%Z → (Z.of_nat (length (concat ems.*1 ++ x)) < 2 ^ 63)%Z → 0 < cap →
  let all := concat ems.*1 ++ x in
  let first := (Z.of_nat (length all - Nat.min (length x) cap) + delta_frames sr (t - t0))%Z in
  aligned t n (emit_all (ems ++ [(x, t0)]) (sink_new cap sr)) =
  (λ i, let f := (first + Z.of_nat i)%Z in
        if decide (Z.of_nat (length all - Nat.min cap (length all)) ≤ f < Z.of_nat (length all))%Z
        then default 0%Z (all !! Z.to_nat f) else 0%Z) <$> seq 0 n.
Proof.
  intros Hx Ht Hl Hcap all first. rewrite emit_all_app. cbn [emit_all]. rewrite length_app in Hl.
  destruct (emit_all_inv ems [] _ (sink_new_inv cap sr)) as (H1 & H2 & H3); [cbn; lia|].
  destruct (on_emitted_inv _ _ x t0 H1) as (G1 & G2 & G3 & G4); [cbn; lia|].
  destruct (G4 Hx) as [E1 E2]. cbn [app] in *.
  assert (length (ring_ (sink_new cap sr)) = cap) as Ec by (cbn; rewrite length_replicate; case_decide; lia).
  unfold aligned. rewrite E1, decide_False by done. rewrite E2, G3, H3, H2, Ec, i64_small by lia.
  apply list_fmap_ext. intros i y Hy. apply lookup_seq in Hy as [-> _]. cbn zeta.
  rewrite (sample_at_spec all) by (try done; unfold all; rewrite length_app; lia). rewrite G2, H2, Ec.
  cbn [sample_rate_hz_ sink_new]. unfold first, all. rewrite length_app.
  replace (length (concat ems.*1) + length x - Nat.min (length x) cap)
    with (length (concat ems.*1) + (length x - Nat.min (length x) cap)) by lia.
  repeat case_decide; try lia; done.
Qed.

Lemma aligned_exact_witness :
  let s := emit_all [([1; 2; 3], 1000000000); ([4; 5; 6], 1003000000)]%Z (sink_new 4 1000) in
  aligned 1002000000 4 s = [3; 4; 5; 6]%Z ∧ aligned 1004600000 3 s = [6; 0; 0]%Z.
Proof.
  intros s. split.
  - pose proof (aligned_exact 4 1000 [([1; 2; 3], 1000000000)]%Z [4; 5; 6]%Z 1003000000 1002000000 4
      ltac:(discriminate) ltac:(discriminate) ltac:(vm_compute; reflexivity) ltac:(lia)) as H. exact H.
  - vm_compute. reflexivity.
Defined.

(** A chunk longer than the ring is shifted: its first held sample, which is
    played after the ones skipped, is returned for the instant of the first. *)
Example oversize_chunk_shifts :
  aligned 1000000000 2 (emit_all [([1; 2; 3; 4; 5; 6], 1000000000)]%Z (sink_new 4 1000)) = [3; 4]%Z.
Proof. vm_compute. reflexivity. Qed.
