(* ===== verification/Capture.v ===== *)
(** * Capture (src/src/audio/half_duplex_gate.hpp, clock.hpp, clock.cpp,
      frame.hpp, capture.hpp, capture.cpp)

    The audio callback: the half-duplex gate, the sample clock, and the
    hand-over of a frame to the ring; and the wiring of the gate to the
    dialogue state machine (src/src/orchestrator/capture_stack.cpp). Time
    points are nanoseconds of the steady clock. Opening the device and the
    PortAudio thread are not modelled. *)
From S2P Require Import Prelude Event Turn Fsm SpscRing.

(** ** The half-duplex gate *)
Module Gate.

Record gate := MkGate {
  speaking_ : bool;
  in_hangover_ : bool;
  ended_at_ : Z;
  hangover_ : Z;          (** milliseconds *)
}.
#[global] Instance eta_gate : Eta gate := λ s,
  MkGate (speaking_ s) (in_hangover_ s) (ended_at_ s) (hangover_ s).

Definition gate_new (hangover : Z) : gate := MkGate false false 0 hangover.

(** [set_speaking] is its atomic operations: the exchange and then, by the
    edge, the stores. [op_step] is one of them, at the time [now], with the
    operations it leads to. *)
Inductive Op := Exchange (active : bool) | StoreEnded | StoreHangover (b : bool).

Definition set_speaking (active : bool) : list Op := [Exchange active].

Definition op_step (now : Z) (o : Op) (g : gate) : gate * list Op :=
  match o with
  | Exchange active =>
      (g <| speaking_ := active |>,
       if speaking_ g && negb active then [StoreEnded; StoreHangover true]
       else if negb (speaking_ g) && active then [StoreHangover false]
       else [])
  | StoreEnded => (g <| ended_at_ := now |>, [])
  | StoreHangover b => (g <| in_hangover_ := b |>, [])
  end.

(** [should_drop_now] loads [speaking_], [in_hangover_] and [ended_at_]: each
    test is one step of the callback. [duration_cast<milliseconds>]
    truncates. *)
Definition still_hangs (now : Z) (g : gate) : bool :=
  bool_decide (Z.quot (now - ended_at_ g) 1000000 < hangover_ g)%Z.
End Gate.

(** ** The sample clock *)
Module Clock.

Record clock := MkClock {
  total_frames_ : Z;
  sample_rate_ : Z;
  anchor_frame_ : Z;
  anchor_steady_ns_ : Z;
  anchored_ : bool;
}.
#[global] Instance eta_clock : Eta clock := λ s,
  MkClock (total_frames_ s) (sample_rate_ s) (anchor_frame_ s) (anchor_steady_ns_ s) (anchored_ s).

Definition clock_new : clock := MkClock 0 0 0 0 false.

Definition on_capture_frames (now frame_count sample_rate : Z) (c : clock) : clock :=
  if decide (sample_rate = 0 ∨ frame_count = 0)%Z then c
  else if negb (anchored_ c) then
    c <| sample_rate_ := sample_rate |> <| anchor_frame_ := 0%Z |> <| anchor_steady_ns_ := now |>
      <| total_frames_ := frame_count |> <| anchored_ := true |>
  else
    let new_total := u64 (total_frames_ c + frame_count) in
    c <| total_frames_ := new_total |> <| anchor_frame_ := new_total |> <| anchor_steady_ns_ := now |>.

Definition steady_for (frame_index : Z) (c : clock) : Z :=
  if negb (anchored_ c) then 0%Z
  else if decide (sample_rate_ c = 0)%Z then 0%Z
  else
    let delta_frames := (frame_index - anchor_frame_ c)%Z in
    let ns_per_frame := Z.quot 1000000000 (sample_rate_ c) in
    (anchor_steady_ns_ c + delta_frames * ns_per_frame)%Z.

Definition frames_at (tp : Z) (c : clock) : Z :=
  if negb (anchored_ c) then 0%Z
  else if decide (sample_rate_ c = 0)%Z then 0%Z
  else
    let delta_ns := (tp - anchor_steady_ns_ c)%Z in
    let delta_frames := Z.quot (delta_ns * sample_rate_ c) 1000000000 in
    let result := (anchor_frame_ c + delta_frames)%Z in
    if decide (result < 0)%Z then 0%Z else result.
End Clock.

(** ** The callback *)

Definition kMaxCaptureSamples : nat := 1024.
Definition kCaptureRingCapacity : Z := 256.

Record AudioFrame := MkFrame {
  frame_index : Z;
  count : Z;
  captured_at : Z;
  samples : list Z;      (** an array of [kMaxCaptureSamples] *)
}.
Definition view (f : AudioFrame) : list Z := take (Z.to_nat (count f)) (samples f).
Definition frame_zero : AudioFrame := MkFrame 0 0 0 (replicate kMaxCaptureSamples 0%Z).

Abbreviation CaptureRing := (ring (T := AudioFrame)).

Record engine := MkEngine {
  sample_rate_hz : Z;
  ring_ : CaptureRing;
  clock_ : Clock.clock;
  gate_ : option Gate.gate;
  frames_captured_ : Z;
  ring_overruns_ : Z;
  frames_gated_ : Z;
}.
#[global] Instance eta_engine : Eta engine := λ s,
  MkEngine (sample_rate_hz s) (ring_ s) (clock_ s) (gate_ s) (frames_captured_ s) (ring_overruns_ s)
    (frames_gated_ s).

Definition engine_new (sample_rate : Z) (gate : option Gate.gate) : engine :=
  MkEngine sample_rate (ring_new kCaptureRingCapacity frame_zero) Clock.clock_new gate 0 0 0.

(** A whole call of [push]: the call and its steps, none of the consumer's
    between them. *)
Definition push_frame (f : AudioFrame) (r : CaptureRing) : CaptureRing * bool :=
  match run kCaptureRingCapacity [Push f; PushStep; PushStep; PushStep; PushStep] r with
  | Some (r, [Pushed _]) => (r, true)
  | Some (r, _) => (r, false)
  | None => (r, false)
  end.

(** [on_input] after the answer of the gate. *)
Definition on_input (gated : bool) (now : Z) (input : list Z) (s : engine) : engine :=
  let take_ := Nat.min (length input) kMaxCaptureSamples in
  let n := Z.of_nat take_ in
  let tick s := s <| clock_ ::= Clock.on_capture_frames now n (sample_rate_hz s) |> in
  if gated then tick (s <| frames_gated_ ::= λ k, u64 (k + n) |>)
  else
    let frame := MkFrame (Clock.total_frames_ (clock_ s)) n now
      (take take_ input ++ replicate (kMaxCaptureSamples - take_) 0%Z) in
    let '(r, ok) := push_frame frame (ring_ s) in
    let s := s <| ring_ := r |> in
    let s := if ok then s else s <| ring_overruns_ ::= λ k, u64 (k + 1) |> in
    tick (s <| frames_captured_ ::= λ k, u64 (k + n) |>).

(** ** The gate beside the state machine *)
Module HalfDuplex.
Import Fsm.

(** The observer [build_capture_stack] installs: the call of the gate it
    makes. *)
Definition observer (prev next : State) : list Gate.Op :=
  let was_speaking := bool_decide (prev = Speaking) in
  let is_speaking := bool_decide (next = Speaking) in
  if decide (was_speaking ≠ is_speaking) then Gate.set_speaking is_speaking else [].

(** Where the audio thread is in its callback: before each of the three
    loads of [should_drop_now], and after them with the answer. *)
Inductive MicPc :=
  | MicIdle
  | MicSpeaking (now : Z) (input : list Z)
  | MicHangover (now : Z) (input : list Z)
  | MicEnded (now : Z) (input : list Z)
  | MicDecided (now : Z) (input : list Z) (gated : bool).

(** [ops_] is what the thread of the state machine has still to do inside
    the observer. *)
Record system := MkSystem { fsm_ : fsm; ops_ : list Gate.Op; capture_ : engine; mic_ : MicPc }.
#[global] Instance eta_system : Eta system := λ s, MkSystem (fsm_ s) (ops_ s) (capture_ s) (mic_ s).

Inductive Label :=
  | BusEvent (now : Z) (e : Event)
  | Start (now : Z)
  | GateStep (now : Z)                  (* the next operation of the observer *)
  | Mic (now : Z) (input : option (list Z))
  | MicStep (now : Z).                  (* the next step of the callback *)

Definition observed (os : list Fsm.Out) : list Gate.Op :=
  flat_map (λ o, match o with StateObserver p n => observer p n | _ => [] end) os.

(** The thread of the state machine takes an event when it is done with the
    last one. *)
Definition fsm_step (m : Fsm.M unit) (s : system) : system :=
  match ops_ s with
  | [] => s <| fsm_ := exec m (fsm_ s) |> <| ops_ := observed (outs m (fsm_ s)) |>
  | _ => s
  end.

Definition gate_step (now : Z) (s : system) : system :=
  match ops_ s, gate_ (capture_ s) with
  | o :: ops, Some g =>
      let '(g, more) := Gate.op_step now o g in
      s <| ops_ := more ++ ops |> <| capture_ ::= λ c, c <| gate_ := Some g |> |>
  | _ :: ops, None => s <| ops_ := ops |>
  | [], _ => s
  end.

Definition mic_call (now : Z) (input : option (list Z)) (s : system) : system :=
  match mic_ s, input with
  | MicIdle, Some (x :: input) =>
      s <| mic_ := match gate_ (capture_ s) with
                   | Some _ => MicSpeaking now (x :: input)
                   | None => MicDecided now (x :: input) false
                   end |>
  | _, _ => s
  end.

Definition mic_step (t : Z) (s : system) : system :=
  match mic_ s, gate_ (capture_ s) with
  | MicSpeaking now input, Some g =>
      s <| mic_ := if Gate.speaking_ g then MicDecided now input true else MicHangover now input |>
  | MicHangover now input, Some g =>
      s <| mic_ := if negb (Gate.in_hangover_ g) then MicDecided now input false else MicEnded now input |>
  | MicEnded now input, Some g => s <| mic_ := MicDecided now input (Gate.still_hangs t g) |>
  | MicDecided now input gated, _ => s <| capture_ ::= on_input gated now input |> <| mic_ := MicIdle |>
  | _, _ => s
  end.

Definition step (l : Label) (s : system) : system :=
  match l with
  | BusEvent now e => fsm_step (Fsm.on_event now e) s
  | Start now => fsm_step (Fsm.start now) s
  | GateStep now => gate_step now s
  | Mic now input => mic_call now input s
  | MicStep t => mic_step t s
  end.

Definition run (ls : list Label) (s : system) : system := foldl (λ s l, step l s) s ls.

(** ** Specification *)

Definition system_new (turns : Turns) (oobs : bool) (sample_rate hangover : Z) : system :=
  MkSystem (fsm_new turns oobs true) [] (engine_new sample_rate (Some (Gate.gate_new hangover))) MicIdle.

(** When the observer last stored the end of speech. *)
Fixpoint anchor (ls : list Label) (s : system) (e : option Z) : option Z :=
  match ls with
  | [] => e
  | l :: ls => anchor ls (step l s)
      match l, ops_ s with GateStep now, Gate.StoreEnded :: _ => Some now | _, _ => e end
  end.

(** What the first load finds: the machine speaks, or, before the exchange of
    the observer, did so until now. *)
Definition closed (s : system) : Prop :=
  match ops_ s with
  | [] | Gate.StoreHangover false :: _ => state_ (fsm_ s) = Speaking
  | Gate.Exchange _ :: _ => state_ (fsm_ s) ≠ Speaking
  | _ => False
  end.

(** What the second load finds: the machine has spoken, and the observer is
    not between leaving [Speaking] and its last store. *)
Definition armed (s : system) (e : option Z) : Prop :=
  match ops_ s with
  | [] => state_ (fsm_ s) ≠ Speaking ∧ is_Some e
  | Gate.Exchange true :: _ | Gate.StoreHangover false :: _ => is_Some e
  | _ => False
  end.

(** Within the hangover of the stored end. *)
Definition within (h t : Z) (e : option Z) : Prop :=
  match e with Some t0 => (t < t0 + h * 1000000)%Z | None => False end.
#[global] Instance within_dec h t e : Decision (within h t e).
Proof. destruct e; unfold within; apply _. Defined.

(** Where the thread of the state machine can be. *)
Definition position_ok (s : system) (e : option Z) : Prop :=
  match ops_ s with
  | [] => True
  | [Gate.Exchange true] | [Gate.StoreHangover false] => state_ (fsm_ s) = Speaking
  | [Gate.Exchange false] | [Gate.StoreEnded; Gate.StoreHangover true] => state_ (fsm_ s) ≠ Speaking
  | [Gate.StoreHangover true] => state_ (fsm_ s) ≠ Speaking ∧ is_Some e
  | _ => False
  end.

(** The gate as the history says it is. *)
Record gate_ok (s : system) (h : Z) (e : option Z) : Prop := {
  go_observer : state_observer_ (fsm_ s) = true;
  go_position : position_ok s e;
  go_gate : ∃ g, gate_ (capture_ s) = Some g ∧ Gate.hangover_ g = h ∧
    (Gate.speaking_ g = true ↔ closed s) ∧ (Gate.in_hangover_ g = true ↔ armed s e) ∧
    (∀ t, e = Some t → Gate.ended_at_ g = t);
}.

(** ** Lemmas *)

(** A handler leaves [Speaking] or enters it at most once. *)
Definition crossing (st st' : State) : list Gate.Op :=
  if decide (bool_decide (st = Speaking) ≠ bool_decide (st' = Speaking))
  then [Gate.Exchange (bool_decide (st' = Speaking))] else [].

Lemma crossing_cases st st' :
  ((st = Speaking ↔ st' = Speaking) ∧ crossing st st' = []) ∨
  (st ≠ Speaking ∧ st' = Speaking ∧ crossing st st' = [Gate.Exchange true]) ∨
  (st = Speaking ∧ st' ≠ Speaking ∧ crossing st st' = [Gate.Exchange false]).
Proof. destruct st, st'; cbn; intuition congruence. Qed.

Lemma event_observes now e s :
  state_observer_ s = true →
  observed (outs (Fsm.on_event now e) s) = crossing (state_ s) (state_ (exec (Fsm.on_event now e) s)).
Proof. intros Hso. revert Hso. destruct e; fsm_cases s; intros Hso; first [discriminate Hso|reflexivity]. Qed.

Lemma start_observes now s :
  state_observer_ s = true →
  observed (outs (Fsm.start now) s) = crossing (state_ s) (state_ (exec (Fsm.start now) s)).
Proof.
  intros Hso. revert Hso. destruct (sub_ s) eqn:Hsub; revert Hsub; fsm_cases s; intros -> Hso;
    first [discriminate Hso|reflexivity].
Qed.

Lemma start_kept now s : state_observer_ (exec (Fsm.start now) s) = state_observer_ s.
Proof. destruct (sub_ s) eqn:Hsub; revert Hsub; fsm_cases s; by intros ->. Qed.
Lemma fsm_step_ok m h e s :
  (state_observer_ (fsm_ s) = true →
   state_observer_ (exec m (fsm_ s)) = true ∧
   observed (outs m (fsm_ s)) = crossing (state_ (fsm_ s)) (state_ (exec m (fsm_ s)))) →
  gate_ok s h e → gate_ok (fsm_step m s) h e.
Proof.
  intros Hm H. unfold fsm_step. destruct (ops_ s) eqn:Ho; [|done].
  destruct H as [H1 _ (g & Hg & Hh & Hsp & Hov & He)]. destruct (Hm H1) as [Hk ->].
  unfold closed, armed in Hsp, Hov. rewrite Ho in Hsp, Hov.
  set (st := state_ (fsm_ s)) in *. set (s' := _ <| ops_ := _ |>).
  set (st' := state_ (exec m (fsm_ s))) in *.
  assert (state_ (fsm_ s') = st' ∧ ops_ s' = crossing st st' ∧ capture_ s' = capture_ s) as (E1 & E2 & E3) by done.
  assert (state_observer_ (fsm_ s') = true) as E4 by done. clearbody s' st st'.
  destruct (crossing_cases st st') as [[H2 E5]|[(H2 & H3 & E5)|(H2 & H3 & E5)]]; rewrite E5 in E2;
    (split; [done|unfold position_ok; rewrite ?E2, ?E1; done|]); exists g; rewrite E3; unfold closed, armed;
    rewrite E2, ?E1; (split_and!; [done|done|rewrite Hsp|rewrite Hov|done]); tauto.
Qed.

Lemma gate_step_ok now h e s :
  gate_ok s h e →
  gate_ok (gate_step now s) h (match ops_ s with Gate.StoreEnded :: _ => Some now | _ => e end).
Proof.
  intros [H1 Hp (g & Hg & Hh & Hsp & Hov & He)]. unfold gate_step. rewrite Hg.
  unfold position_ok, closed, armed in *.
  destruct (ops_ s) as [|[[]| |[]] [|[[]| |[]] [|]]] eqn:Ho; try done.
  - split; [done|by unfold position_ok; rewrite Ho|]. exists g. unfold closed, armed. by rewrite Ho.
  - assert (Gate.speaking_ g = false) as E by (destruct (Gate.speaking_ g); [by destruct (proj1 Hsp eq_refl)|done]).
    unfold Gate.op_step. rewrite E. cbn [negb andb].
    split; [done|done|]. eexists. split; [done|]. unfold closed, armed. by cbn.
  - assert (Gate.speaking_ g = true) as E by by apply Hsp. unfold Gate.op_step. rewrite E. cbn [negb andb].
    split; [done|done|]. eexists. split; [done|]. unfold closed, armed. by cbn.
  - split; [done|split; [done|by eexists]|]. eexists. split; [done|]. unfold closed, armed. cbn.
    split_and!; [done|done|done|]. by intros t [= <-].
  - split; [done|done|]. eexists. split; [done|]. unfold closed, armed. cbn.
    split_and!; [done| |done|done]. rewrite Hsp. tauto.
  - split; [done|done|]. eexists. split; [done|]. unfold closed, armed. cbn.
    split_and!; [done|done| |done]. split; [done|tauto].
Qed.

(** The callback does not touch the gate. *)
Lemma on_input_gate gated now input c : gate_ (on_input gated now input c) = gate_ c.
Proof. unfold on_input. destruct gated; [done|]. destruct (push_frame _ _) as [r ok]. by destruct ok. Qed.

Lemma mic_frame l s :
  match l with Mic _ _ | MicStep _ => True | _ => False end →
  fsm_ (step l s) = fsm_ s ∧ ops_ (step l s) = ops_ s ∧ gate_ (capture_ (step l s)) = gate_ (capture_ s).
Proof.
  destruct l as [| | |now input|t]; try done; intros _; cbn [step].
  - unfold mic_call. destruct (mic_ s); try done. by destruct input as [[|x input]|].
  - unfold mic_step. destruct (mic_ s), (gate_ (capture_ s)) eqn:E; try done;
      cbn; rewrite ?on_input_gate; done.
Qed.

(** The rest of the dialogue touches the gate only. *)
Definition is_mic (l : Label) : bool := match l with Mic _ _ | MicStep _ => true | _ => false end.

Record same_capture (c c' : engine) : Prop := {
  sc_rate : sample_rate_hz c' = sample_rate_hz c;
  sc_ring : ring_ c' = ring_ c;
  sc_clock : clock_ c' = clock_ c;
  sc_captured : frames_captured_ c' = frames_captured_ c;
  sc_overruns : ring_overruns_ c' = ring_overruns_ c;
  sc_gated : frames_gated_ c' = frames_gated_ c;
}.

Lemma same_capture_trans a b c : same_capture a b → same_capture b c → same_capture a c.
Proof. intros [? ? ? ? ? ?] [? ? ? ? ? ?]. split; (etrans; [eassumption|]); done. Qed.

Lemma dialogue_frame ls s :
  Forall (λ l, is_mic l = false) ls → same_capture (capture_ s) (capture_ (run ls s)) ∧ mic_ (run ls s) = mic_ s.
Proof.
  intros Hls. revert s. induction Hls as [|l ls Hl _ IH]; intros s; [by split|].
  cbn. destruct (IH (step l s)) as [H1 H2].
  assert (same_capture (capture_ s) (capture_ (step l s)) ∧ mic_ (step l s) = mic_ s) as [K1 K2].
  { destruct l as [now e|now|now| |]; [| | |done|done]; cbn [step].
    - unfold fsm_step. by destruct (ops_ s).
    - unfold fsm_step. by destruct (ops_ s).
    - unfold gate_step. destruct (ops_ s) as [|o ops]; [done|]. destruct (gate_ (capture_ s)) as [g|]; [|done].
      by destruct (Gate.op_step now o g). }
  split; [by eapply same_capture_trans|by rewrite <- K2, <- H2].
Qed.

Lemma duplex_step_ok l h e s :
  gate_ok s h e →
  gate_ok (step l s) h (match l, ops_ s with GateStep now, Gate.StoreEnded :: _ => Some now | _, _ => e end).
Proof.
  intros H. destruct l as [now ev|now|now|now input|t].
  - cbn [step]. apply fsm_step_ok; [|done]. intros Hso. split; [by rewrite observer_kept|by apply event_observes].
  - cbn [step]. apply fsm_step_ok; [|done]. intros Hso. split; [by rewrite start_kept|by apply start_observes].
  - by apply gate_step_ok.
  - destruct (mic_frame (Mic now input) s I) as (E1 & E2 & E3). destruct H as [H1 H2 H3].
    split; unfold position_ok, closed, armed in *; rewrite ?E1, ?E2, ?E3; done.
  - destruct (mic_frame (MicStep t) s I) as (E1 & E2 & E3). destruct H as [H1 H2 H3].
    split; unfold position_ok, closed, armed in *; rewrite ?E1, ?E2, ?E3; done.
Qed.

Lemma duplex_run_ok ls h e s : gate_ok s h e → gate_ok (run ls s) h (anchor ls s e).
Proof. revert s e. induction ls as [|l ls IH]; intros s e H; [done|]. cbn. by apply IH, duplex_step_ok. Qed.

Lemma system_new_ok turns oobs sr h : gate_ok (system_new turns oobs sr h) h None.
Proof.
  split; [done|done|]. exists (Gate.gate_new h). split_and!; [done|done|done| |done].
  cbn. unfold armed. cbn. split; [done|]. by intros [_ [? ?]].
Qed.

(** The truncated comparison of milliseconds. *)
Lemma quot_below d h : (0 ≤ d)%Z → (Z.quot d 1000000 < h ↔ d < h * 1000000)%Z.
Proof. intros Hd. rewrite Z.quot_div_nonneg by lia. split; intros H; [|apply Z.div_lt_upper_bound; lia].
  pose proof (Z.div_mod d 1000000 ltac:(lia)). pose proof (Z.mod_pos_bound d 1000000 ltac:(lia)). lia. Qed.

Lemma hangs_ok s h e t :
  gate_ok s h e → is_Some e → (∀ t0, e = Some t0 → t0 ≤ t)%Z →
  ∃ g, gate_ (capture_ s) = Some g ∧ Gate.still_hangs t g = bool_decide (within h t e).
Proof.
  intros [_ _ (g & Hg & Hh & _ & _ & He)] [t0 ->] Ht. exists g. split; [done|]. unfold Gate.still_hangs.
  rewrite Hh, (He t0 eq_refl). specialize (Ht t0 eq_refl). apply bool_decide_ext. cbn. rewrite quot_below by lia. lia.
Qed.

(** What the end of a callback does to the engine. *)
Definition taken (gated : bool) (now : Z) (input : list Z) (c c' : engine) : Prop :=
  let n := Z.of_nat (Nat.min (length input) kMaxCaptureSamples) in
  clock_ c' = Clock.on_capture_frames now n (sample_rate_hz c) (clock_ c) ∧
  if gated then ring_ c' = ring_ c ∧ frames_captured_ c' = frames_captured_ c ∧
    frames_gated_ c' = u64 (frames_gated_ c + n)
  else ∃ f, captured_at f = now ∧ view f = take kMaxCaptureSamples input ∧
    frame_index f = Clock.total_frames_ (clock_ c) ∧ length (samples f) = kMaxCaptureSamples ∧
    ring_ c' = (push_frame f (ring_ c)).1 ∧
    ring_overruns_ c' = (if (push_frame f (ring_ c)).2 then ring_overruns_ c else u64 (ring_overruns_ c + 1)) ∧
    frames_captured_ c' = u64 (frames_captured_ c + n) ∧ frames_gated_ c' = frames_gated_ c.

Lemma on_input_spec gated now input c : taken gated now input c (on_input gated now input c).
Proof.
  unfold on_input, taken. set (take_ := Nat.min (length input) kMaxCaptureSamples). set (n := Z.of_nat take_).
  cbn zeta. destruct gated; [done|].
  set (f := MkFrame _ _ _ _). destruct (push_frame f (ring_ c)) as [r ok] eqn:Ef.
  split; [by destruct ok|]. exists f. rewrite Ef. split; [done|]. split.
  { unfold view, f. cbn [count samples]. unfold n. rewrite Nat2Z.id, take_app_le by (rewrite length_take; lia).
    rewrite take_take. unfold take_. destruct (decide (length input ≤ kMaxCaptureSamples)).
    - rewrite !take_ge; [done|lia|lia].
    - f_equal. lia. }
  split; [done|]. split; [|by destruct ok].
  unfold f. cbn [samples]. rewrite length_app, length_take, length_replicate. lia.
Qed.

Lemma taken_frame gated now input c1 c2 c3 c4 :
  same_capture c1 c2 → taken gated now input c2 c3 → same_capture c3 c4 → taken gated now input c1 c4.
Proof.
  intros [H1 H2 H3 H4 H5 H6] [K1 K2] [G1 G2 G3 G4 G5 G6]. unfold taken.
  rewrite <- H1, <- H2, <- H3, <- H4, <- H5, <- H6, G2, G3, G4, G5, G6. done.
Qed.

Lemma mic_idle t s : mic_ s = MicIdle → mic_step t s = s.
Proof. intros H. unfold mic_step. by rewrite H. Qed.

Lemma same_capture_refl c : same_capture c c.
Proof. by split. Qed.

Lemma decided_run gated now input s l t :
  mic_ s = MicDecided now input gated → Forall (λ l, is_mic l = false) l →
  let s' := run (MicStep t :: l) s in
  mic_ s' = MicIdle ∧ ∃ c, taken gated now input (capture_ s) c ∧ same_capture c (capture_ s').
Proof.
  intros Hm Hl. cbn [run foldl step]. unfold mic_step. rewrite Hm.
  set (s1 := _ <| mic_ := MicIdle |>). fold (run l s1). destruct (dialogue_frame l s1 Hl) as [H1 H2].
  assert (mic_ s1 = MicIdle) as E by (unfold s1; by destruct (gate_ (capture_ s))). rewrite E in H2.
  split; [done|]. exists (capture_ s1). split; [|done].
  replace (capture_ s1) with (on_input gated now input (capture_ s)) by (unfold s1; by destruct (gate_ (capture_ s))).
  apply on_input_spec.
Qed.

Lemma anchored ls s e : is_Some e → is_Some (anchor ls s e).
Proof.
  revert s e. induction ls as [|l ls IH]; intros s e He; [done|]. cbn. apply IH.
  destruct l; try done. destruct (ops_ s) as [|[] ?]; try done; by eexists.
Qed.

Lemma armed_anchored s e : armed s e → is_Some e.
Proof. unfold armed. destruct (ops_ s) as [|[[]| |[]] ops]; tauto. Qed.

(** One callback: its three loads, with the steps of the dialogue between. *)
Lemma callback_run h e0 s now x input l0 l1 l2 t1 t2 t3 t4 :
  gate_ok s h e0 → mic_ s = MicIdle → Forall (λ l, is_mic l = false) (l0 ++ l1 ++ l2) →
  let s1 := run (Mic now (Some (x :: input)) :: l0) s in
  let e1 := anchor (Mic now (Some (x :: input)) :: l0) s e0 in
  let s2 := run (MicStep t1 :: l1) s1 in
  let e2 := anchor (MicStep t1 :: l1) s1 e1 in
  let s3 := run (MicStep t2 :: l2) s2 in
  let e3 := anchor (MicStep t2 :: l2) s2 e2 in
  let s' := run [MicStep t3; MicStep t4] s3 in
  (∀ t, e3 = Some t → t ≤ t3)%Z →
  ∃ gated : bool, taken gated now (x :: input) (capture_ s) (capture_ s') ∧ mic_ s' = MicIdle ∧
    (gated = true ↔ closed s1 ∨ armed s2 e2 ∧ within h t3 e3).
Proof.
  intros Hok Hidle Hf s1 e1 s2 e2 s3 e3 s' Ht.
  apply Forall_app in Hf as [Hf0 Hf]. apply Forall_app in Hf as [Hf1 Hf2].
  assert (gate_ok s1 h e1) as Hok1 by by apply duplex_run_ok.
  assert (gate_ok s2 h e2) as Hok2 by by apply duplex_run_ok.
  assert (gate_ok s3 h e3) as Hok3 by by apply duplex_run_ok.
  destruct (go_gate _ _ _ Hok) as (g0 & Hg0 & _).
  assert (mic_ s1 = MicSpeaking now (x :: input) ∧ same_capture (capture_ s) (capture_ s1)) as [Hm1 Hc1].
  { destruct (dialogue_frame l0 (step (Mic now (Some (x :: input))) s) Hf0) as [H1 H2].
    cbn [step] in H1, H2. unfold mic_call in H1, H2. rewrite Hidle, Hg0 in H1, H2.
    unfold s1. cbn [run foldl step]. unfold mic_call. rewrite Hidle, Hg0. by split. }
  destruct (go_gate _ _ _ Hok1) as (g1 & Hg1 & _ & Hsp & _).
  set (s1' := step (MicStep t1) s1).
  assert (same_capture (capture_ s1) (capture_ s1') ∧
    mic_ s1' = if Gate.speaking_ g1 then MicDecided now (x :: input) true else MicHangover now (x :: input)) as [Hc1' Hm1'].
  { unfold s1'. cbn [step]. unfold mic_step. rewrite Hm1, Hg1. by split. }
  destruct (dialogue_frame l1 s1' Hf1) as [Hc2 Hm2]. change (run l1 s1') with s2 in Hc2, Hm2. rewrite Hm1' in Hm2.
  assert (same_capture (capture_ s) (capture_ s2)) as Hc02
    by (eapply same_capture_trans; [exact Hc1|]; by eapply same_capture_trans).
  assert (∀ gated, mic_ s2 = MicDecided now (x :: input) gated →
    taken gated now (x :: input) (capture_ s) (capture_ s') ∧ mic_ s' = MicIdle) as Hdone2.
  { intros gated Hd. destruct (decided_run gated now (x :: input) s2 l2 t2 Hd Hf2) as (H1 & c & H2 & H3).
    change (run (MicStep t2 :: l2) s2) with s3 in H1, H3.
    assert (s' = s3) as -> by (unfold s'; cbn [run foldl step]; by rewrite !(mic_idle _ s3)).
    split; [by eapply taken_frame|done]. }
  destruct (Gate.speaking_ g1) eqn:Es1.
  { exists true. destruct (Hdone2 true Hm2). split_and!; [done..|]. split; [|done]. intros _. left. by apply Hsp. }
  assert (¬ closed s1) as Hnc by (intros Hcl; apply Hsp in Hcl; done).
  destruct (go_gate _ _ _ Hok2) as (g2 & Hg2 & _ & _ & Hov & _).
  set (s2' := step (MicStep t2) s2).
  assert (same_capture (capture_ s2) (capture_ s2') ∧
    mic_ s2' = if negb (Gate.in_hangover_ g2) then MicDecided now (x :: input) false else MicEnded now (x :: input)) as [Hc2' Hm2'].
  { unfold s2'. cbn [step]. unfold mic_step. rewrite Hm2, Hg2. by split. }
  destruct (dialogue_frame l2 s2' Hf2) as [Hc3 Hm3]. change (run l2 s2') with s3 in Hc3, Hm3. rewrite Hm2' in Hm3.
  assert (same_capture (capture_ s) (capture_ s3)) as Hc03
    by (eapply same_capture_trans; [exact Hc02|]; by eapply same_capture_trans).
  destruct (Gate.in_hangover_ g2) eqn:Eh; cbn [negb] in Hm3.
  - assert (armed s2 e2) as Har by by apply Hov.
    destruct (hangs_ok s3 h e3 t3 Hok3) as (g3 & Hg3 & Hh); [by apply anchored, (armed_anchored s2)|done|].
    set (s3' := step (MicStep t3) s3).
    assert (same_capture (capture_ s3) (capture_ s3') ∧
      mic_ s3' = MicDecided now (x :: input) (bool_decide (within h t3 e3))) as [Hc3' Hm3'].
    { unfold s3'. cbn [step]. unfold mic_step. rewrite Hm3, Hg3, Hh. by split. }
    destruct (decided_run _ now (x :: input) s3' [] t4 Hm3') as (H1 & c & H2 & H3); [done|].
    change (run [MicStep t4] s3') with s' in H1, H3.
    exists (bool_decide (within h t3 e3)). split_and!; [|done|].
    + eapply taken_frame; [|exact H2|exact H3]. by eapply same_capture_trans.
    + rewrite bool_decide_eq_true. tauto.
  - exists false. assert (¬ armed s2 e2) as Har by (intros H; apply Hov in H; done).
    destruct (decided_run _ now (x :: input) s3 [] t3 Hm3) as (H1 & c & H2 & H3); [done|].
    change (run [MicStep t3] s3) with (step (MicStep t3) s3) in H1, H3.
    assert (s' = step (MicStep t3) s3) as -> by (unfold s'; cbn [run foldl step]; by rewrite (mic_idle t4)).
    split_and!; [by eapply taken_frame|done|]. split; [done|tauto].
Qed.
End HalfDuplex.

(** ** Lemmas on the clock *)

Definition ticks (sr : Z) (ts : list (Z * Z)) : Clock.clock :=
  foldl (λ c t, Clock.on_capture_frames t.1 t.2 sr c) Clock.clock_new ts.

(** The clock after callbacks of [n > 0] frames: the first anchors frame 0 at
    its own time, every later one the total so far at its time. *)
Lemma ticks_spec sr ts now n :
  (0 < sr)%Z → Forall (λ t, 0 < t.2)%Z (ts ++ [(now, n)]) →
  (foldr (λ t z, t.2 + z) 0 (ts ++ [(now, n)]) < 2 ^ 64)%Z →
  ticks sr (ts ++ [(now, n)]) =
  Clock.MkClock (foldr (λ t z, t.2 + z) 0 (ts ++ [(now, n)]))%Z sr
    (match ts with [] => 0 | _ => foldr (λ t z, t.2 + z) 0 (ts ++ [(now, n)]) end)%Z now true.
Proof.
  intros Hsr. revert now n. induction ts as [|[t k] ts IH] using rev_ind; intros now n Hf Hs.
  - apply Forall_cons in Hf as [Hn _]. cbn in *. unfold ticks, Clock.on_capture_frames. cbn.
    rewrite decide_False by lia. cbn. by rewrite Z.add_0_r.
  - apply Forall_app in Hf as [Hf Hn]. apply Forall_cons in Hn as [Hn _]. cbn in Hn.
    rewrite !foldr_app in *. cbn [foldr fst snd] in *.
    assert (∀ z l, foldr (λ t z, t.2 + z) z l = z + foldr (λ t : Z * Z, λ z, t.2 + z) 0 l)%Z as Hfold.
    { clear. intros z l. induction l as [|x l IH]; cbn; [lia|]. rewrite IH. lia. }
    pose proof Hf as Hk. apply Forall_app in Hk as [Hk1 Hk]. apply Forall_cons in Hk as [Hk _]. cbn in Hk.
    rewrite (Hfold (k + _)%Z) in *. unfold ticks in *. rewrite foldl_app, IH; [|done|].
    2: { rewrite foldr_app. cbn. rewrite Hfold. lia. }
    cbn [foldl fst snd]. unfold Clock.on_capture_frames. rewrite decide_False by lia. cbn.
    rewrite foldr_app. cbn. rewrite Hfold. unfold u64.
    assert (0 ≤ foldr (λ t : Z * Z, λ z, t.2 + z) 0 ts)%Z.
    { clear -Hk1. induction Hk1 as [|x l ? _ IH]; cbn; lia. }
    rewrite Z.mod_small by lia.
    replace (k + 0 + foldr (λ t0 z, t0.2 + z) 0 ts + n)%Z with (k + (n + 0) + foldr (λ t0 z, t0.2 + z) 0 ts)%Z by lia.
    by destruct ts.
Qed.

(** ** Properties *)

(** [C20] The microphone is closed while the assistant speaks. In every
    reachable state in which no callback runs, a callback with samples makes
    its three loads after any steps [l0], [l1], [l2] of the dialogue and of
    the observer's stores. It drops the samples exactly when the first load
    finds the gate [closed] (the machine is Speaking, the observer being past
    the exchange that says so; or it has left that state, the observer being
    before its exchange), or the second finds it [armed] and the third a time
    within the hangover of the stored end. Otherwise its first
    [kMaxCaptureSamples] samples go to the ring with the time of the callback.
    The sample clock advances in both cases. When nothing comes between the
    loads and the observer is at rest, that is: exactly while Speaking or
    within the hangover after. But between the exchange that ends the speech
    and the last store ([StoreEnded], [StoreHangover true]) nothing is
    dropped: the hole. *)
Theorem half_duplex_exact turns oobs sr h ls l0 l1 l2 now x input t1 t2 t3 t4 :
  let init := HalfDuplex.system_new turns oobs sr h in
  let s := HalfDuplex.run ls init in
  let e := HalfDuplex.anchor ls init None in
  let s1 := HalfDuplex.run (HalfDuplex.Mic now (Some (x :: input)) :: l0) s in
  let e1 := HalfDuplex.anchor (HalfDuplex.Mic now (Some (x :: input)) :: l0) s e in
  let s2 := HalfDuplex.run (HalfDuplex.MicStep t1 :: l1) s1 in
  let e2 := HalfDuplex.anchor (HalfDuplex.MicStep t1 :: l1) s1 e1 in
  let s3 := HalfDuplex.run (HalfDuplex.MicStep t2 :: l2) s2 in
  let e3 := HalfDuplex.anchor (HalfDuplex.MicStep t2 :: l2) s2 e2 in
  let s' := HalfDuplex.run [HalfDuplex.MicStep t3; HalfDuplex.MicStep t4] s3 in
  HalfDuplex.mic_ s = HalfDuplex.MicIdle →
  Forall (λ l, HalfDuplex.is_mic l = false) (l0 ++ l1 ++ l2) →
  (∀ t, e3 = Some t → t ≤ t3)%Z →
  ∃ gated : bool,
    HalfDuplex.taken gated now (x :: input) (HalfDuplex.capture_ s) (HalfDuplex.capture_ s') ∧
    HalfDuplex.mic_ s' = HalfDuplex.MicIdle ∧
    (gated = true ↔ HalfDuplex.closed s1 ∨ HalfDuplex.armed s2 e2 ∧ HalfDuplex.within h t3 e3) ∧
    (l0 = [] → l1 = [] → l2 = [] →
       (HalfDuplex.ops_ s = [] →
          gated = true ↔ Fsm.state_ (HalfDuplex.fsm_ s) = Fsm.Speaking ∨ HalfDuplex.within h t3 e) ∧
       (∀ ops, HalfDuplex.ops_ s = ops ++ [Gate.StoreHangover true] → gated = false)).
Proof.
  intros init s e s1 e1 s2 e2 s3 e3 s' Hidle Hf Ht.
  assert (HalfDuplex.gate_ok s h e) as Hok by (apply HalfDuplex.duplex_run_ok, HalfDuplex.system_new_ok).
  destruct (HalfDuplex.callback_run h e s now x input l0 l1 l2 t1 t2 t3 t4 Hok Hidle Hf Ht) as (gated & H1 & H2 & H3).
  fold s1 e1 s2 e2 s3 e3 s' in H1, H2, H3. exists gated. split_and!; [done..|]. intros -> -> ->.
  destruct (HalfDuplex.mic_frame (HalfDuplex.Mic now (Some (x :: input))) s I) as (F1 & O1 & _).
  change (HalfDuplex.step (HalfDuplex.Mic now (Some (x :: input))) s) with s1 in F1, O1.
  destruct (HalfDuplex.mic_frame (HalfDuplex.MicStep t1) s1 I) as (F2 & O2 & _).
  change (HalfDuplex.step (HalfDuplex.MicStep t1) s1) with s2 in F2, O2. rewrite F1 in F2. rewrite O1 in O2.
  change e2 with e in H3. change e3 with e in H3. unfold HalfDuplex.closed, HalfDuplex.armed in H3.
  rewrite F1, O1, F2, O2 in H3. split.
  - intros Ho. rewrite Ho in H3. rewrite H3. split; [tauto|]. intros [?|Hw]; [tauto|].
    destruct (decide (Fsm.state_ (HalfDuplex.fsm_ s) = Fsm.Speaking)); [tauto|]. right. split; [|done].
    split; [done|]. destruct e; [by eexists|done].
  - intros ops Ho. pose proof (HalfDuplex.go_position _ _ _ Hok) as Hp. unfold HalfDuplex.position_ok in Hp.
    destruct gated; [|done]. destruct (proj1 H3 eq_refl) as [Hc|[Ha _]]; rewrite Ho in *;
      destruct ops as [|[[]| |[]] [|o ops]]; cbn in *; try tauto; try done.
Qed.

(** An answer that ends at 9 s, with a hangover of 200 ms: a callback inside
    the hangover, one after it, and one in the hole. *)
Lemma half_duplex_exact_witness :
  let speak := [HalfDuplex.Start 1; HalfDuplex.BusEvent 2 (SpeechStarted kNoTurn 2);
    HalfDuplex.BusEvent 3 (SpeechEnded kNoTurn 3);
    HalfDuplex.BusEvent 4 (FinalTranscript kNoTurn [] [] None 0 0); HalfDuplex.BusEvent 5 (LlmSentence kNoTurn 0 [] []);
    HalfDuplex.GateStep 5; HalfDuplex.GateStep 5; HalfDuplex.BusEvent 6 (LlmFinished kNoTurn false 1);
    HalfDuplex.BusEvent 9000000000 (PlaybackFinished 1 0); HalfDuplex.GateStep 9000000000]%Z in
  let quiet := speak ++ [HalfDuplex.GateStep 9000000000; HalfDuplex.GateStep 9000000000]%Z in
  let init := HalfDuplex.system_new turns_init true 48000 200 in
  let call ls t := HalfDuplex.capture_ (HalfDuplex.run [HalfDuplex.MicStep t; HalfDuplex.MicStep t]
    (HalfDuplex.run [HalfDuplex.MicStep t] (HalfDuplex.run [HalfDuplex.MicStep t]
      (HalfDuplex.run [HalfDuplex.Mic t (Some [5; 6]%Z)] (HalfDuplex.run ls init))))) in
  frames_gated_ (call quiet 9199999999%Z) = 2%Z ∧ frames_captured_ (call quiet 9200000000%Z) = 2%Z ∧
  frames_captured_ (call speak 9000000001%Z) = 2%Z.
Proof.
  intros speak quiet init call.
  assert (∀ ls t, HalfDuplex.mic_ (HalfDuplex.run ls init) = HalfDuplex.MicIdle →
    (∀ t0, HalfDuplex.anchor ls init None = Some t0 → t0 ≤ t)%Z →
    frames_gated_ (HalfDuplex.capture_ (HalfDuplex.run ls init)) = 0%Z →
    frames_captured_ (HalfDuplex.capture_ (HalfDuplex.run ls init)) = 0%Z →
    ∃ gated : bool,
      (if gated then frames_gated_ (call ls t) = 2%Z else frames_captured_ (call ls t) = 2%Z) ∧
      (HalfDuplex.ops_ (HalfDuplex.run ls init) = [] →
         gated = true ↔ Fsm.state_ (HalfDuplex.fsm_ (HalfDuplex.run ls init)) = Fsm.Speaking ∨
                        HalfDuplex.within 200 t (HalfDuplex.anchor ls init None)) ∧
      (∀ ops, HalfDuplex.ops_ (HalfDuplex.run ls init) = ops ++ [Gate.StoreHangover true] → gated = false)) as H.
  { intros ls t H1 H2 H3 H4.
    destruct (half_duplex_exact turns_init true 48000 200 ls [] [] [] t 5%Z [6%Z] t t t t H1
      ltac:(repeat constructor) H2) as (gated & [_ Ht] & _ & _ & Hg).
    exists gated. destruct (Hg eq_refl eq_refl eq_refl) as [G1 G2]. split_and!; [|exact G1|exact G2].
    fold init in Ht. destruct gated.
    - destruct Ht as (_ & _ & Ht). unfold call. rewrite Ht, H3. reflexivity.
    - destruct Ht as (f & _ & _ & _ & _ & _ & _ & Ht & _). unfold call. rewrite Ht, H4. reflexivity. }
  assert (Hq : HalfDuplex.anchor quiet init None = Some 9000000000%Z) by (vm_compute; reflexivity).
  assert (Hn : HalfDuplex.anchor speak init None = None) by (vm_compute; reflexivity).
  destruct (H quiet 9199999999%Z ltac:(vm_compute; reflexivity) ltac:(rewrite Hq; intros ? [= <-]; lia) ltac:(vm_compute; reflexivity) ltac:(vm_compute; reflexivity)) as (g1 & K1 & G1 & _).
  destruct (H quiet 9200000000%Z ltac:(vm_compute; reflexivity) ltac:(rewrite Hq; intros ? [= <-]; lia) ltac:(vm_compute; reflexivity) ltac:(vm_compute; reflexivity)) as (g2 & K2 & G2 & _).
  destruct (H speak 9000000001%Z ltac:(vm_compute; reflexivity) ltac:(rewrite Hn; intros ? E; discriminate E) ltac:(vm_compute; reflexivity) ltac:(vm_compute; reflexivity)) as (g3 & K3 & _ & G3).
  specialize (G1 ltac:(vm_compute; reflexivity)). specialize (G2 ltac:(vm_compute; reflexivity)). rewrite Hq in G1, G2.
  assert (g1 = true) as -> by (apply G1; right; cbn; lia).
  assert (g2 = false) as -> by (destruct g2; [|reflexivity]; destruct (proj1 G2 eq_refl) as [E|E]; [vm_compute in E; discriminate E|cbn in E; lia]).
  assert (g3 = false) as -> by (apply (G3 [Gate.StoreEnded]); vm_compute; reflexivity).
  split_and!; assumption.
Defined.

(** The sample clock. After callbacks of [sr] samples a second the last
    one, except the first, is the anchor: the total of the frames has its
    time. The index found for the time of a frame [d] past the anchor falls
    short of it by the part of [d] the rounded frame duration loses, at most
    [d * (10^9 mod sr) / 10^9] rounded up: not at all at the rates that
    divide a second into whole nanoseconds. *)
Theorem clock_error sr ts now n d :
  (0 < sr < 2 ^ 32)%Z → ts ≠ [] → Forall (λ t, 0 < t.2)%Z (ts ++ [(now, n)]) →
  (foldr (λ t z, t.2 + z) 0 (ts ++ [(now, n)]) < 2 ^ 63)%Z → (0 ≤ d)%Z →
  let c := ticks sr (ts ++ [(now, n)]) in
  let i := (Clock.total_frames_ c + d)%Z in
  let lost := (d * (1000000000 mod sr))%Z in
  Clock.steady_for (Clock.total_frames_ c) c = now ∧
  (0 ≤ i - Clock.frames_at (Clock.steady_for i c) c)%Z ∧
  (lost ≤ (i - Clock.frames_at (Clock.steady_for i c) c) * 1000000000 < lost + 1000000000)%Z.
Proof.
  intros Hsr Hts Hf Hs Hd c. assert (0 ≤ Clock.total_frames_ c)%Z as Hpos.
  { unfold c. rewrite ticks_spec by (done || lia). cbn. clear -Hf.
    induction Hf as [|x l ? _ IH]; cbn; lia. }
  unfold c in *. rewrite ticks_spec in * by (done || lia). destruct ts as [|t ts]; [done|].
  set (a := foldr _ _ _) in *. clearbody a. unfold Clock.steady_for, Clock.frames_at. cbn in *.
  rewrite !(decide_False (P := sr = 0%Z)) by lia. split; [lia|].
  pose proof (Z.quot_div_nonneg 1000000000 sr ltac:(lia) ltac:(lia)) as Eq. rewrite Eq. clear Eq.
  pose proof (Z.div_mod 1000000000 sr ltac:(lia)) as Edm. pose proof (Z.mod_pos_bound 1000000000 sr ltac:(lia)) as Hr.
  set (q := (1000000000 / sr)%Z) in *. set (r := (1000000000 mod sr)%Z) in *. clearbody q r.
  assert (0 ≤ q)%Z as Hq by nia.
  replace (now + (a + d - a) * q - now)%Z with (d * q)%Z by lia.
  assert (d * q * sr = d * 1000000000 - d * r)%Z as E by nia. rewrite E.
  assert (0 ≤ d * r)%Z by nia. assert (d * r ≤ d * 1000000000)%Z by nia.
  rewrite Z.quot_div_nonneg by lia.
  pose proof (Z.div_mod (d * 1000000000 - d * r) 1000000000 ltac:(lia)) as E2.
  pose proof (Z.mod_pos_bound (d * 1000000000 - d * r) 1000000000 ltac:(lia)).
  assert (0 ≤ (d * 1000000000 - d * r) / 1000000000)%Z by (apply Z.div_pos; lia).
  rewrite decide_False by lia. lia.
Qed.

Lemma clock_error_witness :
  let c := ticks 48000 ([(0, 480); (10000000, 480)] ++ [(20000000, 480)])%Z in
  Clock.steady_for 1440 c = 20000000%Z ∧ Clock.frames_at (Clock.steady_for 101440 c) c = 101438%Z.
Proof.
  intros c.
  destruct (clock_error 48000 [(0, 480); (10000000, 480)]%Z 20000000 480 100000 ltac:(lia) ltac:(discriminate)
    ltac:(repeat constructor) ltac:(vm_compute; reflexivity) ltac:(lia)) as (H1 & H2 & H3).
  fold c in H1, H2, H3. change (Clock.total_frames_ c) with 1440%Z in *. split; [exact H1|].
  change (1000000000 mod 48000)%Z with 16000%Z in H3.
  change (1440 + 100000)%Z with 101440%Z in *. lia.
Defined.
