(* ===== verification/Utterance.v ===== *)
(** * Utterances (src/src/audio/utterance.hpp, utterance.cpp)

    The buffer that keeps the last moments of silence, records an utterance
    from them, and hands it out as an immutable slice. Time points are
    nanoseconds, durations milliseconds. The slices are shared objects: the
    buffer keeps weak pointers to those it has issued, so the model has the
    store of their reference counts, as alive or released. *)
From S2P Require Import Prelude Event.

(** [AudioSlice::duration]. *)
Definition slice_duration (a : AudioSlice) : Z :=
  if decide (slice_sample_rate a = 0)%Z then 0%Z
  else Z.quot (u64 (Z.of_nat (length (slice_samples a)) * 1000)) (slice_sample_rate a).

Record buffer := MkBuffer {
  sample_rate_ : Z;
  pre_padding_ms_ : Z;
  post_padding_ms_ : Z;
  max_duration_ms_ : Z;
  max_in_flight_ : nat;
  pre_pad_capacity_ : Z;
  pre_buffer_ : list Z;
  recording_ : bool;
  active_samples_ : list Z;
  active_started_at_ : Z;
  active_speech_started_at_ : Z;
  in_flight_ : list nat;      (** weak pointers, oldest first *)
  drops_ : Z;
  alive : list bool;          (** the store of the slices issued *)
}.
#[global] Instance eta_buffer : Eta buffer := λ s,
  MkBuffer (sample_rate_ s) (pre_padding_ms_ s) (post_padding_ms_ s) (max_duration_ms_ s) (max_in_flight_ s)
    (pre_pad_capacity_ s) (pre_buffer_ s) (recording_ s) (active_samples_ s) (active_started_at_ s)
    (active_speech_started_at_ s) (in_flight_ s) (drops_ s) (alive s).

(** A number of samples from a rate and milliseconds, in [std::size_t]. *)
Definition samples_of (rate ms : Z) : Z := (u64 (rate * u64 ms) / 1000)%Z.

Definition buffer_new (rate pre post : Z) (max_in_flight : nat) (max_duration : Z) : buffer :=
  MkBuffer rate pre post max_duration max_in_flight (samples_of rate pre) [] false [] 0 0 [] 0 [].

(** [while (size > cap) pop_front()]. *)
Fixpoint trim_pre_buffer (cap : Z) (l : list Z) : list Z :=
  match l with
  | [] => []
  | _ :: l' => if decide (cap < Z.of_nat (length l))%Z then trim_pre_buffer cap l' else l
  end.

Definition append (xs : list Z) (s : buffer) : buffer :=
  if decide (xs = []) then s
  else if recording_ s then
    let s := s <| active_samples_ ::= λ l, l ++ xs |> in
    let cap_samples := samples_of (sample_rate_ s) (max_duration_ms_ s) in
    let size := Z.of_nat (length (active_samples_ s)) in
    if decide (0 < cap_samples ∧ cap_samples < size)%Z then
      let drop_ := (size - cap_samples)%Z in
      s <| active_samples_ ::= drop (Z.to_nat drop_) |>
        <| active_started_at_ ::= λ t, (t + Z.quot (drop_ * 1000) (sample_rate_ s) * 1000000)%Z |>
    else s
  else s <| pre_buffer_ ::= λ l, trim_pre_buffer (pre_pad_capacity_ s) (l ++ xs) |>.

Definition on_speech_started (pre_pad_start speech_started_at : Z) (s : buffer) : buffer :=
  s <| recording_ := true |> <| active_speech_started_at_ := speech_started_at |>
    <| active_started_at_ := pre_pad_start |> <| active_samples_ := pre_buffer_ s |>
    <| pre_buffer_ := [] |>.

Definition expired (s : buffer) (id : nat) : bool := negb (default false (alive s !! id)).

(** The tail of [on_speech_ended]: the new slice is tracked, and the oldest
    forgotten when too many are out. [pop_front] needs one to be there. *)
Definition track (id : nat) (s : buffer) : buffer :=
  let live := filter (λ i, expired s i = false) (in_flight_ s) in
  if decide (max_in_flight_ s ≤ length live)
  then s <| in_flight_ := tail live ++ [id] |> <| drops_ ::= λ n, u64 (n + 1) |>
  else s <| in_flight_ := live ++ [id] |>.

Definition target_samples (speech_ended_at : Z) (s : buffer) : Z :=
  let active_dur := (Z.quot (speech_ended_at - active_started_at_ s) 1000000 + post_padding_ms_ s)%Z in
  samples_of (sample_rate_ s) active_dur.

Definition on_speech_ended (speech_ended_at : Z) (s : buffer) : option AudioSlice * buffer :=
  if negb (recording_ s) then (None, s)
  else
    let samples := active_samples_ s in
    let target := target_samples speech_ended_at s in
    let samples := if decide (0 < target ∧ target < Z.of_nat (length samples))%Z
                   then take (Z.to_nat target) samples else samples in
    let slice := {| slice_samples := samples; slice_sample_rate := sample_rate_ s;
                    slice_started_at := active_started_at_ s; slice_ended_at := speech_ended_at |} in
    let id := length (alive s) in
    let s := s <| active_samples_ := [] |> <| recording_ := false |> <| alive ::= λ l, l ++ [true] |> in
    (Some slice, track id s).

(** The last owner of a slice lets go of it. *)
Definition release (id : nat) (s : buffer) : buffer := s <| alive ::= <[id := false]> |>.

Definition abort_active (s : buffer) : buffer :=
  if negb (recording_ s) then s
  else s <| active_samples_ := [] |> <| recording_ := false |> <| active_started_at_ := 0%Z |>
         <| active_speech_started_at_ := 0%Z |>.

Definition in_flight (s : buffer) : nat := length (filter (λ i, expired s i = false) (in_flight_ s)).
Definition active (s : buffer) : bool := recording_ s.
Definition pre_buffer_samples (s : buffer) : nat := length (pre_buffer_ s).
Definition pre_buffer_snapshot (s : buffer) : list Z := pre_buffer_ s.

(** ** Specification *)

(** The last [n] samples. *)
Definition lastn (n : Z) (l : list Z) : list Z := drop (length l - Z.to_nat n) l.

Definition append_all (chunks : list (list Z)) (s : buffer) : buffer := foldl (λ s xs, append xs s) s chunks.

(** ** Lemmas *)

#[local] Arguments lastn : simpl never.
#[local] Arguments trim_pre_buffer : simpl never.
#[local] Arguments samples_of : simpl never.

Lemma trim_lastn cap l : (0 ≤ cap)%Z → trim_pre_buffer cap l = lastn cap l.
Proof.
  intros Hc. unfold lastn. induction l as [|x l IH]; [done|]. unfold trim_pre_buffer; fold trim_pre_buffer.
  case_decide as Hd; cbn [length] in *.
  - rewrite IH. replace (S (length l) - Z.to_nat cap) with (S (length l - Z.to_nat cap)) by lia. done.
  - by replace (S (length l) - Z.to_nat cap) with 0 by lia.
Qed.

Lemma lastn_all n l : (Z.of_nat (length l) ≤ n)%Z → lastn n l = l.
Proof. intros H. unfold lastn. by replace (length l - Z.to_nat n) with 0 by lia. Qed.

Lemma lastn_length n l : length (lastn n l) = Nat.min (length l) (Z.to_nat n).
Proof. unfold lastn. rewrite length_drop. lia. Qed.

(** Cutting on the way changes nothing. *)
Lemma lastn_app n a b : lastn n (lastn n a ++ b) = lastn n (a ++ b).
Proof.
  unfold lastn. rewrite !length_app, length_drop.
  destruct (decide (length a ≤ Z.to_nat n)).
  - replace (length a - Z.to_nat n) with 0 by lia. rewrite drop_0. f_equal. lia.
  - replace (length a - (length a - Z.to_nat n) + length b - Z.to_nat n) with (length b) by lia.
    rewrite !drop_app, length_drop, drop_drop. f_equal; [f_equal|f_equal]; lia.
Qed.

Lemma lastn_keep n a b : (Z.of_nat (length b) ≤ n)%Z → ∃ q, lastn n (a ++ b) = q ++ b ∧ length q ≤ length a.
Proof.
  intros H. exists (drop (length a + length b - Z.to_nat n) a). unfold lastn. rewrite drop_app, length_app, length_drop.
  split; [|lia]. f_equal. by replace (length a + length b - Z.to_nat n - length a) with 0 by lia.
Qed.

Lemma append_all_quiet chunks s :
  recording_ s = false → (0 ≤ pre_pad_capacity_ s)%Z →
  pre_buffer_ s = lastn (pre_pad_capacity_ s) (pre_buffer_ s) →
  append_all chunks s = s <| pre_buffer_ := lastn (pre_pad_capacity_ s) (pre_buffer_ s ++ concat chunks) |>.
Proof.
  revert s. induction chunks as [|xs chunks IH]; intros s Hr Hc Hp; cbn [append_all foldl concat].
  - rewrite app_nil_r, <- Hp. by destruct s.
  - fold (append_all chunks (append xs s)). unfold append. rewrite Hr.
    destruct (decide (xs = [])) as [->|Hx]; [by apply IH|]. rewrite IH; cbn; try done.
    + rewrite !trim_lastn by done. by rewrite lastn_app, <- app_assoc.
    + rewrite trim_lastn by done. rewrite <- (app_nil_r (lastn _ _)) at 2. by rewrite lastn_app, app_nil_r.
Qed.

(** Recording: the last samples up to the limit, and the start moved on. *)
Lemma append_recording chunks s :
  recording_ s = true →
  let cap := samples_of (sample_rate_ s) (max_duration_ms_ s) in
  (Z.of_nat (length (active_samples_ s)) ≤ cap)%Z → (0 < cap)%Z →
  let s' := append_all chunks s in
  active_samples_ s' = lastn cap (active_samples_ s ++ concat chunks) ∧
  recording_ s' = true ∧ sample_rate_ s' = sample_rate_ s ∧ max_duration_ms_ s' = max_duration_ms_ s ∧
  post_padding_ms_ s' = post_padding_ms_ s ∧ pre_buffer_ s' = pre_buffer_ s ∧
  (Z.of_nat (length (active_samples_ s ++ concat chunks)) ≤ cap →
     active_started_at_ s' = active_started_at_ s)%Z.
Proof.
  revert s. induction chunks as [|xs chunks IH]; intros s Hr cap Hl Hc; cbn [append_all foldl concat].
  - by rewrite app_nil_r, lastn_all.
  - fold (append_all chunks (append xs s)).
    assert (append xs s = s <| active_samples_ := lastn cap (active_samples_ s ++ xs) |>
      <| active_started_at_ := active_started_at_ (append xs s) |> ∧
      (Z.of_nat (length (active_samples_ s ++ xs)) ≤ cap →
         active_started_at_ (append xs s) = active_started_at_ s)%Z) as [E Ht].
    { unfold append. rewrite Hr. destruct (decide (xs = [])) as [->|Hx].
      { rewrite app_nil_r, lastn_all by done. split; [by destruct s|done]. }
      cbn [sample_rate_ max_duration_ms_ set_field]. cbv zeta. cbn.
      fold cap. case_decide as Hd; cbn.
      - split; [|lia]. unfold lastn.
        replace (Z.to_nat (Z.of_nat (length (active_samples_ s ++ xs)) - cap))
          with (length (active_samples_ s ++ xs) - Z.to_nat cap) by lia. reflexivity.
      - split; [|done]. rewrite lastn_all by lia. by destruct s. }
    set (t := active_started_at_ (append xs s)) in *. rewrite E. clearbody t. clear E.
    set (s1 := s <| active_samples_ := lastn cap (active_samples_ s ++ xs) |> <| active_started_at_ := t |>).
    assert (active_samples_ s1 = lastn cap (active_samples_ s ++ xs) ∧ recording_ s1 = true ∧
      sample_rate_ s1 = sample_rate_ s ∧ max_duration_ms_ s1 = max_duration_ms_ s ∧
      post_padding_ms_ s1 = post_padding_ms_ s ∧ pre_buffer_ s1 = pre_buffer_ s ∧ active_started_at_ s1 = t)
      as (E1 & E2 & E3 & E4 & E5 & E6 & E7) by done.
    clearbody s1. specialize (IH s1 E2). cbn zeta in IH. rewrite E1, E3, E4, E5, E6, E7 in IH. fold cap in IH.
    rewrite lastn_length, lastn_app, <- app_assoc in IH.
    destruct IH as (I1 & I2 & I3 & I4 & I5 & I6 & I7); [lia|done|].
    split_and!; try done. intros Hle. rewrite !length_app in Hle.
    rewrite I7; [apply Ht|]; rewrite ?length_app, ?lastn_length, ?length_app; lia.
Qed.

(** The slice of an utterance recorded by one start and one end. *)
Lemma samples_of_nonneg rate m : (0 ≤ samples_of rate m)%Z.
Proof. unfold samples_of, u64. apply Z.div_pos; [apply Z.mod_pos_bound|]; lia. Qed.

Lemma samples_of_exact rate m :
  (0 ≤ rate < 2 ^ 32)%Z → (0 ≤ m < 2 ^ 31)%Z → samples_of rate m = (rate * m / 1000)%Z.
Proof. intros H1 H2. unfold samples_of, u64. rewrite (Z.mod_small m), Z.mod_small; [done|nia|lia]. Qed.

(** The weak pointers kept are at most [max_in_flight], or one. *)
Lemma track_bounded id s :
  length (in_flight_ s) ≤ Nat.max 1 (max_in_flight_ s) →
  length (in_flight_ (track id s)) ≤ Nat.max 1 (max_in_flight_ s).
Proof.
  intros H. unfold track. set (live := filter _ _).
  assert (length live ≤ length (in_flight_ s)) by apply length_filter.
  case_decide; cbn; rewrite length_app; cbn; [|lia]. destruct live; cbn in *; lia.
Qed.

Lemma track_recording id s : recording_ (track id s) = recording_ s.
Proof. unfold track. by case_decide. Qed.

(** ** Properties *)

(** [C21] What the recogniser gets. An utterance started after any chunks of
    silence and ended after any chunks of speech is one slice: the last
    pre-padding of the silence followed by the speech, of that the last
    [max_duration], cut at the post-padding after the reported end; its
    start is the time given while the limit is not reached. When the audio
    comes at most as fast as the clock runs, and the start is reported a
    pre-padding early, nothing is cut: the end that is reported after the
    hangover leaves the whole hangover in the slice. *)
Theorem slice_exact rate pre post mif maxd quiet mid t_pre t_start t_end :
  (0 < rate < 2 ^ 32)%Z → (0 ≤ pre < 2 ^ 29)%Z → (0 ≤ post < 2 ^ 29)%Z →
  let cap := samples_of rate maxd in
  (0 < cap)%Z → (samples_of rate pre ≤ cap)%Z →
  let s := on_speech_started t_pre t_start (append_all quiet (buffer_new rate pre post mif maxd)) in
  let heard := lastn (samples_of rate pre) (concat quiet) ++ concat mid in
  let '(a, s') := on_speech_ended t_end (append_all mid s) in
  ∃ sl, a = Some sl ∧ recording_ s' = false ∧ slice_sample_rate sl = rate ∧ slice_ended_at sl = t_end ∧
    (let target := samples_of rate (Z.quot (t_end - slice_started_at sl) 1000000 + post) in
     slice_samples sl = (if decide (target = 0)%Z then id else take (Z.to_nat target)) (lastn cap heard)) ∧
    (Z.of_nat (length heard) ≤ cap → slice_started_at sl = t_pre)%Z ∧
    ((Z.of_nat (length heard) ≤ cap)%Z → t_pre = (t_start - pre * 1000000)%Z →
     (t_start ≤ t_end < t_start + 2 ^ 29 * 1000000)%Z →
     (Z.of_nat (length (concat mid)) * 1000 ≤ rate * ((t_end - t_start) / 1000000 + post))%Z →
     slice_samples sl = heard).
Proof.
  intros Hr Hp Hpo cap Hc Hcap s heard.
  assert (append_all quiet (buffer_new rate pre post mif maxd) = (buffer_new rate pre post mif maxd)
    <| pre_buffer_ := lastn (samples_of rate pre) (concat quiet) |>) as Eq.
  { rewrite append_all_quiet; [done|done|apply samples_of_nonneg|]. unfold lastn. cbn. by rewrite drop_nil. }
  unfold s. rewrite Eq. clear s Eq. set (s := on_speech_started _ _ _).
  assert (active_samples_ s = lastn (samples_of rate pre) (concat quiet) ∧ recording_ s = true ∧
    sample_rate_ s = rate ∧ max_duration_ms_ s = maxd ∧ post_padding_ms_ s = post ∧ active_started_at_ s = t_pre)
    as (E1 & E2 & E3 & E4 & E5 & E6) by done.
  clearbody s. pose proof (samples_of_nonneg rate pre) as Hn.
  pose proof (append_recording mid s E2) as Ha. cbn zeta in Ha. rewrite E1, E3, E4, E5, E6 in Ha. fold cap heard in Ha.
  rewrite lastn_length in Ha. destruct Ha as (A1 & A2 & A3 & _ & A5 & _ & A7); [lia|done|].
  set (s1 := append_all mid s) in *. clearbody s1. unfold on_speech_ended. rewrite A2. cbn [negb].
  set (target := target_samples t_end s1). set (sl := Build_AudioSlice _ _ _ _).
  exists sl. assert (slice_samples sl = (if decide (target = 0)%Z then id else take (Z.to_nat target)) (lastn cap heard)) as Hs.
  { unfold sl. cbn [slice_samples]. rewrite A1. assert (0 ≤ target)%Z by apply samples_of_nonneg.
    repeat case_decide; try lia; try done. cbn. rewrite take_ge; [done|lia]. }
  split; [done|]. split; [by rewrite track_recording|]. split; [done|]. split; [done|].
  split; [unfold target, target_samples in Hs; rewrite A3, A5 in Hs; exact Hs|].
  split; [done|]. intros Hl Ht Hte Hrt. rewrite Hs, lastn_all by done. case_decide; [done|].
  rewrite take_ge; [done|]. unfold target, target_samples. rewrite A3, A5, A7 by done. rewrite Ht.
  replace (t_end - (t_start - pre * 1000000))%Z with (t_end - t_start + pre * 1000000)%Z by lia.
  rewrite Z.quot_div_nonneg by lia. rewrite Z.div_add by lia.
  assert (0 ≤ (t_end - t_start) / 1000000 < 2 ^ 29)%Z as Hd.
  { split; [apply Z.div_pos; lia|apply Z.div_lt_upper_bound; lia]. }
  set (d := ((t_end - t_start) / 1000000)%Z) in *. clearbody d.
  unfold heard. rewrite length_app, lastn_length, !samples_of_exact by lia.
  pose proof (Z.div_mod (rate * pre) 1000 ltac:(lia)). pose proof (Z.mod_pos_bound (rate * pre) 1000 ltac:(lia)).
  assert (rate * pre / 1000 + Z.of_nat (length (concat mid)) ≤ rate * (d + pre + post) / 1000)%Z; [|lia].
  apply Z.div_le_lower_bound; nia.
Qed.

Lemma slice_exact_witness :
  let s := on_speech_started 700000000 1000000000 (append_all [[1; 2]; [3; 4]]%Z (buffer_new 10 300 100 3 60000)) in
  ∃ sl, (on_speech_ended 1600000000 (append_all [[5; 6]; [7]; [8; 9; 10]]%Z s)).1 = Some sl ∧
    slice_samples sl = [2; 3; 4; 5; 6; 7; 8; 9; 10]%Z.
Proof.
  intros s.
  pose proof (slice_exact 10 300 100 3 60000 [[1; 2]; [3; 4]]%Z [[5; 6]; [7]; [8; 9; 10]]%Z 700000000 1000000000 1600000000
    ltac:(lia) ltac:(lia) ltac:(lia) ltac:(vm_compute; reflexivity) ltac:(vm_compute; discriminate)) as H.
  cbn zeta in H. fold s in H. destruct (on_speech_ended _ _) as [a s'].
  destruct H as (sl & -> & _ & _ & _ & _ & _ & H). exists sl. split; [reflexivity|].
  apply H; [vm_compute; discriminate|reflexivity|lia|vm_compute; discriminate].
Defined.
