(* ===== verification/AudioPipeline.v ===== *)
(** * The capture pipeline (src/src/audio/pipeline.hpp, pipeline.cpp)

    The consumer of the capture ring: each frame is resampled, cleaned by the
    echo canceller in blocks of 10 ms, recorded, scored by the voice-activity
    detector and given to the endpointer, whose outcomes make the events. The
    resampler (libsoxr), the detector (Silero on ONNX Runtime) and the echo
    canceller (WebRTC) are arguments: a state and a function each. The energy
    gate computes in IEEE doubles, as the code does. *)
From S2P Require Import Prelude Endpointer SpscRing Capture Utterance Event.

(** ** The energy gate *)

Definition sum_squares (samples : list Z) : Z := foldl (λ sum_sq s, u64 (sum_sq + s * s)) 0%Z samples.

Definition rms (samples : list Z) : spec_float :=
  SFsqrt 53 1024 (SFdiv 53 1024 (double_of (sum_squares samples)) (double_of (Z.of_nat (length samples)))).

Definition low_rms (min_utterance_rms : Z) (samples : list Z) : bool :=
  if decide (0 < min_utterance_rms)%Z
  then if decide (samples = []) then false else SFltb (rms samples) (double_of min_utterance_rms)
  else false.

Section pipeline.
Context {R V A : Type}.
Context (resample : list Z → R → list Z * R).
Context (push_frame : list Z → V → fl * V).
Context (aec_active : A → bool) (apm_process : list Z → Z → A → list Z * A).

Record config := MkConfig {
  output_sample_rate : Z;
  endpointer_cfg : Endpointer.EndpointerConfig;
  pre_padding_ms : Z;
  post_padding_ms : Z;
  max_in_flight : nat;
  max_duration_ms : Z;
  min_utterance_rms : Z;
}.

Record pipeline := MkPipeline {
  cfg_ : config;
  resampler_ : R;
  vad_ : option V;
  apm_ : option A;
  endpointer_ : Endpointer.endpointer;
  utterance_buffer_ : buffer;
  frames_processed_ : Z;
  utterances_total_ : Z;
  false_starts_total_ : Z;
  low_rms_drops_total_ : Z;
  last_vad_p_ : fl;
  apm_carry_ : list Z;
  test_probability_ : fl;
  live_sink_ : bool;
  in_speech_ : bool;
}.
#[global] Instance eta_pipeline : Eta pipeline := λ s,
  MkPipeline (cfg_ s) (resampler_ s) (vad_ s) (apm_ s) (endpointer_ s) (utterance_buffer_ s) (frames_processed_ s)
    (utterances_total_ s) (false_starts_total_ s) (low_rms_drops_total_ s) (last_vad_p_ s) (apm_carry_ s)
    (test_probability_ s) (live_sink_ s) (in_speech_ s).

Definition pipeline_new (c : config) (r : R) (v : option V) (a : option A) (sink : bool) : pipeline :=
  MkPipeline c r v a (Endpointer.endpointer_new (endpointer_cfg c) (output_sample_rate c))
    (buffer_new (output_sample_rate c) (pre_padding_ms c) (post_padding_ms c) (max_in_flight c) (max_duration_ms c))
    0 0 0 0 (Some 0%Q) [] (Some (-1)%Q) sink false.

Inductive Out := Publish (e : Event) | LiveSink (samples : list Z).

(** The echo canceller on whole blocks; the rest is carried over. The loop
    makes progress when a block is not empty, which is every rate from 100. *)
Fixpoint apm_blocks (fuel block : nat) (t : Z) (carry : list Z) (a : A) : list Z * list Z * A :=
  match fuel with
  | O => ([], carry, a)
  | S fuel =>
      if decide (block ≤ length carry) then
        let '(out, a) := apm_process (take block carry) t a in
        let '(cleaned, rest, a) := apm_blocks fuel block t (drop block carry) a in
        (out ++ cleaned, rest, a)
      else ([], carry, a)
  end.

(** The AEC stage: what goes on downstream, [None] when no block is full. *)
Definition aec_stage (t : Z) (resampled : list Z) (s : pipeline) : option (list Z) * pipeline :=
  match apm_ s with
  | Some a =>
      if aec_active a then
        let apm_frame_samples := Z.to_nat (output_sample_rate (cfg_ s) / 100) in
        let carry := apm_carry_ s ++ resampled in
        let '(cleaned, rest, a) := apm_blocks (S (length carry)) apm_frame_samples t carry a in
        let s := s <| apm_ := Some a |> <| apm_carry_ := rest |> in
        (if decide (cleaned = []) then None else Some cleaned, s)
      else (Some resampled, s)
  | None => (Some resampled, s)
  end.

Definition on_speech_started (t : Z) (resampled : list Z) (s : pipeline) : pipeline * list Out :=
  let pre_pad_start := (t - pre_padding_ms (cfg_ s) * 1000000)%Z in
  let pre_pad := pre_buffer_snapshot (utterance_buffer_ s) in
  (s <| utterance_buffer_ ::= Utterance.on_speech_started pre_pad_start t |> <| in_speech_ := true |>,
   (if live_sink_ s
    then (if decide (pre_pad = []) then [] else [LiveSink pre_pad]) ++ [LiveSink resampled] else [])
   ++ [Publish (SpeechStarted kNoTurn t)]).

Definition on_speech_ended (t : Z) (s : pipeline) : pipeline * list Out :=
  let '(slice, u) := Utterance.on_speech_ended t (utterance_buffer_ s) in
  let s := s <| utterance_buffer_ := u |> <| in_speech_ := false |> in
  let ended := Publish (SpeechEnded kNoTurn t) in
  match slice with
  | None => (s, [ended])
  | Some a =>
      if low_rms (min_utterance_rms (cfg_ s)) (slice_samples a)
      then (s <| low_rms_drops_total_ ::= λ n, u64 (n + 1) |>
              <| utterance_buffer_ ::= λ u, release (length (alive u) - 1) u |>, [ended])
      else (s <| utterances_total_ ::= λ n, u64 (n + 1) |>, [ended; Publish (UtteranceReady kNoTurn (Some a))])
  end.

(** The rest of [process_frame], with the audio it works on. *)
Definition deliver (t : Z) (resampled : list Z) (s : pipeline) : pipeline * list Out :=
  let s := s <| utterance_buffer_ ::= append resampled |> in
  let live := if in_speech_ s && live_sink_ s then [LiveSink resampled] else [] in
  let s := match vad_ s with
           | Some v => let '(p, v) := push_frame resampled v in s <| last_vad_p_ := p |> <| vad_ := Some v |>
           | None => s
           end in
  let s := if fl_le (Some 0%Q) (test_probability_ s) then s <| last_vad_p_ := test_probability_ s |> else s in
  let frame_dur := Z.quot (Z.of_nat (length resampled) * 1000) (output_sample_rate (cfg_ s)) in
  let '(outcome, e) := Endpointer.on_frame (Endpointer.MkFrame (last_vad_p_ s) frame_dur t) (endpointer_ s) in
  let s := s <| endpointer_ := e |> in
  let '(s, os) := match outcome with
                  | Endpointer.None_ => (s, [])
                  | Endpointer.SpeechStarted => on_speech_started t resampled s
                  | Endpointer.FalseStart => (s <| false_starts_total_ ::= λ n, u64 (n + 1) |>, [])
                  | Endpointer.SpeechEnded => on_speech_ended t s
                  end in
  (s, live ++ os).

Definition process_frame (frame : AudioFrame) (s : pipeline) : pipeline * list Out :=
  let s := s <| frames_processed_ ::= λ n, u64 (n + 1) |> in
  let '(resampled, r) := resample (view frame) (resampler_ s) in
  let s := s <| resampler_ := r |> in
  if decide (resampled = []) then (s, [])
  else
    let '(audio, s) := aec_stage (captured_at frame) resampled s in
    match audio with
    | None => (s, [])
    | Some audio => deliver (captured_at frame) audio s
    end.

(** A run: frames from the ring, the test hook, and consumers that let go of
    a slice. *)
Inductive Label := Frame (f : AudioFrame) | SetTestProbability (p : fl) | Release (id : nat).
Definition step (l : Label) (s : pipeline) : pipeline * list Out :=
  match l with
  | Frame f => process_frame f s
  | SetTestProbability p => (s <| test_probability_ := p |>, [])
  | Release id => (s <| utterance_buffer_ ::= release id |>, [])
  end.
Fixpoint run (ls : list Label) (s : pipeline) : pipeline * list Out :=
  match ls with
  | [] => (s, [])
  | l :: ls => let '(s, o1) := step l s in let '(s, o2) := run ls s in (s, o1 ++ o2)
  end.

(** ** Specification *)

Definition published (os : list Out) : list Event :=
  omap (λ o, match o with Publish e => Some e | LiveSink _ => None end) os.
Definition sunk (os : list Out) : list Z :=
  flat_map (λ o, match o with LiveSink x => x | Publish _ => [] end) os.

(** The order of the events on the bus: a start, then an end, then perhaps
    the utterance. *)
Inductive Phase := Waiting | Talking | Ended.
#[global] Instance Phase_eq_dec : EqDecision Phase.
Proof. solve_decision. Defined.
Definition phase_step (p : Phase) (e : Event) : option Phase :=
  match p, e with
  | (Waiting | Ended), SpeechStarted _ _ => Some Talking
  | Talking, SpeechEnded _ _ => Some Ended
  | Ended, UtteranceReady _ (Some _) => Some Waiting
  | _, _ => None
  end.
Fixpoint phase_run (p : Phase) (es : list Event) : option Phase :=
  match es with [] => Some p | e :: es => phase_step p e ≫= λ p, phase_run p es end.

Definition is_end (e : Event) : bool := match e with SpeechEnded _ _ => true | _ => false end.
Definition is_ready (e : Event) : bool := match e with UtteranceReady _ _ => true | _ => false end.
Definition counted (P : Event → bool) (os : list Out) : Z :=
  Z.of_nat (length (List.filter P (published os))).

(** The parts agree on whether an utterance is going on, and the buffer is
    the one the configuration asks for. *)
Record pipe_inv (s : pipeline) : Prop := {
  pi_recording : recording_ (utterance_buffer_ s) = in_speech_ s;
  pi_endpointer : Endpointer.speaking (Endpointer.state_ (endpointer_ s)) = in_speech_ s;
  pi_tracked : length (in_flight_ (utterance_buffer_ s)) ≤ Nat.max 1 (max_in_flight_ (utterance_buffer_ s));
  pi_total : (0 ≤ utterances_total_ s < 2 ^ 64)%Z;
}.

(** What one step does to the phase and the counters. *)
Record step_ok (s s' : pipeline) (os : list Out) : Prop := {
  so_inv : pipe_inv s';
  so_phase : ∀ p, (in_speech_ s = true ↔ p = Talking) →
    ∃ p', phase_run p (published os) = Some p' ∧ (in_speech_ s' = true ↔ p' = Talking);
  so_ready : utterances_total_ s' = u64 (utterances_total_ s + counted is_ready os);
  so_ended : (u64 (utterances_total_ s' + low_rms_drops_total_ s')
              = u64 (utterances_total_ s + low_rms_drops_total_ s + counted is_end os));
}.

(** ** Lemmas *)

Lemma phase_run_app p es1 es2 : phase_run p (es1 ++ es2) = phase_run p es1 ≫= λ p, phase_run p es2.
Proof. revert p. induction es1 as [|e es1 IH]; intros p; [done|]. cbn. destruct (phase_step p e); [apply IH|done]. Qed.

Lemma published_app a b : published (a ++ b) = published a ++ published b.
Proof. apply omap_app. Qed.

Lemma counted_app P a b : counted P (a ++ b) = (counted P a + counted P b)%Z.
Proof. unfold counted. rewrite published_app, List.filter_app, length_app. lia. Qed.

Lemma append_kept xs u :
  recording_ (append xs u) = recording_ u ∧ in_flight_ (append xs u) = in_flight_ u ∧
  max_in_flight_ (append xs u) = max_in_flight_ u ∧ sample_rate_ (append xs u) = sample_rate_ u ∧
  max_duration_ms_ (append xs u) = max_duration_ms_ u.
Proof. unfold append. repeat case_match; done. Qed.

Lemma on_frame_speaking f e :
  let '(o, e') := Endpointer.on_frame f e in
  let b := Endpointer.speaking (Endpointer.state_ e) in
  let b' := Endpointer.speaking (Endpointer.state_ e') in
  match o with
  | Endpointer.SpeechStarted => b = false ∧ b' = true
  | Endpointer.SpeechEnded => b = true ∧ b' = false
  | Endpointer.None_ | Endpointer.FalseStart => b' = b
  end.
Proof.
  unfold Endpointer.on_frame. destruct (Endpointer.state_ e) eqn:E; cbn; rewrite ?E; repeat case_match;
    simplify_eq; cbn; rewrite ?E; done.
Qed.

Lemma u64_add a b : u64 (u64 a + b) = u64 (a + b).
Proof. unfold u64. apply Zplus_mod_idemp_l. Qed.

Lemma u64_range z : (0 ≤ u64 z < 2 ^ 64)%Z.
Proof. apply Z.mod_pos_bound. lia. Qed.

(** A step that publishes nothing. *)
Lemma quiet_step s s' os :
  pipe_inv s → published os = [] →
  recording_ (utterance_buffer_ s') = recording_ (utterance_buffer_ s) →
  in_flight_ (utterance_buffer_ s') = in_flight_ (utterance_buffer_ s) →
  max_in_flight_ (utterance_buffer_ s') = max_in_flight_ (utterance_buffer_ s) →
  Endpointer.speaking (Endpointer.state_ (endpointer_ s')) = Endpointer.speaking (Endpointer.state_ (endpointer_ s)) →
  in_speech_ s' = in_speech_ s →
  utterances_total_ s' = utterances_total_ s → low_rms_drops_total_ s' = low_rms_drops_total_ s →
  step_ok s s' os.
Proof.
  intros [I1 I2 I3 I4] Hp H1 H2 H3 H4 H5 H6 H7. split; unfold counted; rewrite ?Hp.
  - split; by rewrite ?H1, ?H2, ?H3, ?H4, ?H5, ?H6.
  - intros p. exists p. by rewrite H5.
  - cbn. rewrite H6, Z.add_0_r. symmetry. by apply Z.mod_small.
  - cbn. by rewrite H6, H7, Z.add_0_r.
Qed.

Lemma started_step t x s :
  recording_ (utterance_buffer_ s) = in_speech_ s → in_speech_ s = false →
  length (in_flight_ (utterance_buffer_ s)) ≤ Nat.max 1 (max_in_flight_ (utterance_buffer_ s)) →
  (0 ≤ utterances_total_ s < 2 ^ 64)%Z → Endpointer.speaking (Endpointer.state_ (endpointer_ s)) = true →
  let '(s', os) := on_speech_started t x s in step_ok s s' os.
Proof.
  intros H1 H2 H3 H4 H5. unfold on_speech_started.
  set (sk := if live_sink_ s then _ else _). assert (published (sk ++ [Publish (SpeechStarted kNoTurn t)]) = [SpeechStarted kNoTurn t]) as Hp.
  { rewrite published_app. unfold sk. by repeat case_match. }
  split; unfold counted; rewrite ?Hp.
  - split; try done.
  - intros p Hp'. exists Talking. split; [|done]. rewrite H2 in Hp'. destruct p; [done|discriminate (proj2 Hp' eq_refl)|done].
  - cbn. rewrite Z.add_0_r. symmetry. by apply Z.mod_small.
  - cbn. by rewrite Z.add_0_r.
Qed.

Lemma ended_step t s :
  recording_ (utterance_buffer_ s) = in_speech_ s → in_speech_ s = true →
  length (in_flight_ (utterance_buffer_ s)) ≤ Nat.max 1 (max_in_flight_ (utterance_buffer_ s)) →
  (0 ≤ utterances_total_ s < 2 ^ 64)%Z → Endpointer.speaking (Endpointer.state_ (endpointer_ s)) = false →
  let '(s', os) := on_speech_ended t s in step_ok s s' os.
Proof.
  intros H1 H2 H3 H4 H5. unfold on_speech_ended, Utterance.on_speech_ended. rewrite H1, H2. cbn [negb].
  set (sl := Build_AudioSlice _ _ _ _). set (u := _ <| alive ::= _ |>).
  assert (recording_ u = false ∧ in_flight_ u = in_flight_ (utterance_buffer_ s) ∧
    max_in_flight_ u = max_in_flight_ (utterance_buffer_ s)) as (U1 & U2 & U3) by done.
  clearbody u sl. set (id := length _). clearbody id. rewrite <- U2, <- U3 in H3.
  pose proof (track_bounded id u H3) as Hb. pose proof (track_recording id u) as Hr. rewrite U1 in Hr.
  assert (max_in_flight_ (track id u) = max_in_flight_ u) as Hm by (unfold track; by case_decide).
  rewrite <- Hm in Hb. set (u' := track id u) in *. clearbody u'.
  destruct (low_rms _ _); split; unfold counted; cbn; try (split; cbn; try done; apply u64_range).
  - intros p Hp. exists Ended. split; [|done]. by rewrite (proj1 Hp H2).
  - rewrite Z.add_0_r. symmetry. by apply Z.mod_small.
  - unfold u64. rewrite Zplus_mod_idemp_r. f_equal. lia.
  - intros p Hp. exists Waiting. split; [|done]. by rewrite (proj1 Hp H2).
  - unfold u64. rewrite Zplus_mod_idemp_l. f_equal. lia.
Qed.

Lemma step_ok_prefix s1 s s' live os :
  published live = [] → in_speech_ s = in_speech_ s1 → utterances_total_ s = utterances_total_ s1 →
  low_rms_drops_total_ s = low_rms_drops_total_ s1 → step_ok s1 s' os → step_ok s s' (live ++ os).
Proof.
  intros Hl H1 H2 H3 [S1 S2 S3 S4]. split; unfold counted in *; rewrite ?published_app, ?Hl, ?H1, ?H2, ?H3; done.
Qed.

Lemma pipeline_deliver_ok t x s : pipe_inv s → let '(s', os) := deliver t x s in step_ok s s' os.
Proof.
  intros [I1 I2 I3 I4]. unfold deliver.
  destruct (append_kept x (utterance_buffer_ s)) as (A1 & A2 & A3 & _).
  set (live := if _ && _ then _ else _).
  assert (published live = []) as Hl by (unfold live; by case_match).
  match goal with |- context [Endpointer.MkFrame (last_vad_p_ ?s1) _ _] => set (s2 := s1) end.
  assert (utterance_buffer_ s2 = append x (utterance_buffer_ s) ∧ endpointer_ s2 = endpointer_ s ∧
    in_speech_ s2 = in_speech_ s ∧ utterances_total_ s2 = utterances_total_ s ∧
    low_rms_drops_total_ s2 = low_rms_drops_total_ s) as (B1 & B2 & B3 & B4 & B5).
  { unfold s2. cbn. destruct (vad_ s) as [v|]; [destruct (push_frame x v)|]; case_match; done. }
  clearbody s2 live. set (fr := Endpointer.MkFrame _ _ _). clearbody fr. rewrite B2.
  pose proof (on_frame_speaking fr (endpointer_ s)) as He.
  destruct (Endpointer.on_frame fr (endpointer_ s)) as [o e]. cbn zeta in He. rewrite I2 in He.
  set (s3 := s2 <| endpointer_ := e |>).
  assert (utterance_buffer_ s3 = append x (utterance_buffer_ s) ∧ endpointer_ s3 = e ∧
    in_speech_ s3 = in_speech_ s ∧ utterances_total_ s3 = utterances_total_ s ∧
    low_rms_drops_total_ s3 = low_rms_drops_total_ s) as (C1 & C2 & C3 & C4 & C5) by done.
  clearbody s3. clear B1 B2 B3 B4 B5 s2. destruct o.
  - rewrite app_nil_r. apply quiet_step; try done; by rewrite ?C1, ?C2, ?I2.
  - destruct He as [He1 He2]. pose proof (started_step t x s3) as Hs. rewrite C1, C2, C3, C4, A1, A2, A3 in Hs.
    specialize (Hs I1 He1 I3 I4 He2). destruct (on_speech_started t x s3) as [s' os].
    by apply (step_ok_prefix s3).
  - destruct He as [He1 He2]. pose proof (ended_step t s3) as Hs. rewrite C1, C2, C3, C4, A1, A2, A3 in Hs.
    specialize (Hs I1 He1 I3 I4 He2). destruct (on_speech_ended t s3) as [s' os].
    by apply (step_ok_prefix s3).
  - rewrite app_nil_r. apply quiet_step; try done; cbn; by rewrite ?C1, ?C2, ?I2.
Qed.

Lemma aec_kept t x s :
  let s' := (aec_stage t x s).2 in
  utterance_buffer_ s' = utterance_buffer_ s ∧ endpointer_ s' = endpointer_ s ∧ in_speech_ s' = in_speech_ s ∧
  utterances_total_ s' = utterances_total_ s ∧ low_rms_drops_total_ s' = low_rms_drops_total_ s ∧
  live_sink_ s' = live_sink_ s.
Proof.
  unfold aec_stage. destruct (apm_ s); [|done]. case_match; [|done].
  by destruct (apm_blocks _ _ _ _ _) as [[cleaned rest] a'].
Qed.

Lemma step_ok_run l s : pipe_inv s → let '(s', os) := step l s in step_ok s s' os.
Proof.
  intros I. destruct l as [f|p|id]; cbn [step]; [|by apply quiet_step..]. unfold process_frame.
  destruct (resample (view f) _) as [xs r]. case_decide; [by apply quiet_step|].
  match goal with |- context [aec_stage _ _ ?s1] => set (s2 := s1) end.
  assert (utterance_buffer_ s2 = utterance_buffer_ s ∧ endpointer_ s2 = endpointer_ s ∧ in_speech_ s2 = in_speech_ s ∧
    utterances_total_ s2 = utterances_total_ s ∧ low_rms_drops_total_ s2 = low_rms_drops_total_ s)
    as (B1 & B2 & B3 & B4 & B5) by done.
  clearbody s2. pose proof (aec_kept (captured_at f) xs s2) as Ha.
  destruct (aec_stage (captured_at f) xs s2) as [au s3]. cbn [snd] in Ha.
  destruct Ha as (A1 & A2 & A3 & A4 & A5 & _). rewrite B1 in A1. rewrite B2 in A2. rewrite B3 in A3. rewrite B4 in A4.
  rewrite B5 in A5. destruct au as [au|]; [|apply quiet_step; by rewrite ?A1, ?A2, ?A3, ?A4, ?A5].
  assert (pipe_inv s3) as I3 by (destruct I; split; by rewrite ?A1, ?A2, ?A3, ?A4).
  pose proof (pipeline_deliver_ok (captured_at f) au s3 I3) as Hd. destruct (deliver _ au s3) as [s' os].
  by apply (step_ok_prefix s3 s s' []).
Qed.

Lemma pipeline_run_ok ls s : pipe_inv s → let '(s', os) := run ls s in step_ok s s' os.
Proof.
  revert s. induction ls as [|l ls IH]; intros s I; [by apply quiet_step|]. cbn [run].
  pose proof (step_ok_run l s I) as H1. destruct (step l s) as [s1 o1]. destruct H1 as [I1 P1 R1 E1].
  specialize (IH s1 I1). destruct (run ls s1) as [s2 o2]. destruct IH as [I2 P2 R2 E2].
  split; [done| | |].
  - intros p Hp. destruct (P1 p Hp) as (p1 & Hp1 & Hs1). destruct (P2 p1 Hs1) as (p2 & Hp2 & Hs2).
    exists p2. rewrite published_app, phase_run_app, Hp1. done.
  - rewrite R2, R1, counted_app, u64_add. f_equal. lia.
  - rewrite E2, counted_app. rewrite <- u64_add, E1, u64_add. f_equal. lia.
Qed.

Lemma pipeline_new_inv c r v a sink : pipe_inv (pipeline_new c r v a sink).
Proof. split; cbn; done || lia. Qed.

(** The chunk that starts an utterance, and the chunks of its middle. *)
Lemma deliver_starting t x s :
  pipe_inv s → live_sink_ s = true → in_speech_ s = false →
  let '(s', os) := deliver t x s in
  in_speech_ s' = true →
  let u := append x (utterance_buffer_ s) in
  live_sink_ s' = true ∧ sunk os = pre_buffer_ u ++ x ∧
  utterance_buffer_ s' = Utterance.on_speech_started (t - pre_padding_ms (cfg_ s) * 1000000) t u.
Proof.
  intros I Hk Hn. unfold deliver. set (live := if _ && _ then _ else _).
  assert (live = []) as -> by (unfold live; cbn; by rewrite Hn).
  match goal with |- context [Endpointer.MkFrame (last_vad_p_ ?s1) _ _] => set (s2 := s1) end.
  assert (utterance_buffer_ s2 = append x (utterance_buffer_ s) ∧ in_speech_ s2 = false ∧ live_sink_ s2 = true ∧
    cfg_ s2 = cfg_ s) as (B1 & B2 & B3 & B4).
  { unfold s2. cbn. destruct (vad_ s) as [v|]; [destruct (push_frame x v)|]; case_match; done. }
  clearbody s2. destruct (Endpointer.on_frame _ _) as [o e]. destruct o; cbn; rewrite ?B2; try done.
  - intros _. rewrite B1, B3, B4. split; [done|]. split; [|done].
    unfold pre_buffer_snapshot. case_decide as Hd; cbn; rewrite ?app_nil_r; [by rewrite Hd|done].
  - destruct I. unfold on_speech_ended, Utterance.on_speech_ended.
    assert (recording_ (append x (utterance_buffer_ s)) = false) as Hr.
    { rewrite (proj1 (append_kept _ _)). congruence. }
    cbn. rewrite B1, Hr. cbn. done.
Qed.

Lemma deliver_speaking t x s :
  live_sink_ s = true → in_speech_ s = true →
  let '(s', os) := deliver t x s in
  published os = [] →
  in_speech_ s' = true ∧ live_sink_ s' = true ∧ sunk os = x ∧
  utterance_buffer_ s' = append x (utterance_buffer_ s).
Proof.
  intros Hk Hn. unfold deliver. set (live := if _ && _ then _ else _).
  assert (live = [LiveSink x]) as ->.
  { unfold live. cbn. by rewrite Hn, Hk. }

  match goal with |- context [Endpointer.MkFrame (last_vad_p_ ?s1) _ _] => set (s2 := s1) end.
  assert (utterance_buffer_ s2 = append x (utterance_buffer_ s) ∧ in_speech_ s2 = true ∧ live_sink_ s2 = true)
    as (B1 & B2 & B3).
  { unfold s2. cbn. destruct (vad_ s) as [v|]; [destruct (push_frame x v)|]; case_match; done. }
  clearbody s2. destruct (Endpointer.on_frame _ _) as [o e]. destruct o.
  - intros _. cbn. rewrite B1, B2, B3, app_nil_r. done.
  - unfold on_speech_started. set (s3 := _ <| endpointer_ := _ |>). clearbody s3. intros H.
    exfalso. revert H. cbn. rewrite published_app. cbn. destruct (published _); done.
  - unfold on_speech_ended. destruct (Utterance.on_speech_ended _ _) as [[a|] u]; cbn; [|done].
    destruct (low_rms _ _); cbn; done.
  - intros _. cbn. rewrite B1, B2, B3, app_nil_r. done.
Qed.

Fixpoint deliver_all (xs : list (Z * list Z)) (s : pipeline) : pipeline * list Out :=
  match xs with
  | [] => (s, [])
  | (t, x) :: xs => let '(s, o1) := deliver t x s in let '(s, o2) := deliver_all xs s in (s, o1 ++ o2)
  end.

Lemma deliver_all_speaking xs s :
  live_sink_ s = true → in_speech_ s = true →
  let '(s', os) := deliver_all xs s in
  published os = [] →
  sunk os = concat xs.*2 ∧ utterance_buffer_ s' = append_all xs.*2 (utterance_buffer_ s).
Proof.
  revert s. induction xs as [|[t x] xs IH]; intros s Hk Hn; [done|]. cbn [deliver_all].
  pose proof (deliver_speaking t x s Hk Hn) as Hd. destruct (deliver t x s) as [s1 o1].
  specialize (IH s1). destruct (deliver_all xs s1) as [s2 o2]. rewrite published_app.
  intros [H1 H2]%app_eq_nil. destruct (Hd H1) as (D1 & D2 & D3 & D4). destruct (IH D2 D1 H2) as [E1 E2].
  rewrite fmap_cons. cbn [snd concat append_all foldl]. unfold sunk in *. rewrite flat_map_app, D3, E1, E2, D4. done.
Qed.
End pipeline.

(** ** Properties *)

(** [C22] The events of the capture path. Whatever the audio, the resampler,
    the detector and the echo canceller do, the events are published in turn
    as the start, the end and then perhaps the utterance; between a start
    and its end the buffer records and the endpointer is in speech, and not
    otherwise; every end is an utterance or counted as too quiet; and the
    buffer tracks at most [max_in_flight] slices. *)
Theorem pipeline_protocol {R V A} resample push active process (c : config) (r : R) (v : option V) (a : option A) sink ls :
  let '(s, os) := run resample push active process ls (pipeline_new c r v a sink) in
  (∃ p, phase_run Waiting (published os) = Some p ∧ (in_speech_ s = true ↔ p = Talking)) ∧
  recording_ (utterance_buffer_ s) = in_speech_ s ∧
  Endpointer.speaking (Endpointer.state_ (endpointer_ s)) = in_speech_ s ∧
  utterances_total_ s = u64 (counted is_ready os) ∧
  u64 (utterances_total_ s + low_rms_drops_total_ s) = u64 (counted is_end os) ∧
  length (in_flight_ (utterance_buffer_ s)) ≤ Nat.max 1 (max_in_flight_ (utterance_buffer_ s)).
Proof.
  pose proof (pipeline_run_ok resample push active process ls _ (pipeline_new_inv c r v a sink)) as H.
  destruct (run _ _ _ _ _ _) as [s os]. destruct H as [[I1 I2 I3 I4] H2 H3 H4].
  split; [apply H2; cbn; split; done|]. done.
Qed.

(** The streaming recogniser hears the onset twice. In every reachable
    state out of speech, the chunk that starts speech is already at the end
    of the pre-buffer when that is replayed to the live sink, and is then
    sent again: as long as the utterance goes on within its limit, the
    samples recorded are [q], the chunk and the chunks after it, while the
    samples sent are [q], the chunk, the chunk and the chunks after it. *)
Theorem onset_sent_twice {R V A} resample push active process (c : config) (r : R) (v : option V) (a : option A) ls t x mid :
  let s := (run resample push active process ls (pipeline_new c r v a true)).1 in
  let u := utterance_buffer_ s in
  x ≠ [] → in_speech_ s = false → live_sink_ s = true → (Z.of_nat (length x) ≤ pre_pad_capacity_ u)%Z →
  (Z.of_nat (length (pre_buffer_ u ++ x ++ concat mid.*2)) ≤ samples_of (sample_rate_ u) (max_duration_ms_ u))%Z →
  let '(s1, o1) := deliver push t x s in
  let '(s2, o2) := deliver_all push mid s1 in
  in_speech_ s1 = true → published o2 = [] →
  ∃ q, active_samples_ (utterance_buffer_ s2) = q ++ x ++ concat mid.*2 ∧
       sunk (o1 ++ o2) = q ++ x ++ x ++ concat mid.*2.
Proof.
  intros s u Hx0 Hn Hk Hx Hl.
  pose proof (pipeline_run_ok resample push active process ls _ (pipeline_new_inv c r v a true)) as H.
  assert (pipe_inv s) as I by (unfold s; destruct (run _ _ _ _ _ _); apply H). clear H. clearbody s.
  pose proof (deliver_starting push t x s I Hk Hn) as Hd. destruct (deliver push t x s) as [s1 o1].
  pose proof (deliver_all_speaking push mid s1) as Ha. destruct (deliver_all push mid s1) as [s2 o2].
  intros H1 H2. destruct (Hd H1) as (D1 & D2 & D3). destruct (Ha D1 H1 H2) as [A1 A2].
  pose proof (pi_recording s I) as Hr. fold u in D2, D3, Hr. rewrite Hn in Hr.
  destruct (append_kept x u) as (_ & _ & _ & K1 & K2).
  destruct (lastn_keep (pre_pad_capacity_ u) (pre_buffer_ u) x Hx) as (q & Hq & Hlq).
  assert (pre_buffer_ (append x u) = q ++ x) as Hp.
  { unfold append. rewrite Hr, decide_False by done. cbn. by rewrite trim_lastn by lia. }
  exists q. unfold sunk in *. rewrite flat_map_app, D2, A1, Hp, <- !app_assoc. split; [|done].
  rewrite !length_app in Hl.
  assert (0 < length x) by (destruct x; cbn; [done|lia]).
  pose proof (append_recording mid.*2 (utterance_buffer_ s1)) as Hm. rewrite D3 in Hm. specialize (Hm eq_refl).
  cbn zeta in Hm. rewrite <- D3, <- A2 in Hm.
  assert (sample_rate_ (utterance_buffer_ s1) = sample_rate_ u ∧ max_duration_ms_ (utterance_buffer_ s1) = max_duration_ms_ u
    ∧ active_samples_ (utterance_buffer_ s1) = q ++ x) as (G1 & G2 & G3) by (rewrite D3, <- K1, <- K2, <- Hp; done).
  rewrite G1, G2, G3, length_app in Hm. destruct Hm as (-> & _); [lia|lia|].
  rewrite lastn_all, <- app_assoc; [done|]. rewrite !length_app. lia.
Qed.

Lemma onset_sent_twice_witness :
  let c := MkConfig 1000 (Endpointer.MkEndpointerConfig (Some (1 # 2)) (Some (1 # 3)) 4 600 10 10) 10 10 3 1000 0 in
  let resample x (r : unit) := (x, r) in
  let push (x : list Z) (v : unit) := (Some 0%Q, v) in
  let process (x : list Z) (t : Z) (a : unit) := (x, a) in
  let s := (run resample push (λ _, false) process
    [SetTestProbability (Some 1%Q); Frame (Capture.MkFrame 0 2 1000 [1; 2]%Z)] (pipeline_new c tt None None true)).1 in
  let '(s1, o1) := deliver push 3001000 [3; 4]%Z s in
  let '(s2, o2) := deliver_all push [(5001000, [5; 6])]%Z s1 in
  active_samples_ (utterance_buffer_ s2) = [1; 2; 3; 4; 5; 6]%Z ∧ sunk (o1 ++ o2) = [1; 2; 3; 4; 3; 4; 5; 6]%Z.
Proof.
  intros c resample push process s.
  pose proof (onset_sent_twice resample push (λ _, false) process c tt None None
    [SetTestProbability (Some 1%Q); Frame (Capture.MkFrame 0 2 1000 [1; 2]%Z)] 3001000 [3; 4]%Z [(5001000, [5; 6])]%Z
    ltac:(discriminate) eq_refl eq_refl ltac:(vm_compute; discriminate) ltac:(vm_compute; discriminate)) as H.
  cbn zeta in H. fold s in H.
  assert (in_speech_ (deliver push 3001000 [3; 4]%Z s).1 = true ∧
    published (deliver_all push [(5001000, [5; 6])]%Z (deliver push 3001000 [3; 4]%Z s).1).2 = [] ∧
    sunk (deliver_all push [(5001000, [5; 6])]%Z (deliver push 3001000 [3; 4]%Z s).1).2 = [5; 6]%Z ∧
    sunk (deliver push 3001000 [3; 4]%Z s).2 = [1; 2; 3; 4; 3; 4]%Z) as (E1 & E2 & E4 & E3) by (vm_compute; done).
  destruct (deliver push 3001000 [3; 4]%Z s) as [s1 o1]. cbn [fst snd] in *.
  destruct (deliver_all push [(5001000, [5; 6])]%Z s1) as [s2 o2]. cbn [fst snd] in *.
  destruct (H E1 E2) as (q & -> & H2). unfold sunk in *. rewrite flat_map_app, E3, E4 in *.
  change ([1; 2] ++ [3; 4; 3; 4; 5; 6] = q ++ [3; 4; 3; 4; 5; 6])%Z in H2. apply app_inv_tail in H2. by subst q.
Defined.
