(* ===== verification/CaptureWorker.v ===== *)
(** * The worker of the capture pipeline (src/src/audio/pipeline.cpp)

    [start], [stop] and [run_loop]: the thread that pops the capture ring and
    processes each frame, beside the audio callback that pushes, at the grain
    of the ring's memory accesses ([SpscRing]). What is done with a frame is a
    parameter, instantiated with [AudioPipeline.process_frame] at the end. *)
From S2P Require Import Prelude SpscRing.
From S2P Require Capture AudioPipeline.

Section worker.
Context {T St O : Type} (Capacity : Z) (process_frame : T → St → St * list O).

(** At the test of [running_], in [ring_.pop()], with a frame, asleep for
    2 ms, returned; [drain]: in the second loop, after the flag fell. *)
Inductive LoopPc := LNone | LTest | LPop (drain : bool) | LHave (drain : bool) (frame : T) | LSleep | LDone.

Record loop := MkLoop { ring_ : ring (T:=T); running_ : bool; pc : LoopPc; work : St }.
#[global] Instance eta_loop : Eta loop := λ s, MkLoop (ring_ s) (running_ s) (pc s) (work s).
Definition loop_new (zero : T) (w : St) : loop := MkLoop (ring_new Capacity zero) false LNone w.

Definition then_do {A B C} (m : option (A * list C)) (k : A → list C → option B) : option B :=
  match m with Some (a, os) => k a os | None => None end.

Inductive Label := Start | StopFlag | Join | Push (v : T) | PushStep | Worker.
Inductive Out := RingOut (o : SpscRing.Out (T:=T)) | Emit (o : O).

Definition call_pop (drain : bool) (s : loop) : option (loop * list Out) :=
  then_do (SpscRing.step Capacity Pop (ring_ s)) (λ r os, Some (s <| ring_ := r |> <| pc := LPop drain |>, RingOut <$> os)).
Definition popping (drain : bool) (s : loop) : option (loop * list Out) :=
  then_do (SpscRing.step Capacity PopStep (ring_ s)) (λ r os,
    let s := s <| ring_ := r |> in
    Some (match os with
          | [Popped frame] => s <| pc := LHave drain frame |>
          | [Nullopt] => s <| pc := if drain then LDone else LSleep |>
          | _ => s
          end, RingOut <$> os)).
Definition worker_step (s : loop) : option (loop * list Out) :=
  match pc s with
  | LTest => call_pop (negb (running_ s)) s
  | LPop drain => popping drain s
  | LHave drain frame =>
      let '(w, os) := process_frame frame (work s) in
      let s := s <| work := w |> in
      if drain then then_do (call_pop true s) (λ s o, Some (s, (Emit <$> os) ++ o))
      else Some (s <| pc := LTest |>, Emit <$> os)
  | LSleep => Some (s <| pc := LTest |>, [])
  | LNone | LDone => Some (s, [])
  end.

(** [start] and [stop] are called from one thread: [stop] is the exchange of
    the flag and the join. *)
Definition step (l : Label) (s : loop) : option (loop * list Out) :=
  match l with
  | Start => Some (match pc s with LNone => if running_ s then s else s <| running_ := true |> <| pc := LTest |> | _ => s end, [])
  | StopFlag => Some (s <| running_ := false |>, [])
  | Join => Some (match pc s with LDone => s <| pc := LNone |> | _ => s end, [])
  | Push v => then_do (SpscRing.step Capacity (SpscRing.Push v) (ring_ s)) (λ r os, Some (s <| ring_ := r |>, RingOut <$> os))
  | PushStep => then_do (SpscRing.step Capacity SpscRing.PushStep (ring_ s)) (λ r os, Some (s <| ring_ := r |>, RingOut <$> os))
  | Worker => worker_step s
  end.
Fixpoint run (ls : list Label) (s : loop) : option (loop * list Out) :=
  match ls with
  | [] => Some (s, [])
  | l :: ls => then_do (step l s) (λ s1 o1, then_do (run ls s1) (λ s2 o2, Some (s2, o1 ++ o2)))
  end.

(** ** Specification *)

Fixpoint process_all (fs : list T) (w : St) : St * list O :=
  match fs with
  | [] => (w, [])
  | f :: fs => let '(w, o1) := process_frame f w in let '(w, o2) := process_all fs w in (w, o1 ++ o2)
  end.
Definition ring_outs (os : list Out) : list (SpscRing.Out (T:=T)) := omap (λ o, match o with RingOut o => Some o | _ => None end) os.
Definition emitted (os : list Out) : list O := omap (λ o, match o with Emit o => Some o | _ => None end) os.
Definition in_hand (s : loop) : list T := match pc s with LHave _ f => [f] | _ => [] end.
(** The callback does nothing from here on. *)
Definition no_push (l : Label) : bool := match l with Push _ | PushStep | Start => false | _ => true end.

(** ** Lemmas *)

Lemma process_all_app fs gs w :
  process_all (fs ++ gs) w
  = let '(w1, o1) := process_all fs w in let '(w2, o2) := process_all gs w1 in (w2, o1 ++ o2).
Proof.
  revert w. induction fs as [|f fs IH]; intros w; cbn; [by destruct (process_all gs w)|].
  destruct (process_frame f w) as [w1 o1]. rewrite IH. destruct (process_all fs w1) as [w2 o2].
  destruct (process_all gs w2). by rewrite app_assoc.
Qed.
Lemma emitted_ring os : emitted (RingOut <$> os) = [].
Proof. by induction os. Qed.
Lemma ring_outs_ring os : ring_outs (RingOut <$> os) = os.
Proof. induction os as [|o os IH]; [done|]. exact (f_equal (cons o) IH). Qed.
Lemma emitted_emit os : emitted (Emit <$> os) = os.
Proof. induction os as [|o os IH]; [done|]. exact (f_equal (cons o) IH). Qed.
Lemma ring_outs_emit os : ring_outs (Emit <$> os) = [].
Proof. by induction os. Qed.

(** [P] pushed, [H] handled: the ring's history and the loop's place in its
    pop agree. *)
Record loop_inv (P H : list T) (s : loop) : Prop := {
  li_ring : ring_inv Capacity P (H ++ in_hand s) (ring_ s);
  li_call : match pc s with LPop _ => consumer (ring_ s) ≠ CIdle | _ => consumer (ring_ s) = CIdle end;
}.

Lemma push_kept (r : ring (T:=T)) : consumer (push_step Capacity r).1 = consumer r.
Proof. unfold push_step. destruct (producer r); cbn; try case_decide; done. Qed.
Lemma pop_shape (r r' : ring (T:=T)) os :
  consumer r ≠ CIdle → pop_step Capacity r = Some (r', os) →
  pushed os = [] ∧
  (os = [] ∧ consumer r' ≠ CIdle ∨ consumer r' = CIdle ∧ (os = [Nullopt] ∨ ∃ v, os = [Popped v])).
Proof.
  intros Hc. unfold pop_step. destruct (consumer r) as [| |head|head|head out]; [done|..].
  - intros [= <- <-]. auto.
  - case_decide; intros [= <- <-]; auto.
  - destruct (slots_ r !! _); cbn; [intros [= <- <-]; auto|done].
  - intros [= <- <-]. split; [done|]. right. eauto.
Qed.

Definition step_good (P H : list T) (s : loop) (m : option (loop * list Out)) : Prop :=
  ∃ s' os H', m = Some (s', os) ∧ loop_inv (P ++ pushed (ring_outs os)) (H ++ H') s' ∧
    process_all H' (work s) = (work s', emitted os).

(** A step that leaves the ring alone and hands nothing over. *)
Lemma still_good P H s s' :
  loop_inv P H s → ring_ s' = ring_ s → work s' = work s → in_hand s' = in_hand s →
  (match pc s' with LPop _ => consumer (ring_ s) ≠ CIdle | _ => consumer (ring_ s) = CIdle end) →
  step_good P H s (Some (s', [])).
Proof.
  intros [Hr _] Er Ew Eh Hc. exists s', [], []. split; [done|]. cbn. rewrite !app_nil_r, Ew. split; [|done].
  split; [by rewrite Er, Eh|by rewrite Er].
Qed.

Lemma push_good P H s l :
  valid_capacity Capacity → loop_inv P H s → l = SpscRing.PushStep ∨ (∃ v, l = SpscRing.Push v) →
  step_good P H s (then_do (SpscRing.step Capacity l (ring_ s)) (λ r os, Some (s <| ring_ := r |>, RingOut <$> os))).
Proof.
  intros Hv [Hr Hc] Hl. destruct (step_inv Capacity l _ _ _ Hv Hr) as (r & os & E & Hr' & _).
  assert (consumer r = consumer (ring_ s) ∧ popped os = []) as [Ec Ep].
  { destruct Hl as [->|[v ->]]; cbn [SpscRing.step] in E.
    - pose proof (push_kept (ring_ s)) as Hk. pose proof (push_inv Capacity _ _ _ Hv Hr) as Hp.
      injection E as E. rewrite E in Hk, Hp. by destruct Hp as (_ & Hp & _).
    - destruct (producer (ring_ s)); by injection E as <- <-. }
  rewrite E. cbn [then_do]. eexists _, _, []. split; [done|]. rewrite ring_outs_ring, emitted_ring, app_nil_r. split; [|done].
  rewrite Ep, app_nil_r in Hr'. split; [exact Hr'|]. change (pc (s <| ring_ := r |>)) with (pc s). cbn [ring_ set_field].
  change (ring_ (s <| ring_ := r |>)) with r. by rewrite Ec.
Qed.

Lemma pop_begins P Q (r : ring (T:=T)) :
  valid_capacity Capacity → ring_inv Capacity P Q r → consumer r = CIdle →
  ∃ r', SpscRing.step Capacity Pop r = Some (r', []) ∧ ring_inv Capacity P Q r' ∧ consumer r' = CCall.
Proof.
  intros Hv Hr Hc. destruct (step_inv Capacity Pop _ _ _ Hv Hr) as (r' & os & E & Hr' & _).
  pose proof E as E'. cbn [SpscRing.step] in E'. rewrite Hc in E'. injection E' as <- <-.
  cbn in Hr'. rewrite !app_nil_r in Hr'. eauto.
Qed.

Lemma call_good P H s drain :
  valid_capacity Capacity → loop_inv P H s → in_hand s = [] → consumer (ring_ s) = CIdle →
  step_good P H s (call_pop drain s).
Proof.
  intros Hv [Hr _] Eh Hc. destruct (pop_begins _ _ _ Hv Hr Hc) as (r & E & Hr' & Hc').
  unfold call_pop. rewrite E. cbn [then_do fmap list_fmap].
  eexists _, _, []. split; [done|]. cbn. rewrite !app_nil_r. rewrite Eh, app_nil_r in Hr'.
  split; [|done]. split; cbn; unfold in_hand; cbn; [by rewrite app_nil_r|by rewrite Hc'].
Qed.

Lemma have_good P H s drain f :
  valid_capacity Capacity → loop_inv P H s → pc s = LHave drain f → step_good P H s (worker_step s).
Proof.
  intros Hv [Hr Hc] Ep. unfold worker_step. rewrite Ep in *. destruct (process_frame f (work s)) as [w os] eqn:Ef.
  assert (in_hand s = [f]) as Eh by (unfold in_hand; by rewrite Ep). rewrite Eh in Hr.
  destruct drain.
  - destruct (pop_begins _ _ _ Hv Hr Hc) as (r & E & Hr' & Hc').
    unfold call_pop. change (ring_ (s <| work := w |>)) with (ring_ s). rewrite E. cbn [then_do fmap list_fmap].
    eexists _, _, [f]. split; [done|]. rewrite app_nil_r, ring_outs_emit, emitted_emit. cbn. rewrite Ef, !app_nil_r.
    split; [|done]. split; cbn; unfold in_hand; cbn; [by rewrite app_nil_r|by rewrite Hc'].
  - eexists _, _, [f]. split; [done|]. rewrite ring_outs_emit, emitted_emit. cbn. rewrite Ef, !app_nil_r.
    split; [|done]. split; cbn; unfold in_hand; cbn; [by rewrite app_nil_r|done].
Qed.

Lemma popping_good P H s drain :
  valid_capacity Capacity → loop_inv P H s → pc s = LPop drain → step_good P H s (popping drain s).
Proof.
  intros Hv [Hr Hc] Ep. rewrite Ep in Hc. assert (in_hand s = []) as Eh by (unfold in_hand; by rewrite Ep).
  destruct (step_inv Capacity PopStep _ _ _ Hv Hr) as (r & os & E & Hr' & _). unfold popping. rewrite E. cbn [then_do].
  destruct (pop_shape _ _ _ Hc E) as [Hpu Hsh].
  eexists _, _, []. split; [done|]. rewrite ring_outs_ring, emitted_ring, app_nil_r, Hpu, app_nil_r. rewrite Eh, app_nil_r, Hpu, app_nil_r in Hr'.
  destruct Hsh as [[-> Hc']|[Hc' [->|[v ->]]]]; (split; [|done]).
  - split; cbn; unfold in_hand; cbn; rewrite Ep; [exact Hr'|exact Hc'].
  - split; destruct drain; cbn; done.
  - by split.
Qed.

Lemma worker_good P H s : valid_capacity Capacity → loop_inv P H s → step_good P H s (worker_step s).
Proof.
  intros Hv Hi. destruct (pc s) as [| |d|d f| |] eqn:Ep; [| | |by eapply have_good| |];
    unfold worker_step; pose proof (li_call _ _ _ Hi) as Hc; rewrite Ep in *.
  - apply still_good; [done..|]. by rewrite Ep.
  - apply call_good; [done|done| |done]. unfold in_hand. by rewrite Ep.
  - by apply popping_good.
  - apply still_good; try done. unfold in_hand. by rewrite Ep.
  - apply still_good; [done..|]. by rewrite Ep.
Qed.

Lemma step_good_all P H s l : valid_capacity Capacity → loop_inv P H s → step_good P H s (step l s).
Proof.
  intros Hv Hi. pose proof (li_call _ _ _ Hi) as Hc. destruct l as [| | |v| |]; cbn [step].
  - destruct (pc s) eqn:Ep; try (apply still_good; [done..|by rewrite Ep]).
    destruct (running_ s); apply still_good; try done; [by rewrite Ep|unfold in_hand; by rewrite Ep].
  - apply still_good; try done.
  - destruct (pc s) eqn:Ep; apply still_good; try done; rewrite ?Ep; try done; unfold in_hand; by rewrite Ep.
  - apply push_good; eauto.
  - apply push_good; eauto.
  - by apply worker_good.
Qed.

Lemma ring_outs_app os os' : ring_outs (os ++ os') = ring_outs os ++ ring_outs os'.
Proof. apply omap_app. Qed.
Lemma worker_emitted_app os os' : emitted (os ++ os') = emitted os ++ emitted os'.
Proof. apply omap_app. Qed.
Lemma pushed_app (os os' : list (SpscRing.Out (T:=T))) : pushed (os ++ os') = pushed os ++ pushed os'.
Proof. apply omap_app. Qed.

Lemma run_good P H s ls : valid_capacity Capacity → loop_inv P H s → step_good P H s (run ls s).
Proof.
  intros Hv. revert P H s. induction ls as [|l ls IH]; intros P H s Hi; cbn [run].
  - apply still_good; try done. apply Hi.
  - destruct (step_good_all P H s l Hv Hi) as (s1 & o1 & H1 & -> & Hi1 & Hw1). cbn [then_do].
    destruct (IH _ _ _ Hi1) as (s2 & o2 & H2 & -> & Hi2 & Hw2). cbn [then_do].
    exists s2, (o1 ++ o2), (H1 ++ H2). split; [done|].
    rewrite ring_outs_app, worker_emitted_app, pushed_app, !app_assoc. split; [done|].
    by rewrite process_all_app, Hw1, Hw2.
Qed.

Lemma new_good zero w : valid_capacity Capacity → loop_inv [] [] (loop_new zero w).
Proof. intros Hv. split; [by apply ring_new_inv|done]. Qed.

(** *** The drain *)

(** Steps of the worker until it returns, the flag being down: [k] frames in
    the ring. *)
Definition pop_left (k : nat) (c : Consumer (T:=T)) : nat :=
  match c with CIdle => 0 | CCall => 5 * k + 2 | CHead _ => 5 * k + 1 | CFull _ => 5 * k | CTaken _ _ => 5 * k - 1 end.
Definition held (r : ring (T:=T)) : nat := length (contents Capacity r).
Definition worker_left (s : loop) : nat :=
  let k := held (ring_ s) in
  match pc s with
  | LNone | LDone => 0
  | LTest | LHave true _ => 5 * k + 3
  | LPop true => pop_left k (consumer (ring_ s))
  | LPop false => pop_left k (consumer (ring_ s)) + 4
  | LHave false _ | LSleep => 5 * k + 4
  end.

Lemma held_inv P Q r : valid_capacity Capacity → ring_inv Capacity P Q r → length P = length Q + held r.
Proof. intros [[Hc _] _] Hr. rewrite (inv_contents Capacity P Q r Hc Hr) at 1. by rewrite length_app. Qed.

Lemma pop_less P Q (r r' : ring (T:=T)) os :
  valid_capacity Capacity → ring_inv Capacity P Q r → consumer r ≠ CIdle → pop_step Capacity r = Some (r', os) →
  match os with
  | [Popped _] => held r = S (held r') ∧ pop_left (held r) (consumer r) = 5 * held r - 1
  | [Nullopt] => held r' = 0 ∧ pop_left (held r) (consumer r) = 1
  | _ => held r' = held r ∧ pop_left (held r) (consumer r') < pop_left (held r) (consumer r)
  end.
Proof.
  intros Hv Hr Hc Hs. pose proof (inv_consumer _ _ _ _ Hr) as Hi. pose proof (held_inv _ _ _ Hv Hr) as Hk.
  destruct (step_inv Capacity PopStep _ _ _ Hv Hr) as (r1 & o1 & E & Hr' & _ & Hn). cbn [SpscRing.step] in E.
  rewrite Hs in E. injection E as <- <-. pose proof (held_inv _ _ _ Hv Hr') as Hk'. unfold pop_step in Hs.
  destruct (consumer r) as [| |head|head|head out] eqn:Ec; [done|..].
  - injection Hs as <- <-. cbn in *. rewrite !app_nil_r in *. lia.
  - case_decide; injection Hs as <- <-; cbn in *; rewrite !app_nil_r in *; [|lia].
    specialize (Hn eq_refl). subst Q. lia.
  - destruct (slots_ r !! _); [|done]. cbn in Hs. injection Hs as <- <-. destruct Hi as [_ Hi]. cbn in *. rewrite !app_nil_r in *. lia.
  - injection Hs as <- <-. destruct Hi as [_ Hi]. apply lookup_lt_Some in Hi. cbn in *. rewrite app_nil_r in *. rewrite length_app in Hk'. cbn in Hk'. lia.
Qed.

Lemma pop_call_held (r r' : ring (T:=T)) : SpscRing.step Capacity Pop r = Some (r', []) → held r' = held r.
Proof. cbn. destruct (consumer r); by intros [= <-]. Qed.

Lemma worker_less P H s :
  valid_capacity Capacity → loop_inv P H s → running_ s = false → pc s ≠ LNone → pc s ≠ LDone →
  ∃ s' os, worker_step s = Some (s', os) ∧ running_ s' = false ∧ worker_left s' < worker_left s ∧
    (pc s' = LDone → held (ring_ s') = 0) ∧ pc s' ≠ LNone.
Proof.
  intros Hv [Hr Hc] Hrun Hn Hd. unfold worker_step, worker_left, in_hand in *. destruct (pc s) as [| |d|d f| |] eqn:Ep; try done.
  - destruct (pop_begins _ _ _ Hv Hr Hc) as (r & E & _ & Hc'). unfold call_pop. rewrite E, Hrun. cbn [then_do].
    eexists _, _. split; [done|]. apply pop_call_held in E. cbn. rewrite Hc', E. cbn. split; [done|]. split; [lia|done].
  - rewrite app_nil_r in Hr. destruct (step_inv Capacity PopStep _ _ _ Hv Hr) as (r & os & E & _). unfold popping. rewrite E. cbn [then_do].
    destruct (pop_shape _ _ _ Hc E) as [_ Hsh]. pose proof (pop_less _ _ _ _ _ Hv Hr Hc E) as Hl.
    eexists _, _. split; [done|].
    destruct Hsh as [[-> Hc']|[Hc' [->|[v ->]]]]; destruct Hl as [Hk Hl].
    + cbn. rewrite Ep, Hk. destruct d; (split; [done|]); (split; [lia|done]).
    + cbn. destruct d; cbn; (split; [done|]); (split; [lia|done]).
    + cbn. destruct d; cbn; (split; [done|]); (split; [lia|done]).
  - destruct (process_frame f (work s)) as [w os]. destruct d.
    + destruct (pop_begins _ _ _ Hv Hr Hc) as (r & E & _ & Hc'). unfold call_pop.
      change (ring_ (s <| work := w |>)) with (ring_ s). rewrite E. cbn [then_do].
      eexists _, _. split; [done|]. apply pop_call_held in E. cbn. rewrite Hc', E. cbn. split; [done|]. split; [lia|done].
    + eexists _, _. split; [done|]. cbn. split; [done|]. split; [lia|done].
  - eexists _, _. split; [done|]. cbn. split; [done|]. split; [lia|done].
Qed.

Lemma worker_rests n s : pc s = LDone → run (replicate n Worker) s = Some (s, []).
Proof. intros Ep. induction n as [|n IH]; [done|]. cbn. unfold worker_step. rewrite Ep. cbn. by rewrite IH. Qed.

Lemma worker_ends n P H s :
  valid_capacity Capacity → loop_inv P H s → running_ s = false → pc s ≠ LNone → (pc s = LDone → held (ring_ s) = 0) →
  worker_left s ≤ n →
  ∃ s' os, run (replicate n Worker) s = Some (s', os) ∧ pc s' = LDone ∧ held (ring_ s') = 0.
Proof.
  intros Hv. revert P H s. induction n as [|n IH]; intros P H s Hi Hrun Hn Hh Hl;
    (assert (pc s = LDone ∨ pc s ≠ LDone) as [Ep|Hd] by (destruct (pc s); auto)).
  1, 3: (exists s, []; split; [by apply worker_rests|auto]).
  - destruct (worker_less P H s Hv Hi Hrun Hn Hd) as (s' & os & _ & _ & Hlt & _). lia.
  - destruct (worker_less P H s Hv Hi Hrun Hn Hd) as (s1 & o1 & E & Hrun1 & Hlt & Hh1 & Hn1).
    destruct (worker_good P H s Hv Hi) as (s1' & o1' & H1 & E' & Hi1 & _). rewrite E in E'. injection E' as <- <-.
    destruct (IH _ _ s1 Hi1 Hrun1 Hn1 Hh1) as (s2 & o2 & E2 & Hp2 & Hh2); [lia|].
    exists s2, (o1 ++ o2). cbn [replicate run step]. rewrite E. cbn [then_do]. rewrite E2. by cbn [then_do].
Qed.

Lemma worker_bound P H s : valid_capacity Capacity → loop_inv P H s → worker_left s ≤ 5 * Z.to_nat Capacity + 6.
Proof.
  intros Hv [Hr _]. pose proof (held_inv _ _ _ Hv Hr) as Hk. pose proof (inv_room _ _ _ _ Hr) as [_ Hroom].
  assert (held (ring_ s) ≤ Z.to_nat Capacity) by lia.
  unfold worker_left. destruct (pc s) as [| |[]|[]| |]; try lia; destruct (consumer (ring_ s)); cbn [pop_left]; lia.
Qed.

Lemma call_silent P Q drain s s' os :
  valid_capacity Capacity → ring_inv Capacity P Q (ring_ s) → consumer (ring_ s) = CIdle → call_pop drain s = Some (s', os) → os = [].
Proof.
  intros Hv Hr Hc. unfold call_pop. destruct (pop_begins _ _ _ Hv Hr Hc) as (r & -> & _). cbn [then_do fmap list_fmap].
  by intros [= _ <-].
Qed.
Lemma worker_silent P H s s' os :
  valid_capacity Capacity → loop_inv P H s → worker_step s = Some (s', os) → pushed (ring_outs os) = [].
Proof.
  intros Hv [Hr Hc]. unfold worker_step. destruct (pc s) as [| |d|d f| |] eqn:Ep.
  - by intros [= _ <-].
  - intros E. by rewrite (call_silent _ _ _ _ _ _ Hv Hr Hc E).
  - unfold popping. destruct (SpscRing.step Capacity PopStep (ring_ s)) as [[r o]|] eqn:E; [|done]. cbn [then_do].
    intros [= _ <-]. rewrite ring_outs_ring. by destruct (pop_shape _ _ _ Hc E).
  - destruct (process_frame f (work s)) as [w o1]. destruct d.
    + set (sw := s <| work := w |>). destruct (call_pop true sw) as [[s1 o2]|] eqn:E; [|done].
      pose proof (call_silent P _ true sw _ _ Hv Hr Hc E) as ->. cbn [then_do]. intros [= _ <-].
      by rewrite app_nil_r, ring_outs_emit.
    + intros [= _ <-]. by rewrite ring_outs_emit.
  - by intros [= _ <-].
  - by intros [= _ <-].
Qed.
Lemma workers_silent n P H s s' os :
  valid_capacity Capacity → loop_inv P H s → run (replicate n Worker) s = Some (s', os) → pushed (ring_outs os) = [].
Proof.
  intros Hv. revert P H s os. induction n as [|n IH]; intros P H s os Hi E; [by injection E as <- <-|].
  cbn [replicate run step] in E. destruct (worker_good P H s Hv Hi) as (s1 & o1 & H1 & E1 & Hi1 & _).
  rewrite E1 in E. cbn [then_do] in E. destruct (run (replicate n Worker) s1) as [[s2 o2]|] eqn:E2; [|done].
  cbn [then_do] in E. injection E as <- <-. rewrite ring_outs_app, pushed_app, (worker_silent _ _ _ _ _ Hv Hi E1).
  by apply (IH _ _ _ _ Hi1 E2).
Qed.

Lemma reached ls zero w :
  valid_capacity Capacity →
  ∃ s os hd, run ls (loop_new zero w) = Some (s, os) ∧ loop_inv (pushed (ring_outs os)) hd s ∧
    process_all hd w = (work s, emitted os).
Proof. intros Hv. destruct (run_good [] [] _ ls Hv (new_good zero w Hv)) as (s & os & hd & E & Hi & Hw). by exists s, os, hd. Qed.
End worker.

(** ** Properties *)

(** [C37] Between the callback and the pipeline no frame is lost, repeated or
    reordered, whatever the interleaving of their memory accesses with [start]
    and [stop]: the frames the ring accepted are those processed, in order,
    then the one in hand, then those in the ring; the pipeline is in the state
    that processing the former gives, and has published what that gives. When
    the flag is down and the callback silent, the worker returns within five
    steps per place of the ring and six, and every accepted frame has been
    processed. *)
Theorem frames_processed {T St O} Capacity (process_frame : T → St → St * list O) ls zero w :
  valid_capacity Capacity →
  ∃ s os handled, run Capacity process_frame ls (loop_new Capacity zero w) = Some (s, os) ∧
    let P := pushed (ring_outs os) in
    P = handled ++ in_hand s ++ contents Capacity (ring_ s) ∧
    process_all process_frame handled w = (work s, emitted os) ∧
    (running_ s = false → pc s ≠ LNone → pc s ≠ LDone →
     ∃ s' os', run Capacity process_frame (replicate (5 * Z.to_nat Capacity + 6) Worker) s = Some (s', os') ∧
       pc s' = LDone ∧ process_all process_frame P w = (work s', emitted os ++ emitted os')).
Proof.
  intros Hv. destruct (reached Capacity process_frame ls zero w Hv) as (s & os & hd & E & Hi & Hw).
  exists s, os, hd. split; [done|]. cbn zeta. split; [|split; [done|]].
  - rewrite app_assoc. apply inv_contents; [apply Hv|apply Hi].
  - intros Hrun Hn Hd. set (n := 5 * Z.to_nat Capacity + 6).
    destruct (worker_ends Capacity process_frame n _ _ _ Hv Hi Hrun Hn) as (s' & os' & E' & Hp & Hh); [done|by eapply worker_bound|].
    exists s', os'. split; [done|]. split; [done|].
    destruct (run_good Capacity process_frame _ _ _ (replicate n Worker) Hv Hi) as (s1 & o1 & H1 & E1 & Hi1 & Hw1).
    rewrite E' in E1. injection E1 as <- <-. rewrite (workers_silent _ _ _ _ _ _ _ _ Hv Hi E'), app_nil_r in Hi1.
    pose proof (li_ring _ _ _ _ Hi1) as Hr1. unfold in_hand in Hr1. rewrite Hp, app_nil_r in Hr1.
    rewrite (inv_contents Capacity _ _ _ (proj1 (proj1 Hv)) Hr1). unfold held in Hh.
    apply length_zero_iff_nil in Hh. rewrite Hh, app_nil_r, process_all_app, Hw. by rewrite Hw1.
Qed.

(** Two frames: the first is popped while the callback pushes the second, the
    flag falls, and both have been processed at the end. *)
Definition sum_frames (f w : Z) : Z * list Z := (w + f, [f])%Z.
Definition two_frames : list (Label (T:=Z)) :=
  [Start; Worker; Push 7%Z; PushStep; PushStep; Worker; PushStep; PushStep; Worker; Push 8%Z; Worker; PushStep; Worker;
   PushStep; PushStep; PushStep; StopFlag].
Lemma frames_processed_witness :
  valid_capacity 4 ∧
  ∃ s os s' os', run 4 sum_frames two_frames (loop_new 4 0 0)%Z = Some (s, os) ∧
    run 4 sum_frames (replicate 26 Worker) s = Some (s', os') ∧ pc s' = LDone ∧
    emitted os ++ emitted os' = [7; 8]%Z.
Proof.
  assert (Hv : valid_capacity 4) by done. split; [exact Hv|].
  destruct (frames_processed 4 sum_frames two_frames 0%Z 0%Z Hv) as (s & os & hd & E & _ & _ & Hend).
  assert (Es := E). vm_compute in Es. injection Es as <- <-.
  destruct (Hend eq_refl ltac:(discriminate) ltac:(discriminate)) as (s' & os' & E' & Hp & Hw).
  do 4 eexists. split; [exact E|]. split; [exact E'|]. split; [exact Hp|].
  vm_compute in Hw. injection Hw as _ Hw. symmetry. exact Hw.
Defined.

(** The pipeline in the place of the parameter: its runs over frames. *)
Lemma pipeline_over_ring {R V A} resample push active process fs (s : AudioPipeline.pipeline (R:=R) (V:=V) (A:=A)) :
  process_all (AudioPipeline.process_frame resample push active process) fs s
  = AudioPipeline.run resample push active process (AudioPipeline.Frame <$> fs) s.
Proof.
  revert s. induction fs as [|f fs IH]; intros s; [done|].
  cbn [process_all AudioPipeline.run AudioPipeline.step fmap list_fmap].
  destruct (AudioPipeline.process_frame _ _ _ _ f s) as [s1 o1]. by rewrite IH.
Qed.
