(* ===== verification/Wav.v ===== *)
(** * WAV files (src/src/audio/wav.cpp)

    Building a mono 16-bit file in memory and reading one back. Bytes are
    numbers from 0 to 255, samples are signed 16-bit; a file is its bytes, so
    opening and reading it is not modelled, and neither is the host's byte
    order, taken little-endian as the code assumes. The walk over the chunks
    has a fuel, and its result says when the fuel ran out. *)
From S2P Require Import Prelude.

Definition byte_at (z : Z) (i : Z) : Z := Z.land (Z.shiftr z (i * 8)) 255.
Definition u32le (v : Z) : list Z := [byte_at v 0; byte_at v 1; byte_at v 2; byte_at v 3].
Definition u16le (v : Z) : list Z := [byte_at v 0; byte_at v 1].

(** Reading at an offset: the bytes are there in the code's calls. *)
Definition at_ (buf : list Z) (i : Z) : Z := default 0%Z (buf !! Z.to_nat i).
Definition read_u32le (buf : list Z) (p : Z) : Z :=
  Z.lor (Z.lor (Z.lor (at_ buf p) (Z.shiftl (at_ buf (p + 1)) 8)) (Z.shiftl (at_ buf (p + 2)) 16))
    (Z.shiftl (at_ buf (p + 3)) 24).
Definition read_u16le (buf : list Z) (p : Z) : Z := Z.lor (at_ buf p) (Z.shiftl (at_ buf (p + 1)) 8).

Definition tag (s : string) : list Z := byte_of <$> lit s.
Definition memcmp (buf : list Z) (p : Z) (t : list Z) : bool :=
  bool_decide (take (length t) (drop (Z.to_nat p) buf) = t).

(** The bytes of samples in memory, and back. *)
Definition raw (samples : list Z) : list Z := flat_map (λ s, u16le (s mod 2 ^ 16)) samples.
Definition i16 (z : Z) : Z := if decide (z < 2 ^ 15)%Z then z else (z - 2 ^ 16)%Z.
Fixpoint unraw (bytes : list Z) : list Z :=
  match bytes with a :: b :: bytes => i16 (a + 256 * b)%Z :: unraw bytes | _ => [] end.

Definition make_wav (samples : list Z) (sample_rate_hz : Z) : list Z :=
  let data_bytes := u32 (u32 (Z.of_nat (length samples)) * 2) in
  let fmt_chunk := 16%Z in
  let riff_payload := u32 (4 + 8 + fmt_chunk + 8 + data_bytes) in
  tag "RIFF" ++ u32le riff_payload ++ tag "WAVE"
  ++ tag "fmt " ++ u32le fmt_chunk ++ u16le 1 ++ u16le 1 ++ u32le sample_rate_hz
  ++ u32le (u32 (sample_rate_hz * 1 * 2)) ++ u16le 2 ++ u16le 16
  ++ tag "data" ++ u32le data_bytes ++ take (Z.to_nat data_bytes) (raw samples).

Record Found := MkFound { channels : Z; bits : Z; rate : Z; data_off : Z; data_bytes : Z }.

(** The walk over the chunks from [pos]: [None] when the fuel runs out,
    [Some None] when the format is not PCM or is cut short. *)
Fixpoint walk (fuel : nat) (buf : list Z) (pos : Z) (f : Found) : option (option Found) :=
  match fuel with
  | O => None
  | S fuel =>
      if decide (pos + 8 ≤ Z.of_nat (length buf))%Z then
        let sz := read_u32le buf (pos + 4) in
        let next := u64 (pos + u32 (8 + sz + Z.land sz 1)) in
        if memcmp buf pos (tag "fmt ") then
          if decide (Z.of_nat (length buf) < pos + 8 + 16)%Z then Some None
          else if decide (read_u16le buf (pos + 8) ≠ 1)%Z then Some None
          else walk fuel buf next (MkFound (read_u16le buf (pos + 10)) (read_u16le buf (pos + 22))
                 (read_u32le buf (pos + 12)) (data_off f) (data_bytes f))
        else if memcmp buf pos (tag "data") then
          Some (Some (MkFound (channels f) (bits f) (rate f) (pos + 8) sz))
        else walk fuel buf next f
      else Some (Some f)
  end.

(** What [read_wav_file] makes of the bytes of a file: nothing, the rate and
    the samples, or a copy of more bytes than the vector holds. *)
Inductive Read := Nothing | Samples (rate : Z) (samples : list Z) | Overrun.

Definition read_wav (fuel : nat) (buf : list Z) : option Read :=
  if decide (length buf < 44) then Some Nothing
  else if negb (memcmp buf 0 (tag "RIFF")) then Some Nothing
  else if negb (memcmp buf 8 (tag "WAVE")) then Some Nothing
  else
    f ← walk fuel buf 12 (MkFound 0 0 0 0 0);
    Some match f with
         | None => Nothing
         | Some f =>
             if decide (channels f ≠ 1 ∨ bits f ≠ 16 ∨ rate f = 0 ∨ data_off f = 0
                        ∨ Z.of_nat (length buf) < u64 (data_off f + data_bytes f))%Z then Nothing
             else if Z.odd (data_bytes f) then Overrun
             else Samples (rate f) (unraw (take (Z.to_nat (data_bytes f)) (drop (Z.to_nat (data_off f)) buf)))
         end.

(** ** Lemmas *)

#[local] Arguments Z.land : simpl never.
#[local] Arguments Z.shiftr : simpl never.

Lemma byte_at_eq z i : (0 ≤ i)%Z → byte_at z i = ((z / 2 ^ (8 * i)) mod 256)%Z.
Proof.
  intros Hi. unfold byte_at. rewrite Z.shiftr_div_pow2 by lia. change 255%Z with (Z.ones 8).
  rewrite Z.land_ones by lia. f_equal. f_equal. f_equal. lia.
Qed.

Lemma read_u16_spec buf p a b :
  (0 ≤ a < 256)%Z → at_ buf p = a → at_ buf (p + 1) = b → read_u16le buf p = (a + b * 256)%Z.
Proof. intros Ha <- <-. unfold read_u16le. by rewrite lor_shift by lia. Qed.

Lemma read_u32_spec buf p a b c d :
  (0 ≤ a < 256)%Z → (0 ≤ b < 256)%Z → (0 ≤ c < 256)%Z →
  at_ buf p = a → at_ buf (p + 1) = b → at_ buf (p + 2) = c → at_ buf (p + 3) = d →
  read_u32le buf p = (a + b * 256 + c * 65536 + d * 16777216)%Z.
Proof.
  intros Ha Hb Hc <- <- <- <-. unfold read_u32le. rewrite (lor_shift _ _ 8) by lia.
  rewrite (lor_shift _ _ 16) by lia. by rewrite (lor_shift _ _ 24) by lia.
Qed.

Lemma u16le_sum v : (0 ≤ v < 2 ^ 16)%Z → (byte_at v 0 + byte_at v 1 * 256 = v)%Z.
Proof.
  intros Hv. rewrite !byte_at_eq by lia. change (2 ^ (8 * 0))%Z with 1%Z. change (2 ^ (8 * 1))%Z with 256%Z.
  rewrite Z.div_1_r. rewrite (Z.mod_small (v / 256)) by (split; [apply Z.div_pos; lia|apply Z.div_lt_upper_bound; lia]).
  pose proof (Z.div_mod v 256 ltac:(lia)). lia.
Qed.

Lemma u32le_sum v :
  (0 ≤ v < 2 ^ 32)%Z →
  (byte_at v 0 + byte_at v 1 * 256 + byte_at v 2 * 65536 + byte_at v 3 * 16777216 = v)%Z.
Proof.
  intros Hv. rewrite !byte_at_eq by lia. change (2 ^ (8 * 0))%Z with 1%Z. change (2 ^ (8 * 1))%Z with 256%Z.
  change (2 ^ (8 * 2))%Z with 65536%Z. change (2 ^ (8 * 3))%Z with 16777216%Z. rewrite Z.div_1_r.
  Z.div_mod_to_equations. lia.
Qed.

Lemma byte_at_range v i : (0 ≤ i)%Z → (0 ≤ byte_at v i < 256)%Z.
Proof. intros Hi. rewrite byte_at_eq by done. apply Z.mod_pos_bound. lia. Qed.

Lemma i16_mod s : (- 2 ^ 15 ≤ s < 2 ^ 15)%Z → i16 (s mod 2 ^ 16) = s.
Proof.
  intros H. unfold i16. destruct (decide (0 ≤ s)%Z).
  - rewrite Z.mod_small by lia. by rewrite decide_True by lia.
  - rewrite <- (Z.mod_add s 1) by lia. rewrite Z.mod_small by lia. rewrite decide_False by lia. lia.
Qed.

Lemma unraw_raw samples : Forall (λ s, - 2 ^ 15 ≤ s < 2 ^ 15)%Z samples → unraw (raw samples) = samples.
Proof.
  induction 1 as [|s samples Hs _ IH]; [done|]. cbn [raw flat_map u16le app unraw].
  fold (raw samples). rewrite IH. f_equal. rewrite (Z.mul_comm 256), u16le_sum by (apply Z.mod_pos_bound; lia).
  by apply i16_mod.
Qed.

Lemma raw_length samples : length (raw samples) = 2 * length samples.
Proof. induction samples as [|s l IH]; [done|]. cbn. fold (raw l). rewrite IH. lia. Qed.

(** The 44 bytes of the header, for a payload size, a rate, a byte rate and a
    data size given by their bytes. *)
Definition header (p q r d : list Z) : list Z :=
  tag "RIFF" ++ p ++ tag "WAVE" ++ tag "fmt " ++ u32le 16 ++ u16le 1 ++ u16le 1 ++ q ++ r ++ u16le 2 ++ u16le 16
  ++ tag "data" ++ d.

Lemma at_u32le buf p v pre post :
  (0 ≤ v < 2 ^ 32)%Z → buf = pre ++ u32le v ++ post → p = Z.of_nat (length pre) → read_u32le buf p = v.
Proof.
  intros Hv -> ->. rewrite <- (u32le_sum v Hv) at 2. apply read_u32_spec; try (apply byte_at_range; lia).
  all: unfold at_; rewrite lookup_app_r by lia.
  - by replace (Z.to_nat (Z.of_nat (length pre)) - length pre) with 0 by lia.
  - by replace (Z.to_nat (Z.of_nat (length pre) + 1) - length pre) with 1 by lia.
  - by replace (Z.to_nat (Z.of_nat (length pre) + 2) - length pre) with 2 by lia.
  - by replace (Z.to_nat (Z.of_nat (length pre) + 3) - length pre) with 3 by lia.
Qed.

(** Walking a file with one format chunk and one data chunk. *)
Lemma walk_header fuel p q r d post vr vd :
  length p = 4 → q = u32le vr → length r = 4 → d = u32le vd → (0 ≤ vr < 2 ^ 32)%Z → (0 ≤ vd < 2 ^ 32)%Z →
  walk (S (S fuel)) (header p q r d ++ post) 12 (MkFound 0 0 0 0 0) = Some (Some (MkFound 1 16 vr 44 vd)).
Proof.
  intros Hp -> Hr -> Hvr Hvd.
  destruct p as [|p0 [|p1 [|p2 [|p3 [|]]]]], r as [|r0 [|r1 [|r2 [|r3 [|]]]]]; try discriminate.
  set (buf := header _ _ _ _ ++ post).
  assert (read_u32le buf 16 = 16%Z) as E1 by reflexivity.
  assert (read_u32le buf 40 = vd) as E2 by (by eapply (at_u32le buf 40 vd (take 40 buf) post)).
  assert (read_u32le buf 24 = vr) as E3 by (by eapply (at_u32le buf 24 vr (take 24 buf) (drop 28 buf))).
  assert (read_u16le buf 20 = 1%Z ∧ read_u16le buf 22 = 1%Z ∧ read_u16le buf 34 = 16%Z) as (E4 & E5 & E6) by done.
  assert (44 ≤ Z.of_nat (length buf))%Z as Hl by (unfold buf; rewrite length_app; cbn; lia).
  assert (memcmp buf 12 (tag "fmt ") = true ∧ memcmp buf 36 (tag "fmt ") = false ∧ memcmp buf 36 (tag "data") = true)
    as (M1 & M2 & M3) by done.
  clearbody buf. cbn [walk]. change (12 + 4)%Z with 16%Z. rewrite E1, M1.
  change (u64 (12 + u32 (8 + 16 + Z.land 16 1))) with 36%Z. rewrite !decide_True by lia.
  change (12 + 8)%Z with 20%Z. change (12 + 10)%Z with 22%Z. change (12 + 22)%Z with 34%Z. change (12 + 12)%Z with 24%Z.
  rewrite E4, E5, E6, E3, M2, M3. change (36 + 4)%Z with 40%Z. rewrite E2.
  rewrite (decide_False (P := (Z.of_nat (length buf) < 20 + 16)%Z)) by lia.
  rewrite (decide_False (P := 1%Z ≠ 1%Z)) by lia. rewrite decide_True by lia. done.
Qed.

Lemma read_header fuel p q r d data vr vd :
  length p = 4 → q = u32le vr → length r = 4 → d = u32le vd → (0 < vr < 2 ^ 32)%Z → (0 ≤ vd < 2 ^ 32)%Z →
  Z.of_nat (length data) = vd → Z.odd vd = false →
  read_wav (S (S fuel)) (header p q r d ++ data) = Some (Samples vr (unraw data)).
Proof.
  intros Hp Hq Hr Hd Hvr Hvd Hlen Hodd.
  pose proof (walk_header fuel p q r d data vr vd Hp Hq Hr Hd ltac:(lia) Hvd) as Hw.
  unfold read_wav. subst q d.
  destruct p as [|p0 [|p1 [|p2 [|p3 [|]]]]], r as [|r0 [|r1 [|r2 [|r3 [|]]]]]; try discriminate.
  set (buf := header _ _ _ _ ++ data) in *.
  assert (Z.of_nat (length buf) = 44 + vd)%Z as Hl by (unfold buf; rewrite length_app; cbn; lia).
  assert (memcmp buf 0 (tag "RIFF") = true ∧ memcmp buf 8 (tag "WAVE") = true ∧ drop 44 buf = data)
    as (M1 & M2 & M3) by done.
  clearbody buf. rewrite decide_False by lia. rewrite M1, M2, Hw. cbn [negb mbind option_bind channels bits rate data_off data_bytes].
  assert (u64 (44 + vd) = 44 + vd)%Z as -> by (apply Z.mod_small; lia).
  rewrite decide_False by lia. rewrite Hodd. change (Z.to_nat 44) with 44. rewrite M3. rewrite take_ge by lia. done.
Qed.

(** A chunk whose size makes the 32-bit step zero. *)
Definition stuck_size (sz : Z) : Prop := u32 (8 + sz + Z.land sz 1) = 0%Z.

Lemma wav_read_written samples rate fuel :
  Forall (λ s, - 2 ^ 15 ≤ s < 2 ^ 15)%Z samples → (0 < rate < 2 ^ 32)%Z →
  (36 + 2 * Z.of_nat (length samples) < 2 ^ 32)%Z → 2 ≤ fuel →
  read_wav fuel (make_wav samples rate) = Some (Samples rate samples) ∧
  Z.of_nat (length (make_wav samples rate)) = (44 + 2 * Z.of_nat (length samples))%Z.
Proof.
  intros Hs Hr Hl Hf. set (n := Z.of_nat (length samples)) in *.
  assert (u32 (u32 n * 2) = 2 * n)%Z as Hn.
  { unfold u32. rewrite (Z.mod_small n) by lia. rewrite Z.mod_small; lia. }
  assert (make_wav samples rate = header (u32le (u32 (36 + 2 * n))) (u32le rate) (u32le (u32 (rate * 1 * 2)))
    (u32le (2 * n)) ++ raw samples) as ->.
  { unfold make_wav. fold n. rewrite Hn. rewrite take_ge by (rewrite raw_length; lia). unfold header.
    change (4 + 8 + 16 + 8)%Z with 36%Z. by rewrite <- !app_assoc. }
  destruct fuel as [|[|fuel]]; [lia..|]. split.
  - rewrite (read_header fuel _ _ _ _ (raw samples) rate (2 * n)); try done; [|lia|rewrite raw_length; lia|].
    + by rewrite unraw_raw.
    + by rewrite Z.odd_mul.
  - rewrite length_app, raw_length. cbn. lia.
Qed.

Lemma wav_reads_back samples rate fuel :
  Forall (λ s, - 2 ^ 15 ≤ s < 2 ^ 15)%Z samples → (0 < rate < 2 ^ 32)%Z →
  (36 + 2 * Z.of_nat (length samples) < 2 ^ 32)%Z → 2 ≤ fuel →
  read_wav fuel (make_wav samples rate) = Some (Samples rate samples).
Proof. intros. by apply wav_read_written. Qed.

(** ** Properties *)

(** Round trip: the file made of 16-bit samples, when its sizes fit their
    32-bit fields, is read back with the same rate and the same samples. *)
Theorem wav_round_trip samples rate fuel :
  Forall (λ s, - 2 ^ 15 ≤ s < 2 ^ 15)%Z samples → (0 < rate < 2 ^ 32)%Z →
  (36 + 2 * Z.of_nat (length samples) < 2 ^ 32)%Z → 2 ≤ fuel →
  read_wav fuel (make_wav samples rate) = Some (Samples rate samples) ∧
  Z.of_nat (length (make_wav samples rate)) = (44 + 2 * Z.of_nat (length samples))%Z.
Proof. apply wav_read_written. Qed.

Lemma wav_round_trip_witness :
  read_wav 2 (make_wav [1; -1; 32767; -32768]%Z 16000) = Some (Samples 16000 [1; -1; 32767; -32768]%Z).
Proof.
  apply (wav_round_trip [1; -1; 32767; -32768]%Z 16000 2); [|lia|cbn; lia|lia].
  repeat (apply Forall_cons_2; [lia|]). apply Forall_nil_2.
Defined.

(** The walk as a sequence of positions: where it goes from a chunk, and
    whether its loop goes on there rather than leave or return. *)
Definition step_at (buf : list Z) (pos : Z) : Z :=
  let sz := read_u32le buf (pos + 4) in u32 (8 + sz + Z.land sz 1).
Definition goes_on (buf : list Z) (pos : Z) : Prop :=
  (pos + 8 ≤ Z.of_nat (length buf))%Z ∧
  if memcmp buf pos (tag "fmt ")
  then (pos + 8 + 16 ≤ Z.of_nat (length buf))%Z ∧ read_u16le buf (pos + 8) = 1%Z
  else memcmp buf pos (tag "data") = false.
#[global] Instance goes_on_dec buf pos : Decision (goes_on buf pos).
Proof. unfold goes_on. destruct (memcmp buf pos (tag "fmt ")); apply _. Defined.

Inductive visits (buf : list Z) : Z → Z → Prop :=
  | visits_here pos : visits buf pos pos
  | visits_next pos p : goes_on buf pos → visits buf (u64 (pos + step_at buf pos)) p → visits buf pos p.

(** A chunk the walk reaches and does not get past. *)
Definition stuck_at (buf : list Z) (p : Z) : Prop := goes_on buf p ∧ stuck_size (read_u32le buf (p + 4)).

Lemma walk_on fuel buf pos f :
  goes_on buf pos → ∃ f', walk (S fuel) buf pos f = walk fuel buf (u64 (pos + step_at buf pos)) f'.
Proof.
  intros [Hp Hg]. cbn [walk]. rewrite decide_True by done. cbn zeta. fold (step_at buf pos).
  destruct (memcmp buf pos (tag "fmt ")).
  - destruct Hg as [H1 H2]. rewrite decide_False by lia. rewrite decide_False by tauto. by eexists.
  - rewrite Hg. by eexists.
Qed.

Lemma walk_stops fuel buf pos f : ¬ goes_on buf pos → walk (S fuel) buf pos f ≠ None.
Proof.
  unfold goes_on. intros Hg. cbn [walk]. case_decide; [|done]. cbn zeta.
  destruct (memcmp buf pos (tag "fmt ")).
  - repeat case_decide; try done. exfalso. apply Hg. split; [done|]. split; [lia|].
    destruct (decide (read_u16le buf (pos + 8) = 1%Z)); tauto.
  - destruct (memcmp buf pos (tag "data")); [done|tauto].
Qed.

Lemma step_at_next buf pos :
  (Z.of_nat (length buf) < 2 ^ 63)%Z → (0 ≤ pos)%Z → goes_on buf pos →
  u64 (pos + step_at buf pos) = (pos + step_at buf pos)%Z ∧ (0 ≤ step_at buf pos)%Z.
Proof.
  intros Hl Hp [Hb _].
  pose proof (Z.mod_pos_bound (8 + read_u32le buf (pos + 4) + Z.land (read_u32le buf (pos + 4)) 1) (2 ^ 32) ltac:(lia)) as Hs.
  fold (u32 (8 + read_u32le buf (pos + 4) + Z.land (read_u32le buf (pos + 4)) 1)) in Hs.
  fold (step_at buf pos) in Hs. split; [apply Z.mod_small; lia|lia].
Qed.

Lemma walk_ends fuel buf pos f :
  (Z.of_nat (length buf) < 2 ^ 63)%Z → (0 ≤ pos)%Z →
  (∀ p, visits buf pos p → ¬ stuck_at buf p) →
  (Z.of_nat (length buf) - pos < Z.of_nat fuel)%Z → 0 < fuel →
  walk fuel buf pos f ≠ None.
Proof.
  intros Hl. revert pos f. induction fuel as [|fuel IH]; intros pos f Hp Hns Hf Hf0; [lia|].
  destruct (decide (goes_on buf pos)) as [Hg|Hg]; [|by apply walk_stops].
  destruct (step_at_next buf pos Hl Hp Hg) as [Hn Hs].
  assert (step_at buf pos ≠ 0)%Z as Hz by (intros E; by apply (Hns pos); [constructor|split]).
  destruct (walk_on fuel buf pos f Hg) as [f' ->]. pose proof (proj1 Hg).
  apply IH; [lia| |lia|lia]. intros p Hv. apply Hns. by apply visits_next.
Qed.

Lemma walk_stuck buf pos p :
  (Z.of_nat (length buf) < 2 ^ 63)%Z → (0 ≤ pos)%Z → visits buf pos p → stuck_at buf p →
  ∀ fuel f, walk fuel buf pos f = None.
Proof.
  intros Hl Hp Hv Hs. revert Hp. induction Hv as [pos|pos p Hg _ IH]; intros Hp fuel.
  - destruct Hs as [Hg Hz]. change (step_at buf pos = 0%Z) in Hz.
    destruct (step_at_next buf pos Hl Hp Hg) as [Hn _]. rewrite Hz, Z.add_0_r in Hn.
    induction fuel as [|fuel IH]; intros f; [done|]. destruct (walk_on fuel buf pos f Hg) as [f' ->].
    by rewrite Hz, Z.add_0_r, Hn.
  - intros f. destruct fuel as [|fuel]; [done|]. destruct (walk_on fuel buf pos f Hg) as [f' ->].
    destruct (step_at_next buf pos Hl Hp Hg). apply IH; [done|lia].
Qed.

(** [C25] Reading ends exactly when the walk reaches no chunk that stops it.
    The walk visits chunk after chunk from offset 12; it is stuck at one on
    which its loop goes on (not the data chunk; a format chunk only when it
    is whole and PCM) and whose size makes the 32-bit step
    [8 + size + padding] wrap to zero. When it visits no such chunk, it takes
    at most as many steps as there are bytes; when it visits one in a file
    with the two tags of a WAV file, no number of steps is enough. *)
Theorem wav_termination buf :
  (Z.of_nat (length buf) < 2 ^ 63)%Z →
  ((∀ p, visits buf 12 p → ¬ stuck_at buf p) → is_Some (read_wav (S (length buf)) buf)) ∧
  (44 ≤ length buf → memcmp buf 0 (tag "RIFF") = true → memcmp buf 8 (tag "WAVE") = true →
   ∀ p, visits buf 12 p → stuck_at buf p → ∀ fuel, read_wav fuel buf = None).
Proof.
  intros Hl. split.
  - intros Hns. unfold read_wav. repeat (case_match; [done|]).
    destruct (walk _ _ _ _) as [f|] eqn:E; [by destruct f|].
    exfalso. revert E. apply walk_ends; try done; lia.
  - intros H1 H2 H3 p Hv Hs fuel. unfold read_wav. rewrite decide_False by lia. rewrite H2, H3. cbn [negb].
    by rewrite (walk_stuck buf 12 p).
Qed.

(** A file of 52 bytes whose second chunk, after one of 8 bytes that is
    skipped, stops the walk. *)
Lemma wav_termination_witness :
  let buf := tag "RIFF" ++ [44; 0; 0; 0]%Z ++ tag "WAVE" ++ tag "junk" ++ [8; 0; 0; 0]%Z ++ replicate 8 0%Z
               ++ tag "LIST" ++ [247; 255; 255; 255]%Z ++ replicate 16 0%Z in
  length buf = 52 ∧ ∀ fuel, read_wav fuel buf = None.
Proof.
  intros buf. split; [reflexivity|].
  apply (proj2 (wav_termination buf ltac:(vm_compute; reflexivity)) ltac:(vm_compute; lia) eq_refl eq_refl 28%Z).
  - apply visits_next; [split; [vm_compute; discriminate|vm_compute; reflexivity]|].
    change (u64 (12 + step_at buf 12)) with 28%Z. constructor.
  - split; [split; [vm_compute; discriminate|vm_compute; reflexivity]|vm_compute; reflexivity].
Defined.
