(* ===== verification/Repository.v ===== *)
(** * The conversation store (src/src/memory/repository.hpp, repository.cpp,
      schema.hpp, db.cpp)

    The tables of the schema as lists of rows in the order of their ids, with
    the AUTOINCREMENT counters, and every method of [Repository] as the SQL
    it runs says: constraint violations are the errors a step can return
    (foreign keys are on); I/O errors of SQLite are not modelled. A SELECT
    without ORDER BY scans the table in the order of ids. Ids may have gaps
    where SQLite skips one on a conflict; here they have none. *)
From S2P Require Import Prelude.

Definition SessionId : Type := Z.
Definition MemTurnId : Type := Z.
Definition UnixMs : Type := Z.
Bind Scope Z_scope with SessionId MemTurnId UnixMs.

Inductive TurnRole := User | Assistant.
Inductive TurnStatus := InProgress | Committed | Interrupted | Discarded.
#[global] Instance TurnRole_eq_dec : EqDecision TurnRole.
Proof. solve_decision. Defined.
#[global] Instance TurnStatus_eq_dec : EqDecision TurnStatus.
Proof. solve_decision. Defined.

Definition role_to_string (r : TurnRole) : str := lit (match r with User => "user" | Assistant => "assistant" end).
Definition status_to_string (s : TurnStatus) : str :=
  lit (match s with
       | InProgress => "in_progress" | Committed => "committed"
       | Interrupted => "interrupted" | Discarded => "discarded"
       end).
Definition parse_role (s : str) : TurnRole := if decide (s = lit "assistant") then Assistant else User.
Definition parse_status (s : str) : TurnStatus :=
  if decide (s = lit "committed") then Committed
  else if decide (s = lit "interrupted") then Interrupted
  else if decide (s = lit "discarded") then Discarded
  else InProgress.

Record SessionRow := MkSession {
  ses_id : SessionId; ses_started_at : UnixMs; ses_ended_at : option UnixMs; ses_title : option str;
}.
Record TurnRow := MkTurn {
  turn_id : MemTurnId;
  turn_session : SessionId;
  turn_role : TurnRole;
  turn_text : option str;
  turn_lang : option str;
  turn_started_at : UnixMs;
  turn_ended_at : option UnixMs;
  turn_status : TurnStatus;
  interrupted_at_sentence : option Z;
  audio_path : option str;
}.
Record SummaryRow := MkSummary {
  sum_id : Z;
  sum_session : SessionId;
  range_start_turn : MemTurnId;
  range_end_turn : MemTurnId;
  sum_text : str;
  sum_lang : str;
  source_hash : str;
  created_at : UnixMs;
}.
Record FactRow := MkFact {
  fact_id : Z;
  fact_key : str;
  fact_value : str;
  fact_lang : option str;
  source_turn_id : option MemTurnId;
  confidence : fl;
  fact_updated_at : UnixMs;
}.
#[global] Instance eta_session : Eta SessionRow := λ r,
  MkSession (ses_id r) (ses_started_at r) (ses_ended_at r) (ses_title r).
#[global] Instance eta_turn : Eta TurnRow := λ r,
  MkTurn (turn_id r) (turn_session r) (turn_role r) (turn_text r) (turn_lang r) (turn_started_at r)
    (turn_ended_at r) (turn_status r) (interrupted_at_sentence r) (audio_path r).
#[global] Instance eta_fact : Eta FactRow := λ r,
  MkFact (fact_id r) (fact_key r) (fact_value r) (fact_lang r) (source_turn_id r) (confidence r) (fact_updated_at r).

Record db := MkDb {
  sessions : list SessionRow;
  turns : list TurnRow;
  summaries : list SummaryRow;
  facts : list FactRow;
  settings : list (str * (str * UnixMs));
  next_session : Z;
  next_turn : Z;
  next_summary : Z;
  next_fact : Z;
}.
#[global] Instance eta_db : Eta db := λ s,
  MkDb (sessions s) (turns s) (summaries s) (facts s) (settings s) (next_session s) (next_turn s) (next_summary s)
    (next_fact s).
Definition db_empty : db := MkDb [] [] [] [] [] 1 1 1 1.

(** [Result<T>]. *)
Inductive Result (A : Type) := Ok (a : A) | DbError (message : string).
Arguments Ok {A}. Arguments DbError {A}.

(** ** Sessions *)

Definition insert_session (started_at : UnixMs) (title : option str) (d : db) : Result SessionId * db :=
  (Ok (next_session d),
   d <| sessions ::= λ l, l ++ [MkSession (next_session d) started_at None title] |> <| next_session ::= Z.succ |>).

(** UPDATE sessions SET ended_at = ?1 WHERE id = ?2. *)
Definition close_session (id : SessionId) (ended_at : UnixMs) (d : db) : db :=
  d <| sessions ::= map (λ r, if decide (ses_id r = id) then r <| ses_ended_at := Some ended_at |> else r) |>.

Definition sessions_open_no_ended_at (d : db) : list SessionRow := filter (λ r, ses_ended_at r = None) (sessions d).

Definition has_session (id : SessionId) (d : db) : bool := existsb (λ r, bool_decide (ses_id r = id)) (sessions d).

(** ** Turns *)

Definition insert_turn (session : SessionId) (role : TurnRole) (text lang : option str) (started_at : UnixMs)
    (status : TurnStatus) (d : db) : Result MemTurnId * db :=
  if has_session session d then
    (Ok (next_turn d),
     d <| turns ::= λ l, l ++ [MkTurn (next_turn d) session (parse_role (role_to_string role)) text lang started_at
                                 None (parse_status (status_to_string status)) None None] |>
       <| next_turn ::= Z.succ |>)
  else (DbError "insert_turn step", d).

(** UPDATE turns SET ..., with COALESCE keeping a column at NULL. *)
Definition set_turn_status (id : MemTurnId) (status : TurnStatus) (ended_at : option UnixMs)
    (interrupted_at : option Z) (text : option str) (d : db) : db :=
  d <| turns ::= map (λ r, if decide (turn_id r = id) then
           r <| turn_status := parse_status (status_to_string status) |>
             <| turn_ended_at ::= λ old, match ended_at with Some t => Some t | None => old end |>
             <| interrupted_at_sentence := interrupted_at |>
             <| turn_text ::= λ old, match text with Some t => Some t | None => old end |>
         else r) |>.

(** ORDER BY id DESC LIMIT ?2, and the caller's [reverse]; a negative limit
    is none. *)
Definition recent_turns (session : SessionId) (limit : Z) (d : db) : list TurnRow :=
  let desc := rev (filter (λ r, turn_session r = session) (turns d)) in
  rev (if decide (limit < 0)%Z then desc else take (Z.to_nat limit) desc).

Definition turns_in_progress (d : db) : list TurnRow := filter (λ r, turn_status r = InProgress) (turns d).

(** SELECT MAX(ended_at): NULL when there is none. *)
Definition max_opt (a b : option Z) : option Z :=
  match a, b with Some x, Some y => Some (Z.max x y) | Some x, None => Some x | None, b => b end.
Definition max_turn_ended_at (session : SessionId) (d : db) : option UnixMs :=
  foldr (λ r, max_opt (turn_ended_at r)) None (filter (λ r, turn_session r = session) (turns d)).

(** ** Summaries *)

Definition insert_summary (session : SessionId) (range_start range_end : MemTurnId) (summary lang hash : str)
    (created : UnixMs) (d : db) : Result Z * db :=
  if has_session session d then
    (Ok (next_summary d),
     d <| summaries ::= λ l, l ++ [MkSummary (next_summary d) session range_start range_end summary lang hash created] |>
       <| next_summary ::= Z.succ |>)
  else (DbError "insert_summary step", d).

(** ORDER BY range_end_turn DESC LIMIT 1; of equal ends the index gives the
    row inserted last. *)
Definition latest_summary (session : SessionId) (d : db) : option SummaryRow :=
  foldl (λ best r, match best with
                   | Some b => if decide (range_end_turn b ≤ range_end_turn r)%Z then Some r else best
                   | None => Some r
                   end) None (filter (λ r, sum_session r = session) (summaries d)).

Definition all_summaries (d : db) : list SummaryRow := summaries d.

(** ** Facts and settings *)

(** The foreign key of the turn; a NaN is bound as NULL, which the column
    does not take.
    UNIQUE(key, lang) with ON CONFLICT DO UPDATE: NULLs are distinct from one
    another, so a row with no language never conflicts. *)
Definition fact_conflicts (key : str) (lang : option str) (r : FactRow) : bool :=
  bool_decide (fact_key r = key) && bool_decide (fact_lang r = lang) && bool_decide (lang ≠ None).

Definition has_turn (id : MemTurnId) (d : db) : bool := existsb (λ r, bool_decide (turn_id r = id)) (turns d).

Definition upsert_fact (key : str) (lang : option str) (value : str) (source_turn : option MemTurnId)
    (conf : fl) (updated_at : UnixMs) (d : db) : option string * db :=
  if match source_turn with Some t => has_turn t d | None => true end && bool_decide (conf ≠ None) then
    if existsb (fact_conflicts key lang) (facts d) then
      (None, d <| facts ::= map (λ r, if fact_conflicts key lang r
          then r <| fact_value := value |> <| source_turn_id := source_turn |> <| confidence := conf |>
                 <| fact_updated_at := updated_at |> else r) |>)
    else
      (None, d <| facts ::= λ l, l ++ [MkFact (next_fact d) key value lang source_turn conf updated_at] |>
               <| next_fact ::= Z.succ |>)
  else (Some "upsert_fact step"%string, d).

(** ORDER BY key, lang: bytewise, NULL first, ties by id. *)
Definition opt_cmp (a b : option str) : comparison :=
  match a, b with None, None => Eq | None, Some _ => Lt | Some _, None => Gt | Some x, Some y => str_cmp x y end.
Definition fact_leb (a b : FactRow) : bool :=
  match str_cmp (fact_key a) (fact_key b) with
  | Lt => true | Gt => false
  | Eq => match opt_cmp (fact_lang a) (fact_lang b) with Gt => false | _ => true end
  end.
Fixpoint insert_sorted (r : FactRow) (l : list FactRow) : list FactRow :=
  match l with [] => [r] | x :: l' => if fact_leb r x then r :: l else x :: insert_sorted r l' end.
Definition facts_with_min_confidence (min : fl) (d : db) : list FactRow :=
  foldr insert_sorted [] (filter (λ r, fl_le min (confidence r) = true) (facts d)).

Definition set_setting (key value : str) (updated_at : UnixMs) (d : db) : db :=
  d <| settings ::= λ l, if existsb (λ e, bool_decide (e.1 = key)) l
         then map (λ e, if decide (e.1 = key) then (key, (value, updated_at)) else e) l
         else l ++ [(key, (value, updated_at))] |>.
Definition get_setting (key : str) (d : db) : option str :=
  (λ e, e.2.1) <$> List.find (λ e, bool_decide (e.1 = key)) (settings d).

(** ** Operations as one type *)

Inductive Op :=
  | InsertSession (started_at : UnixMs) (title : option str)
  | CloseSession (id : SessionId) (ended_at : UnixMs)
  | InsertTurn (session : SessionId) (role : TurnRole) (text lang : option str) (started_at : UnixMs) (status : TurnStatus)
  | SetTurnStatus (id : MemTurnId) (status : TurnStatus) (ended_at : option UnixMs) (at_ : option Z) (text : option str)
  | InsertSummary (session : SessionId) (range_start range_end : MemTurnId) (summary lang hash : str) (created : UnixMs)
  | UpsertFact (key : str) (lang : option str) (value : str) (source_turn : option MemTurnId) (conf : fl) (updated_at : UnixMs)
  | SetSetting (key value : str) (updated_at : UnixMs).

Definition apply (o : Op) (d : db) : db :=
  match o with
  | InsertSession t ti => (insert_session t ti d).2
  | CloseSession id t => close_session id t d
  | InsertTurn s r tx l t st => (insert_turn s r tx l t st d).2
  | SetTurnStatus id st e a tx => set_turn_status id st e a tx d
  | InsertSummary s a b x l h c => (insert_summary s a b x l h c d).2
  | UpsertFact k l v t c u => (upsert_fact k l v t c u d).2
  | SetSetting k v u => set_setting k v u d
  end.
Definition apply_all (os : list Op) (d : db) : db := foldl (λ d o, apply o d) d os.

(** ** Specification *)

(** The ids of a table are increasing and below its counter. *)
Definition ids_ok (ids : list Z) (next : Z) : Prop := StronglySorted Z.lt ids ∧ Forall (λ i, 0 < i < next)%Z ids.

(** What the schema promises. *)
Record db_wf (d : db) : Prop := {
  wf_sessions : ids_ok (ses_id <$> sessions d) (next_session d);
  wf_turns : ids_ok (turn_id <$> turns d) (next_turn d);
  wf_summaries : ids_ok (sum_id <$> summaries d) (next_summary d);
  wf_facts : ids_ok (fact_id <$> facts d) (next_fact d);
  wf_turn_session : Forall (λ r, turn_session r ∈ ses_id <$> sessions d) (turns d);
  wf_summary_session : Forall (λ r, sum_session r ∈ ses_id <$> sessions d) (summaries d);
  wf_fact_turn : Forall (λ r, ∀ t, source_turn_id r = Some t → t ∈ turn_id <$> turns d) (facts d);
  wf_fact_unique : NoDup (omap (λ r, (fact_key r,.) <$> fact_lang r) (facts d));
  wf_settings : NoDup (settings d).*1;
  wf_next : (0 < next_session d ∧ 0 < next_turn d ∧ 0 < next_summary d ∧ 0 < next_fact d)%Z;
}.

(** ** Lemmas *)

Lemma parse_status_to_string s : parse_status (status_to_string s) = s.
Proof. by destruct s. Qed.
Lemma parse_role_to_string r : parse_role (role_to_string r) = r.
Proof. by destruct r. Qed.

Lemma ids_snoc ids next : ids_ok ids next → (0 < next)%Z → ids_ok (ids ++ [next]) (Z.succ next).
Proof.
  intros [H1 H2] Hn. split.
  - induction H1 as [|i ids H1 IH Hi]; [by repeat constructor|]. apply Forall_cons in H2 as [H2 H3].
    cbn. constructor; [by apply IH|]. apply Forall_app. split; [done|]. repeat constructor. lia.
  - apply Forall_app. split; [|repeat constructor; lia]. eapply Forall_impl; [exact H2|]. cbn. lia.
Qed.

Lemma ids_nodup ids next : ids_ok ids next → NoDup ids.
Proof.
  intros [H _]. induction H as [|i ids H IH Hi]; constructor; [|done].
  intros Hin. rewrite Forall_forall in Hi. specialize (Hi i Hin). lia.
Qed.

(** An update that keeps a column keeps the column of the table. *)
Lemma map_column {R K} (key : R → K) (f : R → R) l :
  (∀ r, key (f r) = key r) → key <$> map f l = key <$> l.
Proof. intros H. change (map f l) with (f <$> l). rewrite <- list_fmap_compose.
  apply list_fmap_ext. intros i r _. apply H. Qed.

Lemma Forall_map_iff {R} (P : R → Prop) (f : R → R) l : (∀ r, P r → P (f r)) → Forall P l → Forall P (map f l).
Proof. intros H Hl. induction Hl; constructor; auto. Qed.

Lemma has_session_spec id d : has_session id d = true ↔ id ∈ ses_id <$> sessions d.
Proof.
  unfold has_session. rewrite existsb_exists, list_elem_of_fmap. setoid_rewrite bool_decide_eq_true.
  setoid_rewrite <- list_elem_of_In. naive_solver.
Qed.

Lemma has_turn_spec id d : has_turn id d = true ↔ id ∈ turn_id <$> turns d.
Proof.
  unfold has_turn. rewrite existsb_exists, list_elem_of_fmap. setoid_rewrite bool_decide_eq_true.
  setoid_rewrite <- list_elem_of_In. naive_solver.
Qed.

Lemma fact_conflicts_spec k l r : fact_conflicts k l r = true ↔ fact_key r = k ∧ fact_lang r = l ∧ l ≠ None.
Proof. unfold fact_conflicts. rewrite !andb_true_iff, !bool_decide_eq_true. tauto. Qed.

Lemma upsert_wf k l v t c u d : db_wf d → db_wf (upsert_fact k l v t c u d).2.
Proof.
  intros H. destruct H. unfold upsert_fact. destruct (_ && _) eqn:Ec; [|by split].
  apply andb_true_iff in Ec as [Et _]. destruct (existsb _ _) eqn:Ex; cbn; split; cbn; try done.
  - rewrite map_column; [done|]. intros r. by destruct (fact_conflicts k l r).
  - apply Forall_map_iff; [|done]. intros r Hr. destruct (fact_conflicts k l r); [|done]. cbn. intros t' ->.
    by apply has_turn_spec.
  - assert (∀ F, omap (λ r, (fact_key r,.) <$> fact_lang r) (map (λ r, if fact_conflicts k l r
      then r <| fact_value := v |> <| source_turn_id := t |> <| confidence := c |> <| fact_updated_at := u |> else r) F)
      = omap (λ r, (fact_key r,.) <$> fact_lang r) F) as ->; [|done].
    intros F. induction F as [|r F IH]; [done|]. cbn [map omap list_omap]. fold (@omap list _ FactRow (str * str)).
    cbn in IH. rewrite IH. by destruct (fact_conflicts k l r).
  - rewrite fmap_app. apply ids_snoc; [done|lia].
  - apply Forall_app. split; [done|]. repeat constructor. cbn. intros t' ->. by apply has_turn_spec.
  - rewrite omap_app. apply NoDup_app. split; [done|]. cbn. destruct l as [l|]; cbn; [|split; [set_solver|constructor]].
    split; [|apply NoDup_singleton]. intros x Hx Hin. apply list_elem_of_singleton in Hin. subst x.
    apply list_elem_of_omap in Hx as (r & Hr & E). destruct (fact_lang r) as [l'|] eqn:El; [|done]. cbn in E.
    injection E as E1 E2. subst. apply not_true_iff_false in Ex. destruct Ex. apply existsb_exists. exists r.
    split; [by apply list_elem_of_In|]. by apply fact_conflicts_spec.
  - lia.
Qed.

Lemma apply_wf o d : db_wf d → db_wf (apply o d).
Proof.
  intros H. destruct o as [t ti|id t|s r tx l t st|id st e a tx|s a b x l h c|k l v t c u|k v u]; cbn [apply];
    [| | | | |by apply upsert_wf|].
  - destruct H. split; cbn; try done; try lia.
    + rewrite fmap_app. apply ids_snoc; [done|lia].
    + eapply Forall_impl; [done|]. cbn. intros r Hr. rewrite fmap_app. set_solver.
    + eapply Forall_impl; [done|]. cbn. intros r Hr. rewrite fmap_app. set_solver.
  - assert (∀ r, ses_id (if decide (ses_id r = id) then r <| ses_ended_at := Some t |> else r) = ses_id r) as Hk
      by (intros r; by case_decide).
    destruct H. split; cbn; try done; by rewrite (map_column ses_id).
  - unfold insert_turn. destruct (has_session s d) eqn:Es; [|done]. apply has_session_spec in Es.
    destruct H. split; cbn; try done; try lia.
    + rewrite fmap_app. apply ids_snoc; [done|lia].
    + apply Forall_app. split; [done|]. by repeat constructor.
    + eapply Forall_impl; [done|]. cbn. intros f Hf t' E. rewrite fmap_app. set_solver.
  - unfold set_turn_status. destruct H. split; cbn; try done.
    + rewrite (map_column turn_id); [done|]. intros r. by case_decide.
    + apply Forall_map_iff; [|done]. intros r. by case_decide.
    + eapply Forall_impl; [done|]. cbn. intros f Hf t' E. rewrite (map_column turn_id); [by apply Hf|].
      intros r. by case_decide.
  - unfold insert_summary. destruct (has_session s d) eqn:Es; [|done]. apply has_session_spec in Es.
    destruct H. split; cbn; try done; try lia.
    + rewrite fmap_app. apply ids_snoc; [done|lia].
    + apply Forall_app. split; [done|]. by repeat constructor.
  - destruct H. split; try done. cbn. destruct (existsb _ (settings d)) eqn:Ex.
    + assert ((map (λ e, if decide (e.1 = k) then (k, (v, u)) else e) (settings d)).*1 = (settings d).*1) as ->; [|done].
      apply (map_column fst). intros e. case_decide; [done|done].
    + rewrite fmap_app. apply NoDup_app. split; [done|]. split; [|apply NoDup_singleton].
      intros x Hx Hin. apply list_elem_of_singleton in Hin. subst x. apply list_elem_of_fmap in Hx as (e & E & He).
      apply not_true_iff_false in Ex. destruct Ex. apply existsb_exists. exists e.
      split; [by apply list_elem_of_In|]. by apply bool_decide_eq_true.
Qed.

Lemma db_empty_wf : db_wf db_empty.
Proof. split; cbn; try (split; constructor); try constructor; lia. Qed.

Lemma wf_all os : db_wf (apply_all os db_empty).
Proof.
  unfold apply_all. assert (∀ d, db_wf d → db_wf (foldl (λ d o, apply o d) d os)) as H; [|apply H, db_empty_wf].
  induction os as [|o os IH]; intros d Hd; [done|]. by apply IH, apply_wf.
Qed.

Lemma filter_none {R} (P : R → Prop) `{!∀ r, Decision (P r)} l : Forall (λ r, ¬ P r) l → filter P l = [].
Proof. induction 1 as [|r l Hr _ IH]; [done|]. rewrite filter_cons, decide_False by done. exact IH. Qed.

Lemma filter_map_proj {R} (P : R → Prop) `{!∀ r, Decision (P r)} (f : R → R) l :
  (∀ r, P (f r) ↔ P r) → filter P (map f l) = map f (filter P l).
Proof.
  intros Hf. induction l as [|r l IH]; [done|]. cbn [map]. rewrite !filter_cons. rewrite IH.
  destruct (decide (P r)) as [Hr|Hr]; [by rewrite decide_True by (by apply Hf)|rewrite decide_False; [done|]].
  by rewrite Hf.
Qed.

(** The facts of a key and a language. *)
Definition fact_is (key l : str) (r : FactRow) : Prop := fact_key r = key ∧ fact_lang r = Some l.
#[global] Instance fact_is_dec key l r : Decision (fact_is key l r).
Proof. unfold fact_is. apply _. Defined.

Lemma fact_is_conflicts key l r : fact_conflicts key (Some l) r = true ↔ fact_is key l r.
Proof. rewrite fact_conflicts_spec. unfold fact_is. naive_solver. Qed.

Lemma fact_unique key l F :
  NoDup (omap (λ r, (fact_key r,.) <$> fact_lang r) F) →
  filter (fact_is key l) F = [] ∨ ∃ r, filter (fact_is key l) F = [r].
Proof.
  induction F as [|r F IH]; intros Hn; [by left|]. cbn [omap list_omap] in Hn. fold (@omap list _ FactRow (str * str)) in Hn.
  rewrite filter_cons. case_decide as Hr.
  - destruct Hr as [Hk Hl]. rewrite Hl in Hn. cbn in Hn. inversion Hn as [|? ? Hin Hn']; subst. right. exists r. f_equal.
    apply filter_none. rewrite Forall_forall. intros r' Hr' [Hk' Hl']. destruct Hin. apply list_elem_of_omap.
    exists r'. rewrite Hl', Hk'. done.
  - apply IH. destruct (fact_lang r); cbn in Hn; [by inversion Hn|done].
Qed.

(** ** Properties *)

(** [C28] The schema holds. Whatever the operations and their order, from an
    empty database the ids of each table are increasing and below its
    counter, every turn, summary and fact refers to rows that exist, there
    is one fact for a key and a language, and one row for a setting. *)
Theorem store_wf os : db_wf (apply_all os db_empty).
Proof. apply wf_all. Qed.

(** Facts. In every store, writing a fact with a language leaves exactly
    one row for the key and that language, with the value written, and the
    other rows as they were; writing one without a language replaces nothing,
    since NULLs are distinct in the unique index: each write adds a row. *)
Theorem upsert_exact os key lang value source conf t :
  let d := apply_all os db_empty in
  let '(err, d') := upsert_fact key lang value source conf t d in
  err = None →
  match lang with
  | Some l =>
      (∃ r, filter (fact_is key l) (facts d') = [r] ∧
        fact_value r = value ∧ source_turn_id r = source ∧ confidence r = conf ∧ fact_updated_at r = t) ∧
      filter (λ r, ¬ fact_is key l r) (facts d') = filter (λ r, ¬ fact_is key l r) (facts d)
  | None => facts d' = facts d ++ [MkFact (next_fact d) key value None source conf t]
  end.
Proof.
  intros d. pose proof (wf_fact_unique d (wf_all os)) as Hn. clearbody d. unfold upsert_fact.
  destruct (_ && _); [|done]. destruct (existsb _ (facts d)) eqn:Ex; intros _.
  - apply existsb_exists in Ex as (r0 & Hr0%list_elem_of_In & Hc). destruct lang as [l|].
    2: { apply fact_conflicts_spec in Hc. naive_solver. }
    set (upd := λ r, if fact_conflicts key (Some l) r then _ else r).
    assert (∀ r, fact_is key l (upd r) ↔ fact_is key l r) as Hu by (intros r; unfold upd; by case_match).
    change (facts (d <| facts ::= map upd |>)) with (map upd (facts d)). split.
    + rewrite (filter_map_proj (fact_is key l)) by done.
      destruct (fact_unique key l (facts d) Hn) as [E|[r E]].
      * exfalso. assert (r0 ∈ filter (fact_is key l) (facts d)) as Hi; [|rewrite E in Hi; by apply elem_of_nil in Hi].
        apply list_elem_of_filter. split; [by apply fact_is_conflicts|done].
      * rewrite E. exists (upd r). split; [done|].
        assert (r ∈ filter (fact_is key l) (facts d)) as Hi by (rewrite E; left).
        apply list_elem_of_filter in Hi as [Hi _]. apply fact_is_conflicts in Hi. unfold upd. by rewrite Hi.
    + rewrite (filter_map_proj (λ r, ¬ fact_is key l r)) by (intros r; by rewrite Hu).
      rewrite <- (map_id (filter _ (facts d))) at 2. apply map_ext_in. intros r [Hr _]%list_elem_of_In%list_elem_of_filter.
      unfold upd. destruct (fact_conflicts key (Some l) r) eqn:E; [|done]. by apply fact_is_conflicts in E.
  - destruct lang as [l|]; [|done]. cbn. apply not_true_iff_false in Ex. rewrite !filter_app.
    assert (filter (fact_is key l) (facts d) = []) as ->.
    { apply filter_none. rewrite Forall_forall. intros r Hr Hi. apply Ex, existsb_exists. exists r.
      split; [by apply list_elem_of_In|by apply fact_is_conflicts]. }
    rewrite !filter_cons, !filter_nil. rewrite decide_True by done. rewrite decide_False by (intros Hx; by apply Hx).
    split; [|by rewrite app_nil_r]. eexists. split; [reflexivity|done].
Qed.

Lemma upsert_exact_witness :
  let d := apply_all [UpsertFact (lit "city") None (lit "Oslo") None (Some 1%Q) 1] db_empty in
  let '(err, d') := upsert_fact (lit "city") None (lit "Bergen") None (Some 1%Q) 2 d in
  err = None ∧ fact_value <$> facts d' = [lit "Oslo"; lit "Bergen"].
Proof.
  intros d. pose proof (upsert_exact [UpsertFact (lit "city") None (lit "Oslo") None (Some 1%Q) 1]%Z
    (lit "city") None (lit "Bergen") None (Some 1%Q) 2) as H. cbn zeta in H. fold d in H.
  assert ((upsert_fact (lit "city") None (lit "Bergen") None (Some 1%Q) 2 d).1 = None) as E by (vm_compute; reflexivity).
  destruct (upsert_fact _ _ _ _ _ _ d) as [err d']. cbn [fst] in E. split; [exact E|]. rewrite (H E). vm_compute. reflexivity.
Defined.
