(* ===== verification/Recovery.v ===== *)
(** * Recovery at start-up (src/src/memory/recovery.hpp, recovery.cpp)

    The sweep that closes the sessions and turns a crash left open, and the
    hash that says whether a summary is stale. A read of the store gives a
    [Result]; the sweep is one transaction, which a failed statement rolls
    back, except that a failed read of a hash is taken for no hash. *)
From S2P Require Import Prelude Repository.

(** FNV-1a on 64 bits, and [{:016x}]. *)
Definition fnv_step (h : Z) (c : ascii) : Z := u64 (Z.lxor h (byte_of c) * 0x100000001b3).
Definition hex_digit (n : Z) : ascii :=
  default "0"%char (lit "0123456789abcdef" !! Z.to_nat n).
Definition hex16 (h : Z) : str :=
  map (λ i, hex_digit (Z.land (Z.shiftr h (4 * Z.of_nat (15 - i))) 15)) (seq 0 16).
Definition fnv1a64 (s : str) : str := hex16 (foldl fnv_step 0xcbf29ce484222325%Z s).

(** [std::ostream << std::int64_t]. *)
Definition digit (n : Z) : ascii := ascii_of_N (Z.to_N (48 + n)).
Fixpoint digits (fuel : nat) (n : Z) (acc : str) : str :=
  match fuel with
  | O => acc
  | S fuel => let acc := digit (n mod 10) :: acc in if decide (n < 10)%Z then acc else digits fuel (n / 10) acc
  end.
Definition decimal (n : Z) : str :=
  if decide (n < 0)%Z then "-"%char :: digits 20 (- n) [] else digits 20 n [].

Definition hash_line (t : TurnRow) : str :=
  decimal (turn_id t) ++ ["|"%char] ++ default [] (turn_text t) ++ ["010"%char].

(** A statement that returns [x], or fails. *)
Definition statement {A} (fails : bool) (x : A) : Result A := if fails then DbError "step" else Ok x.

Definition compute_source_hash (read_fails : bool) (session : SessionId) (range_start range_end : MemTurnId) (d : db) : str :=
  match statement read_fails (recent_turns session 100000 d) with
  | DbError _ => []
  | Ok rows => fnv1a64 (flat_map hash_line (filter (λ t, range_start ≤ turn_id t ≤ range_end)%Z rows))
  end.

Record RecoverySummary := MkRecovery {
  sessions_closed : Z;
  turns_marked_interrupted : Z;
  summaries_total : Z;
  summaries_stale : Z;
}.

Definition close_dangling (rows : list SessionRow) (d : db) : db :=
  foldl (λ d r, close_session (ses_id r) (default (ses_started_at r) (max_turn_ended_at (ses_id r) d)) d) d rows.
Definition mark_interrupted (rows : list TurnRow) (d : db) : db :=
  foldl (λ d r, set_turn_status (turn_id r) Interrupted None None None d) d rows.
Definition is_stale (read_fails : bool) (d : db) (r : SummaryRow) : bool :=
  let current := compute_source_hash read_fails (sum_session r) (range_start_turn r) (range_end_turn r) d in
  negb (bool_decide (current = [])) && negb (bool_decide (current = source_hash r)).

(** [fails]: a statement before the commit, or the commit, fails; the
    destructor of the transaction then rolls back. [hash_fails]: the read of
    the turns of a summary does. *)
Definition run_recovery (fails : bool) (hash_fails : SummaryRow → bool) (d0 : db) : Result RecoverySummary * db :=
  let open_ := sessions_open_no_ended_at d0 in
  let d := close_dangling open_ d0 in
  let in_prog := turns_in_progress d in
  let d := mark_interrupted in_prog d in
  let sums := all_summaries d in
  let out := MkRecovery (Z.of_nat (length open_)) (Z.of_nat (length in_prog)) (Z.of_nat (length sums))
     (Z.of_nat (length (List.filter (λ r, is_stale (hash_fails r) d r) sums))) in
  match statement fails out with
  | Ok out => (Ok out, d)
  | DbError m => (DbError m, d0)
  end.

(** ** Specification *)

Definition closed (d : db) (r : SessionRow) : SessionRow :=
  match ses_ended_at r with
  | Some _ => r
  | None => r <| ses_ended_at := Some (default (ses_started_at r) (max_turn_ended_at (ses_id r) d)) |>
  end.
Definition settled (r : TurnRow) : TurnRow :=
  if decide (turn_status r = InProgress)
  then r <| turn_status := Interrupted |> <| interrupted_at_sentence := None |> else r.

(** ** Lemmas *)

(** A loop of updates by id over the rows selected from a table updates
    exactly those rows. *)
Lemma update_loop {R} (key : R → Z) (g : R → R → R) (P : R → Prop) `{!∀ r, Decision (P r)} l :
  (∀ r x, key (g r x) = key x) → NoDup (key <$> l) →
  foldl (λ acc r, map (λ x, if decide (key x = key r) then g r x else x) acc) l (filter P l)
  = map (λ x, if decide (P x) then g x x else x) l.
Proof.
  intros Hg Hn.
  assert (∀ rows acc, NoDup (key <$> rows) →
    foldl (λ acc r, map (λ x, if decide (key x = key r) then g r x else x) acc) acc rows
    = map (λ x, match List.find (λ r, bool_decide (key x = key r)) rows with Some r => g r x | None => x end) acc) as Hf.
  { induction rows as [|r rows IH]; intros acc Hr; [by rewrite map_id|]. rewrite fmap_cons in Hr.
    inversion Hr as [|? ? Hin Hr']; subst. cbn [foldl]. rewrite (IH _ Hr'), map_map. apply map_ext. intros x.
    cbn [List.find]. destruct (decide (key x = key r)) as [E|E].
    - rewrite (bool_decide_true (key x = key r)) by done. rewrite Hg.
      destruct (List.find _ rows) as [r'|] eqn:Ef; [|done]. apply find_some in Ef as [Hi Hb%bool_decide_eq_true].
      destruct Hin. rewrite <- E, Hb. apply list_elem_of_fmap. exists r'. by rewrite list_elem_of_In.
    - by rewrite bool_decide_false by done. }
  rewrite Hf.
  2: { eapply sublist_NoDup; [exact Hn|]. apply fmap_sublist, sublist_filter. }
  apply map_ext_in. intros x Hx. apply list_elem_of_In in Hx.
  destruct (List.find _ (filter P l)) as [r|] eqn:Ef.
  - apply find_some in Ef as [Hi Hb%bool_decide_eq_true]. apply list_elem_of_In, list_elem_of_filter in Hi as [HP Hi].
    assert (r = x) as ->; [|by rewrite decide_True].
    apply list_elem_of_lookup in Hx as [i Hi1], Hi as [j Hj1].
    assert (i = j) as ->; [|congruence].
    eapply NoDup_lookup; [exact Hn|rewrite list_lookup_fmap, Hi1; reflexivity|rewrite list_lookup_fmap, Hj1; cbn; congruence].
  - case_decide as HP; [|done]. exfalso. assert (List.In x (filter P l)) as Hi by (apply list_elem_of_In, list_elem_of_filter; done).
    pose proof (find_none _ _ Ef x Hi) as Hz. cbn in Hz. by rewrite bool_decide_true in Hz.
Qed.

Definition close_one (d : db) (r x : SessionRow) : SessionRow :=
  x <| ses_ended_at := Some (default (ses_started_at r) (max_turn_ended_at (ses_id r) d)) |>.
Definition settle_one (r x : TurnRow) : TurnRow :=
  x <| turn_status := Interrupted |> <| interrupted_at_sentence := None |>.

Lemma close_dangling_table rows d0 d :
  turns d = turns d0 →
  close_dangling rows d = d <| sessions := foldl (λ acc r, map (λ x, if decide (ses_id x = ses_id r)
    then close_one d0 r x else x) acc) (sessions d) rows |>.
Proof.
  revert d. induction rows as [|r rows IH]; intros d Hd; [by destruct d|].
  unfold close_dangling in *. cbn [foldl]. rewrite IH by done. unfold close_one, max_turn_ended_at. rewrite Hd. reflexivity.
Qed.

Lemma mark_interrupted_table rows d :
  mark_interrupted rows d = d <| turns := foldl (λ acc r, map (λ x, if decide (turn_id x = turn_id r)
    then settle_one r x else x) acc) (turns d) rows |>.
Proof.
  revert d. induction rows as [|r rows IH]; intros d; [by destruct d|].
  unfold mark_interrupted in *. cbn [foldl]. rewrite IH. unfold set_turn_status. cbn.
  reflexivity.
Qed.

(** The whole sweep, table by table. *)
Lemma recovery_tables hf d :
  db_wf d →
  let d' := (run_recovery false hf d).2 in
  d' = d <| sessions := map (closed d) (sessions d) |> <| turns := map settled (turns d) |>.
Proof.
  intros H. cbn zeta. unfold run_recovery. cbn [snd statement]. rewrite (close_dangling_table _ d d eq_refl).
  unfold sessions_open_no_ended_at. rewrite (update_loop ses_id (close_one d)); [|done|eapply ids_nodup, wf_sessions, H].
  rewrite mark_interrupted_table. unfold turns_in_progress.
  change (turns (d <| sessions := _ |>)) with (turns d).
  rewrite (update_loop turn_id settle_one); [|done|eapply ids_nodup, wf_turns, H].
  assert (map (λ x, if decide (ses_ended_at x = None) then close_one d x x else x) (sessions d)
    = map (closed d) (sessions d)) as ->.
  { apply map_ext. intros x. unfold closed, close_one. by destruct (ses_ended_at x). }
  assert (map (λ x, if decide (turn_status x = InProgress) then settle_one x x else x) (turns d)
    = map settled (turns d)) as -> by by apply map_ext.
  reflexivity.
Qed.

Lemma Forall_map_all {R} (P : R → Prop) (f : R → R) l : (∀ r, P (f r)) → Forall P (map f l).
Proof. intros Hf. induction l; constructor; auto. Qed.

(** The hash of a summary reads only what the sweep leaves. *)
Lemma settled_kept r :
  turn_id (settled r) = turn_id r ∧ turn_session (settled r) = turn_session r ∧ turn_text (settled r) = turn_text r ∧
  turn_ended_at (settled r) = turn_ended_at r.
Proof. unfold settled. by case_decide. Qed.

Lemma hash_settled f session a b d :
  compute_source_hash f session a b (d <| turns := map settled (turns d) |>) = compute_source_hash f session a b d.
Proof.
  destruct f; [done|]. unfold compute_source_hash, statement, recent_turns. cbn [turns set_field]. rewrite decide_False by lia.
  change (turns (d <| turns := map settled (turns d) |>)) with (map settled (turns d)).
  rewrite (filter_map_proj (λ r, turn_session r = session)) by (intros r; by rewrite (proj1 (proj2 (settled_kept r)))).
  rewrite <- map_rev, firstn_map, <- map_rev.
  rewrite (filter_map_proj (λ t, a ≤ turn_id t ≤ b)%Z) by (intros r; by rewrite (proj1 (settled_kept r))).
  set (l := filter _ _). clearbody l. f_equal. induction l as [|r l IH]; [done|]. cbn [map flat_map]. rewrite IH. f_equal.
  unfold hash_line. destruct (settled_kept r) as (-> & _ & -> & _). done.
Qed.

Lemma settled_status r : turn_status (settled r) ≠ InProgress.
Proof. unfold settled. case_decide; [by intros [=]|done]. Qed.

Lemma settled_twice r : settled (settled r) = settled r.
Proof. unfold settled at 1. rewrite decide_False; [done|apply settled_status]. Qed.

Lemma closed_ended d r : ses_ended_at (closed d r) ≠ None.
Proof. unfold closed. by destruct (ses_ended_at r) eqn:E; rewrite ?E. Qed.

(** Staleness reads the texts of the turns and nothing else. *)
Lemma is_stale_settled f d d' r :
  turns d' = map settled (turns d) → is_stale f d' r = is_stale f d r.
Proof.
  intros H. unfold is_stale. rewrite <- (hash_settled _ _ _ _ d). unfold compute_source_hash, recent_turns. by rewrite H.
Qed.

Definition swept (d : db) : db := d <| sessions := map (closed d) (sessions d) |> <| turns := map settled (turns d) |>.

Lemma run_recovery_eq hf d :
  db_wf d →
  run_recovery false hf d = (Ok (MkRecovery (Z.of_nat (length (sessions_open_no_ended_at d)))
    (Z.of_nat (length (turns_in_progress d))) (Z.of_nat (length (summaries d)))
    (Z.of_nat (length (List.filter (λ r, is_stale (hf r) d r) (summaries d))))), swept d).
Proof.
  intros Hwf. pose proof (recovery_tables hf d Hwf) as Ht. unfold run_recovery in *. cbn zeta in *. cbn [snd statement] in Ht.
  cbn [statement]. set (d1 := close_dangling _ d) in *.
  assert (turns d1 = turns d) as E1 by (unfold d1; by rewrite (close_dangling_table _ d d eq_refl)).
  assert (turns_in_progress d1 = turns_in_progress d) as E2 by (unfold turns_in_progress; by rewrite E1).
  rewrite E2 in *. rewrite Ht. do 3 f_equal. f_equal. f_equal. apply List.filter_ext. intros r.
  by apply is_stale_settled.
Qed.

Lemma run_recovery_swept hf d :
  run_recovery false hf (swept d) = (Ok (MkRecovery 0 0 (Z.of_nat (length (summaries d)))
    (Z.of_nat (length (List.filter (λ r, is_stale (hf r) d r) (summaries d))))), swept d).
Proof.
  assert (sessions_open_no_ended_at (swept d) = []) as E1.
  { apply filter_none. apply Forall_map_all. intros r. apply closed_ended. }
  assert (turns_in_progress (swept d) = []) as E2.
  { apply filter_none. apply Forall_map_all. intros r. apply settled_status. }
  unfold run_recovery. rewrite E1. unfold close_dangling. cbn [foldl]. rewrite E2. unfold mark_interrupted.
  cbn [foldl length statement]. change (all_summaries (swept d)) with (summaries d). do 3 f_equal. f_equal. f_equal.
  apply List.filter_ext. intros r. by apply is_stale_settled.
Qed.

Lemma not_stale_unread d r : is_stale true d r = false.
Proof. done. Qed.

(** ** Properties *)

(** The sweep. On a well-formed store it closes every open session with
    the last end of its turns, or its own start, marks every turn in progress
    as interrupted, and touches nothing else; it reports what it did and how
    many summaries no longer match their turns, a summary whose turns could
    not be read not being one of them; and a second sweep finds nothing to do
    and changes nothing. If a statement fails, nothing is changed. *)
Theorem recovery_sweep os hf :
  let d := apply_all os db_empty in
  let '(r, d') := run_recovery false hf d in
  (run_recovery true hf d).2 = d ∧
  sessions d' = map (closed d) (sessions d) ∧ turns d' = map settled (turns d) ∧
  summaries d' = summaries d ∧ facts d' = facts d ∧ settings d' = settings d ∧
  ∃ out, r = Ok out ∧
  sessions_closed out = Z.of_nat (length (sessions_open_no_ended_at d)) ∧
  turns_marked_interrupted out = Z.of_nat (length (turns_in_progress d)) ∧
  summaries_total out = Z.of_nat (length (summaries d)) ∧
  summaries_stale out = Z.of_nat (length (List.filter (λ r, negb (hf r) && is_stale false d r) (summaries d))) ∧
  run_recovery false hf d' = (Ok (MkRecovery 0 0 (summaries_total out) (summaries_stale out)), d').
Proof.
  intros d. assert (db_wf d) as Hwf by apply wf_all. clearbody d. rewrite (run_recovery_eq hf d Hwf).
  split; [done|]. do 5 (split; [done|]). eexists. split; [done|]. do 3 (split; [done|]).
  split; [|apply run_recovery_swept]. cbn. do 2 f_equal. apply List.filter_ext. intros r. by destruct (hf r).
Qed.
