(* ===== verification/MemoryThread.v ===== *)
(** * The memory thread (src/src/memory/memory_thread.hpp, memory_thread.cpp)

    One worker runs the jobs posted by any thread, in the order of the queue,
    on a store it owns; [submit] adds a future for the result. A job is a
    function of the store that returns a value or throws. The labels are what
    the callers, the worker and the destructor do between two shared
    accesses; [early] says that a caller read [running_] before the
    destructor cleared it. Logging is left out. *)
From S2P Require Import Prelude Queue.

Section memory_thread.
Context {St V : Type}.

Record Job := MkJob { job_fn : St → option V * St; job_future : option nat }.

(** What a future holds; a promise destroyed without a result breaks it. *)
Inductive Future := Pending | Value (v : V) | Exception | ShuttingDown | BrokenPromise.

Inductive Worker := Testing | Popping | Running (j : Job) | Returned.
Inductive Dtor := Alive | Cleared | Closed | Joined.
#[global] Instance Dtor_eq_dec : EqDecision Dtor.
Proof. solve_decision. Defined.

Record memory := MkMemory {
  running_ : bool;
  queue_ : BoundedQueue Job;
  store : St;
  futures : list Future;
  worker : Worker;
  dtor : Dtor;
}.
#[local] Instance eta_memory : Eta memory := λ s,
  MkMemory (running_ s) (queue_ s) (store s) (futures s) (worker s) (dtor s).

(** [Database::open] gave the store. *)
Definition memory_new (capacity : nat) (st : St) : memory :=
  MkMemory true (queue_new capacity DropNewest) st [] Testing Alive.

(** What is seen from outside: a job accepted, refused, run. *)
Inductive Seen := Accepted (j : Job) | Refused (j : Job) | Ran (j : Job).

Definition post (early : bool) (j : Job) (s : memory) : bool * memory :=
  if early || running_ s then
    let '(r, q) := push j (queue_ s) in
    (match r with PushTrue => true | _ => false end, s <| queue_ := q |>)
  else (false, s).

Definition submit (early : bool) (fn : St → option V * St) (s : memory) : bool * memory :=
  let k := length (futures s) in
  let '(ok, s) := post early (MkJob fn (Some k)) (s <| futures ::= λ l, l ++ [Pending] |>) in
  (ok, if ok then s else s <| futures ::= <[k := ShuttingDown]> |>).

(** The lambda of [submit] and the [catch] of [run]. *)
Definition finish (j : Job) (s : memory) : memory :=
  let '(r, st) := job_fn j (store s) in
  let s := s <| store := st |> in
  match job_future j with
  | Some k => s <| futures ::= <[k := match r with Some v => Value v | None => Exception end]> |>
  | None => s
  end.

Definition worker_step (s : memory) : memory * list Seen :=
  match worker s with
  | Testing => (s <| worker := if running_ s then Popping else Returned |>, [])
  | Popping =>
      let '(r, q) := pop (queue_ s) in
      let s := s <| queue_ := q |> in
      match r with
      | PopSome j => (s <| worker := Running j |>, [])
      | PopNone => (s <| worker := Returned |>, [])
      | PopWait => (s, [])
      end
  | Running j => ((finish j s) <| worker := Testing |>, [Ran j])
  | Returned => (s, [])
  end.

(** The promises of the jobs left in the queue are destroyed with it. *)
Definition break_promises (js : list Job) (fs : list Future) : list Future :=
  foldl (λ fs j, match job_future j with Some k => <[k := BrokenPromise]> fs | None => fs end) fs js.

(** The destructor, store by store; [join] waits for the worker. *)
Definition destroy (s : memory) : memory :=
  match dtor s with
  | Alive => s <| running_ := false |> <| dtor := Cleared |>
  | Cleared => s <| queue_ ::= close |> <| dtor := Closed |>
  | Closed =>
      match worker s with
      | Returned => s <| futures ::= break_promises (q_ (queue_ s)) |> <| dtor := Joined |>
      | _ => s
      end
  | Joined => s
  end.

Inductive Label := Post (early : bool) (fn : St → option V * St) | Submit (early : bool) (fn : St → option V * St)
  | Work | Destroy.

Definition act (l : Label) (s : memory) : memory * list Seen :=
  match l with
  | Post early fn =>
      let j := MkJob fn None in
      let '(ok, s) := post early j s in (s, [if ok then Accepted j else Refused j])
  | Submit early fn =>
      let j := MkJob fn (Some (length (futures s))) in
      let '(ok, s) := submit early fn s in (s, [if ok then Accepted j else Refused j])
  | Work => worker_step s
  | Destroy => (destroy s, [])
  end.

(** Once the destructor has returned there is no object to call. *)
Definition step (l : Label) (s : memory) : memory * list Seen := if decide (dtor s = Joined) then (s, []) else act l s.
Fixpoint run (ls : list Label) (s : memory) : memory * list Seen :=
  match ls with
  | [] => (s, [])
  | l :: ls => let '(s, o1) := step l s in let '(s, o2) := run ls s in (s, o1 ++ o2)
  end.

(** ** Specification *)

Definition accepted_of (os : list Seen) : list Job := omap (λ o, match o with Accepted j => Some j | _ => None end) os.
Definition ran_of (os : list Seen) : list Job := omap (λ o, match o with Ran j => Some j | _ => None end) os.
Definition refused_of (os : list Seen) : list Job := omap (λ o, match o with Refused j => Some j | _ => None end) os.

(** The jobs one after the other, on the store each leaves to the next. *)
Fixpoint serial (st : St) (js : list Job) : St * list (option V) :=
  match js with
  | [] => (st, [])
  | j :: js => let '(r, st) := job_fn j st in let '(st, rs) := serial st js in (st, r :: rs)
  end.
Definition answer (r : option V) : Future := match r with Some v => Value v | None => Exception end.

Definition in_hand (w : Worker) : list Job := match w with Running j => [j] | _ => [] end.
Definition waiting (s : memory) : list Job := in_hand (worker s) ++ q_ (queue_ s).
Definition futs (js : list Job) : list nat := omap job_future js.

Record mem_ok (st0 : St) (s : memory) (os : list Seen) : Prop := {
  mo_order : accepted_of os = ran_of os ++ waiting s;
  mo_store : store s = (serial st0 (ran_of os)).1;
  mo_ran : ∀ i j k r, ran_of os !! i = Some j → job_future j = Some k →
    (serial st0 (ran_of os)).2 !! i = Some r → futures s !! k = Some (answer r);
  mo_waiting : ∀ j k, j ∈ waiting s → job_future j = Some k →
    futures s !! k = Some (match dtor s with Joined => BrokenPromise | _ => Pending end);
  mo_refused : ∀ j k, j ∈ refused_of os → job_future j = Some k → futures s !! k = Some ShuttingDown;
  mo_all : ∀ k, k < length (futures s) ↔ k ∈ futs (accepted_of os ++ refused_of os);
  mo_unique : NoDup (futs (accepted_of os ++ refused_of os));
  mo_policy : policy_ (queue_ s) = DropNewest;
  mo_joined : dtor s = Joined → worker s = Returned;
}.

(** ** Lemmas *)

Lemma serial_snoc st js j :
  serial st (js ++ [j]) =
  let '(st1, rs) := serial st js in let '(r, st2) := job_fn j st1 in (st2, rs ++ [r]).
Proof.
  revert st. induction js as [|x js IH]; intros st; cbn.
  - by destruct (job_fn j st).
  - destruct (job_fn x st) as [r1 st1]. rewrite IH. destruct (serial st1 js) as [st2 rs]. by destruct (job_fn j st2).
Qed.
Lemma serial_length st js : length (serial st js).2 = length js.
Proof.
  revert st. induction js as [|x js IH]; intros st; cbn; [done|].
  destruct (job_fn x st) as [r st1]. specialize (IH st1). destruct (serial st1 js). cbn in *. by rewrite IH.
Qed.

(** The future a new job gets, if it gets one. *)
Definition new_future (s : memory) (j : Job) (x : Future) (ext : list Future) : Prop :=
  (job_future j = None ∧ ext = []) ∨ (job_future j = Some (length (futures s)) ∧ ext = [x]).

Lemma futs_snoc js j : futs (js ++ [j]) = futs js ++ match job_future j with Some k => [k] | None => [] end.
Proof. apply omap_snoc. Qed.

Lemma futs_in j js k : j ∈ js → job_future j = Some k → k ∈ futs js.
Proof. intros H1 H2. apply list_elem_of_omap. by exists j. Qed.

(** A job that is accepted or refused, with its future. *)
Lemma known_new st0 s os j x ext os' :
  mem_ok st0 s os → new_future s j x ext →
  accepted_of os' ++ refused_of os' ≡ₚ j :: accepted_of os ++ refused_of os →
  (∀ k, k < length (futures s ++ ext) ↔ k ∈ futs (accepted_of os' ++ refused_of os')) ∧
  NoDup (futs (accepted_of os' ++ refused_of os')) ∧
  (∀ k, job_future j = Some k → (futures s ++ ext) !! k = Some x).
Proof.
  intros H He Hp. pose proof (mo_all _ _ _ H) as Ha. pose proof (mo_unique _ _ _ H) as Hu.
  assert (futs (accepted_of os' ++ refused_of os') ≡ₚ
    match job_future j with Some k => [k] | None => [] end ++ futs (accepted_of os ++ refused_of os)) as Hq.
  { unfold futs. rewrite Hp. cbn. by destruct (job_future j). }
  rewrite Hq. split_and!.
  - intros k. rewrite Hq, elem_of_app, <- Ha, length_app. destruct He as [[-> ->]|[-> ->]]; cbn.
    + rewrite elem_of_nil. intuition lia.
    + rewrite list_elem_of_singleton. lia.
  - destruct He as [[-> _]|[-> _]]; [done|]. apply NoDup_cons. split; [|done]. rewrite <- Ha. lia.
  - intros k Hk. destruct He as [[E _]|[E ->]]; [by rewrite E in Hk|]. rewrite E in Hk. injection Hk as <-.
    by rewrite list_lookup_middle.
Qed.

Lemma accept_ok st0 s os j ext q :
  mem_ok st0 s os → dtor s ≠ Joined → new_future s j Pending ext → q_ q = q_ (queue_ s) ++ [j] → policy_ q = DropNewest →
  mem_ok st0 (s <| queue_ := q |> <| futures := futures s ++ ext |>) (os ++ [Accepted j]).
Proof.
  intros H Hd He Hq Hpol.
  destruct (known_new st0 s os j Pending ext (os ++ [Accepted j]) H He) as (Ha & Hu & Hj).
  { unfold accepted_of, refused_of. rewrite !omap_snoc, app_nil_r. cbn. rewrite <- app_assoc. cbn. symmetry. apply Permutation_middle. }
  destruct H as [H1 H2 H3 H4 H5 H6 H7 H8 H9].
  assert (accepted_of (os ++ [Accepted j]) = accepted_of os ++ [j] ∧ ran_of (os ++ [Accepted j]) = ran_of os ∧
          refused_of (os ++ [Accepted j]) = refused_of os) as (E1 & E2 & E3).
  { unfold accepted_of, ran_of, refused_of. by rewrite !omap_snoc, !app_nil_r. }
  split; cbn [futures queue_ store worker dtor]; try exact Ha; try exact Hu; rewrite ?E1, ?E2, ?E3; try done.
  - rewrite H1. unfold waiting. cbn. rewrite Hq. by rewrite <- !app_assoc.
  - intros i j' k r L1 L2 L3. apply lookup_app_l_Some. by eapply H3.
  - intros j' k. unfold waiting. cbn. rewrite Hq, app_assoc, elem_of_app, list_elem_of_singleton. intros [Hw| ->] Hk.
    + apply lookup_app_l_Some. by eapply H4.
    + rewrite (Hj k Hk). by destruct (dtor s).
  - intros j' k L1 L2. apply lookup_app_l_Some. by eapply H5.
Qed.

Lemma refuse_ok st0 s os j ext q :
  mem_ok st0 s os → new_future s j ShuttingDown ext → q_ q = q_ (queue_ s) → policy_ q = DropNewest →
  mem_ok st0 (s <| queue_ := q |> <| futures := futures s ++ ext |>) (os ++ [Refused j]).
Proof.
  intros H He Hq Hpol.
  destruct (known_new st0 s os j ShuttingDown ext (os ++ [Refused j]) H He) as (Ha & Hu & Hj).
  { unfold accepted_of, refused_of. rewrite !omap_snoc, app_nil_r. cbn. rewrite app_assoc. symmetry. apply Permutation_cons_append. }
  destruct H as [H1 H2 H3 H4 H5 H6 H7 H8 H9].
  assert (accepted_of (os ++ [Refused j]) = accepted_of os ∧ ran_of (os ++ [Refused j]) = ran_of os ∧
          refused_of (os ++ [Refused j]) = refused_of os ++ [j]) as (E1 & E2 & E3).
  { unfold accepted_of, ran_of, refused_of. by rewrite !omap_snoc, !app_nil_r. }
  split; cbn [futures queue_ store worker dtor]; try exact Ha; try exact Hu; rewrite ?E1, ?E2, ?E3; try done.
  - rewrite H1. unfold waiting. cbn. by rewrite Hq.
  - intros i j' k r L1 L2 L3. apply lookup_app_l_Some. by eapply H3.
  - intros j' k. unfold waiting. cbn. rewrite Hq. intros L1 L2. apply lookup_app_l_Some. by eapply H4.
  - intros j' k. rewrite elem_of_app. intros [L1|L1] L2.
    + apply lookup_app_l_Some. by eapply H5.
    + apply list_elem_of_singleton in L1 as ->. by apply Hj.
Qed.

Lemma post_cases early j s :
  policy_ (queue_ s) = DropNewest →
  ∃ ok q, post early j s = (ok, s <| queue_ := q |>) ∧ policy_ q = DropNewest ∧
    q_ q = q_ (queue_ s) ++ (if ok : bool then [j] else []).
Proof.
  intros Hp. unfold post. destruct (early || running_ s).
  2: { exists false, (queue_ s). rewrite app_nil_r. by destruct s. }
  unfold push. rewrite Hp. destruct (closed_ (queue_ s)); [|destruct (decide _)].
  - exists false, (queue_ s). by rewrite app_nil_r.
  - eexists false, _. split; [reflexivity|]. by rewrite app_nil_r.
  - eexists true, _. by split; [reflexivity|].
Qed.

(** A step that neither runs a job nor touches a future. *)
Lemma view_ok st0 s s' os :
  mem_ok st0 s os → dtor s ≠ Joined → dtor s' ≠ Joined → store s' = store s → futures s' = futures s →
  waiting s' = waiting s → policy_ (queue_ s') = DropNewest → mem_ok st0 s' os.
Proof.
  intros [H1 H2 H3 H4 H5 H6 H7 H8 H9] Hd Hd' Es Ef Ew Hp. split; rewrite ?Es, ?Ef, ?Ew; try done.
  intros j k Hj Hk. rewrite (H4 j k Hj Hk). by destruct (dtor s), (dtor s').
Qed.

Lemma other_future l1 j l2 j' k k' :
  NoDup (futs (l1 ++ j :: l2)) → j' ∈ l1 ++ l2 → job_future j = Some k → job_future j' = Some k' → k ≠ k'.
Proof.
  intros Hn Hin Hk Hk' <-. assert (futs (l1 ++ j :: l2) ≡ₚ k :: futs (l1 ++ l2)) as Hp.
  { unfold futs. rewrite <- Permutation_middle. cbn. by rewrite Hk. }
  rewrite Hp in Hn. apply NoDup_cons in Hn as [Hn _]. apply Hn. by eapply futs_in.
Qed.

Lemma finish_futures j s r st :
  job_fn j (store s) = (r, st) →
  store (finish j s) = st ∧ queue_ (finish j s) = queue_ s ∧ dtor (finish j s) = dtor s ∧
  futures (finish j s) = match job_future j with Some k => <[k := answer r]> (futures s) | None => futures s end.
Proof. intros E. unfold finish. rewrite E. by destruct (job_future j), r. Qed.

Lemma ran_ok st0 s os j :
  mem_ok st0 s os → dtor s ≠ Joined → worker s = Running j →
  mem_ok st0 ((finish j s) <| worker := Testing |>) (os ++ [Ran j]).
Proof.
  intros H Hd Hw. destruct (job_fn j (store s)) as [r st] eqn:E.
  destruct (finish_futures j s r st E) as (F1 & F2 & F3 & F4). set (s' := finish j s) in *. clearbody s'.
  destruct H as [H1 H2 H3 H4 H5 H6 H7 H8 H9]. unfold waiting in H1, H4. rewrite Hw in H1, H4. cbn [in_hand app] in H1, H4.
  assert (accepted_of (os ++ [Ran j]) = accepted_of os ∧ ran_of (os ++ [Ran j]) = ran_of os ++ [j] ∧
          refused_of (os ++ [Ran j]) = refused_of os) as (E1 & E2 & E3).
  { unfold accepted_of, ran_of, refused_of. by rewrite !omap_snoc, !app_nil_r. }
  assert (∀ j' k k', j' ∈ ran_of os ++ q_ (queue_ s) ++ refused_of os → job_future j = Some k → job_future j' = Some k' → k ≠ k') as Ho.
  { intros j' k k' Hin. apply (other_future (ran_of os) j (q_ (queue_ s) ++ refused_of os)); [|done].
    rewrite H1 in H7. by rewrite <- app_assoc in H7. }
  assert (∀ j' k' x, j' ∈ ran_of os ++ q_ (queue_ s) ++ refused_of os → job_future j' = Some k' →
    futures s !! k' = Some x → futures s' !! k' = Some x) as Hkeep.
  { intros j' k' x Hin Hk' Hx. rewrite F4. destruct (job_future j) as [k|] eqn:Ek; [|done].
    rewrite list_lookup_insert_ne; [done|]. by eapply Ho. }
  assert (∀ k, job_future j = Some k → futures s' !! k = Some (answer r)) as Hj.
  { intros k Hk. rewrite F4, Hk. apply list_lookup_insert_eq. apply lookup_lt_is_Some. rewrite (H4 j k); [done|left|done]. }
  assert (serial st0 (ran_of os ++ [j]) = (st, (serial st0 (ran_of os)).2 ++ [r])) as Hs.
  { rewrite serial_snoc. destruct (serial st0 (ran_of os)) as [st1 rs] eqn:Es. cbn in H2. rewrite <- H2, E. done. }
  split; cbn [futures queue_ store worker dtor set_field]; rewrite ?E1, ?E2, ?E3; try done.
  - rewrite H1. unfold waiting. cbn. by rewrite F2, <- app_assoc.
  - rewrite Hs. exact F1.
  - intros i j' k r' L1 L2. rewrite Hs. cbn [snd]. intros L3.
    destruct (decide (i < length (ran_of os))) as [Hi|Hi].
    + rewrite lookup_app_l in L1 by done. rewrite lookup_app_l in L3 by (by rewrite serial_length).
      apply (Hkeep j'); [|done|by eapply H3]. apply elem_of_app. left. by apply list_elem_of_lookup_2 in L1.
    + rewrite lookup_app_r in L1 by lia. rewrite lookup_app_r in L3 by (rewrite serial_length; lia). rewrite serial_length in L3.
      apply list_lookup_singleton_Some in L1 as [L0 <-]. rewrite L0 in L3. injection L3 as <-. by apply Hj.
  - intros j' k. unfold waiting. cbn. rewrite F2, F3. intros L1 L2. apply (Hkeep j'); [|done|].
    + rewrite !elem_of_app. tauto.
    + apply (H4 j'); [by right|done].
  - intros j' k L1 L2. apply (Hkeep j'); [|done|by eapply H5]. rewrite !elem_of_app. tauto.
  - intros k. rewrite <- H6. cbn. rewrite F4. destruct (job_future j); [by rewrite length_insert|done].
  - cbn. by rewrite F2.
  - cbn. by rewrite F3.
Qed.

Lemma break_lookup js fs k :
  break_promises js fs !! k = if decide (k ∈ futs js ∧ k < length fs) then Some BrokenPromise else fs !! k.
Proof.
  unfold break_promises. revert fs. induction js as [|j js IH]; intros fs; cbn.
  - rewrite decide_False; [done|]. intros [H _]. by apply elem_of_nil in H.
  - rewrite IH. destruct (job_future j) as [k'|] eqn:E; [|done]. rewrite length_insert.
    destruct (decide (k ∈ futs js ∧ k < length fs)) as [[H1 H2]|Hn].
    + rewrite decide_True; [done|]. split; [by right|done].
    + destruct (decide (k' = k)) as [->|Hne].
      * destruct (decide (k < length fs)) as [Hl|Hl].
        -- rewrite list_lookup_insert_eq, decide_True; [done| |done]. split; [left|done].
        -- rewrite list_insert_ge by lia. rewrite decide_False by tauto. done.
      * rewrite list_lookup_insert_ne by done. rewrite decide_False; [done|].
        intros [[->|H]%elem_of_cons H2]; [done|by apply Hn].
Qed.

Lemma joined_ok st0 s os :
  mem_ok st0 s os → dtor s ≠ Joined → worker s = Returned →
  mem_ok st0 (s <| futures ::= break_promises (q_ (queue_ s)) |> <| dtor := Joined |>) os.
Proof.
  intros [H1 H2 H3 H4 H5 H6 H7 H8 H9] Hd Hw. unfold waiting in *. rewrite Hw in *. cbn [in_hand app] in *.
  assert (∀ j k x, j ∈ ran_of os ++ refused_of os → job_future j = Some k → futures s !! k = Some x →
    break_promises (q_ (queue_ s)) (futures s) !! k = Some x) as Hkeep.
  { intros j k x Hj Hk Hx. rewrite break_lookup, decide_False; [done|]. intros [(j' & Hj' & Hk')%list_elem_of_omap _].
    apply elem_of_Permutation in Hj' as [q' Hq]. rewrite H1 in H7.
    assert (futs ((ran_of os ++ q_ (queue_ s)) ++ refused_of os) ≡ₚ futs ([] ++ j' :: (ran_of os ++ refused_of os) ++ q')) as Hp.
    { unfold futs. rewrite Hq. f_equiv. cbn. solve_Permutation. }
    rewrite Hp in H7. apply (other_future _ _ _ j k k H7) in Hk'; [done| |done]. cbn. apply elem_of_app. by left. }
  assert (∀ fs js, length (break_promises js fs) = length fs) as Hl.
  { intros fs js. unfold break_promises. revert fs. induction js as [|j js IH]; intros fs; cbn; [done|]. rewrite IH.
    destruct (job_future j); [by rewrite length_insert|done]. }
  split; unfold waiting; cbn; rewrite ?Hw; cbn; try done.
  - intros i j k r L1 L2 L3. apply (Hkeep j); [|done|by eapply H3].
    apply elem_of_app. left. by apply list_elem_of_lookup_2 in L1.
  - intros j k Hj Hk. rewrite break_lookup, decide_True; [done|]. split; [by eapply futs_in|].
    apply lookup_lt_is_Some. by rewrite (H4 j k Hj Hk).
  - intros j k Hj Hk. apply (Hkeep j); [|done|by eapply H5]. apply elem_of_app. by right.
  - intros k. by rewrite Hl.
Qed.

Lemma step_ok st0 l s os :
  mem_ok st0 s os → let '(s', o) := step l s in mem_ok st0 s' (os ++ o).
Proof.
  intros H. unfold step. destruct (decide (dtor s = Joined)) as [_|Hd]; [by rewrite app_nil_r|].
  pose proof (mo_policy _ _ _ H) as Hp. destruct l as [early fn|early fn| |]; cbn [act].
  - destruct (post_cases early (MkJob fn None) s Hp) as (ok & q & -> & Hpq & Hq).
    replace (s <| queue_ := q |>) with (s <| queue_ := q |> <| futures := futures s ++ [] |>) by (by rewrite app_nil_r; destruct s).
    destruct ok; [apply accept_ok|apply refuse_ok]; try done; [by left|by left|by rewrite Hq, app_nil_r].
  - unfold submit. cbn zeta. match goal with |- context [post _ _ ?x] => set (s0 := x) end.
    destruct (post_cases early (MkJob fn (Some (length (futures s)))) s0 Hp) as (ok & q & -> & Hpq & Hq). destruct ok.
    + apply (accept_ok st0 s os (MkJob fn (Some (length (futures s)))) [Pending] q); try done. by right.
    + pose proof (refuse_ok st0 s os (MkJob fn (Some (length (futures s)))) [ShuttingDown] q H) as Hr.
      match goal with |- mem_ok _ ?x _ => replace x with (s <| queue_ := q |> <| futures := futures s ++ [ShuttingDown] |>) end.
      * apply Hr; [by right| |done]. by rewrite Hq, app_nil_r.
      * subst s0. destruct s as [a b c fs d e]. unfold set_field. cbn. f_equal. rewrite insert_app_r_alt by lia. by rewrite Nat.sub_diag.
  - unfold worker_step. destruct (worker s) as [| |j|] eqn:Ew; rewrite ?app_nil_r; try done.
    + apply (view_ok st0 s); [done|done|exact Hd|done|done| |done]. unfold waiting. rewrite Ew. cbn. by destruct (running_ s).
    + unfold pop. destruct (_ || _).
      2: { rewrite app_nil_r. apply (view_ok st0 s); [done|done|exact Hd|done|done| |done]. unfold waiting. cbn. by rewrite Ew. }
      unfold take_front. destruct (q_ (queue_ s)) as [|j q] eqn:Eq; rewrite ?app_nil_r;
        (apply (view_ok st0 s); [done|done|exact Hd|done|done| |done]); unfold waiting; rewrite Ew; cbn; by rewrite Eq.
    + by apply ran_ok.
  - rewrite app_nil_r. unfold destroy. destruct (dtor s) eqn:Ed; try done.
    + apply (view_ok st0 s); try done; by rewrite Ed.
    + apply (view_ok st0 s); try done; by rewrite Ed.
    + destruct (worker s) eqn:Ew; try done. apply joined_ok; [done|by rewrite Ed|done].
Qed.

Lemma mem_run_ok st0 ls s os :
  mem_ok st0 s os → let '(s', o) := run ls s in mem_ok st0 s' (os ++ o).
Proof.
  revert s os. induction ls as [|l ls IH]; intros s os H; cbn [run]; [by rewrite app_nil_r|].
  pose proof (step_ok st0 l s os H) as Hs. destruct (step l s) as [s1 o1]. specialize (IH s1 _ Hs).
  destruct (run ls s1) as [s2 o2]. by rewrite app_assoc.
Qed.

Lemma mem_new_ok cap st0 : mem_ok st0 (memory_new cap st0) [].
Proof.
  split; unfold waiting; try done; cbn; try (intros; by match goal with H : _ ∈ [] |- _ => apply elem_of_nil in H end).
  - intros k. rewrite elem_of_nil. lia.
  - by apply NoDup_nil.
Qed.

(** Shutting down: the flag before the queue, the queue before the join. *)
Definition dtor_ok (s : memory) : Prop :=
  (dtor s ≠ Alive → running_ s = false) ∧ (dtor s = Closed → closed_ (queue_ s) = true).

Lemma push_closed j (q : BoundedQueue Job) : closed_ (push j q).2 = closed_ q.
Proof. unfold push. destruct (closed_ q) eqn:E; [done|]. case_decide; [destruct (policy_ q); [destruct (q_ q)|..]|]; done. Qed.

Lemma post_frame early j s :
  let s' := (post early j s).2 in
  running_ s' = running_ s ∧ dtor s' = dtor s ∧ worker s' = worker s ∧ closed_ (queue_ s') = closed_ (queue_ s).
Proof.
  unfold post. destruct (_ || _); [|done]. pose proof (push_closed j (queue_ s)) as H.
  by destruct (push j (queue_ s)) as [r q].
Qed.

(** How many jobs the worker may still run once the flag is cleared. *)
Definition budget (s : memory) : nat := match worker s with Popping | Running _ => 1 | _ => 0 end.

Lemma step_dtor l s :
  dtor_ok s → let '(s', o) := step l s in
  dtor_ok s' ∧ (dtor s ≠ Alive → dtor s' ≠ Alive ∧ length (ran_of o) + budget s' ≤ budget s).
Proof.
  intros [H1 H2]. unfold step. case_decide as Hd; [done|]. destruct l as [early fn|early fn| |]; cbn [act].
  - destruct (post_frame early (MkJob fn None) s) as (F1 & F2 & F3 & F4).
    destruct (post _ _ _) as [ok s']. cbn in *. unfold dtor_ok, budget. rewrite F1, F2, F3, F4. split; [done|].
    intros Ha. split; [done|]. by destruct ok.
  - unfold submit. cbn zeta. match goal with |- context [post ?e ?j ?x] => destruct (post_frame e j x) as (F1 & F2 & F3 & F4) end.
    destruct (post _ _ _) as [ok s']. cbn in *. unfold dtor_ok, budget. destruct ok; cbn; rewrite F1, F2, F3, F4; done.
  - unfold worker_step, dtor_ok, budget. destruct (worker s) eqn:Ew; cbn.
    + split; [done|]. intros Ha. split; [done|]. by rewrite (H1 Ha).
    + unfold pop, take_front. destruct (_ || _); [destruct (q_ (queue_ s))|]; cbn; rewrite ?Ew; split; try done; intros; split; done || lia.
    + unfold finish. destruct (job_fn _ _) as [r st]. destruct (job_future _); cbn; split; done.
    + rewrite Ew. done.
  - unfold destroy, dtor_ok, budget. destruct (dtor s) eqn:Ed; cbn; try (split; [done|]; intros; split; done || lia).
    + split; [|done]. split; [|done]. intros _. by apply H1.
    + destruct (worker s) eqn:Ew; cbn; rewrite ?Ed, ?Ew; (split; [split; [intros _; by apply H1|done]|]); intros; (split; [done|lia]).
Qed.

Lemma run_dtor ls s :
  dtor_ok s → let '(s', o) := run ls s in
  dtor_ok s' ∧ (dtor s ≠ Alive → dtor s' ≠ Alive ∧ length (ran_of o) + budget s' ≤ budget s).
Proof.
  revert s. induction ls as [|l ls IH]; intros s H; cbn [run]; [done|].
  pose proof (step_dtor l s H) as Hs. destruct (step l s) as [s1 o1]. destruct Hs as [H1 B1]. specialize (IH s1 H1).
  destruct (run ls s1) as [s2 o2]. destruct IH as [H2 B2]. split; [done|]. intros Ha. destruct (B1 Ha) as [A1 L1].
  destruct (B2 A1) as [A2 L2]. split; [done|]. unfold ran_of in *. rewrite omap_app, length_app. lia.
Qed.

Definition rank (s : memory) : nat := match worker s with Popping => 3 | Running _ => 2 | Testing => 1 | Returned => 0 end.

Lemma work_closed s :
  dtor_ok s → dtor s = Closed →
  let s' := (step Work s).1 in dtor_ok s' ∧ dtor s' = Closed ∧ rank s' ≤ pred (rank s).
Proof.
  intros Hok Hd. pose proof (step_dtor Work s Hok) as Hs. revert Hs. unfold step.
  rewrite (decide_False (P := dtor s = Joined)) by (by rewrite Hd). cbn [act]. unfold worker_step.
  destruct Hok as [H1 H2]. unfold rank. destruct (worker s) eqn:Ew.
  - rewrite H1 by (by rewrite Hd). intros [H _]. split; [exact H|split; [exact Hd|cbn; lia]].
  - unfold pop. rewrite (H2 Hd), orb_true_r. unfold take_front. destruct (q_ (queue_ s)); intros [H _];
      (split; [exact H|split; [exact Hd|cbn; lia]]).
  - unfold finish. destruct (job_fn j (store s)) as [r st]. destruct (job_future j); intros [H _]; (split; [exact H|split; [exact Hd|cbn; lia]]).
  - intros [H _]. split; [exact H|split; [exact Hd|cbn; rewrite Ew; lia]].
Qed.

Lemma three_steps s :
  dtor_ok s → dtor s = Closed → dtor (run [Work; Work; Work; Destroy] s).1 = Joined.
Proof.
  intros Hok Hd. destruct (work_closed s Hok Hd) as (O1 & D1 & R1).
  destruct (work_closed _ O1 D1) as (O2 & D2 & R2). destruct (work_closed _ O2 D2) as (O3 & D3 & R3).
  assert (rank s ≤ 3) as R0 by (unfold rank; destruct (worker s); lia).
  cbn [run]. destruct (step Work s) as [s1 o1]. cbn [fst] in *. destruct (step Work s1) as [s2 o2]. cbn [fst] in *.
  destruct (step Work s2) as [s3 o3]. cbn [fst] in *. assert (rank s3 = 0) as R4 by lia.
  unfold step. rewrite (decide_False (P := dtor s3 = Joined)) by (by rewrite D3). cbn [act fst]. unfold destroy. rewrite D3.
  unfold rank in R4. by destruct (worker s3).
Qed.

(** A future that is not settled belongs to a job that waits. *)
Lemma pending_waits st0 s os k :
  mem_ok st0 s os → futures s !! k = Some Pending → dtor s ≠ Joined ∧ ∃ j, j ∈ waiting s ∧ job_future j = Some k.
Proof.
  intros [H1 H2 H3 H4 H5 H6 H7 H8 H9] Hk.
  assert (k ∈ futs (accepted_of os ++ refused_of os)) as (j & Hj & Hf)%list_elem_of_omap by (by apply H6, lookup_lt_is_Some; rewrite Hk).
  rewrite H1, !elem_of_app in Hj. destruct Hj as [[Hj|Hj]|Hj].
  - apply list_elem_of_lookup in Hj as [i Hi]. destruct (lookup_lt_is_Some_2 (serial st0 (ran_of os)).2 i) as [r Hr].
    { rewrite serial_length. by apply lookup_lt_Some in Hi. }
    rewrite (H3 i j k r Hi Hf Hr) in Hk. by destruct r.
  - rewrite (H4 j k Hj Hf) in Hk. split; [by destruct (dtor s)|by exists j].
  - by rewrite (H5 j k Hj Hf) in Hk.
Qed.
End memory_thread.
Arguments memory : clear implicits.
Arguments Label : clear implicits.

(** ** Properties *)

(** [C29] One thread at a time, in order. Whatever the callers, the worker and
    the destructor do in whatever order, the jobs run are a prefix of those
    accepted, in the order of acceptance; the store is what they leave one
    after the other; the future of a job that ran holds the value it returned
    there, or its exception; a job that waits has a pending future, and a
    refused one the shutdown exception. *)
Theorem memory_serial {St V} cap (st0 : St) (ls : list (Label St V)) :
  let '(s, os) := run ls (memory_new cap st0) in mem_ok st0 s os.
Proof.
  pose proof (mem_run_ok st0 ls _ _ (mem_new_ok cap st0)) as H. by destruct (run ls _) as [s os].
Qed.

(** [C30] Shutting down. Once the destructor has cleared the flag the worker
    runs at most one more job, however many were accepted; once the queue is
    closed three steps of the worker end its thread and the destructor
    returns; then the jobs that were left have broken promises, so that
    nobody waits on a future for ever. *)
Theorem memory_shutdown {St V} cap (st0 : St) (ls1 ls2 : list (Label St V)) :
  let '(s1, o1) := run ls1 (memory_new cap st0) in
  let '(s2, o2) := run ls2 s1 in
  dtor s1 ≠ Alive →
  length (ran_of o2) ≤ 1 ∧
  (dtor s2 = Closed → dtor (run [Work; Work; Work; Destroy] s2).1 = Joined) ∧
  (dtor s2 = Joined →
     (∀ k, futures s2 !! k ≠ Some Pending) ∧
     ∀ j k, j ∈ waiting s2 → job_future j = Some k → futures s2 !! k = Some BrokenPromise).
Proof.
  pose proof (mem_run_ok st0 ls1 _ _ (mem_new_ok cap st0)) as M1.
  pose proof (run_dtor ls1 (memory_new cap st0) ltac:(by split)) as D1.
  destruct (run ls1 _) as [s1 o1]. destruct D1 as [D1 _]. pose proof (mem_run_ok st0 ls2 _ _ M1) as M2.
  pose proof (run_dtor ls2 s1 D1) as D2. destruct (run ls2 s1) as [s2 o2]. destruct D2 as [D2 B2]. intros Ha.
  destruct (B2 Ha) as [_ B]. assert (budget s1 ≤ 1) by (unfold budget; destruct (worker s1); lia).
  split; [lia|]. split; [by apply three_steps|]. intros Hj. split.
  - intros k Hk. by destruct (pending_waits _ _ _ _ M2 Hk).
  - intros j k Hw Hk. rewrite (mo_waiting _ _ _ M2 j k Hw Hk). by rewrite Hj.
Qed.

Definition sample_jobs : list (Label nat nat) :=
  [Submit false (λ n, (Some n, S n)); Submit false (λ n, (None, S n)); Work; Work; Destroy].
Definition sample_end : list (Label nat nat) := [Destroy; Work; Work; Work; Destroy].

Lemma memory_shutdown_witness :
  let '(s1, _) := run sample_jobs (memory_new 8 0) in
  let '(s2, o2) := run sample_end s1 in
  dtor s1 = Cleared ∧ store s2 = 1 ∧ futures s2 = [Value 0; BrokenPromise] ∧ length (ran_of o2) ≤ 1.
Proof.
  pose proof (memory_shutdown 8 0 sample_jobs sample_end) as H.
  destruct (run sample_jobs (memory_new 8 0)) as [s1 o1] eqn:E1. destruct (run sample_end s1) as [s2 o2] eqn:E2.
  vm_compute in E1. injection E1 as <- _. vm_compute in E2. injection E2 as <- <-.
  split; [reflexivity|]. split; [reflexivity|]. split; [reflexivity|]. apply H. discriminate.
Defined.
