(* ===== verification/TurnWriter.v ===== *)
(** * Persistence of the turns (src/src/dialogue/turn_writer.hpp,
      turn_writer.cpp)

    The subscriber that turns the events of the dialogue into rows: its state
    per turn in flight, and the jobs it posts to the memory thread, which run
    on the store of [Repository]. [now] is what [now_ms] reads when the event
    is handled. Logging is left out. *)
From stdpp Require Import gmap.
From S2P Require Import Prelude Event Repository.

#[global] Instance TurnId_countable : Countable TurnId := Z_countable.

Record AssistantState := MkAssistant {
  st_sentences : list str;
  st_played : list bool;
  st_lang : str;
  st_started_at : UnixMs;
}.
#[global] Instance eta_assistant : Eta AssistantState := λ s,
  MkAssistant (st_sentences s) (st_played s) (st_lang s) (st_started_at s).

Record writer := MkWriter {
  session_ : SessionId;
  in_flight_ : gmap TurnId AssistantState;
}.
#[global] Instance eta_writer : Eta writer := λ s, MkWriter (session_ s) (in_flight_ s).
Definition writer_new : writer := MkWriter 0 ∅.
Definition set_session (sid : SessionId) (s : writer) : writer := s <| session_ := sid |>.

(** A posted job: the row to insert and the final status it gets. *)
Record Job := MkJob {
  job_session : SessionId;
  job_role : TurnRole;
  job_text : str;
  job_lang : option str;
  job_started_at : UnixMs;
  job_status : TurnStatus;
  job_ended : option UnixMs;       (** [None]: the clock when the job runs *)
  job_interrupted_at : option Z;
}.

(** The lambda on the memory thread. *)
Definition run_job (now : UnixMs) (j : Job) (d : db) : db :=
  match insert_turn (job_session j) (job_role j) (Some (job_text j)) (job_lang j) (job_started_at j) (job_status j) d with
  | (DbError _, d) => d
  | (Ok tid, d) => set_turn_status tid (job_status j) (Some (default now (job_ended j))) (job_interrupted_at j) None d
  end.

Definition lang_opt (lang : str) : option str := if decide (lang = []) then None else Some lang.

Definition handle_final (now : UnixMs) (text lang : str) (s : writer) : writer * list Job :=
  if decide (session_ s = 0%Z) then (s, [])
  else if decide (text = []) then (s, [])
  else (s, [MkJob (session_ s) User text (lang_opt lang) now Committed None None]).

(** [try_emplace] keeps an entry that is there. *)
Definition handle_started (now : UnixMs) (turn : TurnId) (s : writer) : writer :=
  match in_flight_ s !! turn with
  | Some _ => s
  | None => s <| in_flight_ ::= <[turn := MkAssistant [] [] [] now]> |>
  end.

Definition resize {A} (n : nat) (x : A) (l : list A) : list A := take n l ++ replicate (n - length l) x.

Definition grow (seq : nat) (st : AssistantState) : AssistantState :=
  st <| st_sentences ::= resize (seq + 1) [] |> <| st_played ::= resize (seq + 1) false |>.

(** [in_flight_[turn]] makes an entry that is missing. *)
Definition handle_sentence (turn : TurnId) (seq : nat) (text lang : str) (s : writer) : writer :=
  let st := default (MkAssistant [] [] [] 0) (in_flight_ s !! turn) in
  let st := if decide (st_lang st = []) then st <| st_lang := lang |> else st in
  let st := if decide (length (st_sentences st) ≤ seq) then grow seq st else st in
  let st := st <| st_sentences ::= <[seq := text]> |> in
  s <| in_flight_ ::= <[turn := st]> |>.

Definition handle_playback_finished (turn : TurnId) (seq : nat) (s : writer) : writer :=
  match in_flight_ s !! turn with
  | None => s
  | Some st =>
      let st := if decide (length (st_played st) ≤ seq) then grow seq st else st in
      let st := st <| st_played ::= <[seq := true]> |> in
      s <| in_flight_ ::= <[turn := st]> |>
  end.

(** The loop of [handle_finished]: the sentences that are kept. *)
Definition kept (cancelled : bool) (st : AssistantState) : list str :=
  omap (λ i, let t := default [] (st_sentences st !! i) in
    if decide (t = []) then None
    else if cancelled && negb (default false (st_played st !! i)) then None
    else Some t) (seq 0 (length (st_sentences st))).
Fixpoint join (ts : list str) : str :=
  match ts with [] => [] | [t] => t | t :: ts => t ++ " "%char :: join ts end.

Definition handle_finished (now : UnixMs) (turn : TurnId) (cancelled : bool) (s : writer) : writer * list Job :=
  match in_flight_ s !! turn with
  | None => (s, [])
  | Some st =>
      let s := s <| in_flight_ ::= delete turn |> in
      if decide (session_ s = 0%Z) then (s, [])
      else
        let texts := kept cancelled st in
        if decide (cancelled = true ∧ length texts = 0) then (s, [])
        else
          (s, [MkJob (session_ s) Assistant (join texts) (lang_opt (st_lang st)) (st_started_at st)
                 (if cancelled then Interrupted else Committed) (Some now)
                 (if cancelled then Some (Z.of_nat (length texts)) else None)])
  end.

Definition on_event (now : UnixMs) (e : Event) (s : writer) : writer * list Job :=
  match e with
  | FinalTranscript _ text lang _ _ _ => handle_final now text lang s
  | LlmStarted turn => (handle_started now turn s, [])
  | LlmSentence turn seq text lang => (handle_sentence turn (Z.to_nat seq) text lang s, [])
  | LlmFinished turn cancelled _ => handle_finished now turn cancelled s
  | PlaybackFinished turn seq => (handle_playback_finished turn (Z.to_nat seq) s, [])
  | _ => (s, [])
  end.

Fixpoint run (evs : list (UnixMs * Event)) (s : writer) : writer * list Job :=
  match evs with
  | [] => (s, [])
  | (now, e) :: evs => let '(s, j1) := on_event now e s in let '(s, j2) := run evs s in (s, j1 ++ j2)
  end.

(** ** Specification *)

(** The text of a sentence: the last one sent under its number. *)
Fixpoint text_of (turn : TurnId) (i : nat) (evs : list (UnixMs * Event)) (t : str) : str :=
  match evs with
  | [] => t
  | (_, LlmSentence tn s x _) :: evs => text_of turn i evs (if decide (tn = turn ∧ Z.to_nat s = i) then x else t)
  | _ :: evs => text_of turn i evs t
  end.
Fixpoint heard (turn : TurnId) (i : nat) (evs : list (UnixMs * Event)) (b : bool) : bool :=
  match evs with
  | [] => b
  | (_, PlaybackFinished tn s) :: evs => heard turn i evs (if decide (tn = turn ∧ Z.to_nat s = i) then true else b)
  | _ :: evs => heard turn i evs b
  end.
(** How many numbers have been mentioned. *)
Fixpoint bound (turn : TurnId) (evs : list (UnixMs * Event)) (n : nat) : nat :=
  match evs with
  | [] => n
  | (_, LlmSentence tn s _ _) :: evs | (_, PlaybackFinished tn s) :: evs =>
      bound turn evs (if decide (tn = turn) then Nat.max n (Z.to_nat s + 1) else n)
  | _ :: evs => bound turn evs n
  end.
Fixpoint lang_of (turn : TurnId) (evs : list (UnixMs * Event)) (l : str) : str :=
  match evs with
  | [] => l
  | (_, LlmSentence tn _ _ lang) :: evs => lang_of turn evs (if decide (tn = turn ∧ l = []) then lang else l)
  | _ :: evs => lang_of turn evs l
  end.
Definition ends (turn : TurnId) (e : Event) : bool :=
  match e with LlmFinished tn _ _ => bool_decide (tn = turn) | _ => false end.

(** What should be remembered: every sentence that has a text and, of a
    cancelled answer, that was heard. *)
Definition remembered (turn : TurnId) (evs : list (UnixMs * Event)) (cancelled : bool) : list str :=
  omap (λ i, let t := text_of turn i evs [] in
    if decide (t = [] ∨ cancelled = true ∧ heard turn i evs false = false) then None else Some t)
    (seq 0 (bound turn evs 0)).

(** ** Lemmas *)

#[local] Arguments resize : simpl never.
#[local] Arguments Nat.max : simpl never.

Lemma resize_lookup {A} (x : A) n l i : length l ≤ n → default x (resize n x l !! i) = default x (l !! i).
Proof.
  intros H. unfold resize. rewrite take_ge by done. rewrite lookup_app. destruct (l !! i) eqn:E; [done|].
  cbn. destruct (replicate _ x !! _) as [y|] eqn:Er; [|done]. by apply lookup_replicate in Er as [-> _].
Qed.

Lemma resize_length {A} (x : A) n l : length l ≤ n → length (resize n x l) = n.
Proof. intros H. unfold resize. rewrite length_app, length_take, length_replicate. lia. Qed.

Lemma insert_lookup {A} (d x : A) i j (l : list A) :
  i < length l → default d (<[i := x]> l !! j) = if decide (i = j) then x else default d (l !! j).
Proof.
  intros H. case_decide; subst; [by rewrite list_lookup_insert_eq|by rewrite list_lookup_insert_ne].
Qed.

(** The entry of a turn agrees with a history. *)
Record entry_ok (texts : nat → str) (hs : nat → bool) (n : nat) (lang : str) (start : UnixMs) (st : AssistantState) : Prop := {
  eo_len : length (st_sentences st) = n ∧ length (st_played st) = n;
  eo_text : ∀ i, default [] (st_sentences st !! i) = texts i;
  eo_heard : ∀ i, default false (st_played st !! i) = hs i;
  eo_lang : st_lang st = lang;
  eo_start : st_started_at st = start;
}.

Lemma grow_ok texts hs n lang start st k :
  entry_ok texts hs n lang start st → n ≤ k → entry_ok texts hs (k + 1) lang start (grow k st).
Proof.
  intros [[H1 H1'] H2 H3 H4 H5] Hk. split; cbn; try done.
  - rewrite !resize_length by lia. done.
  - intros i. rewrite resize_lookup by lia. apply H2.
  - intros i. rewrite resize_lookup by lia. apply H3.
Qed.

Lemma text_of_cons turn i p evs t : text_of turn i (p :: evs) t = text_of turn i evs (text_of turn i [p] t).
Proof. destruct p as [now e]. by destruct e. Qed.
Lemma heard_cons turn i p evs b : heard turn i (p :: evs) b = heard turn i evs (heard turn i [p] b).
Proof. destruct p as [now e]. by destruct e. Qed.
Lemma bound_cons turn p evs n : bound turn (p :: evs) n = bound turn evs (bound turn [p] n).
Proof. destruct p as [now e]. by destruct e. Qed.
Lemma lang_of_cons turn p evs l : lang_of turn (p :: evs) l = lang_of turn evs (lang_of turn [p] l).
Proof. destruct p as [now e]. by destruct e. Qed.

Lemma sentence_entry (turn : TurnId) k x lang' s texts hs n lang start st :
  in_flight_ s !! turn = Some st → entry_ok texts hs n lang start st →
  ∃ st', in_flight_ (handle_sentence turn k x lang' s) !! turn = Some st' ∧
    entry_ok (λ i, if decide (i = k) then x else texts i) hs (Nat.max n (k + 1))
      (if decide (lang = []) then lang' else lang) start st'.
Proof.
  intros Hl Hok. unfold handle_sentence. rewrite Hl. cbn [from_option]. change (id st) with st.
  set (st1 := if decide (st_lang st = []) then st <| st_lang := lang' |> else st).
  assert (entry_ok texts hs n (if decide (lang = []) then lang' else lang) start st1) as H1.
  { unfold st1. destruct Hok. subst lang. by case_decide; split. }
  clearbody st1. clear Hok. set (st2 := if decide (length (st_sentences st1) ≤ k) then grow k st1 else st1).
  assert (entry_ok texts hs (Nat.max n (k + 1)) (if decide (lang = []) then lang' else lang) start st2) as H2.
  { unfold st2. pose proof (eo_len _ _ _ _ _ _ H1) as [El _]. rewrite El. destruct (decide (n ≤ k)).
    - replace (Nat.max n (k + 1)) with (k + 1) by lia. by apply grow_ok with n.
    - by replace (Nat.max n (k + 1)) with n by lia. }
  clearbody st2. eexists. split; [apply lookup_insert_eq|].
  destruct H2 as [[G1 G1'] G2 G3 G4 G5]. split; cbn; try done.
  - by rewrite length_insert.
  - intros i. rewrite insert_lookup by lia. rewrite G2. repeat case_decide; congruence.
Qed.

Lemma playback_entry (turn : TurnId) k s texts hs n lang start st :
  in_flight_ s !! turn = Some st → entry_ok texts hs n lang start st →
  ∃ st', in_flight_ (handle_playback_finished turn k s) !! turn = Some st' ∧
    entry_ok texts (λ i, if decide (i = k) then true else hs i) (Nat.max n (k + 1)) lang start st'.
Proof.
  intros Hl Hok. unfold handle_playback_finished. rewrite Hl.
  set (st2 := if decide (length (st_played st) ≤ k) then grow k st else st).
  assert (entry_ok texts hs (Nat.max n (k + 1)) lang start st2) as H2.
  { unfold st2. pose proof (eo_len _ _ _ _ _ _ Hok) as [_ El]. rewrite El. destruct (decide (n ≤ k)).
    - replace (Nat.max n (k + 1)) with (k + 1) by lia. by apply grow_ok with n.
    - by replace (Nat.max n (k + 1)) with n by lia. }
  clearbody st2. eexists. split; [apply lookup_insert_eq|].
  destruct H2 as [[G1 G1'] G2 G3 G4 G5]. split; cbn; try done.
  - by rewrite length_insert.
  - intros i. rewrite insert_lookup by lia. rewrite G3. repeat case_decide; congruence.
Qed.

(** An event of another turn leaves the entry alone. *)
Lemma other_sentence (turn tn : TurnId) k x lang' s :
  tn ≠ turn → in_flight_ (handle_sentence tn k x lang' s) !! turn = in_flight_ s !! turn.
Proof. intros H. unfold handle_sentence. cbn. by rewrite lookup_insert_ne. Qed.
Lemma other_playback (turn tn : TurnId) k s :
  tn ≠ turn → in_flight_ (handle_playback_finished tn k s) !! turn = in_flight_ s !! turn.
Proof. intros H. unfold handle_playback_finished. case_match; cbn; [by rewrite lookup_insert_ne|done]. Qed.
Lemma other_started (turn tn : TurnId) now s st :
  in_flight_ s !! turn = Some st → in_flight_ (handle_started now tn s) !! turn = Some st.
Proof.
  intros H. unfold handle_started. destruct (in_flight_ s !! tn) eqn:E; [done|]. cbn.
  rewrite lookup_insert_ne; [done|]. intros ->. by rewrite H in E.
Qed.
Lemma other_finished (turn tn : TurnId) now c s :
  tn ≠ turn → in_flight_ (handle_finished now tn c s).1 !! turn = in_flight_ s !! turn.
Proof.
  intros H. unfold handle_finished. destruct (in_flight_ s !! tn); [|done]. repeat case_decide; cbn; by rewrite lookup_delete_ne.
Qed.

Lemma session_kept now e s : session_ (on_event now e s).1 = session_ s.
Proof.
  destruct e; cbn; try done; unfold handle_final, handle_started, handle_finished, handle_playback_finished;
    repeat case_match; done.
Qed.

Lemma entry_ext texts texts' hs hs' n lang start st :
  (∀ i, texts i = texts' i) → (∀ i, hs i = hs' i) → entry_ok texts hs n lang start st → entry_ok texts' hs' n lang start st.
Proof. intros H1 H2 [G1 G2 G3 G4 G5]. split; try done; intros i; [rewrite <- H1|rewrite <- H2]; done. Qed.

Lemma event_entry now e s (turn : TurnId) texts hs n lang start st :
  in_flight_ s !! turn = Some st → entry_ok texts hs n lang start st → ends turn e = false →
  ∃ st', in_flight_ (on_event now e s).1 !! turn = Some st' ∧
    entry_ok (λ i, text_of turn i [(now, e)] (texts i)) (λ i, heard turn i [(now, e)] (hs i))
      (bound turn [(now, e)] n) (lang_of turn [(now, e)] lang) start st'.
Proof.
  intros Hl Hok He. destruct e; cbn [on_event text_of heard bound lang_of fst]; try (by exists st).
  - exists st. split; [|done]. unfold handle_final. by repeat case_decide.
  - exists st. split; [|done]. by apply other_started.
  - destruct (decide (turn0 = turn)) as [->|Hne].
    + destruct (sentence_entry turn (Z.to_nat seq) text lang0 s _ _ _ _ _ _ Hl Hok) as (st' & H1 & H2).
      exists st'. split; [done|]. replace (if decide (turn = turn ∧ lang = []) then lang0 else lang)
        with (if decide (lang = []) then lang0 else lang) by (repeat case_decide; tauto).
      eapply entry_ext; [| |exact H2]; [|done]. intros i. cbn. repeat case_decide; naive_solver.
    + exists st. rewrite other_sentence by done. split; [done|].
      rewrite (decide_False (P := turn0 = turn ∧ lang = [])) by tauto.
      eapply entry_ext; [| |exact Hok]; [|done]. intros i. cbn. by rewrite decide_False by tauto.
  - cbn in He. apply bool_decide_eq_false in He. exists st. by rewrite other_finished.
  - destruct (decide (turn0 = turn)) as [->|Hne].
    + destruct (playback_entry turn (Z.to_nat seq) s _ _ _ _ _ _ Hl Hok) as (st' & H1 & H2).
      exists st'. split; [done|]. eapply entry_ext; [| |exact H2]; [done|]. intros i. cbn. repeat case_decide; naive_solver.
    + exists st. rewrite other_playback by done. split; [done|].
      eapply entry_ext; [| |exact Hok]; [done|]. intros i. cbn. by rewrite decide_False by tauto.
Qed.

Lemma run_entry evs s (turn : TurnId) texts hs n lang start st :
  in_flight_ s !! turn = Some st → entry_ok texts hs n lang start st → Forall (λ p, ends turn p.2 = false) evs →
  ∃ st', in_flight_ (run evs s).1 !! turn = Some st' ∧ session_ (run evs s).1 = session_ s ∧
    entry_ok (λ i, text_of turn i evs (texts i)) (λ i, heard turn i evs (hs i))
      (bound turn evs n) (lang_of turn evs lang) start st'.
Proof.
  revert s texts hs n lang st. induction evs as [|[now e] evs IH]; intros s texts hs n lang st Hl Hok Hf.
  - exists st. done.
  - apply Forall_cons in Hf as [He Hf]. cbn [snd] in He.
    destruct (event_entry now e s turn texts hs n lang start st Hl Hok He) as (st1 & L1 & O1).
    pose proof (session_kept now e s) as Hs. cbn [run]. destruct (on_event now e s) as [s1 j1]. cbn [fst] in *.
    destruct (IH s1 _ _ _ _ st1 L1 O1 Hf) as (st2 & L2 & S2 & O2). destruct (run evs s1) as [s2 j2]. cbn [fst] in *.
    exists st2. split; [done|]. split; [congruence|]. rewrite bound_cons, lang_of_cons.
    eapply entry_ext; [| |exact O2]; intros i; [by rewrite text_of_cons|by rewrite heard_cons].
Qed.

Lemma started_entry now (turn : TurnId) s :
  in_flight_ s !! turn = None →
  in_flight_ (handle_started now turn s) !! turn = Some (MkAssistant [] [] [] now) ∧
  entry_ok (λ _, []) (λ _, false) 0 [] now (MkAssistant [] [] [] now).
Proof. intros H. unfold handle_started. rewrite H. cbn. rewrite lookup_insert_eq. by split. Qed.

Lemma kept_remembered (turn : TurnId) evs c lang start st :
  entry_ok (λ i, text_of turn i evs []) (λ i, heard turn i evs false) (bound turn evs 0) lang start st →
  kept c st = remembered turn evs c.
Proof.
  intros [[H1 _] H2 H3 _ _]. unfold kept, remembered. rewrite H1. apply list_omap_ext. apply Forall_Forall2_diag.
  rewrite Forall_forall. intros i _. rewrite H2, H3. destruct c, (heard turn i evs false); cbn; repeat case_decide; tauto || naive_solver.
Qed.

(** What a job leaves in the store. *)
Lemma run_job_row now j d :
  db_wf d → job_session j ∈ ses_id <$> sessions d →
  turns (run_job now j d) = turns d ++ [MkTurn (next_turn d) (job_session j) (job_role j) (Some (job_text j)) (job_lang j)
    (job_started_at j) (Some (default now (job_ended j))) (job_status j) (job_interrupted_at j) None].
Proof.
  intros Hwf Hs. unfold run_job, insert_turn. apply has_session_spec in Hs. rewrite Hs.
  unfold set_turn_status. cbn. rewrite map_app. cbn. rewrite decide_True by done.
  rewrite !parse_status_to_string, parse_role_to_string. f_equal.
  rewrite <- (map_id (turns d)) at 2. apply map_ext_in. intros r Hr%list_elem_of_In.
  rewrite decide_False; [done|]. intros E. pose proof (wf_turns d Hwf) as [_ Hf]. rewrite Forall_forall in Hf.
  specialize (Hf (turn_id r)). rewrite E in Hf. enough (0 < next_turn d < next_turn d)%Z by lia. apply Hf.
  apply list_elem_of_fmap. by exists r.
Qed.

(** The job of an answer's [LlmFinished]. *)
Lemma finished_jobs s (turn : TurnId) now evs t_end cancelled k :
  in_flight_ s !! turn = None → session_ s ≠ 0%Z → Forall (λ p, ends turn p.2 = false) evs →
  let '(s1, _) := run ((now, LlmStarted turn) :: evs) s in
  let '(s2, jobs) := on_event t_end (LlmFinished turn cancelled k) s1 in
  let texts := remembered turn evs cancelled in
  in_flight_ s2 !! turn = None ∧
  jobs = if decide (cancelled = true ∧ texts = []) then []
    else [MkJob (session_ s) Assistant (join texts) (lang_opt (lang_of turn evs [])) now
            (if cancelled then Interrupted else Committed) (Some t_end)
            (if cancelled then Some (Z.of_nat (length texts)) else None)].
Proof.
  intros Hn Hs Hf. cbn [run on_event].
  destruct (started_entry now turn s Hn) as [Hl Hok].
  assert (session_ (handle_started now turn s) = session_ s) as Hs1 by (unfold handle_started; by rewrite Hn).
  destruct (run_entry evs _ turn _ _ _ _ _ _ Hl Hok Hf) as (st & L & S & O). rewrite Hs1 in S.
  destruct (run evs (handle_started now turn s)) as [s1 j1]. cbn [fst] in *.
  pose proof (kept_remembered turn evs cancelled _ _ st O) as Hk.
  unfold handle_finished. rewrite L, Hk. pose proof (eo_lang _ _ _ _ _ _ O) as El. pose proof (eo_start _ _ _ _ _ _ O) as Et.
  change (session_ (s1 <| in_flight_ ::= delete turn |>)) with (session_ s1). rewrite S, (decide_False (P := session_ s = 0%Z)) by done.
  set (texts := remembered turn evs cancelled). destruct (decide (cancelled = true ∧ length texts = 0)) as [[-> Hz]|Hz].
  - split; [apply lookup_delete_eq|]. rewrite decide_True; [done|]. split; [done|by apply length_zero_iff_nil].
  - split; [apply lookup_delete_eq|]. rewrite decide_False; [by rewrite El, Et|].
    intros [-> E]. apply Hz. by rewrite E.
Qed.

(** ** Properties *)

(** [C26] What is remembered of an answer. From its [LlmStarted] on, however
    its sentences, their playback and the events of other turns interleave,
    its [LlmFinished] writes one row: the sentences with a text in the order
    of their numbers when it was not cancelled; when it was, only those whose
    playback was reported before, as interrupted with their count, and no row
    when there is none. The row lands in the store as it is, and the turn is
    no longer in flight. *)
Theorem turn_row_exact s (turn : TurnId) now evs t_end cancelled k :
  in_flight_ s !! turn = None → session_ s ≠ 0%Z → Forall (λ p, ends turn p.2 = false) evs →
  let '(s1, _) := run ((now, LlmStarted turn) :: evs) s in
  let '(s2, jobs) := on_event t_end (LlmFinished turn cancelled k) s1 in
  let texts := remembered turn evs cancelled in
  in_flight_ s2 !! turn = None ∧
  if decide (cancelled = true ∧ texts = []) then jobs = []
  else
    let status := if cancelled then Interrupted else Committed in
    let at_ := if cancelled then Some (Z.of_nat (length texts)) else None in
    let lang := lang_opt (lang_of turn evs []) in
    jobs = [MkJob (session_ s) Assistant (join texts) lang now status (Some t_end) at_] ∧
    ∀ t d, db_wf d → session_ s ∈ ses_id <$> sessions d →
      turns (foldl (λ d j, run_job t j d) d jobs) =
      turns d ++ [MkTurn (next_turn d) (session_ s) Assistant (Some (join texts)) lang now (Some t_end) status at_ None].
Proof.
  intros Hn Hs Hf. pose proof (finished_jobs s turn now evs t_end cancelled k Hn Hs Hf) as H.
  destruct (run _ s) as [s1 j1]. destruct (on_event t_end _ s1) as [s2 jobs]. destruct H as [H1 ->]. split; [done|].
  destruct (decide _); [done|]. split; [done|]. intros t d Hwf Hd. cbn [foldl]. by rewrite run_job_row.
Qed.

Lemma turn_row_exact_witness :
  let s := set_session 1 writer_new in
  let '(s1, _) := run [(5, LlmStarted 7); (6, LlmSentence 7 0 (lit "One.") (lit "en")); (7, LlmSentence 7 1 (lit "Two.") (lit "en"));
    (8, PlaybackFinished 7 0)]%Z s in
  (on_event 9 (LlmFinished 7 true 2) s1).2 =
  [MkJob 1 Assistant (lit "One.") (Some (lit "en")) 5 Interrupted (Some 9%Z) (Some 1%Z)].
Proof.
  intros s.
  pose proof (turn_row_exact s 7 5 [(6, LlmSentence 7 0 (lit "One.") (lit "en")); (7, LlmSentence 7 1 (lit "Two.") (lit "en"));
    (8, PlaybackFinished 7 0)]%Z 9 true 2 eq_refl ltac:(discriminate) ltac:(repeat constructor)) as H.
  destruct (run _ s) as [s1 j1]. destruct (on_event 9 _ s1) as [s2 jobs]. destruct H as [_ H].
  rewrite decide_False in H by (intros [_ E]; vm_compute in E; discriminate E). destruct H as [-> _]. vm_compute. reflexivity.
Defined.
