(* ===== verification/Summarizer.v ===== *)
(** * The rolling summary (src/src/memory/summarizer.hpp, summarizer.cpp)

    The subscriber that counts the finished answers and the worker thread
    that has the language model summarise the turns since the last summary.
    A run of the worker is three steps, between which the bus thread and the
    memory thread may work: the snapshot, the call of the model ([LlmClient],
    with the callbacks on its own text) and the write. Each statement of the
    store may fail; the code goes on without what it did not get. The JSON of
    the request body is left out; [build_fails] says that it could not be
    made. *)
From S2P Require Import Prelude Event Repository Recovery LlmClient.
From S2P Require Turn Fsm.
Open Scope act_scope.

(** ** The call of the model *)

Record call := MkCall { summary_text : str; errored : bool }.
#[global] Instance eta_call : Eta call := λ s, MkCall (summary_text s) (errored s).

Definition on_token (t : str) : Act call Event unit := modify (λ s, s <| summary_text ::= λ x, x ++ t |>).
Definition on_finished (f : LlmFinish) : Act call Event unit :=
  if error f then modify (λ s, s <| errored := true |>) else ret ().

(** [client_.submit] with a fresh token nobody cancels, for the turn
    [kNoTurn]: libcurl hands over [chunks] and returns. *)
Definition submit (read : str → option SseChunk) (chunks : list str) (rc_ok : bool) (http_status : Z) :
    Act call Event unit :=
  r ← write_all read on_token (λ _, false) chunks submission_new;
  submit_end read on_token on_finished (λ _, false) id kNoTurn rc_ok http_status r.2.

(** ** The component *)

Definition placeholder : str := lit "[TODO summary]".

Inductive Worker :=
  | Waiting
  | Calling (sid : SessionId) (range_start range_end : MemTurnId)
  | Writing (sid : SessionId) (range_start range_end : MemTurnId) (text : str).

Record summarizer := MkSummarizer {
  turn_threshold : Z;
  session_ : SessionId;
  turns_since_summary_ : Z;
  summaries_written_ : Z;
  job_pending_ : bool;
  worker : Worker;
}.
#[global] Instance eta_summarizer : Eta summarizer := λ s,
  MkSummarizer (turn_threshold s) (session_ s) (turns_since_summary_ s) (summaries_written_ s) (job_pending_ s) (worker s).

Definition summarizer_new (threshold : Z) (sid : SessionId) : summarizer := MkSummarizer threshold sid 0 0 false Waiting.

Definition trigger_now (s : summarizer) : summarizer := s <| job_pending_ := true |>.

Definition on_event (e : Event) (s : summarizer) : summarizer :=
  match e with
  | LlmFinished _ cancelled _ =>
      if cancelled then s
      else
        let count := u64 (turns_since_summary_ s + 2) in
        let s := s <| turns_since_summary_ := count |> in
        if decide (turn_threshold s ≤ count)%Z then trigger_now s else s
  | _ => s
  end.

Definition usable (t : TurnRow) : bool :=
  match turn_status t with Committed | Interrupted => true | _ => false end.

(** The read on the memory thread. *)
Record Snapshot := MkSnapshot { range_start : MemTurnId; range_end : MemTurnId; snap_turns : list TurnRow }.
Definition snapshot (sum_fails turns_fails : bool) (sid : SessionId) (d : db) : Snapshot :=
  let start := match statement sum_fails (latest_summary sid d) with
               | Ok (Some r) => (range_end_turn r + 1)%Z
               | Ok None | DbError _ => 1%Z
               end in
  let rows := match statement turns_fails (recent_turns sid 100000 d) with Ok rows => rows | DbError _ => [] end in
  MkSnapshot start
    (foldl (λ m t, if (bool_decide (start ≤ turn_id t)%Z && usable t) && bool_decide (m < turn_id t)%Z
                   then turn_id t else m) 0%Z rows) rows.

Definition concat_turns (rows : list TurnRow) (range_start range_end : MemTurnId) : str :=
  flat_map (λ t,
    if decide (turn_id t < range_start ∨ range_end < turn_id t)%Z then []
    else match turn_text t with
         | Some (x :: text) =>
             lit (match turn_role t with User => "User: " | Assistant => "Assistant: " end) ++ (x :: text) ++ ["010"%char]
         | _ => []
         end) rows.

(** The worker takes a pending job and reads; [None] of the next state is
    [run_one_summary] returning false. *)
Definition worker_take (sum_fails turns_fails build_fails : bool) (d : db) (s : summarizer) : summarizer :=
  match worker s with
  | Waiting =>
      if job_pending_ s then
        let s := s <| job_pending_ := false |> in
        if decide (session_ s = 0%Z) then s
        else
          let snap := snapshot sum_fails turns_fails (session_ s) d in
          if decide (range_end snap < range_start snap)%Z then s
          else if decide (snap_turns snap = []) then s
          else if decide (concat_turns (snap_turns snap) (range_start snap) (range_end snap) = []) then s
          else if build_fails then s
          else s <| worker := Calling (session_ s) (range_start snap) (range_end snap) |>
      else s
  | _ => s
  end.

Definition worker_call (read : str → option SseChunk) (chunks : list str) (rc_ok : bool) (http_status : Z)
    (s : summarizer) : summarizer * list Event :=
  match worker s with
  | Calling sid a b =>
      let '(_, c, os) := submit read chunks rc_ok http_status (MkCall [] false) in
      let text := if errored c || bool_decide (summary_text c = []) then placeholder else summary_text c in
      (s <| worker := Writing sid a b text |>, os)
  | _ => (s, [])
  end.

Definition worker_write (hash_fails insert_fails : bool) (now : UnixMs) (d : db) (s : summarizer) : db * summarizer :=
  match worker s with
  | Writing sid a b text =>
      let hash := compute_source_hash hash_fails sid a b d in
      let '(r, d) := if insert_fails then (DbError "insert_summary step", d)
                     else insert_summary sid a b text (lit "en") hash now d in
      let s := s <| worker := Waiting |> in
      match r with
      | Ok _ => (d, s <| turns_since_summary_ := 0%Z |> <| summaries_written_ ::= λ n, u64 (n + 1) |>)
      | DbError _ => (d, s)
      end
  | _ => (d, s)
  end.

(** The summarizer beside the store: the labels are the bus event, the steps
    of the worker, and what others do to the store. *)
Inductive Label :=
  | Bus (e : Event)
  | Trigger
  | Take (sum_fails turns_fails build_fails : bool)
  | Call (chunks : list str) (rc_ok : bool) (http_status : Z)
  | Write (hash_fails insert_fails : bool) (now : UnixMs)
  | Store (o : Op).

Definition step (read : str → option SseChunk) (l : Label) (s : summarizer) (d : db) : summarizer * db * list Event :=
  match l with
  | Bus e => (on_event e s, d, [])
  | Trigger => (trigger_now s, d, [])
  | Take sf tf f => (worker_take sf tf f d s, d, [])
  | Call chunks rc http => let '(s, os) := worker_call read chunks rc http s in (s, d, os)
  | Write hf wf now => let '(d, s) := worker_write hf wf now d s in (s, d, [])
  | Store o => (s, apply o d, [])
  end.
Fixpoint run (read : str → option SseChunk) (ls : list Label) (s : summarizer) (d : db) : summarizer * db * list Event :=
  match ls with
  | [] => (s, d, [])
  | l :: ls =>
      let '(s, d, o1) := step read l s d in
      let '(s, d, o2) := run read ls s d in (s, d, o1 ++ o2)
  end.

(** ** Specification *)

(** The ranges of a session's summaries cover the turns from 1 on without a
    gap: each begins at the turn after the furthest end before it or, if it
    may restart, again at turn 1. The answer is the turn after the furthest
    end. Without restarts a range begins where the one before it ends. *)
Fixpoint covering (restart : bool) (next : Z) (rs : list (Z * Z)) : option Z :=
  match rs with
  | [] => Some next
  | (a, b) :: rs =>
      if decide ((a = next ∨ restart = true ∧ a = 1) ∧ a ≤ b)%Z then covering restart (next `max` (b + 1))%Z rs else None
  end.
Definition contiguous := covering false.
Definition ranges (sid : SessionId) (d : db) : list (Z * Z) :=
  (λ r, (range_start_turn r, range_end_turn r)) <$> filter (λ r, sum_session r = sid) (summaries d).

Definition other_op (o : Op) : Prop := match o with InsertSummary _ _ _ _ _ _ _ => False | _ => True end.
Definition other_label (l : Label) : Prop := match l with Store o => other_op o | _ => True end.

(** The read of the latest summary fails. *)
Definition misread (l : Label) : bool := match l with Take sum_fails _ _ => sum_fails | _ => false end.

(** The range of the worker continues the summaries, or restarts. *)
Definition continues (restart : bool) (sid : SessionId) (next : Z) (w : Worker) : Prop :=
  match w with
  | Waiting => True
  | Calling sid' a b | Writing sid' a b _ => sid' = sid ∧ (a = next ∨ restart = true ∧ a = 1)%Z ∧ (a ≤ b)%Z
  end.
Definition sum_inv (restart : bool) (s : summarizer) (d : db) : Prop :=
  ∃ next, covering restart 1 (ranges (session_ s) d) = Some next ∧ (1 ≤ next)%Z ∧ continues restart (session_ s) next (worker s).

(** ** Lemmas *)

Lemma covering_snoc restart next rs last a b :
  covering restart next rs = Some last → ((a = last ∨ restart = true ∧ a = 1) ∧ a ≤ b)%Z →
  covering restart next (rs ++ [(a, b)]) = Some (last `max` (b + 1))%Z.
Proof.
  revert next. induction rs as [|[x y] rs IH]; intros next H Hab; cbn in *.
  - injection H as <-. by rewrite decide_True.
  - case_decide; [|done]. by apply IH.
Qed.

Lemma covering_mono restart next rs last : covering restart next rs = Some last → (next ≤ last)%Z.
Proof.
  revert next. induction rs as [|[x y] rs IH]; intros next H; cbn in *; [injection H; lia|].
  case_decide; [|done]. apply IH in H. lia.
Qed.

(** The latest summary is the one that ends furthest. *)
Lemma latest_covering restart (rows : list SummaryRow) next last best :
  covering restart next ((λ r, (range_start_turn r, range_end_turn r)) <$> rows) = Some last →
  match best with Some b => (range_end_turn b + 1 = next)%Z | None => next = 1%Z end →
  match foldl (λ best r, match best with
                   | Some b => if decide (range_end_turn b ≤ range_end_turn r)%Z then Some r else best
                   | None => Some r end) best rows with
  | Some r => (range_end_turn r + 1 = last)%Z
  | None => last = 1%Z
  end.
Proof.
  revert next best. induction rows as [|r rows IH]; intros next best H Hb; cbn [foldl].
  - cbn in H. injection H as <-. by destruct best.
  - rewrite fmap_cons in H. cbn in H. case_decide as Hd; [|done].
    apply (IH _ _ H). destruct best as [b|]; [case_decide|]; lia.
Qed.

Lemma ranges_apply o sid d : other_op o → ranges sid (apply o d) = ranges sid d.
Proof.
  destruct o; cbn [other_op apply]; intros H; try done.
  - unfold insert_turn. by destruct (has_session _ _).
  - unfold upsert_fact. repeat case_match; done.
Qed.

Lemma ranges_insert sid a b text lang hash now d :
  let '(r, d') := insert_summary sid a b text lang hash now d in
  match r with
  | Ok _ => ranges sid d' = ranges sid d ++ [(a, b)]
  | DbError _ => d' = d
  end.
Proof.
  unfold insert_summary. destruct (has_session sid d); [|done]. unfold ranges. cbn.
  rewrite filter_app, filter_cons, filter_nil. cbn. rewrite decide_True by done. by rewrite fmap_app.
Qed.

Lemma snapshot_start restart sf tf sid d next :
  covering restart 1 (ranges sid d) = Some next → (restart = false → sf = false) →
  (range_start (snapshot sf tf sid d) = next ∨ restart = true ∧ range_start (snapshot sf tf sid d) = 1%Z).
Proof.
  intros H Hr. unfold snapshot. cbn [range_start]. destruct sf; cbn [statement].
  - right. split; [|done]. destruct restart; [done|]. by discriminate Hr.
  - left. unfold latest_summary. pose proof (latest_covering restart (filter (λ r, sum_session r = sid) (summaries d)) 1 next None H eq_refl) as Hl.
    destruct (foldl _ _ _); [done|by rewrite Hl].
Qed.

(** What the call publishes, whatever libcurl does. *)
Lemma quiet_actions read chunks rc http c :
  ∃ n, (submit read chunks rc http c).2 = [LlmFinished kNoTurn false n].
Proof.
  assert (∀ os k c, (deliver_all read on_token os k c).2 = []) as Hd.
  { intros os k. apply (deliver_closed read on_token (λ A m, ∀ c, (m c).2 = [])); try done.
    intros A B m f Hm Hf c'. change ((bind m f c').2) with (outs (bind m f) c').
    rewrite outs_bind. unfold outs. rewrite Hm. apply Hf. }
  assert (∀ l k c, (write_all read on_token (λ _, false) l k c).2 = []) as Hw.
  { intros l k c'. rewrite (write_all_run read on_token (λ _, false) (λ _, True)) by done.
    change (outs (bind (parse read on_token (Sse.feed_all l) k) (λ k, ret (true, k))) c' = []). rewrite outs_bind.
    unfold outs, parse. destruct (Sse.feed_all l (parser k)) as [[[] p] o]. by rewrite Hd. }
  unfold submit. change (∃ n, outs (bind (write_all read on_token (λ _, false) chunks submission_new)
    (λ r, submit_end read on_token on_finished (λ _, false) id kNoTurn rc http r.2)) c = [LlmFinished kNoTurn false n]).
  rewrite outs_bind. unfold outs at 1. rewrite Hw. cbn [app].
  set (r := result _ c). set (c1 := exec _ c). clearbody r c1. unfold submit_end. rewrite outs_bind.
  unfold outs at 1, parse at 1. destruct (Sse.finish (parser r.2)) as [[[] p] o]. rewrite Hd. cbn [app].
  set (k := result _ c1). set (c2 := exec _ c1). clearbody k c2. rewrite outs_bind. cbn [app outs gets snd result exec fst].
  rewrite outs_bind. eexists. unfold on_finished. destruct (error _); reflexivity.
Qed.

Lemma sum_step_inv restart read l s d :
  other_label l → (restart = false → misread l = false) → sum_inv restart s d →
  let '(s', d', _) := step read l s d in session_ s' = session_ s ∧ sum_inv restart s' d'.
Proof.
  intros Hl Hm (next & H1 & H2 & H3). destruct l as [e| |sf tf f|chunks rc http|hf wf now|o]; cbn [step].
  - assert (session_ (on_event e s) = session_ s ∧ worker (on_event e s) = worker s) as [Es Ew].
    { destruct e; try done. destruct cancelled; [done|]. unfold on_event. by destruct (decide _). }
    split; [done|]. exists next. by rewrite Es, Ew.
  - split; [done|by exists next].
  - unfold worker_take. destruct (worker s) eqn:Ew; try (split; [done|exists next; by rewrite ?Ew]).
    destruct (job_pending_ s); [|split; [done|exists next; by rewrite ?Ew]].
    set (s1 := s <| job_pending_ := false |>).
    assert (session_ s1 = session_ s ∧ worker s1 = worker s) as [Es E1] by done. clearbody s1. rewrite Es.
    assert (session_ s1 = session_ s ∧ sum_inv restart s1 d) as Hsame.
    { split; [done|]. exists next. by rewrite Es, E1, Ew. }
    pose proof (snapshot_start restart sf tf _ _ _ H1 Hm) as Hs. destruct (decide _); [done|].
    set (sn := snapshot sf tf (session_ s) d) in *. destruct (decide (range_end sn < range_start sn)%Z); [done|].
    do 2 (destruct (decide _); [done|]). destruct f; [done|].
    split; [done|]. exists next. change (session_ (s1 <| worker := Calling (session_ s) (range_start sn) (range_end sn) |>)) with (session_ s1).
    rewrite Es. change (worker _) with (Calling (session_ s) (range_start sn) (range_end sn)). cbn [continues]. split_and!; [done..|]; lia.
  - unfold worker_call. destruct (worker s) eqn:Ew; try (split; [done|exists next; by rewrite ?Ew]).
    destruct (submit _ _ _ _ _) as [[u c] os]. split; [done|]. by exists next.
  - unfold worker_write. destruct (worker s) as [|?|sid a b text] eqn:Ew; try (split; [done|exists next; by rewrite ?Ew]).
    destruct H3 as (-> & Hab). destruct wf; [split; [done|]; by exists next|].
    pose proof (ranges_insert (session_ s) a b text (lit "en") (compute_source_hash hf (session_ s) a b d) now d) as Hi.
    destruct (insert_summary _ _ _ _ _ _ _ _) as [[x|m] d']; split; try done.
    + exists (next `max` (b + 1))%Z. cbn. rewrite Hi. split; [by apply covering_snoc|]. split; [lia|done].
    + subst d'. by exists next.
  - split; [done|]. exists next. by rewrite ranges_apply.
Qed.

Lemma sum_run_inv restart read ls s d :
  Forall other_label ls → (restart = false → Forall (λ l, misread l = false) ls) → sum_inv restart s d →
  let '(s', d', _) := run read ls s d in session_ s' = session_ s ∧ sum_inv restart s' d'.
Proof.
  intros Hl. revert s d. induction Hl as [|l ls Hl _ IH]; intros s d Hm H; [done|]. cbn [run].
  assert (restart = false → misread l = false) as Hm1 by (intros Hr; by pose proof (Hm Hr) as H1; inversion H1).
  assert (restart = false → Forall (λ l, misread l = false) ls) as Hm2 by (intros Hr; by pose proof (Hm Hr) as H1; inversion H1).
  pose proof (sum_step_inv restart read l s d Hl Hm1 H) as Hs. destruct (step read l s d) as [[s1 d1] o1]. destruct Hs as [S1 I1].
  specialize (IH s1 d1 Hm2 I1). destruct (run read ls s1 d1) as [[s2 d2] o2]. destruct IH as [S2 I2].
  split; [congruence|done].
Qed.

(** [{:016x}] is never empty. *)
Lemma hash_read sid a b d : compute_source_hash false sid a b d ≠ [].
Proof. done. Qed.

Lemma written_hash d r f :
  source_hash r = compute_source_hash f (sum_session r) (range_start_turn r) (range_end_turn r) d → is_stale false d r = f.
Proof.
  intros H. unfold is_stale. rewrite (bool_decide_false (_ = [])) by apply hash_read. rewrite H. destruct f.
  - rewrite bool_decide_false by apply hash_read. done.
  - by rewrite bool_decide_true.
Qed.

Lemma worker_write_hash hf now d s sid a b text :
  worker s = Writing sid a b text → has_session sid d = true →
  let '(d', s') := worker_write hf false now d s in
  ∃ r, summaries d' = summaries d ++ [r] ∧ range_start_turn r = a ∧ range_end_turn r = b ∧ sum_text r = text ∧
    is_stale false d' r = hf ∧ ranges sid d' = ranges sid d ++ [(a, b)] ∧
    turns_since_summary_ s' = 0%Z ∧ worker s' = Waiting.
Proof.
  intros Hw Hs. unfold worker_write. rewrite Hw.
  pose proof (ranges_insert sid a b text (lit "en") (compute_source_hash hf sid a b d) now d) as Hr.
  unfold insert_summary in *. rewrite Hs in *. eexists. split; [reflexivity|].
  do 3 (split; [done|]). split; [by apply written_hash|]. done.
Qed.

(** What a call of the model leaves behind. *)
Lemma call_ends read chunks rc http s sid a b :
  worker s = Calling sid a b →
  ∃ n text, worker_call read chunks rc http s = (s <| worker := Writing sid a b text |>, [LlmFinished kNoTurn false n]) ∧
    text ≠ [].
Proof.
  intros Hw. unfold worker_call. rewrite Hw.
  destruct (quiet_actions read chunks rc http (MkCall [] false)) as [n Hn].
  destruct (submit read chunks rc http (MkCall [] false)) as [[u c] os]. cbn in Hn. subst os. exists n. eexists. split; [done|].
  destruct (errored c); [done|]. cbn. case_bool_decide; done.
Qed.

Lemma first_llm_finished_completes now t c n (f : Fsm.Fsm.fsm) :
  Fsm.Fsm.state_ f = Fsm.Fsm.Thinking → Fsm.Fsm.sentences_received_ f = 0%Z →
  let f' := exec (Fsm.Fsm.on_event now (LlmFinished t c n)) f in
  Fsm.Fsm.state_ f' = Fsm.Fsm.Listening ∧ Fsm.Fsm.turns_completed_ f' = Z.succ (Fsm.Fsm.turns_completed_ f).
Proof.
  intros Hst. Fsm.Fsm.fsm_at f Hst; intros Hrec; cbn in Hrec; try guard_absurd; done.
Qed.

(** ** Properties *)

(** [C27] Whatever the bus, the worker's steps and other writers of the store
    do in whatever order, and whichever statements fail, the summaries of the
    session always cover the turns from 1 on without a gap. As long as every
    read of the latest summary succeeds ([restart = false]) each begins at the
    turn after the end of the one before, so that they do not overlap; a read
    that fails is taken for no summary, and the next range begins again at
    turn 1, over turns already summarised. A row that is written clears the
    count of finished answers and carries the hash the recovery recomputes,
    unless its own read of the turns failed: it is then stale from the start.
    A write that fails changes nothing. *)
Theorem summaries_contiguous (restart : bool) read threshold sid ls d next :
  Forall other_label ls → (restart = false → Forall (λ l, misread l = false) ls) →
  covering restart 1 (ranges sid d) = Some next →
  let '(s', d', _) := run read ls (summarizer_new threshold sid) d in
  (∃ next', covering restart 1 (ranges sid d') = Some next' ∧ continues restart sid next' (worker s') ∧
     ∀ hf now a b text, worker s' = Writing sid a b text → has_session sid d' = true →
       let '(d2, s2) := worker_write hf false now d' s' in
       (∃ r, summaries d2 = summaries d' ++ [r] ∧ range_start_turn r = a ∧ range_end_turn r = b ∧
          sum_text r = text ∧ is_stale false d2 r = hf) ∧
       covering restart 1 (ranges sid d2) = Some (next' `max` (b + 1))%Z ∧
       turns_since_summary_ s2 = 0%Z ∧ worker s2 = Waiting ∧
       (worker_write hf true now d' s').1 = d' ∧
       turns_since_summary_ (worker_write hf true now d' s').2 = turns_since_summary_ s') ∧
  (∀ tf bf, let s2 := worker_take true tf bf d' s' in
     worker s' = Waiting → worker s2 ≠ Waiting → ∃ b, worker s2 = Calling sid 1 b ∧ (1 ≤ b)%Z).
Proof.
  intros Hls Hm Hn. pose proof (sum_run_inv restart read ls (summarizer_new threshold sid) d Hls Hm) as H.
  destruct (run _ _ _ _) as [[s' d'] os]. destruct H as [Hs Hi].
  { exists next. split_and!; try done. by apply covering_mono in Hn. }
  cbn in Hs. destruct Hi as (next' & H1 & H2 & H3). rewrite Hs in H1, H3. split.
  - exists next'. split; [done|]. split; [done|]. intros hf now a b text Hw Hsess. rewrite Hw in H3. destruct H3 as (_ & Hab).
    pose proof (worker_write_hash hf now d' s' _ _ _ _ Hw Hsess) as Hh.
    destruct (worker_write hf false now d' s') as [d2 s2]. destruct Hh as (r & R1 & R2 & R3 & R4 & R5 & R6 & R7 & R8).
    split; [by exists r|]. split; [rewrite R6; by apply covering_snoc|]. split; [done|]. split; [done|].
    unfold worker_write. rewrite Hw. done.
  - intros tf bf s2 Hw Hs2. unfold s2, worker_take in *. clear s2. rewrite Hw in *. destruct (job_pending_ s'); [|done].
    change (session_ (s' <| job_pending_ := false |>)) with (session_ s') in *. rewrite Hs in *.
    destruct (decide _); [done|]. destruct (decide _) as [|Hle]; [done|]. do 2 (destruct (decide _); [done|]). destruct bf; [done|].
    eexists. split; [reflexivity|]. cbn [range_start snapshot statement] in Hle. lia.
Qed.

Definition sample_db : db :=
  apply_all [InsertSession 5 None; InsertTurn 1 User (Some (lit "hi")) None 6 Committed;
             InsertTurn 1 Assistant (Some (lit "hello")) None 7 Committed]%Z db_empty.
Definition sample_run (sum_fails : bool) : list Label :=
  [Bus (LlmFinished 1 false 3); Take false false false; Call [] false 0; Write false false 9;
   Store (InsertTurn 1 User (Some (lit "bye")) None 10 Committed); Trigger; Take sum_fails false false; Call [] false 0]%Z.

Lemma summaries_contiguous_witness :
  let '(s', d', _) := run (λ _, None) (sample_run false) (summarizer_new 2 1) sample_db in
  ranges 1 d' = [(1, 2)]%Z ∧ worker s' = Writing 1 3 3 placeholder ∧
  contiguous 1 (ranges 1 (worker_write false false 12 d' s').1) = Some 4%Z.
Proof.
  assert (Forall other_label (sample_run false)) as Hf by (repeat constructor).
  assert (false = false → Forall (λ l, misread l = false) (sample_run false)) as Hm by (intros _; repeat constructor).
  pose proof (summaries_contiguous false (λ _, None) 2 1 (sample_run false) sample_db 1 Hf Hm eq_refl) as H.
  remember (run (λ _, None) (sample_run false) (summarizer_new 2 1) sample_db) as r eqn:E. vm_compute in E. subst r.
  destruct H as [(next' & Hn & _ & H) _]. specialize (H false 12%Z 3%Z 3%Z placeholder eq_refl eq_refl).
  split; [reflexivity|]. split; [reflexivity|]. vm_compute in Hn. injection Hn as <-. exact (proj1 (proj2 H)).
Defined.

(** The same run with the second read of the latest summary failing: the turns
    of the first summary are summarised again. *)
Example failed_read_overlaps :
  let '(_, d', _) := run (λ _, None) (sample_run true ++ [Write true false 12]) (summarizer_new 2 1) sample_db in
  ranges 1 d' = [(1, 2); (1, 3)]%Z ∧ contiguous 1 (ranges 1 d') = None ∧ covering true 1 (ranges 1 d') = Some 4%Z ∧
  map (is_stale false d') (summaries d') = [false; true].
Proof. vm_compute. by repeat split. Qed.

(** The summarizer's own call is not told apart from an answer: whatever
    libcurl does it publishes one [LlmFinished] that is not cancelled, which
    closes as completed a user's turn that waits for its first sentence, and
    counts as a finished answer in the summarizer itself. *)
Theorem summary_ends_turn read chunks rc http s sid a b now f :
  worker s = Calling sid a b → Fsm.Fsm.state_ f = Fsm.Fsm.Thinking → Fsm.Fsm.sentences_received_ f = 0%Z →
  ∃ n text s', worker_call read chunks rc http s = (s', [LlmFinished kNoTurn false n]) ∧
    worker s' = Writing sid a b text ∧ text ≠ [] ∧
    let f' := exec (Fsm.Fsm.on_event now (LlmFinished kNoTurn false n)) f in
    Fsm.Fsm.state_ f' = Fsm.Fsm.Listening ∧ Fsm.Fsm.turns_completed_ f' = Z.succ (Fsm.Fsm.turns_completed_ f) ∧
    let s2 := on_event (LlmFinished kNoTurn false n) s' in
    turns_since_summary_ s2 = u64 (turns_since_summary_ s + 2) ∧
    (turn_threshold s ≤ u64 (turns_since_summary_ s + 2) → job_pending_ s2 = true)%Z.
Proof.
  intros Hw Hst Hrec. destruct (call_ends read chunks rc http s sid a b Hw) as (n & text & E & Ht).
  exists n, text. eexists. split; [exact E|]. split; [done|]. split; [done|].
  destruct (first_llm_finished_completes now kNoTurn false n f Hst Hrec) as [H1 H2]. split; [done|]. split; [done|].
  unfold on_event. change (turns_since_summary_ (s <| worker := Writing sid a b text |>)) with (turns_since_summary_ s).
  destruct (decide _) as [Hd|Hd]; [done|]. split; [done|]. intros Hle. destruct Hd. done.
Qed.

Lemma summary_ends_turn_witness :
  let s := (run (λ _, None) [Bus (LlmFinished 1 false 3); Take false false false]%Z (summarizer_new 2 1) sample_db).1.1 in
  let f := exec (Fsm.Fsm.start 0 ;; Fsm.Fsm.run [(0, SpeechStarted 0 0); (1, SpeechEnded 0 1);
                   (2, FinalTranscript 0 (lit "hi") [] None 0 0)]%Z) (Fsm.Fsm.fsm_new Turn.turns_init true true) in
  worker s = Calling 1 1 2 ∧ Fsm.Fsm.state_ f = Fsm.Fsm.Thinking ∧
  ∃ n, (worker_call (λ _, None) [] false 0 s).2 = [LlmFinished kNoTurn false n] ∧
    Fsm.Fsm.state_ (exec (Fsm.Fsm.on_event 3 (LlmFinished kNoTurn false n)) f) = Fsm.Fsm.Listening.
Proof.
  intros s f. split; [reflexivity|]. split; [reflexivity|].
  assert (worker s = Calling 1 1 2) as Hw by reflexivity.
  destruct (summary_ends_turn (λ _, None) [] false 0 s 1 1 2 3 f Hw eq_refl eq_refl) as (n & t & s' & E & _ & _ & H & _).
  exists n. rewrite E. done.
Defined.
