(* ===== verification/SummaryWorker.v ===== *)
(** * The summarizer's request and thread (src/src/memory/summarizer.cpp)

    The body of the request, and the worker thread with [start], [stop] and
    [trigger_now], cut at its mutex and its waits; what a run does between
    being taken and returning is in [Summarizer]. *)
From S2P Require Import Prelude Config.
From S2P Require Event Repository Summarizer.

(** ** The request *)

Record SummaryMessage := MkSummaryMessage { role : str; content : str }.
Record SummaryRequest := MkSummaryRequest {
  model : str; messages : list SummaryMessage; req_temperature : Q; req_max_tokens : Z; stream : bool;
}.
Definition kSystemPrompt : str :=
  lit "You summarize conversations. Produce a single short paragraph " ++
  lit "(<=2 sentences, <=40 words) capturing the main topics, decisions, " ++
  lit "and any durable user preferences mentioned. Do not quote verbatim.".
Definition summary_request (cfg : Config) (text_block : str) : SummaryRequest :=
  MkSummaryRequest (llm_model (llm cfg))
    [MkSummaryMessage (lit "system") kSystemPrompt; MkSummaryMessage (lit "user") (lit "Summarize:" ++ ["010"%char] ++ text_block)]
    (3 # 10) 200 true.
(** [write_json]: the JSON writer, [None] when it fails. *)
Definition build_request_body (write_json : SummaryRequest → option str) (cfg : Config) (text_block : str) : str :=
  default [] (write_json (summary_request cfg text_block)).
(** The parameter of [Summarizer.worker_take]. *)
Definition build_fails (write_json : SummaryRequest → option str) (cfg : Config) (text_block : str) : bool :=
  bool_decide (build_request_body write_json cfg text_block = []).

(** ** The thread *)

(** Before the predicate of the wait, asleep ([woken]: notified), in
    [run_one_summary], returned. *)
Inductive WorkerPc := WNone | WPredicate | WAsleep (woken : bool) | WRunning | WDone.
Inductive StopPc := SIdle | SFlag | SNotify | SJoin.
#[global] Instance stop_pc_eq_dec : EqDecision StopPc.
Proof. solve_decision. Defined.

(** [notifying]: callers of [trigger_now] between the mutex and the
    notification. *)
Record thread := MkThread {
  sub_ : bool; job_pending_ : bool; stopping_ : bool; notifying : nat; worker : WorkerPc; stopper : StopPc;
}.
#[global] Instance eta_thread : Eta thread := λ s,
  MkThread (sub_ s) (job_pending_ s) (stopping_ s) (notifying s) (worker s) (stopper s).
Definition thread_new : thread := MkThread false false false 0 WNone SIdle.

Inductive Label := Start | Trigger | Notify | StopCall | Stop | Worker | Finish.

(** One waiter: [notify_one] and [notify_all] are the same. *)
Definition wake (w : WorkerPc) : WorkerPc := match w with WAsleep _ => WAsleep true | w => w end.
Definition worker_step (s : thread) : thread * nat :=
  match worker s with
  | WPredicate =>
      if stopping_ s || job_pending_ s then
        if stopping_ s && negb (job_pending_ s) then (s <| worker := WDone |>, 0)
        else (s <| job_pending_ := false |> <| worker := WRunning |>, 1)
      else (s <| worker := WAsleep false |>, 0)
  | WAsleep true => (s <| worker := WPredicate |>, 0)
  | _ => (s, 0)
  end.
Definition stop_step (s : thread) : thread :=
  match stopper s with
  | SIdle => s
  | SFlag => s <| stopping_ := true |> <| stopper := SNotify |>
  | SNotify => s <| worker ::= wake |> <| stopper := SJoin |>
  | SJoin => match worker s with WDone => s <| worker := WNone |> <| stopper := SIdle |> | _ => s end
  end.
(** The number: runs taken. *)
Definition step (l : Label) (s : thread) : thread * nat :=
  match l with
  | Start => (match stopper s with
              | SIdle => if sub_ s then s else s <| stopping_ := false |> <| worker := WPredicate |> <| sub_ := true |>
              | _ => s
              end, 0)
  | Trigger => (s <| job_pending_ := true |> <| notifying ::= S |>, 0)
  | Notify => (match notifying s with O => s | S n => s <| notifying := n |> <| worker ::= wake |> end, 0)
  | StopCall => (match stopper s with
                 | SIdle => let s := s <| sub_ := false |> in match worker s with WNone => s | _ => s <| stopper := SFlag |> end
                 | _ => s
                 end, 0)
  | Stop => (stop_step s, 0)
  | Worker => worker_step s
  | Finish => (match worker s with WRunning => s <| worker := WPredicate |> | _ => s end, 0)
  end.
Fixpoint run (ls : list Label) (s : thread) : thread * nat :=
  match ls with
  | [] => (s, 0)
  | l :: ls => let '(s, n) := step l s in let '(s, m) := run ls s in (s, n + m)
  end.
Definition reached (ls : list Label) : thread := (run ls thread_new).1.

(** ** Invariant *)

Record thread_ok (s : thread) : Prop := {
  ok_pending : worker s = WAsleep false → job_pending_ s = true → 0 < notifying s;
  ok_stopping : worker s = WAsleep false → stopping_ s = true → stopper s = SNotify;
  ok_flag : stopper s = SNotify ∨ stopper s = SJoin → stopping_ s = true;
  ok_sub : stopper s ≠ SIdle → sub_ s = false;
  ok_alive : stopper s ≠ SIdle → worker s ≠ WNone;
  ok_idle : stopper s = SIdle → (worker s = WNone ↔ sub_ s = false);
  ok_fresh : stopper s = SIdle ∨ stopper s = SFlag → worker s ≠ WNone → stopping_ s = false;
  ok_done : worker s = WDone → stopping_ s = true;
}.

Lemma summary_new_ok : thread_ok thread_new.
Proof. split; cbn; naive_solver. Qed.

Ltac fields H := destruct H as [Hp Hs Hf Hu Ha Hi Hn Hd]; cbn in Hp, Hs, Hf, Hu, Ha, Hi, Hn, Hd.
Ltac each := split; cbn; intros; cbn in *; (done || congruence || lia || solve [intuition congruence] || naive_solver).

Lemma summary_step_ok l s : thread_ok s → thread_ok (step l s).1.
Proof.
  intros H. destruct s as [sub jp st n w p]. destruct l; cbn.
  - destruct p; try done. destruct sub; [done|]. fields H. each.
  - fields H. each.
  - destruct n; [done|]. fields H. destruct w; each.
  - destruct p; try done. destruct w; fields H; each.
  - destruct p; try done; [| |destruct w; try done]; fields H; try destruct w; each.
  - unfold worker_step. cbn. destruct w as [| |[]| |]; try done; [destruct st, jp|]; fields H; each.
  - destruct w; try done. fields H. each.
Qed.

Lemma summary_run_cons l ls s : run (l :: ls) s = ((run ls (step l s).1).1, (step l s).2 + (run ls (step l s).1).2).
Proof. cbn. destruct (step l s) as [s1 n]. cbn. by destruct (run ls s1). Qed.
Lemma summary_run_ok ls s : thread_ok s → thread_ok (run ls s).1.
Proof. revert s. induction ls as [|l ls IH]; intros s H; [done|]. rewrite summary_run_cons. by apply IH, summary_step_ok. Qed.
Lemma reached_ok ls : thread_ok (reached ls).
Proof. apply summary_run_ok, summary_new_ok. Qed.

(** ** stop *)

(** What is left of [stop]: its own steps, the worker's, and those of the job
    that may still be pending. *)
Definition worker_left (pending : bool) (w : WorkerPc) : nat :=
  (if pending then 2 else 0) +
  match w with WNone | WDone => 0 | WPredicate => 1 | WRunning | WAsleep true => 2 | WAsleep false => 3 end.
Definition left_to_stop (s : thread) : nat :=
  match stopper s with SIdle => 0 | SFlag => 3 | SNotify => 2 | SJoin => 1 end +
  match stopper s with SIdle => 0 | _ => worker_left (job_pending_ s) (worker s) end.

Ltac use_step l := exists l; split; [set_solver|cbn; lia].
Lemma summary_less s : thread_ok s → stopper s ≠ SIdle →
  ∃ l, l ∈ [Stop; Worker; Finish] ∧ left_to_stop (step l s).1 < left_to_stop s.
Proof.
  intros H. destruct s as [sub jp st n w p]. fields H. cbn. unfold left_to_stop. intros Hne. specialize (Ha Hne).
  destruct p; cbn; [done|use_step Stop| |].
  - exists Stop. split; [set_solver|]. destruct w as [| |[]| |], jp; cbn; lia.
  - assert (st = true) as -> by auto. destruct w as [| |[]| |]; [done| | | |use_step Finish|use_step Stop].
    + exists Worker. split; [set_solver|]. destruct jp; cbn; lia.
    + use_step Worker.
    + by specialize (Hs eq_refl eq_refl).
Qed.

Lemma summary_run_state ls s : (run ls s).1 = foldl (λ s l, (step l s).1) s ls.
Proof. revert s. induction ls as [|l ls IH]; intros s; [done|]. rewrite summary_run_cons. apply IH. Qed.
Lemma summary_ends n s : thread_ok s → left_to_stop s ≤ n →
  ∃ ls, Forall (λ l, l ∈ [Stop; Worker; Finish]) ls ∧ length ls ≤ n ∧ stopper (run ls s).1 = SIdle.
Proof.
  intros H. setoid_rewrite summary_run_state.
  apply (ends_within (λ l s, (step l s).1) thread_ok (λ s, stopper s = SIdle) left_to_stop); auto using summary_step_ok, summary_less.
Qed.

Definition quiet (l : Label) : bool := match l with Start | Trigger => false | _ => true end.
Definition pending_count (s : thread) : nat := if job_pending_ s then 1 else 0.
Definition settled (s : thread) : Prop := worker s = WDone ∨ worker s = WNone → job_pending_ s = false.
(** Jobs are run, not dropped, and no thread is left without [stop] ending. *)
Lemma summary_quiet_step l s : quiet l = true →
  (step l s).2 + pending_count (step l s).1 = pending_count s ∧ (settled s → settled (step l s).1) ∧
  (sub_ s = false → sub_ (step l s).1 = false).
Proof.
  intros Hl. destruct s as [sub jp st n w p]. unfold settled, pending_count. destruct l; try done; cbn.
  - destruct n; cbn; [done|]. destruct w; cbn; naive_solver.
  - destruct p; cbn; [destruct w; cbn|..]; naive_solver.
  - destruct p; cbn; try done; [destruct w; cbn; naive_solver|]. destruct w; cbn; naive_solver.
  - unfold worker_step. cbn. destruct w as [| |[]| |]; cbn; try done; [destruct st, jp; cbn|]; naive_solver.
  - destruct w; cbn; naive_solver.
Qed.
Lemma summary_quiet_run ls s : forallb quiet ls = true →
  (run ls s).2 + pending_count (run ls s).1 = pending_count s ∧ (settled s → settled (run ls s).1) ∧
  (sub_ s = false → sub_ (run ls s).1 = false).
Proof.
  revert s. induction ls as [|l ls IH]; intros s Hq; [done|]. apply andb_true_iff in Hq as [Hl Hq]. rewrite summary_run_cons. cbn [fst snd].
  destruct (summary_quiet_step l s Hl) as (H1 & H2 & H3), (IH (step l s).1 Hq) as (H1' & H2' & H3').
  split; [lia|]. auto.
Qed.
Lemma stoppers_quiet ks : Forall (λ l, l ∈ [Stop; Worker; Finish]) ks → forallb quiet ks = true.
Proof. induction 1 as [|l ks Hl _ IH]; [done|]. cbn. rewrite IH, andb_true_r. repeat (apply elem_of_cons in Hl as [->|Hl]; [done|]). by apply elem_of_nil in Hl. Qed.

(** The summarizer's thread. Asleep with a job pending it has a
    notification coming, and asleep with the stop flag up its stopper has: no
    wake-up is lost. A [stop] in progress is ended by at most eight steps of
    its thread, the worker and the model's answer, and leaves no thread; it
    waits for the summary in progress, and then for the job that was pending,
    which is run rather than dropped unless the worker had already returned.
    Without a new trigger no further job is ever taken. *)
Theorem summarizer_stops ls :
  let s := reached ls in
  (worker s = WAsleep false → (job_pending_ s = true → 0 < notifying s) ∧ (stopping_ s = true → stopper s = SNotify)) ∧
  (∀ ks, forallb quiet ks = true → (run ks s).2 ≤ pending_count s) ∧
  (stopper s ≠ SIdle → ∃ ks, Forall (λ l, l ∈ [Stop; Worker; Finish]) ks ∧ length ks ≤ 8 ∧
     stopper (run ks s).1 = SIdle ∧ worker (run ks s).1 = WNone ∧
     (worker s ≠ WDone → (run ks s).2 = pending_count s)).
Proof.
  cbn zeta. pose proof (reached_ok ls) as H. split; [|split].
  - intros Hw. split; intros ?; [by apply (ok_pending _ H)|by apply (ok_stopping _ H)].
  - intros ks Hk. destruct (summary_quiet_run ks (reached ls) Hk) as [Hc _]. lia.
  - intros Hp. destruct (summary_ends 8 (reached ls) H) as (ks & Hks & Hlen & Hend).
    { unfold left_to_stop. destruct (stopper (reached ls)), (job_pending_ (reached ls)), (worker (reached ls)) as [| |[]| |]; cbn; lia. }
    exists ks. split; [done|]. split; [done|]. split; [done|]. pose proof (summary_run_ok ks _ H) as H'.
    destruct (summary_quiet_run ks (reached ls) (stoppers_quiet ks Hks)) as (Hc & Hset & Hsub).
    assert (worker (run ks (reached ls)).1 = WNone) as Hw by (apply (ok_idle _ H' Hend), Hsub, (ok_sub _ H Hp)).
    split; [done|]. intros Hd. assert (settled (reached ls)) as Hs by (intros [?|Hn]; [done|by destruct (ok_alive _ H Hp)]).
    specialize (Hset Hs (or_intror Hw)). unfold pending_count in *. rewrite Hset in Hc. lia.
Qed.

(** A stop that waits for two summaries. *)
Example two_calls_at_stop :
  let s := reached [Start; Trigger; Notify; Worker; Trigger; StopCall] in
  worker s = WRunning ∧ job_pending_ s = true ∧ (run [Stop; Notify; Stop; Finish; Worker; Finish; Worker; Stop] s).2 = 1 ∧
  stopper (run [Stop; Notify; Stop; Finish; Worker; Finish; Worker; Stop] s).1 = SIdle.
Proof. by repeat split. Qed.

(** The header says the worker looks at the threshold again after each run.
    It runs whenever a job is pending: with a threshold of four, an exchange
    that ends during a run makes a second one, of the turns of that exchange
    alone. *)
Example threshold_not_rechecked :
  let e := Summarizer.Bus (Event.LlmFinished 1 false 0) in
  let '(s, _, _) := Summarizer.run (λ _, None)
    [e; e; Summarizer.Take false false false; Summarizer.Call [] false 0; e; Summarizer.Write false false 9;
     Summarizer.Store (Repository.InsertTurn 1 Repository.User (Some (lit "bye")) None 10 Repository.Committed);
     Summarizer.Take false false false]%Z
    (Summarizer.summarizer_new 4 1) Summarizer.sample_db in
  Summarizer.turns_since_summary_ s = 0%Z ∧ Summarizer.worker s = Summarizer.Calling 1 3 3.
Proof. vm_compute. by split. Qed.
