(* ===== verification/PromptBuilder.v ===== *)
(** * The prompt (src/src/llm/prompt_builder.hpp, prompt_builder.cpp)

    The request body made of the store of [Repository] and the configuration.
    The JSON writer is the parameter [write_json]; [lost] says that the memory
    thread refused the read, whose exception [build] lets through, and
    [ReadFaults] which of its statements failed, whose part is left out. *)
From stdpp Require Import gmap.
From S2P Require Import Prelude Event Config Repository Recovery TurnWriter.

Record ChatMessage := MkMessage { role : str; content : str }.
Record ChatRequest := MkRequest {
  model : str;
  messages : list ChatMessage;
  req_temperature : fl;
  req_top_p : fl;
  req_repeat_penalty : fl;
  req_max_tokens : Z;
  stream : bool;
}.

Record MemorySnapshot := MkSnap { snap_facts : list FactRow; snap_summary : option SummaryRow; snap_turns : list TurnRow }.

(** [static_cast<int>]. *)
Definition int32 (z : Z) : Z := if decide (u32 z < 2 ^ 31)%Z then u32 z else (u32 z - 2 ^ 32)%Z.

Definition choose_system_prompt (cfg : Config) (lang : str) : str :=
  let prompts := system_prompts (dialogue cfg) in
  match smap_find lang prompts with
  | Some p => p
  | None => default [] (smap_find (fallback_language (dialogue cfg)) prompts)
  end.

Definition newline : str := ["010"%char].
Definition assemble_system_content (cfg : Config) (lang : str) (snap : MemorySnapshot) : str :=
  choose_system_prompt cfg lang ++
  (if decide (snap_facts snap = []) then []
   else newline ++ newline ++ lit "Durable user facts:" ++
     flat_map (λ f, newline ++ lit "- " ++ fact_key f ++ lit ": " ++ fact_value f) (snap_facts snap)) ++
  match snap_summary snap with
  | Some s => newline ++ newline ++ lit "Earlier conversation summary:" ++ newline ++ sum_text s
  | None => []
  end ++
  (let n := max_assistant_sentences (dialogue cfg) in
   if decide (0 < n < 100)%Z then
     newline ++ newline ++ lit "Reply in at most " ++ decimal n ++ lit " short sentences."
   else []).

Definition message_of (t : TurnRow) : ChatMessage :=
  MkMessage (match turn_role t with User => lit "user" | Assistant => lit "assistant" end) (default [] (turn_text t)).
Definition assemble_messages (system_content : str) (snap : MemorySnapshot) (current_user_text : str) : list ChatMessage :=
  MkMessage (lit "system") system_content :: map message_of (snap_turns snap) ++ [MkMessage (lit "user") current_user_text].

Definition estimate_tokens (body : str) : Z := ((Z.of_nat (length body) + 3) / 4)%Z.

(** The turns that go into the prompt. *)
Definition usable_turn (t : TurnRow) : bool :=
  match turn_status t with Committed | Interrupted => true | _ => false end &&
  match turn_text t with Some (_ :: _) => true | _ => false end.

Record ReadFaults := MkFaults { facts_fail : bool; summary_fails : bool; turns_fail : bool }.
Definition no_faults : ReadFaults := MkFaults false false false.

Definition read_snapshot (f : ReadFaults) (cfg : Config) (sid : SessionId) (d : db) : MemorySnapshot :=
  MkSnap
    match statement (facts_fail f) (facts_with_min_confidence (confidence_threshold (Config.facts (memory cfg))) d) with
    | Ok v => v | DbError _ => []
    end
    match statement (summary_fails f) (latest_summary sid d) with Ok v => v | DbError _ => None end
    match statement (turns_fail f) (recent_turns sid (int32 (recent_turns_n (dialogue cfg))) d) with
    | Ok v => List.filter usable_turn v | DbError _ => []
    end.

Record PromptInputs := MkInputs { session_id : SessionId; in_lang : str; current_user_text : str }.

Definition request (f : ReadFaults) (cfg : Config) (i : PromptInputs) (d : db) : ChatRequest :=
  let snap := if decide (session_id i = 0%Z) then MkSnap [] None [] else read_snapshot f cfg (session_id i) d in
  let system_content := assemble_system_content cfg (in_lang i) snap in
  MkRequest (llm_model (llm cfg)) (assemble_messages system_content snap (current_user_text i))
    (temperature (llm cfg)) (top_p (llm cfg)) (repeat_penalty (llm cfg)) (int32 (max_tokens (llm cfg))) true.

(** [None]: the exception; otherwise the body and the estimate that is kept. *)
Definition build (write_json : ChatRequest → option str) (cfg : Config) (lost : bool) (f : ReadFaults)
    (i : PromptInputs) (d : db) : option (str * Z) :=
  if bool_decide (session_id i ≠ 0%Z) && lost then None
  else
    let body := default [] (write_json (request f cfg i d)) in
    Some (body, estimate_tokens body).

(** ** Specification *)

(** What the conversation of a session has been. *)
Definition history (sid : SessionId) (d : db) : list ChatMessage :=
  map message_of (List.filter usable_turn (filter (λ r, turn_session r = sid) (turns d))).

(** An exchange as it should be remembered. *)
Definition said (text : str) : list ChatMessage := if decide (text = []) then [] else [MkMessage (lit "user") text].
Definition answered (texts : list str) : list ChatMessage :=
  if decide (texts = []) then [] else [MkMessage (lit "assistant") (join texts)].

(** Events of an answer that write no row: the sentences and their playback. *)
Definition quiet (e : Event) : bool := match e with FinalTranscript _ _ _ _ _ _ | LlmFinished _ _ _ => false | _ => true end.

(** ** Lemmas *)

Lemma take_rev_all {A} n (l : list A) : length l ≤ n → rev (take n (rev l)) = l.
Proof. intros H. rewrite take_ge by (rewrite length_rev; lia). apply rev_involutive. Qed.

(** A limit the session fits in gives the whole of it. *)
Lemma recent_all sid n d :
  (Z.of_nat (length (filter (λ r, turn_session r = sid) (turns d))) ≤ n < 2 ^ 31)%Z →
  recent_turns sid (int32 n) d = filter (λ r, turn_session r = sid) (turns d).
Proof.
  intros H. assert (int32 n = n) as -> by (unfold int32, u32; rewrite Z.mod_small by lia; by rewrite decide_True by lia).
  unfold recent_turns. rewrite decide_False by lia. apply take_rev_all. lia.
Qed.

Lemma join_some t ts : t ≠ [] → join (t :: ts) ≠ [].
Proof. destruct t; [done|]. by destruct ts. Qed.

Lemma remembered_full turn evs c : Forall (λ t, t ≠ []) (remembered turn evs c).
Proof.
  unfold remembered. rewrite Forall_forall. intros t (i & _ & Hi)%list_elem_of_omap.
  destruct (decide _) as [|N]; [done|]. injection Hi as <-. intros E. apply N. by left.
Qed.

Lemma writer_run_app l1 l2 s :
  run (l1 ++ l2) s = let '(s1, j1) := run l1 s in let '(s2, j2) := run l2 s1 in (s2, j1 ++ j2).
Proof.
  revert s. induction l1 as [|[now e] l1 IH]; intros s; cbn [run app]; [by destruct (run l2 s)|].
  destruct (on_event now e s) as [s1 j1]. rewrite IH. destruct (run l1 s1) as [s2 j2]. destruct (run l2 s2) as [s3 j3].
  by rewrite app_assoc.
Qed.

Lemma quiet_jobs evs s : Forall (λ p, quiet p.2 = true) evs → (run evs s).2 = [].
Proof.
  intros H. revert s. induction H as [|[now e] evs He _ IH]; intros s; [done|]. cbn [run].
  specialize (IH (on_event now e s).1). cbn in He.
  assert ((on_event now e s).2 = []) as Hj by (by destruct e).
  destruct (on_event now e s) as [s1 j1]. cbn in *. destruct (run evs s1). cbn in *. by subst.
Qed.

Lemma quiet_ends turn e : quiet e = true → ends turn e = false.
Proof. by destruct e. Qed.

(** A row that is written adds its message. *)
Lemma history_row now j d :
  db_wf d → job_session j ∈ ses_id <$> sessions d → job_text j ≠ [] → job_status j = Committed ∨ job_status j = Interrupted →
  history (job_session j) (run_job now j d) = history (job_session j) d ++
    [MkMessage (match job_role j with User => lit "user" | Assistant => lit "assistant" end) (job_text j)].
Proof.
  intros Hwf Hs Ht Hst. unfold history. rewrite run_job_row by done.
  rewrite filter_app, filter_cons, filter_nil. rewrite decide_True by done. rewrite List.filter_app, map_app. f_equal.
  cbn. destruct (job_text j); [done|]. by destruct Hst as [-> | ->].
Qed.

Lemma history_unusable now j d :
  db_wf d → job_session j ∈ ses_id <$> sessions d → job_text j = [] →
  history (job_session j) (run_job now j d) = history (job_session j) d.
Proof.
  intros Hwf Hs Ht. unfold history. rewrite run_job_row by done.
  rewrite filter_app, filter_cons, filter_nil. rewrite decide_True by done. rewrite List.filter_app, map_app.
  rewrite Ht. unfold usable_turn at 2. cbn. destruct (job_status j); apply app_nil_r.
Qed.

(** What a job leaves alone. *)
Lemma run_job_frame now j d :
  db_wf d → db_wf (run_job now j d) ∧ sessions (run_job now j d) = sessions d ∧
  facts (run_job now j d) = facts d ∧ summaries (run_job now j d) = summaries d.
Proof.
  intros Hwf. unfold run_job.
  destruct (insert_turn (job_session j) (job_role j) (Some (job_text j)) (job_lang j) (job_started_at j) (job_status j) d)
    as [r d1] eqn:E.
  assert (d1 = apply (InsertTurn (job_session j) (job_role j) (Some (job_text j)) (job_lang j) (job_started_at j) (job_status j)) d)
    as Hd1 by (cbn [apply]; by rewrite E).
  assert (sessions d1 = sessions d ∧ facts d1 = facts d ∧ summaries d1 = summaries d) as (F1 & F2 & F3).
  { revert E. unfold insert_turn. destruct (has_session _ _); by intros [= <- <-]. }
  assert (db_wf d1) as H1 by (rewrite Hd1; by apply apply_wf).
  destruct r as [tid|m]; [|done]. split; [|done].
  change (set_turn_status tid (job_status j) (Some (default now (job_ended j))) (job_interrupted_at j) None d1)
    with (apply (SetTurnStatus tid (job_status j) (Some (default now (job_ended j))) (job_interrupted_at j) None) d1).
  by apply apply_wf.
Qed.

Definition run_jobs (now : UnixMs) (jobs : list Job) (d : db) : db := foldl (λ d j, run_job now j d) d jobs.

Lemma run_jobs_frame now jobs d :
  db_wf d → db_wf (run_jobs now jobs d) ∧ sessions (run_jobs now jobs d) = sessions d ∧
  facts (run_jobs now jobs d) = facts d ∧ summaries (run_jobs now jobs d) = summaries d.
Proof.
  revert d. induction jobs as [|j jobs IH]; intros d Hwf; [done|]. cbn [run_jobs foldl].
  destruct (run_job_frame now j d Hwf) as (W & E1 & E2 & E3). destruct (IH _ W) as (W' & F1 & F2 & F3).
  unfold run_jobs in *. rewrite F1, F2, F3. done.
Qed.

(** The events of an exchange, and the jobs they post. *)
Definition exchange (t0 t1 t2 : UnixMs) (tu turn : TurnId) (text lang : str) (evs : list (UnixMs * Event)) (cancelled : bool)
    (k : nat) : list (UnixMs * Event) :=
  (t0, FinalTranscript tu text lang (Some 0%Q) 0 0) :: ((t1, LlmStarted turn) :: evs) ++ [(t2, LlmFinished turn cancelled k)].

Definition user_jobs (sid : SessionId) (t0 : UnixMs) (text lang : str) : list Job :=
  if decide (text = []) then [] else [MkJob sid User text (lang_opt lang) t0 Committed None None].
Definition answer_jobs (sid : SessionId) (t1 t2 : UnixMs) (turn : TurnId) evs (c : bool) : list Job :=
  let texts := remembered turn evs c in
  if decide (c = true ∧ texts = []) then []
  else [MkJob sid Assistant (join texts) (lang_opt (lang_of turn evs [])) t1 (if c then Interrupted else Committed) (Some t2)
          (if c then Some (Z.of_nat (length texts)) else None)].

Lemma exchange_jobs s t0 t1 t2 tu turn text lang evs c k :
  in_flight_ s !! turn = None → session_ s ≠ 0%Z → Forall (λ p, quiet p.2 = true) evs →
  (run (exchange t0 t1 t2 tu turn text lang evs c k) s).2 =
  user_jobs (session_ s) t0 text lang ++ answer_jobs (session_ s) t1 t2 turn evs c.
Proof.
  intros Hn Hs Hq. unfold exchange. cbn [run on_event]. unfold handle_final at 1. rewrite decide_False by done.
  assert (Forall (λ p, ends turn p.2 = false) evs) as He by (eapply Forall_impl; [exact Hq|]; intros p; apply quiet_ends).
  pose proof (finished_jobs s turn t1 evs t2 c k Hn Hs He) as Hj.
  assert ((run ((t1, LlmStarted turn) :: evs) s).2 = []) as Hz.
  { cbn [run on_event]. pose proof (quiet_jobs evs (handle_started t1 turn s) Hq) as H. by destruct (run evs _). }
  assert (∀ js, (let '(s1, j1) := (s, js : list Job) in
    let '(s2, j2) := run (((t1, LlmStarted turn) :: evs) ++ [(t2, LlmFinished turn c k)]) s1 in (s2, j1 ++ j2)).2 =
    js ++ answer_jobs (session_ s) t1 t2 turn evs c) as Hgen.
  { intros js. rewrite writer_run_app. destruct (run ((t1, LlmStarted turn) :: evs) s) as [s1 j1]. cbn in Hz. subst j1.
    cbn [run]. destruct (on_event t2 (LlmFinished turn c k) s1) as [s2 jobs]. destruct Hj as [_ ->]. cbn.
    by rewrite app_nil_r. }
  unfold user_jobs. destruct (decide (text = [])); apply Hgen.
Qed.

(** The message a job leaves. *)
Definition message_job (j : Job) : list ChatMessage :=
  match job_text j with
  | [] => []
  | _ => [MkMessage (match job_role j with User => lit "user" | Assistant => lit "assistant" end) (job_text j)]
  end.

Lemma history_jobs now jobs d sid :
  db_wf d → sid ∈ ses_id <$> sessions d →
  Forall (λ j, job_session j = sid ∧ (job_status j = Committed ∨ job_status j = Interrupted)) jobs →
  history sid (run_jobs now jobs d) = history sid d ++ flat_map message_job jobs.
Proof.
  intros Hwf Hs Hj. revert d Hwf Hs. induction Hj as [|j jobs [<- Hst] _ IH]; intros d Hwf Hs; [by rewrite app_nil_r|].
  destruct (run_job_frame now j d Hwf) as (W & E & _). cbn [run_jobs foldl flat_map]. unfold run_jobs in IH.
  rewrite IH by (try done; by rewrite E). rewrite app_assoc. f_equal. unfold message_job. destruct (job_text j) as [|x t] eqn:Et.
  - rewrite app_nil_r. by apply history_unusable.
  - rewrite <- Et. apply history_row; try done. by rewrite Et.
Qed.

Lemma exchange_messages sid t0 t1 t2 turn text lang evs c :
  let jobs := user_jobs sid t0 text lang ++ answer_jobs sid t1 t2 turn evs c in
  Forall (λ j, job_session j = sid ∧ (job_status j = Committed ∨ job_status j = Interrupted)) jobs ∧
  flat_map message_job jobs = said text ++ answered (remembered turn evs c).
Proof.
  intros jobs. unfold jobs, user_jobs, answer_jobs. split.
  - apply Forall_app. split; (destruct (decide _); [constructor|]); (constructor; [|constructor]); (split; [done|]); [by left|].
    destruct c; [by right|by left].
  - rewrite flat_map_app. unfold said, answered. f_equal.
    + destruct (decide (text = [])); [done|]. cbn. unfold message_job. cbn. by destruct text.
    + pose proof (remembered_full turn evs c) as Hf. destruct (remembered turn evs c) as [|t ts].
      * destruct c; [by rewrite decide_True by done|]. by rewrite decide_False by (intros [? _]; done).
      * rewrite decide_False by (intros [_ ?]; done). rewrite (decide_False (P := t :: ts = [])) by done.
        apply Forall_cons in Hf as [Ht _]. cbn [flat_map]. unfold message_job. cbn [job_text job_role].
        pose proof (join_some t ts Ht) as Hjn. by destruct (join (t :: ts)).
Qed.

Lemma writer_session_kept evs s : session_ (run evs s).1 = session_ s.
Proof.
  revert s. induction evs as [|[now e] evs IH]; intros s; [done|]. cbn [run]. pose proof (session_kept now e s) as H.
  destruct (on_event now e s) as [s1 j1]. specialize (IH s1). destruct (run evs s1). cbn [fst] in *. congruence.
Qed.

(** The exchange and the next utterance. *)
Definition next_said (t3 : UnixMs) (tu : TurnId) (text lang : str) : UnixMs * Event :=
  (t3, FinalTranscript tu text lang (Some 0%Q) 0 0).
Lemma exchange_next_jobs s t0 t1 t2 t3 tu turn tn text lang text' lang' evs c k :
  in_flight_ s !! turn = None → session_ s ≠ 0%Z → Forall (λ p, quiet p.2 = true) evs →
  (run (exchange t0 t1 t2 tu turn text lang evs c k ++ [next_said t3 tn text' lang']) s).2 =
  (run (exchange t0 t1 t2 tu turn text lang evs c k) s).2 ++ user_jobs (session_ s) t3 text' lang'.
Proof.
  intros Hn Hs Hq. rewrite writer_run_app. pose proof (writer_session_kept (exchange t0 t1 t2 tu turn text lang evs c k) s) as Hk.
  destruct (run (exchange _ _ _ _ _ _ _ _ _ _) s) as [s1 j1]. cbn [fst snd] in *. cbn. unfold handle_final, user_jobs.
  rewrite Hk, decide_False by done. by destruct (decide (text' = [])).
Qed.

Lemma request_messages f cfg i d :
  session_id i ≠ 0%Z →
  (Z.of_nat (length (filter (λ r, turn_session r = session_id i) (turns d))) ≤ recent_turns_n (dialogue cfg) < 2 ^ 31)%Z →
  messages (request f cfg i d) =
    MkMessage (lit "system") (assemble_system_content cfg (in_lang i) (read_snapshot f cfg (session_id i) d))
    :: (if turns_fail f then [] else history (session_id i) d) ++ [MkMessage (lit "user") (current_user_text i)].
Proof.
  intros Hs Hn. unfold request. rewrite decide_False by done. cbn [messages]. unfold assemble_messages, history. do 2 f_equal.
  unfold read_snapshot. cbn [snap_turns]. rewrite recent_all by done. by destruct (turns_fail f).
Qed.

(** What the system message is made of. *)
Lemma system_frame f cfg lang sid d d' :
  facts d' = facts d → summaries d' = summaries d →
  assemble_system_content cfg lang (read_snapshot f cfg sid d') = assemble_system_content cfg lang (read_snapshot f cfg sid d).
Proof.
  intros Ef Es. unfold assemble_system_content, read_snapshot. cbn [snap_facts snap_summary].
  unfold facts_with_min_confidence, latest_summary. by rewrite Ef, Es.
Qed.

(** ** Properties *)

(** [C34] The conversation as the model sees it, at whichever moment its read
    comes between the jobs of the turn writer. After an exchange and the
    utterance that follows it, whose events the turn writer gets in this
    order, the prompt for that utterance is the system
    message with the facts and the summary, the conversation of before, a
    beginning of what the exchange leaves (what the user said, then what is
    to be remembered of the answer: all of it, or of an interrupted one what
    was heard, or nothing) and of the new utterance itself, and the new
    utterance. When the jobs of the exchange are done and that of the new
    utterance is not, it is exactly what the exchange leaves; when that one
    is done too, the new utterance is there twice. A part whose statement
    fails is left out. All this as long as the session fits in the number of
    recent turns. *)
Theorem exchange_in_prompt f s t0 t1 t2 t3 now tu turn tn text lang lang' evs c k m cfg i d :
  in_flight_ s !! turn = None → session_ s ≠ 0%Z → Forall (λ p, quiet p.2 = true) evs →
  db_wf d → session_ s ∈ ses_id <$> sessions d → session_id i = session_ s →
  let ex := exchange t0 t1 t2 tu turn text lang evs c k in
  let new := MkMessage (lit "user") (current_user_text i) in
  let left := said text ++ answered (remembered turn evs c) in
  let jobs := (run (ex ++ [next_said t3 tn (current_user_text i) lang']) s).2 in
  let d' := run_jobs now (take m jobs) d in
  (Z.of_nat (length (filter (λ r, turn_session r = session_ s) (turns d'))) ≤ recent_turns_n (dialogue cfg) < 2 ^ 31)%Z →
  ∃ seen, messages (request f cfg i d') =
    MkMessage (lit "system") (assemble_system_content cfg (in_lang i) (read_snapshot f cfg (session_ s) d))
    :: (if turns_fail f then [] else history (session_ s) d ++ seen) ++ [new] ∧
  seen `prefix_of` left ++ said (current_user_text i) ∧
  (m = length (run ex s).2 → seen = left) ∧
  (length (run ex s).2 < m → seen = left ++ said (current_user_text i)).
Proof.
  intros Hn Hs Hq Hwf Hd Hi ex new left jobs d' Hlen. unfold d', jobs, ex in *. clear d' jobs ex.
  rewrite exchange_next_jobs, exchange_jobs in * by done.
  destruct (exchange_messages (session_ s) t0 t1 t2 turn text lang evs c) as [Hf1 Hm1].
  set (j1 := user_jobs _ t0 _ _ ++ _) in *. set (j2 := user_jobs _ t3 _ _) in *.
  assert (Forall (λ j, job_session j = session_ s ∧ (job_status j = Committed ∨ job_status j = Interrupted)) j2) as Hf2.
  { unfold j2, user_jobs. destruct (decide _); [constructor|]. constructor; [|constructor]. split; [done|by left]. }
  assert (flat_map message_job j2 = said (current_user_text i)) as Hm2.
  { unfold j2, user_jobs, said. destruct (decide (_ = [])); [done|]. cbn. unfold message_job. cbn. by destruct (current_user_text i). }
  assert (length j2 ≤ 1) as Hl2 by (unfold j2, user_jobs; destruct (decide _); cbn; lia). clearbody j1 j2.
  exists (flat_map message_job (take m (j1 ++ j2))).
  destruct (run_jobs_frame now (take m (j1 ++ j2)) d Hwf) as (W & _ & Ef & Esum).
  split; [|split; [|split]].
  - rewrite <- Hi in *. rewrite request_messages by done. rewrite (system_frame f cfg (in_lang i) (session_id i) d) by done.
    rewrite Hi in *. rewrite history_jobs; [done..|]. apply Forall_take. by apply Forall_app.
  - unfold left. rewrite <- Hm1, <- Hm2, <- flat_map_app. rewrite <- (take_drop m (j1 ++ j2)) at 2. rewrite flat_map_app.
    by apply prefix_app_r.
  - intros ->. by rewrite take_app_length.
  - intros Hm. rewrite take_ge; [by rewrite flat_map_app, Hm1, Hm2|]. rewrite length_app. lia.
Qed.

Definition sample_store : db := apply_all [InsertSession 1 None; UpsertFact (lit "city") None (lit "Oslo") None (Some 1%Q) 2] db_empty.
Definition sample_answer : list (UnixMs * Event) :=
  [(6, LlmSentence 7 0 (lit "One.") (lit "en")); (7, LlmSentence 7 1 (lit "Two.") (lit "en")); (8, PlaybackFinished 7 0)]%Z.
Definition sample_exchange : list (UnixMs * Event) := exchange 4 5 9 0 7 (lit "Hi") (lit "en") sample_answer true 2.
Definition sample_jobs : list Job := (run (sample_exchange ++ [next_said 10 0 (lit "And?") (lit "en")]) (set_session 1 writer_new)).2.
Definition sample_prompt (m : nat) : list str :=
  content <$> messages (request no_faults example_config (MkInputs 1 (lit "en") (lit "And?"))
                          (run_jobs 4 (take m sample_jobs) sample_store)).

Lemma exchange_in_prompt_witness :
  sample_prompt 2 =
  [newline ++ newline ++ lit "Durable user facts:" ++ newline ++ lit "- city: Oslo" ++
     newline ++ newline ++ lit "Reply in at most 6 short sentences.";
   lit "Hi"; lit "One."; lit "And?"].
Proof.
  destruct (exchange_in_prompt no_faults (set_session 1 writer_new) 4 5 9 10 4 0 7 0 (lit "Hi") (lit "en") (lit "en")
    sample_answer true 2 2 example_config (MkInputs 1 (lit "en") (lit "And?")) sample_store) as (seen & E & _ & H & _).
  - reflexivity.
  - discriminate.
  - repeat constructor.
  - apply wf_all.
  - left.
  - reflexivity.
  - split; vm_compute; [discriminate|reflexivity].
  - unfold sample_prompt, sample_jobs, sample_exchange. cbn [current_user_text] in E. rewrite E, H by reflexivity.
    vm_compute. reflexivity.
Defined.

(** The race the header of the turn writer speaks of, and the opposite one:
    the read comes before the job of the answer. *)
Example prompt_races :
  tail (sample_prompt 3) = [lit "Hi"; lit "One."; lit "And?"; lit "And?"] ∧ tail (sample_prompt 1) = [lit "Hi"; lit "And?"].
Proof. vm_compute. by split. Qed.
