(* ===== verification/Envelope.v ===== *)
(** * The envelope of the realtime recogniser (src/src/stt/realtime_envelope.hpp,
      realtime_envelope.cpp)

    Base64 both ways, the two builders of client events, and the reassembler
    of the server's fragments. The JSON reader is the parameter [read]. *)
From stdpp Require Import gmap.
From S2P Require Import Prelude.

(** ** Base64 *)

Definition alpha : str := lit "ABCDEFGHIJKLMNOPQRSTUVWXYZabcdefghijklmnopqrstuvwxyz0123456789+/".

(** [kBase64Lookup]: the index of a character, or -1. *)
Fixpoint index_of (c : ascii) (s : str) (i : Z) : Z :=
  match s with [] => -1 | x :: s => if decide (x = c) then i else index_of c s (i + 1)%Z end.
Definition lookup64 (c : ascii) : Z := index_of c alpha 0.

Definition alpha_at (i : Z) : ascii := nth (Z.to_nat i) alpha "="%char.

(** The loop body of [base64_encode]: [b] and [c] are there when the input
    is long enough. *)
Definition encode_group (a : Z) (b c : option Z) : str :=
  let triple := Z.lor (Z.lor (Z.shiftl a 16) (Z.shiftl (default 0%Z b) 8)) (default 0%Z c) in
  [alpha_at (Z.land (Z.shiftr triple 18) 63);
   alpha_at (Z.land (Z.shiftr triple 12) 63);
   match b with Some _ => alpha_at (Z.land (Z.shiftr triple 6) 63) | None => "="%char end;
   match c with Some _ => alpha_at (Z.land triple 63) | None => "="%char end].

Fixpoint base64_encode (s : str) : str :=
  match s with
  | [] => []
  | [a] => encode_group (byte_of a) None None
  | [a; b] => encode_group (byte_of a) (Some (byte_of b)) None
  | a :: b :: c :: s => encode_group (byte_of a) (Some (byte_of b)) (Some (byte_of c)) ++ base64_encode s
  end.

(** The loop of [base64_decode]; the size is a multiple of four. *)
Fixpoint decode_groups (s : str) : option str :=
  match s with
  | a_ch :: b_ch :: c_ch :: d_ch :: s =>
      let a := lookup64 a_ch in
      let b := lookup64 b_ch in
      if decide (a < 0 ∨ b < 0)%Z then None
      else
        let triple := Z.lor (Z.shiftl a 18) (Z.shiftl b 12) in
        let o1 := of_byte (Z.land (Z.shiftr triple 16) 255) in
        if decide (c_ch = "="%char) then
          if decide (d_ch ≠ "="%char) then None
          else if decide (Z.land b 15 ≠ 0)%Z then None else Some [o1]
        else
          let c := lookup64 c_ch in
          if decide (c < 0)%Z then None
          else
            let with_c := Z.lor triple (Z.shiftl c 6) in
            let o2 := of_byte (Z.land (Z.shiftr with_c 8) 255) in
            if decide (d_ch = "="%char) then
              if decide (Z.land c 3 ≠ 0)%Z then None else Some [o1; o2]
            else
              let d := lookup64 d_ch in
              if decide (d < 0)%Z then None
              else
                let with_d := Z.lor with_c d in
                (λ out, o1 :: o2 :: of_byte (Z.land with_d 255) :: out) <$> decode_groups s
  | _ => Some []
  end.
Definition base64_decode (input : str) : option str :=
  if decide (length input mod 4 ≠ 0) then None else decode_groups input.

(** ** Client events *)

Definition quote : str := ["034"%char].
Definition build_input_audio_buffer_append_json (event_id base64_audio : str) : str :=
  lit "{" ++ quote ++ lit "event_id" ++ quote ++ lit ":" ++ quote ++ event_id ++ quote ++ lit "," ++ quote ++ lit "type"
  ++ quote ++ lit ":" ++ quote ++ lit "input_audio_buffer.append" ++ quote ++ lit "," ++ quote ++ lit "audio" ++ quote
  ++ lit ":" ++ quote ++ base64_audio ++ quote ++ lit "}".
Definition build_simple_event_json (event_id type : str) : str :=
  lit "{" ++ quote ++ lit "event_id" ++ quote ++ lit ":" ++ quote ++ event_id ++ quote ++ lit "," ++ quote ++ lit "type"
  ++ quote ++ lit ":" ++ quote ++ type ++ quote ++ lit "}".

(** ** The reassembler *)

Record Envelope := MkEnvelope {
  id_ : str;
  type_ : str;
  data : str;
  fragment_index : option nat;
  total_fragments : option nat;
}.
Record Pending := MkPending { fragments : list str; received : nat }.
#[global] Instance eta_pending : Eta Pending := λ p, MkPending (fragments p) (received p).

Abbreviation reassembler := (gmap str Pending).

Definition feed_env (env : Envelope) (pending_ : reassembler) : option str * reassembler :=
  if decide (type_ env = lit "full_message") then (base64_decode (data env), pending_)
  else if decide (type_ env ≠ lit "partial_message") then (None, pending_)
  else
    match fragment_index env, total_fragments env with
    | Some idx, Some total =>
        if decide (total = 0 ∨ total ≤ idx) then (None, pending_)
        else
          let '(p, changed) :=
            match pending_ !! id_ env with
            | None => (MkPending (replicate total []) 0, false)
            | Some p => (p, bool_decide (length (fragments p) ≠ total))
            end in
          if changed : bool then (None, delete (id_ env) pending_)
          else
            let pending_ := <[id_ env := p]> pending_ in
            if decide (nth idx (fragments p) [] ≠ []) then (None, pending_)
            else
              let p := p <| fragments ::= <[idx := data env]> |> <| received ::= S |> in
              if decide (received p = length (fragments p)) then
                (base64_decode (concat (fragments p)), delete (id_ env) pending_)
              else (None, <[id_ env := p]> pending_)
    | _, _ => (None, pending_)
    end.

Section reassemble.
Variable read : str → option Envelope.

Definition feed (raw : str) (s : reassembler) : option str * reassembler :=
  match read raw with None => (None, s) | Some env => feed_env env s end.

Fixpoint feed_all (raws : list str) (s : reassembler) : list str * reassembler :=
  match raws with
  | [] => ([], s)
  | raw :: raws =>
      let '(o, s) := feed raw s in
      let '(os, s) := feed_all raws s in
      (match o with Some x => x :: os | None => os end, s)
  end.
End reassemble.

Definition pending_count (s : reassembler) : nat := size s.

(** ** Specification *)

(** The decoder takes what the encoder makes, with anything after a padded
    group. *)
Definition decodes (s bs : str) : Prop :=
  length s mod 4 = 0 ∧ ∃ rest, s = base64_encode bs ++ rest ∧ (rest = [] ∨ length bs mod 3 ≠ 0).

(** ** Lemmas on Base64 *)

Lemma lookup_alpha i : (0 ≤ i < 64)%Z → lookup64 (alpha_at i) = i ∧ alpha_at i ≠ "="%char.
Proof.
  intros Hi. assert (forallb (λ n, bool_decide (lookup64 (alpha_at (Z.of_nat n)) = Z.of_nat n) &&
    negb (bool_decide (alpha_at (Z.of_nat n) = "="%char))) (seq 0 64) = true) as H by (vm_compute; reflexivity).
  rewrite forallb_forall in H. specialize (H (Z.to_nat i)). rewrite in_seq in H. specialize (H ltac:(lia)).
  rewrite Z2Nat.id in H by lia. apply andb_true_iff in H as [H1 H2].
  apply bool_decide_eq_true in H1. apply negb_true_iff, bool_decide_eq_false in H2. done.
Qed.

Lemma index_of_spec c s i :
  (0 ≤ i)%Z → index_of c s i = (-1)%Z ∨
  (i ≤ index_of c s i < i + Z.of_nat (length s))%Z ∧ nth (Z.to_nat (index_of c s i - i)) s "="%char = c.
Proof.
  revert i. induction s as [|x s IH]; intros i Hi; cbn [index_of]; [by left|]. case_decide as Hx.
  - right. rewrite Z.sub_diag. cbn [length]. split; [lia|done].
  - destruct (IH (i + 1)%Z ltac:(lia)) as [H|[H1 H2]]; [by left|]. right. cbn [length]. split; [lia|].
    replace (Z.to_nat (index_of c s (i + 1) - i)) with (S (Z.to_nat (index_of c s (i + 1) - (i + 1)))) by lia. exact H2.
Qed.

Lemma alpha_lookup c : lookup64 c = (-1)%Z ∨ (0 ≤ lookup64 c < 64)%Z ∧ alpha_at (lookup64 c) = c.
Proof.
  destruct (index_of_spec c alpha 0 ltac:(lia)) as [H|[H1 H2]]; [by left|]. right. split; [exact H1|].
  rewrite Z.sub_0_r in H2. exact H2.
Qed.

Lemma join_bits x y k : (0 ≤ k)%Z → (0 ≤ y < 2 ^ k)%Z → Z.lor (x * 2 ^ k) y = (x * 2 ^ k + y)%Z.
Proof. intros Hk Hy. rewrite <- Z.shiftl_mul_pow2 by done. rewrite Z.lor_comm, lor_shift, Z.shiftl_mul_pow2 by done. lia. Qed.

#[local] Arguments Z.land : simpl never.
#[local] Arguments Z.lor : simpl never.
#[local] Arguments Z.shiftr : simpl never.
#[local] Arguments Z.shiftl : simpl never.

Lemma triple_sum a b c :
  (0 ≤ b < 256)%Z → (0 ≤ c < 256)%Z →
  Z.lor (Z.lor (Z.shiftl a 16) (Z.shiftl b 8)) c = (a * 65536 + b * 256 + c)%Z.
Proof.
  intros Hb Hc. rewrite !Z.shiftl_mul_pow2 by lia. rewrite (join_bits a (b * 2 ^ 8) 16) by lia.
  replace (a * 2 ^ 16 + b * 2 ^ 8)%Z with ((a * 256 + b) * 2 ^ 8)%Z by lia. rewrite (join_bits _ c 8) by lia. lia.
Qed.

Lemma sextets_sum a b c d :
  (0 ≤ b < 64)%Z → (0 ≤ c < 64)%Z → (0 ≤ d < 64)%Z →
  Z.lor (Z.shiftl a 18) (Z.shiftl b 12) = (a * 262144 + b * 4096)%Z ∧
  Z.lor (a * 262144 + b * 4096) (Z.shiftl c 6) = (a * 262144 + b * 4096 + c * 64)%Z ∧
  Z.lor (a * 262144 + b * 4096 + c * 64) d = (a * 262144 + b * 4096 + c * 64 + d)%Z.
Proof.
  intros Hb Hc Hd. rewrite !Z.shiftl_mul_pow2 by lia. rewrite (join_bits a (b * 2 ^ 12) 18) by lia. split; [lia|].
  replace (a * 262144 + b * 4096)%Z with ((a * 64 + b) * 2 ^ 12)%Z by lia. rewrite (join_bits _ (c * 2 ^ 6) 12) by lia.
  split; [lia|]. replace ((a * 64 + b) * 2 ^ 12 + c * 64)%Z with (((a * 64 + b) * 64 + c) * 2 ^ 6)%Z by lia.
  rewrite (join_bits _ d 6) by lia. lia.
Qed.

(** The group of an encoding, as sextets. *)
Lemma encode_group_sextets a b c :
  (0 ≤ a < 256)%Z → (∀ x, b = Some x → 0 ≤ x < 256)%Z → (∀ x, c = Some x → 0 ≤ x < 256)%Z →
  let y := default 0%Z b in let z := default 0%Z c in
  encode_group a b c =
  [alpha_at (a / 4); alpha_at ((a mod 4) * 16 + y / 16);
   match b with Some _ => alpha_at ((y mod 16) * 4 + z / 64) | None => "="%char end;
   match c with Some _ => alpha_at (z mod 64) | None => "="%char end].
Proof.
  intros Ha Hb Hc y z. assert (0 ≤ y < 256)%Z as Hy by (unfold y; destruct b as [x|]; cbn; [by apply Hb|lia]).
  assert (0 ≤ z < 256)%Z as Hz by (unfold z; destruct c as [x|]; cbn; [by apply Hc|lia]).
  unfold encode_group. fold y z. rewrite triple_sum by done. rewrite !Z.shiftr_div_pow2 by lia. autorewrite with words.
  set (t := (a * 65536 + y * 256 + z)%Z).
  assert ((t / 2 ^ 18) mod 64 = a / 4 ∧ (t / 2 ^ 12) mod 64 = (a mod 4) * 16 + y / 16 ∧
    (t / 2 ^ 6) mod 64 = (y mod 16) * 4 + z / 64 ∧ t mod 64 = z mod 64)%Z as (-> & -> & -> & ->); [|done].
  unfold t. clearbody y z. clear - Ha Hy Hz. change (2 ^ 18)%Z with 262144%Z. change (2 ^ 12)%Z with 4096%Z. change (2 ^ 6)%Z with 64%Z.
  repeat split; Z.div_mod_to_equations; lia.
Qed.

#[local] Arguments of_byte : simpl never.
#[local] Arguments alpha_at : simpl never.
#[local] Arguments lookup64 : simpl never.

Lemma sextet_bytes i j k l :
  (0 ≤ i < 64)%Z → (0 ≤ j < 64)%Z → (0 ≤ k < 64)%Z → (0 ≤ l < 64)%Z →
  Z.land (Z.shiftr (i * 262144 + j * 4096) 16) 255 = (i * 4 + j / 16)%Z ∧
  Z.land (Z.shiftr (i * 262144 + j * 4096 + k * 64) 8) 255 = ((j mod 16) * 16 + k / 4)%Z ∧
  Z.land (i * 262144 + j * 4096 + k * 64 + l) 255 = ((k mod 4) * 64 + l)%Z.
Proof.
  intros Hi Hj Hk Hl. rewrite !Z.shiftr_div_pow2 by lia. autorewrite with words.
  change (2 ^ 16)%Z with 65536%Z. change (2 ^ 8)%Z with 256%Z. repeat split; Z.div_mod_to_equations; lia.
Qed.

(** One group of the decoder on sextets. *)
Ltac decode_sextets Hi Hj :=
  cbn [decode_groups]; rewrite ?(proj1 (lookup_alpha _ Hi)), ?(proj1 (lookup_alpha _ Hj));
  rewrite (decide_False (P := (_ < 0 ∨ _ < 0)%Z)) by lia.

Lemma decode_full i j k l s :
  (0 ≤ i < 64)%Z → (0 ≤ j < 64)%Z → (0 ≤ k < 64)%Z → (0 ≤ l < 64)%Z →
  decode_groups (alpha_at i :: alpha_at j :: alpha_at k :: alpha_at l :: s) =
  (λ out, of_byte (i * 4 + j / 16) :: of_byte ((j mod 16) * 16 + k / 4) :: of_byte ((k mod 4) * 64 + l) :: out) <$> decode_groups s.
Proof.
  intros Hi Hj Hk Hl. decode_sextets Hi Hj.
  destruct (lookup_alpha k Hk) as [-> Nk]. destruct (lookup_alpha l Hl) as [-> Nl].
  destruct (sextets_sum i j k l Hj Hk Hl) as (-> & -> & ->). destruct (sextet_bytes i j k l Hi Hj Hk Hl) as (-> & -> & ->).
  rewrite (decide_False (P := alpha_at k = _)), (decide_False (P := alpha_at l = _)) by done.
  by rewrite (decide_False (P := (k < 0)%Z)), (decide_False (P := (l < 0)%Z)) by lia.
Qed.

Lemma decode_two i j k s :
  (0 ≤ i < 64)%Z → (0 ≤ j < 64)%Z → (0 ≤ k < 64)%Z →
  decode_groups (alpha_at i :: alpha_at j :: alpha_at k :: "="%char :: s) =
  if decide (k mod 4 ≠ 0)%Z then None else Some [of_byte (i * 4 + j / 16); of_byte ((j mod 16) * 16 + k / 4)].
Proof.
  intros Hi Hj Hk. decode_sextets Hi Hj. destruct (lookup_alpha k Hk) as [-> Nk].
  destruct (sextets_sum i j k 0 Hj Hk ltac:(lia)) as (-> & -> & _).
  destruct (sextet_bytes i j k 0 Hi Hj Hk ltac:(lia)) as (-> & -> & _).
  rewrite (decide_False (P := alpha_at k = _)) by done. rewrite (decide_False (P := (k < 0)%Z)) by lia.
  rewrite decide_True by done. by rewrite land_3.
Qed.

Lemma decode_one i j s :
  (0 ≤ i < 64)%Z → (0 ≤ j < 64)%Z →
  decode_groups (alpha_at i :: alpha_at j :: "="%char :: "="%char :: s) =
  if decide (j mod 16 ≠ 0)%Z then None else Some [of_byte (i * 4 + j / 16)].
Proof.
  intros Hi Hj. decode_sextets Hi Hj. destruct (sextets_sum i j 0 0 Hj ltac:(lia) ltac:(lia)) as (-> & _ & _).
  destruct (sextet_bytes i j 0 0 Hi Hj ltac:(lia) ltac:(lia)) as (-> & _ & _).
  rewrite decide_True by done. rewrite decide_False by (intros H; by apply H). by rewrite land_15.
Qed.

(** The groups of the encoder. *)
Lemma encode_full a b c :
  (0 ≤ a < 256)%Z → (0 ≤ b < 256)%Z → (0 ≤ c < 256)%Z →
  encode_group a (Some b) (Some c) =
  [alpha_at (a / 4); alpha_at ((a mod 4) * 16 + b / 16); alpha_at ((b mod 16) * 4 + c / 64); alpha_at (c mod 64)].
Proof. intros. by rewrite encode_group_sextets by naive_solver. Qed.
Lemma encode_two a b :
  (0 ≤ a < 256)%Z → (0 ≤ b < 256)%Z →
  encode_group a (Some b) None =
  [alpha_at (a / 4); alpha_at ((a mod 4) * 16 + b / 16); alpha_at ((b mod 16) * 4); "="%char].
Proof. intros. rewrite encode_group_sextets by naive_solver. cbn. by rewrite Z.add_0_r. Qed.
Lemma encode_one a :
  (0 ≤ a < 256)%Z → encode_group a None None = [alpha_at (a / 4); alpha_at ((a mod 4) * 16); "="%char; "="%char].
Proof. intros. rewrite encode_group_sextets by naive_solver. cbn. by rewrite Z.add_0_r. Qed.

Lemma of_byte_as c z : z = byte_of c → of_byte z = c.
Proof. intros ->. apply of_byte_of. Qed.

Lemma decode_encode bs rest :
  (rest = [] ∨ length bs mod 3 ≠ 0) → decode_groups (base64_encode bs ++ rest) = Some bs.
Proof.
  remember (length bs) as n eqn:En. revert bs rest En. induction (lt_wf n) as [n _ IH]. intros bs rest -> Hr.
  destruct bs as [|a [|b [|c bs]]].
  - destruct Hr as [->|Hr]; [done|by cbn in Hr].
  - pose proof (byte_of_range a). cbn [base64_encode]. rewrite encode_one by done. cbn [app].
    rewrite decode_one by (Z.div_mod_to_equations; lia). rewrite decide_False by (Z.div_mod_to_equations; lia).
    f_equal. f_equal. apply of_byte_as. Z.div_mod_to_equations; lia.
  - pose proof (byte_of_range a). pose proof (byte_of_range b). cbn [base64_encode]. rewrite encode_two by done. cbn [app].
    rewrite decode_two by (Z.div_mod_to_equations; lia). rewrite decide_False by (Z.div_mod_to_equations; lia).
    f_equal. f_equal; [|f_equal]; apply of_byte_as; Z.div_mod_to_equations; lia.
  - pose proof (byte_of_range a). pose proof (byte_of_range b). pose proof (byte_of_range c).
    cbn [base64_encode]. rewrite encode_full by done. cbn [app].
    rewrite decode_full by (Z.div_mod_to_equations; lia). rewrite (IH (length bs)); [|cbn; lia|done|].
    2: { destruct Hr as [->|Hr]; [by left|right]. cbn [length] in Hr. intros E. apply Hr.
         replace (S (S (S (length bs)))) with (length bs + 1 * 3) by lia. by rewrite Nat.Div0.mod_add. }
    cbn. f_equal. f_equal; [|f_equal; [|f_equal]]; apply of_byte_as; Z.div_mod_to_equations; lia.
Qed.

Lemma alpha_some c : ¬ (lookup64 c < 0)%Z → ∃ i, (0 ≤ i < 64)%Z ∧ c = alpha_at i ∧ lookup64 c = i.
Proof. intros H. destruct (alpha_lookup c) as [E|[E1 E2]]; [lia|]. by exists (lookup64 c). Qed.

Lemma encode_of_bytes i j k l :
  (0 ≤ i < 64)%Z → (0 ≤ j < 64)%Z → (0 ≤ k < 64)%Z → (0 ≤ l < 64)%Z →
  let a := byte_of (of_byte (i * 4 + j / 16)) in
  let b := byte_of (of_byte ((j mod 16) * 16 + k / 4)) in
  let c := byte_of (of_byte ((k mod 4) * 64 + l)) in
  encode_group a (Some b) (Some c) = [alpha_at i; alpha_at j; alpha_at k; alpha_at l] ∧
  (k mod 4 = 0 → encode_group a (Some b) None = [alpha_at i; alpha_at j; alpha_at k; "="%char])%Z ∧
  (j mod 16 = 0 → encode_group a None None = [alpha_at i; alpha_at j; "="%char; "="%char])%Z.
Proof.
  intros Hi Hj Hk Hl a b c.
  assert (a = i * 4 + j / 16 ∧ b = (j mod 16) * 16 + k / 4 ∧ c = (k mod 4) * 64 + l)%Z as (-> & -> & ->).
  { unfold a, b, c. autorewrite with words. split_and!; apply Z.mod_small; Z.div_mod_to_equations; lia. }
  split; [|split]; intros; rewrite ?encode_full, ?encode_two, ?encode_one by (Z.div_mod_to_equations; lia);
    repeat f_equal; Z.div_mod_to_equations; lia.
Qed.

(** What a group that is decoded looks like. *)
Lemma decode_cases c1 c2 c3 c4 s bs :
  decode_groups (c1 :: c2 :: c3 :: c4 :: s) = Some bs →
  ∃ i j, (0 ≤ i < 64)%Z ∧ (0 ≤ j < 64)%Z ∧ c1 = alpha_at i ∧ c2 = alpha_at j ∧
  (c3 = "="%char ∧ c4 = "="%char ∧ (j mod 16 = 0)%Z ∧ bs = [of_byte (i * 4 + j / 16)] ∨
   ∃ k, (0 ≤ k < 64)%Z ∧ c3 = alpha_at k ∧
    (c4 = "="%char ∧ (k mod 4 = 0)%Z ∧ bs = [of_byte (i * 4 + j / 16); of_byte ((j mod 16) * 16 + k / 4)] ∨
     ∃ l out, (0 ≤ l < 64)%Z ∧ c4 = alpha_at l ∧ decode_groups s = Some out ∧
       bs = of_byte (i * 4 + j / 16) :: of_byte ((j mod 16) * 16 + k / 4) :: of_byte ((k mod 4) * 64 + l) :: out)).
Proof.
  intros Hd. pose proof Hd as Hd0. cbn [decode_groups] in Hd.
  destruct (decide (lookup64 c1 < 0 ∨ lookup64 c2 < 0)%Z) as [|Hab]; [done|].
  destruct (alpha_some c1 ltac:(tauto)) as (i & Hi & -> & _). destruct (alpha_some c2 ltac:(tauto)) as (j & Hj & -> & _).
  exists i, j. do 4 (split; [done|]). destruct (decide (c3 = "="%char)) as [->|N3].
  { left. destruct (decide (c4 ≠ "="%char)) as [|E4]; [done|]. apply dec_stable in E4 as ->.
    rewrite decode_one in Hd0 by done. clear Hd. by destruct (decide _) as [|Ez%dec_stable]; simplify_eq. }
  right. destruct (decide (lookup64 c3 < 0)%Z) as [|Hk']; [done|]. destruct (alpha_some c3 Hk') as (k & Hk & -> & _).
  exists k. do 2 (split; [done|]). destruct (decide (c4 = "="%char)) as [->|N4].
  { left. rewrite decode_two in Hd0 by done. clear Hd. by destruct (decide _) as [|Ez%dec_stable]; simplify_eq. }
  right. destruct (decide (lookup64 c4 < 0)%Z) as [|Hl']; [done|]. destruct (alpha_some c4 Hl') as (l & Hl & -> & _).
  rewrite decode_full in Hd0 by done. apply fmap_Some in Hd0 as (out & Ho & ->). by exists l, out.
Qed.

Lemma mod_group n m : (m + n) mod m = n mod m.
Proof. rewrite Nat.add_comm. replace (n + m) with (n + 1 * m) by lia. apply Nat.Div0.mod_add. Qed.

Lemma decode_shape s bs :
  length s mod 4 = 0 → decode_groups s = Some bs →
  ∃ rest, s = base64_encode bs ++ rest ∧ (rest = [] ∨ length bs mod 3 ≠ 0).
Proof.
  remember (length s) as n eqn:En. revert s bs En. induction (lt_wf n) as [n _ IH]. intros s bs -> Hm Hd.
  destruct s as [|c1 [|c2 [|c3 [|c4 s]]]]; try (by cbn in Hm); [cbn in Hd; injection Hd as <-; exists []; by split; [|left]|].
  apply decode_cases in Hd as (i & j & Hi & Hj & -> & -> & [(-> & -> & Ez & ->)|(k & Hk & -> & [(-> & Ez & ->)|(l & out & Hl & -> & Ho & ->)])]).
  - exists s. split; [|by right]. cbn [base64_encode].
    destruct (encode_of_bytes i j 0 0 Hi Hj ltac:(lia) ltac:(lia)) as (_ & _ & ->); done.
  - exists s. split; [|by right]. cbn [base64_encode].
    destruct (encode_of_bytes i j k 0 Hi Hj Hk ltac:(lia)) as (_ & -> & _); done.
  - change (length _) with (4 + length s) in Hm. rewrite mod_group in Hm.
    destruct (IH (length s) ltac:(cbn; lia) s out eq_refl Hm Ho) as (rest & Er & Hr). exists rest. split.
    + cbn [base64_encode]. destruct (encode_of_bytes i j k l Hi Hj Hk Hl) as (-> & _ & _). cbn. by rewrite Er.
    + destruct Hr as [->|Hr]; [by left|right]. change (length (_ :: _)) with (3 + length out). by rewrite mod_group.
Qed.

Lemma encode_length bs : length (base64_encode bs) mod 4 = 0.
Proof.
  remember (length bs) as n eqn:En. revert bs En. induction (lt_wf n) as [n _ IH]. intros bs ->.
  destruct bs as [|a [|b [|c bs]]]; try done. cbn [base64_encode]. rewrite length_app. change (length (encode_group _ _ _)) with 4.
  rewrite mod_group. apply (IH (length bs)); [cbn; lia|done].
Qed.

Lemma decode_iff s bs : base64_decode s = Some bs ↔ decodes s bs.
Proof.
  unfold base64_decode, decodes. case_decide as Hm; [split; [done|tauto]|]. split.
  - intros H. split; [lia|]. apply decode_shape; [lia|done].
  - intros (_ & rest & -> & Hr). by apply decode_encode.
Qed.

Lemma base64_decode_encode bs : base64_decode (base64_encode bs) = Some bs.
Proof. apply decode_iff. split; [apply encode_length|]. exists []. split; [by rewrite app_nil_r|by left]. Qed.

(** ** Lemmas on the reassembler *)

(** A set of indices below [n] is all of them when it has [n]. *)
Lemma all_seen (seen : gset nat) n : (∀ i, i ∈ seen → i < n) → size seen = n ↔ ∀ i, i < n → i ∈ seen.
Proof.
  intros Hs. assert (seen ⊆ set_seq 0 n) as Hsub by (intros i Hi; apply elem_of_set_seq; split; [lia|by apply Hs]).
  assert (size (set_seq 0 n : gset nat) = n) as Hn by apply size_set_seq. split.
  - intros E i Hi. destruct (decide (i ∈ seen)); [done|]. exfalso.
    assert (size ({[i]} ∪ seen) ≤ n) by (rewrite <- Hn; apply subseteq_size; intros j [->%elem_of_singleton|?]%elem_of_union;
      [apply elem_of_set_seq; lia|by apply Hsub]).
    rewrite size_union in H by set_solver. rewrite size_singleton in H. lia.
  - intros H. rewrite <- Hn. apply set_size_proper. intros i. rewrite elem_of_set_seq. split; [intros Hi; split; [lia|by apply Hs]|].
    intros [_ Hi]. by apply H.
Qed.

Section parts.
Variable read : str → option Envelope.
Variables (id : str) (fs : list str).
Hypothesis fs_full : Forall (λ f, f ≠ []) fs.

(** The number of the fragment of this message a raw message carries. *)
Definition part (raw : str) : option nat :=
  match read raw with
  | Some env => if decide (id_ env = id ∧ type_ env = lit "partial_message") then fragment_index env else None
  | None => None
  end.

(** What the server sends under this id: fragments of the message, as they
    are numbered. *)
Definition faithful (raw : str) : Prop :=
  match read raw with
  | Some env =>
      id_ env = id → type_ env = lit "partial_message" ∧ total_fragments env = Some (length fs) ∧
        ∃ i, fragment_index env = Some i ∧ fs !! i = Some (data env)
  | None => True
  end.

Definition states (raws : list str) (s : reassembler) : reassembler := foldl (λ s raw, (feed read raw s).2) s raws.

Definition filled (seen : gset nat) : list str := imap (λ i f, if decide (i ∈ seen) then f else []) fs.
Definition entry (seen : gset nat) (s : reassembler) : Prop :=
  if decide (seen = ∅) then s !! id = None else s !! id = Some (MkPending (filled seen) (size seen)).

Lemma filled_lookup seen i f : fs !! i = Some f → filled seen !! i = Some (if decide (i ∈ seen) then f else []).
Proof. intros H. unfold filled. rewrite list_lookup_imap, H. done. Qed.

Lemma filled_none : filled ∅ = replicate (length fs) [].
Proof.
  apply list_eq. intros i. unfold filled. rewrite list_lookup_imap. destruct (fs !! i) as [f|] eqn:E; cbn.
  - symmetry. apply lookup_replicate_2. by apply lookup_lt_Some in E.
  - symmetry. apply lookup_ge_None_2. rewrite length_replicate. by apply lookup_ge_None_1.
Qed.

Lemma filled_insert seen i f : fs !! i = Some f → <[i := f]> (filled seen) = filled ({[i]} ∪ seen).
Proof.
  intros H. apply list_eq. intros j. destruct (decide (i = j)) as [<-|Hne].
  - rewrite list_lookup_insert_eq by (unfold filled; rewrite length_imap; by apply lookup_lt_Some in H).
    rewrite (filled_lookup _ _ _ H), decide_True by set_solver. done.
  - rewrite list_lookup_insert_ne by done. unfold filled. rewrite !list_lookup_imap.
    destruct (fs !! j); cbn; [|done]. f_equal. repeat case_decide; try done; set_solver.
Qed.

Lemma filled_all seen : (∀ i, i < length fs → i ∈ seen) → filled seen = fs.
Proof.
  intros H. apply list_eq. intros i. unfold filled. rewrite list_lookup_imap. destruct (fs !! i) as [f|] eqn:E; [|done].
  cbn. rewrite decide_True; [done|]. apply H. by apply lookup_lt_Some in E.
Qed.

Lemma filled_length seen : length (filled seen) = length fs.
Proof. unfold filled. apply length_imap. Qed.

(** A fragment: the first of its number is filled in, the last one completes
    the message. *)
Lemma feed_part seen s env i :
  entry seen s → (∀ j, j ∈ seen → j < length fs) → size seen ≠ length fs →
  id_ env = id → type_ env = lit "partial_message" → total_fragments env = Some (length fs) →
  fragment_index env = Some i → fs !! i = Some (data env) →
  let '(o, s') := feed_env env s in
  if decide (size ({[i]} ∪ seen) = length fs) then o = base64_decode (concat fs) ∧ s' !! id = None
  else o = None ∧ entry ({[i]} ∪ seen) s'.
Proof.
  intros He Hs Hn Hid Hty Htot Hidx Hf. assert (i < length fs) as Hi by (by apply lookup_lt_Some in Hf).
  unfold feed_env. rewrite Hty, Hidx, Htot, Hid, decide_False, decide_False by (try discriminate; intros E; by apply E).
  rewrite decide_False by lia.
  assert (∃ p, match s !! id with
    | Some p => (p, bool_decide (length (fragments p) ≠ length fs)) | None => (MkPending (replicate (length fs) []) 0, false)
    end = (p, false) ∧ p = MkPending (filled seen) (size seen)) as (p & -> & ->).
  { unfold entry in He. destruct (decide (seen = ∅)) as [->|_]; rewrite He; eexists; (split; [|done]).
    - by rewrite filled_none.
    - cbn. rewrite filled_length, bool_decide_eq_false_2; [done|]. intros E. by apply E. }
  cbn [fragments received]. rewrite (nth_lookup_Some _ _ _ _ (filled_lookup seen i _ Hf)).
  assert (data env ≠ []) as Hd by (rewrite Forall_lookup in fs_full; by apply (fs_full i)).
  destruct (decide (i ∈ seen)) as [Hin|Hin].
  - rewrite decide_True by done. assert ({[i]} ∪ seen = seen) as -> by set_solver. rewrite decide_False by done.
    split; [done|]. unfold entry. rewrite decide_False by set_solver. apply lookup_insert_eq.
  - rewrite decide_False by (intros E; by apply E).
    change (_ <| received ::= S |>) with (MkPending (<[i := data env]> (filled seen)) (S (size seen))).
    cbn [fragments received]. rewrite (filled_insert seen i _ Hf), filled_length.
    assert (S (size seen) = size ({[i]} ∪ seen)) as -> by (rewrite size_union by set_solver; by rewrite size_singleton).
    assert (∀ j, j ∈ {[i]} ∪ seen → j < length fs) as Hs' by (intros j [->%elem_of_singleton|Hj]%elem_of_union; [done|by apply Hs]).
    pose proof (all_seen _ _ Hs') as Ha. destruct (decide (size _ = _)) as [E|E].
    + rewrite filled_all by (by apply Ha). split; [done|]. apply lookup_delete_eq.
    + split; [done|]. unfold entry. rewrite decide_False by set_solver.
      apply lookup_insert_eq.
Qed.

Lemma feed_other seen s env : entry seen s → id_ env ≠ id → entry seen (feed_env env s).2.
Proof.
  intros He Hne. assert ((feed_env env s).2 !! id = s !! id) as E; [|unfold entry in *; by rewrite E].
  unfold feed_env. repeat case_match; cbn; try done; by rewrite ?lookup_delete_ne, ?lookup_insert_ne by congruence.
Qed.

Definition seen_of (raws : list str) : gset nat := list_to_set (omap part raws).

Lemma seen_snoc raws r : seen_of (raws ++ [r]) = match part r with Some i => {[i]} | None => ∅ end ∪ seen_of raws.
Proof.
  clear fs fs_full. unfold seen_of. rewrite omap_snoc, list_to_set_app_L. destruct (part r); cbn; set_solver.
Qed.

Lemma faithful_part r i :
  faithful r → part r = Some i → ∃ env, read r = Some env ∧ id_ env = id ∧ type_ env = lit "partial_message" ∧
    total_fragments env = Some (length fs) ∧ fragment_index env = Some i ∧ fs !! i = Some (data env).
Proof.
  unfold faithful, part. destruct (read r) as [env|]; [|done]. case_decide as Hd; [|done]. intros H Hi.
  destruct Hd as [Hid Hty]. destruct (H Hid) as (_ & Ht & k & Hk & Hf). exists env. rewrite Hi in Hk. by simplify_eq.
Qed.
Lemma faithful_other r env : faithful r → part r = None → read r = Some env → id_ env ≠ id.
Proof.
  unfold faithful, part. intros H Hp E Hid. rewrite E in H, Hp. destruct (H Hid) as (Hty & _ & k & Hk & _).
  rewrite decide_True in Hp by done. by rewrite Hk in Hp.
Qed.

Lemma seen_bound raws : Forall faithful raws → ∀ j, j ∈ seen_of raws → j < length fs.
Proof.
  intros H j. unfold seen_of. rewrite elem_of_list_to_set, list_elem_of_omap. intros (r & Hr & Hp).
  rewrite Forall_forall in H. destruct (faithful_part r j (H r Hr) Hp) as (env & _ & _ & _ & _ & _ & Hf).
  by apply lookup_lt_Some in Hf.
Qed.

Lemma feed_next raws r s :
  entry (seen_of raws) (states raws s) → Forall faithful (raws ++ [r]) → size (seen_of raws) ≠ length fs →
  let '(o, s') := feed read r (states raws s) in
  match part r with
  | Some _ =>
      if decide (size (seen_of (raws ++ [r])) = length fs) then o = base64_decode (concat fs) ∧ s' !! id = None
      else o = None ∧ entry (seen_of (raws ++ [r])) s'
  | None => entry (seen_of (raws ++ [r])) s'
  end.
Proof.
  intros He Hf Hn. apply Forall_app in Hf as [Hf [Hr _]%Forall_cons]. rewrite seen_snoc. unfold feed.
  destruct (part r) as [i|] eqn:E.
  - destruct (faithful_part r i Hr E) as (env & -> & H1 & H2 & H3 & H4 & H5).
    by apply feed_part; [|apply seen_bound|..].
  - rewrite (union_empty_l_L (seen_of raws)). destruct (read r) as [env|] eqn:R; [|done].
    pose proof (feed_other _ _ env He (faithful_other r env Hr E R)) as H. by destruct (feed_env env _).
Qed.

(** Until the message is complete its fragments are kept. *)
Lemma states_entry raws s :
  s !! id = None → Forall faithful raws → size (seen_of raws) ≠ length fs → entry (seen_of raws) (states raws s).
Proof.
  intros Hs. induction raws as [|r raws IH] using rev_ind; intros Hf Hn; [done|].
  assert (size (seen_of raws) ≠ length fs) as Hn'.
  { intros E. apply Hn. pose proof (seen_bound _ Hf) as Hb. apply (all_seen _ _ Hb). apply Forall_app in Hf as [Hf _].
    intros i Hi. rewrite seen_snoc. apply elem_of_union_r. by apply (all_seen _ _ (seen_bound _ Hf)). }
  assert (Forall faithful raws) as Hf' by (by apply Forall_app in Hf as [? _]).
  pose proof (feed_next raws r s (IH Hf' Hn') Hf Hn') as H. unfold states in *. rewrite foldl_app. cbn.
  destruct (feed read r _) as [o s']. cbn. destruct (part r); [|done]. rewrite decide_False in H by done. by destruct H.
Qed.
End parts.

Lemma states_prefix read id fs raws pre r post :
  raws = pre ++ r :: post → Forall (faithful read id fs) raws → size (seen_of read id raws) ≠ length fs →
  Forall (faithful read id fs) (pre ++ [r]) ∧ size (seen_of read id pre) ≠ length fs ∧
  size (seen_of read id (pre ++ [r])) ≠ length fs.
Proof.
  intros -> Hf Hn. assert (pre ++ r :: post = (pre ++ [r]) ++ post) as E by (by rewrite <- app_assoc).
  rewrite E in Hf, Hn. apply Forall_app in Hf as Hf1. destruct Hf1 as [Hf1 _].
  assert (∀ l, l ⊆ (pre ++ [r]) ++ post → Forall (faithful read id fs) l → size (seen_of read id l) ≠ length fs) as Hl.
  { intros l Hsub Hfl Ex. apply Hn. apply (all_seen _ _ (seen_bound read id fs _ Hf)). intros i Hi.
    pose proof (proj1 (all_seen _ _ (seen_bound read id fs _ Hfl)) Ex i Hi) as Hin. revert Hin.
    unfold seen_of. rewrite !elem_of_list_to_set, !list_elem_of_omap. intros (x & Hx & Hp). exists x. split; [by apply Hsub|done]. }
  split; [done|]. split; apply Hl; try done; [set_solver| |set_solver]. by apply Forall_app in Hf1 as [? _].
Qed.

(** An empty fragment is not told from one that has not come: sent twice it
    counts twice, and the message is taken for complete. *)
Lemma empty_fragment_counts_twice :
  let part_ i d := MkEnvelope (lit "e") (lit "partial_message") d (Some i) (Some 2) in
  let '(_, s) := feed_env (part_ 0 []) ∅ in (feed_env (part_ 0 []) s).1 = Some [].
Proof. reflexivity. Qed.

(** ** Properties *)

(** Base64. Every byte sequence is decoded from its encoding; and what
    the decoder accepts is exactly an encoding of the bytes it returns, of a
    length that is a multiple of four, with anything at all after a padded
    group. *)
Theorem base64_exact s bs :
  base64_decode (base64_encode bs) = Some bs ∧ (base64_decode s = Some bs ↔ decodes s bs).
Proof.
  split; [apply base64_decode_encode|apply decode_iff].
Qed.

(** Fragments. When the server sends the fragments of a message, none of
    them empty, in any order, some of them more than once, with other
    messages, complete or not, and unreadable ones in between, nothing comes
    out for it until the fragment that was missing last, with which the
    payload comes out as it was, and nothing of the message is kept. *)
Theorem fragments_assembled read id fs payload raws raw i s :
  Forall (λ f, f ≠ []) fs → concat fs = base64_encode payload → s !! id = None →
  Forall (faithful read id fs) (raws ++ [raw]) → part read id raw = Some i → i ∉ omap (part read id) raws →
  (∀ j, j < length fs → j ≠ i → j ∈ omap (part read id) raws) →
  (∀ pre r post, raws = pre ++ r :: post → part read id r ≠ None → (feed read r (states read pre s)).1 = None) ∧
  let '(o, s') := feed read raw (states read raws s) in o = Some payload ∧ s' !! id = None.
Proof.
  intros Hfull Hc Hs Hf Hi Hni Hall. apply Forall_app in Hf as Hf'. destruct Hf' as [Hf1 [Hr _]%Forall_cons].
  destruct (faithful_part read id fs raw i Hr Hi) as (env & _ & _ & _ & _ & _ & Hfi%lookup_lt_Some).
  assert (size (seen_of read id raws) ≠ length fs) as Hn.
  { intros E. apply Hni. pose proof (proj1 (all_seen _ _ (seen_bound read id fs _ Hf1)) E i Hfi) as H.
    by apply elem_of_list_to_set in H. }
  split.
  - intros pre r post E Hp. destruct (states_prefix read id fs raws pre r post E Hf1 Hn) as (P1 & P2 & P3).
    assert (Forall (faithful read id fs) pre) as P0 by (by apply Forall_app in P1 as [? _]).
    pose proof (feed_next read id fs Hfull pre r s (states_entry read id fs Hfull pre s Hs P0 P2) P1 P2) as H.
    destruct (feed read r _) as [o s']. destruct (part read id r); [|done]. rewrite decide_False in H by done. by destruct H.
  - pose proof (feed_next read id fs Hfull raws raw s (states_entry read id fs Hfull raws s Hs Hf1 Hn) Hf Hn) as H.
    destruct (feed read raw _) as [o s']. rewrite Hi in H. rewrite decide_True in H.
    + destruct H as [-> H]. split; [|done]. rewrite Hc. by apply base64_decode_encode.
    + apply (all_seen _ _ (seen_bound read id fs _ Hf)). intros j Hj. rewrite seen_snoc, Hi.
      destruct (decide (j = i)) as [->|Hne]; [by apply elem_of_union_l, elem_of_singleton|].
      apply elem_of_union_r, elem_of_list_to_set. by apply Hall.
Qed.

(** A reader for the witness: the raw message is [id index data]. *)
Definition sample_read (raw : str) : option Envelope :=
  match raw with
  | x :: n :: d => Some (MkEnvelope [x] (lit "partial_message") d (Some (Z.to_nat (byte_of n - 48))) (Some 2))
  | _ => None
  end.

Lemma fragments_assembled_witness :
  let raws := [lit "a1bG8="; lit "b0SG"; lit "?"; lit "a1bG8="] in
  let '(o, s') := feed sample_read (lit "a0SGVs") (states sample_read raws ∅) in
  o = Some (lit "Hello") ∧ s' !! lit "a" = None.
Proof.
  intros raws.
  apply (fragments_assembled sample_read (lit "a") [lit "SGVs"; lit "bG8="] (lit "Hello") raws (lit "a0SGVs") 0 ∅).
  - repeat constructor; discriminate.
  - vm_compute. reflexivity.
  - reflexivity.
  - unfold raws. cbn [app]. rewrite !Forall_cons, Forall_nil. split_and!; try exact I; unfold faithful; cbn; intros E;
      solve [discriminate E|split; [reflexivity|split; [reflexivity|eexists; split; reflexivity]]].
  - reflexivity.
  - change (omap (part sample_read (lit "a")) raws) with [1; 1]. set_solver.
  - change (omap (part sample_read (lit "a")) raws) with [1; 1]. cbn. intros j Hj Hne. assert (j = 1) as -> by lia. set_solver.
Defined.
