(* ===== verification/RealtimeStt.v ===== *)
(** * The streaming recogniser (src/src/stt/realtime_stt_client.hpp,
      realtime_stt_client.cpp, realtime_event_dispatch.hpp, .cpp)

    The client beside the threads that use it: the one in [start], the data
    channel's, the peer connection's, the audio worker's, the bus's. Each
    label is one critical section under [mu] with what its thread does until
    the next one, a send after the section included; a callback of the user,
    which is called after the mutex is released, is a label of its own
    ([Callback]).
    WebRTC and HTTP are the labels; the JSON readers and the resampler are
    parameters; event ids and clock readings come with the labels. Logging
    and the debug dump are left out. *)
From stdpp Require Import gmap.
From S2P Require Import Prelude Event Turn Envelope.
From S2P Require Wav.

(** ** Dispatch of the server's events *)

Record Readers := MkReaders {
  read_envelope : str → option Envelope;
  read_type : str → option str;
  read_delta : str → option (str * str);
  read_completed : str → option (str * str * option str);
  read_committed : str → option str;
  read_error : str → option (option str);
}.

(** Which of the callbacks are set. *)
Record EventCallbacks := MkCallbacks {
  has_partial : bool; has_final : bool; has_committed : bool; has_server_error : bool; has_session_updated : bool;
}.

Inductive ServerEvent :=
  | Partial (item_id delta : str)
  | Final (item_id transcript language : str)
  | Committed (item_id : str)
  | ServerError (message : str)
  | SessionUpdated.

Definition dispatch (rd : Readers) (inner_json : str) (cb : EventCallbacks) : option ServerEvent :=
  match read_type rd inner_json with
  | None => None
  | Some type =>
      if decide (type = lit "conversation.item.input_audio_transcription.delta") then
        if negb (has_partial cb) then None
        else match read_delta rd inner_json with
             | Some (x :: item_id, y :: delta) => Some (Partial (x :: item_id) (y :: delta))
             | _ => None
             end
      else if decide (type = lit "conversation.item.input_audio_transcription.completed") then
        if negb (has_final cb) then None
        else match read_completed rd inner_json with
             | Some (x :: item_id, transcript, language) => Some (Final (x :: item_id) transcript (default [] language))
             | _ => None
             end
      else if decide (type = lit "input_audio_buffer.committed") then
        if negb (has_committed cb) then None
        else match read_committed rd inner_json with
             | Some (x :: item_id) => Some (Committed (x :: item_id))
             | _ => None
             end
      else if decide (type = lit "session.updated") then if has_session_updated cb then Some SessionUpdated else None
      else if decide (type = lit "error") then
        if negb (has_server_error cb) then None
        else match read_error rd inner_json with
             | None => Some (ServerError (lit "<unparseable error event>"))
             | Some message => Some (ServerError (default (lit "<no message>") message))
             end
      else None
  end.

(** ** The base URL *)

Record ParsedUrl := MkUrl { host : str; port : Z; path_prefix : str; url_ok : bool }.

Definition is_digit (c : ascii) : bool := bool_decide (48 ≤ byte_of c ≤ 57)%Z.
Definition is_space (c : ascii) : bool := bool_decide (byte_of c = 32 ∨ 9 ≤ byte_of c ≤ 13)%Z.
Fixpoint skip_spaces (s : str) : str :=
  match s with c :: r => if is_space c then skip_spaces r else s | [] => [] end.
Fixpoint digits_value (acc : Z) (s : str) : Z :=
  match s with
  | c :: s => if is_digit c then digits_value (acc * 10 + (byte_of c - 48))%Z s else acc
  | [] => acc
  end.
(** [std::atoi], where the value fits an [int]. *)
Definition atoi (s : str) : Z :=
  match skip_spaces s with
  | c :: r =>
      if decide (c = "-"%char) then (- digits_value 0 r)%Z
      else if decide (c = "+"%char) then digits_value 0 r else digits_value 0 (c :: r)
  | [] => 0
  end.

Definition parse_base_url (url : str) : ParsedUrl :=
  let kPrefix := lit "http://" in
  if negb (starts_with kPrefix url) then MkUrl [] 0 [] false
  else
    let rest := drop (length kPrefix) url in
    let slash := str_find (lit "/") rest in
    let authority := take (default (length rest) slash) rest in
    let path := match slash with None => [] | Some p => drop p rest end in
    let colon := str_find (lit ":") authority in
    let h := match colon with None => authority | Some c => take c authority end in
    let p := match colon with None => 80%Z | Some c => atoi (drop (S c) authority) end in
    MkUrl h p path (negb (bool_decide (h = [])) && bool_decide (0 < p)%Z).

(** [Get]: the status the HTTP client has from host, port and path. *)
Definition probe (Get : str → Z → str → option Z) (base_url : str) : bool :=
  let p := parse_base_url base_url in
  url_ok p && match Get (host p) (port p) (lit "/health") with Some status => bool_decide (status = 200%Z) | None => false end.

(** ** The session update *)

Definition q (s : string) : str := quote ++ lit s ++ quote.
Definition field (k v : string) : str := q k ++ lit ":" ++ lit v.
Definition build_session_update_json (event_id model_id language : str) : str :=
  lit "{" ++ q "event_id" ++ lit ":" ++ quote ++ event_id ++ quote ++ lit "," ++ q "type" ++ lit ":" ++ q "session.update"
  ++ lit "," ++ q "session" ++ lit ":{" ++ q "modalities" ++ lit ":[" ++ q "text" ++ lit "]," ++ field "tools" "[],"
  ++ q "turn_detection" ++ lit ":{" ++ q "type" ++ lit ":" ++ q "server_vad" ++ lit ","
  ++ field "create_response" "false," ++ field "prefix_padding_ms" "0," ++ field "silence_duration_ms" "550,"
  ++ field "threshold" "1.0" ++ lit "}," ++ q "input_audio_transcription" ++ lit ":{" ++ q "model" ++ lit ":" ++ quote
  ++ model_id ++ (if decide (language = []) then [] else quote ++ lit "," ++ q "language" ++ lit ":" ++ quote ++ language)
  ++ quote ++ lit "}}}".

(** ** The client *)

Inductive State := Idle | Connecting | Configuring | Ready | Failed | Closed.
Inductive PcState := PcNew | PcConnecting | PcConnected | PcDisconnected | PcFailed | PcClosed.
#[global] Instance State_eq_dec : EqDecision State.
Proof. solve_decision. Defined.
#[global] Instance PcState_eq_dec : EqDecision PcState.
Proof. solve_decision. Defined.

(** [UtteranceCallbacks]: which object they are, and which are set. *)
Record UtteranceCallbacks := MkUtterance { cb_id : nat; cb_partial : bool; cb_final : bool; cb_error : bool }.
#[global] Instance UtteranceCallbacks_eq_dec : EqDecision UtteranceCallbacks.
Proof. solve_decision. Defined.
Definition no_callbacks : UtteranceCallbacks := MkUtterance 0 false false false.

(** What the thread in [start] is about to do. *)
Inductive Wait := WIce | WPeer | WChannel | WSession.
Inductive Starter :=
  | NotStarted
  | Building
  | Waiting (w : Wait)
  | Checking (w : Wait)
  | Posting
  | Configure
  | Sending
  | Failing
  | Returned (r : bool).

Inductive Out :=
  | OnPartial (cb : nat) (e : Event)
  | OnFinal (cb : nat) (e : Event)
  | OnError (cb : nat) (message : str)
  | Began (turn : TurnId) (cb : UtteranceCallbacks)     (** not an effect: marks an utterance that was accepted *)
  | Rejected (cb : nat)                                 (** [on_error] of one that was not *)
  | Send (json : str)
  | PcClose.

Section client.
Context {R : Type}.
Variable resampler_new : R.
Variable process : list Z → R → list Z * R.
Variable flush : R → list Z.
Variable rd : Readers.
Variables (cfg_base_url cfg_model cfg_language : str).

Record client := MkClient {
  reassembler_ : reassembler;
  tokens : Turns;
  state_ : State;
  ice_gathered : bool;
  channel_open : bool;
  pc_state : PcState;
  has_pc : bool;
  active_turn : TurnId;
  active_cancel : token_ptr;
  active_cb : UtteranceCallbacks;
  active : bool;
  active_item_id : str;
  partial_text : str;
  partial_seq : SequenceNo;
  utterance_start : Z;
  resampler : option R;
  starter : Starter;
  calling : option Out;   (** what the channel's thread calls next, the mutex released *)
}.
#[local] Instance eta_client : Eta client := λ s,
  MkClient (reassembler_ s) (tokens s) (state_ s) (ice_gathered s) (channel_open s) (pc_state s) (has_pc s) (active_turn s)
    (active_cancel s) (active_cb s) (active s) (active_item_id s) (partial_text s) (partial_seq s) (utterance_start s)
    (resampler s) (starter s) (calling s).

Definition client_new (w : Turns) : client :=
  MkClient ∅ w Idle false false PcNew false kNoTurn None no_callbacks false [] [] 0 0 None NotStarted None.

Definition clear_active_locked (s : client) : client :=
  s <| active := false |> <| active_turn := kNoTurn |> <| active_item_id := [] |> <| partial_text := [] |>
    <| partial_seq := 0%Z |> <| active_cb := no_callbacks |> <| active_cancel := None |> <| resampler := None |>.

Definition cancelled (s : client) : bool :=
  match active_cancel s with Some p => token_cancelled p (tokens s) | None => false end.

(** The callbacks of the dispatcher, up to the release of the mutex; what they
    copied out of the client to call is in [calling]. *)
Definition on_server (now : Z) (e : ServerEvent) (s : client) : client :=
  match e with
  | SessionUpdated => if decide (state_ s = Configuring) then s <| state_ := Ready |> else s
  | Committed item_id => if active s then s <| active_item_id := item_id |> else s
  | Partial item_id delta =>
      if negb (active s) || negb (bool_decide (item_id = active_item_id s)) then s
      else if cancelled s then s
      else
        let s := s <| partial_text ::= λ t, t ++ delta |> <| partial_seq ::= λ n, u32 (n + 1) |> in
        let ev := PartialTranscript (active_turn s) (partial_text s) [] (length (partial_text s)) (partial_seq s) (Some 0%Q) in
        s <| calling := if cb_partial (active_cb s) then Some (OnPartial (cb_id (active_cb s)) ev) else None |>
  | Final item_id transcript language =>
      if negb (active s) || negb (bool_decide (item_id = active_item_id s)) then s
      else if cancelled s then clear_active_locked s
      else
        let lang := if decide (language = []) then cfg_language else language in
        let ev := FinalTranscript (active_turn s) transcript lang (Some 0%Q) 0 (now - utterance_start s) in
        let user_cb := if cb_final (active_cb s) then Some (OnFinal (cb_id (active_cb s)) ev) else None in
        clear_active_locked s <| calling := user_cb |>
  | ServerError message =>
      if active s then
        let user_cb := if cb_error (active_cb s) then Some (OnError (cb_id (active_cb s)) message) else None in
        clear_active_locked s <| calling := user_cb |>
      else s
  end.

Definition all_callbacks : EventCallbacks := MkCallbacks true true true true true.

(** [dc->onMessage] with a string. *)
Definition on_message (now : Z) (raw : str) (s : client) : client :=
  let '(inner, r) := feed (read_envelope rd) raw (reassembler_ s) in
  let s := s <| reassembler_ := r |> in
  match inner with
  | None => s
  | Some json => match dispatch rd json all_callbacks with None => s | Some e => on_server now e s end
  end.

(** The callback of the user. *)
Definition user_callback (s : client) : client * list Out :=
  match calling s with Some o => (s <| calling := None |>, [o]) | None => (s, []) end.

Definition on_gathering_complete (s : client) : client := s <| ice_gathered := true |>.
Definition on_open (s : client) : client := s <| channel_open := true |>.
Definition on_pc_state (p : PcState) (s : client) : client :=
  let s := s <| pc_state := p |> in
  if decide ((p = PcFailed ∨ p = PcClosed ∨ p = PcDisconnected) ∧ state_ s ≠ Ready ∧ state_ s ≠ Closed)
  then s <| state_ := Failed |> else s.

(** The predicate of each wait. *)
Definition ready (w : Wait) (s : client) : bool :=
  match w with
  | WIce => ice_gathered s
  | WPeer => bool_decide (pc_state s = PcConnected)
  | WChannel => channel_open s
  | WSession => bool_decide (state_ s = Ready)
  end || bool_decide (state_ s = Failed).

(** One step of the thread in [start]. [expired]: the deadline has passed;
    [post_ok]: there was a local description, the URL parsed and the server
    answered with a description. *)
Definition start_step (event_id : str) (expired post_ok : bool) (s : client) : client * list Out :=
  match starter s with
  | NotStarted =>
      if decide (state_ s ≠ Idle) then (s <| starter := Returned false |>, [])
      else (s <| state_ := Connecting |> <| starter := Building |>, [])
  | Building => (s <| has_pc := true |> <| starter := Waiting WIce |>, [])
  | Waiting w =>
      if ready w s then (s <| starter := Checking w |>, [])
      else if expired then (s <| starter := Failing |>, [])
      else (s, [])
  | Checking WSession => (s <| starter := Returned (bool_decide (state_ s = Ready)) |>, [])
  | Checking w =>
      if decide (state_ s = Failed) then (s <| starter := Returned false |>, [])
      else
        (s <| starter := match w with WIce => Posting | WPeer => Waiting WChannel | _ => Configure end |>, [])
  | Posting =>
      (s <| starter := if post_ok && url_ok (parse_base_url cfg_base_url) then Waiting WPeer else Failing |>, [])
  | Configure => (s <| state_ := Configuring |> <| starter := Sending |>, [])
  | Sending => (s <| starter := Waiting WSession |>, [Send (build_session_update_json event_id cfg_model cfg_language)])
  | Failing => (s <| state_ := Failed |> <| starter := Returned false |>, [])
  | Returned _ => (s, [])
  end.

Definition stop (s : client) : client * list Out :=
  if decide (state_ s = Idle ∨ state_ s = Closed) then (s, [])
  else (clear_active_locked (s <| state_ := Closed |>), if has_pc s then [PcClose] else []).

Definition begin_utterance (event_id : str) (now : Z) (turn : TurnId) (cancel : token_ptr) (cb : UtteranceCallbacks)
    (s : client) : client * list Out :=
  if decide (state_ s ≠ Ready) then (s, if cb_error cb then [Rejected (cb_id cb)] else [])
  else
    let s := clear_active_locked s in
    let s := s <| active := true |> <| active_turn := turn |> <| active_cancel := cancel |> <| active_cb := cb |>
               <| utterance_start := now |> <| resampler := Some resampler_new |> in
    (s, Began turn cb :: if has_pc s then [Send (build_simple_event_json event_id (lit "input_audio_buffer.clear"))] else []).

(** The bytes of the samples, as [reinterpret_cast] sees them. *)
Definition pcm_bytes (samples : list Z) : str := map of_byte (Wav.raw samples).
Definition append_json (event_id : str) (samples : list Z) : str :=
  build_input_audio_buffer_append_json event_id (base64_encode (pcm_bytes samples)).

Definition push_audio (event_id : str) (samples_16k : list Z) (s : client) : client * list Out :=
  match active s, resampler s with
  | true, Some r =>
      if cancelled s then (s, [])
      else
        let '(resampled, r) := process samples_16k r in
        let s := s <| resampler := Some r |> in
        (s, if bool_decide (resampled = []) || negb (has_pc s) then [] else [Send (append_json event_id resampled)])
  | _, _ => (s, [])
  end.

Definition end_utterance (id1 id2 : str) (s : client) : client * list Out :=
  match active s, resampler s with
  | true, Some r =>
      let tail := flush r in
      let s := s <| resampler := None |> in
      (s, if negb (has_pc s) then []
          else (if decide (tail = []) then [] else [Send (append_json id1 tail)]) ++
               [Send (build_simple_event_json id2 (lit "input_audio_buffer.commit"))])
  | _, _ => (s, [])
  end.

Inductive Label :=
  | Message (now : Z) (raw : str)
  | Callback
  | Gathered
  | Opened
  | Peer (p : PcState)
  | Start (event_id : str) (expired post_ok : bool)
  | Stop
  | Begin (event_id : str) (now : Z) (turn : TurnId) (cancel : token_ptr) (cb : UtteranceCallbacks)
  | Push (event_id : str) (samples : list Z)
  | End_ (id1 id2 : str)
  | Cancel (p : token_ptr).

(** The connection's threads come with the connection; the messages of a
    channel come one after another, the next when the one before is dealt
    with, its callback included. *)
Definition step (l : Label) (s : client) : client * list Out :=
  match l with
  | Message now raw =>
      (match calling s with None => if has_pc s then on_message now raw s else s | Some _ => s end, [])
  | Callback => user_callback s
  | Gathered => (if has_pc s then on_gathering_complete s else s, [])
  | Opened => (if has_pc s then on_open s else s, [])
  | Peer p => (if has_pc s then on_pc_state p s else s, [])
  | Start e x o => start_step e x o s
  | Stop => stop s
  | Begin e now turn cancel cb => begin_utterance e now turn cancel cb s
  | Push e samples => push_audio e samples s
  | End_ a b => end_utterance a b s
  | Cancel p => (s <| tokens ::= cancel_token p |>, [])
  end.
Fixpoint run (ls : list Label) (s : client) : client * list Out :=
  match ls with
  | [] => (s, [])
  | l :: ls => let '(s, o1) := step l s in let '(s, o2) := run ls s in (s, o1 ++ o2)
  end.

(** ** Specification *)

(** An utterance as its user sees it: the text and number of the last
    partial transcript. *)
Record Utt := MkUtt { u_turn : TurnId; u_cb : UtteranceCallbacks; u_text : str; u_seq : SequenceNo }.

(** What an utterance may see next: numbered partial transcripts, each of
    which extends the one before, then one final transcript or one error at
    most ([Some None]); all for its turn and through its callbacks. *)
Definition check (u : Utt) (o : Out) : option (option Utt) :=
  match o with
  | OnPartial cb (PartialTranscript turn text _ len seq _) =>
      if decide (cb = cb_id (u_cb u) ∧ turn = u_turn u ∧ u_text u `prefix_of` text ∧ len = length text ∧ seq = u32 (u_seq u + 1))
      then Some (Some (MkUtt turn (u_cb u) text seq)) else None
  | OnFinal cb (FinalTranscript turn _ _ _ _ _) =>
      if decide (cb = cb_id (u_cb u) ∧ turn = u_turn u) then Some None else None
  | OnError cb _ => if decide (cb = cb_id (u_cb u)) then Some None else None
  | _ => None
  end.
Definition is_callback (o : Out) : bool := match o with OnPartial _ _ | OnFinal _ _ | OnError _ _ => true | _ => false end.

(** What the users know: the utterance that is open, and those which another
    one or [stop] ended since the last callback. *)
Record View := MkView { v_open : option Utt; v_late : list Utt }.
Definition superseded (v : View) : list Utt := option_list (v_open v) ++ v_late v.

(** The contract of the callbacks. A callback is for the open utterance, and
    then none for an older one follows; or it is the one callback that was
    under way when its utterance was ended. *)
Inductive sees : View → Out → View → Prop :=
  | sees_began v turn cb : sees v (Began turn cb) (MkView (Some (MkUtt turn cb [] 0)) (superseded v))
  | sees_stop v : sees v PcClose (MkView None (superseded v))
  | sees_open u l o u' : check u o = Some u' → sees (MkView (Some u) l) o (MkView u' [])
  | sees_late c l u o u' : u ∈ l → check u o = Some u' → sees (MkView c l) o (MkView c [])
  | sees_rejected v cb : sees v (Rejected cb) v
  | sees_sent v j : sees v (Send j) v.
Inductive follows : View → list Out → View → Prop :=
  | follows_nil v : follows v [] v
  | follows_cons v o v1 os v2 : sees v o v1 → follows v1 os v2 → follows v (o :: os) v2.

(** The client's open utterance is the one its user knows of. *)
Definition open_inv (cur : option Utt) (s : client) : Prop :=
  active s = true → ∃ u, cur = Some u ∧ u_turn u = active_turn s ∧ u_cb u = active_cb s ∧
    (cb_partial (active_cb s) = true → u_text u = partial_text s ∧ u_seq u = partial_seq s).
(** A callback under way is one its utterance may see. *)
Definition view_inv (v : View) (s : client) : Prop :=
  match calling s with
  | None => open_inv (v_open v) s
  | Some o => ∃ u u', check u o = Some u' ∧
      (v_open v = Some u ∧ open_inv u' s ∨ u ∈ v_late v ∧ open_inv (v_open v) s)
  end.

(** ** Lemmas *)

#[local] Arguments build_simple_event_json : simpl never.
#[local] Arguments append_json : simpl never.
#[local] Arguments base64_decode : simpl never.
#[local] Arguments base64_encode : simpl never.

Lemma follows_app v os1 v1 os2 v2 : follows v os1 v1 → follows v1 os2 v2 → follows v (os1 ++ os2) v2.
Proof. induction 1; [done|]. intros Hf. econstructor; [done|]. auto. Qed.

Lemma follows_sends v os : Forall (λ o, ∃ j, o = Send j) os → follows v os v.
Proof. induction 1 as [|o os [j ->] _ IH]; econstructor; [constructor|done]. Qed.

Lemma open_same cur s s' :
  open_inv cur s → (active s' = true → active s = true ∧ active_turn s' = active_turn s ∧ active_cb s' = active_cb s ∧
    partial_text s' = partial_text s ∧ partial_seq s' = partial_seq s) → open_inv cur s'.
Proof.
  intros H He Ha. destruct (He Ha) as (Ha0 & E1 & E2 & E3 & E4). destruct (H Ha0) as (u & -> & U1 & U2 & U3).
  exists u. rewrite E1, E2, E3, E4. done.
Qed.

Lemma view_same v s s' :
  view_inv v s → calling s' = calling s →
  (active s' = true → active s = true ∧ active_turn s' = active_turn s ∧ active_cb s' = active_cb s ∧
    partial_text s' = partial_text s ∧ partial_seq s' = partial_seq s) → view_inv v s'.
Proof.
  unfold view_inv. intros H -> He. destruct (calling s) as [o|]; [|by apply (open_same _ s)].
  destruct H as (u & u' & Hc & H). exists u, u'. split; [done|].
  destruct H as [[? H]|[? H]]; [left|right]; (split; [done|]); by apply (open_same _ s).
Qed.

Lemma view_ended v s s' :
  view_inv v s → calling s' = calling s → ∀ c, open_inv c s' → view_inv (MkView c (superseded v)) s'.
Proof.
  unfold view_inv. intros H -> c Hc. destruct (calling s) as [o|]; [|done]. destruct H as (u & u' & Ho & H).
  exists u, u'. split; [done|]. right. split; [|done]. unfold superseded. cbn.
  destruct H as [[-> _]|[? _]]; set_solver.
Qed.

Lemma server_view now e s v :
  calling s = None → view_inv v s → view_inv v (on_server now e s).
Proof.
  intros Hn Hv. assert (open_inv (v_open v) s) as H by (unfold view_inv in Hv; by rewrite Hn in Hv).
  destruct e as [item delta|item text lang|item|msg|]; cbn [on_server].
  - destruct (active s) eqn:Ha; cbn [negb orb]; [|done]. destruct (bool_decide _); cbn [negb]; [|done].
    destruct (cancelled s); [done|]. destruct (H Ha) as (u & Eu & U1 & U2 & U3). unfold view_inv. cbn.
    destruct (cb_partial (active_cb s)) eqn:Ep.
    + destruct (U3 eq_refl) as [E1 E2]. exists u. eexists. split.
      { cbn. apply decide_True. rewrite U2, E1, E2. split_and!; try done. by eexists. }
      left. split; [done|]. intros _. eexists. split; [done|]. cbn. by rewrite U2.
    + rewrite Eu. intros _. exists u. cbn. rewrite Ep. done.
  - destruct (active s) eqn:Ha; cbn [negb orb]; [|done]. destruct (bool_decide _); cbn [negb]; [|done].
    destruct (cancelled s); [apply (view_same _ s); done|]. destruct (H Ha) as (u & Eu & U1 & U2 & U3). unfold view_inv. cbn.
    destruct (cb_final (active_cb s)); [|done]. exists u. eexists. cbn. rewrite U1, U2, decide_True by done.
    split; [done|]. by left.
  - destruct (active s) eqn:Ha; [|done]. apply (view_same _ s); done.
  - destruct (active s) eqn:Ha; [|done]. destruct (H Ha) as (u & Eu & U1 & U2 & U3). unfold view_inv. cbn.
    destruct (cb_error (active_cb s)); [|done]. exists u. eexists. cbn. rewrite U2, decide_True by done.
    split; [done|]. by left.
  - destruct (decide _); [|done]. by apply (view_same _ s).
Qed.

Lemma callback_view s v :
  view_inv v s → let '(s', os) := user_callback s in ∃ v', follows v os v' ∧ view_inv v' s'.
Proof.
  unfold user_callback. intros H. destruct (calling s) as [o|] eqn:E; [|by exists v; split; [constructor|]].
  unfold view_inv in H. rewrite E in H. destruct v as [c l], H as (u & u' & Ho & [[Hc H]|[Hl H]]); cbn in *; subst.
  - exists (MkView u' []). split; [|by apply (open_same _ s)]. econstructor; [by apply sees_open|constructor].
  - exists (MkView c []). split; [|by apply (open_same _ s)]. econstructor; [by eapply sees_late|constructor].
Qed.

Lemma start_frame event_id x p s :
  let r := start_step event_id x p s in
  calling r.1 = calling s ∧
  (active r.1 = true → active s = true ∧ active_turn r.1 = active_turn s ∧ active_cb r.1 = active_cb s ∧
    partial_text r.1 = partial_text s ∧ partial_seq r.1 = partial_seq s) ∧
  Forall (λ o, ∃ j, o = Send j) r.2.
Proof.
  unfold start_step. destruct (starter s) as [| |w|w| | | | |]; repeat case_match; (split; [done|]); (split; [done|]);
    repeat constructor; by eexists.
Qed.

Lemma stt_step_follows l s v :
  view_inv v s → let '(s', os) := step l s in ∃ v', follows v os v' ∧ view_inv v' s'.
Proof.
  intros H. assert (∀ s' os, view_inv v s' → Forall (λ o, ∃ j, o = Send j) os → ∃ v', follows v os v' ∧ view_inv v' s') as Hsame.
  { intros s' os Hv Hos. exists v. split; [by apply follows_sends|done]. }
  destruct l; cbn [step].
  - apply Hsame; [|done]. destruct (calling s) eqn:Hc; [done|]. destruct (has_pc s); [|done].
    unfold on_message. destruct (feed _ _ _) as [inner r].
    assert (view_inv v (s <| reassembler_ := r |>)) as H' by (by apply (view_same v s)).
    destruct inner as [json|]; [|done]. destruct (dispatch _ _ _); [|done]. by apply server_view.
  - by apply callback_view.
  - apply Hsame; [|done]. destruct (has_pc s); [|done]. by apply (view_same v s).
  - apply Hsame; [|done]. destruct (has_pc s); [|done]. by apply (view_same v s).
  - apply Hsame; [|done]. destruct (has_pc s); [|done]. unfold on_pc_state. destruct (decide _); by apply (view_same v s).
  - destruct (start_frame event_id expired post_ok s) as (Hc & Hf & Ho). destruct (start_step _ _ _ s) as [s' o].
    apply Hsame; [by apply (view_same v s)|done].
  - unfold stop. destruct (decide _); [by apply Hsame|]. destruct (has_pc s).
    + exists (MkView None (superseded v)). split; [econstructor; [constructor|constructor]|]. by apply (view_ended v s).
    + apply Hsame; [|done]. by apply (view_same v s).
  - unfold begin_utterance. destruct (decide _).
    { destruct (cb_error cb); [|by apply Hsame]. exists v. split; [econstructor; [constructor|constructor]|done]. }
    eexists. split.
    { econstructor; [constructor|]. apply follows_sends. destruct (has_pc _); repeat constructor. by eexists. }
    apply (view_ended v s); [done..|]. intros _. by eexists.
  - unfold push_audio. destruct (active s) eqn:Ha; [|by apply Hsame]. destruct (resampler s); [|by apply Hsame].
    destruct (cancelled s); [by apply Hsame|]. destruct (process _ _) as [x r'].
    apply Hsame; [by apply (view_same v s)|]. destruct (_ || _); repeat constructor. by eexists.
  - unfold end_utterance. destruct (active s) eqn:Ha; [|by apply Hsame]. destruct (resampler s); [|by apply Hsame].
    apply Hsame; [by apply (view_same v s)|]. destruct (negb _); [done|].
    destruct (decide _); repeat constructor; by eexists.
  - apply Hsame; [by apply (view_same v s)|done].
Qed.

Lemma stt_run_follows ls s v :
  view_inv v s → let '(s', os) := run ls s in ∃ v', follows v os v' ∧ view_inv v' s'.
Proof.
  revert s v. induction ls as [|l ls IH]; intros s v H; cbn [run]; [exists v; split; [constructor|done]|].
  pose proof (stt_step_follows l s v H) as Hs. destruct (step l s) as [s1 o1]. destruct Hs as (v1 & F1 & I1).
  specialize (IH s1 v1 I1). destruct (run ls s1) as [s2 o2]. destruct IH as (v2 & F2 & I2).
  exists v2. split; [by eapply follows_app|done].
Qed.

(** The life of the session: the arrows of the documented diagram, and
    [stop] from any state after [Idle]. *)
Definition documented (a b : State) : Prop :=
  match a, b with
  | Idle, Connecting | Connecting, Configuring | Configuring, Ready
  | Connecting, Failed | Configuring, Failed => True
  | Idle, Closed => False
  | _, Closed => True
  | _, _ => False
  end.

(** Where [state_] can be while the thread in [start] is at a point. *)
Definition phase_ok (s : client) : Prop :=
  (has_pc s = true → state_ s ≠ Idle) ∧
  match starter s with
  | NotStarted => state_ s = Idle
  | Building | Posting | Configure | Waiting (WIce | WPeer | WChannel) | Checking (WIce | WPeer | WChannel) =>
      state_ s = Connecting ∨ state_ s = Failed ∨ state_ s = Closed
  | Checking WSession => state_ s = Ready ∨ state_ s = Failed ∨ state_ s = Closed
  | Sending | Waiting WSession =>
      state_ s = Configuring ∨ state_ s = Ready ∨ state_ s = Failed ∨ state_ s = Closed
  | Failing => state_ s ≠ Idle
  | Returned true => state_ s = Ready ∨ state_ s = Closed
  | Returned false => state_ s = Failed ∨ state_ s = Closed
  end.

(** What a step does to the state. *)
Definition overwrites (l : Label) (s s' : client) : Prop :=
  match l with
  | Start _ _ _ =>
      starter s = Configure ∧ (state_ s = Failed ∨ state_ s = Closed) ∧ state_ s' = Configuring ∨
      starter s = Failing ∧ (state_ s = Ready ∨ state_ s = Closed) ∧ state_ s' = Failed
  | _ => False
  end.
Definition moves (l : Label) (s s' : client) : Prop :=
  state_ s' = state_ s ∨ documented (state_ s) (state_ s') ∨ overwrites l s s'.

Lemma server_state now e s :
  let s' := on_server now e s in
  starter s' = starter s ∧ has_pc s' = has_pc s ∧
  (state_ s' = state_ s ∨ state_ s = Configuring ∧ state_ s' = Ready).
Proof.
  destruct e; cbn [on_server]; repeat case_match; cbn; split_and!; first [done|by left|by right].
Qed.

Lemma phase_frame l s s' :
  phase_ok s → starter s' = starter s → has_pc s' = has_pc s →
  (state_ s' = state_ s ∨ state_ s = Configuring ∧ state_ s' = Ready ∨
   (state_ s ≠ Idle ∧ state_ s ≠ Ready ∧ state_ s ≠ Closed ∧ state_ s' = Failed) ∨ (state_ s ≠ Idle ∧ state_ s' = Closed)) →
  (∀ r, starter s = Returned r → state_ s' = state_ s ∨ state_ s' = Closed) →
  phase_ok s' ∧ moves l s s'.
Proof.
  intros [H1 H2] E1 E2 Hm Hr. unfold phase_ok, moves. rewrite E1, E2.
  destruct Hm as [E|[(A & E)|[(A & B & C & E)|(A & E)]]]; rewrite E.
  - by split; [|left].
  - rewrite A in *. split; [|right; by left]. split; [done|].
    destruct (starter s) as [| |[]|[]| | | | |[]]; try (destruct (Hr _ eq_refl)); intuition congruence.
  - split; [|destruct (state_ s); cbn; tauto]. split; [done|].
    destruct (starter s) as [| |[]|[]| | | | |[]]; try (destruct (Hr _ eq_refl)); intuition congruence.
  - split; [|destruct (state_ s); cbn; tauto]. split; [done|].
    destruct (starter s) as [| |[]|[]| | | | |[]]; try (destruct (Hr _ eq_refl)); intuition congruence.
Qed.

Lemma start_moves e x p s :
  phase_ok s → let s' := (start_step e x p s).1 in phase_ok s' ∧ moves (Start e x p) s s'.
Proof.
  intros [H1 H2]. unfold start_step, phase_ok, moves, overwrites. destruct (starter s) as [| |w|w| | | | |r] eqn:Est.
  - rewrite H2, decide_False by (intros Hx; by apply Hx). cbn. split; [|tauto]. split; [done|tauto].
  - cbn. split; [|tauto]. split; [|tauto]. intros _. by destruct H2 as [->|[->| ->]].
  - destruct (ready w s) eqn:Er; [|destruct x]; cbn; try (rewrite Est); (split; [|tauto]); (split; [done|]).
    + destruct w; try done. unfold ready in Er. apply orb_true_iff in Er as [Er|Er]; apply bool_decide_eq_true in Er; tauto.
    + destruct w; intuition congruence.
    + destruct w; done.
  - destruct w; (destruct (decide (state_ s = Failed)) as [Ef|Ef]); cbn;
      try (rewrite Ef); (split; [|tauto]); (split; [by rewrite <- ?Ef|]); try tauto; try done.
    all: try (case_bool_decide; intuition congruence).
  - destruct (_ && _); cbn; (split; [|tauto]); (split; [done|]); [done|]. by destruct H2 as [->|[->| ->]].
  - cbn. split; [split; [done|tauto]|]. destruct H2 as [->|[->| ->]]; cbn; tauto.
  - cbn. split; [split; [done|]|tauto]. done.
  - cbn. split; [split; [done|tauto]|]. destruct (state_ s); cbn; try tauto. all: done.
  - cbn. rewrite Est. tauto.
Qed.

Lemma step_moves l s : phase_ok s → phase_ok (step l s).1 ∧ moves l s (step l s).1.
Proof.
  intros H. assert (∀ s', starter s' = starter s → has_pc s' = has_pc s → state_ s' = state_ s → phase_ok s' ∧ moves l s s') as Hsame.
  { intros s' E1 E2 E3. apply phase_frame; try done; [by left|]. intros r _. by left. }
  destruct l as [now raw| | | |p|e x o| |e now turn c cb|e samples|a b|p]; cbn [step].
  - cbn [fst]. destruct (calling s) in |- *; [by apply Hsame|]. destruct (has_pc s) as [] eqn:Hp in |- *; [|by apply Hsame]. unfold on_message. destruct (feed _ _ _) as [inner r].
    destruct inner as [json|]; [|by apply Hsame]. destruct (dispatch _ _ _) as [ev|]; [|by apply Hsame].
    destruct (server_state now ev (s <| reassembler_ := r |>)) as (E1 & E2 & E3). apply phase_frame; try done.
    + destruct E3 as [E3|E3]; [by left|by right; left].
    + intros b Hb. destruct E3 as [E3|[E3 E4]]; [by left|]. destruct H as [_ H]. rewrite Hb in H.
      change (state_ (s <| reassembler_ := r |>)) with (state_ s) in E3. destruct b; intuition congruence.
  - unfold user_callback. destruct (calling s); by apply Hsame.
  - destruct (has_pc s) in |- *; by apply Hsame.
  - destruct (has_pc s) in |- *; by apply Hsame.
  - destruct (has_pc s) as [] eqn:Hp in |- *; [|by apply Hsame]. unfold on_pc_state. cbn [fst]. destruct (decide _) as [[_ [N1 N2]]|]; [|by apply Hsame].
    pose proof H as [Hn Hph]. apply phase_frame; try done.
    + right; right; left. split_and!; try done. by apply Hn.
    + intros b Hb. rewrite Hb in Hph. left. destruct b; cbn in *; intuition congruence.
  - by apply start_moves.
  - unfold stop. destruct (decide _) as [|N]; [by apply Hsame|]. apply phase_frame; try done; [|intros r _; by right].
    right; right; right. split; [|done]. intros E. apply N. by left.
  - unfold begin_utterance. destruct (decide _); by apply Hsame.
  - unfold push_audio. destruct (active s); [|by apply Hsame]. destruct (resampler s); [|by apply Hsame].
    destruct (cancelled s); [by apply Hsame|]. destruct (process _ _). by apply Hsame.
  - unfold end_utterance. destruct (active s); [|by apply Hsame]. destruct (resampler s); by apply Hsame.
  - by apply Hsame.
Qed.

Lemma run_phase ls s : phase_ok s → phase_ok (run ls s).1.
Proof.
  revert s. induction ls as [|l ls IH]; intros s H; cbn [run]; [done|].
  pose proof (step_moves l s H) as [H1 _]. destruct (step l s) as [s1 o1]. specialize (IH s1 H1).
  by destruct (run ls s1) as [s2 o2].
Qed.

(** The audio of an utterance as the resampler gives it. *)
Fixpoint resample (r : R) (chunks : list (list Z)) : list (list Z) * R :=
  match chunks with
  | [] => ([], r)
  | c :: chunks =>
      let '(out, r) := process c r in
      let '(outs, r) := resample r chunks in (out :: outs, r)
  end.
Definition resampled (chunks : list (list Z)) : list (list Z) :=
  let '(outs, r) := resample resampler_new chunks in outs ++ [flush r].

Definition appends (event_id : str) (pieces : list (list Z)) : list Out :=
  flat_map (λ x, if decide (x = []) then [] else [Send (append_json event_id x)]) pieces.

Lemma pushes_out e chunks s r :
  active s = true → resampler s = Some r → cancelled s = false → has_pc s = true →
  run (map (Push e) chunks) s =
  (s <| resampler := Some (resample r chunks).2 |>, appends e (resample r chunks).1).
Proof.
  revert s r. induction chunks as [|c chunks IH]; intros s r Ha Hr Hc Hp; cbn [map run resample].
  - cbn. f_equal. destruct s. cbn in *. by subst.
  - cbn [step]. unfold push_audio. rewrite Ha, Hr, Hc. destruct (process c r) as [out r1].
    rewrite (IH (s <| resampler := Some r1 |>) r1) by done. destruct (resample r1 chunks) as [outs r2]. cbn [fst snd].
    change (has_pc (s <| resampler := Some r1 |>)) with (has_pc s). rewrite Hp. unfold appends. cbn [flat_map]. f_equal. f_equal.
    rewrite orb_false_r. destruct (decide (out = [])) as [->|N]; [by rewrite bool_decide_eq_true_2|by rewrite bool_decide_eq_false_2].
Qed.

Lemma run_app_stt ls1 ls2 s :
  run (ls1 ++ ls2) s = let '(s1, o1) := run ls1 s in let '(s2, o2) := run ls2 s1 in (s2, o1 ++ o2).
Proof.
  revert s. induction ls1 as [|l ls1 IH]; intros s; cbn [run app]; [by destruct (run ls2 s)|].
  destruct (step l s) as [s1 o1]. rewrite IH. destruct (run ls1 s1) as [s2 o2]. destruct (run ls2 s2) as [s3 o3].
  by rewrite app_assoc.
Qed.

(** The payloads are Base64 of the little-endian samples. *)
Lemma payload_samples x :
  Forall (λ v, - 2 ^ 15 ≤ v < 2 ^ 15)%Z x →
  Wav.unraw <$> (map byte_of <$> base64_decode (base64_encode (pcm_bytes x))) = Some x.
Proof.
  intros Hx. rewrite base64_decode_encode. cbn. f_equal. unfold pcm_bytes. rewrite map_map.
  rewrite <- (Wav.unraw_raw x Hx) at 2. f_equal. rewrite <- (map_id (Wav.raw x)) at 2. apply map_ext_in.
  intros b (v & _ & Hb)%in_flat_map. rewrite byte_of_byte. apply Z.mod_small. unfold Wav.u16le, Wav.byte_at in Hb.
  autorewrite with words in Hb. destruct Hb as [<-|[<-|[]]]; by apply Z.mod_pos_bound.
Qed.

Lemma full_message now raw id j e s :
  has_pc s = true → calling s = None → read_envelope rd raw = Some (MkEnvelope id (lit "full_message") (base64_encode j) None None) →
  dispatch rd j all_callbacks = Some e → step (Message now raw) s = (on_server now e s, []).
Proof.
  intros Hp Hc Hr Hd. cbn [step]. rewrite Hc, Hp. unfold on_message, feed. rewrite Hr. unfold feed_env. cbn [type_ data].
  rewrite decide_True by done. rewrite base64_decode_encode, Hd. by destruct s.
Qed.

Lemma push_inactive e chunk s : active s = false → step (Push e chunk) s = (s, []).
Proof. intros E. cbn [step]. unfold push_audio. by rewrite E. Qed.

Lemma user_callback_pending s o : calling s = Some o → user_callback s = (s <| calling := None |>, [o]).
Proof. intros E. unfold user_callback. by rewrite E. Qed.

Definition live (c : token_ptr) (w : Turns) : Prop := match c with Some p => token_cancelled p w = false | None => True end.

Lemma begin_open e now turn c cb s :
  state_ s = Ready → has_pc s = true → live c (tokens s) →
  ∃ s', begin_utterance e now turn c cb s =
    (s', [Began turn cb; Send (build_simple_event_json e (lit "input_audio_buffer.clear"))]) ∧
  active s' = true ∧ active_turn s' = turn ∧ active_cb s' = cb ∧ resampler s' = Some resampler_new ∧
  utterance_start s' = now ∧ cancelled s' = false ∧ has_pc s' = true ∧ state_ s' = Ready ∧ calling s' = calling s.
Proof.
  intros Hst Hp Hc. unfold begin_utterance. rewrite decide_False by (intros N; by apply N).
  cbn. rewrite Hp. eexists. split; [reflexivity|]. split_and!; try done. unfold cancelled. cbn. by destruct c.
Qed.

(** ** Properties *)

(** [C31] The contract of the callbacks, whatever the order in which the
    server's messages, the thread in [start], the audio worker, the bus, a
    cancellation, [stop] and the calls of the callbacks themselves, which are
    made after the mutex is released, come: each utterance sees numbered
    partial transcripts that extend one another, then at most one final
    transcript or error, and nothing after it; what it sees is for its own
    turn, through its own callbacks. After the next utterance began, or after
    [stop], at most one callback of an utterance that was ended still comes,
    before any of the next: the one that was under way. *)
Theorem utterance_protocol w ls : ∃ v, follows (MkView None []) (run ls (client_new w)).2 v.
Proof.
  pose proof (stt_run_follows ls (client_new w) (MkView None []) ltac:(intros H; done)) as H. destruct (run ls _) as [s os].
  destruct H as (v & F & _). by exists v.
Qed.

(** The life of the session. In every reachable state every step keeps
    the state of the session, or follows an arrow of the documented diagram,
    or is one of the two stores of [start] that look at nothing: it enters
    Configuring from Failed or Closed, and Failed from Ready or Closed.
    [start] returned true only if the session was ready. *)
Theorem session_lifecycle w ls l :
  let s := (run ls (client_new w)).1 in
  moves l s (step l s).1 ∧
  match starter s with Returned true => state_ s = Ready ∨ state_ s = Closed | _ => True end.
Proof.
  intros s. assert (phase_ok s) as H by (apply run_phase; by split). split; [by apply step_moves|].
  destruct H as [_ H]. by destruct (starter s) as [| |[]|[]| | | | |[]].
Qed.

(** [C32] What an utterance puts on the wire: the server's buffer is cleared,
    then comes the audio as the resampler gives it, chunk by chunk and then
    its tail, empty results left out, then the commit; and each payload is
    decoded to exactly the samples. *)
Theorem utterance_on_the_wire s e0 e b now turn c cb chunks :
  state_ s = Ready → has_pc s = true → live c (tokens s) →
  Forall (Forall (λ v, - 2 ^ 15 ≤ v < 2 ^ 15)%Z) (resampled chunks) →
  (run (Begin e0 now turn c cb :: map (Push e) chunks ++ [End_ e b]) s).2 =
    Began turn cb :: Send (build_simple_event_json e0 (lit "input_audio_buffer.clear")) ::
    appends e (resampled chunks) ++ [Send (build_simple_event_json b (lit "input_audio_buffer.commit"))] ∧
  Forall (λ x, Wav.unraw <$> (map byte_of <$> base64_decode (base64_encode (pcm_bytes x))) = Some x) (resampled chunks).
Proof.
  intros Hst Hp Hc Hr. split; [|eapply Forall_impl; [exact Hr|]; apply payload_samples].
  cbn [run step]. destruct (begin_open e0 now turn c cb s Hst Hp Hc) as (s1 & -> & A1 & _ & _ & A4 & _ & A6 & A7 & _).
  rewrite run_app_stt, (pushes_out e chunks s1 _ A1 A4 A6 A7). unfold resampled.
  destruct (resample resampler_new chunks) as [outs r]. cbn [fst snd run step]. unfold end_utterance.
  change (active (s1 <| resampler := Some r |>)) with (active s1). rewrite A1. cbn [resampler set_field].
  change (resampler (s1 <| resampler := Some r |>)) with (Some r). cbn.
  rewrite A7. cbn. unfold appends. rewrite flat_map_app. cbn. destruct (decide (flush r = [])); cbn; by rewrite <- ?app_assoc, ?app_nil_r.
Qed.

(** The item of an utterance is whatever the server commits next. When
    the commit of an utterance is answered after the next one began, its
    transcript is delivered as that of the next one, at once, and the audio
    of the next one is dropped from there on. *)
Theorem late_commit_mislabels s a b e t1 t2 turn c cb item text lang id1 id2 j1 j2 raw1 raw2 :
  state_ s = Ready → has_pc s = true → calling s = None → live c (tokens s) → cb_final cb = true →
  read_envelope rd raw1 = Some (MkEnvelope id1 (lit "full_message") (base64_encode j1) None None) →
  read_envelope rd raw2 = Some (MkEnvelope id2 (lit "full_message") (base64_encode j2) None None) →
  dispatch rd j1 all_callbacks = Some (Committed item) → dispatch rd j2 all_callbacks = Some (Final item text lang) →
  let '(s', os) := run [End_ a b; Begin e t1 turn c cb; Message t1 raw1; Message t2 raw2; Callback] s in
  last os = Some (OnFinal (cb_id cb) (FinalTranscript turn text (if decide (lang = []) then cfg_language else lang)
                                        (Some 0%Q) 0 (t2 - t1))) ∧
  ∀ e' chunk, step (Push e' chunk) s' = (s', []).
Proof.
  intros Hst Hp Hcl Hc Hf R1 R2 D1 D2. cbn [run].
  assert (∃ s0 o0, step (End_ a b) s = (s0, o0) ∧ state_ s0 = Ready ∧ has_pc s0 = true ∧ tokens s0 = tokens s ∧ calling s0 = None)
    as (s0 & o0 & -> & B1 & B2 & B3 & B4).
  { cbn [step]. unfold end_utterance. destruct (active s); [destruct (resampler s)|]; (eexists _, _; split; [reflexivity|done]). }
  rewrite <- B3 in Hc. destruct (begin_open e t1 turn c cb s0 B1 B2 Hc) as (s1 & E & A1 & A2 & A3 & A4 & A5 & A6 & A7 & A8 & A9).
  rewrite B4 in A9.
  change (step (Begin e t1 turn c cb) s0) with (begin_utterance e t1 turn c cb s0). rewrite E.
  rewrite (full_message t1 raw1 id1 j1 (Committed item) s1 A7 A9 R1 D1). cbn [on_server]. rewrite A1.
  set (s2 := s1 <| active_item_id := item |>).
  rewrite (full_message t2 raw2 id2 j2 (Final item text lang) s2 A7 A9 R2 D2). cbn [on_server].
  change (active s2) with (active s1). change (active_item_id s2) with item. rewrite A1, bool_decide_eq_true_2 by done. cbn [negb orb].
  change (cancelled s2) with (cancelled s1). rewrite A6. change (active_cb s2) with (active_cb s1).
  change (active_turn s2) with (active_turn s1). change (utterance_start s2) with (utterance_start s1).
  rewrite A2, A3, A5, Hf. change (step Callback) with user_callback. erewrite user_callback_pending by reflexivity.
  split; [|intros e' chunk; by apply push_inactive]. cbn [app].
  match goal with |- last (?o ++ [?x; ?y; ?z]) = _ => change (o ++ [x; y; z]) with (o ++ ([x; y] ++ [z])) end.
  rewrite (app_assoc o0). apply last_snoc.
Qed.
End client.

(** ** Witnesses *)

(** A resampler that copies and readers of one-letter events. *)
Definition copy (x : list Z) (r : unit) : list Z * unit := (x, r).
Definition no_tail (_ : unit) : list Z := [].
Definition sample_readers : Readers := MkReaders
  (λ raw, Some (MkEnvelope [] (lit "full_message") raw None None))
  (λ j, match j with
        | "c"%char :: _ => Some (lit "input_audio_buffer.committed")
        | "f"%char :: _ => Some (lit "conversation.item.input_audio_transcription.completed")
        | "u"%char :: _ => Some (lit "session.updated")
        | _ => None
        end)
  (λ _, None) (λ j, match j with _ :: x :: t => Some ([x], t, None) | _ => None end)
  (λ j, match j with _ :: x :: _ => Some [x] | _ => None end) (λ _, None).

Abbreviation sample_step := (step tt copy no_tail sample_readers (lit "http://h:80/v1") (lit "m") (lit "en")).
Abbreviation sample_run := (run tt copy no_tail sample_readers (lit "http://h:80/v1") (lit "m") (lit "en")).

(** [start] up to the wait for the session, and to its end. *)
Definition bring_up : list Label :=
  [Start [] false true; Start [] false true; Gathered; Start [] false true; Start [] false true; Start [] false true;
   Peer PcConnected; Start [] false true; Start [] false true; Opened; Start [] false true; Start [] false true].
Definition configured : list Label :=
  [Start [] false true; Start [] false true; Message 0 (base64_encode (lit "u")); Start [] false true; Start [] false true].
Definition ready_client : client := (sample_run (bring_up ++ configured) (client_new (MkTurns 1 []))).1.

(** [stop] between the last check and the store of Configuring: the closed
    session is configured again, and fails at the deadline. *)
Lemma stop_overwritten :
  let s := (sample_run (bring_up ++ [Stop]) (client_new (MkTurns 1 []))).1 in
  state_ s = Closed ∧ state_ (sample_step (Start [] false true) s).1 = Configuring.
Proof. by vm_compute. Qed.

Lemma utterance_on_the_wire_witness :
  state_ ready_client = Ready ∧ starter ready_client = Returned true ∧
  (sample_run (Begin (lit "x") 5 7 None no_callbacks :: map (Push (lit "y")) [[1; -2]; []]%Z ++ [End_ (lit "y") (lit "z")])
     ready_client).2 =
  [Began 7 no_callbacks; Send (build_simple_event_json (lit "x") (lit "input_audio_buffer.clear"));
   Send (build_input_audio_buffer_append_json (lit "y") (lit "AQD+/w=="));
   Send (build_simple_event_json (lit "z") (lit "input_audio_buffer.commit"))].
Proof.
  assert (state_ ready_client = Ready) as Hst by (vm_compute; reflexivity).
  assert (has_pc ready_client = true) as Hp by (vm_compute; reflexivity).
  split; [exact Hst|]. split; [vm_compute; reflexivity|].
  assert (Forall (Forall (λ v, - 2 ^ 15 ≤ v < 2 ^ 15)%Z) (resampled tt copy no_tail [[1; -2]; []]%Z)) as Hf.
  { vm_compute resampled. repeat constructor; lia. }
  etransitivity; [exact (proj1 (utterance_on_the_wire tt copy no_tail sample_readers (lit "http://h:80/v1") (lit "m") (lit "en")
    ready_client (lit "x") (lit "y") (lit "z") 5 7 None no_callbacks [[1; -2]; []]%Z Hst Hp I Hf))|].
  vm_compute. reflexivity.
Defined.

Lemma late_commit_mislabels_witness :
  let cb := MkUtterance 2 true true true in
  let '(s', os) := sample_run [End_ [] []; Begin [] 5 9 None cb; Message 5 (base64_encode (lit "ca"));
                               Message 6 (base64_encode (lit "fahello")); Callback]
    (sample_step (Begin [] 1 8 None (MkUtterance 1 true true true)) ready_client).1 in
  last os = Some (OnFinal 2 (FinalTranscript 9 (lit "hello") (lit "en") (Some 0%Q) 0 1)).
Proof.
  intros cb. set (s := (sample_step (Begin [] 1 8 None (MkUtterance 1 true true true)) ready_client).1).
  assert (state_ s = Ready) as Hst by (vm_compute; reflexivity). assert (has_pc s = true) as Hp by (vm_compute; reflexivity).
  assert (calling s = None) as Hcl by (vm_compute; reflexivity).
  pose proof (late_commit_mislabels tt copy no_tail sample_readers (lit "http://h:80/v1") (lit "m") (lit "en") s [] [] [] 5 6 9
    None cb (lit "a") (lit "hello") [] [] [] (lit "ca") (lit "fahello") (base64_encode (lit "ca")) (base64_encode (lit "fahello"))
    Hst Hp Hcl I eq_refl eq_refl eq_refl eq_refl eq_refl) as H.
  destruct (sample_run _ s) as [s' os]. exact (proj1 H).
Defined.

(** The final transcript of an utterance that arrives after the next began:
    the next one begins between the release of the mutex and the call. *)
Example final_after_next :
  (sample_run [Begin [] 1 8 None (MkUtterance 1 true true true); Message 5 (base64_encode (lit "ca"));
               Message 6 (base64_encode (lit "fahello")); Begin [] 7 9 None (MkUtterance 2 true true true); Callback]
     ready_client).2 =
  [Began 8 (MkUtterance 1 true true true); Send (build_simple_event_json [] (lit "input_audio_buffer.clear"));
   Began 9 (MkUtterance 2 true true true); Send (build_simple_event_json [] (lit "input_audio_buffer.clear"));
   OnFinal 1 (FinalTranscript 8 (lit "hello") (lit "en") (Some 0%Q) 0 5)].
Proof. vm_compute. reflexivity. Qed.
