(* ===== verification/FakeDriver.v ===== *)
(** * The synthetic pipeline driver (src/src/pipeline/fake_driver.hpp, .cpp)

    The thread that plays whole turns onto the bus in place of the audio, STT,
    LLM and TTS layers, with the flag [stop] clears, composed with the
    dialogue state machine it drives. A turn is a script of publications,
    sleeps and the [if (!running_) return] between them. The flag only goes
    down while the thread lives, so a run is determined by how many reads of
    it still find it set: the budget, a [nat]. *)
From stdpp Require Import pretty.
From S2P Require Import Prelude Event Turn Fsm FsmTheory.
Import Fsm.
Open Scope act_scope.

Record FakeDriverOptions := {
  idle_between_turns : Z;
  user_speech_duration : Z;
  stt_processing : Z;
  llm_first_token_delay : Z;
  llm_per_sentence : Z;
  tts_first_audio : Z;
  playback_per_sentence : Z;
  sentences_per_turn : Z;
  barge_in_probability : fl;
  seed : Z;
  suppress_speech_events : bool;
}.

Definition default_options : FakeDriverOptions := {|
  idle_between_turns := 1500; user_speech_duration := 800; stt_processing := 300;
  llm_first_token_delay := 400; llm_per_sentence := 600; tts_first_audio := 200;
  playback_per_sentence := 900; sentences_per_turn := 3; barge_in_probability := Some 0%Q;
  seed := 0; suppress_speech_events := false |}%Z.

(** A read of [running_]. *)
Definition running (b : nat) : bool * nat :=
  match b with 0 => (false, 0) | S b => (true, b) end.

(** sleep_for_or_stop: chunks of at most 50 ms, the flag read before each.
    The time slept and the reads left. *)
Fixpoint sleep_loop (fuel : nat) (remaining slept : Z) (b : nat) : option (Z * nat) :=
  match fuel with
  | 0 => None
  | S fuel =>
      if decide (remaining > 0)%Z then
        let '(r, b) := running b in
        if (r : bool) then
          let chunk := Z.min remaining 50 in
          sleep_loop fuel (remaining - chunk) (slept + chunk) b
        else Some (slept, b)
      else Some (slept, b)
  end.
Definition sleep_fuel (dur : Z) : nat := S (Z.to_nat ((dur + 49) / 50)).
Definition sleep_for_or_stop (dur : Z) (b : nat) : option (Z * nat) :=
  sleep_loop (sleep_fuel dur) dur 0 b.

Inductive item :=
  | Pub (e : Event)
  | Sleep (dur : Z)
  | Leave.  (** [if (!running_.load()) return;] *)

(** The events a script publishes, the reads left and whether it ran to its
    end. *)
Fixpoint play (script : list item) (b : nat) : option (list Event * nat * bool) :=
  match script with
  | [] => Some ([], b, true)
  | Pub e :: script => (λ '(es, b, fin), (e :: es, b, fin)) <$> play script b
  | Sleep d :: script => sleep_for_or_stop d b ≫= λ '(_, b), play script b
  | Leave :: script => let '(r, b) := running b in if (r : bool) then play script b else Some ([], b, false)
  end.

Section driver.
(** The steady clock: what its [k]-th read in a turn returns. *)
Context (clock : TurnId → nat → Z) (opts : FakeDriverOptions).

Definition speech (e : Event) : list item :=
  if suppress_speech_events opts then [] else [Pub e].

Definition sentence_text (s : Z) (turn : TurnId) : str :=
  lit "This is synthetic sentence " ++ lit (pretty s) ++ lit " of turn " ++ lit (pretty turn) ++ lit ".".

(** The body of the sentence loop. *)
Definition sentence_body (turn : TurnId) (s : Z) : list item :=
  [Pub (LlmSentence turn s (sentence_text s turn) (lit "en"));
   Sleep (tts_first_audio opts); Leave;
   Pub (TtsStarted turn s); Pub (TtsAudioChunk turn s 1024); Pub (TtsFinished turn s);
   Pub (PlaybackStarted turn s);
   Sleep (playback_per_sentence opts); Leave;
   Pub (PlaybackFinished turn s);
   Sleep (llm_per_sentence opts); Leave].

(** [for (uint32_t s = 1; s <= sentences_per_turn; ++s)] *)
Fixpoint sentence_loop (fuel : nat) (turn : TurnId) (s : Z) : option (list item) :=
  match fuel with
  | 0 => None
  | S fuel =>
      if decide (s <= sentences_per_turn opts)%Z then
        (λ items, sentence_body turn s ++ items) <$> sentence_loop fuel turn (u32 (s + 1))
      else Some []
  end.

(** The start of both kinds of turn. *)
Definition turn_opening (turn : TurnId) (text : str) (confidence : Q) : list item :=
  speech (SpeechStarted turn (clock turn 0)) ++
  [Sleep (user_speech_duration opts); Leave] ++
  speech (SpeechEnded turn (clock turn 1)) ++
  [Sleep (stt_processing opts); Leave;
   Pub (FinalTranscript turn text (lit "en") (Some confidence)
          (user_speech_duration opts) (stt_processing opts));
   Pub (LlmStarted turn);
   Sleep (llm_first_token_delay opts); Leave].

Definition run_one_turn (fuel : nat) (turn : TurnId) : option (list item) :=
  (λ items, turn_opening turn (lit "what is the weather today") (15938355 # 16777216) ++ items ++
         [Pub (LlmFinished turn false (Z.to_nat (u32 (sentences_per_turn opts * 12))))])
  <$> sentence_loop fuel turn 1.

Definition run_one_turn_with_barge_in (turn : TurnId) : list item :=
  turn_opening turn (lit "longer question please answer at length") (15099494 # 16777216) ++
  [Pub (LlmSentence turn 1 (lit "I am about to be cut off mid-sentence by an impatient user.") (lit "en"));
   Sleep (tts_first_audio opts);
   Pub (TtsStarted turn 1); Pub (TtsAudioChunk turn 1 1024); Pub (TtsFinished turn 1);
   Pub (PlaybackStarted turn 1);
   Sleep (playback_per_sentence opts);
   Pub (PlaybackFinished turn 1);
   Pub (UserInterrupted turn (clock turn 2));
   Pub (LlmSentence turn 2 (lit "stale sentence") (lit "en"));
   Pub (PlaybackFinished turn 2);
   Pub (LlmFinished turn true 12)].

(** [uniform(rng) < barge_in_probability] *)
Definition barge_in (draw : Q) : bool := fl_lt (Some draw) (barge_in_probability opts).

Definition one_turn (fuel : nat) (turn : TurnId) (draw : Q) : option (list item) :=
  if barge_in draw then Some (run_one_turn_with_barge_in turn) else run_one_turn fuel turn.

(** run_loop from the top of its [while], over the numbers the generator
    draws: the events, [turns_emitted_] and whether [stop] has been seen;
    [false] when the draws given are used up first. *)
Fixpoint run_loop (fuel : nat) (draws : list Q) (turn : TurnId) (emitted : Z) (b : nat)
    : option (list Event * Z * bool) :=
  match draws with
  | [] => Some ([], emitted, false)
  | draw :: draws =>
      let '(r, b) := running b in
      if negb r then Some ([], emitted, true) else
      sleep_for_or_stop (idle_between_turns opts) b ≫= λ '(_, b),
      let '(r, b) := running b in
      if negb r then Some ([], emitted, true) else
      one_turn fuel turn draw ≫= λ script,
      play script b ≫= λ '(es, b, _),
      let '(r, b) := running b in
      if negb r then Some (es, emitted, true) else
      (λ '(es', emitted, stopped), (es ++ es', emitted, stopped))
        <$> run_loop fuel draws (u64 (turn + 1)) (u64 (emitted + 1)) b
  end.

Definition loop_fuel : nat := S (Z.to_nat (sentences_per_turn opts)).
Definition driver (draws : list Q) (b : nat) : option (list Event * Z * bool) :=
  run_loop loop_fuel draws 1 0 b.
End driver.

(** ** Lemmas *)

(** *** The thread *)

Lemma sleep_loop_total fuel d slept b :
  (Z.to_nat ((d + 49) / 50) < fuel) →
  ∃ slept' b', sleep_loop fuel d slept b = Some (slept', b') ∧ b' ≤ b ∧
    ((slept' = slept + Z.max 0 d)%Z ∨ b' = 0).
Proof.
  revert d slept b. induction fuel as [|fuel IH]; intros d slept b Hf; [lia|].
  cbn [sleep_loop]. case_decide; [|exists slept, b; repeat split; lia].
  destruct b as [|b]; cbn [running]; [exists slept, 0; auto|].
  destruct (IH (d - Z.min d 50)%Z (slept + Z.min d 50)%Z b) as (sl & b' & -> & Hb & Hsl).
  { destruct (Z.min_spec d 50) as [[? ->]|[? ->]].
    - replace (d - d + 49)%Z with 49%Z by lia. change (Z.to_nat (49 / 50)) with 0.
      assert (1 <= (d + 49) / 50)%Z by (apply Z.div_le_lower_bound; lia). lia.
    - replace (d - 50 + 49)%Z with (d + 49 + (-1) * 50)%Z by lia. rewrite Z.div_add by lia.
      assert (1 <= (d + 49) / 50)%Z by (apply Z.div_le_lower_bound; lia). lia. }
  exists sl, b'. repeat split; lia.
Qed.

Lemma sleep_total d b :
  ∃ slept b', sleep_for_or_stop d b = Some (slept, b') ∧ b' ≤ b ∧ (slept = Z.max 0 d ∨ b' = 0).
Proof. apply sleep_loop_total. unfold sleep_fuel. lia. Qed.

(** The events of a script nobody stops. *)
Definition pubs (script : list item) : list Event :=
  omap (λ i, match i with Pub e => Some e | _ => None end) script.

Lemma pubs_app s1 s2 : pubs (s1 ++ s2) = pubs s1 ++ pubs s2.
Proof. apply omap_app. Qed.

Lemma play_prefix script b :
  ∃ es b' fin, play script b = Some (es, b', fin) ∧ es `prefix_of` pubs script ∧
    (fin = true → es = pubs script) ∧ (fin = false → b' = 0).
Proof.
  revert b. induction script as [|[e|d|] script IH]; intros b; cbn [play].
  - by exists [], b, true.
  - destruct (IH b) as (es & b' & fin & -> & H1 & H2 & H3). exists (e :: es), b', fin.
    split_and!; [done|by apply prefix_cons| |done]. intros ->. cbn. f_equal. auto.
  - destruct (sleep_total d b) as (sl & b' & -> & _). apply IH.
  - destruct b as [|b]; cbn [running]; [|apply IH].
    exists [], 0, false. split_and!; [done|apply prefix_nil|done|done].
Qed.

(** *** The FSM under a list of events, whatever the clock reads *)

Inductive steps : fsm → list Event → fsm → Prop :=
  | steps_nil s : steps s [] s
  | steps_cons now e es s s' : steps (exec (on_event now e) s) es s' → steps s (e :: es) s'.

Lemma run_steps evs s : steps s evs.*2 (exec (run evs) s).
Proof.
  revert s. induction evs as [|[now e] evs IH]; intros s; [constructor|].
  rewrite exec_run_cons. econstructor. apply IH.
Qed.

Lemma steps_run es s s' : steps s es s' → ∃ tevs, tevs.*2 = es ∧ s' = exec (run tevs) s.
Proof.
  induction 1 as [s|now e es s s' _ (tevs & <- & ->)]; [by exists []|].
  exists ((now, e) :: tevs). by rewrite exec_run_cons.
Qed.

Lemma steps_app es1 es2 s s' : steps s (es1 ++ es2) s' ↔ ∃ s1, steps s es1 s1 ∧ steps s1 es2 s'.
Proof.
  split.
  - revert s. induction es1 as [|e es1 IH]; cbn; intros s H; [exists s; by repeat constructor|].
    inversion H as [|now ? ? ? ? H']; subst. apply IH in H' as (s1 & H1 & H2).
    exists s1. split; [|done]. by econstructor.
  - intros (s1 & H1 & H2). induction H1; cbn; [done|]. econstructor; eauto.
Qed.

Lemma steps_ignored s e es s' :
  (∀ now, exec (on_event now e) s = s) → steps s (e :: es) s' → steps s es s'.
Proof. intros He H. inversion H as [|now ? ? ? ? H']; subst. by rewrite He in H'. Qed.

Lemma steps_total es s : ∃ s', steps s es s'.
Proof.
  revert s. induction es as [|e es IH]; intros s; [exists s; constructor|].
  destruct (IH (exec (on_event 0 e) s)) as [s' H]. exists s'. by econstructor.
Qed.

(** The three tallies only grow. *)
Definition tallies_le (s s' : fsm) : Prop :=
  (turns_completed_ s <= turns_completed_ s' ∧ turns_interrupted_ s <= turns_interrupted_ s' ∧
   turns_discarded_ s <= turns_discarded_ s')%Z.

Lemma tallies_on_event now e s : tallies_le s (exec (on_event now e) s).
Proof. unfold tallies_le. destruct e; fsm_cases s; lia. Qed.

Lemma tallies_steps es s s' : steps s es s' → tallies_le s s'.
Proof.
  induction 1 as [|now e es s s' _ IH]; [unfold tallies_le; lia|].
  pose proof (tallies_on_event now e s). unfold tallies_le in *. lia.
Qed.

(** Only a [SpeechStarted] changes the active turn. *)
Lemma active_on_event now e s :
  event_index e ≠ 0 → active_ (exec (on_event now e) s) = active_ s.
Proof. destruct e; intros He; [done|..]; fsm_cases s; done. Qed.

(** Every event finds, or makes, its own turn the active one. *)
Definition mirrored (s : fsm) (es : list Event) : Prop :=
  ∀ pre e post s', es = pre ++ e :: post → steps s (pre ++ [e]) s' → ctx_id (active_ s') = event_turn e.

Lemma mirrored_nil s : mirrored s [].
Proof. intros pre e post s' H. by destruct pre. Qed.

Lemma mirrored_cons s e es :
  (∀ now, ctx_id (active_ (exec (on_event now e) s)) = event_turn e ∧ mirrored (exec (on_event now e) s) es) →
  mirrored s (e :: es).
Proof.
  intros H [|e0 pre] e1 post s' Heq Hs; cbn in Heq; simplify_eq; cbn in Hs.
  - inversion Hs as [|now ? ? ? ? Hs']; subst. inversion Hs'; subst. apply H.
  - inversion Hs as [|now ? ? ? ? Hs']; subst. by eapply H.
Qed.

Lemma mirrored_prefix s es1 es2 : es1 `prefix_of` es2 → mirrored s es2 → mirrored s es1.
Proof. intros [k ->] H pre e post s' -> Hs. eapply (H pre e (post ++ k)); [|done]. by rewrite <- app_assoc. Qed.

Lemma mirrored_app s es1 es2 :
  mirrored s es1 → (∀ s1, steps s es1 s1 → mirrored s1 es2) → mirrored s (es1 ++ es2).
Proof.
  revert s. induction es1 as [|e es1 IH]; intros s H1 H2; [apply H2; constructor|].
  cbn. apply mirrored_cons. intros now. split.
  - apply (H1 [] e es1); [done|]. cbn. repeat econstructor.
  - apply IH.
    + intros pre e' post s' Heq Hs. apply (H1 (e :: pre) e' post); [by rewrite Heq|]. by econstructor.
    + intros s1 Hs. apply H2. by econstructor.
Qed.

Lemma mirrored_same s t es :
  ctx_id (active_ s) = t → Forall (λ e, event_index e ≠ 0 ∧ event_turn e = t) es → mirrored s es.
Proof.
  intros Ht H. revert s Ht. induction H as [|e es [He1 He2] _ IH]; intros s Ht; [apply mirrored_nil|].
  apply mirrored_cons. intros now. rewrite active_on_event by done. split; [congruence|].
  apply IH. by rewrite active_on_event.
Qed.

(** *** One turn of the driver *)

(** The turn of [s] waits for its first sentence, or has none outstanding. *)
Definition thinking (s : fsm) : Prop :=
  state_ s = Thinking ∧ sentences_received_ s = 0%Z ∧ sentences_played_ s = 0%Z ∧ llm_finished_seen_ s = false.
Definition answering (s : fsm) : Prop := thinking s ∨ speaking s 0 false.

Section turn.
Context (clock : TurnId → nat → Z) (opts : FakeDriverOptions).
Hypothesis Hspeech : suppress_speech_events opts = false.

Lemma pubs_opening turn text c :
  ∃ cf, pubs (turn_opening clock opts turn text c) =
    [SpeechStarted turn (clock turn 0); SpeechEnded turn (clock turn 1);
     FinalTranscript turn text (lit "en") cf (user_speech_duration opts) (stt_processing opts);
     LlmStarted turn].
Proof. unfold turn_opening, speech. rewrite Hspeech. by eexists. Qed.

Lemma opening_answers s turn text c s1 :
  state_ s = Listening → steps s (pubs (turn_opening clock opts turn text c)) s1 →
  thinking s1 ∧ ctx_id (active_ s1) = next_ (turns_ s) ∧
  next_ (turns_ s1) = u64 (next_ (turns_ s) + 1) ∧
  turns_completed_ s1 = turns_completed_ s ∧ turns_interrupted_ s1 = turns_interrupted_ s ∧
  turns_discarded_ s1 = turns_discarded_ s.
Proof.
  destruct (pubs_opening turn text c) as [cf ->]. intros Hst (tevs & Htevs & ->)%steps_run.
  do 4 (destruct tevs as [|[? ?] tevs]; [done|cbn in Htevs; injection Htevs as -> Htevs]).
  destruct tevs; [|done]. unfold run. fsm_at s Hst; by repeat split.
Qed.
End turn.

Lemma thinking_sentence now t seq text lang s :
  state_ s = Thinking → sentences_received_ s = 0%Z → sentences_played_ s = 0%Z → llm_finished_seen_ s = false →
  let s' := exec (on_event now (LlmSentence t seq text lang)) s in
  speaking s' 1 false ∧ within_turn s s'.
Proof. intros H. fsm_at s H; intros; subst; repeat split; cbn; lia. Qed.

Lemma answering_sentence now t seq text lang s :
  answering s →
  let s' := exec (on_event now (LlmSentence t seq text lang)) s in
  speaking s' 1 false ∧ within_turn s s'.
Proof. intros [(H1 & H2 & H3 & H4)|H]; [by apply thinking_sentence|by apply speaking_sentence]. Qed.

Lemma within_turn_trans s1 s2 s3 : within_turn s1 s2 → within_turn s2 s3 → within_turn s1 s3.
Proof. unfold within_turn. intuition congruence. Qed.

(** The TTS events and the start of playback are not the FSM's. *)
Lemma played_sentence s turn seq bytes seq' text lang s' :
  answering s → ctx_id (active_ s) = turn →
  steps s [LlmSentence turn seq text lang; TtsStarted turn seq; TtsAudioChunk turn seq bytes;
           TtsFinished turn seq; PlaybackStarted turn seq; PlaybackFinished turn seq'] s' →
  speaking s' 0 false ∧ within_turn s s'.
Proof.
  intros Ha <- H. inversion H as [|now ? ? ? ? H']; subst; clear H.
  destruct (answering_sentence now (ctx_id (active_ s)) seq text lang s Ha) as [Hsp Hw].
  rewrite <- (proj1 Hw) in H'. set (s1 := exec _ s) in *. clearbody s1.
  do 4 apply steps_ignored in H'; [|done..].
  inversion H' as [|now' ? ? ? ? H'']; subst. inversion H''; subst.
  pose proof (speaking_play now' seq' s1 0 false Hsp ltac:(lia)) as Hp. cbn zeta in Hp.
  rewrite decide_False in Hp by naive_solver. destruct Hp as [Hp1 Hp2].
  split; [exact Hp1|by eapply within_turn_trans].
Qed.

Lemma thinking_unplayed now t seq text lang s :
  thinking s → sentences_played_ (exec (on_event now (LlmSentence t seq text lang)) s) = 0%Z.
Proof. intros (H1 & H2 & H3 & H4). revert H3. fsm_at s H1; done. Qed.

Lemma play_counts now seq s :
  state_ s = Speaking → llm_finished_seen_ s = false →
  let s' := exec (on_event now (PlaybackFinished (ctx_id (active_ s)) seq)) s in
  sentences_played_ s' = u32 (sentences_played_ s + 1).
Proof. intros H. fsm_at s H; intros; subst; by try guard_absurd. Qed.

Lemma played_once s seq bytes text lang s' :
  thinking s → let turn := ctx_id (active_ s) in
  steps s [LlmSentence turn seq text lang; TtsStarted turn seq; TtsAudioChunk turn seq bytes;
           TtsFinished turn seq; PlaybackStarted turn seq; PlaybackFinished turn seq] s' →
  (1 <= sentences_played_ s')%Z.
Proof.
  intros Ht turn H. inversion H as [|now ? ? ? ? H']; subst; clear H.
  destruct (answering_sentence now turn seq text lang s (or_introl Ht)) as [Hsp Hw].
  pose proof (thinking_unplayed now turn seq text lang s Ht) as Hu. unfold turn in *.
  rewrite <- (proj1 Hw) in H'. set (s1 := exec _ s) in *. clearbody s1.
  do 4 apply steps_ignored in H'; [|done..].
  inversion H' as [|now' ? ? ? ? H'']; subst. inversion H''; subst.
  rewrite play_counts by apply Hsp. by rewrite Hu.
Qed.

(** The user's interruption of a turn that has played a sentence. *)
Definition interrupted (s s' : fsm) : Prop :=
  state_ s' = Listening ∧ next_ (turns_ s') = next_ (turns_ s) ∧
  turns_completed_ s' = turns_completed_ s ∧ turns_interrupted_ s' = Z.succ (turns_interrupted_ s) ∧
  turns_discarded_ s' = turns_discarded_ s.

Lemma speaking_interrupt now t ts s :
  state_ s = Speaking → (1 <= sentences_played_ s)%Z →
  interrupted s (exec (on_event now (UserInterrupted t ts)) s).
Proof. intros H. fsm_at s H; intros; [|lia| |lia|..]; try lia; repeat split; by destruct (ctx_token act). Qed.

(** Only a [SpeechStarted] moves a resting FSM. *)
Lemma late_event now e s :
  state_ s = Listening → event_index e ≠ 0 →
  let s' := exec (on_event now e) s in
  state_ s' = Listening ∧ next_ (turns_ s') = next_ (turns_ s) ∧
  turns_completed_ s' = turns_completed_ s ∧ turns_interrupted_ s' = turns_interrupted_ s ∧
  turns_discarded_ s' = turns_discarded_ s.
Proof. intros H. fsm_at s H; destruct e; cbn; intros; try done; by act_cbn. Qed.

Lemma late_events es s s' :
  state_ s = Listening → Forall (λ e, event_index e ≠ 0) es → steps s es s' →
  state_ s' = Listening ∧ next_ (turns_ s') = next_ (turns_ s) ∧
  turns_completed_ s' = turns_completed_ s ∧ turns_interrupted_ s' = turns_interrupted_ s ∧
  turns_discarded_ s' = turns_discarded_ s.
Proof.
  intros Hs He H. induction H as [|now e es s s' H IH]; [done|].
  apply Forall_cons in He as [He1 He2].
  destruct (late_event now e s Hs He1) as (L1 & L2 & L3 & L4 & L5).
  destruct (IH L1 He2) as (M1 & M2 & M3 & M4 & M5). intuition congruence.
Qed.

Lemma barge_in_closes s turn seq bytes text lang ts late s' :
  thinking s → ctx_id (active_ s) = turn → Forall (λ e, event_index e ≠ 0) late →
  steps s ([LlmSentence turn seq text lang; TtsStarted turn seq; TtsAudioChunk turn seq bytes;
            TtsFinished turn seq; PlaybackStarted turn seq; PlaybackFinished turn seq]
           ++ UserInterrupted turn ts :: late) s' →
  interrupted s s'.
Proof.
  intros Ht <- Hl (s1 & H1 & H2)%steps_app.
  assert (1 <= sentences_played_ s1)%Z as Hp by eauto using played_once.
  destruct (played_sentence _ _ _ _ _ _ _ _ (or_introl Ht) eq_refl H1) as [Hs (_ & W1 & W2 & W3 & W4)].
  inversion H2 as [|now ? ? ? ? H3]; subst. clear H1 H2.
  destruct (speaking_interrupt now (ctx_id (active_ s)) ts s1 (speaking_state _ _ _ Hs) Hp) as (I1 & I2 & I3 & I4 & I5).
  destruct (late_events _ _ _ I1 Hl H3) as (L1 & L2 & L3 & L4 & L5).
  unfold interrupted. rewrite W1 in I2. intuition congruence.
Qed.

Section turns.
Context (clock : TurnId → nat → Z) (opts : FakeDriverOptions).
Hypothesis Hspeech : suppress_speech_events opts = false.

(** The sentence loop ends, after [sentences_per_turn] iterations, when that
    is below the largest 32-bit value. *)
Lemma sentence_loop_total fuel turn k :
  (1 <= k <= sentences_per_turn opts + 1)%Z → (sentences_per_turn opts < 2 ^ 32 - 1)%Z → (sentences_per_turn opts - k + 1 < Z.of_nat fuel)%Z →
  is_Some (sentence_loop opts fuel turn k).
Proof.
  intros Hk Hn. revert k Hk. induction fuel as [|fuel IH]; intros k Hk Hf; cbn [sentence_loop].
  - lia.
  - case_decide; [|by eexists]. apply fmap_is_Some, IH; unfold u32; rewrite Z.mod_small by lia; lia.
Qed.

Lemma loop_plays fuel turn k items s s' :
  sentence_loop opts fuel turn k = Some items → answering s → ctx_id (active_ s) = turn →
  steps s (pubs items) s' → answering s' ∧ within_turn s s'.
Proof.
  revert k items s. induction fuel as [|fuel IH]; intros k items s; cbn [sentence_loop]; [done|].
  case_decide; [|intros [= <-] Ha _ Hs; inversion Hs; subst; by repeat split].
  intros (items' & E & ->)%fmap_Some Ha Ht. change (pubs (sentence_body opts turn k ++ items')) with
    ([LlmSentence turn k (sentence_text k turn) (lit "en"); TtsStarted turn k; TtsAudioChunk turn k 1024;
      TtsFinished turn k; PlaybackStarted turn k; PlaybackFinished turn k] ++ pubs items').
  intros (s1 & H1 & H2)%steps_app. destruct (played_sentence _ _ _ _ _ _ _ _ Ha Ht H1) as [Hs1 Hw].
  destruct (IH _ _ s1 E (or_intror Hs1) ltac:(by rewrite (proj1 Hw)) H2) as [H3 H4].
  split; [done|by eapply within_turn_trans].
Qed.

Lemma answering_finish now t c n s :
  answering s → completed s (exec (on_event now (LlmFinished t c n)) s).
Proof.
  intros [(H1 & H2 & H3 & H4)|H].
  - revert H2 H3 H4. fsm_at s H1; intros; cbn in *; subst; try guard_absurd; by repeat split.
  - pose proof (speaking_finish now t c n s 0 H ltac:(lia)) as Hf. cbn zeta in Hf.
    by rewrite decide_True in Hf.
Qed.

(** What a turn of the driver does to the FSM. *)
Definition turn_effect (interrupted : bool) (s s' : fsm) : Prop :=
  state_ s' = Listening ∧ next_ (turns_ s') = u64 (next_ (turns_ s) + 1) ∧
  turns_completed_ s' = (turns_completed_ s + if interrupted then 0 else 1)%Z ∧
  turns_interrupted_ s' = (turns_interrupted_ s + if interrupted then 1 else 0)%Z ∧
  turns_discarded_ s' = turns_discarded_ s.

Lemma plain_turn_effect fuel turn script s s' :
  run_one_turn clock opts fuel turn = Some script → state_ s = Listening → next_ (turns_ s) = turn →
  steps s (pubs script) s' → turn_effect false s s'.
Proof.
  intros (items & E & ->)%fmap_Some Hst Hn. rewrite !pubs_app. intros (s1 & H1 & (s2 & H2 & H3)%steps_app)%steps_app.
  destruct (opening_answers clock opts Hspeech _ _ _ _ _ Hst H1) as (Ha & Hid & Hnx & Hc & Hi & Hd).
  destruct (loop_plays _ _ _ _ _ _ E (or_introl Ha) ltac:(congruence) H2) as [Ha2 (_ & W1 & W2 & W3 & W4)].
  inversion H3 as [|now ? ? ? ? H4]; subst. inversion H4; subst.
  destruct (answering_finish now (next_ (turns_ s)) false
    (Z.to_nat (u32 (sentences_per_turn opts * 12))) s2 Ha2) as (F1 & _ & F2 & F3 & F4 & F5).
  split_and!; [done|rewrite F5, W1; done|lia|lia|congruence].
Qed.

Lemma barge_in_effect turn s s' :
  state_ s = Listening → next_ (turns_ s) = turn →
  steps s (pubs (run_one_turn_with_barge_in clock opts turn)) s' → turn_effect true s s'.
Proof.
  intros Hst Hn. unfold run_one_turn_with_barge_in. rewrite pubs_app. intros (s1 & H1 & H2)%steps_app.
  destruct (opening_answers clock opts Hspeech _ _ _ _ _ Hst H1) as (Ha & Hid & Hnx & Hc & Hi & Hd).
  eapply (barge_in_closes s1 turn) in H2 as (F1 & F2 & F3 & F4 & F5); [|done|congruence|by repeat constructor].
  split_and!; [done|congruence|lia|lia|congruence].
Qed.

Lemma one_turn_effect fuel turn draw script s s' :
  one_turn clock opts fuel turn draw = Some script → state_ s = Listening → next_ (turns_ s) = turn →
  steps s (pubs script) s' → turn_effect (barge_in opts draw) s s'.
Proof.
  unfold one_turn. destruct (barge_in opts draw); [intros [= <-]; apply barge_in_effect|apply plain_turn_effect].
Qed.

Lemma one_turn_total fuel turn draw :
  (0 <= sentences_per_turn opts < 2 ^ 32 - 1)%Z → (sentences_per_turn opts < Z.of_nat fuel)%Z →
  is_Some (one_turn clock opts fuel turn draw).
Proof.
  intros Hn Hf. unfold one_turn. destruct (barge_in opts draw); [by eexists|].
  apply fmap_is_Some, sentence_loop_total; lia.
Qed.

(** Every event of a turn bears the id the driver counts for it. *)
Abbreviation tagged turn := (Forall (λ e, event_index e ≠ 0 ∧ event_turn e = turn)).

Lemma loop_tagged fuel turn k items : sentence_loop opts fuel turn k = Some items → tagged turn (pubs items).
Proof.
  revert k items. induction fuel as [|fuel IH]; intros k items; cbn [sentence_loop]; [done|].
  case_decide; [|by intros [= <-]].
  intros (items' & E & ->)%fmap_Some. rewrite pubs_app. apply Forall_app. split; [by repeat constructor|eauto].
Qed.

Lemma turn_tagged fuel turn draw script :
  one_turn clock opts fuel turn draw = Some script →
  ∃ rest, pubs script = SpeechStarted turn (clock turn 0) :: rest ∧ tagged turn rest.
Proof.
  unfold one_turn. intros H.
  assert (∃ text cf body, script = turn_opening clock opts turn text cf ++ body ∧ tagged turn (pubs body))
    as (text & cf & body & -> & Hb).
  { destruct (barge_in opts draw).
    - injection H as <-. do 3 eexists. split; [done|by repeat constructor].
    - apply fmap_Some in H as (items & E & ->). do 3 eexists. split; [done|].
      rewrite pubs_app. apply Forall_app. split; [by eapply loop_tagged|by repeat constructor]. }
  rewrite pubs_app. destruct (pubs_opening clock opts Hspeech turn text cf) as [cf' ->].
  eexists. split; [done|]. cbn. by repeat (apply Forall_cons; split; [by split|]).
Qed.

Lemma turn_mirrored fuel turn draw script s :
  one_turn clock opts fuel turn draw = Some script → state_ s = Listening → next_ (turns_ s) = turn →
  mirrored s (pubs script).
Proof.
  intros (rest & -> & Hr)%turn_tagged Hs Hn. apply mirrored_cons. intros now.
  assert (ctx_id (active_ (exec (on_event now (SpeechStarted turn (clock turn 0))) s)) = turn) as Ha
    by (revert Hn; fsm_at s Hs; done).
  split; [done|by eapply mirrored_same].
Qed.

(** A turn cut short closes at most one turn, and discards none. *)
Lemma cut_turn fuel turn draw script s es s' :
  one_turn clock opts fuel turn draw = Some script → state_ s = Listening → next_ (turns_ s) = turn →
  es `prefix_of` pubs script → steps s es s' →
  let closed s := (turns_completed_ s + turns_interrupted_ s)%Z in
  turns_discarded_ s' = turns_discarded_ s ∧ (closed s <= closed s' <= closed s + 1)%Z.
Proof.
  intros H Hs Hn [rest Hp] Hes. destruct (steps_total rest s') as [s2 Hr].
  destruct (one_turn_effect fuel turn draw script s s2 H Hs Hn) as (_ & _ & E1 & E2 & E3).
  { rewrite Hp. apply steps_app. eauto. }
  apply tallies_steps in Hes as (T1 & T2 & T3). apply tallies_steps in Hr as (U1 & U2 & U3).
  destruct (barge_in opts draw); cbn; lia.
Qed.

(** The loop, from a resting FSM whose next id is the driver's. *)
Definition loop_result (draws : list Q) (emitted : Z) (es : list Event) (emitted' : Z) (stopped : bool) (s : fsm) : Prop :=
  let closed s := (turns_completed_ s + turns_interrupted_ s)%Z in
  let n := (emitted' - emitted)%Z in
  mirrored s es ∧ (0 <= n <= Z.of_nat (length draws))%Z ∧
  ∀ s', steps s es s' → turns_discarded_ s' = turns_discarded_ s ∧
    (closed s + n <= closed s' <= closed s + n + 1)%Z ∧
    (stopped = false →
       state_ s' = Listening ∧ n = Z.of_nat (length draws) ∧
       turns_interrupted_ s' =
         (turns_interrupted_ s + Z.of_nat (length (filter (λ d, barge_in opts d = true) draws)))%Z ∧
       turns_completed_ s' =
         (turns_completed_ s + Z.of_nat (length (filter (λ d, barge_in opts d = false) draws)))%Z).

Lemma stopped_result draws emitted es s :
  mirrored s es →
  (∀ s', steps s es s' → turns_discarded_ s' = turns_discarded_ s ∧
     (turns_completed_ s + turns_interrupted_ s <= turns_completed_ s' + turns_interrupted_ s'
        <= turns_completed_ s + turns_interrupted_ s + 1)%Z) →
  loop_result draws emitted es emitted true s.
Proof.
  intros Hm H. split; [done|]. split; [lia|]. intros s' Hs. destruct (H s' Hs) as [H1 H2].
  split; [done|]. split; [lia|done].
Qed.

Lemma nothing_published draws emitted s : loop_result draws emitted [] emitted true s.
Proof. apply stopped_result; [apply mirrored_nil|]. intros s' H. inversion H; subst. lia. Qed.

Lemma next_turn_result draw draws fuel turn script emitted es emitted' stopped s :
  one_turn clock opts fuel turn draw = Some script → state_ s = Listening → next_ (turns_ s) = turn →
  (∀ s1, state_ s1 = Listening → next_ (turns_ s1) = u64 (turn + 1) →
     loop_result draws (emitted + 1) es emitted' stopped s1) →
  loop_result (draw :: draws) emitted (pubs script ++ es) emitted' stopped s.
Proof.
  intros H Hs Hn Hrest. destruct (steps_total (pubs script) s) as [s0 Hs0].
  assert (∀ s1, steps s (pubs script) s1 → turn_effect (barge_in opts draw) s s1 ∧
            loop_result draws (emitted + 1) es emitted' stopped s1) as Ht.
  { intros s1 H1. pose proof (one_turn_effect _ _ _ _ _ _ H Hs Hn H1) as E. split; [done|].
    apply Hrest; [apply E|]. rewrite <- Hn. apply E. }
  destruct (proj2 (Ht s0 Hs0)) as (_ & Hb & _). split; [|split; [cbn; lia|]].
  - apply mirrored_app; [by eapply turn_mirrored|]. intros s1 H1. apply (Ht s1 H1).
  - intros s' (s1 & H1 & H2)%steps_app. destruct (Ht s1 H1) as [(_ & _ & E1 & E2 & E3) (_ & _ & R)].
    destruct (R s' H2) as (R1 & R2 & R3). split; [congruence|].
    split; [destruct (barge_in opts draw); lia|]. intros Hst. destruct (R3 Hst) as (R4 & R5 & R6 & R7).
    split; [done|]. rewrite !filter_cons. cbn [length].
    destruct (barge_in opts draw); repeat case_decide; try done; cbn [length]; lia.
Qed.

Lemma run_loop_result fuel draws turn emitted b s :
  (0 <= sentences_per_turn opts < 2 ^ 32 - 1)%Z → (sentences_per_turn opts < Z.of_nat fuel)%Z →
  (0 <= emitted)%Z → (emitted + Z.of_nat (length draws) < 2 ^ 64)%Z →
  state_ s = Listening → next_ (turns_ s) = turn →
  ∃ es emitted' stopped, run_loop clock opts fuel draws turn emitted b = Some (es, emitted', stopped) ∧
    loop_result draws emitted es emitted' stopped s.
Proof.
  intros Hn Hf. revert turn emitted b s.
  induction draws as [|draw draws IH]; intros turn emitted b s He Hl Hs Hnx; cbn [run_loop].
  - exists [], emitted, false. split; [done|]. split; [apply mirrored_nil|]. split; [cbn; lia|].
    intros s' H. inversion H; subst. cbn. split_and!; lia || intros _; split_and!; lia || done.
  - destruct b as [|b]; cbn [running negb]; [do 3 eexists; split; [done|apply nothing_published]|].
    destruct (sleep_total (idle_between_turns opts) b) as (sl & b1 & -> & _). cbn.
    destruct b1 as [|b1]; cbn [running negb]; [do 3 eexists; split; [done|apply nothing_published]|].
    destruct (one_turn_total fuel turn draw Hn Hf) as [script E]. rewrite E. cbn.
    destruct (play_prefix script b1) as (es & b2 & fin & -> & Hp & Hfin & Hstop). cbn.
    destruct b2 as [|b2]; cbn [running negb].
    { do 3 eexists. split; [done|]. apply stopped_result.
      - eapply mirrored_prefix; [done|by eapply turn_mirrored].
      - intros s' Hes. by eapply cut_turn. }
    destruct fin; [|by specialize (Hstop eq_refl)]. rewrite (Hfin eq_refl).
    destruct (steps_total (pubs script) s) as [s0 Hs0].
    destruct (one_turn_effect _ _ _ _ _ _ E Hs Hnx Hs0) as (T1 & T2 & _).
    replace (u64 (emitted + 1)) with (emitted + 1)%Z
      by (unfold u64; cbn [length] in Hl; rewrite Z.mod_small; lia).
    rewrite Hnx in T2. cbn [length] in Hl.
    destruct (IH (u64 (turn + 1)) (emitted + 1)%Z b2 s0 ltac:(lia) ltac:(lia) T1 T2)
      as (es' & em' & st & HR & _). rewrite HR. do 3 eexists. split; [done|].
    eapply next_turn_result; [done..|]. intros s1 Hs1 Hn1.
    destruct (IH (u64 (turn + 1)) (emitted + 1)%Z b2 s1 ltac:(lia) ltac:(lia) Hs1 Hn1)
      as (es'' & em'' & st'' & HR' & R). by simplify_eq.
Qed.
End turns.

(** With the speech events suppressed and nobody else publishing them, no
    event of the driver moves the FSM. *)
Lemma suppressed_turn_ignored clock opts fuel turn draw script s s' :
  suppress_speech_events opts = true → one_turn clock opts fuel turn draw = Some script →
  state_ s = Listening → steps s (pubs script) s' →
  state_ s' = Listening ∧ next_ (turns_ s') = next_ (turns_ s) ∧
  turns_completed_ s' = turns_completed_ s ∧ turns_interrupted_ s' = turns_interrupted_ s ∧
  turns_discarded_ s' = turns_discarded_ s.
Proof.
  intros Hsup H Hs Hes. eapply late_events; [exact Hs| |exact Hes].
  assert (∀ text cf, Forall (λ e, event_index e ≠ 0) (pubs (turn_opening clock opts turn text cf))) as Ho
    by (intros; unfold turn_opening, speech; rewrite Hsup; by repeat constructor).
  unfold one_turn in H. destruct (barge_in opts draw).
  - injection H as <-. unfold run_one_turn_with_barge_in. rewrite pubs_app.
    apply Forall_app. split; [done|by repeat constructor].
  - apply fmap_Some in H as (items & E & ->). rewrite !pubs_app. repeat (apply Forall_app; split); [done| |by repeat constructor].
    eapply Forall_impl; [by eapply loop_tagged|]. by intros ? [? _].
Qed.

(** The largest 32-bit count: the loop variable wraps before it can exceed
    it, so the loop never ends. *)
Lemma sentence_loop_endless opts fuel turn k :
  sentences_per_turn opts = (2 ^ 32 - 1)%Z → (0 <= k < 2 ^ 32)%Z → sentence_loop opts fuel turn k = None.
Proof.
  intros Hn. revert k. induction fuel as [|fuel IH]; intros k Hk; cbn [sentence_loop]; [done|].
  rewrite decide_True by lia. rewrite IH; [done|]. apply u32_range.
Qed.

(** ** Properties *)

(** The driver and the FSM stay in step. From a resting FSM with no turn
    minted, whatever numbers the generator draws and whenever [stop] comes,
    the driver's thread produces its events; each event meets an FSM whose
    active turn is the one the driver counts, so the two counters mirror each
    other; no turn is discarded; the turns the FSM closed are those the driver
    counted, or one more when [stop] came after its last event; and while
    nobody stops it the FSM comes to rest after every turn, with one
    interrupted turn per draw below the probability and one completed turn
    per other draw. *)
Theorem driver_in_step clock opts draws b s :
  suppress_speech_events opts = false → (0 <= sentences_per_turn opts < 2 ^ 32 - 1)%Z →
  (Z.of_nat (length draws) < 2 ^ 64)%Z → state_ s = Listening → next_ (turns_ s) = 1%Z →
  ∃ es emitted stopped, driver clock opts draws b = Some (es, emitted, stopped) ∧
  (0 <= emitted <= Z.of_nat (length draws))%Z ∧
  ∀ tevs, tevs.*2 = es →
  (∀ k now e, tevs !! k = Some (now, e) →
     ctx_id (active_ (exec (run (take (S k) tevs)) s)) = event_turn e) ∧
  let s' := exec (run tevs) s in
  let closed := (turns_completed_ s' - turns_completed_ s + (turns_interrupted_ s' - turns_interrupted_ s))%Z in
  turns_discarded_ s' = turns_discarded_ s ∧ (emitted <= closed <= emitted + 1)%Z ∧
  (stopped = false → state_ s' = Listening ∧ emitted = Z.of_nat (length draws) ∧
     (turns_interrupted_ s' - turns_interrupted_ s =
        Z.of_nat (length (filter (λ d, barge_in opts d = true) draws)))%Z ∧
     (turns_completed_ s' - turns_completed_ s =
        Z.of_nat (length (filter (λ d, barge_in opts d = false) draws)))%Z).
Proof.
  intros Hsup Hn Hl Hs Hnx. unfold driver, loop_fuel.
  destruct (run_loop_result clock opts Hsup (S (Z.to_nat (sentences_per_turn opts))) draws 1 0 b s
    Hn ltac:(lia) ltac:(lia) ltac:(lia) Hs Hnx) as (es & em & st & HR & Hm & Hb & R).
  exists es, em, st. split; [done|]. split; [lia|]. intros tevs Ht. split.
  - intros k now e Hk. eapply (Hm (take k es) e (drop (S k) es)).
    + rewrite <- (drop_S es e k); [by rewrite take_drop|]. rewrite <- Ht, list_lookup_fmap, Hk. done.
    + rewrite <- Ht. replace (take k tevs.*2 ++ [e]) with (take (S k) tevs).*2; [apply run_steps|].
      rewrite (take_S_r _ _ _ Hk), fmap_app. by rewrite fmap_take.
  - destruct (R _ ltac:(rewrite <- Ht; apply run_steps)) as (R1 & R2 & R3).
    split; [done|]. split; [lia|]. intros Hst. destruct (R3 Hst) as (? & ? & ? & ?). repeat split; [done|lia..].
Qed.

Lemma driver_in_step_witness :
  let opts := default_options in
  let s := exec (start 0) (fsm_new turns_init true true) in
  state_ s = Listening ∧ next_ (turns_ s) = 1%Z ∧
  ∃ es, driver (λ _ _, 0%Z) opts [1 # 2; 1 # 3] 1000 = Some (es, 2%Z, false) ∧
    let s' := exec (run (map (pair 0%Z) es)) s in
    state_ s' = Listening ∧ turns_interrupted_ s' = 0%Z ∧ turns_completed_ s' = 2%Z.
Proof.
  intros opts s. split; [reflexivity|]. split; [reflexivity|].
  destruct (driver_in_step (λ _ _, 0%Z) opts [1 # 2; 1 # 3] 1000 s) as (es & em & st & HR & _ & H);
    [reflexivity|by vm_compute|by vm_compute|reflexivity|reflexivity|].
  pose proof (f_equal (fmap (λ r, (r.1.2, r.2))) HR) as Hv. vm_compute in Hv.
  injection Hv as Hem Hst. subst em st. exists es. split; [exact HR|].
  destruct (H (map (pair 0%Z) es)) as (_ & _ & _ & H3); [by rewrite map_map, map_id|].
  destruct (H3 eq_refl) as (H4 & _ & H5 & H6). change (turns_interrupted_ s) with 0%Z in H5.
  change (turns_completed_ s) with 0%Z in H6. rewrite Z.sub_0_r in H5, H6.
  split; [exact H4|]. split; [rewrite H5; reflexivity|rewrite H6; reflexivity].
Defined.

(** ** Examples *)

Example driver_one_turn :
  (λ '(es, n, st), (length es, n, st)) <$> driver (λ _ _, 0%Z) default_options [1 # 2] 1000 = Some (23, 1%Z, false).
Proof. vm_compute. reflexivity. Qed.
Example driver_stopped :
  (λ '(es, n, st), (map event_name es, n, st)) <$> driver (λ _ _, 0%Z) default_options [1 # 2] 52
  = Some (["speech_started"; "speech_ended"], 0%Z, true)%string.
Proof. vm_compute. reflexivity. Qed.
