(* ===== verification/TtsClient.v ===== *)
(** * The TTS client (src/src/tts/openai_tts_client.hpp, .cpp, types.hpp)

    One [submit] is one POST whose answer is bare 16-bit PCM, given to the
    callbacks of the TTS bridge as it arrives. libcurl is outside the source:
    a transfer is the calls libcurl makes of the two callbacks, each with what
    the cancellation token reads there, and the result of
    [curl_easy_perform]; a callback that refuses ends the transfer with the
    code libcurl documents for it. The rendering of a double by fmt is a
    parameter too. *)
From stdpp Require Import pretty.
From S2P Require Import Prelude Json Config.
From S2P Require TtsBridge PlaybackQueue Turn.
Import TtsBridge(Cb, OnFormat, OnAudio, OnFinished, OnError).

(** ** The body of the request *)

Definition escape_char (c : ascii) : str :=
  if decide (c = quote) then [backslash; quote]
  else if decide (c = backslash) then [backslash; backslash]
  else if decide (c = "010"%char) then lit "\n"
  else if decide (c = "013"%char) then lit "\r"
  else if decide (c = "009"%char) then lit "\t"
  else if decide (byte_of c < 32)%Z then u_escape c
  else [c].
Definition json_escape (s : str) : str := flat_map escape_char s.

Definition speed_of (tempo : Z) : spec_float := SFdiv 53 1024 (double_of tempo) (double_of 160).

Section client.
(** [fmt::format("{:.3f}", x)] *)
Context (fixed3 : spec_float → str).

Definition build_body (model voice text : str) (tempo : Z) : str :=
  jlit "{'model':'" ++ json_escape model ++ jlit "','input':'" ++ json_escape text ++ jlit "',"
  ++ (if decide (voice = []) then [] else jlit "'voice':'" ++ json_escape voice ++ jlit "',")
  ++ (if decide (0 < tempo)%Z then jlit "'speed':" ++ fixed3 (speed_of tempo) ++ lit "," else [])
  ++ jlit "'response_format':'pcm'}".

(** ** Routes and URLs *)

Definition no_route : TtsVoice := {| model_id := []; voice_id := [] |}.
Definition route_for (cfg : TtsConfig) (lang : str) : TtsVoice :=
  match smap_find lang (voices_resolved cfg) with
  | Some v => v
  | None => default no_route (smap_find (fallback_lang cfg) (voices_resolved cfg))
  end.

Definition speech_url (base : str) : str :=
  (if decide (last base = Some "/"%char) then removelast base else base) ++ lit "/audio/speech".

(** The URL [probe] asks; [None] when there is no base URL. *)
Definition probe_url (cfg : TtsConfig) : option str :=
  if decide (tts_base_url cfg = []) then None
  else
    let url := match str_find (lit "/v1") (tts_base_url cfg) with
               | Some p => take p (tts_base_url cfg)
               | None => tts_base_url cfg end in
    Some ((if decide (url ≠ [] ∧ last url ≠ Some "/"%char) then url ++ lit "/" else url) ++ lit "health").

(** [probe]: [curl_ok] is CURLE_OK with the status of the answer. *)
Definition probe (cfg : TtsConfig) (request : str → option Z) : bool :=
  match probe_url cfg with
  | None => false
  | Some url => match request url with Some status => bool_decide (200 <= status < 300)%Z | None => false end
  end.

(** ** The stream *)

Record WriteCtx := MkCtx { format_announced : bool; carry_byte : option ascii }.
Definition ctx_new : WriteCtx := MkCtx false None.
Definition sample_rate : Z := 22050.

(** A [static_cast] of 16 bits to [int16_t]. *)
Definition int16 (z : Z) : Z := let z := u16 z in if decide (z < 2 ^ 15)%Z then z else (z - 2 ^ 16)%Z.
Definition sample_of (lo hi : ascii) : Z := int16 (Z.lor (byte_of lo) (Z.shiftl (byte_of hi) 8)).

(** The view of [2 * pairs] bytes as little-endian samples. *)
Fixpoint samples_of (bytes : str) : list Z :=
  match bytes with
  | lo :: hi :: bytes => sample_of lo hi :: samples_of bytes
  | _ => []
  end.

(** curl_write: [None] is the return of 0 for a cancelled request, which
    aborts; the return of 0 for no bytes is a success. *)
Definition curl_write (cancelled : bool) (ptr : str) (ctx : WriteCtx) : option (WriteCtx * list Cb) :=
  if cancelled then None
  else
    match ptr with
    | [] => Some (ctx, [])
    | first :: rest =>
        let announce := if format_announced ctx then [] else [OnFormat sample_rate] in
        let '(carried, ptr) := match carry_byte ctx with
                               | Some lo => ([OnAudio [sample_of lo first]], rest)
                               | None => ([], ptr) end in
        let pairs := Nat.div (length ptr) 2 in
        let view := if decide (0 < pairs) then [OnAudio (samples_of (take (2 * pairs) ptr))] else [] in
        let carry := if decide (Nat.modulo (length ptr) 2 = 1) then ptr !! (2 * pairs) else None in
        Some (MkCtx true carry, announce ++ carried ++ view)
    end.

Inductive CurlEvent := Write (cancelled : bool) (ptr : str) | Progress (cancelled : bool).
Inductive CURLcode := CURLE_OK | CURLE_WRITE_ERROR | CURLE_ABORTED_BY_CALLBACK | CURLE_OTHER (message : str).
#[global] Instance CURLcode_eq_dec : EqDecision CURLcode.
Proof. solve_decision. Defined.

(** curl_easy_perform: the calls libcurl would make, the code it ends with
    if no callback stops it. *)
Fixpoint perform (evs : list CurlEvent) (rc : CURLcode) (ctx : WriteCtx) : CURLcode * list Cb :=
  match evs with
  | [] => (rc, [])
  | Progress cancelled :: evs => if cancelled then (CURLE_ABORTED_BY_CALLBACK, []) else perform evs rc ctx
  | Write cancelled ptr :: evs =>
      match curl_write cancelled ptr ctx with
      | None => (CURLE_WRITE_ERROR, [])
      | Some (ctx, out) => let '(rc, outs) := perform evs rc ctx in (rc, out ++ outs)
      end
  end.

(** What the outside does to one [submit]. *)
Record Transfer := {
  cancelled_before : bool;
  easy_init : bool;
  curl_events : list CurlEvent;
  curl_result : CURLcode;
  http_status : Z;
  cancelled_after : bool;
}.
Context (curl_easy_strerror : CURLcode → str).

Definition submit (cfg : TtsConfig) (lang : str) (t : Transfer) : list Cb :=
  let route := route_for cfg lang in
  if decide (tts_base_url cfg = []) then [OnError (lit "openai_tts: cfg.tts.base_url is empty")]
  else if decide (model_id route = []) then
    [OnError (lit "openai_tts: no voice configured for lang='" ++ lang ++ lit "' (fallback '"
                ++ fallback_lang cfg ++ lit "' also unset)")]
  else if cancelled_before t then [OnError (lit "cancelled")]
  else if negb (easy_init t) then [OnError (lit "openai_tts: curl_easy_init failed")]
  else
    let '(rc, outs) := perform (curl_events t) (curl_result t) ctx_new in
    outs ++
    [if cancelled_after t then OnError (lit "cancelled")
     else if decide (rc ≠ CURLE_OK) then OnError (lit "openai_tts: curl: " ++ curl_easy_strerror rc)
     else if decide (http_status t < 200 ∨ 300 <= http_status t)%Z then
       OnError (lit "openai_tts: http " ++ lit (pretty (http_status t)) ++ lit " from " ++ speech_url (tts_base_url cfg))
     else OnFinished].

(** The body it posts. *)
Definition request_body (cfg : TtsConfig) (lang text : str) : str :=
  let route := route_for cfg lang in build_body (model_id route) (voice_id route) text (tempo_wpm cfg).
End client.

(** ** Specification *)

(** The bytes libcurl hands over before a callback stops it, and whether one
    does. *)
Fixpoint delivered (evs : list CurlEvent) : str :=
  match evs with
  | [] => []
  | Progress cancelled :: evs => if cancelled then [] else delivered evs
  | Write cancelled ptr :: evs => if cancelled then [] else ptr ++ delivered evs
  end.
Definition event_cancelled (e : CurlEvent) : bool := match e with Progress c | Write c _ => c end.
Definition aborted (evs : list CurlEvent) : bool := existsb event_cancelled evs.

(** The request is made; it succeeds. *)
Definition started (cfg : TtsConfig) (lang : str) (t : Transfer) : bool :=
  negb (bool_decide (tts_base_url cfg = [])) && negb (bool_decide (model_id (route_for cfg lang) = []))
  && negb (cancelled_before t) && easy_init t.
Definition succeeded (cfg : TtsConfig) (lang : str) (t : Transfer) : Prop :=
  started cfg lang t = true ∧ aborted (curl_events t) = false ∧ cancelled_after t = false ∧
  curl_result t = CURLE_OK ∧ (200 <= http_status t < 300)%Z.

(** ** Lemmas *)

(** *** The body *)

#[global] Instance tts_escaper : Escaper escape_char.
Proof. intros c s. by destruct c as [[] [] [] [] [] [] [] []]. Qed.

(** *** The stream *)

Definition carried (ctx : WriteCtx) : str := match carry_byte ctx with Some lo => [lo] | None => [] end.

Lemma samples_of_app l m : Nat.even (length l) = true → samples_of (l ++ m) = samples_of l ++ samples_of m.
Proof.
  remember (length l) as n eqn:En. revert l En. induction n as [n IH] using lt_wf_ind. intros l -> He.
  destruct l as [|a [|b l]]; [done|done|]. cbn. f_equal. apply (IH (length l)); [cbn; lia|done|done].
Qed.

Lemma even_parts (l : str) :
  let p := length l / 2 in
  Nat.even (length (take (2 * p) l)) = true ∧
  l = take (2 * p) l ++ match (if decide (length l mod 2 = 1) then l !! (2 * p) else None) with
                        | Some c => [c] | None => [] end.
Proof.
  intros p. pose proof (Nat.div_mod_eq (length l) 2) as Hd. fold p in Hd.
  pose proof (Nat.mod_upper_bound (length l) 2 ltac:(lia)) as Hm. split.
  - rewrite length_take. apply Nat.even_spec. exists p. lia.
  - case_decide as H1.
    + destruct (l !! (2 * p)) as [c|] eqn:E; [|apply lookup_ge_None in E; lia].
      rewrite <- (take_drop (2 * p) l) at 1. f_equal.
      rewrite (drop_S _ _ _ E), drop_ge by lia. done.
    + rewrite take_ge by lia. by rewrite app_nil_r.
Qed.

Lemma samples_nonempty l : l ≠ [] → Nat.even (length l) = true → samples_of l ≠ [].
Proof. by destruct l as [|a [|b l]]. Qed.

Lemma write_spec first ptr ctx :
  ∃ ctx' audio, curl_write false (first :: ptr) ctx
    = Some (ctx', (if format_announced ctx then [] else [OnFormat sample_rate]) ++ map OnAudio audio) ∧
    Forall (λ a, a ≠ []) audio ∧ format_announced ctx' = true ∧
    ∀ rest, samples_of (carried ctx ++ (first :: ptr) ++ rest) = concat audio ++ samples_of (carried ctx' ++ rest).
Proof.
  cbn [curl_write]. set (q := match carry_byte ctx with Some _ => _ | None => _ end).
  assert (∃ pre l, q = (map OnAudio pre, l) ∧ Forall (λ a, a ≠ []) pre ∧
    ∀ rest, samples_of (carried ctx ++ (first :: ptr) ++ rest) = concat pre ++ samples_of (l ++ rest))
    as (pre & l & -> & Hpre & Hq).
  { unfold q, carried. destruct (carry_byte ctx) as [lo|].
    - exists [[sample_of lo first]], ptr. by repeat constructor.
    - exists [], (first :: ptr). by repeat constructor. }
  destruct (even_parts l) as [He Hl]. cbv zeta in He, Hl.
  set (p := length l / 2) in *. set (tail := if decide (length l mod 2 = 1) then _ else _) in *.
  assert (∀ rest, samples_of (l ++ rest) =
    samples_of (take (2 * p) l) ++ samples_of (carried (MkCtx true tail) ++ rest)) as Hs
    by (intros rest; rewrite Hl at 1; rewrite <- app_assoc, samples_of_app by done; done).
  exists (MkCtx true tail), (pre ++ if decide (0 < p) then [samples_of (take (2 * p) l)] else []). split_and!.
  - rewrite map_app. by destruct (decide (0 < p)).
  - apply Forall_app. split; [done|]. case_decide; [|constructor]. constructor; [|constructor].
    apply samples_nonempty; [|done]. intros H0%(f_equal length). rewrite length_take in H0.
    pose proof (Nat.div_mod_eq (length l) 2) as Hd. fold p in Hd. cbn [length] in H0. lia.
  - done.
  - intros rest. rewrite Hq, Hs, concat_app, <- app_assoc. f_equal. case_decide; cbn [concat].
    + by rewrite app_nil_r.
    + by replace p with 0 by lia.
Qed.

(** Every transfer is one announcement, if anything arrives, and the samples
    of all the bytes. *)
Lemma perform_spec evs rc ctx :
  ∃ audio, (perform evs rc ctx).2 =
      (if format_announced ctx || bool_decide (delivered evs = []) then [] else [OnFormat sample_rate]) ++ map OnAudio audio ∧
    Forall (λ a, a ≠ []) audio ∧ concat audio = samples_of (carried ctx ++ delivered evs) ∧
    ((perform evs rc ctx).1 = CURLE_OK ↔ aborted evs = false ∧ rc = CURLE_OK).
Proof.
  assert (∀ ctx, samples_of (carried ctx ++ []) = []) as Hn by (intros [? []]; done).
  revert ctx. induction evs as [|[cancelled ptr|cancelled] evs IH]; intros ctx; cbn [perform delivered].
  - exists []. rewrite bool_decide_true, orb_true_r, Hn by done. naive_solver.
  - destruct cancelled.
    { exists []. rewrite bool_decide_true, orb_true_r, Hn by done. naive_solver. }
    destruct ptr as [|first ptr]; [destruct (IH ctx) as (a & H); cbn [curl_write]; exists a; by destruct (perform evs rc ctx)|].
    destruct (write_spec first ptr ctx) as (ctx' & a1 & -> & Ha1 & Hf & Hs).
    destruct (IH ctx') as (a2 & H1 & Ha2 & Hc & Hr). rewrite Hf in H1. cbn [orb app] in H1.
    destruct (perform evs rc ctx') as [rc' outs]. cbn [fst snd] in *. subst outs.
    exists (a1 ++ a2). rewrite (bool_decide_false (_ ++ _ = [])), orb_false_r by done. split_and!; try done.
    + by rewrite map_app, app_assoc.
    + by apply Forall_app.
    + by rewrite concat_app, Hs, Hc.
  - destruct cancelled; [|apply IH]. exists []. rewrite bool_decide_true, orb_true_r, Hn by done. naive_solver.
Qed.

Lemma submit_started strerror cfg lang t :
  if started cfg lang t then
    submit strerror cfg lang t =
      let '(rc, outs) := perform (curl_events t) (curl_result t) ctx_new in
      outs ++
      [if cancelled_after t then OnError (lit "cancelled")
       else if decide (rc ≠ CURLE_OK) then OnError (lit "openai_tts: curl: " ++ strerror rc)
       else if decide (http_status t < 200 ∨ 300 <= http_status t)%Z then
         OnError (lit "openai_tts: http " ++ lit (pretty (http_status t)) ++ lit " from " ++ speech_url (tts_base_url cfg))
       else OnFinished]
  else ∃ m, submit strerror cfg lang t = [OnError m].
Proof.
  unfold submit, started. case_decide; [rewrite bool_decide_true by done; cbn; eauto|].
  rewrite bool_decide_false by done. case_decide; [rewrite bool_decide_true by done; cbn; eauto|].
  rewrite bool_decide_false by done. destruct (cancelled_before t), (easy_init t); cbn; eauto.
Qed.

Lemma submit_spec strerror cfg lang t :
  let bytes := if started cfg lang t then delivered (curl_events t) else [] in
  ∃ audio fin, submit strerror cfg lang t =
      (if bool_decide (bytes = []) then [] else [OnFormat sample_rate]) ++ map OnAudio audio ++ [fin] ∧
    Forall (λ a, a ≠ []) audio ∧ concat audio = samples_of bytes ∧
    (fin = OnFinished ↔ succeeded cfg lang t) ∧ (fin = OnFinished ∨ ∃ m, fin = OnError m).
Proof.
  intros bytes. pose proof (submit_started strerror cfg lang t) as H1. unfold succeeded, bytes. clear bytes.
  destruct (started cfg lang t); [|destruct H1 as [m ->]; exists [], (OnError m); naive_solver].
  rewrite H1. destruct (perform_spec (curl_events t) (curl_result t) ctx_new) as (audio & Ho & Ha & Hc & Hr).
  destruct (perform _ _ _) as [rc outs]. cbn [fst snd] in *. subst outs. clear H1.
  cbn [format_announced ctx_new orb]. exists audio. eexists.
  split; [by rewrite <- app_assoc|]. split_and!; [done|exact Hc| |].
  - destruct (cancelled_after t); [split; [done|intros (_ & _ & ? & _); done]|].
    case_decide as Hrc; [split; [done|intros (_ & Hab & _ & Hok & _); tauto]|].
    apply Hr in Hrc as [Hab Hok].
    case_decide; [split; [done|lia]|]. split; [|done]. intros _. split_and!; (done || lia).
  - destruct (cancelled_after t); [by right; eexists|]. repeat case_decide; first [by left|by right; eexists].
Qed.

(** *** The bridge as the caller *)

Section bridge.
Context {R : Type} (rs_new : Z → Z → R) (rs_process : R → list Z → list Z * R) (rs_flush : R → option (list Z)).
Abbreviation brun := (TtsBridge.run rs_new rs_process rs_flush).

(** The callbacks of one [submit] as labels of the I/O thread: the enqueue
    follows its audio. *)
Definition client_labels (cbs : list Cb) : list (TtsBridge.Label) :=
  flat_map (λ c, TtsBridge.Callback c :: match c with OnAudio _ => [TtsBridge.Io] | _ => [] end) cbs.

(** The audio of a sentence at the rate of the device: chunk by chunk. *)
Definition resample_one (r : option R) (a : list Z) : list Z * option R :=
  match r with Some r => let '(out, r) := rs_process r a in (out, Some r) | None => (a, None) end.
Fixpoint resample_all (r : option R) (audio : list (list Z)) : list (list Z) * option R :=
  match audio with
  | [] => ([], r)
  | a :: audio => let '(o, r) := resample_one r a in let '(os, r) := resample_all r audio in (o :: os, r)
  end.
Definition heard (outs : list (list Z)) : list (list Z) := filter (λ o, o ≠ []) outs.

Lemma client_labels_app c1 c2 : client_labels (c1 ++ c2) = client_labels c1 ++ client_labels c2.
Proof. apply flat_map_app. Qed.

Record in_submit (s : TtsBridge.bridge R) (job : TtsBridge.Job) (l : TtsBridge.Locals) : Prop := {
  is_pc : TtsBridge.pc s = TtsBridge.PSubmit job l;
  is_clean : TtsBridge.got_error l = false;
  is_live : TtsBridge.is_cancelled (TtsBridge.cancel job) s = false;
  is_room : PlaybackQueue.cap_ (TtsBridge.queue_ s) = 0;
}.

(** One audio callback and the enqueue after it. *)
Definition audio_done (job : TtsBridge.Job) (s s' : TtsBridge.bridge R) (l l' : TtsBridge.Locals (Resampler := R))
    (audio outs : list (list Z)) (os : list TtsBridge.BridgeOut) : Prop :=
  in_submit s' job l' ∧ TtsBridge.same_but_audio s s' ∧ os = TtsBridge.chunk_event job <$> heard outs ∧
  PlaybackQueue.q_ (TtsBridge.queue_ s') = PlaybackQueue.q_ (TtsBridge.queue_ s) ++ (TtsBridge.chunk_of job <$> heard outs) ∧
  TtsBridge.got_format l' = TtsBridge.got_format l ∧ TtsBridge.native_rate l' = TtsBridge.native_rate l ∧
  TtsBridge.self_listen_samples l' = TtsBridge.self_listen_samples l ++ (if TtsBridge.self_listen_ s then concat audio else []).

Lemma run_one_audio a s job l :
  in_submit s job l →
  let '(s', os) := brun [TtsBridge.Callback (OnAudio a); TtsBridge.Io] s in
  let '(o, r) := resample_one (TtsBridge.resampler l) a in
  ∃ l', TtsBridge.resampler l' = r ∧ audio_done job s s' l l' [a] [o] os.
Proof.
  intros [Hpc He Hc Hcap]. cbn [TtsBridge.run TtsBridge.step]. rewrite Hpc. cbn [TtsBridge.on_callback].
  unfold TtsBridge.on_audio. rewrite He, Hc. cbn [orb].
  set (l1 := if TtsBridge.self_listen_ s then _ else _).
  assert (TtsBridge.resampler l1 = TtsBridge.resampler l ∧ TtsBridge.got_error l1 = false ∧
    TtsBridge.got_format l1 = TtsBridge.got_format l ∧ TtsBridge.native_rate l1 = TtsBridge.native_rate l ∧
    TtsBridge.self_listen_samples l1 = TtsBridge.self_listen_samples l ++ (if TtsBridge.self_listen_ s then concat [a] else []))
    as (Hr1 & He1 & Hg1 & Hn1 & Hs1).
  { unfold l1. cbn. rewrite app_nil_r. destruct (TtsBridge.self_listen_ s); [done|]. by rewrite app_nil_r. }
  clearbody l1. rewrite Hr1.
  set (x := match TtsBridge.resampler l with Some _ => _ | None => _ end).
  assert (∃ l2, x = ((resample_one (TtsBridge.resampler l) a).1, l2) ∧
    TtsBridge.resampler l2 = (resample_one (TtsBridge.resampler l) a).2 ∧ TtsBridge.got_error l2 = false ∧
    TtsBridge.got_format l2 = TtsBridge.got_format l ∧ TtsBridge.native_rate l2 = TtsBridge.native_rate l ∧
    TtsBridge.self_listen_samples l2 = TtsBridge.self_listen_samples l1) as (l2 & -> & Hr2 & He2 & Hg2 & Hn2 & Hs2).
  { unfold x. destruct (TtsBridge.resampler l) as [r|]; cbn.
    - destruct (rs_process r a) as [o r']. by eexists.
    - by exists l1. }
  destruct (resample_one (TtsBridge.resampler l) a) as [o r1]. cbn [fst snd] in *.
  unfold audio_done, heard. rewrite filter_cons. destruct (decide (o = [])) as [->|Ho].
  - rewrite decide_False by auto. exists l2. split; [done|].
    split_and!; [by split|by split|done|by rewrite app_nil_r|done..|by rewrite Hs2].
  - rewrite decide_True by done. unfold TtsBridge.io_step. cbn [TtsBridge.pc set_field].
    unfold TtsBridge.io_enqueue, PlaybackQueue.enqueue. cbn [TtsBridge.queue_ set_field].
    rewrite Hcap, bool_decide_true by done. cbn [negb andb].
    exists l2. split; [done|]. split_and!; [by split|by split|done..|by rewrite Hs2].
Qed.

Lemma run_client_audio audio s job l :
  in_submit s job l →
  let '(s', os) := brun (client_labels (map OnAudio audio)) s in
  let '(outs, r) := resample_all (TtsBridge.resampler l) audio in
  ∃ l', TtsBridge.resampler l' = r ∧ audio_done job s s' l l' audio outs os.
Proof.
  revert s l. induction audio as [|a audio IH]; intros s l Hs.
  - cbn. exists l. split; [done|]. unfold audio_done, heard. split_and!; [done|by split|done|by rewrite app_nil_r|done..|].
    destruct (TtsBridge.self_listen_ s); by rewrite app_nil_r.
  - change (client_labels (map OnAudio (a :: audio))) with
      ([TtsBridge.Callback (OnAudio a); TtsBridge.Io] ++ client_labels (map OnAudio audio)).
    rewrite TtsBridge.run_app. pose proof (run_one_audio a s job l Hs) as H1.
    destruct (brun [_; _] s) as [s1 o1]. cbn [resample_all].
    destruct (resample_one (TtsBridge.resampler l) a) as [o r1]. destruct H1 as (l1 & <- & A1 & B1 & C1 & D1 & E1 & F1 & G1).
    pose proof (IH s1 l1 A1) as H2. destruct (brun (client_labels _) s1) as [s2 o2].
    destruct (resample_all (TtsBridge.resampler l1) audio) as [outs r2].
    destruct H2 as (l2 & <- & A2 & B2 & C2 & D2 & E2 & F2 & G2). exists l2. split; [done|].
    assert (heard (o :: outs) = heard [o] ++ heard outs) as Hh by (unfold heard; by rewrite <- filter_app).
    unfold audio_done. rewrite Hh, !fmap_app. split_and!; [done| |by rewrite C1, C2|by rewrite D2, D1, app_assoc|congruence..|].
    + destruct B1, B2. split; congruence.
    + rewrite G2, G1, <- app_assoc. f_equal. destruct B1 as [_ _ _ _ _ -> _].
      destruct (TtsBridge.self_listen_ s); [|done]. cbn. by rewrite app_nil_r.
Qed.

(** From the wait to the first byte, and from the return of [submit] to the
    next wait. *)
Lemma run_job_start s job rest :
  TtsBridge.pc s = TtsBridge.PWait → TtsBridge.pending_ s = job :: rest →
  TtsBridge.is_cancelled (TtsBridge.cancel job) s = false → PlaybackQueue.cap_ (TtsBridge.queue_ s) = 0 →
  ∃ s', brun [TtsBridge.Io; TtsBridge.Io] s
    = (s', [TtsBridge.Publish (Event.TtsStarted (TtsBridge.job_turn job) (TtsBridge.job_seq job))]) ∧
    in_submit s' job TtsBridge.locals_init ∧ TtsBridge.queue_ s' = TtsBridge.queue_ s ∧
    TtsBridge.pending_ s' = rest ∧ TtsBridge.synthesized_ s' = TtsBridge.synthesized_ s ∧
    TtsBridge.errored_ s' = TtsBridge.errored_ s ∧ TtsBridge.device_rate s' = TtsBridge.device_rate s.
Proof.
  intros Hpc Hp Hc Hcap. cbn [TtsBridge.run TtsBridge.step]. unfold TtsBridge.io_step at 1. rewrite Hpc.
  unfold TtsBridge.io_pop. rewrite Hp. unfold TtsBridge.io_step. cbn [TtsBridge.pc set_field].
  unfold TtsBridge.io_begin.
  set (s1 := s <| TtsBridge.pending_ := rest |> <| TtsBridge.in_flight_ := _ |> <| TtsBridge.pc := _ |>).
  change (TtsBridge.is_cancelled (TtsBridge.cancel job) s1) with (TtsBridge.is_cancelled (TtsBridge.cancel job) s).
  rewrite Hc. eexists. split; [done|]. by split_and!.
Qed.

Definition tail_of (l : TtsBridge.Locals (Resampler := R)) : list Z :=
  match TtsBridge.resampler l with
  | Some r => if TtsBridge.got_format l then default [] (rs_flush r) else []
  | None => []
  end.

Lemma run_job_end s job l (ok : bool) m :
  in_submit s job l →
  let '(s', os) := brun [TtsBridge.Callback (if ok then OnFinished else OnError m);
                         TtsBridge.SubmitReturn; TtsBridge.Io; TtsBridge.Io; TtsBridge.Io; TtsBridge.Io] s in
  TtsBridge.pc s' = TtsBridge.PWait ∧ TtsBridge.pending_ s' = TtsBridge.pending_ s ∧
  PlaybackQueue.q_ (TtsBridge.queue_ s') = PlaybackQueue.q_ (TtsBridge.queue_ s)
    ++ [PlaybackQueue.Chunk (TtsBridge.job_turn job) (TtsBridge.job_seq job) (tail_of l) true] ∧
  TtsBridge.synthesized_ s' = (if ok then 1 else 0) + TtsBridge.synthesized_ s ∧
  TtsBridge.errored_ s' = (if ok then 0 else 1) + TtsBridge.errored_ s.
Proof.
  intros [Hpc He Hc Hcap]. cbn [TtsBridge.run TtsBridge.step]. rewrite Hpc.
  set (l1 := if ok then l else l <| TtsBridge.got_error := true |>).
  assert (tail_of l1 = tail_of l) as Htl by (unfold l1; by destruct ok).
  assert (TtsBridge.got_error l1 = negb ok) as He1 by (unfold l1; by destruct ok).
  assert (TtsBridge.on_callback rs_new rs_process (if ok then OnFinished else OnError m) job l s
    = s <| TtsBridge.pc := TtsBridge.PSubmit job l1 |>) as ->.
  { unfold l1. destruct ok; [|done]. cbn. rewrite <- Hpc. by destruct s. }
  clearbody l1. cbn [TtsBridge.pc set_field]. unfold TtsBridge.io_returned. fold (tail_of l1). rewrite Htl.
  set (tail := tail_of l). clearbody tail.
  unfold TtsBridge.io_step at 1. cbn [TtsBridge.pc set_field]. unfold TtsBridge.io_tail.
  unfold TtsBridge.is_cancelled in *. cbn [TtsBridge.world set_field]. rewrite Hc.
  unfold TtsBridge.io_step at 1. cbn [TtsBridge.pc set_field]. unfold TtsBridge.io_eos, PlaybackQueue.enqueue_blocking.
  cbn [TtsBridge.queue_ TtsBridge.world set_field]. unfold TtsBridge.is_cancelled. cbn [TtsBridge.world set_field].
  rewrite Hc, Hcap, bool_decide_true by done. cbn [orb].
  unfold TtsBridge.io_step at 1. cbn [TtsBridge.pc set_field].
  unfold TtsBridge.io_final, TtsBridge.is_cancelled. cbn [TtsBridge.world set_field]. rewrite Hc, He1.
  destruct ok; cbn; by split_and!.
Qed.

(** The resampler the format makes. *)
Definition resampler_for (bytes : str) (rate : Z) : option R :=
  if bool_decide (bytes = []) then None
  else if decide (sample_rate = rate) then None else Some (rs_new sample_rate rate).

Lemma run_format (bytes : str) s job :
  in_submit s job TtsBridge.locals_init →
  ∃ s' l, brun (client_labels (if bool_decide (bytes = []) then [] else [OnFormat sample_rate])) s = (s', []) ∧
    in_submit s' job l ∧ TtsBridge.queue_ s' = TtsBridge.queue_ s ∧ TtsBridge.pending_ s' = TtsBridge.pending_ s ∧
    TtsBridge.synthesized_ s' = TtsBridge.synthesized_ s ∧ TtsBridge.errored_ s' = TtsBridge.errored_ s ∧
    TtsBridge.resampler l = resampler_for bytes (TtsBridge.device_rate s) ∧
    (TtsBridge.resampler l ≠ None → TtsBridge.got_format l = true).
Proof.
  intros [Hpc He Hc Hcap]. unfold resampler_for. case_bool_decide.
  - exists s, TtsBridge.locals_init. split_and!; done.
  - cbn [client_labels flat_map app TtsBridge.run TtsBridge.step]. rewrite Hpc.
    cbn [TtsBridge.on_callback]. unfold TtsBridge.on_format. rewrite decide_False by (unfold sample_rate; lia).
    do 2 eexists. split; [done|]. by split_and!.
Qed.

Lemma resample_none audio : resample_all None audio = (audio, None).
Proof. induction audio as [|a audio IH]; [done|]. cbn. by rewrite IH. Qed.

Lemma resample_some r audio : is_Some (resample_all (Some r) audio).2.
Proof.
  revert r. induction audio as [|a audio IH]; intros r; [by eexists|]. cbn [resample_all resample_one].
  destruct (rs_process r a) as [o r']. specialize (IH r'). by destruct (resample_all (Some r') audio).
Qed.

(** What one sentence puts on the playback queue. *)
Definition sentence_chunks (job : TtsBridge.Job) (r : option R) (audio : list (list Z)) : list TtsBridge.AudioChunk :=
  let '(outs, r) := resample_all r audio in
  (TtsBridge.chunk_of job <$> heard outs) ++
  [PlaybackQueue.Chunk (TtsBridge.job_turn job) (TtsBridge.job_seq job)
     (match r with Some r => default [] (rs_flush r) | None => [] end) true].

Lemma run_sentence bytes audio (ok : bool) m s job rest :
  TtsBridge.pc s = TtsBridge.PWait → TtsBridge.pending_ s = job :: rest →
  TtsBridge.is_cancelled (TtsBridge.cancel job) s = false → PlaybackQueue.cap_ (TtsBridge.queue_ s) = 0 →
  let cbs := (if bool_decide (bytes = []) then [] else [OnFormat sample_rate]) ++ map OnAudio audio
             ++ [if ok then OnFinished else OnError m] in
  let s' := (brun ([TtsBridge.Io; TtsBridge.Io] ++ client_labels cbs ++
                   [TtsBridge.SubmitReturn; TtsBridge.Io; TtsBridge.Io; TtsBridge.Io; TtsBridge.Io]) s).1 in
  TtsBridge.pc s' = TtsBridge.PWait ∧ TtsBridge.pending_ s' = rest ∧
  PlaybackQueue.q_ (TtsBridge.queue_ s') = PlaybackQueue.q_ (TtsBridge.queue_ s)
    ++ sentence_chunks job (resampler_for bytes (TtsBridge.device_rate s)) audio ∧
  TtsBridge.synthesized_ s' = (if ok then 1 else 0) + TtsBridge.synthesized_ s ∧
  TtsBridge.errored_ s' = (if ok then 0 else 1) + TtsBridge.errored_ s.
Proof.
  intros Hpc Hp Hc Hcap. cbv zeta. rewrite !client_labels_app, <- !app_assoc.
  assert (client_labels [if ok then OnFinished else OnError m] = [TtsBridge.Callback (if ok then OnFinished else OnError m)])
    as -> by (by destruct ok).
  destruct (run_job_start s job rest Hpc Hp Hc Hcap) as (s1 & E1 & I1 & Q1 & P1 & Y1 & X1 & D1).
  destruct (run_format bytes s1 job I1) as (s2 & l2 & E2 & I2 & Q2 & P2 & Y2 & X2 & R2 & G2).
  rewrite TtsBridge.run_app, E1, TtsBridge.run_app, E2, TtsBridge.run_app.
  pose proof (run_client_audio audio s2 job l2 I2) as H3. rewrite R2, D1 in H3. unfold sentence_chunks.
  destruct (brun (client_labels (map OnAudio audio)) s2) as [s3 o3].
  destruct (resample_all _ audio) as [outs r] eqn:Er.
  destruct H3 as (l3 & R3 & I3 & [_ _ SP SY SX _ _] & _ & Q3 & G3 & _).
  pose proof (run_job_end s3 job l3 ok m I3) as H4. cbn [app] in *.
  destruct (brun (TtsBridge.Callback _ :: _) s3) as [s4 o4]. destruct H4 as (F1 & F2 & F3 & F4 & F5).
  cbn [fst]. split_and!; [done|congruence| |rewrite F4; congruence|rewrite F5; congruence].
  rewrite F3, Q3, Q2, Q1, <- app_assoc. do 2 f_equal. unfold tail_of. rewrite R3, G3.
  destruct r as [r|]; [|done]. rewrite G2; [done|]. rewrite R2, D1. intros E. rewrite E, resample_none in Er. done.
Qed.
End bridge.

(** ** Properties *)

Section theorems.
Context (fixed3 : spec_float → str) (strerror : CURLcode → str).

(** The body. Whatever the text and the names, quotes, backslashes and
    control characters included, a JSON reader finds in the body the members
    of the request with exactly those texts: nothing of the text can end its
    string. The voice is left out when the route has none, the speed when the
    tempo is 0. fmt prints a speed with digits and a point. *)
Theorem body_reads model voice text tempo :
  (∀ x, ∃ d n, fixed3 x = d :: n ∧ Forall (λ c, c = "."%char ∨ (48 <= byte_of c <= 57)%Z) (fixed3 x)) →
  read_object (build_body fixed3 model voice text tempo) = Some (
    [(lit "model", JString model); (lit "input", JString text)]
    ++ (if decide (voice = []) then [] else [(lit "voice", JString voice)])
    ++ (if decide (0 < tempo)%Z then [(lit "speed", JRaw (fixed3 (speed_of tempo)))] else [])
    ++ [(lit "response_format", JString (lit "pcm"))]).
Proof.
  intros Hfix.
  assert (renders (jlit "'speed':" ++ fixed3 (speed_of tempo)) (lit "speed", JRaw (fixed3 (speed_of tempo)))) as Hs.
  { destruct (Hfix (speed_of tempo)) as (d & n & E & H).
    apply (renders_raw escape_char (lit "speed")); [exists d, n; split; [done|]|].
    - rewrite E in H. apply Forall_cons in H as [[->|H] _]; [done|]. intros ->. vm_compute in H. by destruct H as [H _].
    - eapply Forall_impl; [exact H|]. intros c [->|Hc]; [done|]. split; intros ->; vm_compute in Hc; by destruct Hc. }
  pose proof (λ k t, renders_string escape_char k t) as Hr.
  set (opt_voice := if decide (voice = []) then [] else [jlit "'voice':'" ++ json_escape voice ++ [quote]]).
  set (opt_speed := if decide (0 < tempo)%Z then [jlit "'speed':" ++ fixed3 (speed_of tempo)] else []).
  trans (read_object ("{"%char :: members (jlit "'model':'" ++ json_escape model ++ [quote])
    ((jlit "'input':'" ++ json_escape text ++ [quote]) :: opt_voice ++ opt_speed ++
     [jlit "'response_format':'pcm'"]) ++ ["}"%char])).
  - f_equal. unfold build_body, members, opt_voice, opt_speed.
    change (jlit "{'model':'") with ("{"%char :: jlit "'model':'").
    change (jlit "','input':'") with (quote :: ","%char :: jlit "'input':'"). change (jlit "',") with [quote; ","%char].
    change (jlit "'response_format':'pcm'}") with (jlit "'response_format':'pcm'" ++ ["}"%char]).
    change (lit ",") with [","%char].
    repeat case_decide; cbn [app flat_map];
      repeat (progress (rewrite <- ?app_assoc, ?app_nil_r; cbn [app])); reflexivity.
  - erewrite read_object_renders; [reflexivity|apply (Hr (lit "model"))|].
    constructor; [apply (Hr (lit "input"))|]. unfold opt_voice, opt_speed.
    apply Forall2_app; [case_decide; repeat constructor; apply (Hr (lit "voice"))|].
    apply Forall2_app; [case_decide; repeat constructor; exact Hs|].
    constructor; [exact (Hr (lit "response_format") (lit "pcm"))|constructor].
Qed.

(** The stream. Whatever libcurl does, the callbacks of one [submit] are: the
    format once, before the audio and only if a byte arrives; audio, never
    empty; then exactly one of finished and error. However the bytes are cut
    into chunks the samples are those of the bytes delivered, a byte left over
    at the end dropped. Finished comes exactly when the request was made,
    nothing was cancelled, the transfer succeeded and the status is 2xx; the
    audio is handed over whatever the status. *)
Theorem stream_exact cfg lang t :
  let bytes := if started cfg lang t then delivered (curl_events t) else [] in
  ∃ audio fin, submit strerror cfg lang t =
      (if bool_decide (bytes = []) then [] else [OnFormat sample_rate]) ++ map OnAudio audio ++ [fin] ∧
    Forall (λ a, a ≠ []) audio ∧ concat audio = samples_of bytes ∧
    (fin = OnFinished ↔ succeeded cfg lang t) ∧ (fin = OnFinished ∨ ∃ m, fin = OnError m).
Proof. apply submit_spec. Qed.

(** [C23] From the server's bytes to the playback queue. For a sentence the user
    does not interrupt, with an unbounded queue, whatever the server, libcurl
    and the chunks: the bridge returns to its wait and puts on the queue the
    resampling, chunk by chunk, of exactly the samples of the bytes delivered
    (those samples themselves when the device runs at the client's rate),
    then one end of sentence with the resampler's tail; the sentence is
    counted as synthesized exactly when the request succeeded. *)
Theorem sentence_heard {R} (rs_new : Z → Z → R) rs_process rs_flush cfg t s job rest :
  TtsBridge.pc s = TtsBridge.PWait → TtsBridge.pending_ s = job :: rest →
  TtsBridge.is_cancelled (TtsBridge.cancel job) s = false → PlaybackQueue.cap_ (TtsBridge.queue_ s) = 0 →
  let lang := TtsBridge.s_lang (TtsBridge.sentence job) in
  let bytes := if started cfg lang t then delivered (curl_events t) else [] in
  let s' := (TtsBridge.run rs_new rs_process rs_flush
               ([TtsBridge.Io; TtsBridge.Io] ++ client_labels (submit strerror cfg lang t) ++
                [TtsBridge.SubmitReturn; TtsBridge.Io; TtsBridge.Io; TtsBridge.Io; TtsBridge.Io]) s).1 in
  ∃ audio, concat audio = samples_of bytes ∧
    TtsBridge.pc s' = TtsBridge.PWait ∧ TtsBridge.pending_ s' = rest ∧
    PlaybackQueue.q_ (TtsBridge.queue_ s') = PlaybackQueue.q_ (TtsBridge.queue_ s) ++
      sentence_chunks rs_process rs_flush job (resampler_for rs_new bytes (TtsBridge.device_rate s)) audio ∧
    (TtsBridge.device_rate s = sample_rate →
       concat (PlaybackQueue.samples <$>
         sentence_chunks rs_process rs_flush job (resampler_for rs_new bytes (TtsBridge.device_rate s)) audio) = samples_of bytes) ∧
    (succeeded cfg lang t → TtsBridge.synthesized_ s' = S (TtsBridge.synthesized_ s)) ∧
    (¬ succeeded cfg lang t → TtsBridge.errored_ s' = S (TtsBridge.errored_ s)).
Proof.
  intros Hpc Hp Hc Hcap lang bytes.
  destruct (submit_spec strerror cfg lang t) as (audio & fin & -> & Ha & Hb & Hs & Hf). fold bytes in Hb |- *.
  assert (∃ (ok : bool) m, fin = (if ok then OnFinished else OnError m)) as (ok & m & ->).
  { destruct Hf as [->|[m ->]]; [by exists true, []|by exists false, m]. }
  pose proof (run_sentence rs_new rs_process rs_flush bytes audio ok m s job rest Hpc Hp Hc Hcap) as H.
  cbv zeta in H. destruct H as (H1 & H2 & H3 & H4 & H5). exists audio. split_and!; [done..| | |].
  - intros Hd. assert (resampler_for rs_new bytes (TtsBridge.device_rate s) = None) as ->
      by (unfold resampler_for; rewrite Hd; case_bool_decide; [done|by rewrite decide_True]).
    unfold sentence_chunks. rewrite resample_none, fmap_app, concat_app. cbn.
    rewrite app_nil_r, <- Hb. clear. induction audio as [|a audio IH]; [done|].
    unfold heard in *. rewrite filter_cons. destruct a as [|z a]; [done|]. rewrite decide_True by done. cbn. by rewrite IH.
  - rewrite <- Hs. intros Hok. rewrite H4. by destruct ok.
  - rewrite <- Hs. intros Hok. rewrite H5. by destruct ok.
Qed.
End theorems.

Lemma sentence_heard_witness :
  let rs_new := λ _ _ : Z, tt in
  let rs_process := λ (_ : unit) (x : list Z), (x, tt) in
  let rs_flush := λ _ : unit, Some ([] : list Z) in
  let voice := {| model_id := lit "m"; voice_id := [] |} in
  let health := {| health_url := []; fail_pipeline_if_down := false; probe_interval_healthy_ms := 0;
                   probe_interval_degraded_ms := 0; degraded_max_failures := 0 |}%Z in
  let cfg := MkTtsConfig health (lit "http://tts/v1") [] [(lit "en", voice)] (lit "en") 10 0 in
  let t := {| cancelled_before := false; easy_init := true;
              curl_events := [Write false ["001"; "000"; "002"]; Progress false; Write false ["000"; "003"]]%char;
              curl_result := CURLE_OK; http_status := 200; cancelled_after := false |}%Z in
  let s := (TtsBridge.run rs_new rs_process rs_flush
              [TtsBridge.Deliver (Event.LlmStarted 1); TtsBridge.Deliver (Event.LlmSentence 1 0 (lit "Hi.") (lit "en"))]
              (TtsBridge.bridge_new 22050 (PlaybackQueue.pq_new 0) Turn.turns_init false)).1 in
  let s' := (TtsBridge.run rs_new rs_process rs_flush
               ([TtsBridge.Io; TtsBridge.Io] ++ client_labels (submit (λ _, []) cfg (lit "en") t) ++
                [TtsBridge.SubmitReturn; TtsBridge.Io; TtsBridge.Io; TtsBridge.Io; TtsBridge.Io]) s).1 in
  TtsBridge.synthesized_ s' = 1 ∧ concat (PlaybackQueue.samples <$> PlaybackQueue.q_ (TtsBridge.queue_ s')) = [1; 2]%Z.
Proof.
  intros rs_new rs_process rs_flush voice health cfg t s s'.
  destruct (sentence_heard (λ _, []) rs_new rs_process rs_flush cfg t s
    (TtsBridge.MkJob (TtsBridge.Sentence 1 0 (lit "Hi.") (lit "en")) 0) [] eq_refl eq_refl eq_refl eq_refl)
    as (audio & Ha & _ & _ & Hq & Hd & Hok & _).
  split; [apply Hok; by repeat split|].
  transitivity (concat (PlaybackQueue.samples <$> (PlaybackQueue.q_ (TtsBridge.queue_ s) ++ sentence_chunks rs_process rs_flush
    (TtsBridge.MkJob (TtsBridge.Sentence 1 0 (lit "Hi.") (lit "en")) 0)
    (resampler_for rs_new (lit "xxxxx") (TtsBridge.device_rate s)) audio))); [|exact (Hd eq_refl)].
  f_equal. f_equal. exact Hq.
Defined.

Lemma body_reads_witness :
  read_object (build_body (λ _, lit "1.125") (lit "m") (lit "v") (quote :: lit "}\" ++ ["010"%char]) 180) = Some
    [(lit "model", JString (lit "m")); (lit "input", JString (quote :: lit "}\" ++ ["010"%char]));
     (lit "voice", JString (lit "v")); (lit "speed", JRaw (lit "1.125")); (lit "response_format", JString (lit "pcm"))].
Proof.
  refine (body_reads (λ _, lit "1.125") (lit "m") (lit "v") (quote :: lit "}\" ++ ["010"%char]) 180 _).
  intros x. exists "1"%char, (lit ".125"). split; [reflexivity|].
  repeat (apply Forall_cons; split; [first [left; reflexivity|right; vm_compute; split; discriminate]|]). constructor.
Defined.
