(* ===== verification/Dsp.v ===== *)
(** * Resampler, voice-activity detector and echo canceller
    (src/src/audio/resampler.hpp, .cpp, vad.hpp, vad.cpp, apm.hpp, apm.cpp)

    The three wrappers of signal-processing libraries, each with the library
    as a parameter: libsoxr, ONNX Runtime with the Silero model, and WebRTC's
    AudioProcessing. What is modelled is what the wrappers add: sizes and
    counts, the draining loop, the cutting of a stream into windows, and the
    alignment of the echo reference with the microphone. *)
From S2P Require Import Prelude Loopback.
From S2P Require AudioPipeline.

(** ** The resampler *)

Module Resampler.
Section resampler.
(** A soxr stream: [soxr_process] takes the input, or nothing to drain, and
    the room for the output; [None] is an error. It says how much of the input
    it took, and returns at most what there is room for. *)
Context {Soxr : Type}.
Context (soxr_process : Soxr → option (list Z) → nat → option (nat * list Z * Soxr)).

Record resampler := MkResampler {
  soxr_ : Soxr;
  in_rate_ : spec_float;
  out_rate_ : spec_float;
  in_samples_ : Z;
  out_samples_ : Z;
}.
#[global] Instance eta_resampler : Eta resampler := λ s,
  MkResampler (soxr_ s) (in_rate_ s) (out_rate_ s) (in_samples_ s) (out_samples_ s).

(** The constructor; [soxr_create] is [None] when it fails. *)
Definition resampler_new (in_rate out_rate : spec_float) (soxr_create : option Soxr) : option resampler :=
  if SFleb in_rate (S754_zero false) || SFleb out_rate (S754_zero false) then None
  else (λ x, MkResampler x in_rate out_rate 0 0) <$> soxr_create.

(** [static_cast<std::size_t>] of a double that is not negative. *)
Definition trunc (x : spec_float) : nat :=
  match x with
  | S754_finite false m e =>
      Z.to_nat (if decide (0 <= e)%Z then Z.shiftl (Zpos m) e else Z.shiftr (Zpos m) (- e))
  | _ => 0
  end.
Definition output_capacity (in_count : nat) (in_rate out_rate : spec_float) : nat :=
  let ratio := SFdiv 53 1024 out_rate in_rate in
  trunc (SFmul 53 1024 (double_of (Z.of_nat in_count)) ratio) + 32.

(** [None]: an exception. *)
Definition process (ins : list Z) (s : resampler) : option (list Z * resampler) :=
  if decide (ins = []) then Some ([], s)
  else
    match soxr_process (soxr_ s) (Some ins) (output_capacity (length ins) (in_rate_ s) (out_rate_ s)) with
    | None => None
    | Some (idone, out, x) =>
        Some (out, s <| soxr_ := x |> <| in_samples_ ::= λ n, u64 (n + Z.of_nat idone) |>
                     <| out_samples_ ::= λ n, u64 (n + Z.of_nat (length out)) |>)
    end.

(** [while (true)] of flush. The result: [None] out of fuel, [Some None] an
    exception. *)
Fixpoint drain (fuel : nat) (tail : list Z) (s : resampler) : option (option (list Z * resampler)) :=
  match fuel with
  | O => None
  | S fuel =>
      match soxr_process (soxr_ s) None 2048 with
      | None => Some None
      | Some (_, out, x) =>
          let s := s <| soxr_ := x |> in
          if decide (out = []) then Some (Some (tail, s))
          else drain fuel (tail ++ out) (s <| out_samples_ ::= λ n, u64 (n + Z.of_nat (length out)) |>)
      end
  end.
Definition flush (fuel : nat) (s : resampler) := drain fuel [] s.
End resampler.
End Resampler.

(** ** The voice-activity detector *)

Module Vad.
Definition kWindowSamples16k : nat := 512.

Section vad.
(** One inference: a window of samples and the hidden state to a probability
    and the next state. *)
Context {St : Type} (zero_state : St) (infer : list Q → St → fl * St).

Record vad := MkVad { state : St; scratch : list Q; last_p : fl }.
#[global] Instance eta_vad : Eta vad := λ s, MkVad (state s) (scratch s) (last_p s).
Definition vad_new : vad := MkVad zero_state [] (Some 0%Q).

(** The constructor refuses other rates than 16 kHz, and a model that does
    not load. *)
Definition vad_create (sample_rate : Z) (loads : bool) : option vad :=
  if decide (sample_rate = 16000)%Z then if loads then Some vad_new else None else None.

Definition reset (s : vad) : vad := s <| state := zero_state |> <| scratch := [] |> <| last_p := Some 0%Q |>.

(** [Impl::run]: the first window of the scratch buffer. *)
Definition run (s : vad) : vad :=
  let '(p, st) := infer (take kWindowSamples16k (scratch s)) (state s) in
  s <| last_p := p |> <| state := st |>.

Fixpoint windows_loop (fuel : nat) (s : vad) : vad :=
  match fuel with
  | O => s
  | S fuel =>
      if decide (kWindowSamples16k ≤ length (scratch s))
      then windows_loop fuel ((run s) <| scratch ::= drop kWindowSamples16k |>)
      else s
  end.

(** [samples[i] * (1 / 32768)] is exact in a float. *)
Definition to_float (z : Z) : Q := z # 32768.

Definition push_frame (samples : list Z) (s : vad) : fl * vad :=
  if decide (samples = []) then (last_p s, s)
  else
    let s := s <| scratch ::= λ l, l ++ (to_float <$> samples) |> in
    let s := windows_loop (S (length (scratch s))) s in
    (last_p s, s).

(** A list of calls: the last probability returned. *)
Fixpoint push_all (frames : list (list Z)) (s : vad) : vad :=
  match frames with [] => s | f :: frames => push_all frames (push_frame f s).2 end.
End vad.
End Vad.

(** ** The echo canceller *)

Module Apm.
Definition samples_per_chunk (sample_rate_hz : Z) : nat := Z.to_nat (sample_rate_hz * 10 / 1000).

Record ApmConfig := MkApmConfig {
  aec_enabled : bool;
  ns_enabled : bool;
  agc_enabled : bool;
  initial_delay_estimate_ms : Z;
  max_delay_ms : Z;
  near_sample_rate_hz : Z;
  reverse_sample_rate_hz : Z;
}.

Section apm.
(** WebRTC's processor and the reference's resampler. *)
Context {W R : Type}.
Context (set_stream_delay_ms : Z → W → W).
Context (ProcessReverseStream : list Z → W → W).
Context (ProcessStream : list Z → W → list Z * W).
Context (GetStatistics : W → option Z * fl).
Context (resample : list Z → R → list Z * R).

Record apm := MkApm {
  cfg : ApmConfig;
  loopback : bool;          (** a sink was given *)
  processor : option (W * R);
  delay_ms : Z;
  erle_db : fl;
  frames : Z;
}.
#[global] Instance eta_apm : Eta apm := λ s,
  MkApm (cfg s) (loopback s) (processor s) (delay_ms s) (erle_db s) (frames s).

(** The constructor; [create] is WebRTC's, after [ApplyConfig]. *)
Definition apm_new (c : ApmConfig) (sink_given : bool) (create : option W) (r : R) : apm :=
  let inactive := MkApm c sink_given None (-1) None 0 in
  if negb (aec_enabled c) && negb (ns_enabled c) && negb (agc_enabled c) then inactive
  else
    match create with
    | None => inactive
    | Some w =>
        let w := if aec_enabled c then set_stream_delay_ms (initial_delay_estimate_ms c) w else w in
        inactive <| processor := Some (w, r) |>
    end.

Definition aec_active (s : apm) : bool := bool_decide (processor s ≠ None) && aec_enabled (cfg s).

(** The reference window: cut, or padded with zeros, to the size of the
    frame. *)
Definition fit (n : nat) (l : list Z) : list Z :=
  if decide (n ≤ length l) then take n l else l ++ replicate (n - length l) 0%Z.

Definition process (lb : sink) (mic_frame : list Z) (capture_time : Z) (s : apm) : list Z * apm :=
  let s := s <| frames ::= λ n, u64 (n + 1) |> in
  let expected := samples_per_chunk (near_sample_rate_hz (cfg s)) in
  match processor s with
  | None => (mic_frame, s)
  | Some (w, r) =>
      if decide (length mic_frame ≠ expected) then (mic_frame, s)
      else
        let ref_in := samples_per_chunk (reverse_sample_rate_hz (cfg s)) in
        let ref_48k := if loopback s then aligned capture_time ref_in lb else replicate ref_in 0%Z in
        let '(ref_resampled, r) := resample ref_48k r in
        let w := ProcessReverseStream (fit expected ref_resampled) w in
        let w := if aec_enabled (cfg s) then set_stream_delay_ms (initial_delay_estimate_ms (cfg s)) w else w in
        let '(near_out, w) := ProcessStream mic_frame w in
        let '(delay, erle) := GetStatistics w in
        (near_out, s <| processor := Some (w, r) |> <| delay_ms ::= λ d, default d delay |>
                     <| erle_db ::= λ e, match erle with Some _ => erle | None => e end |>)
  end.
End apm.
End Apm.

(** ** Draining the resampler *)

Section drain.
Context {Soxr : Type} (soxr_process : Soxr → option (list Z) → nat → option (nat * list Z * Soxr)).
Import Resampler.

(** The chunks soxr still holds, until it gives nothing. *)
Inductive drains : Soxr → list (list Z) → Soxr → Prop :=
  | drains_stop x n x' : soxr_process x None 2048 = Some (n, [], x') → drains x [] x'
  | drains_more x n out x' outs x'' :
      soxr_process x None 2048 = Some (n, out, x') → out ≠ [] → drains x' outs x'' → drains x (out :: outs) x''.

(** [flush] ends with the first empty answer and returns all that was held,
    in order, counted. *)
Lemma flush_all s outs x fuel :
  drains (soxr_ s) outs x → length outs < fuel →
  (0 <= out_samples_ s)%Z → (out_samples_ s + Z.of_nat (length (concat outs)) < 2 ^ 64)%Z →
  flush soxr_process fuel s = Some (Some (concat outs,
    s <| soxr_ := x |> <| out_samples_ ::= λ n, n + Z.of_nat (length (concat outs)) |>%Z)).
Proof.
  unfold flush. intros Hd. change (concat outs) with ([] ++ concat outs) at 2. generalize ([] : list Z) as tail.
  remember (soxr_ s) as x0 eqn:Ex. revert s fuel Ex.
  induction Hd as [x n x' H|x n out x' outs x'' H Ho Hd IH]; intros s fuel -> tail Hf H0 Hr; destruct fuel as [|fuel];
    cbn [length] in Hf; try lia; cbn [drain]; rewrite H.
  - rewrite decide_True by done. rewrite app_nil_r. cbn. do 3 f_equal. destruct s; unfold set_field; cbn. by rewrite Z.add_0_r.
  - rewrite decide_False by done. cbn [concat] in *. rewrite length_app in Hr.
    rewrite (IH (_ <| out_samples_ ::= _ |>)); [|done|lia|cbn; unfold u64; rewrite Z.mod_small; lia
      |cbn; unfold u64; rewrite Z.mod_small; lia].
    cbn. rewrite <- app_assoc. do 3 f_equal. unfold set_field. cbn. f_equal. unfold u64.
    rewrite Z.mod_small by lia. rewrite length_app. lia.
Qed.
End drain.

(** ** The detector's windows *)

Section vad_theory.
Context {St : Type} (zero_state : St) (infer : list Q → St → fl * St).
Import Vad.

Abbreviation W := kWindowSamples16k.
Lemma W_pos : 0 < W.
Proof. unfold kWindowSamples16k. lia. Qed.
#[local] Opaque kWindowSamples16k.

(** The model on the first [k] windows of a stream. *)
Fixpoint detect (k : nat) (l : list Q) (p : fl) (st : St) : fl * St :=
  match k with
  | O => (p, st)
  | S k => let '(p, st) := infer (take W l) st in detect k (drop W l) p st
  end.

Lemma detect_app k l m p st : W * k ≤ length l → detect k (l ++ m) p st = detect k l p st.
Proof.
  revert l p st. induction k as [|k IH]; intros l p st Hl; [done|]. cbn [detect].
  rewrite take_app_le, drop_app_le by lia. destruct (infer (take W l) st) as [p' st'].
  apply IH. rewrite length_drop. lia.
Qed.

Lemma detect_add k1 k2 l p st :
  detect (k1 + k2) l p st = let '(p, st) := detect k1 l p st in detect k2 (drop (W * k1) l) p st.
Proof.
  revert l p st. induction k1 as [|k1 IH]; intros l p st; [done|]. cbn [Nat.add detect].
  destruct (infer (take W l) st) as [p' st']. rewrite IH.
  destruct (detect k1 (drop W l) p' st'). rewrite drop_drop. do 2 f_equal. lia.
Qed.

Lemma windows_loop_spec fuel s :
  length (scratch s) < W * fuel →
  windows_loop infer fuel s =
    let k := length (scratch s) / W in
    let '(p, st) := detect k (scratch s) (last_p s) (state s) in MkVad st (drop (W * k) (scratch s)) p.
Proof.
  pose proof W_pos as Hw. revert s. induction fuel as [|fuel IH]; intros s Hf; [lia|]. cbn [windows_loop].
  case_decide as Hd.
  - assert (length (scratch s) / W = S ((length (scratch s) - W) / W)) as ->.
    { replace (length (scratch s)) with (length (scratch s) - W + 1 * W) at 1 by lia. rewrite Nat.div_add; lia. }
    unfold run. cbn [detect]. destruct (infer (take W (scratch s)) (state s)) as [p st].
    rewrite IH by (cbn [scratch set_field]; rewrite length_drop; lia). cbn [scratch state last_p set_field]. rewrite length_drop.
    destruct (detect _ _ _ _). rewrite drop_drop. do 2 f_equal. lia.
  - rewrite Nat.div_small by lia. by destruct s.
Qed.

(** What the calls have done to the stream [all] so far. *)
Definition vad_at (all : list Q) : vad :=
  let k := length all / W in
  let '(p, st) := detect k all (Some 0%Q) zero_state in MkVad st (drop (W * k) all) p.

Lemma push_frame_at all xs : push_frame infer xs (vad_at all) = let v := vad_at (all ++ (to_float <$> xs)) in (last_p v, v).
Proof.
  pose proof W_pos as Hw. unfold push_frame. case_decide as Hx; [subst xs; by rewrite app_nil_r|].
  pose proof (Nat.Div0.mul_div_le (length all) W) as Hk.
  set (ys := to_float <$> xs). clearbody ys. unfold vad_at.
  set (k := length all / W) in *.
  assert (length (all ++ ys) / W = k + length (drop (W * k) all ++ ys) / W) as Hlen.
  { rewrite !length_app, length_drop.
    replace (length all + length ys) with (length all - W * k + length ys + k * W) by lia.
    rewrite Nat.div_add by lia. lia. }
  rewrite Hlen, detect_add, detect_app by done. rewrite drop_app_le by done.
  destruct (detect k all (Some 0%Q) zero_state) as [p st]. set (rest := drop (W * k) all ++ ys) in *.
  rewrite windows_loop_spec by (cbn [scratch set_field]; nia). cbn [scratch state last_p set_field]. fold rest.
  destruct (detect (length rest / W) rest p st) as [p' st']. cbn [last_p]. do 2 f_equal.
  unfold rest. rewrite <- (drop_app_le all ys) by done. rewrite drop_drop. f_equal. lia.
Qed.

Lemma push_all_at frames all :
  push_all infer frames (vad_at all) = vad_at (all ++ (to_float <$> concat frames)).
Proof.
  revert all. induction frames as [|f frames IH]; intros all; cbn [push_all concat].
  - by rewrite app_nil_r.
  - rewrite push_frame_at. cbn [snd]. rewrite IH. by rewrite fmap_app, app_assoc.
Qed.

Lemma vad_at_nil : vad_at [] = vad_new zero_state.
Proof. unfold vad_at. cbn [length]. rewrite Nat.Div0.div_0_l. cbn [detect]. by rewrite drop_nil. Qed.
End vad_theory.

(** ** The canceller's blocks *)

Section apm_theory.
(** WebRTC as any function of the calls made so far: its state is their
    list. *)
Inductive Call := Delay (ms : Z) | Reverse (ref : list Z) | Stream (near : list Z).
Context {R : Type} (answer : list Call → list Z → list Z) (stats : list Call → option Z * fl).
Context (resample : list Z → R → list Z * R).
(** The loopback ring as it is when the canceller reads it for a block: the
    audio callback writes it at any moment. *)
Context (rings : nat → sink).

Abbreviation Apm := (Apm.apm (W := list Call) (R := R)).
(** The canceller and the number of blocks it has had. *)
Definition apm_process (l : list Z) (t : Z) (s : Apm * nat) : list Z * (Apm * nat) :=
  let '(out, a) := Apm.process (λ ms w, w ++ [Delay ms]) (λ l w, w ++ [Reverse l]) (λ l w, (answer w l, w ++ [Stream l])) stats
    resample (rings s.2) l t s.1 in
  (out, (a, S s.2)).

(** The echo stage of the pipeline over its frames, each with the instant of
    its capture. *)
Abbreviation pipeline := (AudioPipeline.pipeline (R := unit) (V := unit) (A := (Apm * nat)%type)).
Fixpoint aec_frames (fs : list (Z * list Z)) (s : pipeline) : list (list Z) * pipeline :=
  match fs with
  | [] => ([], s)
  | (t, xs) :: fs =>
      let '(out, s) := AudioPipeline.aec_stage (λ a, Apm.aec_active a.1) apm_process t xs s in
      let '(outs, s) := aec_frames fs s in (default [] out :: outs, s)
  end.

(** *** What the canceller should do *)

(** The instants of the blocks: each that of the frame that completes it,
    from [pending] samples before the first frame. *)
Fixpoint completed (block pending : nat) (fs : list (Z * list Z)) : list Z :=
  match fs with
  | [] => []
  | (t, xs) :: fs =>
      replicate ((pending + length xs) / block) t ++ completed block ((pending + length xs) mod block) fs
  end.

(** Block after block of the stream: the window of the ring at the instant,
    resampled by the one resampler as it is after the block before, fitted,
    the delay, the block. The results, the resampler and the calls. *)
Definition window (c : Apm.ApmConfig) (given : bool) (t : Z) (lb : sink) : list Z :=
  let n := Apm.samples_per_chunk (Apm.reverse_sample_rate_hz c) in
  if given then aligned t n lb else replicate n 0%Z.
Fixpoint echo (c : Apm.ApmConfig) (given : bool) (block k : nat) (ts : list Z) (l : list Z) (r : R) (log : list Call) :
    list (list Z) * R * list Call :=
  match ts with
  | [] => ([], r, log)
  | t :: ts =>
      let '(ref, r) := resample (window c given t (rings k)) r in
      let log := log ++ [Reverse (Apm.fit block ref); Delay (Apm.initial_delay_estimate_ms c)] in
      let out := answer log (take block l) in
      let '(outs, r, log) := echo c given block (S k) ts (drop block l) r (log ++ [Stream (take block l)]) in
      (out :: outs, r, log)
  end.

Lemma echo_app c given block k ts1 ts2 l r log :
  echo c given block k (ts1 ++ ts2) l r log =
  let '(o1, r1, log1) := echo c given block k ts1 l r log in
  let '(o2, r2, log2) := echo c given block (k + length ts1) ts2 (drop (block * length ts1) l) r1 log1 in
  (o1 ++ o2, r2, log2).
Proof.
  revert k l r log. induction ts1 as [|t ts1 IH]; intros k l r log; cbn [echo app length].
  - rewrite Nat.mul_0_r, Nat.add_0_r. cbn [drop]. by destruct (echo _ _ _ _ _ _ _ _) as [[o2 r2] log2].
  - destruct (resample _ r) as [ref r1]. rewrite IH. destruct (echo _ _ _ _ ts1 _ _ _) as [[o1 r2] log2].
    replace (S k + length ts1) with (k + S (length ts1)) by lia. rewrite drop_drop.
    replace (block + block * length ts1) with (block * S (length ts1)) by lia.
    by destruct (echo _ _ _ _ ts2 _ _ _) as [[o3 r3] log3].
Qed.

(** Samples after the last block do not matter. *)
Lemma echo_more c given block k ts l m r log :
  block * length ts ≤ length l → echo c given block k ts (l ++ m) r log = echo c given block k ts l r log.
Proof.
  revert k l r log. induction ts as [|t ts IH]; intros k l r log Hl; cbn [echo length] in *; [done|].
  destruct (resample _ r) as [ref r1]. rewrite take_app_le, drop_app_le by lia.
  rewrite IH by (rewrite length_drop; lia). done.
Qed.

Lemma completed_length block pending fs :
  pending < block → length (completed block pending fs) = (pending + length (concat fs.*2)) / block.
Proof.
  revert pending. induction fs as [|[t xs] fs IH]; intros pending Hp; cbn [completed].
  - cbn. by rewrite Nat.add_0_r, Nat.div_small.
  - rewrite length_app, length_replicate, IH by (apply Nat.mod_upper_bound; lia). cbn. rewrite length_app, Nat.add_assoc.
    pose proof (Nat.div_mod_eq (pending + length xs) block) as Hd.
    set (q := (pending + length xs) / block) in *. set (m := (pending + length xs) mod block) in *.
    replace (pending + length xs + length (concat fs.*2)) with (m + length (concat fs.*2) + q * block) by lia.
    rewrite Nat.div_add by lia. lia.
Qed.

(** The frame at whose instant a block is processed holds its last sample. *)
Lemma completed_frame block pending fs i t :
  pending < block → completed block pending fs !! i = Some t →
  ∃ j xs, fs !! j = Some (t, xs) ∧
    pending + length (concat (take j fs).*2) < block * S i ≤ pending + length (concat (take (S j) fs).*2).
Proof.
  revert pending i. induction fs as [|[t0 xs] fs IH]; intros pending i Hp Hi; cbn [completed] in Hi; [done|].
  pose proof (Nat.div_mod_eq (pending + length xs) block) as Hd.
  set (q := (pending + length xs) / block) in *. set (m := (pending + length xs) mod block) in *.
  assert (m < block) as Hm by (apply Nat.mod_upper_bound; lia).
  apply lookup_app_Some in Hi as [Hi|[Hq Hi]].
  - apply lookup_replicate in Hi as [-> Hi]. exists 0, xs. cbn. rewrite app_nil_r. split; [done|]. nia.
  - rewrite length_replicate in *. destruct (IH m (i - q) Hm Hi) as (j & xs' & Hj & H1 & H2). exists (S j), xs'.
    split; [done|]. cbn [take] in H2 |- *. rewrite !fmap_cons. cbn [concat snd]. rewrite !length_app. nia.
Qed.

(** *** The code does it *)

(** A canceller in operation on blocks of [block] samples, with its log, its
    resampler and the number of blocks it has had. *)
Record active (c : Apm.ApmConfig) (given : bool) (r : R) (log : list Call) (k : nat) (s : Apm * nat) : Prop := {
  act_processor : Apm.processor s.1 = Some (log, r);
  act_cfg : Apm.cfg s.1 = c;
  act_loopback : Apm.loopback s.1 = given;
  act_count : s.2 = k;
}.

Section blocks.
Variables (c : Apm.ApmConfig) (given : bool) (block : nat).
Hypothesis enabled : Apm.aec_enabled c = true.
Hypothesis block_size : Apm.samples_per_chunk (Apm.near_sample_rate_hz c) = block.
Hypothesis block_pos : 0 < block.

Lemma process_block l t r log k s :
  active c given r log k s → length l = block →
  let '(out, s') := apm_process l t s in
  let '(outs, r', log') := echo c given block k [t] l r log in
  [out] = outs ∧ active c given r' log' (S k) s'.
Proof.
  intros [H1 H2 H3 H4] Hl. destruct s as [a n]. cbn in H1, H2, H3, H4. subst n.
  unfold apm_process, Apm.process. cbn [fst snd Apm.processor Apm.cfg Apm.loopback set_field].
  rewrite H1, H2, H3, block_size, decide_False by (intros ?; done). cbn [echo]. unfold window.
  destruct (resample _ r) as [ref r']. rewrite enabled, take_ge by lia. rewrite <- !app_assoc. cbn [app].
  destruct (stats _) as [dl er]. split; [done|]. by split.
Qed.

Lemma blocks_echo t fuel carry r log k s :
  length carry < fuel → active c given r log k s →
  let n := length carry / block in
  let '(out, rest, s') := AudioPipeline.apm_blocks apm_process fuel block t carry s in
  let '(outs, r', log') := echo c given block k (replicate n t) carry r log in
  out = concat outs ∧ rest = drop (block * n) carry ∧ active c given r' log' (k + n) s'.
Proof.
  revert carry r log k s. induction fuel as [|fuel IH]; intros carry r log k s Hf Ha; [lia|].
  cbn [AudioPipeline.apm_blocks]. cbv zeta. case_decide as Hd.
  - assert (length carry / block = S ((length carry - block) / block)) as ->.
    { replace (length carry) with (length carry - block + 1 * block) at 1 by lia. rewrite Nat.div_add; lia. }
    pose proof (process_block (take block carry) t r log k s Ha ltac:(rewrite length_take; lia)) as Hp.
    destruct (apm_process (take block carry) t s) as [out s1]. cbn [replicate]. change (t :: ?x) with ([t] ++ x). rewrite echo_app.
    assert (echo c given block k [t] carry r log = echo c given block k [t] (take block carry) r log) as ->.
    { rewrite <- (take_drop block carry) at 1. apply echo_more. cbn. rewrite length_take. lia. }
    destruct (echo c given block k [t] _ r log) as [[o1 r1] log1]. destruct Hp as [<- Hp].
    specialize (IH (drop block carry) r1 log1 (S k) s1 ltac:(rewrite length_drop; lia) Hp).
    destruct (AudioPipeline.apm_blocks _ fuel block t (drop block carry) s1) as [[outs rest] s2].
    cbn [length]. rewrite Nat.mul_1_r, Nat.add_1_r. cbv zeta in IH. rewrite length_drop in IH.
    destruct (echo _ _ _ (S k) _ _ _ _) as [[o2 r2] log2].
    destruct IH as (-> & -> & H3). split; [done|]. rewrite drop_drop. split; [f_equal; lia|].
    by replace (k + S ((length carry - block) / block)) with (S k + (length carry - block) / block) by lia.
  - rewrite Nat.div_small by lia. cbn. rewrite Nat.mul_0_r, Nat.add_0_r. done.
Qed.

(** The stage of one frame, from a carry shorter than a block. *)
Record stage_ok (r : R) (log : list Call) (k : nat) (s : pipeline) : Prop := {
  st_active : ∃ a, AudioPipeline.apm_ s = Some a ∧ active c given r log k a;
  st_carry : length (AudioPipeline.apm_carry_ s) < block;
  st_rate : Z.to_nat (AudioPipeline.output_sample_rate (AudioPipeline.cfg_ s) / 100) = block;
}.

Lemma stage_echo t xs r log k s :
  stage_ok r log k s →
  let carry := AudioPipeline.apm_carry_ s ++ xs in
  let n := length carry / block in
  let '(out, s') := AudioPipeline.aec_stage (λ a, Apm.aec_active a.1) apm_process t xs s in
  let '(outs, r', log') := echo c given block k (replicate n t) carry r log in
  default [] out = concat outs ∧ AudioPipeline.apm_carry_ s' = drop (block * n) carry ∧ stage_ok r' log' (k + n) s'.
Proof.
  intros [(a & E & Ha) Hc Hr] carry n. unfold AudioPipeline.aec_stage. rewrite E, Hr.
  assert (Apm.aec_active a.1 = true) as ->.
  { unfold Apm.aec_active. destruct Ha as [H1 H2 _ _]. by rewrite H1, H2, enabled, bool_decide_true. }
  pose proof (blocks_echo t (S (length carry)) carry r log k a ltac:(lia) Ha) as H. fold carry. cbv zeta in H. fold n in H.
  destruct (AudioPipeline.apm_blocks _ _ _ _ _ _) as [[out rest] a'].
  destruct (echo _ _ _ _ _ _ _ _) as [[outs r'] log']. destruct H as (-> & -> & Ha').
  split; [|split; [done|]].
  - case_decide as Ho; [by rewrite Ho|done].
  - split; [by exists a'| |done]. cbn. rewrite length_drop. pose proof (Nat.div_mod_eq (length carry) block).
    pose proof (Nat.mod_upper_bound (length carry) block ltac:(lia)). fold n in H. lia.
Qed.

Lemma frames_echo fs r log k s :
  stage_ok r log k s →
  let stream := AudioPipeline.apm_carry_ s ++ concat fs.*2 in
  let ts := completed block (length (AudioPipeline.apm_carry_ s)) fs in
  let '(outs, s') := aec_frames fs s in
  let '(blocks, r', log') := echo c given block k ts stream r log in
  concat outs = concat blocks ∧ AudioPipeline.apm_carry_ s' = drop (block * length ts) stream ∧
  stage_ok r' log' (k + length ts) s'.
Proof.
  revert r log k s. induction fs as [|[t xs] fs IH]; intros r log k s Hs; cbn [aec_frames completed]; cbv zeta.
  - cbn. rewrite Nat.mul_0_r, Nat.add_0_r, app_nil_r. done.
  - pose proof (stage_echo t xs r log k s Hs) as H1. cbv zeta in H1. cbn [fmap list_fmap concat snd]. rewrite app_assoc.
    set (carry := AudioPipeline.apm_carry_ s ++ xs) in *. rewrite <- length_app. fold carry.
    pose proof (Nat.div_mod_eq (length carry) block) as Hd. set (n := length carry / block) in *.
    destruct (AudioPipeline.aec_stage _ _ t xs s) as [out s1]. rewrite echo_app, length_replicate.
    rewrite echo_more by (rewrite length_replicate; lia).
    destruct (echo _ _ _ _ (replicate n t) _ _ _) as [[o1 r1] log1]. destruct H1 as (H1 & H2 & H3).
    specialize (IH r1 log1 (k + n) s1 H3). cbv zeta in IH.
    assert (length (AudioPipeline.apm_carry_ s1) = length carry mod block) as Hm by (rewrite H2, length_drop; lia).
    rewrite Hm, H2 in IH. rewrite drop_app_le by lia.
    destruct (aec_frames fs s1) as [outs s2]. destruct (echo _ _ _ _ (completed _ _ _) _ _ _) as [[o2 r2] log2].
    destruct IH as (G1 & G2 & G3). cbn [concat]. rewrite concat_app, H1, G1. split; [done|].
    rewrite length_app, length_replicate, Nat.add_assoc. split; [|done].
    rewrite G2, <- (drop_app_le carry) by lia. rewrite drop_drop. f_equal. lia.
Qed.
End blocks.
End apm_theory.

(** ** Properties *)

(** The detector hears the whole stream. However the samples are cut into
    calls, the model has been run on exactly the consecutive windows of 512
    samples of the stream from its start, each once and in order with the
    state of the one before; the probability returned is that of the last
    whole window (0 before the first); the rest of the stream, less than a
    window, is kept. *)
Theorem vad_windows {St} (zero : St) infer frames :
  let all := Vad.to_float <$> concat frames in
  let k := length all / 512 in
  let v := Vad.push_all infer frames (Vad.vad_new zero) in
  (Vad.last_p v, Vad.state v) = detect infer k all (Some 0%Q) zero ∧
  Vad.scratch v = drop (512 * k) all ∧ length (Vad.scratch v) < 512.
Proof.
  intros all k v. unfold v. rewrite <- (vad_at_nil zero infer), push_all_at. cbn [app]. fold all. unfold vad_at.
  change Vad.kWindowSamples16k with 512. fold k. destruct (detect infer k all (Some 0%Q) zero) as [p st].
  split_and!; [done|done|]. cbn [Vad.scratch]. rewrite length_drop.
  pose proof (Nat.div_mod_eq (length all) 512) as Hd. pose proof (Nat.mod_upper_bound (length all) 512 ltac:(lia)).
  fold k in Hd. clearbody k. lia.
Qed.

(** [C35] The canceller sees the microphone without a gap, each block with
    its own reference. Over any frames of the capture pipeline, of whatever
    lengths the resampler gives, with WebRTC any function of the calls it has
    had and the audio callback writing the loopback ring at any moment: the
    calls, the results and the resampler of the reference are those of
    [echo], which takes the stream block of 10 ms by block, none lost,
    repeated or out of order, each after its reference, the window of the
    ring at the instant of the frame that completed the block (which holds
    its last sample) through the one resampler, and after the delay; what is
    left over, less than a block, is the carry; and what goes on downstream is
    what the canceller gave. *)
Theorem aec_gapless {R} answer stats (resample : list Z → R → list Z * R) rings fs s a log r k :
  AudioPipeline.apm_ s = Some (a, k) → AudioPipeline.apm_carry_ s = [] →
  Apm.processor a = Some (log, r) → Apm.aec_enabled (Apm.cfg a) = true → (100 <= Apm.near_sample_rate_hz (Apm.cfg a))%Z →
  AudioPipeline.output_sample_rate (AudioPipeline.cfg_ s) = Apm.near_sample_rate_hz (Apm.cfg a) →
  let block := Z.to_nat (Apm.near_sample_rate_hz (Apm.cfg a) / 100) in
  let stream := concat fs.*2 in
  let ts := completed block 0 fs in
  let '(outs, s') := aec_frames answer stats resample rings fs s in
  let '(blocks, r', log') := echo answer resample rings (Apm.cfg a) (Apm.loopback a) block k ts stream r log in
  (∃ a', AudioPipeline.apm_ s' = Some (a', k + length ts) ∧ Apm.processor a' = Some (log', r')) ∧
  concat outs = concat blocks ∧
  length ts = length stream / block ∧ AudioPipeline.apm_carry_ s' = drop (block * length ts) stream ∧
  length (AudioPipeline.apm_carry_ s') < block ∧
  ∀ i t, ts !! i = Some t → ∃ j xs, fs !! j = Some (t, xs) ∧
    length (concat (take j fs).*2) < block * S i ≤ length (concat (take (S j) fs).*2).
Proof.
  intros E Hc Hp He Hr Ho block stream ts.
  assert (0 < block) as Hb.
  { unfold block. assert (1 <= Apm.near_sample_rate_hz (Apm.cfg a) / 100)%Z by (apply Z.div_le_lower_bound; lia). lia. }
  assert (Apm.samples_per_chunk (Apm.near_sample_rate_hz (Apm.cfg a)) = block) as Hs.
  { unfold Apm.samples_per_chunk, block. f_equal. change 1000%Z with (100 * 10)%Z. by rewrite Z.div_mul_cancel_r. }
  assert (stage_ok (Apm.cfg a) (Apm.loopback a) block r log k s) as Hok.
  { split; [exists (a, k); by repeat split|by rewrite Hc|by rewrite Ho]. }
  pose proof (frames_echo answer stats resample rings (Apm.cfg a) (Apm.loopback a) block He Hs Hb fs r log k s Hok) as H.
  rewrite Hc in H. cbn [app length] in H. cbv zeta in H. fold ts stream in H.
  destruct (aec_frames _ _ _ _ fs s) as [outs s']. destruct (echo _ _ _ _ _ _ _ _ _ _ _) as [[blocks r'] log'].
  destruct H as (H1 & H2 & [(a' & E' & Ha') H3 _]). split.
  { destruct a' as [a' k'], Ha' as [G1 _ _ G2]. cbn in G1, G2. exists a'. by rewrite <- G2. }
  split; [done|]. split; [by apply completed_length|]. split; [done|]. split; [done|].
  intros i t Hi. by apply (completed_frame block 0 fs i t).
Qed.

Lemma aec_gapless_witness :
  let answer := λ (_ : list Call) (l : list Z), l in
  let stats := λ _ : list Call, (None : option Z, None : fl) in
  let resample := λ (l : list Z) (n : nat), ((λ x, x + Z.of_nat n)%Z <$> l, S n) in
  let c := Apm.MkApmConfig true true true 50 250 200 200 in
  let a := Apm.apm_new (λ ms w, w ++ [Delay ms]) c true (Some []) 0 in
  let ep := {| Endpointer.onset_threshold := None; Endpointer.offset_threshold := None; Endpointer.min_speech_ms := 0;
               Endpointer.hangover_ms := 0; Endpointer.pre_padding_ms := 0; Endpointer.post_padding_ms := 0 |}%Z in
  let s := AudioPipeline.pipeline_new (AudioPipeline.MkConfig 200 ep 0 0 0 0 0) tt (None : option unit) (Some (a, 0)) false in
  let lb := on_emitted [7; 8; 9; 10]%Z 1000000000 (sink_new 8 200) in
  let rings := λ _, lb in
  let fs := [(1000000000, [1]); (1010000000, [2; 3; 4]); (1020000000, [5])]%Z in
  completed 2 0 fs = [1010000000; 1010000000]%Z ∧
  let '(outs, s') := aec_frames answer stats resample rings fs s in
  concat outs = [1; 2; 3; 4]%Z ∧ AudioPipeline.apm_carry_ s' = [5]%Z ∧
  ∃ a', AudioPipeline.apm_ s' = Some (a', 2) ∧
    Apm.processor a' = Some ([Delay 50; Reverse [9; 10]; Delay 50; Stream [1; 2]; Reverse [10; 11]; Delay 50; Stream [3; 4]]%Z, 2).
Proof.
  intros answer stats resample c a ep s lb rings fs. split; [reflexivity|].
  pose proof (aec_gapless answer stats resample rings fs s a [Delay 50] 0 0 eq_refl eq_refl eq_refl eq_refl
    ltac:(vm_compute; discriminate) eq_refl) as H.
  cbv zeta in H. destruct (aec_frames answer stats resample rings fs s) as [outs s'].
  remember (echo _ _ _ _ _ _ _ _ _ _ _) as e eqn:Ee in H. vm_compute in Ee. subst e.
  destruct H as ((a' & Ha & Hp) & Ho & _ & Hc & _). rewrite Ho, Hc. split; [reflexivity|]. split; [vm_compute; reflexivity|].
  exists a'. split; [rewrite Ha; reflexivity|exact Hp].
Defined.
