(* ===== verification/SttStack.v ===== *)
(** * Request-response recognition
    (src/src/stt/openai_stt_client.hpp, .cpp, src/src/orchestrator/stt_stack.hpp, .cpp)

    The path without streaming: every utterance ready on the bus is queued and
    one worker thread posts it as a WAV file and publishes the transcript. The
    client's [submit] is a function of what libcurl does, the JSON reader is a
    parameter; the stack is the queue, its mutex and condition variable, the
    worker and [stop], as interleaved steps; spurious wake-ups are left out. *)
From stdpp Require Import pretty.
From S2P Require Import Prelude Event Config.
From S2P Require Wav Utterance.

(** ** The client *)

Record SttRequest := MkRequest { turn : TurnId; slice : option AudioSlice; lang_hint : str }.

(** The multipart form that is posted. *)
Record Form := MkForm { form_url : str; form_file : list Z; form_model : str; form_language : option str }.

Inductive Callback := OnFinal (e : Event) | OnError (m : str).

(** What the outside does to one [submit]: the token before and after, the
    chunks of the answer, and the clock before and after (nanoseconds). *)
Record Transfer := {
  cancelled_before : bool;
  easy_init : bool;
  chunks : list str;
  curl_error : option str;
  http_status : Z;
  cancelled_after : bool;
  t0 : Z;
  t1 : Z;
}.

Definition trim_to_authority (url : str) : str :=
  match str_find (lit "://") url with
  | None => url
  | Some p => match str_find (lit "/") (drop (p + 3) url) with
              | None => url
              | Some q => take (p + 3 + q) url
              end
  end.
Definition probe_url (cfg : SttConfig) : option str :=
  if decide (stt_base_url cfg = []) then None else Some (trim_to_authority (stt_base_url cfg) ++ lit "/health").

(** [request]: the status of a HEAD request, when libcurl succeeds. *)
Definition probe (cfg : SttConfig) (request : str → option Z) : bool :=
  match probe_url cfg with
  | None => false
  | Some url => match request url with Some status => bool_decide (200 ≤ status < 300)%Z | None => false end
  end.

(** [curl_write], over the whole transfer. *)
Definition curl_write (buf ptr : str) : str := buf ++ ptr.
Definition body_of (t : Transfer) : str := foldl curl_write [] (chunks t).

Definition transcriptions_url (base : str) : str :=
  (if decide (last base = Some "/"%char) then removelast base else base) ++ lit "/audio/transcriptions".

Section client.
(** [glz::read] of the answer: its text, or the formatted error. *)
Context (read : str → str + str).

Definition form_of (cfg : SttConfig) (req : SttRequest) (a : AudioSlice) : Form := {|
  form_url := transcriptions_url (stt_base_url cfg);
  form_file := Wav.make_wav (slice_samples a) (slice_sample_rate a);
  form_model := c_str (stt_model cfg);
  form_language := if decide (lang_hint req = []) then None else Some (c_str (lang_hint req));
|}.

(** What is posted, if anything, and the one callback. *)
Definition submit (cfg : SttConfig) (req : SttRequest) (t : Transfer) : option Form * Callback :=
  if decide (stt_base_url cfg = []) then (None, OnError (lit "openai_stt: cfg.stt.base_url is empty"))
  else if decide (stt_model cfg = []) then (None, OnError (lit "openai_stt: cfg.stt.model is empty"))
  else
    match slice req with
    | None => (None, OnError (lit "openai_stt: empty audio slice"))
    | Some a =>
        if cancelled_before t then (None, OnError (lit "cancelled"))
        else if negb (easy_init t) then (None, OnError (lit "openai_stt: curl_easy_init failed"))
        else
          let form := form_of cfg req a in
          let body := body_of t in
          (Some form,
           if cancelled_after t then OnError (lit "cancelled")
           else match curl_error t with
                | Some m => OnError (lit "openai_stt: curl: " ++ m)
                | None =>
                    if decide (http_status t < 200 ∨ 300 <= http_status t)%Z then
                      OnError (lit "openai_stt: http " ++ lit (pretty (http_status t)) ++ lit " from "
                               ++ form_url form ++ lit ": " ++ take 200 body)
                    else match read body with
                         | inr e => OnError (lit "openai_stt: response parse: " ++ e)
                         | inl text =>
                             OnFinal (FinalTranscript (turn req) text (lang_hint req) (Some 0%Q)
                               (Utterance.slice_duration a) (Z.quot (t1 t - t0 t) 1000000))
                         end
                end)
    end.

(** warmup: a second of silence; the error is empty on success. *)
Definition warmup_request (cfg : SttConfig) (now : Z) : SttRequest :=
  MkRequest kNoTurn (Some {| slice_samples := replicate 16000 0%Z; slice_sample_rate := 16000;
                             slice_started_at := now; slice_ended_at := now |}) (language cfg).
Definition warmup (cfg : SttConfig) (now : Z) (t : Transfer) : bool * str :=
  if decide (stt_base_url cfg = []) then (false, lit "stt.base_url empty")
  else
    let err := match (submit cfg (warmup_request cfg now) t).2 with OnError m => m | OnFinal _ => [] end in
    (bool_decide (err = []), err).

(** ** The stack *)

(** Where the worker is; at [WPred], [WTest] and [WPark] it holds the mutex. *)
Inductive Pc :=
  | WTop                      (** the test of the loop *)
  | WLock                     (** before the lock *)
  | WPred                     (** the predicate of the wait *)
  | WPark                     (** the predicate was false: about to block *)
  | WBlocked
  | WTest                     (** after the wait *)
  | WSubmit (req : SttRequest)
  | WExit.

Record stack := MkStack { queue_ : list SttRequest; stop_ : bool; pc : Pc; stopped_ : bool }.
#[global] Instance eta_stack : Eta stack := λ s, MkStack (queue_ s) (stop_ s) (pc s) (stopped_ s).
Definition stack_new : stack := MkStack [] false WTop false.

Definition holds_mutex (p : Pc) : bool := match p with WPred | WPark | WTest => true | _ => false end.

(** A notification: a blocked worker goes for the lock again. *)
Definition notify (s : stack) : stack :=
  match pc s with WBlocked => s <| pc := WLock |> | _ => s end.

(** The subscriber of [UtteranceReady]; it waits while the worker holds the
    mutex. *)
Definition on_utterance_ready (cfg : SttConfig) (e : Event) (s : stack) : stack :=
  match e with
  | UtteranceReady t (Some a) =>
      if holds_mutex (pc s) then s
      else notify (s <| queue_ ::= λ q, q ++ [MkRequest t (Some a) (language cfg)] |>)
  | _ => s
  end.

(** One step of the worker; [t] is the transfer when it returns from
    [submit]. *)
Definition worker (cfg : SttConfig) (t : Transfer) (s : stack) : stack * list Callback :=
  match pc s with
  | WTop => (s <| pc := if stop_ s then WExit else WLock |>, [])
  | WLock => (s <| pc := WPred |>, [])
  | WPred => (s <| pc := if stop_ s || negb (bool_decide (queue_ s = [])) then WTest else WPark |>, [])
  | WPark => (s <| pc := WBlocked |>, [])
  | WBlocked => (s, [])
  | WTest => if stop_ s then (s <| pc := WExit |>, [])
             else match queue_ s with
                  | req :: q => (s <| queue_ := q |> <| pc := WSubmit req |>, [])
                  | [] => (s, [])
                  end
  | WSubmit req => (s <| pc := WTop |>, [(submit cfg req t).2])
  | WExit => (s, [])
  end.

(** [stop] is two steps: the store and the notification, neither under the
    mutex. *)
Inductive Label := Deliver (e : Event) | Worker (t : Transfer) | StopStore | StopNotify.
Definition step (cfg : SttConfig) (l : Label) (s : stack) : stack * list Callback :=
  match l with
  | Deliver e => (on_utterance_ready cfg e s, [])
  | Worker t => worker cfg t s
  | StopStore => (if stopped_ s then s else s <| stopped_ := true |> <| stop_ := true |>, [])
  | StopNotify => (notify s, [])
  end.
Fixpoint run (cfg : SttConfig) (ls : list Label) (s : stack) : stack * list Callback :=
  match ls with
  | [] => (s, [])
  | l :: ls => let '(s, o1) := step cfg l s in let '(s, o2) := run cfg ls s in (s, o1 ++ o2)
  end.

(** What goes onto the bus. *)
Definition published (os : list Callback) : list Event :=
  omap (λ o, match o with OnFinal e => Some e | OnError _ => None end) os.
End client.

(** ** Specification *)

(** The requests the subscriber queued, and those the worker has returned
    from, with their transfers. *)
Definition arrival (cfg : SttConfig) (l : Label) (s : stack) : list SttRequest :=
  match l with
  | Deliver (UtteranceReady t (Some a)) => if holds_mutex (pc s) then [] else [MkRequest t (Some a) (language cfg)]
  | _ => []
  end.
Definition return_ (l : Label) (s : stack) : list (SttRequest * Transfer) :=
  match l, pc s with Worker t, WSubmit req => [(req, t)] | _, _ => [] end.
Definition current (p : Pc) : list SttRequest := match p with WSubmit req => [req] | _ => [] end.

Section theory.
Context (read : str → str + str) (cfg : SttConfig).

Fixpoint arrivals (ls : list Label) (s : stack) : list SttRequest :=
  match ls with [] => [] | l :: ls => arrival cfg l s ++ arrivals ls (step read cfg l s).1 end.
Fixpoint returns (ls : list Label) (s : stack) : list (SttRequest * Transfer) :=
  match ls with [] => [] | l :: ls => return_ l s ++ returns ls (step read cfg l s).1 end.

(** The worker never takes from an empty queue. *)
Definition stack_ok (s : stack) : Prop := pc s = WTest → stop_ s = true ∨ queue_ s ≠ [].

(** ** Lemmas *)

Lemma notify_kept s : queue_ (notify s) = queue_ s ∧ stop_ (notify s) = stop_ s ∧ current (pc (notify s)) = current (pc s) ∧
  (pc (notify s) = WTest → pc s = WTest).
Proof. unfold notify. by destruct (pc s) eqn:E; cbn; rewrite ?E. Qed.

(** Every step conserves the requests. *)
Lemma step_conserves l s :
  stack_ok s →
  let '(s', os) := step read cfg l s in
  stack_ok s' ∧ current (pc s) ++ queue_ s ++ arrival cfg l s = (return_ l s).*1 ++ current (pc s') ++ queue_ s' ∧
  os = (λ '(r, t), (submit read cfg r t).2) <$> return_ l s.
Proof.
  intros H. destruct l as [e|t| |]; cbn [step].
  - split_and!; [| |done].
    + destruct e as [| |? [a|]| | | | | | | | | | | | | | | | |]; try done. cbn [on_utterance_ready].
      destruct (holds_mutex (pc s)) eqn:E; [done|]. intros Hp. apply notify_kept in Hp. cbn in Hp. by rewrite Hp in E.
    + destruct e as [| |? [a|]| | | | | | | | | | | | | | | | |]; cbn; rewrite ?app_nil_r; try done.
      destruct (holds_mutex (pc s)); [by rewrite app_nil_r|].
      destruct (notify_kept (s <| queue_ ::= λ q, q ++ [MkRequest turn0 (Some a) (language cfg)] |>)) as (-> & _ & -> & _). done.
  - unfold worker, return_, arrival. destruct (pc s) eqn:E; cbn; rewrite ?app_nil_r;
      try (split_and!; [by unfold stack_ok; rewrite ?E|by rewrite ?E|done]).
    + split_and!; [|by destruct (stop_ s)|done]. unfold stack_ok. cbn. by destruct (stop_ s).
    + split_and!; [|by case_match|done]. unfold stack_ok. cbn. case_match eqn:Hc; [|done]. intros _.
      apply orb_true_iff in Hc as [Hc|Hc]; [by left|right]. by apply negb_true_iff, bool_decide_eq_false in Hc.
    + destruct (stop_ s) eqn:Es; [split_and!; [by unfold stack_ok|done|done]|].
      destruct (queue_ s) as [|req q] eqn:Eq; [|split_and!; [by unfold stack_ok|done|done]].
      destruct (H E) as [?|?]; congruence.
  - destruct (stopped_ s); cbn; rewrite app_nil_r; split_and!; try done. intros _. by left.
  - destruct (notify_kept s) as (H1 & H2 & H3 & H4). unfold arrival, return_. rewrite app_nil_r, H1, H3.
    split_and!; [|done|done]. intros Hp. rewrite H1, H2. auto.
Qed.

Lemma run_conserves ls s :
  stack_ok s →
  let '(s', os) := run read cfg ls s in
  stack_ok s' ∧ current (pc s) ++ queue_ s ++ arrivals ls s = (returns ls s).*1 ++ current (pc s') ++ queue_ s' ∧
  os = (λ '(r, t), (submit read cfg r t).2) <$> returns ls s.
Proof.
  revert s. induction ls as [|l ls IH]; intros s H; cbn [run arrivals returns]; [by rewrite app_nil_r|].
  pose proof (step_conserves l s H) as Hs. destruct (step read cfg l s) as [s1 o1]. cbn [fst].
  destruct Hs as (H1 & Hq & ->). specialize (IH s1 H1). destruct (run read cfg ls s1) as [s2 o2].
  destruct IH as (H2 & Hq2 & ->). split_and!; [done| |by rewrite fmap_app].
  rewrite fmap_app, <- app_assoc, <- Hq2, !app_assoc, <- (app_assoc _ (current (pc s1))), <- Hq, !app_assoc. done.
Qed.

(** After [stop] the worker only leaves. *)
Lemma worker_leaves t s :
  stop_ s = true → stop_ (worker read cfg t s).1 = true ∧
  match pc s with
  | WTop | WTest | WExit => pc (worker read cfg t s).1 = WExit
  | WLock => pc (worker read cfg t s).1 = WPred
  | WPred => pc (worker read cfg t s).1 = WTest
  | WSubmit _ => pc (worker read cfg t s).1 = WTop
  | WPark | WBlocked => pc (worker read cfg t s).1 = WBlocked
  end.
Proof. intros H. unfold worker. destruct (pc s) eqn:E; rewrite ?H; cbn; rewrite ?E; done. Qed.

Definition workers (ts : list Transfer) (s : stack) : stack := (run read cfg (Worker <$> ts) s).1.
Lemma workers_cons t ts s : workers (t :: ts) s = workers ts (worker read cfg t s).1.
Proof.
  unfold workers. cbn [fmap list_fmap run step]. destruct (worker read cfg t s) as [s1 o1]. cbn [fst].
  change (Worker <$> ts) with (list_fmap _ _ Worker ts).
  by destruct (run read cfg (list_fmap _ _ Worker ts) s1).
Qed.

Lemma exit_stays ts s : pc s = WExit → pc (workers ts s) = WExit.
Proof.
  revert s. induction ts as [|t ts IH]; intros s H; [done|]. rewrite workers_cons. apply IH. unfold worker. by rewrite H.
Qed.

(** How far the worker is from its exit. *)
Definition distance (p : Pc) : option nat :=
  match p with
  | WExit => Some 0 | WTop | WTest => Some 1 | WPred | WSubmit _ => Some 2 | WLock => Some 3
  | WPark | WBlocked => None
  end.

Lemma distance_exit ts s n : stop_ s = true → distance (pc s) = Some n → n ≤ length ts → pc (workers ts s) = WExit.
Proof.
  revert s n. induction ts as [|t ts IH]; intros s n Hs Hd Hn.
  - destruct (pc s) eqn:E; cbn in *; simplify_eq; cbn in Hn; try lia. done.
  - rewrite workers_cons. destruct (worker_leaves t s Hs) as [H1 H2].
    destruct (pc s); cbn in Hd; simplify_eq; cbn in Hn;
      try (by apply exit_stays); (eapply IH; [done|by rewrite H2|cbn; lia]).
Qed.

Lemma blocked_stays ts s : stop_ s = true → distance (pc s) = None → distance (pc (workers ts s)) = None.
Proof.
  revert s. induction ts as [|t ts IH]; intros s Hs Hd; [done|]. rewrite workers_cons.
  destruct (worker_leaves t s Hs) as [H1 H2]. apply IH; [done|]. destruct (pc s); try done; by rewrite H2.
Qed.
End theory.

(** ** Properties *)

(** [C24] One request. For an utterance of 16-bit samples whose sizes fit their
    fields, with the server and the model configured: what is posted, unless
    the request was cancelled before, is a file that reads back as the rate
    and samples of the utterance; there is one callback, a transcript exactly
    when the file was posted, nothing was cancelled, the transfer succeeded
    with a 2xx status and the answer can be read, and it then bears the turn
    and language of the request, the text read and the duration of the
    utterance. *)
Theorem utterance_posted read cfg req t a fuel :
  stt_base_url cfg ≠ [] → stt_model cfg ≠ [] → slice req = Some a → 2 ≤ fuel →
  Forall (λ s, - 2 ^ 15 ≤ s < 2 ^ 15)%Z (slice_samples a) → (0 < slice_sample_rate a < 2 ^ 32)%Z →
  (36 + 2 * Z.of_nat (length (slice_samples a)) < 2 ^ 32)%Z →
  let '(post, cb) := submit read cfg req t in
  (is_Some post ↔ cancelled_before t = false ∧ easy_init t = true) ∧
  (∀ f, post = Some f → Wav.read_wav fuel (form_file f) = Some (Wav.Samples (slice_sample_rate a) (slice_samples a))) ∧
  ((∃ e, cb = OnFinal e) ↔ is_Some post ∧ cancelled_after t = false ∧ curl_error t = None ∧
     (200 <= http_status t < 300)%Z ∧ ∃ text, read (concat (chunks t)) = inl text) ∧
  (∀ e, cb = OnFinal e → ∃ text, read (concat (chunks t)) = inl text ∧
     e = FinalTranscript (turn req) text (lang_hint req) (Some 0%Q) (Utterance.slice_duration a)
           (Z.quot (t1 t - t0 t) 1000000)).
Proof.
  intros Hb Hm Hs Hf Hv Hr Hl. unfold submit. rewrite !decide_False, Hs by done.
  assert (body_of t = concat (chunks t)) as ->.
  { unfold body_of. change (concat (chunks t)) with ([] ++ concat (chunks t)). generalize ([] : str).
    induction (chunks t) as [|c cs IH]; intros acc; cbn; [by rewrite app_nil_r|]. rewrite IH. unfold curl_write. by rewrite app_assoc. }
  destruct (cancelled_before t); [by split_and!; naive_solver|].
  destruct (easy_init t); cbn [negb]; [|by split_and!; naive_solver].
  split_and!; [naive_solver| | |].
  - intros f [= <-]. by apply Wav.wav_reads_back.
  - destruct (cancelled_after t); [naive_solver|]. destruct (curl_error t); [naive_solver|].
    case_decide; [split; [naive_solver|lia]|]. destruct (read (concat (chunks t))) as [text|e]; [|naive_solver].
    split; [|by eauto]. intros _. split_and!; eauto; lia.
  - intros e. destruct (cancelled_after t); [done|]. destruct (curl_error t); [done|].
    case_decide; [done|]. destruct (read (concat (chunks t))) as [text|m]; [|done]. intros [= <-]. eauto.
Qed.

Lemma utterance_posted_witness :
  let health := {| health_url := []; fail_pipeline_if_down := false; probe_interval_healthy_ms := 0;
                   probe_interval_degraded_ms := 0; degraded_max_failures := 0 |}%Z in
  let cfg := MkSttConfig (lit "http://stt/v1") (lit "whisper") 10 (lit "en") false false 0 health in
  let a := {| slice_samples := [1; -2; 3]%Z; slice_sample_rate := 16000; slice_started_at := 0; slice_ended_at := 0 |} in
  let t := {| cancelled_before := false; easy_init := true; chunks := [lit "he"; lit "llo"]; curl_error := None;
              http_status := 200; cancelled_after := false; t0 := 0; t1 := 5000000 |}%Z in
  let '(post, cb) := submit inl cfg (MkRequest 0 (Some a) (lit "en")) t in
  cb = OnFinal (FinalTranscript 0 (lit "hello") (lit "en") (Some 0%Q) 0 5) ∧
  ∃ f, post = Some f ∧ Wav.read_wav 2 (form_file f) = Some (Wav.Samples 16000 [1; -2; 3]%Z).
Proof.
  intros health cfg a t.
  pose proof (utterance_posted inl cfg (MkRequest 0 (Some a) (lit "en")) t a 2
    ltac:(discriminate) ltac:(discriminate) eq_refl ltac:(lia)
    ltac:(repeat constructor; discriminate) ltac:(vm_compute; split; [reflexivity|reflexivity]) ltac:(vm_compute; reflexivity)) as H.
  destruct (submit inl cfg (MkRequest 0 (Some a) (lit "en")) t) as [post cb] eqn:E.
  destruct H as (H1 & H2 & _). destruct (proj2 H1) as [f Hf]; [split; reflexivity|].
  split; [|exists f; split; [exact Hf|exact (H2 f Hf)]].
  assert (cb = (submit inl cfg (MkRequest 0 (Some a) (lit "en")) t).2) as -> by (by rewrite E). vm_compute. reflexivity.
Defined.

(** The queue of utterances. Over every interleaving of the bus, the worker
    and [stop], whatever the transfers: the utterances queued are those whose
    request returned, the one in progress and those waiting, in the order
    they came; each request that returned made exactly one callback, in that
    order, and only its transcript is published. *)
Theorem utterances_in_order read cfg ls :
  let '(s, os) := run read cfg ls stack_new in
  ∃ done, arrivals read cfg ls stack_new = done.*1 ++ current (pc s) ++ queue_ s ∧
    os = (λ '(r, t), (submit read cfg r t).2) <$> done ∧
    published os = omap (λ '(r, t), match (submit read cfg r t).2 with OnFinal e => Some e | OnError _ => None end) done.
Proof.
  pose proof (run_conserves read cfg ls stack_new ltac:(done)) as H.
  destruct (run read cfg ls stack_new) as [s os]. destruct H as (_ & Hq & Ho). cbn [pc queue_ current stack_new app] in Hq.
  exists (returns read cfg ls stack_new). split_and!; [done|done|]. subst os. unfold published.
  clear Hq. induction (returns read cfg ls stack_new) as [|[r t] l IH]; [done|]. cbn. cbn in IH. rewrite <- IH. done.
Qed.

(** Stopping. [stop] stores its flag and notifies without the mutex. When the
    notification falls anywhere but between the predicate of the wait and the
    wait itself, the worker exits within three of its steps, the return of a
    request included; when it falls there it is lost: the worker blocks, no
    step of its own ever gets it out, and the join of [stop] does not return.
    A run in which that happens exists. *)
Theorem stop_outcome read cfg s :
  stop_ s = true →
  (pc s ≠ WPark → ∀ ts, 3 ≤ length ts → pc (workers read cfg ts (notify s)) = WExit) ∧
  (pc s = WPark → ∀ ts, pc (workers read cfg ts (notify s)) ≠ WExit) ∧
  (∀ t, let r := (run read cfg [Worker t; Worker t; Worker t; StopStore; StopNotify] stack_new).1 in
     stop_ r = true ∧ ∀ ts, pc (workers read cfg ts r) ≠ WExit).
Proof.
  intros Hs. assert (∀ s, stop_ s = true → distance (pc s) = None → ∀ ts, pc (workers read cfg ts s) ≠ WExit) as Hb.
  { intros s0 H1 H2 ts He. pose proof (blocked_stays read cfg ts s0 H1 H2) as H. by rewrite He in H. }
  split_and!.
  - intros Hp ts Hl. assert (∃ n, distance (pc (notify s)) = Some n ∧ n ≤ 3) as (n & Hd & Hn).
    { unfold notify. destruct (pc s) eqn:E; cbn; rewrite ?E; try done; eexists; split; try done; lia. }
    eapply distance_exit; [|exact Hd|lia]. destruct (notify_kept s) as (_ & -> & _). done.
  - intros Hp. apply Hb; unfold notify; rewrite Hp; cbn; by rewrite ?Hp.
  - intros t r. split; [done|]. by apply Hb.
Qed.

Lemma stop_outcome_witness :
  let health := {| health_url := []; fail_pipeline_if_down := false; probe_interval_healthy_ms := 0;
                   probe_interval_degraded_ms := 0; degraded_max_failures := 0 |}%Z in
  let cfg := MkSttConfig (lit "http://stt/v1") (lit "whisper") 10 (lit "en") false false 0 health in
  let t := {| cancelled_before := false; easy_init := true; chunks := []; curl_error := None;
              http_status := 200; cancelled_after := false; t0 := 0; t1 := 0 |}%Z in
  let s := (run inl cfg [Worker t; Worker t; Worker t; Worker t; StopStore] stack_new).1 in
  pc s = WBlocked ∧ pc (workers inl cfg [t; t; t] (notify s)) = WExit.
Proof.
  intros health cfg t s. split; [reflexivity|].
  apply (stop_outcome inl cfg s eq_refl); [discriminate|]. cbn. lia.
Defined.
