(* ===== verification/Metrics.v ===== *)
(** * Metrics (src/src/metrics/registry.cpp, orchestrator/supervisor_setup.cpp,
      the state gauge of main.cpp)

    The registry of metric families: what each method tells prometheus, the
    timers it keeps between events, and its bus subscriptions. prometheus-cpp
    is the interface [Prometheus]: the methods emit the calls they make, and
    the laws say what a scrape shows after them. Durations are the C++
    doubles; instants are the nanoseconds of the steady clock. *)
From S2P Require Import Prelude Event Fsm FsmTheory Supervisor Queue Manager.
Local Open Scope Z_scope.

(** ** prometheus *)

(** [prometheus::Labels], a [std::map]: here in key order. *)
Abbreviation labels := (list (string * str)).

Inductive Kind := KCounter | KGauge | KHistogram.
#[global] Instance Kind_eq_dec : EqDecision Kind.
Proof. solve_decision. Defined.

(** The calls the registry makes: [BuildX().Name().Help().Register()],
    [Family::Add], and the operations of a metric. *)
Inductive Call :=
  | Build (k : Kind) (name help : string)
  | Add (k : Kind) (name : string) (ls : labels) (buckets : list Z)
  | Increment (name : string) (ls : labels) (by_ : spec_float)
  | SetGauge (name : string) (ls : labels) (v : spec_float)
  | Observe (name : string) (ls : labels) (v : spec_float).

(** The library: calls change it, a scrape reads the gauges and the samples
    of the histograms. [Add] returns the metric it made before. *)
Class Prometheus (P : Type) := {
  apply : Call → P → P;
  gauge : string → labels → P → option spec_float;
  samples : string → P → list spec_float;
  gauge_set f l v f' l' p :
    gauge f' l' (apply (SetGauge f l v) p) = if decide ((f, l) = (f', l')) then Some v else gauge f' l' p;
  gauge_add k f l b f' l' p :
    gauge f' l' (apply (Add k f l b) p)
    = if decide (k = KGauge ∧ (f, l) = (f', l')) then Some (default (S754_zero false) (gauge f' l' p))
      else gauge f' l' p;
  gauge_build k n h f l p : gauge f l (apply (Build k n h) p) = gauge f l p;
  gauge_increment n ls b f l p : gauge f l (apply (Increment n ls b) p) = gauge f l p;
  gauge_observe n ls v f l p : gauge f l (apply (Observe n ls v) p) = gauge f l p;
  samples_observe f l v f' p :
    samples f' (apply (Observe f l v) p) = samples f' p ++ (if decide (f = f') then [v] else []);
  samples_other c f p : (∀ f' l v, c ≠ Observe f' l v) → samples f (apply c p) = samples f p;
}.

Definition scrape {P} `{Prometheus P} (cs : list Call) (p : P) : P := foldl (flip apply) p cs.

(** ** Data *)

Definition kAllStates : list str :=
  lit <$> ["idle"; "listening"; "user_speaking"; "transcribing";
           "thinking"; "speaking"; "completed"; "interrupted"]%string.
Definition kAllHealthStates : list str := lit <$> ["unknown"; "healthy"; "degraded"; "unhealthy"]%string.
Definition kAllPipelineStates : list str := lit <$> ["ok"; "failed"; "no_configured_critical_services"]%string.

(** [TurnTimer] and [TtsTimer]. *)
Record Timer := MkTimer { started_at : Z; first_seen : bool }.
#[global] Instance eta_timer : Eta Timer := λ t, MkTimer (started_at t) (first_seen t).

Record registry := MkRegistry {
  health_services_ : list str;
  timers_ : gmap Z Timer;    (* by turn *)
  tts_timers_ : gmap Z Timer;   (* by [tts_key] *)
}.
#[global] Instance eta_registry : Eta registry := λ r, MkRegistry (health_services_ r) (timers_ r) (tts_timers_ r).
Definition registry_new : registry := MkRegistry [] ∅ ∅.

Abbreviation M := (Act registry Call).

Definition emits (cs : list Call) : M unit := λ r, (tt, r, cs).

(** ** Doubles *)

Definition zero : spec_float := S754_zero false.
Definition one : spec_float := double_of 1.
(** [duration<double, std::milli>(b - a).count()] and [duration<double>]. *)
Definition millis (a b : Z) : spec_float := double_div (double_of (b - a)) (double_of 1000000).
Definition seconds (a b : Z) : spec_float := double_div (double_of (b - a)) (double_of 1000000000).
Definition ge0 (x : spec_float) : bool := SFleb zero x.
Definition gt0 (x : spec_float) : bool := SFltb zero x.

(** ** The constructor *)

(** [family->Add(labels).Set(v)] *)
Definition gauge_at (f : string) (l : labels) (v : spec_float) : list Call := [Add KGauge f l []; SetGauge f l v].
Definition by_state (s : str) : labels := [("state"%string, s)].
Definition by_service (svc s : str) : labels := [("service"%string, svc); ("state"%string, s)].
Definition by_outcome (s : string) : labels := [("outcome"%string, lit s)].

Local Open Scope string_scope.

(** The gauges main.cpp's pollers set, one method each. *)
Inductive Polled :=
  | playback_queue_depth | playback_underruns_total | playback_chunks_played_total | playback_drops_total
  | capture_frames_total | capture_ring_overruns_total | audio_pipeline_frames_total | vad_false_starts_total
  | utterances_total | utterance_drops_total | utterance_in_flight
  | aec_delay_estimate_ms | aec_erle_db | aec_frames_processed_total
  | barge_in_fires_total | barge_in_suppressed_total | barge_in_suppressed_cooldown | barge_in_suppressed_aec.

Definition polled_metric (g : Polled) : string * labels :=
  match g with
  | playback_queue_depth => ("voice_playback_queue_depth", [])
  | playback_underruns_total => ("voice_playback_underruns_total", [])
  | playback_chunks_played_total => ("voice_playback_chunks_played_total", [])
  | playback_drops_total => ("voice_playback_drops_total", [])
  | capture_frames_total => ("voice_capture_frames_total", [])
  | capture_ring_overruns_total => ("voice_capture_ring_overruns_total", [])
  | audio_pipeline_frames_total => ("voice_audio_pipeline_frames_total", [])
  | vad_false_starts_total => ("voice_vad_false_starts_total", [])
  | utterances_total => ("voice_utterances_total", [])
  | utterance_drops_total => ("voice_utterance_drops_total", [])
  | utterance_in_flight => ("voice_utterance_in_flight", [])
  | aec_delay_estimate_ms => ("voice_aec_delay_estimate_ms", [])
  | aec_erle_db => ("voice_aec_erle_db", [])
  | aec_frames_processed_total => ("voice_aec_frames_processed_total", [])
  | barge_in_fires_total => ("voice_barge_in_fires_total", [])
  | barge_in_suppressed_total => ("voice_barge_in_suppressed_total", [("cause", lit "any")])
  | barge_in_suppressed_cooldown => ("voice_barge_in_suppressed_total", [("cause", lit "cooldown")])
  | barge_in_suppressed_aec => ("voice_barge_in_suppressed_total", [("cause", lit "aec")])
  end.

Definition add_polled (g : Polled) : Call := Add KGauge (polled_metric g).1 (polled_metric g).2 [].

(** [BuildGauge().Name(..).Help(..).Register(..)], then [Add({})]. *)
Definition polled_family (name help : string) (gs : list Polled) : list Call :=
  Build KGauge name help :: (add_polled <$> gs).
Definition histogram_family (name help : string) (buckets : list Z) : list Call :=
  [Build KHistogram name help; Add KHistogram name [] buckets].

(** The families of M0 to M2. *)
Definition control_families : list Call :=
  [Build KCounter "voice_events_published_total" "Total events published on the control bus, labeled by event type";
   Build KCounter "voice_turns_total" "Total turns by terminal outcome";
   Build KCounter "voice_events_dropped_total" "Events dropped due to queue overflow, labeled by queue name";
   Build KCounter "voice_service_restarts_total" "External service restarts, labeled by service name";
   Build KGauge "voice_fsm_state" "Current FSM state — 1 for the active state, 0 for others"] ++
  flat_map (λ s, gauge_at "voice_fsm_state" (by_state s) zero) kAllStates ++
  [Build KCounter "voice_llm_keepalive_total" "LLM keep-alive ticks, labeled by outcome (fired or skipped)";
   Add KCounter "voice_llm_keepalive_total" (by_outcome "fired") [];
   Add KCounter "voice_llm_keepalive_total" (by_outcome "skipped") [];
   Build KGauge "voice_health_state" "Per-service supervisor state — 1 for the active label, 0 for others";
   Build KGauge "voice_pipeline_state" "Aggregate dialogue-pipeline state — 1 for the active label"] ++
  flat_map (λ s, gauge_at "voice_pipeline_state" (by_state s) zero) kAllPipelineStates ++
  gauge_at "voice_pipeline_state" (by_state (lit "no_configured_critical_services")) one ++
  histogram_family "voice_llm_first_token_ms" "Time from LlmStarted to first LlmToken, milliseconds"
    [50; 100; 200; 350; 500; 750; 1000; 1500; 2000; 3000; 5000; 10000]%Z ++
  histogram_family "voice_llm_tokens_per_sec" "LLM token generation rate per turn (tokens / stream duration)"
    [5; 10; 20; 40; 80; 120; 200; 400]%Z.

(** Those of speech, playback, capture and barge-in. *)
Definition audio_families : list Call :=
  histogram_family "voice_tts_first_audio_ms" "Time from TtsStarted to first TtsAudioChunk per (turn, seq), ms"
    [25; 50; 100; 200; 350; 500; 750; 1000; 1500; 3000]%Z ++
  [Build KCounter "voice_tts_audio_bytes_total" "Cumulative bytes of TTS audio enqueued for playback";
   Add KCounter "voice_tts_audio_bytes_total" [] []] ++
  polled_family "voice_playback_queue_depth" "Current number of audio chunks queued for the playback callback"
    [playback_queue_depth] ++
  polled_family "voice_playback_underruns_total" "Cumulative playback underruns (audio cb fell back to silence)"
    [playback_underruns_total] ++
  polled_family "voice_playback_chunks_played_total" "Cumulative playback chunks fully consumed by the audio cb"
    [playback_chunks_played_total] ++
  polled_family "voice_playback_drops_total" "Cumulative chunks dropped by the queue (capacity / stale-turn / clear)"
    [playback_drops_total] ++
  polled_family "voice_capture_frames_total" "Cumulative frames captured by the PortAudio input stream"
    [capture_frames_total] ++
  polled_family "voice_capture_ring_overruns_total"
    "Cumulative SPSC ring overruns — the audio-processing thread fell behind" [capture_ring_overruns_total] ++
  polled_family "voice_audio_pipeline_frames_total"
    "Cumulative frames processed by the audio-processing thread (resample + VAD)" [audio_pipeline_frames_total] ++
  polled_family "voice_vad_false_starts_total"
    "Onset → Quiet without maturing into Speaking — background noise rejected" [vad_false_starts_total] ++
  polled_family "voice_utterances_total" "Cumulative utterances emitted by the M4 audio pipeline"
    [utterances_total] ++
  polled_family "voice_utterance_drops_total" "Cumulative utterances dropped by the in-flight cap"
    [utterance_drops_total] ++
  polled_family "voice_utterance_in_flight" "Live utterance slices held by consumers (STT, recorders)"
    [utterance_in_flight] ++
  polled_family "voice_aec_delay_estimate_ms" "APM's instantaneous estimate of speaker→mic round-trip delay (ms)"
    [aec_delay_estimate_ms] ++
  polled_family "voice_aec_erle_db"
    "Echo return loss enhancement (dB); >25 dB after convergence is the M6 acceptance gate" [aec_erle_db] ++
  polled_family "voice_aec_frames_processed_total" "Cumulative 10 ms frames passed through the APM wrapper"
    [aec_frames_processed_total] ++
  histogram_family "voice_barge_in_latency_ms"
    "Time from UserInterrupted publish to first silent playback buffer; M7 acceptance: P50 ≤ 200 ms, P95 ≤ 400 ms"
    [10; 25; 50; 100; 150; 200; 300; 400; 600; 1000]%Z ++
  polled_family "voice_barge_in_fires_total" "Cumulative UserInterrupted events published by the BargeInDetector"
    [barge_in_fires_total] ++
  polled_family "voice_barge_in_suppressed_total"
    "SpeechStarted events seen while Speaking but not promoted to UserInterrupted (cooldown / AEC gate)"
    [barge_in_suppressed_total; barge_in_suppressed_cooldown; barge_in_suppressed_aec].

Definition Registry_ctor : list Call := control_families ++ audio_families.

(** ** Methods *)

(** [family->Add({{label, v}}).Increment()] *)
Definition count (f : string) (ls : labels) : M unit := emits [Add KCounter f ls []; Increment f ls one].

Definition on_event_published (name : str) : M unit := count "voice_events_published_total" [("event", name)].
Definition on_turn_outcome (outcome : str) : M unit := count "voice_turns_total" [("outcome", outcome)].
Definition on_queue_drop (q : str) : M unit := count "voice_events_dropped_total" [("queue", q)].
Definition on_service_restart (svc : str) : M unit := count "voice_service_restarts_total" [("service", svc)].

(** One state set to 1, the others to 0. *)
Definition one_hot (states : list str) (at_ : str → list Call) : M unit := emits (flat_map at_ states).
Definition hot (state s : str) : spec_float := if bool_decide (s = state) then one else zero.

Definition set_fsm_state (name : str) : M unit :=
  one_hot kAllStates (λ s, gauge_at "voice_fsm_state" (by_state s) (hot name s)).

Section act.
Local Open Scope act_scope.

Definition register_service_for_health (svc : str) : M unit :=
  services ← gets health_services_;
  if bool_decide (svc ∈ services) then skip else
  modify (λ r, r <| health_services_ ::= λ l, (l ++ [svc])%list |>);;
  one_hot kAllHealthStates (λ s, gauge_at "voice_health_state" (by_service svc s) zero);;
  emits (gauge_at "voice_health_state" (by_service svc (lit "unknown")) one).

Definition set_health_state (svc name : str) : M unit :=
  services ← gets health_services_;
  (if bool_decide (svc ∈ services) then skip else
   modify (λ r, r <| health_services_ ::= λ l, (l ++ [svc])%list |>);;
   one_hot kAllHealthStates (λ s, gauge_at "voice_health_state" (by_service svc s) zero));;
  one_hot kAllHealthStates (λ s, gauge_at "voice_health_state" (by_service svc s) (hot name s)).

Definition on_keep_alive (fired : bool) : M unit :=
  count "voice_llm_keepalive_total" (by_outcome (if fired then "fired" else "skipped")).

Definition set_pipeline_state (name : str) : M unit :=
  one_hot kAllPipelineStates (λ s, gauge_at "voice_pipeline_state" (by_state s) (hot name s)).

Definition on_tts_first_audio (ms : spec_float) : M unit :=
  when ge0 ms do emit (Observe "voice_tts_first_audio_ms" [] ms).

Definition on_tts_audio_bytes (delta_bytes : Z) : M unit :=
  when (0 <? delta_bytes)%Z do emit (Increment "voice_tts_audio_bytes_total" [] (double_of delta_bytes)).

Definition set_polled (g : Polled) (v : spec_float) : M unit :=
  emit (SetGauge (polled_metric g).1 (polled_metric g).2 v).

Definition on_barge_in_latency (ms : spec_float) : M unit :=
  when ge0 ms do emit (Observe "voice_barge_in_latency_ms" [] ms).

(** ** The subscriptions of [subscribe] *)

Definition on_any_event (e : Event) : M unit := on_event_published (lit (event_name e)).

Definition on_llm_event (now : Z) (e : Event) : M unit :=
  match e with
  | LlmStarted t => modify (λ r, r <| timers_ ::= <[(t : Z) := MkTimer now false]> |>)
  | LlmToken t _ =>
      timers ← gets timers_;
      match timers !! (t : Z) with
      | None => skip
      | Some tm =>
          if first_seen tm then skip else
          modify (λ r, r <| timers_ ::= <[(t : Z) := tm <| first_seen := true |>]> |>);;
          let ms := millis (started_at tm) now in
          when ge0 ms do emit (Observe "voice_llm_first_token_ms" [] ms)
      end
  | LlmFinished t _ tokens_generated =>
      timers ← gets timers_;
      match timers !! (t : Z) with
      | None => skip
      | Some tm =>
          let secs := seconds (started_at tm) now in
          let tps := if gt0 secs && (0 <? tokens_generated)%nat
                     then double_div (double_of (Z.of_nat tokens_generated)) secs else zero in
          modify (λ r, r <| timers_ ::= delete (t : Z) |>);;
          when gt0 tps do emit (Observe "voice_llm_tokens_per_sec" [] tps)
      end
  | _ => skip
  end.

(** [(uint64_t(turn) << 32) | uint64_t(seq)] *)
Definition tts_key (t : TurnId) (q : SequenceNo) : Z := Z.lor (u64 (Z.shiftl t 32)) q.

Definition on_tts_event (now : Z) (e : Event) : M unit :=
  match e with
  | TtsStarted t q => modify (λ r, r <| tts_timers_ ::= <[tts_key t q := MkTimer now false]> |>)
  | TtsAudioChunk t q bytes =>
      timers ← gets tts_timers_;
      ms ← match timers !! tts_key t q with
           | Some tm =>
               if first_seen tm then ret (double_of (-1)) else
               modify (λ r, r <| tts_timers_ ::= <[tts_key t q := tm <| first_seen := true |>]> |>);;
               ret (millis (started_at tm) now)
           | None => ret (double_of (-1))
           end;
      on_tts_first_audio ms;;
      on_tts_audio_bytes (Z.of_nat bytes)
  | TtsFinished t q => modify (λ r, r <| tts_timers_ ::= delete (tts_key t q) |>)
  | _ => skip
  end.

(** The three subscriptions: name, capacity, overflow policy. *)
Definition metrics_subscriptions : list (string * nat * OverflowPolicy) :=
  [("metrics.events", 4096%nat, DropOldest); ("metrics.llm", 1024%nat, DropOldest);
   ("metrics.tts", 1024%nat, DropOldest)].

(** ** The subscriptions of [build_supervisor] and [main] *)

Definition health_name (h : HealthState) : str :=
  lit match h with HUnknown => "unknown" | HHealthy => "healthy" | HDegraded => "degraded" | HUnhealthy => "unhealthy" end.

Definition on_health_event (e : Event) : M unit :=
  match e with HealthChanged svc st _ => set_health_state svc (health_name st) | _ => skip end.

(** [metrics.pipeline] and [metrics.fsm_state] read the state the other
    component has when the event is handled. *)
Definition on_pipeline_event (st : Pipeline.PipelineState) : M unit :=
  set_pipeline_state (lit (Pipeline.pipeline_state_name st)).
Definition on_fsm_event (st : Fsm.State) : M unit := set_fsm_state (lit (Fsm.state_to_string st)).

(** What a thread does to the registry: the bus workers of the six
    subscriptions, and direct calls. A step is one handler or call; the
    timers and the list of services have their mutexes. *)
Inductive Label :=
  | Published (e : Event)
  | Llm (now : Z) (e : Event)
  | Tts (now : Z) (e : Event)
  | Health (e : Event)
  | PipelineEvent (st : Pipeline.PipelineState)
  | FsmEvent (st : Fsm.State)
  | RegisterService (svc : str)
  | Outcome (o : str)
  | QueueDrop (q : str)
  | Restart (svc : str)
  | KeepAlive (fired : bool)
  | Poll (g : Polled) (v : spec_float)
  | BargeInLatency (ms : spec_float).

Definition step (l : Label) : M unit :=
  match l with
  | Published e => on_any_event e
  | Llm now e => on_llm_event now e
  | Tts now e => on_tts_event now e
  | Health e => on_health_event e
  | PipelineEvent st => on_pipeline_event st
  | FsmEvent st => on_fsm_event st
  | RegisterService svc => register_service_for_health svc
  | Outcome o => on_turn_outcome o
  | QueueDrop q => on_queue_drop q
  | Restart svc => on_service_restart svc
  | KeepAlive fired => on_keep_alive fired
  | Poll g v => set_polled g v
  | BargeInLatency ms => on_barge_in_latency ms
  end.

Fixpoint run (ls : list Label) : M unit :=
  match ls with [] => skip | l :: ls => step l;; run ls end.
End act.

Local Close Scope string_scope.

(** ** Specification of the gauges *)

(** The state last reported for a service: "unknown" once registered. *)
Definition health_step (svc : str) (st : option str) (l : Label) : option str :=
  match l with
  | RegisterService svc' => if decide (svc' = svc) then Some (default (lit "unknown") st) else st
  | Health (HealthChanged svc' h _) => if decide (svc' = svc) then Some (health_name h) else st
  | _ => st
  end.
Definition health_of (svc : str) (ls : list Label) : option str := foldl (health_step svc) None ls.

Definition pipeline_label (l : Label) : option str :=
  match l with PipelineEvent st => Some (lit (Pipeline.pipeline_state_name st)) | _ => None end.
Definition fsm_label (l : Label) : option str :=
  match l with FsmEvent st => Some (lit (Fsm.state_to_string st)) | _ => None end.

Definition pipeline_of (ls : list Label) : str :=
  default (lit "no_configured_critical_services")
    (last (omap pipeline_label ls)).
Definition fsm_of (ls : list Label) : option str := last (omap fsm_label ls).

(** ** Specification of the timers *)

(** What an event is to a table of timers: it starts, marks or ends the one
    of a key. *)
Inductive Mark := Start (k : Z) | Tick (k : Z) | Stop (k : Z).
Definition mark_key (m : Mark) : Z := match m with Start k | Tick k | Stop k => k end.

Definition llm_mark (e : Event) : option Mark :=
  match e with
  | LlmStarted t => Some (Start t) | LlmToken t _ => Some (Tick t) | LlmFinished t _ _ => Some (Stop t)
  | _ => None
  end.
Definition tts_mark (e : Event) : option Mark :=
  match e with
  | TtsStarted t q => Some (Start (tts_key t q)) | TtsAudioChunk t q _ => Some (Tick (tts_key t q))
  | TtsFinished t q => Some (Stop (tts_key t q)) | _ => None
  end.

(** The marks of a step, and of a run. *)
Definition marked (f : Event → option Mark) (now : Z) (e : Event) : list (Z * Mark) :=
  match f e with Some m => [(now, m)] | None => [] end.
Definition llm_marks (l : Label) : list (Z * Mark) := match l with Llm now e => marked llm_mark now e | _ => [] end.
Definition tts_marks (l : Label) : list (Z * Mark) := match l with Tts now e => marked tts_mark now e | _ => [] end.
Definition llm_history (ls : list Label) : list (Z * Mark) := flat_map llm_marks ls.
Definition tts_history (ls : list Label) : list (Z * Mark) := flat_map tts_marks ls.

(** The last event of a key, and the last that starts or ends it. *)
Definition latest (k : Z) (h : list (Z * Mark)) : option (Z * Mark) :=
  last (filter (λ x, mark_key x.2 = k) h).
Definition is_tick (m : Mark) : bool := match m with Tick _ => true | _ => false end.
Definition bracket (k : Z) (h : list (Z * Mark)) : option (Z * Mark) :=
  last (filter (λ x, mark_key x.2 = k ∧ is_tick x.2 = false) h).
Definition opened (k : Z) (h : list (Z * Mark)) : option Z :=
  match bracket k h with Some (s, Start _) => Some s | _ => None end.

(** Samples taken along a history: [f] sees what came before each event. *)
Definition along {A B} (f : list A → A → option B) (h : list A) : list B :=
  omap (λ i, h !! i ≫= f (take i h)) (List.seq 0%nat (length h)).

(** The first mark after a start: the wait since that start. *)
Definition first_wait (h : list (Z * Mark)) (x : Z * Mark) : option spec_float :=
  match x.2, latest (mark_key x.2) h with
  | Tick _, Some (s, Start _) => let ms := millis s x.1 in if ge0 ms then Some ms else None
  | _, _ => None
  end.

(** The rate of a stream that ends: its tokens over the time since its start. *)
Definition rate_sample (ls : list Label) (l : Label) : option spec_float :=
  match l with
  | Llm now (LlmFinished t _ n) =>
      match opened t (llm_history ls) with
      | Some s =>
          let secs := seconds s now in
          let tps := if gt0 secs && (0 <? n)%nat then double_div (double_of (Z.of_nat n)) secs else zero in
          if gt0 tps then Some tps else None
      | None => None
      end
  | _ => None
  end.

(** ** Lemmas: gauges *)

Section prometheus.
Context {P : Type} `{Prometheus P}.

Lemma scrape_app cs cs' (p : P) : scrape (cs ++ cs') p = scrape cs' (scrape cs p).
Proof. exact (foldl_app _ _ _ _). Qed.

Definition sets (f : string) (l : labels) (c : Call) : Prop :=
  match c with Add KGauge f' l' _ | SetGauge f' l' _ => f' = f ∧ l' = l | _ => False end.

Lemma scrape_other f l cs (p : P) :
  Forall (λ c, ¬ sets f l c) cs → gauge f l (scrape cs p) = gauge f l p.
Proof.
  intros Hc. revert p. induction Hc as [|c cs Hc _ IH]; intros p; [done|]. unfold scrape in *. cbn. rewrite IH.
  unfold flip. destruct c as [|[] | | |]; cbn in Hc.
  - apply gauge_build.
  - rewrite gauge_add, decide_False by naive_solver. done.
  - rewrite gauge_add, decide_False by naive_solver. done.
  - rewrite gauge_add, decide_False by naive_solver. done.
  - apply gauge_increment.
  - rewrite gauge_set, decide_False by naive_solver. done.
  - apply gauge_observe.
Qed.

Lemma scrape_gauge_at f l v f' l' (p : P) :
  gauge f' l' (scrape (gauge_at f l v) p) = if decide ((f, l) = (f', l')) then Some v else gauge f' l' p.
Proof.
  unfold scrape, gauge_at, flip. cbn. rewrite gauge_set, gauge_add. case_decide; [done|].
  rewrite decide_False by naive_solver. done.
Qed.

Lemma scrape_states f (mk : str → labels) val states s (p : P) :
  (∀ s s', mk s = mk s' → s = s') →
  gauge f (mk s) (scrape (flat_map (λ s, gauge_at f (mk s) (val s)) states) p)
  = if bool_decide (s ∈ states) then Some (val s) else gauge f (mk s) p.
Proof.
  intros Hmk. revert p. induction states as [|s' states IH]; intros p; [done|].
  cbn [flat_map]. rewrite scrape_app, IH, scrape_gauge_at.
  destruct (decide (s' = s)) as [->|Hne].
  - rewrite decide_True by done. rewrite (bool_decide_true (s ∈ s :: states)) by left. by case_bool_decide.
  - rewrite decide_False by (intros [= E%Hmk]; congruence).
    rewrite (bool_decide_ext (s ∈ s' :: states) (s ∈ states)) by set_solver. done.
Qed.
End prometheus.

(** Calls that leave the three families of states alone. *)
Definition state_families : list string := ["voice_health_state"; "voice_pipeline_state"; "voice_fsm_state"]%string.
Definition plain_call (c : Call) : Prop :=
  match c with Add KGauge f _ _ | SetGauge f _ _ => f ∉ state_families | _ => True end.

Lemma plain_other f l c : f ∈ state_families → plain_call c → ¬ sets f l c.
Proof. intros Hf Hc Hs. destruct c as [|[]| | |]; cbn in *; try done; destruct Hs as [-> _]; done. Qed.

Definition plain_label (l : Label) : Prop :=
  match l with Health _ | PipelineEvent _ | FsmEvent _ | RegisterService _ => False | _ => True end.

Lemma plain_outs l r : plain_label l → Forall plain_call (outs (step l) r).
Proof.
  destruct l as [e|now e|now e| | | | | | | | |g v|ms]; try done; intros _; try by repeat constructor.
  - destruct e as [ | | | | |t|t tok| |t c n| | | | | | | | | | | ]; try by repeat constructor.
    + cbn [step on_llm_event]. rewrite outs_gets. destruct (timers_ r !! (t : Z)) as [tm|]; [|constructor].
      destruct (first_seen tm); [constructor|]. rewrite outs_modify. destruct (ge0 _); by repeat constructor.
    + cbn [step on_llm_event]. rewrite outs_gets. destruct (timers_ r !! (t : Z)) as [tm|]; [|constructor].
      rewrite outs_modify. destruct (gt0 _); by repeat constructor.
  - destruct e as [ | | | | | | | | | |t q b| | | | | | | | | ]; try by repeat constructor.
    cbn [step on_tts_event]. rewrite outs_bind. apply Forall_app; split; [constructor|].
    rewrite outs_bind. apply Forall_app; split.
    + destruct (result _ _ !! _) as [tm|]; [destruct (first_seen tm)|]; repeat constructor.
    + rewrite outs_bind. apply Forall_app; split; unfold on_tts_first_audio, on_tts_audio_bytes;
        case_match; by repeat constructor.
  - repeat constructor. cbn. destruct g; cbn; set_solver.
  - cbn [step]. unfold on_barge_in_latency. case_match; by repeat constructor.
Qed.

(** ** What a step does to the registry *)

Definition timer_step (ts : gmap Z Timer) (x : Z * Mark) : gmap Z Timer :=
  match x.2 with
  | Start k => <[k := MkTimer x.1 false]> ts
  | Tick k =>
      match ts !! k with
      | Some tm => if first_seen tm then ts else <[k := tm <| first_seen := true |>]> ts
      | None => ts
      end
  | Stop k => delete k ts
  end.

Definition services_after (l : Label) (ss : list str) : list str :=
  match l with
  | RegisterService svc | Health (HealthChanged svc _ _) => if bool_decide (svc ∈ ss) then ss else ss ++ [svc]
  | _ => ss
  end.
Lemma step_state l r :
  exec (step l) r = MkRegistry (services_after l (health_services_ r)) (foldl timer_step (timers_ r) (llm_marks l))
                               (foldl timer_step (tts_timers_ r) (tts_marks l)).
Proof.
  destruct r as [ss lt tt_]. destruct l as [e|now e|now e|e| | |svc| | | | | |ms]; try done.
  - destruct e as [ | | | | |t|t tok| |t c n| | | | | | | | | | | ]; try done; cbn [step on_llm_event];
      rewrite exec_gets; cbn; unfold timer_step; cbn; destruct (lt !! (t : Z)) as [tm|] eqn:E; try done.
    + destruct (first_seen tm); [done|]. rewrite exec_modify. by destruct (ge0 _).
    + rewrite exec_modify. by destruct (gt0 _).
    + by rewrite delete_id.
  - destruct e as [ | | | | | | | | | |t q b| | | | | | | | | ]; try done.
    cbn [step on_tts_event]. rewrite exec_gets, !exec_bind.
    unfold on_tts_first_audio, on_tts_audio_bytes. cbn. unfold timer_step. cbn.
    destruct (tt_ !! tts_key t q) as [tm|]; [|by repeat case_match].
    destruct (first_seen tm); by repeat case_match.
  - destruct e as [ | | | | | | | | | | | | | | | | | | |svc st d]; try done.
    cbn [step on_health_event]. unfold set_health_state. rewrite exec_gets, exec_bind. cbn.
    case_bool_decide; [done|]. by rewrite exec_modify.
  - cbn [step]. unfold register_service_for_health. rewrite exec_gets. cbn. case_bool_decide; [done|].
    by rewrite exec_modify.
  - cbn [step]. unfold on_barge_in_latency. by case_match.
Qed.

(** ** The state gauges over a run *)

Lemma outs_emits cs (k : unit → M unit) r : outs (bind (emits cs) k) r = cs ++ outs (k tt) r.
Proof. by rewrite outs_bind. Qed.

Definition health_zeros (svc : str) : list Call :=
  flat_map (λ s, gauge_at "voice_health_state" (by_service svc s) zero) kAllHealthStates.

Lemma register_outs svc r :
  outs (step (RegisterService svc)) r
  = if bool_decide (svc ∈ health_services_ r) then []
    else health_zeros svc ++ gauge_at "voice_health_state" (by_service svc (lit "unknown")) one.
Proof.
  cbn [step]. unfold register_service_for_health. rewrite outs_gets.
  case_bool_decide; [done|]. unfold one_hot. by rewrite outs_modify, outs_emits.
Qed.

Lemma set_health_outs svc st d r :
  outs (step (Health (HealthChanged svc st d))) r
  = (if bool_decide (svc ∈ health_services_ r) then [] else health_zeros svc) ++
    flat_map (λ s, gauge_at "voice_health_state" (by_service svc s) (hot (health_name st) s)) kAllHealthStates.
Proof.
  cbn [step on_health_event]. unfold set_health_state. rewrite outs_gets, outs_bind.
  case_bool_decide; [done|]. by rewrite outs_modify.
Qed.

Section gauges.
Context {P : Type} `{Prometheus P}.

Lemma scrape_elsewhere f mk val states f' l (p : P) :
  (∀ s, (f, mk s) ≠ (f', l)) →
  gauge f' l (scrape (flat_map (λ s : str, gauge_at f (mk s) (val s)) states) p) = gauge f' l p.
Proof.
  intros Hne. apply scrape_other. induction states as [|s states IH]; [constructor|].
  cbn [flat_map]. apply Forall_app; split; [|done].
  unfold gauge_at. rewrite Forall_cons, Forall_singleton. split; intros [<- <-]; by destruct (Hne s).
Qed.

Lemma by_service_inj svc s svc' s' : by_service svc s = by_service svc' s' → svc = svc' ∧ s = s'.
Proof. by intros [= -> ->]. Qed.

(** Setting the cells of one service. *)
Lemma health_cells svc val svc' s (p : P) :
  s ∈ kAllHealthStates →
  gauge "voice_health_state" (by_service svc' s)
    (scrape (flat_map (λ s, gauge_at "voice_health_state" (by_service svc s) (val s)) kAllHealthStates) p)
  = if decide (svc = svc') then Some (val s) else gauge "voice_health_state" (by_service svc' s) p.
Proof.
  intros Hs. case_decide; [subst svc'|].
  - rewrite scrape_states by by intros ?? [_ ->]%by_service_inj. by rewrite bool_decide_true.
  - apply scrape_elsewhere. intros s' [= E _]. done.
Qed.

Lemma health_plain l (p : P) r svc s :
  plain_label l → gauge "voice_health_state" (by_service svc s) (scrape (outs (step l) r) p)
                  = gauge "voice_health_state" (by_service svc s) p.
Proof.
  intros Hl. apply scrape_other. eapply Forall_impl; [by apply plain_outs|].
  intros c. apply plain_other. by left.
Qed.

Lemma health_step_ok l r (p : P) svc s st :
  s ∈ kAllHealthStates → (is_Some st ↔ svc ∈ health_services_ r) →
  gauge "voice_health_state" (by_service svc s) p = (λ st, hot st s) <$> st →
  gauge "voice_health_state" (by_service svc s) (scrape (outs (step l) r) p)
  = (λ st, hot st s) <$> health_step svc st l.
Proof.
  intros Hs Hst Hg. destruct l as [| | |e|pst|fst_|svc'| | | | | |]; try by rewrite health_plain.
  - destruct e as [ | | | | | | | | | | | | | | | | | | |svc' h d]; try exact Hg.
    rewrite set_health_outs, scrape_app, health_cells by done. cbn [health_step]. case_decide; [done|].
    case_bool_decide; [done|]. unfold health_zeros. by rewrite health_cells, decide_False by done.
  - cbn [step on_pipeline_event]. unfold set_pipeline_state, one_hot. cbn [health_step]. rewrite <- Hg.
    apply scrape_elsewhere. intros ? [=].
  - cbn [step on_fsm_event]. unfold set_fsm_state, one_hot. cbn [health_step]. rewrite <- Hg.
    apply scrape_elsewhere. intros ? [=].
  - rewrite register_outs. cbn [health_step]. case_decide as Hd; [subst svc'|].
    + case_bool_decide as Hb.
      * apply Hst in Hb as [x ->]. exact Hg.
      * destruct st as [x|]; [destruct Hb; by apply Hst|]. rewrite scrape_app, scrape_gauge_at.
        cbn [default fmap option_fmap option_map]. case_decide as Hq.
        -- injection Hq as <-. done.
        -- unfold health_zeros. rewrite health_cells, decide_True by done. unfold hot.
           by rewrite bool_decide_false by congruence.
    + case_bool_decide; [done|]. rewrite scrape_app, scrape_gauge_at, decide_False by (intros [= ? _]; congruence).
      unfold health_zeros. by rewrite health_cells, decide_False by done.
Qed.

(** A step writes the cells of at most one of the families of states. *)
Lemma by_state_step f l (p : P) r s :
  f = "voice_pipeline_state"%string ∨ f = "voice_fsm_state"%string →
  s ∈ (if decide (f = "voice_fsm_state"%string) then kAllStates else kAllPipelineStates) →
  gauge f (by_state s) (scrape (outs (step l) r) p)
  = match (if decide (f = "voice_fsm_state"%string) then fsm_label l else pipeline_label l) with
    | Some st => Some (hot st s)
    | None => gauge f (by_state s) p
    end.
Proof.
  intros Hf Hs. assert (f ∈ state_families) as Hin by (destruct Hf as [-> | ->]; set_solver).
  assert (plain_label l → gauge f (by_state s) (scrape (outs (step l) r) p) = gauge f (by_state s) p) as Hplain.
  { intros Hl. apply scrape_other. eapply Forall_impl; [by apply plain_outs|]. intros c. by apply plain_other. }
  assert (f ≠ "voice_health_state"%string) as Hne by by destruct Hf as [-> | ->].
  assert (∀ svc val, gauge f (by_state s)
    (scrape (flat_map (λ s, gauge_at "voice_health_state" (by_service svc s) (val s)) kAllHealthStates) p)
    = gauge f (by_state s) p) as Hh by (intros; apply scrape_elsewhere; intros ? [=]; congruence).
  destruct l as [| | |e|pst|fst_|svc'| | | | | |]; try (rewrite Hplain by done; by case_decide).
  - destruct e as [ | | | | | | | | | | | | | | | | | | |svc' h d]; try by case_decide.
    rewrite set_health_outs, scrape_app. trans (gauge f (by_state s) p); [|by case_decide].
    rewrite scrape_elsewhere by (intros ? [=]; congruence). case_bool_decide; [done|apply Hh].
  - cbn [step fsm_label pipeline_label]. unfold on_pipeline_event, set_pipeline_state, one_hot.
    destruct Hf as [-> | ->].
    + rewrite decide_False in Hs by done. rewrite decide_False by done.
      change (outs (emits ?cs) r) with cs. rewrite (scrape_states _ by_state) by by intros ?? [=].
      by rewrite bool_decide_true.
    + rewrite decide_True by done. apply scrape_elsewhere. by intros ? [=].
  - cbn [step fsm_label pipeline_label]. unfold on_fsm_event, set_fsm_state, one_hot.
    destruct Hf as [-> | ->].
    + rewrite decide_False by done. apply scrape_elsewhere. by intros ? [=].
    + rewrite decide_True in Hs by done. rewrite decide_True by done.
      change (outs (emits ?cs) r) with cs. rewrite (scrape_states _ by_state) by by intros ?? [=].
      by rewrite bool_decide_true.
  - rewrite register_outs. trans (gauge f (by_state s) p); [|by case_decide].
    case_bool_decide; [done|]. rewrite scrape_app, scrape_gauge_at, decide_False by (intros [=]; congruence).
    apply Hh.
Qed.

(** The value of a gauge after a list of calls, computed. *)
Definition value_step (f : string) (l : labels) (v : option spec_float) (c : Call) : option spec_float :=
  match c with
  | SetGauge f' l' x => if decide ((f', l') = (f, l)) then Some x else v
  | Add KGauge f' l' _ => if decide ((f', l') = (f, l)) then Some (default zero v) else v
  | _ => v
  end.

Lemma scrape_value f l cs (p : P) : gauge f l (scrape cs p) = foldl (value_step f l) (gauge f l p) cs.
Proof.
  revert p. induction cs as [|c cs IH]; intros p; [done|]. unfold scrape in *. cbn. rewrite IH. f_equal. unfold flip.
  destruct c as [|[] f' l'| |f' l'|]; cbn [value_step].
  - apply gauge_build.
  - rewrite gauge_add, decide_False by naive_solver. done.
  - rewrite gauge_add. destruct (decide ((f', l') = (f, l))); [by rewrite decide_True|by rewrite decide_False by naive_solver].
  - rewrite gauge_add, decide_False by naive_solver. done.
  - apply gauge_increment.
  - apply gauge_set.
  - apply gauge_observe.
Qed.

Lemma ctor_health svc s (p : P) :
  gauge "voice_health_state" (by_service svc s) p = None →
  gauge "voice_health_state" (by_service svc s) (scrape Registry_ctor p) = None.
Proof. intros Hp. by rewrite scrape_value, Hp. Qed.

Lemma ctor_pipeline s (p : P) :
  s ∈ kAllPipelineStates →
  gauge "voice_pipeline_state" (by_state s) (scrape Registry_ctor p)
  = Some (hot (lit "no_configured_critical_services") s).
Proof.
  intros Hs. rewrite scrape_value. revert Hs. generalize (gauge "voice_pipeline_state" (by_state s) p).
  intros v Hs. unfold kAllPipelineStates in Hs. repeat (apply elem_of_cons in Hs as [->|Hs]; [reflexivity|]).
  by apply not_elem_of_nil in Hs.
Qed.

Lemma ctor_fsm s (p : P) :
  s ∈ kAllStates → gauge "voice_fsm_state" (by_state s) (scrape Registry_ctor p) = Some zero.
Proof.
  intros Hs. rewrite scrape_value. revert Hs. generalize (gauge "voice_fsm_state" (by_state s) p).
  intros v Hs. unfold kAllStates in Hs. repeat (apply elem_of_cons in Hs as [->|Hs]; [reflexivity|]).
  by apply not_elem_of_nil in Hs.
Qed.
End gauges.

Lemma run_snoc ls l r :
  exec (run (ls ++ [l])) r = exec (step l) (exec (run ls) r) ∧
  outs (run (ls ++ [l])) r = outs (run ls) r ++ outs (step l) (exec (run ls) r).
Proof.
  revert r. induction ls as [|l0 ls IH]; intros r; cbn [run app].
  - rewrite exec_bind, outs_bind. cbn. by rewrite app_nil_r.
  - rewrite !exec_bind, !outs_bind. destruct (IH (exec (step l0) r)) as [-> ->]. by rewrite app_assoc.
Qed.

Lemma health_of_snoc svc ls l : health_of svc (ls ++ [l]) = health_step svc (health_of svc ls) l.
Proof. exact (foldl_app _ _ _ _). Qed.

Lemma services_known ls svc :
  is_Some (health_of svc ls) ↔ svc ∈ health_services_ (exec (run ls) registry_new).
Proof.
  induction ls as [|l ls IH] using rev_ind; [cbn; rewrite elem_of_nil; by split; [intros []|]|].
  rewrite health_of_snoc. destruct (run_snoc ls l registry_new) as [-> _]. rewrite step_state. cbn [health_services_].
  revert IH. generalize (health_of svc ls) (health_services_ (exec (run ls) registry_new)). intros st ss IH.
  destruct l as [| | |e|pst|fst_|svc'| | | | | |]; try done.
  - destruct e as [ | | | | | | | | | | | | | | | | | | |svc' h d]; try done. cbn.
    case_decide; case_bool_decide; set_solver.
  - cbn. case_decide; case_bool_decide; set_solver.
Qed.

(** ** The timers over a run *)

Definition wait_of (ts : gmap Z Timer) (x : Z * Mark) : option spec_float :=
  match x.2 with
  | Tick k =>
      match ts !! k with
      | Some tm => if first_seen tm then None else
                   let ms := millis (started_at tm) x.1 in if ge0 ms then Some ms else None
      | None => None
      end
  | _ => None
  end.

Lemma last_filter_snoc {A} (Q : A → Prop) `{∀ x, Decision (Q x)} h x :
  last (filter Q (h ++ [x])) = if decide (Q x) then Some x else last (filter Q h).
Proof.
  rewrite filter_app, filter_cons, filter_nil. case_decide; [apply last_snoc|by rewrite app_nil_r].
Qed.

Lemma latest_start k h s k' : latest k h = Some (s, Start k') → opened k h = Some s.
Proof.
  unfold opened, latest, bracket. induction h as [|[t m] h IH] using rev_ind; [done|].
  rewrite !last_filter_snoc. cbn. destruct (decide (mark_key m = k)) as [E|E].
  - intros [= -> ->]. by rewrite decide_True.
  - rewrite decide_False by naive_solver. exact IH.
Qed.

Lemma timers_spec h k :
  foldl timer_step ∅ h !! k
  = (λ s, MkTimer s match latest k h with Some (_, Start _) => false | _ => true end) <$> opened k h.
Proof.
  induction h as [|[t m] h IH] using rev_ind; [apply lookup_empty|]. rewrite foldl_app. cbn [foldl].
  revert IH. unfold opened, bracket, latest. rewrite !last_filter_snoc. cbn [fst snd].
  generalize (foldl timer_step ∅ h). intros ts IH. unfold timer_step. cbn [fst snd].
  destruct (decide (mark_key m = k)) as [E|E]; [destruct m as [k'|k'|k']; cbn in E; subst k'|destruct m as [k'|k'|k']; cbn in E].
  - rewrite decide_True by done. cbn. by rewrite lookup_insert_eq.
  - rewrite decide_False by naive_solver. destruct (ts !! k) as [tm|] eqn:Ek.
    + match goal with |- context [_ <$> ?o] => destruct o as [s|] end; [|done].
      injection IH as ->. revert Ek. cbn [first_seen]. match goal with |- _ = Some (MkTimer s ?b) → _ => generalize b end.
      intros [] Ek; [done|]. by rewrite lookup_insert_eq.
    + rewrite Ek. by match goal with |- context [_ <$> ?o] => destruct o as [s|] end.
  - rewrite decide_True by done. cbn. by rewrite lookup_delete_eq.
  - rewrite decide_False by naive_solver. by rewrite lookup_insert_ne.
  - rewrite decide_False by naive_solver. rewrite <- IH. destruct (ts !! k') as [tm|]; [|done].
    destruct (first_seen tm); [done|]. by rewrite lookup_insert_ne.
  - rewrite decide_False by naive_solver. by rewrite lookup_delete_ne.
Qed.

Lemma wait_spec h x : wait_of (foldl timer_step ∅ h) x = first_wait h x.
Proof.
  unfold wait_of, first_wait. destruct x as [t [k|k|k]]; cbn; try done. rewrite timers_spec.
  destruct (latest k h) as [[s [k'| |]]|] eqn:E.
  - by rewrite (latest_start k h s k' E).
  - by destruct (opened k h).
  - by destruct (opened k h).
  - by destruct (opened k h).
Qed.

Lemma along_snoc {A B} (f : list A → A → option B) h x :
  along f (h ++ [x]) = along f h ++ match f h x with Some y => [y] | None => [] end.
Proof.
  unfold along. rewrite length_app, Nat.add_1_r, seq_S, omap_snoc. f_equal.
  - apply list_omap_ext. apply Forall_Forall2_diag. apply Forall_forall. intros i Hi%elem_of_seq.
    rewrite lookup_app_l, take_app_le by lia. done.
  - cbn. rewrite lookup_app_r, Nat.sub_diag by lia. cbn. by rewrite take_app_length.
Qed.

(** ** The samples of a run *)

Definition observed (f : string) (cs : list Call) : list spec_float :=
  omap (λ c, match c with Observe f' _ v => if decide (f' = f) then Some v else None | _ => None end) cs.

Lemma samples_scrape {P} `{Prometheus P} f cs (p : P) : samples f (scrape cs p) = samples f p ++ observed f cs.
Proof.
  revert p. induction cs as [|c cs IH]; intros p; [by rewrite app_nil_r|]. unfold scrape in *. cbn. rewrite IH.
  unfold flip. destruct c as [| | | |f' l' v]; try by rewrite samples_other by done.
  rewrite samples_observe. by destruct (decide (f' = f)); rewrite <- ?app_assoc, ?app_nil_r.
Qed.

Lemma observed_app f cs cs' : observed f (cs ++ cs') = observed f cs ++ observed f cs'.
Proof. apply omap_app. Qed.

Definition rate_of (ts : gmap Z Timer) (l : Label) : option spec_float :=
  match l with
  | Llm now (LlmFinished t _ n) =>
      match ts !! (t : Z) with
      | Some tm =>
          let secs := seconds (started_at tm) now in
          let tps := if gt0 secs && (0 <? n)%nat then double_div (double_of (Z.of_nat n)) secs else zero in
          if gt0 tps then Some tps else None
      | None => None
      end
  | _ => None
  end.

Lemma step_observed l r :
  observed "voice_llm_first_token_ms" (outs (step l) r) = omap (wait_of (timers_ r)) (llm_marks l) ∧
  observed "voice_llm_tokens_per_sec" (outs (step l) r) = option_list (rate_of (timers_ r) l) ∧
  observed "voice_tts_first_audio_ms" (outs (step l) r) = omap (wait_of (tts_timers_ r)) (tts_marks l).
Proof.
  destruct l as [e|now e|now e|e| | |svc| | | | | |ms]; try done.
  - destruct e as [ | | | | |t|t tok| |t c n| | | | | | | | | | | ]; try done; cbn [step on_llm_event];
      rewrite outs_gets; cbn; unfold wait_of; cbn; destruct (timers_ r !! (t : Z)) as [tm|]; try done.
    + destruct (first_seen tm); [done|]. rewrite outs_modify. by destruct (ge0 _).
    + rewrite outs_modify. by destruct (gt0 _).
  - destruct e as [ | | | | | | | | | |t q b| | | | | | | | | ]; try done. cbn [step on_tts_event].
    rewrite outs_gets, outs_bind. cbn. unfold wait_of. cbn.
    destruct (tts_timers_ r !! tts_key t q) as [tm|]; [destruct (first_seen tm)|]; cbn;
      unfold on_tts_first_audio, on_tts_audio_bytes;
      act_open; repeat case_match; simplify_eq; done.
  - destruct e as [ | | | | | | | | | | | | | | | | | | |svc st d]; try done.
    rewrite set_health_outs. by case_bool_decide.
  - rewrite register_outs. by case_bool_decide.
  - cbn [step]. unfold on_barge_in_latency. by case_match.
Qed.

Lemma run_timers ls :
  timers_ (exec (run ls) registry_new) = foldl timer_step ∅ (llm_history ls) ∧
  tts_timers_ (exec (run ls) registry_new) = foldl timer_step ∅ (tts_history ls).
Proof.
  induction ls as [|l ls [IH1 IH2]] using rev_ind; [done|].
  destruct (run_snoc ls l registry_new) as [-> _]. rewrite step_state. cbn [timers_ tts_timers_].
  unfold llm_history, tts_history in *. rewrite !flat_map_app, !foldl_app, IH1, IH2. cbn [flat_map].
  by rewrite !app_nil_r.
Qed.

Lemma rate_spec ls l : rate_of (timers_ (exec (run ls) registry_new)) l = rate_sample ls l.
Proof.
  unfold rate_of, rate_sample. destruct l as [|now []| | | | | | | | | | |]; try done.
  destruct (run_timers ls) as [-> _]. rewrite timers_spec. by destruct (opened _ _).
Qed.

Lemma marks_single l : (length (llm_marks l) ≤ 1 ∧ length (tts_marks l) ≤ 1)%nat.
Proof. unfold llm_marks, tts_marks, marked. repeat case_match; cbn; lia. Qed.

Lemma along_marks h ms : (length ms ≤ 1)%nat →
  along first_wait (h ++ ms) = along first_wait h ++ omap (wait_of (foldl timer_step ∅ h)) ms.
Proof.
  destruct ms as [|x [|]]; cbn; intros; [by rewrite !app_nil_r| |lia].
  rewrite along_snoc, wait_spec. by destruct (first_wait h x).
Qed.

Lemma run_observed ls :
  let os := outs (run ls) registry_new in
  observed "voice_llm_first_token_ms" os = along first_wait (llm_history ls) ∧
  observed "voice_llm_tokens_per_sec" os = along rate_sample ls ∧
  observed "voice_tts_first_audio_ms" os = along first_wait (tts_history ls).
Proof.
  induction ls as [|l ls (IH1 & IH2 & IH3)] using rev_ind; [done|]. cbv zeta in *.
  destruct (run_snoc ls l registry_new) as [_ ->]. rewrite !observed_app, IH1, IH2, IH3.
  destruct (step_observed l (exec (run ls) registry_new)) as (-> & -> & ->). rewrite rate_spec.
  destruct (run_timers ls) as [-> ->]. destruct (marks_single l).
  unfold llm_history, tts_history. rewrite !flat_map_app. cbn [flat_map]. rewrite !app_nil_r.
  rewrite along_snoc, !along_marks by lia. by destruct (rate_sample ls l).
Qed.

(** ** Theorems *)

(** The state gauges. Over any calls and handlers in any order, a
    scrape of the registry shows for a service, once registered or first
    reported, 1 in the cell of the state last reported (unknown when none
    was) and 0 in the three others, and nothing for a service never named;
    for the pipeline the state last reported, at first
    no_configured_critical_services; for the state machine the state last
    seen, and zeros before the first event. *)
Theorem gauges_exact {P} `{Prometheus P} ls (p : P) :
  (∀ svc s, gauge "voice_health_state" (by_service svc s) p = None) →
  let p' := scrape (Registry_ctor ++ outs (run ls) registry_new) p in
  (∀ svc s, s ∈ kAllHealthStates →
     gauge "voice_health_state" (by_service svc s) p' = (λ st, hot st s) <$> health_of svc ls) ∧
  (∀ s, s ∈ kAllPipelineStates → gauge "voice_pipeline_state" (by_state s) p' = Some (hot (pipeline_of ls) s)) ∧
  (∀ s, s ∈ kAllStates →
     gauge "voice_fsm_state" (by_state s) p' = Some (match fsm_of ls with Some st => hot st s | None => zero end)).
Proof.
  intros Hp. cbv zeta. induction ls as [|l ls (IH1 & IH2 & IH3)] using rev_ind.
  - cbn [run]. rewrite app_nil_r. split; [intros; by apply ctor_health|]. split; intros; [by apply ctor_pipeline|by apply ctor_fsm].
  - destruct (run_snoc ls l registry_new) as [_ ->]. rewrite (app_assoc Registry_ctor), scrape_app.
    split; [|split].
    + intros svc s Hs. rewrite health_of_snoc. apply health_step_ok; [done|apply services_known|auto].
    + intros s Hs. rewrite by_state_step by (auto; by rewrite decide_False). rewrite decide_False by done.
      unfold pipeline_of. rewrite omap_snoc. destruct (pipeline_label l); [by rewrite last_snoc|].
      rewrite app_nil_r. auto.
    + intros s Hs. rewrite by_state_step by (auto; by rewrite decide_True). rewrite decide_True by done.
      unfold fsm_of. rewrite omap_snoc. destruct (fsm_label l); [by rewrite last_snoc|].
      rewrite app_nil_r. auto.
Qed.

(** A registry that keeps the last value of each gauge and the samples. *)
Record store := MkStore { gauges : gmap (string * labels) spec_float; sampled : list (string * spec_float) }.
Definition store_apply (c : Call) (s : store) : store :=
  match c with
  | SetGauge f l v => MkStore (<[(f, l) := v]> (gauges s)) (sampled s)
  | Add KGauge f l _ => MkStore (<[(f, l) := default zero (gauges s !! (f, l))]> (gauges s)) (sampled s)
  | Observe f _ v => MkStore (gauges s) (sampled s ++ [(f, v)])
  | _ => s
  end.
#[global] Instance store_prometheus : Prometheus store.
Proof.
  refine {|
    apply := store_apply;
    gauge f l s := gauges s !! (f, l);
    samples f s := omap (λ x : string * spec_float, if decide (x.1 = f) then Some x.2 else None) (sampled s);
  |}; try done.
  - intros. cbn. case_decide as E; [rewrite E; apply lookup_insert_eq|by apply lookup_insert_ne].
  - intros k f l b f' l' s. cbn. case_decide as E.
    + destruct E as [-> [= -> ->]]. apply lookup_insert_eq.
    + destruct k; [done| |done]. apply lookup_insert_ne. intros E'. by apply E.
  - intros. cbn. rewrite omap_snoc. cbn. by case_decide.
  - intros c f s Hc. destruct c as [|[]| | |f' l' v]; try done. by destruct (Hc f' l' v).
Defined.

Lemma gauges_exact_witness :
  let ls := [RegisterService (lit "llm"); Health (HealthChanged (lit "llm") HHealthy [])] in
  let p' := scrape (Registry_ctor ++ outs (run ls) registry_new) (MkStore ∅ []) in
  gauge "voice_health_state" (by_service (lit "llm") (lit "healthy")) p' = Some one ∧
  gauge "voice_health_state" (by_service (lit "llm") (lit "unknown")) p' = Some zero ∧
  gauge "voice_health_state" (by_service (lit "stt") (lit "unknown")) p' = None.
Proof.
  intros ls p'. assert (∀ svc s, gauge "voice_health_state" (by_service svc s) (MkStore ∅ []) = None) as Hp
    by (intros; exact (lookup_empty _)).
  destruct (gauges_exact ls _ Hp) as [H _]. fold p' in H.
  split; [|split]; (etrans; [apply H; repeat first [left|right]|reflexivity]).
Defined.

(** The latencies. Over any calls and handlers in any order, the
    samples of the three histograms are, in order: for each first token, and
    each first audio, after a start the time since that start, when it is
    not negative; for each end of an open stream with tokens its rate. A
    timer is kept exactly for the turns, and for the sentences, started and
    not finished since. *)
Theorem latencies_exact {P} `{Prometheus P} ls (p : P) :
  let p' := scrape (outs (run ls) registry_new) p in
  let r := exec (run ls) registry_new in
  samples "voice_llm_first_token_ms" p' = samples "voice_llm_first_token_ms" p ++ along first_wait (llm_history ls) ∧
  samples "voice_llm_tokens_per_sec" p' = samples "voice_llm_tokens_per_sec" p ++ along rate_sample ls ∧
  samples "voice_tts_first_audio_ms" p' = samples "voice_tts_first_audio_ms" p ++ along first_wait (tts_history ls) ∧
  (∀ t, started_at <$> timers_ r !! t = opened t (llm_history ls)) ∧
  (∀ k, started_at <$> tts_timers_ r !! k = opened k (tts_history ls)).
Proof.
  cbv zeta. rewrite !samples_scrape. destruct (run_observed ls) as (-> & -> & ->).
  destruct (run_timers ls) as [-> ->]. do 3 (split; [done|]).
  split; intros; rewrite timers_spec; by destruct (opened _ _).
Qed.

(** Two sentences share a timer only from turn [2^32] on. *)
Lemma tts_key_inj t q t' q' :
  0 ≤ t < 2 ^ 32 → 0 ≤ t' < 2 ^ 32 → 0 ≤ q < 2 ^ 32 → 0 ≤ q' < 2 ^ 32 →
  tts_key t q = tts_key t' q' → t = t' ∧ q = q'.
Proof.
  intros Ht Ht' Hq Hq'. unfold tts_key, u64. rewrite !(Z.lor_comm _ q), !(Z.lor_comm _ q').
  rewrite !Z.mod_small by (rewrite Z.shiftl_mul_pow2 by lia; nia). rewrite !lor_shift by lia. nia.
Qed.
Example tts_key_collides : tts_key (2 ^ 32) 0 = tts_key 0 0.
Proof. reflexivity. Qed.

(** ** Beside the manager *)

Definition published (o : Manager.Out) : option Event :=
  match o with Manager.Publish e => Some e | _ => None end.
Definition llm_event (l : Label) : option Event := match l with Llm _ e => Some e | _ => None end.

(** Whether a key is open, by its marks alone. *)
Definition live (k : Z) (ms : list Mark) : Prop :=
  last (filter (λ m, mark_key m = k ∧ is_tick m = false) ms) = Some (Start k).

Lemma opened_live k h : is_Some (opened k h) → live k h.*2.
Proof.
  unfold opened, bracket, live. induction h as [|[t m] h IH] using rev_ind; [by intros []|].
  rewrite fmap_app. cbn. rewrite !last_filter_snoc. cbn. destruct (decide (mark_key m = k ∧ is_tick m = false)) as [[E1 E2]|E].
  - destruct m as [k'|k'|k']; cbn in E1; subst; [done|done|by intros []].
  - done.
Qed.

Lemma history_marks ls : (llm_history ls).*2 = omap llm_mark (omap llm_event ls).
Proof.
  induction ls as [|l ls IH]; [done|]. unfold llm_history in *. cbn. rewrite fmap_app, IH.
  destruct l as [|now e| | | | | | | | | | |]; try done. cbn. unfold marked. by destruct (llm_mark e).
Qed.

Lemma accept_live cap os st t :
  accepts cap os None = Some st → live t (omap llm_mark (omap published os)) → ∃ n, st = Some (t, n).
Proof.
  revert st. induction os as [|o os IH] using rev_ind; intros st; [intros _ [=]|].
  rewrite accepts_app. destruct (accepts cap os None) as [st0|]; [|done]. specialize (IH st0 eq_refl). cbn.
  destruct (accept cap o st0) as [st1|] eqn:E; [|done]. intros [= <-]. unfold live in *.
  rewrite omap_snoc. destruct o as [e|h]; cbn.
  - rewrite omap_snoc. destruct e as [ | | | | |t'|t' tok|t' q tx lg|t' c n| | | | | |t' ts| | | | | ]; cbn; cbn in E;
      rewrite ?app_nil_r; try done; destruct st0 as [[t0 n0]|]; try done; simplify_eq.
    + rewrite last_filter_snoc. cbn. case_decide; [|naive_solver]. intros [= ->]. eauto.
    + case_decide; [|done]. simplify_eq. rewrite last_filter_snoc, decide_False by naive_solver. done.
    + case_decide; [|done]. simplify_eq. intros Hl. destruct (IH Hl) as [n1 [= -> ->]]. eauto.
    + case_decide; [|done]. simplify_eq. rewrite last_filter_snoc. cbn. case_decide; [done|].
      intros Hl. destruct (IH Hl) as [n1 [= -> _]]. naive_solver.
    + exact IH.
    + exact IH.
  - rewrite app_nil_r. destruct st0 as [[]|]; [done|]. injection E as <-. exact IH.
Qed.

(** The timers of the language model do not accumulate. With the events
    the manager publishes handled by the registry, at whatever instants and
    among whatever other calls, the only turn with a timer is the one the
    manager is streaming: none is kept between turns, also when a turn was
    cancelled or failed. *)
Theorem llm_timers_freed read mls cfg turns hook ls :
  Forall (λ l, l ≠ Manager.Start false) mls →
  (0 ≤ Config.max_assistant_sentences (Config.dialogue cfg) < 2 ^ 32 - 1) →
  let '(s, os) := Manager.run read mls (manager_new cfg turns hook) in
  omap llm_event ls = omap published os →
  ∀ t tm, timers_ (exec (run ls) registry_new) !! t = Some tm → ∃ n, open_turn s = Some (t, n).
Proof.
  intros Hls Hcap. destruct (manager_run read mls cfg _ (mgr_ok_new cfg turns hook)) as [_ H].
  specialize (H Hls Hcap). destruct (Manager.run read mls _) as [s os]. intros Hev t tm Ht.
  apply (accept_live _ os _ t H). rewrite <- Hev, <- history_marks. apply opened_live.
  destruct (run_timers ls) as [Hr _]. rewrite Hr, timers_spec in Ht. by destruct (opened t _).
Qed.

Lemma llm_timers_freed_witness :
  let s0 := example_manager 1 0 in
  let mls := Deliver (FinalTranscript 0 [] [] None 0 0) NoGate 0 ::
               answer_labels None 0 [Sse.data_event (lit "A b c d. Some. More. "); Sse.data_event (lit "x")] in
  let '(s, os) := Manager.run example_read mls (manager_new (cfg_ s0) Turn.turns_init true) in
  ∀ t, timers_ (exec (run (Llm 0 <$> omap published os)) registry_new) !! t = None.
Proof.
  intros s0 mls.
  assert (Hls : Forall (λ l, l ≠ Manager.Start false) mls) by (repeat constructor; discriminate).
  destruct (Manager.run example_read mls _) as [s os] eqn:E. intros t.
  pose proof (llm_timers_freed example_read mls (cfg_ s0) Turn.turns_init true (Llm 0 <$> omap published os) Hls
    ltac:(split; [intros Hx; discriminate Hx|reflexivity])) as H.
  rewrite E in H. destruct (timers_ _ !! t) as [tm|] eqn:Et; [|done]. exfalso.
  destruct (H ltac:(clear; induction (omap published os) as [|e es IH]; [done|cbn; by rewrite IH]) t tm Et) as [n Hn].
  assert (open_turn (s, os).1 = None) as Hs by (rewrite <- E; vm_compute; reflexivity).
  cbn in Hs. congruence.
Defined.

(** ** The gauge of the state machine *)

(** The worker of the gauge reads the state when it handles an event, which
    may be before the machine handles it: with both queues empty the gauge
    then shows the state before. *)
Lemma fsm_gauge_stale :
  let f := exec (Fsm.start 0) (Fsm.fsm_new Turn.turns_init false false) in
  let f' := exec (Fsm.on_event 1 (SpeechStarted 1 1)) f in
  let ls := [FsmEvent (Fsm.snap_state (Fsm.snapshot f))] in
  fsm_of ls = Some (lit "listening") ∧ Fsm.snap_state (Fsm.snapshot f') = Fsm.UserSpeaking.
Proof. split; reflexivity. Qed.
