(* ===== verification/Log.v ===== *)
(** * Logging (src/src/log/log.cpp, json_sink.cpp, orchestrator/event_tracer.cpp)

    One JSON object per line: the payload [log::event] builds and what the
    sink makes of it, the time stamp, the choice of sinks, and the tracer
    that logs the bus. The broken-down local time is what [localtime_r]
    answers; whether a file can be opened is what [fopen] answers. *)
From stdpp Require Import pretty.
From S2P Require Import Prelude Json Event Config.
Local Open Scope Z_scope.

(** [std::to_string] *)
Definition to_str (z : Z) : str := lit (pretty z).

(** ** Escaping *)

(** The body of the loop of [escape_string], and of [escape_json_string]. *)
Definition escape_char (c : ascii) : str :=
  if decide (c = quote) then [backslash; quote]
  else if decide (c = backslash) then [backslash; backslash]
  else if decide (c = "010"%char) then lit "\n"
  else if decide (c = "013"%char) then lit "\r"
  else if decide (c = "009"%char) then lit "\t"
  else if decide (c = "008"%char) then lit "\b"
  else if decide (c = "012"%char) then lit "\f"
  else if decide (byte_of c < 32) then u_escape c
  else [c].
Definition escape_string (out s : str) : str := out ++ quote :: flat_map escape_char s ++ [quote].
Definition escape_json_string (out s : str) : str := out ++ quote :: flat_map escape_char s ++ [quote].

(** The marker is written ["\x01EVT\x01"] in the source; the E is a
    hexadecimal digit, so the first character is 1E. *)
Definition kEventMarker : str := ["030"; "V"; "T"; "001"]%char.

(** ** The time stamp *)

(** The fields of [std::tm] that are printed. *)
Record Tm := MkTm {
  tm_year : Z; tm_mon : Z; tm_mday : Z; tm_hour : Z; tm_min : Z; tm_sec : Z; tm_gmtoff : Z;
}.

(** [{:0wd}]: zeros after the sign, to width [w]. *)
Definition zero_fill (w : nat) (sign : str) (z : Z) : str :=
  let d := lit (pretty (Z.abs z)) in
  sign ++ replicate (w - length sign - length d) "0"%char ++ d.
Definition pad (w : nat) (z : Z) : str := zero_fill w (if decide (z < 0) then ["-"%char] else []) z.
(** [{:+0wd}] *)
Definition pad_sign (w : nat) (z : Z) : str := zero_fill w (if decide (z < 0) then ["-"%char] else ["+"%char]) z.

(** [t] in nanoseconds; [duration_cast] truncates. *)
Definition format_timestamp (localtime : Z → Tm) (t : Z) : str :=
  let secs := Z.quot t 1000000000 in
  let ms := Z.quot (t - secs * 1000000000) 1000000 in
  let tm := localtime secs in
  pad 4 (tm_year tm + 1900) ++ "-"%char :: pad 2 (tm_mon tm + 1) ++ "-"%char :: pad 2 (tm_mday tm) ++
  "T"%char :: pad 2 (tm_hour tm) ++ ":"%char :: pad 2 (tm_min tm) ++ ":"%char :: pad 2 (tm_sec tm) ++
  "."%char :: pad 3 ms ++
  pad_sign 3 (Z.quot (tm_gmtoff tm) 3600) ++ pad 2 (Z.quot (Z.abs (Z.rem (tm_gmtoff tm) 3600)) 60).

(** ** The sink *)

(** [spdlog::level::level_enum] *)
Inductive Level := LTrace | LDebug | LInfo | LWarn | LErr | LCritical | LOff.

Definition level_name (l : Level) : str :=
  lit match l with
      | LTrace => "trace" | LDebug => "debug" | LInfo => "info" | LWarn => "warn"
      | LErr => "error" | LCritical => "critical" | LOff => "off"
      end.

(** The name of the file of a run, for the sink that writes to a directory. *)
Definition per_run_filename (localtime : Z → Tm) (secs : Z) : str :=
  let tm := localtime secs in
  lit "acva-" ++ lit (pretty (tm_year tm + 1900)) ++ pad 2 (tm_mon tm + 1) ++ pad 2 (tm_mday tm) ++ lit "-" ++
  pad 2 (tm_hour tm) ++ pad 2 (tm_min tm) ++ pad 2 (tm_sec tm) ++ lit ".log".

(** [payload.substr(1, close - 1)] and [payload.substr(close + 2)]. *)
Definition split_component (payload : str) : option (str * str) :=
  match payload with
  | "["%char :: _ =>
      match str_find (lit "] ") payload with
      | Some close => Some (take (close - 1) (drop 1 payload), drop (close + 2) payload)
      | None => None
      end
  | _ => None
  end.

Definition sink_it_ (ts : str) (level : Level) (payload : str) : str :=
  let out := jlit "{'ts':'" ++ ts ++ jlit "','level':'" ++ level_name level ++ jlit "'" in
  let out :=
    match split_component payload with
    | Some (component, rest) =>
        let out := escape_string (out ++ jlit ",'component':") component in
        if starts_with kEventMarker rest then
          let inner := drop (length kEventMarker) rest in
          if decide (inner = []) then out else out ++ ","%char :: inner
        else escape_string (out ++ jlit ",'msg':") rest
    | None => escape_string (out ++ jlit ",'msg':") payload
    end in
  out ++ ["}"; "010"]%char.

(** ** log.cpp *)

(** The payload of [log::event], and of [log::info] and the others. *)
Definition event_payload (component event_name : str) (turn : TurnId) (kv : list (str * str)) : str :=
  let payload := "["%char :: component ++ lit "] " ++ kEventMarker ++ jlit "'event':" in
  let payload := escape_json_string payload event_name in
  let payload :=
    if decide (turn = kNoTurn) then payload else payload ++ jlit ",'turn_id':" ++ to_str turn in
  foldl (λ payload '(k, v),
    let payload := escape_json_string (payload ++ lit ",") k in
    escape_json_string (payload ++ lit ":") v) payload kv.
Definition message_payload (component message : str) : str := "["%char :: component ++ lit "] " ++ message.

Definition parse_level (level : str) : Level :=
  if decide (level = lit "trace") then LTrace
  else if decide (level = lit "debug") then LDebug
  else if decide (level = lit "info") then LInfo
  else if decide (level = lit "warn") then LWarn
  else if decide (level = lit "error") then LErr
  else if decide (level = lit "critical") then LCritical
  else if decide (level = lit "off") then LOff
  else LInfo.

(** [init]: the streams the sinks write to, or the exception. [fopen_] says
    whether a path can be opened for appending, [create_directories] whether
    the directory could be made; [name] is the per-run file name. *)
Inductive Stream := Stderr | FileAt (path : str).
#[global] Instance Stream_eq_dec : EqDecision Stream.
Proof. solve_decision. Defined.

Section init.
Context (create_directories : str → bool) (fopen_ : str → bool) (name : str).

(** [std::filesystem::path(dir) / name]. *)
Definition join_path (dir name : str) : str :=
  if decide (dir = [] ∨ last dir = Some "/"%char) then dir ++ name else dir ++ "/"%char :: name.

Definition open_dir_sink (dir : str) : option Stream :=
  if create_directories dir then
    let path := join_path dir name in
    if fopen_ path then Some (FileAt path) else None
  else None.

Definition log_init (cfg : LoggingConfig) : list Stream * Level + str :=
  let sink_kind := parse_log_sink (sink cfg) in
  match
    match sink_kind with
    | SinkFile =>
        match file_path cfg with
        | None => inr (lit "log: file_path required for sink=file")
        | Some p => if fopen_ p then inl [FileAt p] else inr (lit "log: failed to open " ++ p)
        end
    | SinkDir =>
        match dir_path cfg with
        | None => inr (lit "log: dir_path required for sink=dir")
        | Some d => inl [default Stderr (open_dir_sink d)]
        end
    | SinkJournal | SinkStderr => inl [Stderr]
    end
  with
  | inr err => inr err
  | inl sinks =>
      let mirror := mirror_to_stderr cfg &&
        match sink_kind with SinkStderr | SinkJournal => false | _ => true end in
      inl (sinks ++ (if mirror then [Stderr] else []), parse_level (level cfg))
  end.
End init.

(** ** The event tracer *)

Record StreamTallies := MkTallies { llm_tokens : Z; tts_chunks : Z; tts_bytes : Z }.
#[global] Instance eta_tallies : Eta StreamTallies := λ t, MkTallies (llm_tokens t) (tts_chunks t) (tts_bytes t).
Definition tallies_new : StreamTallies := MkTallies 0 0 0.

(** A call of [log::event] with component "trace". *)
Record Traced := MkTraced { tr_name : str; tr_turn : TurnId; tr_fields : list (str * str) }.

Definition truncate (s : str) (max : nat) : str := if decide (length s ≤ max)%nat then s else take max s ++ lit "…".
Definition fields (l : list (string * str)) : list (str * str) := prod_map lit id <$> l.

Definition T := Act StreamTallies Traced unit.
Definition traced (n : string) (turn : TurnId) (kv : list (string * str)) : T := emit (MkTraced (lit n) turn (fields kv)).

Section tracer.
Local Open Scope act_scope.

Definition trace_event (e : Event) : T :=
  match e with
  | SpeechStarted t _ => traced "speech_started" t []
  | SpeechEnded t _ => traced "speech_ended" t []
  | PartialTranscript t text lang _ q _ =>
      traced "partial_transcript" t [("seq", to_str q); ("lang", lang); ("text", truncate text 200)]%string
  | FinalTranscript t text lang _ ad pd =>
      traced "final_transcript" t [("lang", lang); ("audio_duration_ms", to_str ad);
                                   ("processing_duration_ms", to_str pd); ("text", text)]%string
  | LlmStarted t => modify (λ s, s <| llm_tokens := 0 |>);; traced "llm_started" t []
  | LlmToken _ _ => modify (λ s, s <| llm_tokens ::= λ n, u64 (n + 1) |>)
  | LlmSentence t q text lang => traced "llm_sentence" t [("seq", to_str q); ("lang", lang); ("text", text)]%string
  | LlmFinished t cancelled _ =>
      n ← gets llm_tokens;
      traced "llm_finished" t [("tokens", to_str n); ("cancelled", lit (if cancelled : bool then "true" else "false"))]%string
  | TtsStarted t q => traced "tts_started" t [("seq", to_str q)]%string
  | TtsAudioChunk _ _ bytes =>
      modify (λ s, s <| tts_chunks ::= λ n, u64 (n + 1) |>);;
      modify (λ s, s <| tts_bytes ::= λ n, u64 (n + Z.of_nat bytes) |>)
  | TtsFinished t q =>
      s ← gets id;
      traced "tts_finished" t [("seq", to_str q); ("chunks", to_str (tts_chunks s)); ("bytes", to_str (tts_bytes s))]%string;;
      modify (λ s, s <| tts_chunks := 0 |>);;
      modify (λ s, s <| tts_bytes := 0 |>)
  | PlaybackStarted t q => traced "playback_started" t [("seq", to_str q)]%string
  | PlaybackFinished t q => traced "playback_finished" t [("seq", to_str q)]%string
  | UserInterrupted t _ => traced "user_interrupted" t []
  | CancelGeneration t => traced "cancel_generation" t []
  | UtteranceReady _ _ | Pause | Resume | ErrorEvent _ _ | HealthChanged _ _ _ => skip
  end.

Fixpoint trace (es : list Event) : T :=
  match es with [] => skip | e :: es => trace_event e;; trace es end.
End tracer.

(** [install_event_tracer]: nothing unless configured. *)
Definition install_event_tracer (cfg : LoggingConfig) : option (Event → T) :=
  if trace_events cfg then Some trace_event else None.

(** The line of a traced event. *)
Definition trace_line (ts : str) (t : Traced) : str :=
  sink_it_ ts LInfo (event_payload (lit "trace") (tr_name t) (tr_turn t) (tr_fields t)).

(** ** Lemmas *)

#[global] Instance log_escaper : Escaper escape_char.
Proof. intros c s. by destruct c as [[] [] [] [] [] [] [] []]. Qed.

(** Characters that stand for themselves, and that fit on a line. *)
Definition plain (c : ascii) : Prop := escape_char c = [c].
Definition printable (c : ascii) : Prop := 32 ≤ byte_of c.
#[global] Instance printable_dec c : Decision (printable c) := Z_le_dec _ _.

Lemma escape_plain s : Forall plain s → flat_map escape_char s = s.
Proof. induction 1 as [|c s Hc _ IH]; [done|]. cbn [flat_map]. by rewrite Hc, IH. Qed.

Lemma escape_printable s : Forall printable (flat_map escape_char s).
Proof.
  induction s as [|c s IH]; [constructor|]. cbn [flat_map]. apply Forall_app; split; [|done].
  clear. destruct c as [[] [] [] [] [] [] [] []]; by apply (bool_decide_unpack _).
Qed.

Lemma plain_printable c : plain c → printable c.
Proof.
  unfold plain. intros H. pose proof (escape_printable [c]) as Hp. cbn [flat_map] in Hp. rewrite app_nil_r, H in Hp.
  exact (proj1 (Forall_singleton _ _) Hp).
Qed.

Lemma digit_plain c : is_digit c → plain c.
Proof.
  unfold is_digit, plain, escape_char. intros H.
  do 7 (rewrite decide_False by (intros ->; vm_compute in H; destruct H; congruence)).
  rewrite decide_False by lia. done.
Qed.

(** The levels the configuration admits are the ones the lines carry. *)
Lemma configured_level l : l ∈ kValidLogLevels → level_name (parse_level l) = l.
Proof.
  unfold kValidLogLevels. intros H. repeat (apply elem_of_cons in H as [->|H]; [reflexivity|]). by apply elem_of_nil in H.
Qed.
Example run_file : per_run_filename (λ _, MkTm 126 4 3 15 3 29 0) 0 = lit "acva-20260503-150329.log".
Proof. vm_compute. reflexivity. Qed.

Lemma zero_fill_plain w sign z : Forall plain sign → Forall plain (zero_fill w sign z).
Proof.
  intros Hs. unfold zero_fill. apply Forall_app; split; [done|]. apply Forall_app; split.
  - by apply Forall_replicate.
  - eapply Forall_impl; [apply pretty_digits; lia|apply digit_plain].
Qed.

Lemma pad_plain w z : Forall plain (pad w z) ∧ Forall plain (pad_sign w z).
Proof. split; apply zero_fill_plain; case_decide; by repeat constructor. Qed.

Lemma timestamp_plain lt t : Forall plain (format_timestamp lt t).
Proof.
  unfold format_timestamp. cbv zeta.
  repeat first [exact (proj1 (pad_plain _ _))|exact (proj2 (pad_plain _ _))|apply Forall_app; split|constructor; [done|]].
Qed.

Lemma level_plain l : Forall plain (level_name l).
Proof. destruct l; by repeat constructor. Qed.

(** *** The component *)

Lemma find_component c rest :
  str_find (lit "] ") c = None → str_find (lit "] ") (c ++ lit "] " ++ rest) = Some (length c).
Proof.
  induction c as [|x c IH]; [done|]. intros H. cbn [app]. cbn [str_find] in H.
  destruct (starts_with (lit "] ") (x :: c)) eqn:E; [done|]. rewrite str_find_cons.
  - rewrite IH; [done|]. by destruct (str_find _ c).
  - revert E. cbn. destruct (bool_decide ("]"%char = x)); [|done]. cbn.
    destruct c as [|y c]; [done|]. by cbn.
Qed.

Lemma split_component_ok component rest :
  str_find (lit "] ") component = None →
  split_component ("["%char :: component ++ lit "] " ++ rest) = Some (component, rest).
Proof.
  intros H. unfold split_component. rewrite str_find_cons by done.
  rewrite find_component by done. cbn [fmap option_fmap option_map Nat.sub].
  rewrite Nat.sub_0_r. cbn [drop]. rewrite skipn_0, take_app_length. do 2 f_equal.
  cbn [Nat.add drop]. rewrite app_assoc. apply drop_app_length'. rewrite length_app. done.
Qed.

(** *** The line *)

Definition member (k t : str) : str :=
  quote :: flat_map escape_char k ++ quote :: ":"%char :: quote :: flat_map escape_char t ++ [quote].

Lemma member_printable k t : Forall printable (member k t).
Proof.
  unfold member. assert (printable quote ∧ printable ":") as [Hq Hc] by by vm_compute.
  constructor; [done|]. apply Forall_app; split; [apply escape_printable|].
  do 3 (constructor; [done|]). apply Forall_app; split; [apply escape_printable|by constructor].
Qed.

(** The members every line starts with. *)
Definition head_members (ts : str) (level : Level) : str * str := (member (lit "ts") ts, member (lit "level") (level_name level)).

Lemma sink_head ts level :
  Forall plain ts →
  jlit "{'ts':'" ++ ts ++ jlit "','level':'" ++ level_name level ++ jlit "'"
  = "{"%char :: member (lit "ts") ts ++ ","%char :: member (lit "level") (level_name level).
Proof.
  intros Ht. unfold member. rewrite (escape_plain ts), (escape_plain (level_name level)) by (done || apply level_plain).
  change (jlit "{'ts':'") with ("{"%char :: quote :: flat_map escape_char (lit "ts") ++ [quote; ":"; quote]%char).
  change (jlit "','level':'") with (quote :: ","%char :: quote :: flat_map escape_char (lit "level") ++ [quote; ":"; quote]%char).
  change (jlit "'") with [quote]. repeat (progress (rewrite <- ?app_assoc; cbn [app])). reflexivity.
Qed.

Lemma foldl_members kv payload :
  foldl (λ payload '(k, v),
    let payload := escape_json_string (payload ++ lit ",") k in
    escape_json_string (payload ++ lit ":") v) payload kv
  = payload ++ flat_map (cons ","%char) ((λ kv : str * str, member kv.1 kv.2) <$> kv).
Proof.
  revert payload. induction kv as [|[k v] kv IH]; intros payload; [by rewrite app_nil_r|].
  cbn [foldl fmap list_fmap flat_map]. rewrite IH. unfold escape_json_string, member. cbn [fst snd].
  change (lit ",") with [","%char]. change (lit ":") with [":"%char].
  repeat (progress (rewrite <- ?app_assoc; cbn [app])). reflexivity.
Qed.

(** The members of an event, as the payload holds them. *)
Definition event_members (name : str) (turn : TurnId) (kv : list (str * str)) : str * list str :=
  (member (lit "event") name,
   (if decide (turn = kNoTurn) then [] else [jlit "'turn_id':" ++ to_str turn]) ++
   ((λ kv : str * str, member kv.1 kv.2) <$> kv)).

Lemma event_payload_members component name turn kv :
  let '(m, ms) := event_members name turn kv in
  event_payload component name turn kv = "["%char :: component ++ lit "] " ++ kEventMarker ++ members m ms.
Proof.
  unfold event_members, event_payload, members. cbv zeta. rewrite foldl_members, flat_map_app.
  unfold escape_json_string, member.
  change (jlit "'event':") with (quote :: flat_map escape_char (lit "event") ++ [quote; ":"]%char).
  case_decide; cbn [flat_map app].
  - repeat (progress (rewrite <- ?app_assoc; cbn [app])). reflexivity.
  - change (jlit ",'turn_id':") with (","%char :: jlit "'turn_id':").
    repeat (progress (rewrite <- ?app_assoc; cbn [app])). reflexivity.
Qed.

(** What the sink writes for an event and for a message. *)
Lemma sink_event ts level component m ms :
  Forall plain ts → str_find (lit "] ") component = None → m ≠ [] →
  sink_it_ ts level ("["%char :: component ++ lit "] " ++ kEventMarker ++ members m ms)
  = "{"%char :: members (member (lit "ts") ts)
      (member (lit "level") (level_name level) :: member (lit "component") component :: m :: ms) ++ ["}"; "010"]%char.
Proof.
  intros Ht Hc Hm. unfold sink_it_. cbv zeta. rewrite split_component_ok, sink_head by done.
  change (starts_with kEventMarker (kEventMarker ++ members m ms)) with true. cbv iota.
  rewrite drop_app_length, decide_False by (unfold members; by destruct m).
  unfold members, escape_string, member.
  change (jlit ",'component':") with (","%char :: quote :: flat_map escape_char (lit "component") ++ [quote; ":"]%char).
  cbn [flat_map]. repeat (progress (rewrite <- ?app_assoc; cbn [app])). reflexivity.
Qed.

Lemma sink_message ts level component message :
  Forall plain ts → str_find (lit "] ") component = None → starts_with kEventMarker message = false →
  sink_it_ ts level (message_payload component message)
  = "{"%char :: members (member (lit "ts") ts)
      [member (lit "level") (level_name level); member (lit "component") component; member (lit "msg") message] ++
    ["}"; "010"]%char.
Proof.
  intros Ht Hc Hm. unfold sink_it_, message_payload. cbv zeta. rewrite split_component_ok, sink_head, Hm by done.
  unfold members, escape_string, member.
  change (jlit ",'component':") with (","%char :: quote :: flat_map escape_char (lit "component") ++ [quote; ":"]%char).
  change (jlit ",'msg':") with (","%char :: quote :: flat_map escape_char (lit "msg") ++ [quote; ":"]%char).
  cbn [flat_map]. repeat (progress (rewrite <- ?app_assoc; cbn [app])). reflexivity.
Qed.

(** One line that a JSON reader reads as these members. *)
Definition reads_as (line : str) (kvs : list (str * JValue)) : Prop := ∃ body,
  line = body ++ ["010"%char] ∧ Forall printable body ∧ read_object body = Some kvs.

Lemma reads_members m ms kv kvs :
  renders m kv → Forall2 renders ms kvs → Forall printable m → Forall (Forall printable) ms →
  reads_as ("{"%char :: members m ms ++ ["}"; "010"]%char) (kv :: kvs).
Proof.
  intros Hm Hms Hp Hps. exists ("{"%char :: members m ms ++ ["}"%char]). split; [|split].
  - cbn [app]. by rewrite <- app_assoc.
  - constructor; [by vm_compute|]. apply Forall_app; split; [|by repeat constructor; vm_compute].
    unfold members. apply Forall_app; split; [done|]. clear Hms. induction Hps as [|x xs Hx _ IH]; [constructor|].
    cbn [flat_map]. constructor; [by vm_compute|]. by apply Forall_app.
  - by apply read_object_renders.
Qed.

Lemma renders_member k t : renders (member k t) (k, JString t).
Proof. apply (renders_string escape_char). Qed.

Lemma renders_turn (turn : Z) : 0 ≤ turn → renders (jlit "'turn_id':" ++ to_str turn) (lit "turn_id", JRaw (to_str turn)).
Proof.
  intros Ht. unfold to_str. destruct (pretty_digits turn Ht) as [Hd Hne]. apply (renders_raw escape_char (lit "turn_id")).
  - destruct (lit (pretty turn)) as [|d n]; [done|]. exists d, n. split; [done|].
    intros ->. apply Forall_cons in Hd as [Hd _]. vm_compute in Hd. by destruct Hd.
  - eapply Forall_impl; [exact Hd|]. intros c Hc. split; intros ->; vm_compute in Hc; by destruct Hc.
Qed.

(** ** Theorems *)

(** [C36] A log line means what was logged. Whatever texts [log::event] is
    given (quotes, line ends, control characters, any bytes), the sink writes
    one line which a JSON reader reads as the time, the level, the component,
    the event, the turn unless it is 0, and the keys and values in order; and
    a plain message, of any level, as its component and its text. The
    component must not contain a bracket followed by a space, and a message
    must not begin with the marker. *)
Theorem log_lines_read lt t component :
  str_find (lit "] ") component = None →
  let ts := format_timestamp lt t in
  (∀ name (turn : TurnId) kv, 0 ≤ turn →
     reads_as (sink_it_ ts LInfo (event_payload component name turn kv))
       ([(lit "ts", JString ts); (lit "level", JString (lit "info")); (lit "component", JString component);
         (lit "event", JString name)] ++
        (if decide (turn = kNoTurn) then [] else [(lit "turn_id", JRaw (to_str turn))]) ++
        (prod_map id JString <$> kv))) ∧
  (∀ level message, starts_with kEventMarker message = false →
     reads_as (sink_it_ ts level (message_payload component message))
       [(lit "ts", JString ts); (lit "level", JString (level_name level)); (lit "component", JString component);
        (lit "msg", JString message)]).
Proof.
  intros Hc ts. pose proof (timestamp_plain lt t) as Hts. fold ts in Hts. split.
  - intros name turn kv Ht. pose proof (event_payload_members component name turn kv) as Hp.
    unfold event_members in Hp. rewrite Hp, sink_event by done. apply reads_members.
    + apply renders_member.
    + do 3 (constructor; [apply renders_member|]). apply Forall2_app.
      * destruct (decide (turn = kNoTurn)); constructor; [by apply renders_turn|constructor].
      * apply Forall2_fmap, Forall_Forall2_diag, Forall_forall. intros [k v] _. apply renders_member.
    + apply member_printable.
    + do 3 (constructor; [apply member_printable|]). apply Forall_app; split.
      * destruct (decide (turn = kNoTurn)); constructor; [|constructor]. apply Forall_app; split; [by apply (bool_decide_unpack _)|].
        eapply Forall_impl; [by apply pretty_digits|]. intros c Hd. by apply plain_printable, digit_plain.
      * apply Forall_fmap, Forall_forall. intros kv' _. apply member_printable.
  - intros level message Hm. rewrite sink_message by done. apply reads_members.
    + apply renders_member.
    + do 3 (constructor; [apply renders_member|]). constructor.
    + apply member_printable.
    + do 3 (constructor; [apply member_printable|]). constructor.
Qed.

Lemma log_lines_read_witness :
  let lt := λ _, MkTm 126 4 3 15 3 29 (-12600) in
  let line := sink_it_ (format_timestamp lt 1777810000123000000) LInfo
                (event_payload (lit "tts") (lit "x") 7 [(lit "say", jlit "a 'b'")]) in
  reads_as line [(lit "ts", JString (lit "2026-05-03T15:03:29.123-0330")); (lit "level", JString (lit "info"));
                 (lit "component", JString (lit "tts")); (lit "event", JString (lit "x"));
                 (lit "turn_id", JRaw (lit "7")); (lit "say", JString (jlit "a 'b'"))].
Proof.
  intros lt line.
  exact (proj1 (log_lines_read lt 1777810000123000000 (lit "tts") eq_refl) (lit "x") 7 [(lit "say", jlit "a 'b'")] ltac:(lia)).
Defined.

(** ** The sinks *)

(** What [init] sets up, by what is asked for. *)
Definition sinks_spec (mkdir fopen_ : str → bool) (name : str) (cfg : LoggingConfig) (r : list Stream * Level + str) : Prop :=
  let fallback d := open_dir_sink mkdir fopen_ name d = None in
  match r with
  | inr _ =>
      (sink cfg = lit "file" ∧ (∀ p, file_path cfg = Some p → fopen_ p = false)) ∨
      (sink cfg = lit "dir" ∧ dir_path cfg = None)
  | inl (sinks, lvl) =>
      lvl = parse_level (level cfg) ∧
      (sink cfg = lit "file" → ∃ p, file_path cfg = Some p ∧ fopen_ p = true ∧ head sinks = Some (FileAt p)) ∧
      (sink cfg = lit "dir" → ∃ d, dir_path cfg = Some d ∧
         (if decide (fallback d) then head sinks = Some Stderr else head sinks = Some (FileAt (join_path d name)))) ∧
      (mirror_to_stderr cfg = true → Stderr ∈ sinks) ∧
      (¬ NoDup sinks ↔ sink cfg = lit "dir" ∧ mirror_to_stderr cfg = true ∧ ∃ d, dir_path cfg = Some d ∧ fallback d)
  end.

Lemma log_init_spec mkdir fopen_ name cfg : sinks_spec mkdir fopen_ name cfg (log_init mkdir fopen_ name cfg).
Proof.
  unfold sinks_spec. cbv zeta. unfold log_init, parse_log_sink.
  assert (NoDup [Stderr]) as H1 by apply NoDup_singleton.
  assert (∀ p, NoDup [FileAt p]) as H2 by (intros; apply NoDup_singleton).
  assert (∀ p, NoDup [FileAt p; Stderr]) as H3.
  { intros p. apply NoDup_cons. split; [|done]. intros [=]%list_elem_of_singleton. }
  assert (¬ NoDup [Stderr; Stderr]) as H4 by (intros H%NoDup_cons; set_solver).
  destruct (decide (sink cfg = lit "journal")) as [E|E1].
  { rewrite E, andb_false_r. repeat split; try done; set_solver. }
  destruct (decide (sink cfg = lit "file")) as [E|E2].
  { rewrite E. destruct (file_path cfg) as [p|]; [|by left].
    destruct (fopen_ p) eqn:Ep; [|by left; split; [done|intros ? [= <-]]].
    rewrite andb_true_r. destruct (mirror_to_stderr cfg); cbn; repeat split; try done; eauto; set_solver. }
  destruct (decide (sink cfg = lit "dir")) as [E|E3].
  - destruct (dir_path cfg) as [d|] eqn:Ed; [|by right]. rewrite andb_true_r.
    destruct (open_dir_sink mkdir fopen_ name d) as [st|] eqn:Eo; cbn [default from_option id].
    + assert (st = FileAt (join_path d name)) as ->.
      { unfold open_dir_sink in Eo. by repeat case_match; simplify_eq. }
      destruct (mirror_to_stderr cfg); cbn; repeat split; try done; try set_solver.
      all: intros _; exists d; split; [done|]; by rewrite decide_False by congruence.
    + destruct (mirror_to_stderr cfg); cbn; repeat split; try done; try set_solver.
      all: try (intros _; exists d; split; [done|]; by rewrite decide_True).
  - rewrite andb_false_r. repeat split; try done; set_solver.
Qed.

(** What [init] sets up. It throws exactly when a file is asked for
    without a path or with one that cannot be opened, or a directory without
    a path. Otherwise lines go to the file asked for, in a directory to the
    file of this run or, when it cannot be made or opened, to the standard
    error, and there as well when a mirror of a file or directory is asked
    for. The standard error then gets each line twice exactly when the
    mirror meets that fallback. *)
Theorem log_sinks mkdir fopen_ name cfg :
  let fallback d := open_dir_sink mkdir fopen_ name d = None in
  match log_init mkdir fopen_ name cfg with
  | inr _ =>
      (sink cfg = lit "file" ∧ (∀ p, file_path cfg = Some p → fopen_ p = false)) ∨
      (sink cfg = lit "dir" ∧ dir_path cfg = None)
  | inl (sinks, lvl) =>
      lvl = parse_level (level cfg) ∧
      (sink cfg = lit "file" → ∃ p, file_path cfg = Some p ∧ fopen_ p = true ∧ head sinks = Some (FileAt p)) ∧
      (sink cfg = lit "dir" → ∃ d, dir_path cfg = Some d ∧
         (if decide (fallback d) then head sinks = Some Stderr else head sinks = Some (FileAt (join_path d name)))) ∧
      (mirror_to_stderr cfg = true → Stderr ∈ sinks) ∧
      (¬ NoDup sinks ↔ sink cfg = lit "dir" ∧ mirror_to_stderr cfg = true ∧ ∃ d, dir_path cfg = Some d ∧ fallback d)
  end.
Proof. apply log_init_spec. Qed.

(** ** The tracer *)

(** What came after the last event that satisfies [p]. *)
Definition since {A} (p : A → bool) (es : list A) : list A := foldl (λ acc e, if p e then [] else acc ++ [e]) [] es.
Definition is_llm_started (e : Event) : bool := match e with LlmStarted _ => true | _ => false end.
Definition is_tts_finished (e : Event) : bool := match e with TtsFinished _ _ => true | _ => false end.
Definition tokens_in (es : list Event) : Z :=
  Z.of_nat (length (omap (λ e, match e with LlmToken _ _ => Some tt | _ => None end) es)).
Definition chunks_in (es : list Event) : list nat := omap (λ e, match e with TtsAudioChunk _ _ b => Some b | _ => None end) es.
Definition bytes_in (es : list Event) : Z := Z.of_nat (foldr Nat.add 0%nat (chunks_in es)).

Lemma tally_snoc {A} (p : A → bool) es e : since p (es ++ [e]) = if p e then [] else since p es ++ [e].
Proof. unfold since. by rewrite foldl_app. Qed.

Lemma trace_snoc es e s :
  exec (trace (es ++ [e])) s = exec (trace_event e) (exec (trace es) s) ∧
  outs (trace (es ++ [e])) s = outs (trace es) s ++ outs (trace_event e) (exec (trace es) s).
Proof.
  revert s. induction es as [|e0 es IH]; intros s; cbn [trace app].
  - rewrite exec_bind, outs_bind. cbn. by rewrite app_nil_r.
  - rewrite !exec_bind, !outs_bind. destruct (IH (exec (trace_event e0) s)) as [-> ->]. by rewrite app_assoc.
Qed.

Lemma bytes_snoc es e :
  bytes_in (es ++ [e]) = bytes_in es + match e with TtsAudioChunk _ _ b => Z.of_nat b | _ => 0 end.
Proof.
  unfold bytes_in, chunks_in. rewrite omap_snoc.
  assert (∀ l b, foldr Nat.add 0%nat (l ++ [b]) = (foldr Nat.add 0%nat l + b)%nat) as Hs.
  { intros l b. induction l as [|x l IH]; cbn; lia. }
  destruct e; rewrite ?app_nil_r, ?Z.add_0_r; try done. rewrite Hs. lia.
Qed.

Lemma trace_tallies es :
  exec (trace es) tallies_new
  = MkTallies (u64 (tokens_in (since is_llm_started es)))
      (u64 (Z.of_nat (length (chunks_in (since is_tts_finished es))))) (u64 (bytes_in (since is_tts_finished es))).
Proof.
  induction es as [|e es IH] using rev_ind; [done|]. destruct (trace_snoc es e tallies_new) as [-> _]. rewrite IH.
  rewrite !tally_snoc.
  assert (∀ l x, tokens_in (l ++ [x]) = tokens_in l + match x with LlmToken _ _ => 1 | _ => 0 end) as Ht.
  { intros l x. unfold tokens_in. rewrite omap_snoc, length_app. destruct x; cbn; lia. }
  assert (∀ l x, Z.of_nat (length (chunks_in (l ++ [x])))
                 = Z.of_nat (length (chunks_in l)) + match x with TtsAudioChunk _ _ _ => 1 | _ => 0 end) as Hc.
  { intros l x. unfold chunks_in. rewrite omap_snoc, length_app. destruct x; cbn; lia. }
  destruct e; cbn [is_llm_started is_tts_finished]; rewrite ?Ht, ?Hc, ?bytes_snoc, ?Z.add_0_r; try done;
    unfold exec; cbn; unfold set_field; cbn; by rewrite ?u64_succ.
Qed.

(** What the trace reports. [llm_finished] carries the number of tokens since
    the last [LlmStarted], of whatever turn; [tts_finished] the chunks and
    bytes since the last [TtsFinished], whatever sentence they are of: those
    of a sentence cancelled or failed before are counted with the next. *)
Theorem tracer_counts es t :
  (∀ c n, outs (trace (es ++ [LlmFinished t c n])) tallies_new
   = outs (trace es) tallies_new ++
     [MkTraced (lit "llm_finished") t
        [(lit "tokens", to_str (u64 (tokens_in (since is_llm_started es))));
         (lit "cancelled", lit (if c : bool then "true" else "false"))]]) ∧
  (∀ q, outs (trace (es ++ [TtsFinished t q])) tallies_new
   = outs (trace es) tallies_new ++
     [MkTraced (lit "tts_finished") t
        [(lit "seq", to_str q); (lit "chunks", to_str (u64 (Z.of_nat (length (chunks_in (since is_tts_finished es))))));
         (lit "bytes", to_str (u64 (bytes_in (since is_tts_finished es))))]]).
Proof.
  split.
  - intros c n. destruct (trace_snoc es (LlmFinished t c n) tallies_new) as [_ ->]. by rewrite trace_tallies.
  - intros q. destruct (trace_snoc es (TtsFinished t q) tallies_new) as [_ ->]. by rewrite trace_tallies.
Qed.

(** Two sentences, the first cancelled after a chunk. *)
Example tally_carried :
  let es := [TtsStarted 1 0; TtsAudioChunk 1 0 400; TtsStarted 1 1; TtsAudioChunk 1 1 200; TtsFinished 1 1] in
  (λ x, x.2) <$> concat (tr_fields <$> outs (trace es) tallies_new) = [lit "0"; lit "1"; lit "1"; lit "2"; lit "600"].
Proof. reflexivity. Qed.
