(* ===== verification/Startup.v ===== *)
(** * Start-up (src/src/cli/args.cpp, config/paths.cpp, orchestrator/bootstrap.cpp,
      the head of main.cpp)

    The command line, where files are looked for, the configuration as the
    rest of the program gets it, the memory monitor of the GPU, and the
    decisions [main] takes before anything is built. The environment, the
    file system, the YAML reader, the echo canceller set-up and the probe of
    the GPU are arguments. *)
From S2P Require Import Prelude Event Config Log Fsm.

(** ** The command line *)

Record CliArgs := MkArgs {
  config_path : str; show_help : bool; stdin_mode : bool; stdin_lang : str;
  demo : str; demo_args : list str;
}.
#[global] Instance eta_args : Eta CliArgs := λ a,
  MkArgs (config_path a) (show_help a) (stdin_mode a) (stdin_lang a) (demo a) (demo_args a).
Definition args_new : CliArgs := MkArgs [] false false [] [] [].

(** The loop over argv: [inr] is the argument at which the process exits. *)
Fixpoint parse_from (args : CliArgs) (argv : list str) {struct argv} : CliArgs + str :=
  match argv with
  | [] => inl args
  | a :: rest =>
      if decide (a = lit "-h" ∨ a = lit "--help") then parse_from (args <| show_help := true |>) rest
      else if decide (a = lit "--stdin") then parse_from (args <| stdin_mode := true |>) rest
      else match decide (a = lit "--stdin-lang"), rest with
      | left _, v :: rest => parse_from (args <| stdin_lang := v |>) rest
      | _, _ =>
          if starts_with (lit "--stdin-lang=") a then
            parse_from (args <| stdin_lang := drop (length (lit "--stdin-lang=")) a |>) rest
          else match decide (a = lit "--config"), rest with
          | left _, v :: rest => parse_from (args <| config_path := v |>) rest
          | _, _ =>
              if starts_with (lit "--config=") a then
                parse_from (args <| config_path := drop (length (lit "--config=")) a |>) rest
              else if decide (a = lit "demo") then
                inl match rest with
                    | n :: tail =>
                        if decide (head n ≠ Some "-"%char)
                        then args <| demo := n |> <| demo_args ::= λ l, l ++ tail |>
                        else args <| demo := lit "list" |> <| demo_args ::= λ l, l ++ rest |>
                    | [] => args <| demo := lit "list" |>
                    end
              else inr a
          end
      end
  end.
Definition parse_args (argv : list str) : CliArgs + str := parse_from args_new (drop 1 argv).

(** ** Paths *)

(** [std::filesystem::path] on POSIX, as its text. *)
Definition is_absolute (p : str) : bool := bool_decide (head p = Some "/"%char).
Definition path_div (a b : str) : str :=
  if is_absolute b then b
  else if decide (a = [] ∨ last a = Some "/"%char) then a ++ b else a ++ "/"%char :: b.
(** What is before the last separator; the root has itself as parent. *)
Fixpoint drop_slashes (rev_p : str) : str :=
  match rev_p with "/"%char :: p => drop_slashes p | _ => rev_p end.
Fixpoint drop_name (rev_p : str) : str :=
  match rev_p with [] => [] | c :: p => if decide (c = "/"%char) then rev_p else drop_name p end.
Definition parent_path (p : str) : str :=
  match rev (drop_slashes (drop_name (rev p))) with
  | [] => if is_absolute p then ["/"%char] else []
  | q => q
  end.

Section environment.
Context (env : string → option str).

Definition getenv_path (name : string) : str := default [] (env name).
Definition home_dir : str := getenv_path "HOME".
Definition xdg_data_home : str :=
  let x := getenv_path "XDG_DATA_HOME" in
  if decide (x ≠ []) then x
  else if decide (home_dir = []) then [] else path_div (path_div home_dir (lit ".local")) (lit "share").
Definition xdg_config_home : str :=
  let x := getenv_path "XDG_CONFIG_HOME" in
  if decide (x ≠ []) then x
  else if decide (home_dir = []) then [] else path_div home_dir (lit ".config").

(** The path, and the output is the directory it creates. *)
Abbreviation P := (Act unit str).
Local Open Scope act_scope.

Definition resolve_data_path (input default_filename : str) : P str :=
  let root := xdg_data_home in
  let p :=
    if decide (input = []) then
      if decide (root = []) then default_filename else path_div (path_div root (lit "acva")) default_filename
    else if is_absolute input then input
    else if decide (root = []) then input else path_div (path_div root (lit "acva")) input in
  let parent := parent_path p in
  (if decide (parent = []) then skip else emit parent);;
  ret p.

Context (exists_ : str → bool).

Definition config_candidates : list str :=
  let ch := xdg_config_home in
  [if decide (ch = []) then [] else path_div (path_div ch (lit "acva")) (lit "default.yaml");
   path_div (lit "config") (lit "default.yaml"); lit "/etc/acva/default.yaml"].

Definition not_found_message (candidates : list str) : str :=
  (foldl (λ '(msg, first) c,
     if decide (c = []) then (msg, first)
     else (msg ++ (if first : bool then lit " " else lit ", ") ++ c, false))
     (lit "config: no config file found; tried", true) candidates).1
  ++ lit " — pass --config PATH or place a default.yaml in one of those locations".

Definition resolve_config_path (cli : str) : str + str :=
  if decide (cli ≠ []) then inl cli
  else match List.find (λ c, negb (bool_decide (c = [])) && exists_ c) config_candidates with
       | Some c => inl c
       | None => inr (not_found_message config_candidates)
       end.

(** ** The configuration *)

Context (read_yaml : str → str + Config) (read : str → option str).

Definition set_stdin (stdin : bool) (cfg : Config) : Config :=
  if stdin then
    let p := pipeline cfg in
    cfg <| pipeline := Build_PipelineConfig false (fake_sentences_per_turn p) (fake_idle_between_turns_ms p)
                         (fake_barge_in_probability p) |>
  else cfg.
Definition set_db_path (p : str) (cfg : Config) : Config :=
  let m := memory cfg in
  cfg <| memory := Build_MemoryConfig p (mem_recent_turns_n m) (write_queue_capacity m) (summary m) (facts m) |>.
Definition set_model_path (p : str) (cfg : Config) : Config := cfg <| vad ::= λ v, v <| model_path := p |> |>.

Definition load_and_resolve_config (cli : str) (stdin : bool) : P (Config * str + str) :=
  match resolve_config_path cli with
  | inr err => ret (inr err)
  | inl path =>
      match load_from_file read_yaml read path with
      | inl err => ret (inr err)
      | inr cfg =>
          let cfg := set_stdin stdin cfg in
          db ← resolve_data_path (db_path (memory cfg)) (lit "acva.db");
          let cfg := set_db_path db cfg in
          cfg ← (if decide (model_path (vad cfg) = []) then
                   resolved ← resolve_data_path [] (lit "models/silero/silero_vad.onnx");
                   ret (if exists_ resolved then set_model_path resolved cfg else cfg)
                 else
                   resolved ← resolve_data_path (model_path (vad cfg)) (lit "silero/silero_vad.onnx");
                   ret (set_model_path resolved cfg));
          ret (inl (cfg, path))
      end
  end.

(** ** main, up to the runtime *)

(** [--stdin-lang] against the maps that have entries. *)
Definition stdin_lang_errors (cfg : Config) (lang : str) : list str :=
  (if negb (bool_decide (system_prompts (dialogue cfg) = [])) && negb (smap_contains lang (system_prompts (dialogue cfg)))
   then [lit "dialogue.system_prompts has no entry for '" ++ lang ++ lit "'"] else []) ++
  (if negb (bool_decide (voices (tts cfg) = [])) && negb (smap_contains lang (voices (tts cfg)))
   then [lit "tts.voices has no entry for '" ++ lang ++ lit "'"] else []).

(** [Threw] is an exception no one catches; [Demo] runs a demo of the table;
    [Runtime] goes on to build the runtime. *)
Inductive Outcome :=
  | Exit (success : bool) (errors : list str)
  | Threw (what : str)
  | Demo (name : str) (args : list str) (cfg : Config)
  | Runtime (args : CliArgs) (cfg : Config).

Context (mkdir fopen_ : str → bool) (log_name : str).
(** The error of the echo canceller set-up, and the names of the demos. *)
Context (system_aec : ApmConfig → option str) (demos : list str).

Definition main_start (argv : list str) : P Outcome :=
  match parse_args argv with
  | inr a => ret (Exit false [lit "acva: unknown argument: " ++ a])
  | inl args =>
      if show_help args then ret (Exit true []) else
      loaded ← load_and_resolve_config (config_path args) (stdin_mode args);
      match loaded with
      | inr err => ret (Exit false [err])
      | inl (cfg, _) =>
          ret match log_init mkdir fopen_ log_name (logging cfg) with
          | inr what => Threw what
          | inl _ =>
              let errs := if stdin_mode args && negb (bool_decide (stdin_lang args = []))
                          then stdin_lang_errors cfg (stdin_lang args) else [] in
              if decide (errs ≠ []) then Exit false errs
              else match system_aec (apm cfg) with
              | Some err => Exit false [lit "acva: system AEC setup failed: " ++ err]
              | None =>
                  if decide (demo args = []) then Runtime args cfg
                  else if decide (demo args = lit "list") then Exit true []
                  else if decide (demo args ∈ demos) then Demo (demo args) (demo_args args) cfg
                  else Exit false [lit "acva: unknown demo '" ++ demo args ++ lit "' — try `acva demo` for the list."]
              end
          end
      end
  end.
End environment.

(** ** The line reader of the stdin mode *)

(** What it publishes for the lines of the standard input. *)
Definition stdin_events (lang : str) (lines : list str) : list Event :=
  omap (λ line, if decide (line = []) then None else Some (FinalTranscript kNoTurn line lang (Some 1%Q) 0 0)) lines.
Definition stdin_language (args : CliArgs) (cfg : Config) : str :=
  if decide (stdin_lang args = []) then fallback_language (dialogue cfg) else stdin_lang args.

(** ** The ALSA configuration *)

(** The file that keeps PortAudio from probing every ALSA plugin: what is
    written and set; [mkstemp]: the name it makes. *)
Inductive SysCall := WriteFile (path content : str) | SetEnv (name value : str).
Definition kMinimalConf : str :=
  lit "pcm.!default { type pulse }" ++ ["010"%char] ++ lit "ctl.!default { type pulse }" ++ ["010"%char].
Definition install_alsa_sidestep (audio : AudioConfig) (mkstemp : option str) : list SysCall :=
  if negb (skip_alsa_full_probe audio) then [] else
  match mkstemp with
  | None => []
  | Some tmpl => [WriteFile tmpl kMinimalConf; SetEnv (lit "ALSA_CONFIG_PATH") tmpl]
  end.

(** ** The memory monitor of the GPU *)

(** [probe]: used and free, [None] when nvidia-smi did not answer. *)
Abbreviation Vram := (option (Z * Z)).

Definition vram_step (threshold_mib : Z) (v : Vram) (low : bool) : bool * list Log.Traced :=
  match v with
  | Some (used, free_) =>
      let now_low := bool_decide (free_ < threshold_mib)%Z in
      let fields := Log.fields [("used_mib", to_str used); ("free_mib", to_str free_);
                                ("threshold_mib", to_str threshold_mib)]%string in
      if now_low && negb low then (true, [MkTraced (lit "vram_low") kNoTurn fields])
      else if negb now_low && low then (false, [MkTraced (lit "vram_recovered") kNoTurn fields])
      else (low, [])
  | None => (low, [])
  end.
Fixpoint vram_loop (threshold_mib : Z) (vs : list Vram) (low : bool) : list Log.Traced :=
  match vs with
  | [] => []
  | v :: vs => let '(low, os) := vram_step threshold_mib v low in os ++ vram_loop threshold_mib vs low
  end.
(** The thread of [VramMonitor]: it leaves when the first probe fails. *)
Definition vram_monitor (logging : LoggingConfig) (vs : list Vram) : list Log.Traced :=
  if decide (vram_monitor_interval_ms logging = 0)%Z then []
  else match vs with
       | Some _ :: vs => vram_loop (vram_low_threshold_mib logging) vs false
       | _ => []
       end.

(** ** Specification of the command line *)

Inductive Opt :=
  | OHelp (long : bool)
  | OStdin
  | OLang (joined : bool) (v : str)
  | OConfig (joined : bool) (v : str).
Definition option_args (name : string) (joined : bool) (v : str) : list str :=
  if joined then [lit name ++ "="%char :: v] else [lit name; v].
Definition render_opt (o : Opt) : list str :=
  match o with
  | OHelp long => [lit (if long then "--help" else "-h")]
  | OStdin => [lit "--stdin"]
  | OLang j v => option_args "--stdin-lang" j v
  | OConfig j v => option_args "--config" j v
  end.
Definition apply_opt (a : CliArgs) (o : Opt) : CliArgs :=
  match o with
  | OHelp _ => a <| show_help := true |>
  | OStdin => a <| stdin_mode := true |>
  | OLang _ v => a <| stdin_lang := v |>
  | OConfig _ v => a <| config_path := v |>
  end.

(** The subcommand, with or without a name, and what is left to it. *)
Inductive Sub := NoDemo | DemoList (tail : list str) | DemoNamed (n : str) (tail : list str).
Definition dashed (s : str) : Prop := head s = Some "-"%char.
Definition sub_ok (s : Sub) : Prop :=
  match s with NoDemo => True | DemoList tail => (∀ x, head tail = Some x → dashed x) | DemoNamed n _ => ¬ dashed n end.
Definition render_sub (s : Sub) : list str :=
  match s with NoDemo => [] | DemoList tail => lit "demo" :: tail | DemoNamed n tail => lit "demo" :: n :: tail end.
Definition apply_sub (a : CliArgs) (s : Sub) : CliArgs :=
  match s with
  | NoDemo => a
  | DemoList tail => a <| demo := lit "list" |> <| demo_args ::= λ l, l ++ tail |>
  | DemoNamed n tail => a <| demo := n |> <| demo_args ::= λ l, l ++ tail |>
  end.

(** ** Lemmas *)

Lemma joined_arg name x :
  starts_with (lit name ++ ["="%char]) x = true → x = lit name ++ "="%char :: drop (length (lit name ++ ["="%char])) x.
Proof. intros H%starts_with_app. by rewrite <- app_assoc in H. Qed.

(** One turn of the loop: an option, the subcommand, or an unknown argument. *)
Lemma parse_from_step a x rest :
  (∃ o rest', x :: rest = render_opt o ++ rest' ∧ length rest' < length (x :: rest) ∧
     parse_from a (x :: rest) = parse_from (apply_opt a o) rest') ∨
  (∃ s, x :: rest = render_sub s ∧ sub_ok s ∧ parse_from a (x :: rest) = inl (apply_sub a s)) ∨
  parse_from a (x :: rest) = inr x.
Proof.
  cbn [parse_from]. destruct (decide (x = lit "-h" ∨ x = lit "--help")) as [Hh|_].
  { left. destruct Hh as [-> | ->]; [exists (OHelp false), rest|exists (OHelp true), rest]; (split; [done|split; [cbn; lia|done]]). }
  destruct (decide (x = lit "--stdin")) as [->|_].
  { left. exists OStdin, rest. split; [done|split; [cbn; lia|done]]. }
  assert (∀ name o, starts_with (lit name ++ ["="%char]) x = true →
    (∀ v, render_opt (o v) = option_args name true v) →
    ∃ o' rest', x :: rest = render_opt o' ++ rest' ∧ length rest' < length (x :: rest) ∧
      parse_from (apply_opt a (o (drop (length (lit name ++ ["="%char])) x))) rest = parse_from (apply_opt a o') rest') as Hj.
  { intros name o Hx Ho. exists (o (drop (length (lit name ++ ["="%char])) x)), rest. rewrite Ho. cbn [option_args app].
    rewrite <- joined_arg by done. split; [done|split; [cbn; lia|done]]. }
  destruct (decide (x = lit "--stdin-lang")) as [->|_], rest as [|v rest].
  1: by right; right.
  1: left; exists (OLang false v), rest; (split; [done|split; [cbn; lia|done]]).
  all: destruct (starts_with (lit "--stdin-lang=") x) eqn:El; [by left; apply (Hj "--stdin-lang"%string (OLang true))|].
  all: destruct (decide (x = lit "--config")) as [->|_].
  1: by right; right.
  2: left; exists (OConfig false v), rest; (split; [done|split; [cbn; lia|done]]).
  all: destruct (starts_with (lit "--config=") x) eqn:Ec; [by left; apply (Hj "--config"%string (OConfig true))|].
  all: destruct (decide (x = lit "demo")) as [->|_]; [|by right; right].
  - right. left. exists (DemoList []). split; [done|]. split; [done|]. destruct a. cbn. unfold set_field. cbn. by rewrite app_nil_r.
  - right. left. destruct (decide (head v ≠ Some "-"%char)) as [Hd|Hd].
    + by exists (DemoNamed v rest).
    + exists (DemoList (v :: rest)). split; [done|]. split; [|done]. intros y [= <-].
      unfold dashed. by destruct (decide (head v = Some "-"%char)).
Qed.

Lemma parse_from_sound argv a r :
  parse_from a argv = inl r →
  ∃ os s, argv = flat_map render_opt os ++ render_sub s ∧ sub_ok s ∧ r = apply_sub (foldl apply_opt a os) s.
Proof.
  remember (length argv) as n eqn:En. revert argv a En.
  induction n as [n IH] using lt_wf_ind. intros [|x rest] a ->; [intros [= <-]; by exists [], NoDemo|].
  destruct (parse_from_step a x rest) as [(o & rest' & Hx & Hl & ->)|[(s & Hx & Hs & ->)| ->]]; [| |done].
  - intros Hp. destruct (IH _ Hl rest' _ eq_refl Hp) as (os & s & -> & Hs & ->). exists (o :: os), s.
    rewrite Hx. cbn. by rewrite app_assoc.
  - intros [= <-]. by exists [], s.
Qed.

Lemma parse_option o a rest : parse_from a (render_opt o ++ rest) = parse_from (apply_opt a o) rest.
Proof.
  destruct o as [[]| |[] v|[] v]; try done.
Qed.

Lemma parse_demo a n tail :
  parse_from a (lit "demo" :: n :: tail)
  = inl (apply_sub a (if decide (head n ≠ Some "-"%char) then DemoNamed n tail else DemoList (n :: tail))).
Proof. trans (inl (B := str) (if decide (head n ≠ Some "-"%char) then apply_sub a (DemoNamed n tail) else apply_sub a (DemoList (n :: tail)))); [reflexivity|by case_decide]. Qed.

Lemma parse_sub s a : sub_ok s → parse_from a (render_sub s) = inl (apply_sub a s).
Proof.
  destruct s as [|[|n tail]|n tail]; intros Hs; [done| | |].
  - destruct a. cbn. unfold set_field. cbn. by rewrite app_nil_r.
  - cbn [render_sub]. rewrite parse_demo, decide_False; [done|]. intros H. apply H. by apply (Hs n).
  - cbn [render_sub]. by rewrite parse_demo, decide_True.
Qed.

Lemma parse_from_complete os s a :
  sub_ok s → parse_from a (flat_map render_opt os ++ render_sub s) = inl (apply_sub (foldl apply_opt a os) s).
Proof.
  intros Hs. revert a. induction os as [|o os IH]; intros a; [by apply parse_sub|].
  cbn [flat_map foldl]. by rewrite <- app_assoc, parse_option, IH.
Qed.

(** *** The configuration that is loaded *)

Section start.
Context (env : string → option str) (exists_ : str → bool) (read_yaml : str → str + Config) (read : str → option str).

Lemma resolve_ok stdin cfg db mp :
  config_ok cfg →
  config_ok (set_db_path db (set_stdin stdin cfg)) ∧ config_ok (set_model_path mp (set_db_path db (set_stdin stdin cfg))).
Proof. intros []. by destruct stdin; split; constructor. Qed.

Definition data_path (input default_filename : str) : str := result (resolve_data_path env input default_filename) tt.

Lemma data_path_eq input d :
  data_path input d =
    let root := xdg_data_home env in
    if decide (input ≠ []) then
      if is_absolute input then input else if decide (root = []) then input else path_div (path_div root (lit "acva")) input
    else if decide (root = []) then d else path_div (path_div root (lit "acva")) d.
Proof.
  unfold data_path, resolve_data_path. cbv zeta. rewrite result_bind. cbn.
  destruct (decide (input = [])) as [->|Hi]; [|by rewrite (decide_True _ _ Hi)].
  rewrite (decide_False (P := [] ≠ [])); [done|by intros H].
Qed.

Lemma path_div_ne a b : b ≠ [] → path_div a b ≠ [].
Proof. unfold path_div. intros Hb. destruct (is_absolute b); [done|]. by destruct (decide _), a, b. Qed.

Lemma data_path_ne input d : d ≠ [] → data_path input d ≠ [].
Proof.
  intros Hd. rewrite data_path_eq. cbv zeta. destruct (decide (input ≠ [])) as [Hi|].
  - destruct (is_absolute input), (decide (xdg_data_home env = [])); try done; by apply path_div_ne.
  - destruct (decide (xdg_data_home env = [])); [done|by apply path_div_ne].
Qed.

Lemma loaded_ok cli stdin cfg path :
  result (load_and_resolve_config env exists_ read_yaml read cli stdin) tt = inl (cfg, path) →
  config_ok cfg ∧ (stdin = true → fake_driver_enabled (pipeline cfg) = false) ∧
  resolve_config_path env exists_ cli = inl path ∧ db_path (memory cfg) ≠ [].
Proof.
  unfold load_and_resolve_config. destruct (resolve_config_path env exists_ cli) as [p|] eqn:Er; [|done].
  destruct (load_from_file read_yaml read p) as [err|cfg0] eqn:El; [done|].
  assert (config_ok cfg0) as Hok.
  { apply validate_none. unfold load_from_file in El. destruct (read p); [|done]. unfold load_from_string in El.
    destruct (read_yaml _); [done|]. by destruct (validate (resolve_aliases _)) eqn:Ev; simplify_eq. }
  rewrite result_bind. set (m := resolve_data_path env _ _). set (u := exec m tt).
  assert (result m tt ≠ []) as Hdb by by apply data_path_ne. generalize dependent (result m tt). intros db Hdb.
  rewrite result_bind.
  match goal with |- result (ret (inl (?c, p))) _ = _ → _ =>
    assert (c = set_db_path db (set_stdin stdin cfg0) ∨ ∃ mp, c = set_model_path mp (set_db_path db (set_stdin stdin cfg0))) as Hc;
    [|generalize dependent c]
  end.
  { destruct (decide _); rewrite result_bind; [case_match; eauto|eauto]. }
  intros c Hc [= <- <-]. destruct Hc as [->|[mp ->]].
  - split; [by apply (resolve_ok stdin cfg0 db [])|]. split; [by intros ->|done].
  - split; [by apply resolve_ok|]. split; [by intros ->|done].
Qed.
End start.

Lemma no_error (b c : bool) (e : str) : (if negb b && negb c then [e] else []) = [] → b = false → c = true.
Proof. by destruct b, c. Qed.

Lemma lang_errors_nil cfg lang :
  stdin_lang_errors cfg lang = [] →
  (system_prompts (dialogue cfg) ≠ [] → keyed lang (system_prompts (dialogue cfg))) ∧
  (voices (tts cfg) ≠ [] → keyed lang (voices (tts cfg))).
Proof.
  unfold stdin_lang_errors, keyed, smap_contains. intros [H1 H2]%app_nil.
  split; intros Hne; rewrite <- not_eq_None_Some; eapply bool_decide_eq_true, no_error;
    eauto; by apply bool_decide_eq_false.
Qed.

(** ** Theorems *)

(** The command line. [parse_args] accepts exactly the command lines
    that are options in any order, each with its value in the next argument
    or after the equals sign, and then at most one subcommand, with a name
    unless what follows begins with a dash; the result is what the options
    say, the last of a kind winning, and all that follows the subcommand
    goes to it unread. *)
Theorem parse_exact prog argv r :
  parse_args (prog :: argv) = inl r ↔
  ∃ os s, argv = flat_map render_opt os ++ render_sub s ∧ sub_ok s ∧ r = apply_sub (foldl apply_opt args_new os) s.
Proof.
  unfold parse_args. cbn [drop]. rewrite skipn_0. split; [apply parse_from_sound|].
  intros (os & s & -> & Hs & ->). by apply parse_from_complete.
Qed.

(** The configuration file. The one named on the command line is taken
    as it is; without one the first of the candidates that exists, those
    without a directory to be in left out; and there is an error exactly when
    none exists. *)
Theorem config_path_search env exists_ cli :
  match resolve_config_path env exists_ cli with
  | inl p =>
      (cli ≠ [] ∧ p = cli) ∨
      (cli = [] ∧ p ≠ [] ∧ exists_ p = true ∧ ∃ before after, config_candidates env = before ++ p :: after ∧
         ∀ c, c ∈ before → c ≠ [] → exists_ c = false)
  | inr _ => cli = [] ∧ ∀ c, c ∈ config_candidates env → c ≠ [] → exists_ c = false
  end.
Proof.
  unfold resolve_config_path. destruct (decide (cli ≠ [])) as [Hc|Hc]; [by left|].
  apply dec_stable in Hc as ->.
  generalize (config_candidates env). intros cs. induction cs as [|c cs IH]; cbn.
  { split; [done|]. by intros c Hin%elem_of_nil. }
  destruct (bool_decide_reflect (c = [])) as [->|Hne]; cbn.
  - destruct (List.find _ cs) as [p|].
    + right. destruct IH as [[Hd _]|(_ & Hp & He & before & after & -> & Hb)]; [done|].
      do 3 (split; [done|]). exists ([] :: before), after. split; [done|].
      intros c [->|Hin]%elem_of_cons; [done|by apply Hb].
    + destruct IH as [_ IH]. split; [done|]. intros c [->|Hin]%elem_of_cons; [done|by apply IH].
  - destruct (exists_ c) eqn:Ee.
    + right. do 3 (split; [done|]). exists [], cs. split; [done|]. by intros ? ?%elem_of_nil.
    + destruct (List.find _ cs) as [p|].
      * right. destruct IH as [[Hd _]|(_ & Hp & He & before & after & -> & Hb)]; [done|].
        do 3 (split; [done|]). exists (c :: before), after. split; [done|].
        intros c' [->|Hin]%elem_of_cons; [done|by apply Hb].
      * destruct IH as [_ IH]. split; [done|]. intros c' [->|Hin]%elem_of_cons; [done|by apply IH].
Qed.

(** What reaches the runtime. When [main] goes on to build the runtime
    or runs a demo, the configuration is one that validation accepts, with a
    database path, with the fake driver off in stdin mode, and there with a
    language that the maps of prompts and voices know; the echo canceller
    set-up did not fail and a demo is one of the table. Nothing is thrown at
    start-up except when the log file asked for cannot be opened. *)
Theorem start_sound env exists_ read_yaml read mkdir fopen_ log_name system_aec demos argv :
  let ready (args : CliArgs) cfg :=
    config_ok cfg ∧ db_path (memory cfg) ≠ [] ∧ system_aec (apm cfg) = None ∧
    (stdin_mode args = true → fake_driver_enabled (pipeline cfg) = false ∧
       (stdin_lang args ≠ [] →
          (system_prompts (dialogue cfg) ≠ [] → keyed (stdin_lang args) (system_prompts (dialogue cfg))) ∧
          (voices (tts cfg) ≠ [] → keyed (stdin_lang args) (voices (tts cfg))))) in
  match result (main_start env exists_ read_yaml read mkdir fopen_ log_name system_aec demos argv) tt with
  | Runtime args cfg => parse_args argv = inl args ∧ show_help args = false ∧ demo args = [] ∧ ready args cfg
  | Demo name rest cfg => ∃ args, parse_args argv = inl args ∧ demo args = name ∧ demo_args args = rest ∧
      name ∈ demos ∧ ready args cfg
  | Threw _ => ∃ cfg p, config_ok cfg ∧ sink (logging cfg) = lit "file" ∧ file_path (logging cfg) = Some p ∧
      fopen_ p = false
  | Exit _ _ => True
  end.
Proof.
  cbv zeta. unfold main_start. destruct (parse_args argv) as [args|]; [|done].
  destruct (show_help args) eqn:Eh; [done|]. rewrite result_bind.
  destruct (result (load_and_resolve_config _ _ _ _ _ _) tt) as [[cfg path]|] eqn:El; [|done].
  apply loaded_ok in El as (Hok & Hfake & _ & Hdb). cbn [result ret fst].
  change (result (ret ?o) _) with o.
  pose proof (log_init_spec mkdir fopen_ log_name (logging cfg)) as Hlog. unfold sinks_spec in Hlog.
  destruct (log_init mkdir fopen_ log_name (logging cfg)) as [[sinks lvl]|what].
  2: { destruct Hlog as [[Hf Hp]|[Hd Hp]].
       - destruct (co_file _ Hok Hf) as [p Ep]. exists cfg, p. auto.
       - destruct (co_dir _ Hok Hd) as [d Ed]. congruence. }
  clear Hlog. case_decide as Herr; [done|]. destruct (system_aec (apm cfg)) eqn:Ea; [done|].
  assert (config_ok cfg ∧ db_path (memory cfg) ≠ [] ∧ system_aec (apm cfg) = None ∧
    (stdin_mode args = true → fake_driver_enabled (pipeline cfg) = false ∧
       (stdin_lang args ≠ [] →
          (system_prompts (dialogue cfg) ≠ [] → keyed (stdin_lang args) (system_prompts (dialogue cfg))) ∧
          (voices (tts cfg) ≠ [] → keyed (stdin_lang args) (voices (tts cfg)))))) as Hready.
  { do 3 (split; [done|]). intros Hs. split; [by apply Hfake|]. intros Hl. apply lang_errors_nil.
    rewrite Hs, bool_decide_false in Herr by done. cbn in Herr. by destruct (stdin_lang_errors _ _); [|destruct Herr]. }
  case_decide as Ed; [done|]. case_decide; [done|]. case_decide; [|done]. by exists args.
Qed.

(** A report for each change between enough and too little memory. *)
Fixpoint edges (prev : bool) (lows : list bool) : list str :=
  match lows with
  | [] => []
  | b :: lows => (if decide (b = prev) then [] else [lit (if b then "vram_low" else "vram_recovered")%string]) ++ edges b lows
  end.

(** The memory monitor reports edges over the probes that answered, so the
    two kinds in turn, beginning with a low. *)
Theorem vram_edges threshold vs low :
  tr_name <$> vram_loop threshold vs low
  = edges low (omap (λ v : Vram, (λ x : Z * Z, bool_decide (x.2 < threshold)%Z) <$> v) vs).
Proof.
  revert low. induction vs as [|[[used free_]|] vs IH]; intros low; [done| |apply IH].
  cbn. destruct (bool_decide (free_ < threshold)%Z), low; cbn; by rewrite IH.
Qed.

(** In stdin mode without a microphone nothing publishes [SpeechStarted]:
    whatever the manager and the playback publish, the state machine stays in
    [Listening] through every turn. *)
Theorem stdin_stays_listening evs s :
  Fsm.state_ s = Fsm.Listening → Forall (λ x : Z * Event, ∀ t ts, x.2 ≠ SpeechStarted t ts) evs →
  Fsm.state_ (exec (Fsm.run evs) s) = Fsm.Listening.
Proof.
  intros Hs H. revert s Hs. induction H as [|[now e] evs He _ IH]; intros s Hs; [done|].
  cbn [Fsm.run]. rewrite exec_bind. apply IH. clear IH.
  destruct e; cbn [Fsm.on_event]; try done; [by destruct (He turn ts)|..].
  - unfold Fsm.handle_speech_ended. rewrite exec_gets. by rewrite Hs.
  - unfold Fsm.handle_final_transcript. rewrite exec_gets, Hs. done.
  - unfold Fsm.handle_llm_sentence. rewrite exec_modify, exec_gets. cbn. by rewrite Hs.
  - unfold Fsm.handle_llm_finished. rewrite exec_modify, exec_gets. cbn. rewrite Hs. done.
  - unfold Fsm.handle_playback_finished. rewrite exec_gets. case_decide; [done|].
    rewrite exec_modify, exec_gets. cbn. rewrite Hs. done.
  - unfold Fsm.handle_user_interrupted. rewrite exec_gets. cbv zeta. cbn. rewrite decide_True by auto. done.
Qed.

(** An empty name selects no demo: the runtime is started, the rest of the
    command line unread. *)
Example empty_demo_name :
  parse_args [lit "acva"; lit "demo"; []; lit "--bogus"] = inl (args_new <| demo_args := [lit "--bogus"] |>).
Proof. reflexivity. Qed.
