(* ===== verification/KeepAlive.v ===== *)
(** * Keep-alive and probes (src/src/supervisor/keep_alive.cpp, probe.cpp)

    The timer thread that pings the language model, cut at its accesses to
    shared state, with the thread that starts and stops it; and the probe of
    a service. The two callbacks and the HTTP client are what they answer. *)
From S2P Require Import Prelude.
From S2P Require Supervisor.

Module KeepAlive.
Local Open Scope Z_scope.

(** What is set of the options. *)
Record Options := MkOptions { should_fire : bool; on_tick : bool; on_fired : bool; on_skipped : bool }.

(** What [should_fire] does; whatever it throws is caught. *)
Inductive Check := Yes | No | Threw.
#[global] Instance Check_eq_dec : EqDecision Check.
Proof. solve_decision. Defined.

(** The timer thread: before the test of [running_]; before the wait; in
    [wait_for], the mutex released; before [should_fire]; before [on_tick];
    left the loop. *)
Inductive Pc := WNone | WTop | WWait | WBlocked | WCheck | WTick | WExit.

(** The thread that calls [start] and [stop]: in no call, or in [stop] after
    the exchange, the store and the notification. *)
Inductive OPc := OIdle | OExchanged | OStored | OJoin.
#[global] Instance Pc_eq_dec : EqDecision Pc.
Proof. solve_decision. Defined.
#[global] Instance OPc_eq_dec : EqDecision OPc.
Proof. solve_decision. Defined.

Record keep_alive := MkKeepAlive {
  running_ : bool; stopping_ : bool; fired_ : Z; skipped_ : Z; pc : Pc; owner : OPc;
}.
#[global] Instance eta_keep_alive : Eta keep_alive := λ k,
  MkKeepAlive (running_ k) (stopping_ k) (fired_ k) (skipped_ k) (pc k) (owner k).
Definition keep_alive_new : keep_alive := MkKeepAlive false false 0 0 WNone OIdle.

(** The calls of the callbacks. *)
Inductive Out := Checked (c : Check) | Ticked | OnFired | OnSkipped.
#[global] Instance Out_eq_dec : EqDecision Out.
Proof. solve_decision. Defined.

(** One step of a thread. [Worker c timed_out]: [c] is what [should_fire]
    does if this is its step, [timed_out] whether a blocked wait reaches its
    deadline now. *)
Inductive Label := Start | Stop | Owner | Worker (c : Check) (timed_out : bool).

Section keep_alive.
Variable opts : Options.

Definition start (k : keep_alive) : keep_alive :=
  if negb (should_fire opts) || negb (on_tick opts) then k
  else if running_ k then k
  else k <| running_ := true |> <| stopping_ := false |> <| pc := WTop |>.

(** [cv_.notify_all()]: a thread in the wait looks at its predicate again. *)
Definition notify (k : keep_alive) : keep_alive :=
  match pc k with WBlocked => if stopping_ k then k <| pc := WExit |> else k | _ => k end.

Definition worker (c : Check) (timed_out : bool) (k : keep_alive) : keep_alive * list Out :=
  match pc k with
  | WTop => (k <| pc := if running_ k then WWait else WExit |>, [])
  | WWait => (k <| pc := if stopping_ k then WExit else WBlocked |>, [])
  | WBlocked => (if timed_out then k <| pc := if stopping_ k then WExit else WCheck |> else k, [])
  | WCheck =>
      match c with
      | Yes => (k <| pc := WTick |>, [Checked c])
      | No | Threw =>
          (k <| skipped_ ::= λ n, u64 (n + 1) |> <| pc := WTop |>,
           Checked c :: if on_skipped opts then [OnSkipped] else [])
      end
  | WTick => (k <| fired_ ::= λ n, u64 (n + 1) |> <| pc := WTop |>, Ticked :: if on_fired opts then [OnFired] else [])
  | WNone | WExit => (k, [])
  end.

Definition step (l : Label) (k : keep_alive) : keep_alive * list Out :=
  match l, owner k with
  | Start, OIdle => (start k, [])
  | Stop, OIdle => (if running_ k then k <| running_ := false |> <| owner := OExchanged |> else k, [])
  | Owner, OExchanged => (k <| stopping_ := true |> <| owner := OStored |>, [])
  | Owner, OStored => ((notify k) <| owner := OJoin |>, [])
  | Owner, OJoin =>
      (match pc k with WExit | WNone => k <| pc := WNone |> <| owner := OIdle |> | _ => k end, [])
  | Worker c t, _ => worker c t k
  | _, _ => (k, [])
  end.

Fixpoint run (ls : list Label) (k : keep_alive) : keep_alive * list Out :=
  match ls with
  | [] => (k, [])
  | l :: ls => let '(k, o1) := step l k in let '(k, o2) := run ls k in (k, o1 ++ o2)
  end.

(** ** Specification *)

Definition count (o : Out → bool) (os : list Out) : Z := Z.of_nat (length (filter (λ x, o x = true) os)).
Definition is_tick (o : Out) : bool := match o with Ticked => true | _ => false end.
Definition is_skip (o : Out) : bool := match o with Checked No | Checked Threw => true | _ => false end.
Definition is_yes (o : Out) : bool := match o with Checked Yes => true | _ => false end.
Definition is_fired (o : Out) : bool := match o with OnFired => true | _ => false end.
Definition is_skipped (o : Out) : bool := match o with OnSkipped => true | _ => false end.

(** The flags by the position of the owner. *)
Definition inv (k : keep_alive) : Prop :=
  match owner k with
  | OIdle => if running_ k then stopping_ k = false ∧ pc k ∈ [WTop; WWait; WBlocked; WCheck; WTick] else pc k = WNone
  | OExchanged => running_ k = false ∧ stopping_ k = false ∧ pc k ≠ WNone
  | OStored => running_ k = false ∧ stopping_ k = true ∧ pc k ≠ WNone
  | OJoin => running_ k = false ∧ stopping_ k = true ∧ pc k ≠ WNone ∧ pc k ≠ WBlocked
  end.

(** Steps the worker still takes before it has left, once stopping. *)
Definition distance (p : Pc) : nat :=
  match p with WNone | WExit => 0 | WTop | WWait | WBlocked => 1 | WTick => 2 | WCheck => 3 end.

(** A check said yes and its tick has not come yet. *)
Definition pending (p : Pc) : Z := match p with WTick => 1 | _ => 0 end.

(** ** Lemmas *)

Lemma inv_step l k : inv k → inv (step l k).1.
Proof.
  unfold inv. intros H. destruct l as [| | |c t]; cbn [step].
  - destruct (owner k) eqn:Eo; cbn; rewrite ?Eo; try done. unfold start.
    destruct (negb _ || negb _); [by rewrite Eo|]. destruct (running_ k) eqn:Er; [by rewrite Eo, Er|].
    cbn. rewrite Eo. split; [done|set_solver].
  - destruct (owner k) eqn:Eo; cbn; rewrite ?Eo; try done. destruct (running_ k) eqn:Er; cbn; [|by rewrite Eo, Er].
    destruct H as [H1 H2]. split; [done|split; [done|]]. intros E. rewrite E in H2. set_solver.
  - destruct (owner k) eqn:Eo; cbn; rewrite ?Eo; try done.
    + by destruct H as (? & ? & ?).
    + destruct H as (Hr & Hs & Hp). unfold notify. destruct (pc k) eqn:Ep; rewrite ?Hs; cbn; rewrite ?Ep, ?Hr; done.
    + destruct H as (Hr & Hs & Hp & Hb). destruct (pc k) eqn:Ep; cbn; rewrite ?Eo, ?Ep, ?Hr; done.
  - unfold worker. destruct (owner k) eqn:Eo.
    + destruct (running_ k) eqn:Er.
      * destruct H as [Hs Hp]. destruct (pc k) eqn:Ep, c, t; cbn; rewrite ?Eo, ?Er, ?Hs, ?Ep; split; try done; set_solver.
      * rewrite H. cbn. by rewrite Eo, Er.
    + destruct H as (Hr & Hs & Hp). destruct (pc k) eqn:Ep, c, t; cbn; rewrite ?Eo, ?Hr, ?Hs, ?Ep; done.
    + destruct H as (Hr & Hs & Hp). destruct (pc k) eqn:Ep, c, t; cbn; rewrite ?Eo, ?Hr, ?Hs, ?Ep; done.
    + destruct H as (Hr & Hs & Hp & Hb). destruct (pc k) eqn:Ep, c, t; cbn; rewrite ?Eo, ?Hr, ?Hs, ?Ep; done.
Qed.

Lemma steps_snoc ls l k :
  run (ls ++ [l]) k = (let '(k1, o1) := run ls k in let '(k2, o2) := step l k1 in (k2, o1 ++ o2)).
Proof.
  revert k. induction ls as [|l0 ls IH]; intros k; cbn.
  - destruct (step l k) as [k1 o1]. by rewrite app_nil_r.
  - destruct (step l0 k) as [k1 o1]. rewrite IH. destruct (run ls k1) as [k2 o2]. destruct (step l k2) as [k3 o3].
    by rewrite app_assoc.
Qed.

Lemma flags_run ls : inv (run ls keep_alive_new).1.
Proof.
  induction ls as [|l ls IH] using rev_ind; [done|]. rewrite steps_snoc.
  destruct (run ls keep_alive_new) as [k os]. pose proof (inv_step l k IH). by destruct (step l k).
Qed.

Lemma count_app f os os' : count f (os ++ os') = count f os + count f os'.
Proof. unfold count. rewrite filter_app, length_app. lia. Qed.

Lemma count_cons f o os : count f (o :: os) = (if f o then 1 else 0) + count f os.
Proof. unfold count. rewrite filter_cons. case_decide as E; [rewrite E; cbn; lia|by destruct (f o)]. Qed.
Lemma count_nil f : count f [] = 0.
Proof. done. Qed.
#[local] Arguments count : simpl never.

(** Every tick follows an answer of yes. *)
Definition counted (k : keep_alive) (os : list Out) : Prop :=
  fired_ k = u64 (count is_tick os) ∧ skipped_ k = u64 (count is_skip os) ∧
  count is_fired os = (if on_fired opts then count is_tick os else 0) ∧
  count is_skipped os = (if on_skipped opts then count is_skip os else 0) ∧
  count is_yes os = count is_tick os + pending (pc k).

Lemma counted_worker c t k os :
  counted k os → counted (worker c t k).1 (os ++ (worker c t k).2).
Proof.
  destruct k as [r st f sk p o]. unfold counted, worker. cbn. intros (-> & -> & Hof & Hos & Hy).
  destruct p, c, t, (on_fired opts) eqn:Ef, (on_skipped opts) eqn:Es; try destruct r; try destruct st;
    cbn; unfold set_field; cbn; rewrite ?app_nil_r, ?count_app, ?count_cons, ?count_nil, ?u64_succ, ?Hof, ?Hos, ?Hy;
    cbn; repeat split; try lia; f_equal; lia.
Qed.

Lemma counted_move k k' os :
  counted k os → fired_ k' = fired_ k → skipped_ k' = skipped_ k → pending (pc k') = pending (pc k) → counted k' os.
Proof. unfold counted. by intros H -> -> ->. Qed.

Lemma counted_step l k os :
  inv k → counted k os → counted (step l k).1 (os ++ (step l k).2).
Proof.
  unfold inv. intros Hi Hk. destruct l as [| | |c t]; cbn [step]; [| | |by apply counted_worker].
  - destruct (owner k) eqn:Eo; cbn; rewrite app_nil_r; try done. unfold start. destruct (negb _ || negb _); [done|].
    destruct (running_ k); [done|]. apply (counted_move k); [done..|]. by rewrite Hi.
  - destruct (owner k) eqn:Eo; cbn; rewrite app_nil_r; try done. destruct (running_ k); [|done].
    by apply (counted_move k).
  - destruct (owner k) eqn:Eo; cbn; rewrite app_nil_r; try done; apply (counted_move k); try done;
      unfold notify; destruct (pc k) eqn:Ep; try destruct (stopping_ k); cbn; by rewrite ?Ep.
Qed.

Lemma counted_run ls : let '(k, os) := run ls keep_alive_new in counted k os.
Proof.
  induction ls as [|l ls IH] using rev_ind; [by repeat split; cbn; destruct (on_fired opts), (on_skipped opts)|]. rewrite steps_snoc. pose proof (flags_run ls) as Hi.
  destruct (run ls keep_alive_new) as [k os]. pose proof (counted_step l k os Hi IH) as H. by destruct (step l k).
Qed.

(** Ticks that can still come once [running_] is false. *)
Definition potential (p : Pc) : Z := match p with WWait | WBlocked | WCheck | WTick => 1 | _ => 0 end.

Lemma potential_step l k :
  l ≠ Start → running_ k = false →
  running_ (step l k).1 = false ∧ count is_tick (step l k).2 + potential (pc (step l k).1) ≤ potential (pc k).
Proof.
  intros Hl Hr. destruct l as [| | |c t]; [done| | |]; cbn [step].
  - destruct (owner k); cbn; rewrite ?Hr; done.
  - destruct (owner k) eqn:Eo; cbn; try done; [unfold notify|]; destruct (pc k) eqn:Ep; try destruct (stopping_ k);
      cbn; rewrite ?Ep; done.
  - unfold worker. destruct (pc k) eqn:Ep; rewrite ?Hr; try destruct c; try destruct t; try destruct (stopping_ k);
      try destruct (on_skipped opts); try destruct (on_fired opts); cbn; rewrite ?Ep; done.
Qed.

Lemma running_run ls k :
  Forall (λ l, l ≠ Start) ls → running_ k = false → running_ (run ls k).1 = false.
Proof.
  intros H. revert k. induction H as [|l ls Hl _ IH]; intros k Hr; [done|]. cbn [run].
  destruct (potential_step l k Hl Hr) as [Hr1 _]. destruct (step l k) as [k1 o1]. specialize (IH k1 Hr1).
  by destruct (run ls k1).
Qed.

Lemma potential_run ls k :
  Forall (λ l, l ≠ Start) ls → running_ k = false →
  count is_tick (run ls k).2 + potential (pc (run ls k).1) ≤ potential (pc k).
Proof.
  intros H. revert k. induction H as [|l ls Hl _ IH]; intros k Hr; [done|]. cbn [run].
  destruct (potential_step l k Hl Hr) as [Hr1 Hp1]. destruct (step l k) as [k1 o1]. specialize (IH k1 Hr1).
  destruct (run ls k1) as [k2 o2]. cbn [fst snd] in *. rewrite count_app. lia.
Qed.

Lemma distance_run ws k :
  running_ k = false → stopping_ k = true → pc k ≠ WBlocked → pc k ≠ WNone → (distance (pc k) ≤ length ws)%nat →
  pc (run ((λ w : Check * bool, Worker w.1 w.2) <$> ws) k).1 = WExit ∧
  owner (run ((λ w : Check * bool, Worker w.1 w.2) <$> ws) k).1 = owner k.
Proof.
  revert k. induction ws as [|[c t] ws IH]; intros k Hr Hs Hb Hn Hd; cbn in Hd.
  - split; [|done]. cbn. by destruct (pc k); cbn in Hd; try lia.
  - cbn [fmap list_fmap run fst snd]. change (step (Worker c t) k) with (worker c t k).
    assert (let k1 := (worker c t k).1 in running_ k1 = false ∧ stopping_ k1 = true ∧ pc k1 ≠ WBlocked ∧ pc k1 ≠ WNone ∧
      (distance (pc k1) ≤ length ws)%nat ∧ owner k1 = owner k) as (H1 & H2 & H3 & H4 & H5 & H6).
    { unfold worker. destruct (pc k) eqn:Ep; try done; try destruct c; cbn; rewrite ?Hr, ?Hs, ?Ep; cbn in Hd;
        repeat split; try done; cbn; lia. }
    destruct (worker c t k) as [k1 o1]. cbn [fst] in *. destruct (IH k1) as [E1 E2]; [done..|].
    destruct (run _ k1) as [k2 o2]. cbn [fst] in *. split; [done|]. congruence.
Qed.

(** ** Theorems *)

(** The counters of the keep-alive. Over any interleaving of the timer
    thread with the calls of [start] and [stop], [fired] counts the pings and
    [skipped] the checks that said no or threw; every ping follows a check
    that said yes; and each counter moves together with its callback, where
    one is set. *)
Theorem keep_alive_counts ls :
  let '(k, os) := run ls keep_alive_new in
  fired_ k = u64 (count is_tick os) ∧ skipped_ k = u64 (count is_skip os) ∧
  count is_fired os = (if on_fired opts then count is_tick os else 0) ∧
  count is_skipped os = (if on_skipped opts then count is_skip os else 0) ∧
  count is_yes os = count is_tick os + pending (pc k).
Proof. exact (counted_run ls). Qed.

(** Stopping the keep-alive. In every reachable state in which [stop] has
    begun, at most one more ping is sent, whatever the threads do until the
    next [start]; and once [stop] waits to join, three steps of the timer
    thread, whatever its clock and callbacks do, let the join return: as the
    flag is stored under the mutex no notification is lost. *)
Theorem keep_alive_stops ls ls' ws :
  let k := (run ls keep_alive_new).1 in
  owner k ≠ OIdle → Forall (λ l, l ≠ Start) ls' → (3 ≤ length ws)%nat →
  count is_tick (run ls' k).2 ≤ 1 ∧
  (owner k = OJoin →
   let k' := (run (((λ w : Check * bool, Worker w.1 w.2) <$> ws) ++ [Owner]) k).1 in
   owner k' = OIdle ∧ pc k' = WNone ∧ running_ k' = false).
Proof.
  intros k Ho Hls' Hws. pose proof (flags_run ls) as Hi. fold k in Hi. unfold inv in Hi. clearbody k.
  assert (running_ k = false) as Hr by by destruct (owner k); [destruct Ho|destruct Hi..].
  split.
  - pose proof (potential_run ls' k Hls' Hr) as H.
    assert (∀ p, 0 ≤ potential p ≤ 1) as Hp by (intros []; cbn; lia).
    pose proof (Hp (pc k)). pose proof (Hp (pc (run ls' k).1)).
    lia.
  - intros Hj k'. rewrite Hj in Hi. destruct Hi as (_ & Hs & Hn & Hb).
    destruct (distance_run ws k Hr Hs Hb Hn) as [Hp Hj']; [by destruct (pc k); cbn; lia|].
    unfold k'. clear k'. rewrite steps_snoc.
    assert (Forall (λ l, l ≠ Start) ((λ w : Check * bool, Worker w.1 w.2) <$> ws)) as Hf
      by (apply Forall_fmap, Forall_forall; done).
    assert (running_ (run ((λ w : Check * bool, Worker w.1 w.2) <$> ws) k).1 = false) as Hr'. by by apply running_run.
    destruct (run _ k) as [k1 o1]. cbn [fst] in *. rewrite Hj in Hj'. cbn [step]. by rewrite Hj', Hp.
Qed.
End keep_alive.

Lemma keep_alive_stops_witness :
  let opts := MkOptions true true true true in
  let ls := [Start; Worker Yes false; Worker Yes false; Worker Yes true; Worker Yes false; Stop; Owner; Owner] in
  let ws := [(Yes, true); (Yes, true); (No, false)] in
  let k := (run opts ls keep_alive_new).1 in
  owner k = OJoin ∧ pc k = WTick ∧
  owner (run opts (((λ w : Check * bool, Worker w.1 w.2) <$> ws) ++ [Owner]) k).1 = OIdle.
Proof.
  intros opts ls ws k. split; [reflexivity|]. split; [reflexivity|].
  apply (keep_alive_stops opts ls [] ws); [discriminate|constructor|cbn; lia|reflexivity].
Defined.
End KeepAlive.

Module Probe.
Import Supervisor.

Record ParsedUrl := MkUrl { authority : str; path : str }.

(** [url.find("://")], then [url.find('/', authority_start)]. *)
Definition parse_url (url : str) : ParsedUrl :=
  match str_find (lit "://") url with
  | None => MkUrl [] []
  | Some scheme_end =>
      let authority_start := scheme_end + 3 in
      match str_find ["/"%char] (drop authority_start url) with
      | None => MkUrl url ["/"%char]
      | Some i => MkUrl (take (authority_start + i) url) (drop (authority_start + i) url)
      end
  end.

Definition excerpt (body : str) (max_chars : nat) : str :=
  map (λ c, if decide (byte_of c < 32)%Z then if decide (c = "010"%char ∨ c = "009"%char) then c else "."%char else c)
    (take max_chars body).

(** What the HTTP client answers: an error text, or status and body; and the
    clock before and after, in nanoseconds. *)
Record Answer := MkAnswer { answer : str + (Z * str); t0 : Z; t1 : Z }.

Section probe.
Context (http_get : str → str → Answer).

Definition get (url : str) : ProbeResult :=
  let parsed := parse_url url in
  if decide (authority parsed = []) then MkProbe false 0 0 (lit "probe: invalid url (missing scheme)")
  else
    let a := http_get (authority parsed) (path parsed) in
    let latency := Z.quot (t1 a - t0 a) 1000000 in
    match answer a with
    | inl err => MkProbe false 0 latency (lit "probe: " ++ err)
    | inr (status, body) =>
        if decide (200 ≤ status < 300)%Z then MkProbe true status latency []
        else MkProbe false status latency (excerpt body 200)
    end.

(** ** Lemmas *)

Lemma authority_ne url : str_find (lit "://") url ≠ None → authority (parse_url url) ≠ [].
Proof.
  unfold parse_url. destruct (str_find (lit "://") url) as [i|] eqn:E; [|done]. intros _.
  apply str_find_split in E. cbv zeta. assert (url ≠ []) as Hu by (rewrite E; by destruct (take i url)).
  destruct (str_find _ _) as [j|]; cbn; [|done]. replace (i + 3 + j) with (S (i + 2 + j)) by lia. by destruct url.
Qed.

Lemma excerpt_ok body max :
  length (excerpt body max) ≤ max ∧
  Forall (λ c, (32 ≤ byte_of c)%Z ∨ c = "009"%char ∨ c = "010"%char) (excerpt body max).
Proof.
  unfold excerpt. rewrite length_map, length_take. split; [lia|].
  generalize (take max body). intros l. induction l as [|c l IH]; constructor; [|done].
  cbn. destruct (decide (byte_of c < 32)%Z); [|left; lia]. case_decide; [naive_solver|]. left. by vm_compute.
Qed.

(** ** Theorems *)

(** The probe of a service. A URL made of a scheme, a host and a path is
    cut before the path, which is the root when there is none; nothing is
    sent for a URL without a scheme; a probe is good exactly when an answer
    with a 2xx status came, its status is that of the answer or 0 when none
    came, and the text kept of a bad answer has at most 200
    characters, none a control character but tab and line feed. *)
Theorem probe_exact url :
  (∀ sch host rest, ":"%char ∉ sch → "/"%char ∉ host →
     (url = sch ++ lit "://" ++ host ++ "/"%char :: rest → parse_url url = MkUrl (sch ++ lit "://" ++ host) ("/"%char :: rest)) ∧
     (url = sch ++ lit "://" ++ host → parse_url url = MkUrl url ["/"%char])) ∧
  (str_find (lit "://") url = None → ok (get url) = false ∧ http_status (get url) = 0%Z) ∧
  (str_find (lit "://") url ≠ None →
     let a := http_get (authority (parse_url url)) (path (parse_url url)) in
     (ok (get url) = true ↔ ∃ status body, answer a = inr (status, body) ∧ (200 ≤ status < 300)%Z) ∧
     match answer a with
     | inl _ => http_status (get url) = 0%Z
     | inr (status, body) => http_status (get url) = status ∧ length (body_excerpt (get url)) ≤ 200 ∧
         Forall (λ c, (32 ≤ byte_of c)%Z ∨ c = "009"%char ∨ c = "010"%char) (body_excerpt (get url))
     end).
Proof.
  split; [|split].
  - intros sch host rest Hs Hh.
    assert (str_find (lit "://") sch = None) as Hf.
    { destruct (str_find (lit "://") sch) eqn:E; [|done]. apply str_find_split in E. rewrite E in Hs.
      exfalso. apply Hs. set_solver. }
    split; intros ->; unfold parse_url; rewrite scheme_app by done; cbv zeta.
    + assert (drop (length sch + 3) (sch ++ lit "://" ++ host ++ "/"%char :: rest) = host ++ "/"%char :: rest) as ->.
      { rewrite app_assoc. apply drop_app_length'. rewrite length_app. done. }
      rewrite str_find_fresh by done.
      replace (sch ++ lit "://" ++ host ++ "/"%char :: rest) with ((sch ++ lit "://" ++ host) ++ "/"%char :: rest)
        by by rewrite <- !app_assoc.
      rewrite take_app_length', drop_app_length'; [done|rewrite !length_app; cbn; lia..].
    + assert (drop (length sch + 3) (sch ++ lit "://" ++ host) = host) as ->.
      { rewrite app_assoc. apply drop_app_length'. rewrite length_app. done. }
      by rewrite char_absent.
  - unfold get, parse_url. intros ->. by split.
  - intros Hne. cbv zeta. unfold get. rewrite decide_False by by apply authority_ne. cbv zeta.
    destruct (answer _) as [err|[status body]]; cbn.
    + split; [|done]. split; [done|]. by intros (? & ? & [=] & _).
    + case_decide as Hst; cbn.
      * split; [by split; [intros _; exists status, body|]|]. split; [done|]. split; [lia|constructor].
      * split; [split; [done|intros (? & ? & [= <- <-] & ?); lia]|]. split; [done|]. apply excerpt_ok.
Qed.
End probe.
End Probe.
