(* ===== verification/SystemAec.v ===== *)
(** * System echo cancellation (src/src/orchestrator/system_aec.cpp)

    The RAII helper that routes the process through PipeWire's
    module-echo-cancel: reading [pactl list short modules], reusing or loading
    the module, the environment it sets, and the unloading at the end. What a
    command prints and whether it succeeds is an argument; the log lines are
    left out. *)
From S2P Require Import Prelude Config.

(** ** Reading the list of modules *)

(** [args.find_first_of(set, pos)], on what follows [pos]. *)
Fixpoint find_first_of (set : list ascii) (s : str) : option nat :=
  match s with
  | [] => None
  | c :: s => if decide (c ∈ set) then Some 0 else S <$> find_first_of set s
  end.

Definition space : ascii := " ".
Definition tab : ascii := "009".
Definition newline : ascii := "010".
Definition return_ : ascii := "013".

Definition extract_kv (args key : str) : str :=
  match str_find key args with
  | None => []
  | Some pos =>
      let v := drop (pos + length key) args in
      match find_first_of [space; tab; newline] v with None => v | Some len => take len v end
  end.

Record EchoCancelModule := MkModule { id : str; source_name : str; sink_name : str }.

Definition digit (c : ascii) : bool := bool_decide (48 ≤ byte_of c ≤ 57)%Z.
Definition kName : str := lit "module-echo-cancel".

Definition parse_echo_cancel_module_line (line : str) : option EchoCancelModule :=
  match str_find kName line with
  | None => None
  | Some name_pos =>
      match find_first_of [space; tab] line with
      | None | Some 0 => None
      | Some first_ws =>
          let id := take first_ws line in
          if negb (forallb digit id) then None
          else
            let after := drop (name_pos + length kName) line in
            let args := match find_first_of [space; tab] after with None => [] | Some i => drop i after end in
            Some (MkModule id (extract_kv args (lit "source_name=")) (extract_kv args (lit "sink_name=")))
      end
  end.

(** ** Commands *)

Definition is_sp (c : ascii) : bool := bool_decide (c ∈ [space; tab; newline; return_]).
Fixpoint trim_front (s : str) : str := match s with c :: s' => if is_sp c then trim_front s' else s | [] => [] end.
Definition trim (s : str) : str := rev (trim_front (rev (trim_front s))).

Definition list_command : str := lit "pactl list short modules 2>/dev/null".
Definition load_command : str :=
  map (λ c, if decide (c = "'"%char) then "034"%char else c) (lit
    "pactl load-module module-echo-cancel source_name=acva-echo-source sink_name=acva-echo-sink aec_method=webrtc aec_args='analog_gain_control=0 digital_gain_control=1 noise_suppression=1 high_pass_filter=1' 2>/dev/null").
Definition unload_command (id : str) : str := lit "pactl unload-module " ++ id ++ lit " 2>/dev/null".

(** What the process does: commands, and the two variables it sets. *)
Inductive Effect := Popen (cmd : str) | Setenv (name : string) (value : str).

Record system_aec := MkSystemAec {
  active_ : bool; owned_ : bool; module_id_ : str; source_name_ : str; sink_name_ : str; startup_error_ : option str;
}.
#[global] Instance eta_system_aec : Eta system_aec := λ a,
  MkSystemAec (active_ a) (owned_ a) (module_id_ a) (source_name_ a) (sink_name_ a) (startup_error_ a).
Definition system_aec_new : system_aec := MkSystemAec false false [] [] [] None.

Abbreviation M := (Act system_aec Effect).

Section commands.
(** The output of a command and whether its exit status was 0. *)
Context (popen : str → str * bool).
Local Open Scope act_scope.

Definition popen_capture (cmd : str) : M (str * bool) := emit (Popen cmd);; ret (popen cmd).

(** The loop over the characters of the output: the line being read. *)
Fixpoint find_line (line out : str) : option EchoCancelModule :=
  match out with
  | [] => parse_echo_cancel_module_line line
  | c :: out =>
      if decide (c = newline) then
        match parse_echo_cancel_module_line line with
        | Some m => Some m
        | None => find_line [] out
        end
      else find_line (line ++ [c]) out
  end.
Definition find_existing_echo_cancel : M (option EchoCancelModule) :=
  r ← popen_capture list_command;
  ret (if snd r then find_line [] (fst r) else None).

Definition load_module : M str :=
  r ← popen_capture load_command;
  let out := trim (fst r) in
  ret (if negb (snd r) || bool_decide (out = []) then [] else if forallb digit out then out else []).

Definition unload_module (id : str) : M bool :=
  if decide (id = []) then ret true else r ← popen_capture (unload_command id); ret (snd r).

Definition kAcvaSource : str := lit "acva-echo-source".
Definition kAcvaSink : str := lit "acva-echo-sink".

Definition incomplete_error (id : str) : str :=
  lit "module-echo-cancel id=" ++ id ++
  lit " is loaded but its arguments lack source_name= and/or sink_name= (see `pactl list short modules`). acva can't reliably route audio through it. Either unload it (`pactl unload-module "
  ++ id ++ lit "`) and let acva load its own, or set cfg.apm.use_system_aec: false.".
Definition load_error : str :=
  lit "use_system_aec=true but `pactl load-module module-echo-cancel` failed. Is pactl installed and PulseAudio/PipeWire running? Set cfg.apm.use_system_aec: false to disable system AEC (note: the in-process APM path is known to be ineffective on the dev workstation's laptop codec — see docs/aec_report.md).".

Definition activate : M unit :=
  a ← gets Datatypes.id;
  emit (Setenv "PULSE_SINK" (c_str (sink_name_ a)));;
  emit (Setenv "PULSE_SOURCE" (c_str (source_name_ a)));;
  modify (λ a, a <| active_ := true |>).

(** The constructor. *)
Definition SystemAec_ctor (apm : ApmConfig) : M unit :=
  if negb (use_system_aec apm) then skip else
  existing ← find_existing_echo_cancel;
  match existing with
  | Some e =>
      if decide (source_name e = [] ∨ sink_name e = []) then
        modify (λ a, a <| startup_error_ := Some (incomplete_error (id e)) |>)
      else
        modify (λ a, a <| module_id_ := id e |> <| source_name_ := source_name e |> <| sink_name_ := sink_name e |>
                       <| owned_ := bool_decide (source_name e = kAcvaSource ∧ sink_name e = kAcvaSink) |>);;
        activate
  | None =>
      i ← load_module;
      if decide (i = []) then modify (λ a, a <| startup_error_ := Some load_error |>)
      else
        modify (λ a, a <| module_id_ := i |> <| owned_ := true |> <| source_name_ := kAcvaSource |>
                       <| sink_name_ := kAcvaSink |>);;
        activate
  end.

(** The destructor. *)
Definition SystemAec_dtor : M unit :=
  a ← gets Datatypes.id;
  if negb (owned_ a) then skip else
  ok ← unload_module (module_id_ a);
  skip.

(** The life of the object. *)
Definition life (apm : ApmConfig) : M unit := SystemAec_ctor apm;; SystemAec_dtor.
End commands.

(** ** Specification *)

(** The lines of an output, the last without its end. *)
Fixpoint split_lines (line out : str) : list str :=
  match out with
  | [] => [line]
  | c :: out => if decide (c = newline) then line :: split_lines [] out else split_lines (line ++ [c]) out
  end.

Definition number (i : str) : Prop := i ≠ [] ∧ Forall (λ c, digit c = true) i.
Definition known_command (e : Effect) : Prop :=
  match e with
  | Popen cmd => cmd = list_command ∨ cmd = load_command ∨ ∃ i, number i ∧ cmd = unload_command i
  | Setenv _ _ => True
  end.

(** ** Lemmas *)

Lemma forallb_digit i : forallb digit i = true ↔ Forall (λ c, digit c = true) i.
Proof. induction i as [|c i IH]; cbn; [done|]. rewrite andb_true_iff, IH, Forall_cons. done. Qed.

Lemma find_line_first line out : find_line line out = head (omap parse_echo_cancel_module_line (split_lines line out)).
Proof.
  revert line. induction out as [|c out IH]; intros line; cbn; [by destruct (parse_echo_cancel_module_line line)|].
  case_decide; [|apply IH]. cbn. destruct (parse_echo_cancel_module_line line); [done|apply IH].
Qed.

Lemma parsed_number line m : parse_echo_cancel_module_line line = Some m → number (id m).
Proof.
  unfold parse_echo_cancel_module_line. destruct (str_find kName line); [|done].
  destruct (find_first_of [space; tab] line) as [[|i]|] eqn:E; try done.
  destruct (forallb digit (take (S i) line)) eqn:Ed; [|done]. cbn [negb]. intros [= <-]. cbn [id]. split.
  - by destruct line.
  - by apply forallb_digit.
Qed.

Lemma find_line_number out m : find_line [] out = Some m → number (id m).
Proof.
  rewrite find_line_first. intros H. apply head_Some_elem_of, list_elem_of_omap in H as (line & _ & H).
  by apply parsed_number in H.
Qed.

#[local] Opaque load_command list_command load_error incomplete_error unload_command trim.

Section life.
Context (popen : str → str * bool).

Lemma loaded_number s : let i := result (load_module popen) s in i = [] ∨ number i.
Proof.
  unfold load_module, popen_capture. rewrite !result_bind. cbn. destruct (popen load_command) as [out []]; cbn; [|by left].
  case_bool_decide; [by left|]. destruct (forallb digit (trim out)) eqn:E; [|by left]. right.
  split; [done|]. by apply forallb_digit.
Qed.

Lemma load_effects s : exec (load_module popen) s = s ∧ outs (load_module popen) s = [Popen load_command].
Proof. unfold load_module, popen_capture. rewrite !exec_bind, !outs_bind. by split. Qed.

Lemma find_effects s :
  exec (find_existing_echo_cancel popen) s = s ∧ outs (find_existing_echo_cancel popen) s = [Popen list_command] ∧
  result (find_existing_echo_cancel popen) s
  = (if (popen list_command).2 then find_line [] (popen list_command).1 else None).
Proof. unfold find_existing_echo_cancel, popen_capture. rewrite !exec_bind, !outs_bind, !result_bind. by repeat split. Qed.

(** What the constructor leaves, case by case. *)
Definition ctor_spec (a : system_aec) (os : list Effect) : Prop :=
  (active_ a = true ∧ startup_error_ a = None ∧ number (module_id_ a) ∧ source_name_ a ≠ [] ∧ sink_name_ a ≠ [] ∧
   ∃ cmds, os = cmds ++ [Setenv "PULSE_SINK" (c_str (sink_name_ a)); Setenv "PULSE_SOURCE" (c_str (source_name_ a))] ∧
     (cmds = [Popen list_command] ∨ cmds = [Popen list_command; Popen load_command] ∧ owned_ a = true) ∧
     (owned_ a = true ↔ source_name_ a = kAcvaSource ∧ sink_name_ a = kAcvaSink)) ∨
  (active_ a = false ∧ is_Some (startup_error_ a) ∧ owned_ a = false ∧
   (os = [Popen list_command] ∨ os = [Popen list_command; Popen load_command])).

Lemma ctor_ok apm :
  use_system_aec apm = true →
  ctor_spec (exec (SystemAec_ctor popen apm) system_aec_new) (outs (SystemAec_ctor popen apm) system_aec_new).
Proof.
  intros Hu. unfold SystemAec_ctor. rewrite Hu. cbn [negb]. rewrite exec_bind, outs_bind.
  destruct (find_effects system_aec_new) as (-> & -> & ->).
  destruct (if (popen list_command).2 then _ else None) as [e|] eqn:Ee.
  - assert (number (id e)) as Hn by (destruct (popen list_command).2; [by apply find_line_number in Ee|done]).
    case_decide as Hd; [right; cbn; eauto 10|]. assert (source_name e ≠ [] ∧ sink_name e ≠ []) as [H1 H2] by tauto. left.
    rewrite exec_modify, outs_modify. unfold activate. rewrite exec_gets, outs_gets.
    rewrite !exec_bind, !outs_bind. cbn. do 5 (split; [done|]). exists [Popen list_command].
    split; [done|]. split; [by left|]. by rewrite bool_decide_eq_true.
  - rewrite exec_bind, outs_bind. destruct (load_effects system_aec_new) as [-> ->].
    destruct (loaded_number system_aec_new) as [Hl|Hn]; cbv zeta in *.
    + rewrite decide_True by done. right. cbn. eauto 10.
    + rewrite decide_False by apply Hn. left. rewrite exec_modify, outs_modify. unfold activate.
      rewrite exec_gets, outs_gets, !exec_bind, !outs_bind. cbn. do 2 (split; [done|]). split; [done|].
      do 2 (split; [done|]). exists [Popen list_command; Popen load_command]. split; [done|]. split; [by right|done].
Qed.

Lemma dtor_outs a :
  outs (SystemAec_dtor popen) a
  = if owned_ a && negb (bool_decide (module_id_ a = [])) then [Popen (unload_command (module_id_ a))] else [].
Proof.
  unfold SystemAec_dtor. rewrite outs_gets. change (Datatypes.id a) with a. destruct (owned_ a); [|done]. cbn [negb andb].
  rewrite outs_bind. unfold unload_module. destruct (decide (module_id_ a = [])) as [E|E].
  - by rewrite bool_decide_true.
  - rewrite bool_decide_false by done. unfold popen_capture. by rewrite !outs_bind.
Qed.

Lemma known_fixed :
  Forall known_command [Popen list_command] ∧ Forall known_command [Popen list_command; Popen load_command].
Proof. rewrite !Forall_cons, !Forall_nil. cbn. auto 10. Qed.

(** ** Theorems *)

(** [C40] The life of the helper, whatever the commands print. Switched off it
    does nothing. Switched on it ends either active, with names that are not
    empty, the two variables set to them as C strings and a numeric module, or
    with an error and nothing set; so the caller's check of the error is enough. At the end
    it unloads a module exactly when it is active under its own names. Every
    command it runs is one of two fixed ones or unloads a module by a number:
    nothing a command printed reaches a shell otherwise. *)
Theorem system_aec_life apm :
  let a := exec (SystemAec_ctor popen apm) system_aec_new in
  let os := outs (SystemAec_ctor popen apm) system_aec_new in
  (use_system_aec apm = false → a = system_aec_new ∧ os = []) ∧
  (use_system_aec apm = true → ctor_spec a os) ∧
  outs (life popen apm) system_aec_new
  = os ++ (if active_ a && bool_decide (source_name_ a = kAcvaSource ∧ sink_name_ a = kAcvaSink)
           then [Popen (unload_command (module_id_ a))] else []) ∧
  Forall known_command (outs (life popen apm) system_aec_new).
Proof.
  cbv zeta. unfold life. rewrite outs_bind, dtor_outs. destruct (use_system_aec apm) eqn:Hu.
  - pose proof (ctor_ok apm Hu) as H. split; [done|]. split; [done|].
    destruct H as [(Ha & He & Hn & Hs & Hk & cmds & Ho & Hc & Hw)|(Ha & He & Hw & Ho)].
    + assert (owned_ (exec (SystemAec_ctor popen apm) system_aec_new)
        = bool_decide (source_name_ (exec (SystemAec_ctor popen apm) system_aec_new) = kAcvaSource ∧
                       sink_name_ (exec (SystemAec_ctor popen apm) system_aec_new) = kAcvaSink)) as Hb.
      { apply eq_true_iff_eq. by rewrite bool_decide_eq_true. }
      rewrite Ha, Hb, (bool_decide_false (module_id_ _ = [])) by apply Hn. rewrite andb_true_r. split; [done|].
      rewrite Ho. apply Forall_app; split; [apply Forall_app; split|].
      * destruct Hc as [-> | [-> _]]; apply known_fixed.
      * by repeat constructor.
      * case_bool_decide; [|constructor]. apply Forall_singleton. cbn. eauto.
    + rewrite Ha, Hw. cbn [andb]. rewrite app_nil_r. split; [done|]. destruct Ho as [-> | ->]; apply known_fixed.
  - unfold SystemAec_ctor. rewrite Hu. cbn. repeat split; try done; constructor.
Qed.
End life.

(** ** The line of a module *)

Lemma find_first_of_at set u c w : Forall (λ x, x ∉ set) u → c ∈ set → find_first_of set (u ++ c :: w) = Some (length u).
Proof.
  intros Hu Hc. induction Hu as [|x u Hx _ IH]; cbn; [by rewrite decide_True|].
  rewrite decide_False by done. by rewrite IH.
Qed.

(** A value ends at the first blank. *)
Lemma extract_at args key u v c w :
  str_find key args = Some (length u) → args = u ++ key ++ v ++ c :: w →
  Forall (λ x, x ∉ [space; tab; newline]) v → c ∈ [space; tab; newline] → extract_kv args key = v.
Proof.
  intros Hf -> Hv Hc. unfold extract_kv. rewrite Hf.
  replace (drop (length u + length key) (u ++ key ++ v ++ c :: w)) with (v ++ c :: w).
  - by rewrite find_first_of_at, take_app_length by done.
  - rewrite app_assoc. symmetry. apply drop_app_length'. by rewrite length_app.
Qed.

(** The line of a module. A line of [pactl list short modules] for a
    module loaded with a source and a sink name (no blank and no equals sign
    in them), the names followed by other arguments, is read as its number
    and those names: what [load_module] asks for is found again. *)
Theorem module_line_read i src snk rest :
  number i → Forall (λ x, x ∉ [space; tab; newline; "="%char]) src → Forall (λ x, x ∉ [space; tab; newline; "="%char]) snk →
  parse_echo_cancel_module_line
    (i ++ tab :: kName ++ tab :: lit "source_name=" ++ src ++ space :: lit "sink_name=" ++ snk ++ space :: rest)
  = Some (MkModule i src snk).
Proof.
  intros [Hi Hd] Hs Hk. unfold parse_echo_cancel_module_line.
  assert (∀ c, digit c = true → c ∉ [space; tab] ∧ c ≠ "m"%char) as Hdig.
  { unfold digit. intros c. rewrite bool_decide_eq_true. intros Hc.
    split; [|intros ->; by destruct Hc as [_ ?]].
    intros [->|[->|[]%elem_of_nil]%elem_of_cons]%elem_of_cons; vm_compute in Hc; by destruct Hc. }
  rewrite str_find_skip; [|by apply (bool_decide_unpack _)|done|].
  2: { apply (str_find_absent _ _ "m"%char); [by apply (bool_decide_unpack _)|].
       intros Hm. rewrite Forall_forall in Hd. by destruct (Hdig _ (Hd _ Hm)) as [_ ?]. }
  set (args := lit "source_name=" ++ src ++ space :: lit "sink_name=" ++ snk ++ space :: rest).
  assert (str_find kName (kName ++ tab :: args) = Some 0) as -> by reflexivity. cbn [fmap option_fmap option_map].
  rewrite find_first_of_at; [|eapply Forall_impl; [exact Hd|]; intros c Hc; apply Hdig, Hc|set_solver].
  destruct (length i) as [|n] eqn:El; [by destruct i|]. rewrite <- El, take_app_length.
  rewrite (proj2 (forallb_digit i) Hd). cbn [negb].
  replace (drop (0 + S (length i) + length kName) (i ++ tab :: kName ++ tab :: args)) with (tab :: args).
  2: { change (i ++ tab :: kName ++ tab :: args) with (i ++ [tab] ++ kName ++ tab :: args).
       rewrite !app_assoc. symmetry. apply drop_app_length'. rewrite !length_app. cbn [length]. lia. }
  change (find_first_of [space; tab] (tab :: args)) with (Some 0). cbv iota. rewrite skipn_0.
  assert (∀ l, Forall (λ x, x ∉ [space; tab; newline; "="%char]) l →
    Forall (λ x, x ∉ [space; tab; newline]) l ∧ "="%char ∉ l) as Hl.
  { intros l Hf. split; [eapply Forall_impl; [exact Hf|]; set_solver|].
    intros He. rewrite Forall_forall in Hf. specialize (Hf _ He). set_solver. }
  destruct (Hl src Hs) as [Hs1 Hs2]. destruct (Hl snk Hk) as [Hk1 Hk2]. do 2 f_equal.
  - apply (extract_at _ _ [tab] src space (lit "sink_name=" ++ snk ++ space :: rest)); [reflexivity|reflexivity|done|set_solver].
  - apply (extract_at _ _ (tab :: lit "source_name=" ++ src ++ [space]) snk space rest); [|unfold args|done|set_solver].
    + change (tab :: args) with ((tab :: lit "source_name=" ++ src) ++ space :: lit "sink_name=" ++ snk ++ space :: rest).
      rewrite str_find_skip; [|by apply (bool_decide_unpack _)|done|].
      * change (str_find (lit "sink_name=") (lit "sink_name=" ++ snk ++ space :: rest)) with (Some 0).
        cbn [fmap option_fmap option_map]. f_equal. cbn [length]. rewrite !length_app. cbn [length]. lia.
      * set (p := lit "sink_name="). cbn [lit String.list_ascii_of_string app]. do 13 rewrite str_find_cons by reflexivity.
        by rewrite (str_find_absent p src "="%char) by (done || by apply (bool_decide_unpack _)).
    + cbn [app]. rewrite <- !app_assoc. reflexivity.
Qed.

Lemma module_line_read_witness :
  number (lit "536870913") ∧
  parse_echo_cancel_module_line
    (lit "536870913" ++ tab :: kName ++ tab :: lit "source_name=" ++ kAcvaSource ++ space :: lit "sink_name=" ++ kAcvaSink
     ++ space :: lit "aec_method=webrtc")
  = Some (MkModule (lit "536870913") kAcvaSource kAcvaSink).
Proof.
  assert (number (lit "536870913")) as H by (split; [done|by apply forallb_digit]).
  split; [exact H|].
  apply (module_line_read (lit "536870913") kAcvaSource kAcvaSink (lit "aec_method=webrtc") H); by apply (bool_decide_unpack _).
Defined.

(** A module another running instance loaded is taken over by its names and
    unloaded at the end of this one. *)
Example other_instance_unloaded :
  let line := lit "7" ++ tab :: kName ++ tab :: lit "source_name=" ++ kAcvaSource ++ space :: lit "sink_name=" ++ kAcvaSink in
  let popen cmd := if decide (cmd = list_command) then (line, true) else ([], true) in
  outs (life popen (Build_ApmConfig true true true 50 250 true)) system_aec_new
  = [Popen list_command; Setenv "PULSE_SINK" kAcvaSink; Setenv "PULSE_SOURCE" kAcvaSource; Popen (unload_command (lit "7"))].
Proof. vm_compute. reflexivity. Qed.
