(* ===== verification/TtsStack.v ===== *)
(** * The TTS stack (src/src/orchestrator/tts_stack.hpp, tts_stack.cpp)

    Three parts. [SelfListen]: the feedback loop that transcribes what was
    synthesized; the bridge's hook queues a job, a worker resamples it, posts
    it with the client of [SttStack] and logs the pair. Hook, worker and stop
    are labels, the worker cut at its lock, its wait and its calls; spurious
    wake-ups are left out. [Poller]: the thread that copies the counters of
    queue and engine into the registry, interleaved with the engine's steps.
    [Build]: what [build_tts_stack] makes of a configuration and the order in
    which [stop] takes it down. libsoxr, libcurl and the reader of the answer
    are parameters; log lines of build are left out. *)
From stdpp Require Import pretty.
From S2P Require Import Prelude Event Config.
From S2P Require Wav SttStack Dsp Log TtsBridge Engine Metrics Loopback.

(** ** Self-listening *)

Module SelfListen.
Record SelfListenJob := MkJob {
  turn : TurnId; seq : SequenceNo; expected : str; lang : str; native_rate : Z; samples : list Z;
}.

(** Where the worker is; at [WPred], [WPark] and [WTest] it holds the mutex.
    [WDead]: an exception left the thread's function, at a job. *)
Inductive Pc :=
  | WTop | WLock | WPred | WPark | WBlocked | WTest
  | WRun (job : SelfListenJob)
  | WExit
  | WDead (job : SelfListenJob).

Record stack := MkStack { jobs : list SelfListenJob; stop_ : bool; pc : Pc; undefined_ : bool }.
#[global] Instance eta_stack : Eta stack := λ s, MkStack (jobs s) (stop_ s) (pc s) (undefined_ s).
Definition stack_new : stack := MkStack [] false WTop false.

Definition holds_mutex (p : Pc) : bool := match p with WPred | WPark | WTest => true | _ => false end.
Definition notify (s : stack) : stack := match pc s with WBlocked => s <| pc := WLock |> | _ => s end.

(** [while (size() >= bound) pop_front()]; [None]: [pop_front] of an empty
    deque, which is undefined. *)
Fixpoint evict (bound : Z) (q : list SelfListenJob) : option (list SelfListenJob) :=
  match q with
  | [] => if decide (bound <= 0)%Z then None else Some []
  | _ :: q' => if decide (bound <= Z.of_nat (length q))%Z then evict bound q' else Some q
  end.

(** [std::max(1u, max_in_flight)] and [sl_max * 4], 32 bits wide. *)
Definition sl_max (cfg : SelfListenConfig) : Z := Z.max 1 (self_max_in_flight cfg).
Definition sl_bound (cfg : SelfListenConfig) : Z := u32 (sl_max cfg * 4).

(** The hook, on the bridge's I/O thread. *)
Definition hook (bound : Z) (job : SelfListenJob) (s : stack) : stack :=
  if holds_mutex (pc s) then s
  else match evict bound (jobs s) with
       | None => s <| undefined_ := true |>
       | Some q => notify (s <| jobs := q ++ [job] |>)
       end.

(** A call of [log::event] with component and event "self_listen". *)
Record Logged := MkLogged { log_turn : TurnId; log_fields : list (str * str) }.

(** The lambda [trim]. *)
Definition trim (s : str) : str := if decide (600 < length s) then take 600 s ++ lit "…" else s.

Definition field (k : string) (v : str) : str * str := (lit k, v).
Definition number (z : Z) : str := Log.to_str z.

Definition heard_err (cb : SttStack.Callback) : str * str :=
  match cb with
  | SttStack.OnFinal (FinalTranscript _ text _ _ _ _) => (text, [])
  | SttStack.OnFinal _ => ([], [])
  | SttStack.OnError m => ([], m)
  end.

Definition audio_ms (job : SelfListenJob) : Z := (u64 (Z.of_nat (length (samples job)) * 1000) / native_rate job)%Z.

Definition report (job : SelfListenJob) (ms : Z) (cb : SttStack.Callback) : Logged :=
  let '(heard, err) := heard_err cb in
  MkLogged (turn job)
    (if decide (err ≠ []) then
       [field "seq" (number (seq job)); field "expected_chars" (number (Z.of_nat (length (expected job))));
        field "audio_ms" (number (audio_ms job)); field "stt_ms" (number ms); field "error" err]
     else
       [field "seq" (number (seq job)); field "expected_chars" (number (Z.of_nat (length (expected job))));
        field "heard_chars" (number (Z.of_nat (length heard))); field "audio_ms" (number (audio_ms job));
        field "stt_ms" (number ms); field "expected" (trim (expected job)); field "heard" (trim heard)]).

Section worker.
Context {Soxr : Type} (soxr_process : Soxr → option (list Z) → nat → option (nat * list Z * Soxr)).
Context (read : str → str + str) (stt_cfg : SttConfig) (bound : Z).

(** What the outside does to one job: libsoxr's stream, the transfer, the
    clock at the slice and around [submit] (nanoseconds), and for how many
    rounds the resampler may be drained. *)
Record Outside := MkOutside {
  soxr : option Soxr; transfer : SttStack.Transfer; now : Z; began : Z; ended : Z; fuel : nat;
}.

(** [process] and [flush]; [None]: not returned yet, [Some None]: an
    exception. *)
Definition resample (o : Outside) (job : SelfListenJob) : option (option (list Z)) :=
  match Dsp.Resampler.resampler_new (double_of (native_rate job)) (double_of 16000) (soxr o) with
  | None => Some None
  | Some r =>
      match Dsp.Resampler.process soxr_process (samples job) r with
      | None => Some None
      | Some (resampled, r) =>
          match Dsp.Resampler.flush soxr_process (fuel o) r with
          | None => None
          | Some None => Some None
          | Some (Some (tail, _)) => Some (Some (resampled ++ tail))
          end
      end
  end.

(** The token is a fresh one nobody cancels. *)
Definition uncancelled (t : SttStack.Transfer) : SttStack.Transfer :=
  SttStack.Build_Transfer false (SttStack.easy_init t) (SttStack.chunks t) (SttStack.curl_error t)
    (SttStack.http_status t) false (SttStack.t0 t) (SttStack.t1 t).

Definition request (job : SelfListenJob) (o : Outside) (pcm : list Z) : SttStack.SttRequest :=
  SttStack.MkRequest (turn job)
    (Some {| slice_samples := pcm; slice_sample_rate := 16000; slice_started_at := now o; slice_ended_at := now o |})
    (lang job).

Definition transcribe (job : SelfListenJob) (o : Outside) (pcm : list Z) : Logged :=
  report job (Z.quot (ended o - began o) 1000000)
    (SttStack.submit read stt_cfg (request job o pcm) (uncancelled (transfer o))).2.

(** One step of [self_listen_run]. *)
Definition worker (o : Outside) (s : stack) : stack * list Logged :=
  match pc s with
  | WTop => (s <| pc := if stop_ s then WExit else WLock |>, [])
  | WLock => (s <| pc := WPred |>, [])
  | WPred => (s <| pc := if stop_ s || negb (bool_decide (jobs s = [])) then WTest else WPark |>, [])
  | WPark => (s <| pc := WBlocked |>, [])
  | WBlocked => (s, [])
  | WTest =>
      if stop_ s && bool_decide (jobs s = []) then (s <| pc := WExit |>, [])
      else match jobs s with
           | job :: q => (s <| jobs := q |> <| pc := WRun job |>, [])
           | [] => (s <| undefined_ := true |>, [])
           end
  | WRun job =>
      match resample o job with
      | None => (s, [])
      | Some None => (s <| pc := WDead job |>, [])
      | Some (Some pcm) => (s <| pc := WTop |>, [transcribe job o pcm])
      end
  | WExit | WDead _ => (s, [])
  end.

(** [stop] stores and notifies, neither under the mutex. *)
Inductive Label := Hook (job : SelfListenJob) | Worker (o : Outside) | StopStore | StopNotify.
Definition step (l : Label) (s : stack) : stack * list Logged :=
  match l with
  | Hook job => (hook bound job s, [])
  | Worker o => worker o s
  | StopStore => (s <| stop_ := true |>, [])
  | StopNotify => (notify s, [])
  end.
Fixpoint run (ls : list Label) (s : stack) : stack * list Logged :=
  match ls with
  | [] => (s, [])
  | l :: ls => let '(s, o1) := step l s in let '(s, o2) := run ls s in (s, o1 ++ o2)
  end.
End worker.

(** The hook the bridge is given. *)
Definition hook_of {Soxr} (o : TtsBridge.BridgeOut) : option (@Label Soxr) :=
  match o with
  | TtsBridge.SelfListen t q text lang rate samples => Some (Hook (MkJob t q text lang rate samples))
  | TtsBridge.Publish _ => None
  end.

(** *** Specification *)

Definition current (p : Pc) : list SelfListenJob := match p with WRun job | WDead job => [job] | _ => [] end.

Section theory.
Context {Soxr : Type} (soxr_process : Soxr → option (list Z) → nat → option (nat * list Z * Soxr)).
Context (read : str → str + str) (stt_cfg : SttConfig) (bound : Z).
Abbreviation Label := (@Label Soxr).
Abbreviation Outside := (@Outside Soxr).
Abbreviation step := (step soxr_process read stt_cfg bound).
Abbreviation run := (run soxr_process read stt_cfg bound).

(** The jobs the hook queued, and those the worker transcribed. *)
Definition offer (l : Label) (s : stack) : list SelfListenJob :=
  match l with Hook job => if holds_mutex (pc s) then [] else [job] | _ => [] end.
Definition heard (l : Label) (s : stack) : list (SelfListenJob * Outside * list Z) :=
  match l, pc s with
  | Worker o, WRun job => match resample soxr_process o job with Some (Some pcm) => [(job, o, pcm)] | _ => [] end
  | _, _ => []
  end.
Fixpoint offers (ls : list Label) (s : stack) : list SelfListenJob :=
  match ls with [] => [] | l :: ls => offer l s ++ offers ls (step l s).1 end.
Fixpoint hearings (ls : list Label) (s : stack) : list (SelfListenJob * Outside * list Z) :=
  match ls with [] => [] | l :: ls => heard l s ++ hearings ls (step l s).1 end.
Definition logged (h : SelfListenJob * Outside * list Z) : Logged :=
  let '(job, o, pcm) := h in transcribe read stt_cfg job o pcm.

(** What is queued is the end of what was offered; transcribed, in progress
    and queued are a part of it, in order, and all of it while it fits. *)
Record ledger (done off : list SelfListenJob) (s : stack) : Prop := {
  l_defined : undefined_ s = false;
  l_test : pc s = WTest → stop_ s = true ∨ jobs s ≠ [];
  l_bound : (Z.of_nat (length (jobs s)) <= bound)%Z;
  l_suffix : jobs s `suffix_of` off;
  l_order : (done ++ current (pc s) ++ jobs s) `sublist_of` off;
  l_all : (Z.of_nat (length off) <= bound)%Z → done ++ current (pc s) ++ jobs s = off;
}.

(** *** Lemmas *)

Lemma evict_spec q : (0 < bound)%Z → ∃ k, evict bound q = Some (drop k q) ∧
  (Z.of_nat (length (drop k q)) < bound)%Z ∧ ((Z.of_nat (length q) < bound)%Z → k = 0).
Proof.
  intros Hb. induction q as [|j q IH]; cbn [evict].
  - rewrite decide_False by lia. by exists 0.
  - case_decide as Hd.
    + destruct IH as (k & -> & Hk & _). exists (S k). by split_and!; [..|lia].
    + exists 0. split_and!; [done|cbn [drop] in *; lia|done].
Qed.

Lemma notify_frame s : jobs (notify s) = jobs s ∧ stop_ (notify s) = stop_ s ∧ undefined_ (notify s) = undefined_ s ∧
  current (pc (notify s)) = current (pc s) ∧ (pc (notify s) = WTest → pc s = WTest).
Proof. unfold notify. by destruct (pc s) eqn:E; cbn; rewrite ?E. Qed.

Lemma ledger_hook job done off s :
  (0 < bound)%Z → ledger done off s → ledger done (off ++ offer (Hook job) s) (hook bound job s).
Proof.
  intros Hb [H1 H2 H3 H4 H5 H6]. unfold hook, offer. destruct (holds_mutex (pc s)) eqn:Em; [by rewrite app_nil_r|].
  destruct (evict_spec (jobs s) Hb) as (k & -> & Hk & Hk0).
  destruct (notify_frame (s <| jobs := drop k (jobs s) ++ [job] |>)) as (E1 & E2 & E3 & E4 & E5).
  cbn [jobs stop_ undefined_ pc set_field] in *.
  split; rewrite ?E1, ?E2, ?E3, ?E4.
  - done.
  - intros Hp. apply E5 in Hp. by rewrite Hp in Em.
  - rewrite length_app. cbn [length]. lia.
  - apply suffix_app. etrans; [apply suffix_drop|done].
  - rewrite !app_assoc. apply sublist_app; [|done]. etrans; [|exact H5]. rewrite <- app_assoc.
    do 2 (apply sublist_app; [done|]). by apply sublist_drop.
  - rewrite length_app. cbn [length]. intros Hl. rewrite !app_assoc. f_equal. rewrite <- app_assoc.
    rewrite Hk0; [apply H6; lia|]. apply suffix_length in H4. lia.
Qed.

Lemma ledger_worker o done off s :
  ledger done off s → ledger (done ++ (heard (Worker o) s).*1.*1) off (worker soxr_process read stt_cfg o s).1.
Proof.
  intros [H1 H2 H3 H4 H5 H6]. unfold worker, heard.
  destruct (pc s) as [| | | | | |job| |job] eqn:E; cbn [fmap list_fmap app] in *; rewrite ?app_nil_r;
    try (split; cbn; rewrite ?E; done).
  - destruct (stop_ s); by split.
  - split; cbn; try done; [|by case_match..]. case_match eqn:Hc; [|done]. intros _.
    apply orb_true_iff in Hc as [Hc|Hc]; [by left|right]. by apply negb_true_iff, bool_decide_eq_false in Hc.
  - destruct (jobs s) as [|job q] eqn:Eq.
    + destruct (H2 eq_refl) as [->|?]; [|done]. rewrite bool_decide_true by done. cbn. split; cbn; rewrite ?Eq; done.
    + rewrite bool_decide_false, andb_false_r by done. split; cbn; try done; [cbn in H3; lia|].
      destruct H4 as [pre ->]. exists (pre ++ [job]). by rewrite <- app_assoc.
  - destruct (resample soxr_process o job) as [[pcm|]|]; cbn; rewrite ?app_nil_r; split; cbn; rewrite ?E; try done;
      by rewrite <- app_assoc.
Qed.

Lemma jobs_step l done off s :
  (0 < bound)%Z → ledger done off s → ledger (done ++ (heard l s).*1.*1) (off ++ offer l s) (step l s).1.
Proof.
  intros Hb H. destruct l as [job|o| |]; unfold offer at 1; cbn [SelfListen.step fst].
  - cbn [heard fmap list_fmap]. rewrite app_nil_r. by apply ledger_hook.
  - rewrite app_nil_r. by apply ledger_worker.
  - cbn. rewrite !app_nil_r. destruct H. split; try done. by left.
  - cbn. rewrite !app_nil_r. destruct H as [H1 H2 H3 H4 H5 H6].
    destruct (notify_frame s) as (E1 & E2 & E3 & E4 & E5). split; rewrite ?E1, ?E2, ?E3, ?E4; auto.
Qed.

Lemma jobs_run ls done off s :
  (0 < bound)%Z → ledger done off s → ledger (done ++ (hearings ls s).*1.*1) (off ++ offers ls s) (run ls s).1.
Proof.
  intros Hb. revert done off s. induction ls as [|l ls IH]; intros done off s H; cbn [SelfListen.run hearings offers].
  - cbn. by rewrite !app_nil_r.
  - apply (jobs_step l) in H; [|done]. destruct (step l s) as [s1 o1]. cbn [fst] in *. apply IH in H.
    destruct (run ls s1) as [s2 o2]. by rewrite !fmap_app, !app_assoc.
Qed.

Lemma run_logs ls s : (run ls s).2 = logged <$> hearings ls s.
Proof.
  revert s. induction ls as [|l ls IH]; intros s; cbn [SelfListen.run hearings]; [done|].
  assert ((step l s).2 = logged <$> heard l s) as Hl.
  { destruct l as [job|o| |]; cbn; try done. unfold worker, heard. destruct (pc s); cbn; try done; repeat case_match; done. }
  destruct (step l s) as [s1 o1]. cbn [fst snd] in *. specialize (IH s1). destruct (run ls s1). cbn [snd] in *.
  by rewrite fmap_app, Hl, IH.
Qed.

(** The worker by itself once [stop] has stored its flag. *)
Definition workers (os : list Outside) : stack → stack * list Logged := run (Worker <$> os).
Definition returns (o : Outside) : Prop := ∀ job, resample soxr_process o job ≠ None.
Definition ended_ (p : Pc) : bool := match p with WExit | WDead _ => true | _ => false end.

Lemma workers_step o os s :
  workers (o :: os) s = let '(s1, o1) := worker soxr_process read stt_cfg o s in
                        let '(s2, o2) := workers os s1 in (s2, o1 ++ o2).
Proof. reflexivity. Qed.

(** How many steps the worker is from its end, and how many jobs it may
    still take and report. *)
Definition distance (p : Pc) : option nat :=
  match p with
  | WExit | WDead _ => Some 0 | WTop => Some 1 | WRun _ => Some 2 | WTest => Some 3 | WPred => Some 4 | WLock => Some 5
  | WPark | WBlocked => None
  end.
Definition may_take (p : Pc) : nat := match p with WLock | WPred | WTest => 1 | _ => 0 end.
Definition may_report (p : Pc) : nat := match p with WRun _ => 1 | p => may_take p end.

Lemma worker_stopped o s :
  stop_ s = true →
  let '(s', os) := worker soxr_process read stt_cfg o s in
  stop_ s' = true ∧ length os + may_report (pc s') ≤ may_report (pc s) ∧
  (∃ k, jobs s' = drop k (jobs s) ∧ k + may_take (pc s') ≤ may_take (pc s)) ∧
  match distance (pc s) with
  | None => distance (pc s') = None
  | Some n => ∃ m, distance (pc s') = Some m ∧ (returns o → m ≤ pred n)
  end.
Proof.
  intros Hs. unfold worker. destruct (pc s) as [| | | | | |job| |job] eqn:E; rewrite ?Hs; cbn; rewrite ?E;
    try (split_and!; [done|cbn; lia|by exists 0|by eauto with lia]).
  - destruct (jobs s) as [|job q] eqn:Eq; cbn; rewrite ?E, ?Eq.
    + rewrite bool_decide_true by done. cbn. split_and!; [done|lia|exists 0; split; [done|lia]|eauto with lia].
    + rewrite bool_decide_false by done. cbn. split_and!; [done|lia|by exists 1|eauto with lia].
  - destruct (resample soxr_process o job) as [[pcm|]|] eqn:Er; cbn; rewrite ?E;
      (split_and!; [done|cbn; lia|by exists 0|]); eexists; (split; [done|]); intros Hr; try lia. by apply Hr in Er.
Qed.

Lemma workers_stopped os s :
  stop_ s = true →
  let '(s', ls) := workers os s in
  length ls ≤ may_report (pc s) ∧ (∃ k, jobs s' = drop k (jobs s) ∧ k ≤ may_take (pc s)) ∧
  (distance (pc s) = None → ended_ (pc s') = false) ∧
  (∀ n, distance (pc s) = Some n → Forall returns os → n ≤ length os → ended_ (pc s') = true).
Proof.
  revert s. induction os as [|o os IH]; intros s Hs.
  - cbn. split_and!; [lia|exists 0; split; [done|lia]|by destruct (pc s)|]. intros n Hd _ Hn. by destruct (pc s); cbn in *; simplify_eq; try lia.
  - rewrite workers_step. pose proof (worker_stopped o s Hs) as H.
    destruct (worker soxr_process read stt_cfg o s) as [s1 o1]. destruct H as (H1 & H2 & (k & Hk & Hk') & Hd).
    specialize (IH s1 H1). destruct (workers os s1) as [s2 o2]. destruct IH as (I1 & (k2 & I2 & I2') & I3 & I4).
    rewrite length_app. split_and!; [lia| | |].
    + exists (k + k2). rewrite I2, Hk, drop_drop. split; [done|lia].
    + intros Hn. rewrite Hn in Hd. auto.
    + intros n Hn Hf Hl. rewrite Hn in Hd. destruct Hd as (m & Hm & Hlt). apply Forall_cons in Hf as [Hf1 Hf2].
      cbn in Hl. apply (I4 m Hm Hf2). specialize (Hlt Hf1). lia.
Qed.

Lemma notify_stopped s : pc s ≠ WPark → ∃ n, distance (pc (notify s)) = Some n ∧ n ≤ 5.
Proof. unfold notify. destruct (pc s) eqn:E; cbn; rewrite ?E; try done; intros _; eexists; (split; [done|lia]). Qed.
End theory.

(** *** Theorems *)

(** The self-listening loop. With a bound of at least one job, over every
    interleaving of the bridge's hook, the worker and stop, whatever the
    resampler, the transfers and the answers: nothing undefined happens; the
    queue never holds more than the bound and always the latest jobs offered;
    the jobs transcribed, the one in progress and those waiting are a part of
    the jobs offered in their order, and all of them while no more than the
    bound were offered; and the log holds one record per job transcribed, in
    that order. *)
Theorem self_listen_ledger {Soxr} (soxr_process : Soxr → _) read stt_cfg bound ls :
  (0 < bound)%Z →
  let '(s, os) := run soxr_process read stt_cfg bound ls stack_new in
  ∃ done, os = logged (Soxr:=Soxr) read stt_cfg <$> done ∧
    ledger bound done.*1.*1 (offers soxr_process read stt_cfg bound ls stack_new) s.
Proof.
  intros Hb. pose proof (run_logs soxr_process read stt_cfg bound ls stack_new) as Hl.
  assert (ledger bound [] [] stack_new) as H0 by (split; cbn; done || lia).
  apply (jobs_run soxr_process read stt_cfg bound ls) in H0; [|done].
  destruct (run soxr_process read stt_cfg bound ls stack_new) as [s os]. cbn [fst snd] in *. eauto.
Qed.

(** Stopping. Once [stop] has stored its flag the worker reports at most
    one more job and takes at most one more from the queue: what else waits
    is dropped. If the notification falls anywhere but between the predicate
    of the wait and the wait, and the resampler's drain returns, the thread
    ends within five steps; if it falls there it is lost and the thread never
    ends, so [stop] does not return. Such a run exists. *)
Theorem self_listen_stop {Soxr} (soxr_process : Soxr → _) read stt_cfg s :
  stop_ s = true →
  (∀ os, let '(s', ls) := workers soxr_process read stt_cfg 1 os (notify s) in
     length ls ≤ 1 ∧ (∃ k, jobs s' = drop k (jobs s) ∧ k ≤ 1) ∧
     (pc s ≠ WPark → Forall (returns soxr_process) os → 5 ≤ length os → ended_ (pc s') = true) ∧
     (pc s = WPark → ended_ (pc s') = false)) ∧
  (∀ o os, let lost := (run soxr_process read stt_cfg 1 [Worker o; Worker o; Worker o; StopStore; StopNotify] stack_new).1 in
     stop_ lost = true ∧ ended_ (pc (workers soxr_process read stt_cfg 1 os lost).1) = false).
Proof.
  intros Hs. split.
  - intros os. destruct (notify_frame s) as (E1 & E2 & _). rewrite <- E2 in Hs.
    pose proof (workers_stopped soxr_process read stt_cfg 1 os (notify s) Hs) as H.
    destruct (workers soxr_process read stt_cfg 1 os (notify s)) as [s' ls]. destruct H as (H1 & (k & H2 & H2') & H3 & H4).
    rewrite E1 in H2. split_and!.
    + etrans; [exact H1|]. destruct (pc (notify s)); cbn; lia.
    + exists k. split; [done|]. etrans; [exact H2'|]. destruct (pc (notify s)); cbn; lia.
    + intros Hp Hf Hl. destruct (notify_stopped s Hp) as (n & Hn & Hn'). apply (H4 n Hn Hf). lia.
    + intros Hp. apply H3. unfold notify. by rewrite Hp, Hp.
  - intros o os lost. split; [done|].
    pose proof (workers_stopped soxr_process read stt_cfg 1 os lost eq_refl) as H.
    destruct (workers soxr_process read stt_cfg 1 os lost) as [s' ls]. by apply H.
Qed.

(** What is posted for a job is a file that reads back as 16 kHz and
    everything libsoxr gives for its samples, the drained rest included. *)
Theorem self_listen_posts {Soxr} (soxr_process : Soxr → _) read stt_cfg (o : @Outside Soxr) job s r n out x outs x' wav_fuel :
  pc s = WRun job → samples job ≠ [] →
  Dsp.Resampler.resampler_new (double_of (native_rate job)) (double_of 16000) (soxr o) = Some r →
  soxr_process (Dsp.Resampler.soxr_ r) (Some (samples job))
    (Dsp.Resampler.output_capacity (length (samples job)) (Dsp.Resampler.in_rate_ r) (Dsp.Resampler.out_rate_ r))
  = Some (n, out, x) →
  Dsp.drains soxr_process x outs x' → length outs < fuel o →
  stt_base_url stt_cfg ≠ [] → stt_model stt_cfg ≠ [] → SttStack.easy_init (transfer o) = true → 2 ≤ wav_fuel →
  let pcm := out ++ concat outs in
  Forall (λ v, - 2 ^ 15 ≤ v < 2 ^ 15)%Z pcm → (36 + 2 * Z.of_nat (length pcm) < 2 ^ 32)%Z →
  worker soxr_process read stt_cfg o s = (s <| pc := WTop |>, [transcribe read stt_cfg job o pcm]) ∧
  ∃ form, (SttStack.submit read stt_cfg (request job o pcm) (uncancelled (transfer o))).1 = Some form ∧
    Wav.read_wav wav_fuel (SttStack.form_file form) = Some (Wav.Samples 16000 pcm).
Proof.
  intros Hpc Hs Hr Hp Hd Hf Hb Hm He Hw pcm Hv Hl. split.
  - unfold worker. rewrite Hpc. unfold resample. rewrite Hr. unfold Dsp.Resampler.process. rewrite decide_False, Hp by done.
    assert (Dsp.Resampler.out_samples_ r = 0%Z) as H0.
    { unfold Dsp.Resampler.resampler_new in Hr. case_match; [done|]. destruct (soxr o); [|done]. by injection Hr as <-. }
    unfold pcm in Hl. rewrite length_app in Hl.
    assert (u64 (Z.of_nat (length out)) = Z.of_nat (length out)) as Hu by (unfold u64; rewrite Z.mod_small; lia).
    rewrite (Dsp.flush_all _ _ outs x'); [done|exact Hd|done|..]; cbn; rewrite H0, Z.add_0_l, Hu; lia.
  - unfold SttStack.submit. rewrite !decide_False by done. cbn. rewrite He. cbn [negb].
    eexists. split; [reflexivity|]. by apply Wav.wav_reads_back.
Qed.

(** The loop on one sentence: the 16 samples come back as they are. *)
Definition echo (x : unit) (i : option (list Z)) (cap : nat) : option (nat * list Z * unit) :=
  match i with Some l => Some (length l, l, x) | None => Some (0, [], x) end.
Definition local_stt : SttConfig :=
  MkSttConfig (lit "http://stt/v1") (lit "whisper") 10 (lit "en") false false 0
    {| health_url := []; fail_pipeline_if_down := false; probe_interval_healthy_ms := 0;
       probe_interval_degraded_ms := 0; degraded_max_failures := 0 |}%Z.
Definition answering (text : string) : @Outside unit :=
  MkOutside (Some tt) (SttStack.Build_Transfer false true [lit text] None 200 false 0 0)%Z 0 0 7000000 1.
Definition sentence (n : Z) : SelfListenJob := MkJob 1 n (lit "Hello.") (lit "en") 16000 (replicate 16 5%Z).

Example sentence_heard_back :
  (run echo inl local_stt 4 (Hook (sentence 0) :: replicate 5 (Worker (answering "hello"))) stack_new).2
  = [MkLogged 1 [field "seq" (lit "0"); field "expected_chars" (lit "6"); field "heard_chars" (lit "5");
                 field "audio_ms" (lit "1"); field "stt_ms" (lit "7"); field "expected" (lit "Hello."); field "heard" (lit "hello")]].
Proof. vm_compute. reflexivity. Qed.

(** Nothing validates [max_in_flight]: at 2^30 the bound is 0 and the first
    sentence empties an empty deque. *)
Example bound_wraps :
  let cfg := Build_SelfListenConfig true (2 ^ 30) in
  sl_bound cfg = 0%Z ∧ undefined_ (hook (sl_bound cfg) (sentence 0) stack_new) = true.
Proof. vm_compute. done. Qed.

(** A text is cut after 600 bytes, here in the middle of an "é". *)
Example trim_cuts_character : trim (replicate 599 "x"%char ++ lit "é") = replicate 599 "x"%char ++ ["195"%char] ++ lit "…".
Proof. vm_compute. reflexivity. Qed.

Lemma self_listen_ledger_witness :
  let labels := (Hook ∘ sentence) <$> [0; 1; 2; 3; 4]%Z in
  (0 < 4)%Z ∧
  let '(s, os) := run echo inl local_stt 4 labels stack_new in
  jobs s = sentence <$> [1; 2; 3; 4]%Z ∧
  ∃ done, os = logged (Soxr:=unit) inl local_stt <$> done ∧
    ledger 4 done.*1.*1 (offers echo inl local_stt 4 labels stack_new) s.
Proof.
  intros labels. split; [lia|]. pose proof (self_listen_ledger echo inl local_stt 4 labels ltac:(lia)) as H.
  assert (jobs (run echo inl local_stt 4 labels stack_new).1 = sentence <$> [1; 2; 3; 4]%Z) as Hj by (vm_compute; reflexivity).
  destruct (run echo inl local_stt 4 labels stack_new) as [s os]. split; [exact Hj|exact H].
Defined.

Lemma echo_returns text : returns echo (answering text).
Proof.
  intros job. unfold resample. destruct (Dsp.Resampler.resampler_new _ _ _) as [r|]; [|done].
  unfold Dsp.Resampler.process. by destruct (decide (samples job = [])).
Qed.

Lemma self_listen_stop_witness :
  let s := (run echo inl local_stt 4 ((Hook ∘ sentence <$> [0; 1; 2]%Z) ++ [Worker (answering "x"); StopStore]) stack_new).1 in
  let '(s', ls) := workers echo inl local_stt 1 (replicate 5 (answering "x")) (notify s) in
  length ls ≤ 1 ∧ jobs s' = [sentence 1; sentence 2] ∧ ended_ (pc s') = true.
Proof.
  intros s. assert (stop_ s = true) as Hs by (vm_compute; reflexivity).
  pose proof (proj1 (self_listen_stop echo inl local_stt s Hs) (replicate 5 (answering "x"))) as H.
  assert (jobs (workers echo inl local_stt 1 (replicate 5 (answering "x")) (notify s)).1 = [sentence 1; sentence 2]) as Hj
    by (vm_compute; reflexivity).
  destruct (workers echo inl local_stt 1 (replicate 5 (answering "x")) (notify s)) as [s' ls].
  destruct H as (H1 & _ & H3 & _). split; [exact H1|]. split; [exact Hj|].
  apply H3; [vm_compute; discriminate|repeat constructor; apply echo_returns|].
  cbn. lia.
Defined.
End SelfListen.

(** ** The metrics poller *)

Module Poller.
(** Where the thread of the poller is: at the test of its flag, or before
    the read of a counter. *)
Inductive Pc := PTop | PDepth | PUnderruns | PPlayed | PDrops | PLatency | PExit.
Record poller := MkPoller { engine_ : Engine.engine; metrics_stop_ : bool; pc : Pc }.
#[global] Instance eta_poller : Eta poller := λ s, MkPoller (engine_ s) (metrics_stop_ s) (pc s).

Definition set_counter (g : Metrics.Polled) (n : nat) : list Metrics.Label := [Metrics.Poll g (double_of (Z.of_nat n))].

(** The latency in milliseconds; the engine holds -1 when there is none. *)
Definition latency_ms (l : option Z) : spec_float :=
  match l with Some ns => Metrics.millis 0 ns | None => double_of (-1) end.
Definition on_latency (l : option Z) : list Metrics.Label :=
  if Metrics.ge0 (latency_ms l) then [Metrics.BargeInLatency (latency_ms l)] else [].

Definition poll (s : poller) : poller * list Metrics.Label :=
  let e := engine_ s in
  match pc s with
  | PTop => (s <| pc := if metrics_stop_ s then PExit else PDepth |>, [])
  | PDepth => (s <| pc := PUnderruns |>,
      set_counter Metrics.playback_queue_depth (PlaybackQueue.size (Engine.queue_ e)))
  | PUnderruns => (s <| pc := PPlayed |>, set_counter Metrics.playback_underruns_total (Engine.underruns_ e))
  | PPlayed => (s <| pc := PDrops |>, set_counter Metrics.playback_chunks_played_total (Engine.chunks_played_ e))
  | PDrops => (s <| pc := PLatency |>,
      set_counter Metrics.playback_drops_total (PlaybackQueue.drops_ (Engine.queue_ e)))
  | PLatency => let '(l, e) := Engine.consume_pending_barge_in_latency e in
                (s <| engine_ := e |> <| pc := PTop |>, on_latency l)
  | PExit => (s, [])
  end.

(** The engine's own [Consume] is the poller's read. *)
Inductive Label := EngineStep (l : Engine.Label) | PollStep | StopStore.
Definition step (l : Label) (s : poller) : poller * list Metrics.Label :=
  match l with
  | EngineStep Engine.Consume => (s, [])
  | EngineStep l => (s <| engine_ ::= λ e, (Engine.step l e).1 |>, [])
  | PollStep => poll s
  | StopStore => (s <| metrics_stop_ := true |>, [])
  end.
Fixpoint run (ls : list Label) (s : poller) : poller * list Metrics.Label :=
  match ls with
  | [] => (s, [])
  | l :: ls => let '(s, o1) := step l s in let '(s, o2) := run ls s in (s, o1 ++ o2)
  end.

(** *** Specification *)

(** The latency an audio callback measures: it disarms the timer. *)
Definition measured (l : Label) (s : poller) : list Z :=
  match l with
  | EngineStep (Engine.Audio active now) =>
      let e' := (Engine.step (Engine.Audio active now) (engine_ s)).1 in
      if decide (Engine.barge_in_publish_ns_ (engine_ s) ≠ 0 ∧ Engine.barge_in_publish_ns_ e' = 0)%Z
      then option_list (Engine.barge_in_pending_latency_ e') else []
  | _ => []
  end.
Definition taken (l : Label) (s : poller) : list Z :=
  match l, pc s with PollStep, PLatency => option_list (Engine.barge_in_pending_latency_ (engine_ s)) | _, _ => [] end.
Fixpoint measurements (ls : list Label) (s : poller) : list Z :=
  match ls with [] => [] | l :: ls => measured l s ++ measurements ls (step l s).1 end.
Fixpoint takings (ls : list Label) (s : poller) : list Z :=
  match ls with [] => [] | l :: ls => taken l s ++ takings ls (step l s).1 end.
Definition latencies (os : list Metrics.Label) : list spec_float :=
  omap (λ o, match o with Metrics.BargeInLatency ms => Some ms | _ => None end) os.
Definition kept (s : poller) : list Z := option_list (Engine.barge_in_pending_latency_ (engine_ s)).

(** *** Lemmas *)

Definition timer (e : Engine.engine) := (Engine.barge_in_publish_ns_ e, Engine.barge_in_pending_latency_ e).

Lemma close_timer active now e :
  timer (Engine.maybe_close_barge_in_timer active now e) = timer e ∨
  (Engine.barge_in_publish_ns_ e ≠ 0)%Z ∧
  timer (Engine.maybe_close_barge_in_timer active now e) = (0%Z, Some (now - Engine.barge_in_publish_ns_ e)%Z).
Proof. unfold Engine.maybe_close_barge_in_timer. case_decide; [by left|]. case_decide; [by left|]. by right. Qed.

Lemma finish_timer e : timer (Engine.finish_chunk e).1 = timer e.
Proof. unfold Engine.finish_chunk. repeat case_decide; cbn; repeat case_match; done. Qed.

Lemma audio_timer active now e :
  timer (Engine.step (Engine.Audio active now) e).1 = timer e ∨
  (Engine.barge_in_publish_ns_ e ≠ 0)%Z ∧
  ∃ v, timer (Engine.step (Engine.Audio active now) e).1 = (0%Z, Some v).
Proof.
  cbn [Engine.step]. unfold Engine.audio_step. destruct (Engine.pc e) as [|frames out|frames out a] eqn:E; [by left| |].
  - unfold Engine.loop_step. case_decide; [|by left]. case_decide; [|by left].
    pose proof (finish_timer e) as Hf. destruct (Engine.finish_chunk e) as [e1 o1]. cbn [fst] in Hf.
    case_match; [|by left; rewrite <- Hf]. case_decide; [by left; rewrite <- Hf|].
    set (e2 := e1 <| Engine.prefill_silence_frames_ ::= _ |>). assert (timer e2 = timer e) as Ht by (by rewrite <- Hf).
    destruct (close_timer active now e2) as [Hc|[Hc1 Hc]]; cbn; [left; by rewrite <- Ht|right].
    unfold timer in Ht. injection Ht as Hp _. rewrite <- Hp. eauto.
  - unfold Engine.dequeue_step. destruct (PlaybackQueue.dequeue_active a (Engine.queue_ e)) as [[c|] q]; [by left|].
    set (e2 := e <| Engine.queue_ := q |> <| Engine.underruns_ ::= S |>). assert (timer e2 = timer e) as Ht by done.
    destruct (close_timer a now e2) as [Hc|[Hc1 Hc]]; cbn; [by left|right]. eauto.
Qed.

Lemma step_kept l s : taken l s ++ kept (step l s).1 = match measured l s with [] => kept s | v => v end.
Proof.
  destruct l as [l| |]; [|cbn; unfold poll, taken, kept; by destruct (pc s) eqn:E; cbn; rewrite ?app_nil_r|done].
  cbn [taken]. rewrite app_nil_l. destruct l as [frames|active now|op| |t ns|]; try done.
  1: unfold kept; cbn; by destruct (Engine.pc (engine_ s)).
  2: unfold kept; cbn; by destruct (Queue.try_pop (Engine.postbox (engine_ s))) as [[] ?].
  unfold measured, kept at 1. cbn [step fst].
  change (engine_ (s <| engine_ ::= _ |>)) with (Engine.step (Engine.Audio active now) (engine_ s)).1. cbv zeta.
  pose proof (audio_timer active now (engine_ s)) as H. set (e' := (Engine.step _ _).1) in *. clearbody e'. unfold timer in H.
  destruct H as [[= H2 H3]|(H1 & v & [= H2 H3])]; rewrite H2, H3.
  - by rewrite decide_False by tauto.
  - by rewrite decide_True by done.
Qed.

(** What was taken and what is kept are among what was measured, in order,
    and the last measured is never the one that is lost. *)
Definition accounted (done meas : list Z) (s : poller) : Prop :=
  (done ++ kept s) `sublist_of` meas ∧ last meas = last (done ++ kept s).

Lemma accounted_step l done meas s :
  accounted done meas s → accounted (done ++ taken l s) (meas ++ measured l s) (step l s).1.
Proof.
  unfold accounted. rewrite <- app_assoc, step_kept. intros [H1 H2].
  destruct (measured l s) as [|v vs] eqn:E; [by rewrite app_nil_r|]. split.
  - apply sublist_app; [|done]. etrans; [by apply sublist_inserts_r|exact H1].
  - rewrite !last_app. by destruct (last (v :: vs)) eqn:El; [|apply last_None in El].
Qed.

Lemma accounted_run ls done meas s :
  accounted done meas s → accounted (done ++ takings ls s) (meas ++ measurements ls s) (run ls s).1.
Proof.
  revert done meas s. induction ls as [|l ls IH]; intros done meas s H; cbn [run takings measurements]; [by rewrite !app_nil_r|].
  apply (accounted_step l) in H. destruct (step l s) as [s1 o1]. cbn [fst] in *. apply IH in H.
  destruct (run ls s1). by rewrite !app_assoc.
Qed.

Lemma step_latencies l s :
  latencies (step l s).2 = filter (λ ms, Metrics.ge0 ms = true) (Metrics.millis 0 <$> taken l s).
Proof.
  destruct l as [l| |]; [by destruct l| |done]. cbn [step]. unfold poll, taken. destruct (pc s); try done.
  unfold Engine.consume_pending_barge_in_latency. cbn [snd]. unfold on_latency.
  destruct (Engine.barge_in_pending_latency_ (engine_ s)) as [ns|]; [|done].
  change (Metrics.millis 0 <$> option_list (Some ns)) with [Metrics.millis 0 ns]. cbn [latency_ms].
  destruct (Metrics.ge0 (Metrics.millis 0 ns)) eqn:E; [by rewrite filter_cons_True|rewrite filter_cons_False; [done|congruence]].
Qed.

Lemma run_latencies ls s :
  latencies (run ls s).2 = filter (λ ms, Metrics.ge0 ms = true) (Metrics.millis 0 <$> takings ls s).
Proof.
  revert s. induction ls as [|l ls IH]; intros s; [done|]. cbn [run takings].
  pose proof (step_latencies l s) as Hl. destruct (step l s) as [s1 o1]. specialize (IH s1).
  destruct (run ls s1) as [s2 o2]. cbn [fst snd] in *. unfold latencies in *.
  by rewrite omap_app, fmap_app, filter_app, Hl, IH.
Qed.

(** Barge-in latencies reach the registry. Over every interleaving of the
    engine's steps, the poller and its stop: what the poller reports are the
    latencies it took, in milliseconds, in order, the negative ones left out;
    what it took and what still waits is a part of what the audio callbacks
    measured, in their order and none twice; and the latest measured is among
    them, so that only a latency overtaken by another before the poll is
    lost. *)
Theorem latencies_reported ls prefill_ms rate q sink :
  let s0 := MkPoller (Engine.engine_new prefill_ms rate q sink) false PTop in
  let '(s, os) := run ls s0 in
  ∃ done, latencies os = filter (λ ms, Metrics.ge0 ms = true) (Metrics.millis 0 <$> done) ∧
    (done ++ kept s) `sublist_of` measurements ls s0 ∧
    last (measurements ls s0) = last (done ++ kept s).
Proof.
  intros s0. pose proof (run_latencies ls s0) as Hl.
  assert (accounted [] [] s0) as H by (split; [constructor|done]). apply (accounted_run ls) in H.
  destruct (run ls s0) as [s os]. cbn [fst snd] in *. destruct H. eauto.
Qed.
End Poller.

(** ** Building and stopping *)

Module Build.
Inductive Action :=
  | EngineStart | BridgeStart | SetSelfListenSink | SpawnSelfListen | SpawnPoller
  | BridgeStop | StoreSelfListenStop | NotifySelfListen | JoinSelfListen
  | EngineStop | StoreMetricsStop | JoinPoller.

(** The members; a thread is there when it is joinable. The client has no
    state of its own. *)
Record TtsStack := MkTtsStack {
  queue_ : option PlaybackQueue.PlaybackQueue;
  engine_ : option Engine.engine;
  loopback_ : option Loopback.sink;
  bridge_ : bool;
  self_listen_thread_ : option Z;     (* the bound of its queue *)
  metrics_thread_ : bool;
  stopped_ : bool;
}.
#[global] Instance eta_TtsStack : Eta TtsStack := λ s,
  MkTtsStack (queue_ s) (engine_ s) (loopback_ s) (bridge_ s) (self_listen_thread_ s) (metrics_thread_ s) (stopped_ s).
Definition TtsStack_new : TtsStack := MkTtsStack None None None false None false false.

Abbreviation M := (Act TtsStack Action).
Local Open Scope act_scope.

Definition enabled (s : TtsStack) : bool := bridge_ s.

Definition loopback_capacity (cfg : Config) : Z := u64 (ring_seconds (loopback (audio cfg)) * sample_rate_hz (audio cfg)).
Definition self_listening (cfg : Config) : bool :=
  self_enabled (self_listen (dialogue cfg)) && negb (bool_decide (stt_base_url (stt cfg) = [])).

Definition build_tts_stack (cfg : Config) : M unit :=
  if decide (voices (tts cfg) = []) then skip else
  let q := PlaybackQueue.pq_new (Z.to_nat (max_queue_chunks (playback cfg))) in
  let engine tap := Engine.engine_new (Z.to_nat (prefill_ms (playback cfg))) (Z.to_nat (sample_rate_hz (audio cfg))) q tap in
  modify (λ s, s <| queue_ := Some q |> <| engine_ := Some (engine false) |>);;
  (when capture_enabled (audio cfg) do
     modify (λ s, s <| loopback_ := Some (Loopback.sink_new (Z.to_nat (loopback_capacity cfg)) (sample_rate_hz (audio cfg))) |>
                    <| engine_ := Some (engine true) |>));;
  modify (λ s, s <| bridge_ := true |>);;
  emit EngineStart;; emit BridgeStart;;
  (when self_listening cfg do
     (emit SetSelfListenSink;; emit SpawnSelfListen;;
      modify (λ s, s <| self_listen_thread_ := Some (SelfListen.sl_bound (self_listen (dialogue cfg))) |>)));;
  emit SpawnPoller;;
  modify (λ s, s <| metrics_thread_ := true |>).

Definition stop : M unit :=
  s ← gets id;
  if stopped_ s then skip else
  modify (λ s, s <| stopped_ := true |>);;
  (when bridge_ s do emit BridgeStop);;
  (when bool_decide (is_Some (self_listen_thread_ s)) do
     (emit StoreSelfListenStop;; emit NotifySelfListen;; emit JoinSelfListen;;
      modify (λ s, s <| self_listen_thread_ := None |>)));;
  (when bool_decide (is_Some (engine_ s)) do emit EngineStop);;
  (when metrics_thread_ s do
     (emit StoreMetricsStop;; emit JoinPoller;; modify (λ s, s <| metrics_thread_ := false |>))).

(** The life of a stack: [stop] any number of times, and the destructor. *)
Fixpoint stops (n : nat) : M unit := match n with O => skip | S n => stop;; stops n end.
Definition life (cfg : Config) (n : nat) : M unit := build_tts_stack cfg;; stops n;; stop.

Lemma stop_stopped s : stopped_ s = true → stop s = (tt, s, []).
Proof. intros H. unfold stop, bind, gets. cbn. by rewrite H. Qed.

Lemma stop_stops s : stopped_ (exec stop s) = true.
Proof.
  unfold stop. rewrite exec_gets. change (id s) with s. destruct (stopped_ s) eqn:H; [done|]. rewrite exec_modify.
  unfold exec, bind. destruct (bridge_ s), (bool_decide (is_Some (self_listen_thread_ s))),
    (bool_decide (is_Some (engine_ s))), (metrics_thread_ s); reflexivity.
Qed.

(** Only the first [stop] does anything. *)
Lemma stops_stop n s : (stops n;; stop) s = stop s.
Proof.
  assert (∀ n s, stopped_ s = true → stops n s = (tt, s, [])) as Hs.
  { clear. intros n s H. induction n as [|n IH]; [done|]. cbn [stops]. unfold bind. by rewrite stop_stopped, IH. }
  destruct n as [|n]; cbn [stops].
  - unfold bind, skip, ret. by destruct (stop s) as [[[] ?] ?].
  - unfold bind. pose proof (stop_stops s) as H. unfold exec in H. destruct (stop s) as [[[] s1] o1]. cbn in H.
    rewrite Hs, stop_stopped by done. by rewrite !app_nil_r.
Qed.

(** What is built and how it ends. Without a voice nothing is started,
    and stopping does nothing. With one the playback engine starts before the
    bridge, the reference tap is there exactly when capture is on, the loop
    exactly when it is enabled and a server is configured; and however often
    [stop] is called the bridge stops first, then each thread is told to stop
    and joined exactly once: the self-listening worker before the engine, the
    poller last. *)
Theorem stack_life cfg n :
  let s := exec (build_tts_stack cfg) TtsStack_new in
  let sl := self_listening cfg in
  enabled s = bool_decide (voices (tts cfg) ≠ []) ∧
  (enabled s = false → s = TtsStack_new ∧ outs (life cfg n) TtsStack_new = []) ∧
  (enabled s = true →
    is_Some (loopback_ s) ↔ capture_enabled (audio cfg) = true) ∧
  (enabled s = true → (Engine.loopback_sink_ <$> engine_ s) = Some (bool_decide (is_Some (loopback_ s)))) ∧
  (enabled s = true → outs (life cfg n) TtsStack_new
    = [EngineStart; BridgeStart] ++ (if sl then [SetSelfListenSink; SpawnSelfListen] else []) ++ [SpawnPoller; BridgeStop]
      ++ (if sl then [StoreSelfListenStop; NotifySelfListen; JoinSelfListen] else [])
      ++ [EngineStop; StoreMetricsStop; JoinPoller]) ∧
  let s' := exec (life cfg n) TtsStack_new in self_listen_thread_ s' = None ∧ metrics_thread_ s' = false.
Proof.
  cbv zeta. unfold life. rewrite exec_bind, outs_bind. 
  assert (∀ s, exec (stops n;; stop) s = exec stop s ∧ outs (stops n;; stop) s = outs stop s) as Hn
    by (intros s; unfold exec, outs; by rewrite stops_stop).
  rewrite (proj1 (Hn _)), (proj2 (Hn _)). clear Hn.
  unfold build_tts_stack. destruct (decide (voices (tts cfg) = [])) as [Hv|Hv].
  - rewrite bool_decide_false by tauto. by split_and!.
  - rewrite bool_decide_true by done. unfold bind, exec, outs.
    destruct (capture_enabled (audio cfg)), (self_listening cfg); cbn; split_and!; try done; intros _; by split; eauto.
Qed.
End Build.
