(* ===== verification/Endpoints.v ===== *)
(** * Probe and ping of the language model, and the addresses of the servers
    (src/src/llm/client.cpp)

    What [LlmClient] asks besides a completion, with the HTTP client and the
    JSON writer as parameters; and that the four places that derive an
    address from a base URL agree on the documented form of one. *)
From S2P Require Import Prelude Config.
From S2P Require SttStack TtsClient KeepAlive.

(** [authority_of]: without a scheme the search starts at the beginning. *)
Definition authority_of (url : str) : str :=
  let host_start := match str_find (lit "://") url with None => 0 | Some scheme_end => scheme_end + 3 end in
  match str_find (lit "/") (drop host_start url) with
  | None => url
  | Some path_start => take (host_start + path_start) url
  end.

Record PingMessage := MkMessage { role : str; content : str }.
Record PingRequest := MkPing { model : str; messages : list PingMessage; max_tokens : Z; stream : bool }.
Definition ping_request (cfg : LlmConfig) : PingRequest :=
  MkPing (llm_model cfg) [MkMessage (lit "user") (lit "ping")] 1 false.

(** The URL [submit] posts to. *)
Definition completions_url (cfg : LlmConfig) : str := llm_base_url cfg ++ lit "/chat/completions".

Section client.
(** [glz::write_json]; [cli.Get] of a host and a path: the status. *)
Context (write_json : PingRequest → option str) (Get : str → str → option Z).

Definition build_keep_alive_body (cfg : LlmConfig) : str := default [] (write_json (ping_request cfg)).

Definition probe (cfg : LlmConfig) : bool :=
  match Get (authority_of (llm_base_url cfg)) (lit "/health") with
  | Some status => bool_decide (status = 200%Z)
  | None => false
  end.

(** What is posted: host, path, body. *)
Definition keep_alive (cfg : LlmConfig) : option (str * str * str) :=
  let body := build_keep_alive_body cfg in
  if decide (body = []) then None
  else Some (authority_of (llm_base_url cfg), lit "/v1/chat/completions", body).
End client.

(** ** Lemmas *)

Lemma authority_app sch host path :
  str_find (lit "://") sch = None → ":"%char ∉ sch → "/"%char ∉ host → path = [] ∨ head path = Some "/"%char →
  authority_of (sch ++ lit "://" ++ host ++ path) = sch ++ lit "://" ++ host ∧
  SttStack.trim_to_authority (sch ++ lit "://" ++ host ++ path) = sch ++ lit "://" ++ host.
Proof.
  intros Hf Hs Hh Hp. unfold authority_of, SttStack.trim_to_authority. rewrite scheme_app by done. cbv zeta.
  assert (drop (length sch + 3) (sch ++ lit "://" ++ host ++ path) = host ++ path) as ->
    by (rewrite app_assoc; apply drop_app_length'; by rewrite length_app).
  change (lit "/") with ["/"%char]. destruct path as [|c path].
  - rewrite app_nil_r, char_absent by done. done.
  - destruct Hp as [?|Hp]; [done|]. injection Hp as ->. rewrite str_find_fresh by done.
    assert (take (length sch + 3 + length host) (sch ++ lit "://" ++ host ++ "/"%char :: path) = sch ++ lit "://" ++ host) as ->; [|done].
    rewrite (app_assoc (lit "://")), (app_assoc sch). apply take_app_length'. rewrite !length_app. cbn. lia.
Qed.

(** No match begins in [a] and ends in the suffix: "/v1" holds one slash. *)
Lemma find_v1 a : str_find (lit "/v1") a = None → str_find (lit "/v1") (a ++ lit "/v1") = Some (length a).
Proof.
  induction a as [|c a IH]; [done|]. intros H. cbn [str_find] in H. cbn [app str_find length].
  destruct (starts_with (lit "/v1") (c :: a)) eqn:E; [done|].
  assert (starts_with (lit "/v1") (c :: a ++ lit "/v1") = false) as ->.
  { revert E. cbn. destruct (bool_decide _); [|done]. cbn. destruct a as [|d a]; [done|]. cbn.
    destruct (bool_decide _); [|done]. cbn. by destruct a. }
  rewrite IH; [done|]. by destruct (str_find (lit "/v1") a).
Qed.

(** ** Theorems *)

(** The addresses agree. With a base URL of the documented form, a scheme,
    a host and /v1 (the host not making a "/v1" of its own), the ping of the
    language model goes to the URL its completions go to; and the probes of
    the language model, of recognition and of synthesis, and that of a
    supervisor given the URL of /health, ask the same host for /health. *)
Theorem addresses_agree sch host (llm : LlmConfig) stt tts write_json body :
  let host_url := sch ++ lit "://" ++ host in
  let base := host_url ++ lit "/v1" in
  str_find (lit "://") sch = None → ":"%char ∉ sch → "/"%char ∉ host → host ≠ [] → str_find (lit "/v1") host_url = None →
  llm_base_url llm = base → stt_base_url stt = base → tts_base_url tts = base →
  write_json (ping_request llm) = Some body → body ≠ [] →
  (∃ h p, keep_alive write_json llm = Some (h, p, body) ∧ h ++ p = completions_url llm) ∧
  (∀ Get, probe Get llm = match Get host_url (lit "/health") with Some st => bool_decide (st = 200%Z) | None => false end) ∧
  SttStack.probe_url stt = Some (host_url ++ lit "/health") ∧
  TtsClient.probe_url tts = Some (host_url ++ lit "/health") ∧
  KeepAlive.Probe.parse_url (host_url ++ lit "/health") = KeepAlive.Probe.MkUrl host_url (lit "/health").
Proof.
  intros host_url base Hf Hs Hh Hne Hv Hl Hst Ht Hw Hb.
  assert (∀ p, head p = Some "/"%char → authority_of (host_url ++ p) = host_url ∧ SttStack.trim_to_authority (host_url ++ p) = host_url) as Ha.
  { intros p Hp. unfold host_url. rewrite <- !app_assoc. by apply authority_app; [..|right]. }
  destruct (Ha (lit "/v1") eq_refl) as [Ha1 Ha2]. split_and!.
  - unfold keep_alive, build_keep_alive_body. rewrite Hw, Hl. cbn [default]. rewrite decide_False by done. unfold base. rewrite Ha1.
    eexists _, _. split; [done|]. unfold completions_url. rewrite Hl. unfold base. by rewrite <- app_assoc.
  - intros Get. unfold probe. rewrite Hl. unfold base. by rewrite Ha1.
  - unfold SttStack.probe_url. rewrite Hst, decide_False by (unfold base; by destruct sch). unfold base. by rewrite Ha2.
  - unfold TtsClient.probe_url. rewrite Ht, decide_False by (unfold base; by destruct sch). unfold base. rewrite find_v1 by done.
    rewrite take_app_length. rewrite decide_True.
    + by rewrite <- app_assoc.
    + unfold host_url. destruct host as [|c h _] using rev_ind; [done|]. split; [by destruct sch|].
      rewrite !app_assoc, last_snoc. intros [= ->]. apply Hh. set_solver.
  - unfold KeepAlive.Probe.parse_url, host_url. rewrite <- !app_assoc. rewrite scheme_app by done. cbv zeta.
    assert (drop (length sch + 3) (sch ++ lit "://" ++ host ++ lit "/health") = host ++ lit "/health") as ->
      by (rewrite app_assoc; apply drop_app_length'; by rewrite length_app).
    change (lit "/health") with ("/"%char :: lit "health"). rewrite str_find_fresh by done.
    rewrite (app_assoc (lit "://")), (app_assoc sch).
    rewrite take_app_length', drop_app_length' by (rewrite !length_app; cbn; lia). done.
Qed.

Definition example_llm (base : string) : LlmConfig :=
  MkLlmConfig (lit base) (lit "m") [] None None None 0 0 0 0
    {| health_url := []; fail_pipeline_if_down := false; probe_interval_healthy_ms := 0;
       probe_interval_degraded_ms := 0; degraded_max_failures := 0 |}.

(** With another prefix the ping leaves it out and misses the server. *)
Example ping_misses :
  let llm := example_llm "http://h/api/v1" in
  (λ '(h, p, _), h ++ p) <$> keep_alive (λ _, Some (lit "{}")) llm = Some (lit "http://h/v1/chat/completions") ∧
  completions_url llm = lit "http://h/api/v1/chat/completions".
Proof. by vm_compute. Qed.

(** A host that begins with v1 sends the synthesis probe astray. *)
Example tts_probe_astray :
  let health := {| health_url := []; fail_pipeline_if_down := false; probe_interval_healthy_ms := 0;
                   probe_interval_degraded_ms := 0; degraded_max_failures := 0 |}%Z in
  TtsClient.probe_url (MkTtsConfig health (lit "http://v1.example/v1") [] [] [] 0 0) = Some (lit "http:/health").
Proof. by vm_compute. Qed.

Lemma addresses_agree_witness :
  let health := {| health_url := []; fail_pipeline_if_down := false; probe_interval_healthy_ms := 0;
                   probe_interval_degraded_ms := 0; degraded_max_failures := 0 |}%Z in
  let tts := MkTtsConfig health (lit "http://h:8/v1") [] [] [] 0 0 in
  let stt := MkSttConfig (lit "http://h:8/v1") (lit "w") 10 (lit "en") false false 0 health in
  SttStack.probe_url stt = Some (lit "http://h:8/health") ∧ TtsClient.probe_url tts = Some (lit "http://h:8/health").
Proof.
  intros health tts stt.
  pose proof (addresses_agree (lit "http") (lit "h:8") (example_llm "http://h:8/v1") stt tts (λ _, Some (lit "{}")) (lit "{}")) as H.
  destruct H as (_ & _ & H1 & H2 & _);
    [reflexivity|by apply (bool_decide_unpack _)|by apply (bool_decide_unpack _)|discriminate|reflexivity|reflexivity|reflexivity
    |reflexivity|reflexivity|discriminate|]. exact (conj H1 H2).
Defined.
