(* ===== verification/ControlServer.v ===== *)
(** * The control server (src/src/http/server.cpp, src/src/orchestrator/status_extra.cpp)

    What the three routes answer, and the JSON text of /status with the
    fragment of the supervisor and the echo canceller. cpp-httplib, the text
    of the metrics and the printing of a float by fmt are parameters. The
    text is stated by reading it back. *)
From stdpp Require Import pretty.
From S2P Require Import Prelude Event Json Fsm.
From S2P Require Supervisor Dsp Log.

(** [fmt::format] of an integer and of a bool. *)
Definition num (z : Z) : str := lit (pretty z).
Definition boolean (b : bool) : str := lit (if b then "true" else "false").

(** ** /status *)

Definition fsm_fields (snap : Fsm.FsmSnapshot) : str :=
  jlit "'state':'" ++ lit (Fsm.state_to_string (Fsm.snap_state snap)) ++
  jlit "','active_turn':" ++ num (Fsm.snap_active_turn snap) ++
  jlit ",'outcome':'" ++ lit (Fsm.outcome_to_string (Fsm.snap_outcome snap)) ++
  jlit "','sentences_played':" ++ num (Fsm.snap_sentences_played snap) ++
  jlit ",'turns_completed':" ++ num (Fsm.snap_turns_completed snap) ++
  jlit ",'turns_interrupted':" ++ num (Fsm.snap_turns_interrupted snap) ++
  jlit ",'turns_discarded':" ++ num (Fsm.snap_turns_discarded snap).

(** [extra]: no supplier, or what it returns, [None] when it throws. *)
Definition serialize_status (fsm : option Fsm.FsmSnapshot) (extra : option (option str)) : str :=
  let body := match fsm with None => jlit "'state':'unknown'" | Some snap => fsm_fields snap end in
  let body := match extra with
              | Some (Some frag) => if decide (frag = []) then body else body ++ "," %char :: frag
              | _ => body
              end in
  "{"%char :: body ++ ["}"; "010"]%char.

(** Time of the last success of a service, in milliseconds before [now]; -1
    when there was none. *)
Definition last_ok_ms_ago (now : Z) (s : Supervisor.ServiceSnapshot) : Z :=
  if decide (Supervisor.snap_last_ok_at s = 0)%Z then (-1)%Z
  else Z.quot (now - Supervisor.snap_last_ok_at s) 1000000.

Definition service_json (now : Z) (s : Supervisor.ServiceSnapshot) : str :=
  jlit "{'name':'" ++ Supervisor.snap_name s ++
  jlit "','state':'" ++ lit (Supervisor.service_state_name (Supervisor.snap_state s)) ++
  jlit "','last_ok_ms_ago':" ++ num (last_ok_ms_ago now s) ++
  jlit ",'consecutive_failures':" ++ num (Supervisor.snap_consecutive_failures s) ++
  jlit ",'total_probes':" ++ num (Supervisor.snap_total_probes s) ++
  jlit ",'total_failures':" ++ num (Supervisor.snap_total_failures s) ++
  jlit ",'last_http_status':" ++ num (Supervisor.snap_http_status s) ++ ["}"%char].

(** What is read of the echo canceller. *)
Record ApmStats := MkStats { active : bool; delay_ms : Z; erle : fl; frames_processed : Z }.
Definition stats_of {W R} (a : @Dsp.Apm.apm W R) : ApmStats :=
  MkStats (Dsp.Apm.aec_active a) (Dsp.Apm.delay_ms a) (Dsp.Apm.erle_db a) (Dsp.Apm.frames a).

Section extra.
(** [{:.2f}] *)
Context (fmt_2f : Q → str).

Definition apm_json (a : ApmStats) : str :=
  jlit ",'apm':{'active':" ++ boolean (active a) ++ jlit ",'delay_ms':" ++ num (delay_ms a) ++
  match erle a with
  | None => jlit ",'erle_db':null,'frames_processed':" ++ num (frames_processed a) ++ ["}"%char]
  | Some e => jlit ",'erle_db':" ++ fmt_2f e ++ jlit ",'frames_processed':" ++ num (frames_processed a) ++ ["}"%char]
  end.

(** The loop over the services; [clock i] is the clock read for the i-th. *)
Fixpoint services_json (clock : nat → Z) (i : nat) (ss : list Supervisor.ServiceSnapshot) : str :=
  match ss with
  | [] => []
  | s :: ss => (if decide (i = 0) then [] else [","%char]) ++ service_json (clock i) s ++ services_json clock (S i) ss
  end.

(** The closure of [make_status_extra]; [apm]: there is a capture stack with
    a pipeline and an echo canceller. *)
Definition status_extra (clock : nat → Z) (st : Supervisor.Pipeline.PipelineState)
    (ss : list Supervisor.ServiceSnapshot) (apm : option ApmStats) : str :=
  jlit "'pipeline_state':'" ++ lit (Supervisor.Pipeline.pipeline_state_name st) ++ jlit "','services':[" ++
  services_json clock 0 ss ++ "]"%char :: match apm with Some a => apm_json a | None => [] end.
End extra.

(** ** The routes *)

(** Content and type. *)
Definition get (metrics : str) (fsm : option Fsm.FsmSnapshot) (extra : option (option str)) (path : str)
    : option (str * str) :=
  if decide (path = lit "/metrics") then Some (metrics, lit "text/plain; version=0.0.4")
  else if decide (path = lit "/status") then Some (serialize_status fsm extra, lit "application/json")
  else if decide (path = lit "/health") then Some (lit "ok" ++ ["010"%char], lit "text/plain")
  else None.

(** The constructor: the port, or the exception. *)
Definition ControlServer_ctor (bind : str) (port : Z) (bind_to_port : str → Z → bool) : Z + str :=
  if bind_to_port bind port then inl port
  else inr (lit "control server: failed to bind " ++ bind ++ ":"%char :: num port).

(** ** Specification: reading the answer *)

(** A value of the document: a string or number, an object, or a list of
    objects. *)
Inductive Node := Leaf (v : JValue) | Object (kvs : list (str * JValue)) | Objects (os : list (list (str * JValue))).

(** The members of an object up to its closing brace, and what follows. *)
Fixpoint read_fields (fuel : nat) (s : str) : option (list (str * JValue) * str) :=
  match fuel with
  | 0 => None
  | S fuel =>
      match read_member s with
      | Some (k, v, ","%char :: s) => prod_map (cons (k, v)) id <$> read_fields fuel s
      | Some (k, v, "}"%char :: s) => Some ([(k, v)], s)
      | _ => None
      end
  end.
Definition read_flat (s : str) : option (list (str * JValue) * str) :=
  match s with "{"%char :: s => read_fields (S (length s)) s | _ => None end.
Fixpoint read_items (fuel : nat) (s : str) : option (list (list (str * JValue)) * str) :=
  match fuel with
  | 0 => None
  | S fuel =>
      match read_flat s with
      | Some (o, ","%char :: s) => prod_map (cons o) id <$> read_items fuel s
      | Some (o, "]"%char :: s) => Some ([o], s)
      | _ => None
      end
  end.
Definition read_list (s : str) : option (list (list (str * JValue)) * str) :=
  match s with "]"%char :: s => Some ([], s) | _ => read_items (S (length s)) s end.

Definition read_key (s : str) : option (str * str) :=
  match s with
  | c :: s => if decide (c = quote) then
      match read_string s with Some (k, ":"%char :: s) => Some (k, s) | _ => None end else None
  | [] => None
  end.
Definition read_node (s : str) : option (str * Node * str) :=
  match read_key s with
  | Some (k, "{"%char :: t) => (λ '(o, r), (k, Object o, r)) <$> read_flat ("{"%char :: t)
  | Some (k, "["%char :: t) => (λ '(l, r), (k, Objects l, r)) <$> read_list t
  | _ => (λ '(k, v, r), (k, Leaf v, r)) <$> read_member s
  end.
Fixpoint read_nodes (fuel : nat) (s : str) : option (list (str * Node)) :=
  match fuel with
  | 0 => None
  | S fuel =>
      match read_node s with
      | Some (k, v, ","%char :: s) => cons (k, v) <$> read_nodes fuel s
      | Some (k, v, ["}"; "010"]%char) => Some [(k, v)]
      | _ => None
      end
  end.
Definition read_document (s : str) : option (list (str * Node)) :=
  match s with "{"%char :: s => read_nodes (S (length s)) s | _ => None end.

(** What the answer says. *)
Definition text (s : str) : Node := Leaf (JString s).
Definition raw (s : str) : Node := Leaf (JRaw s).
Definition fsm_says (snap : Fsm.FsmSnapshot) : list (str * Node) :=
  [(lit "state", text (lit (Fsm.state_to_string (Fsm.snap_state snap))));
   (lit "active_turn", raw (num (Fsm.snap_active_turn snap)));
   (lit "outcome", text (lit (Fsm.outcome_to_string (Fsm.snap_outcome snap))));
   (lit "sentences_played", raw (num (Fsm.snap_sentences_played snap)));
   (lit "turns_completed", raw (num (Fsm.snap_turns_completed snap)));
   (lit "turns_interrupted", raw (num (Fsm.snap_turns_interrupted snap)));
   (lit "turns_discarded", raw (num (Fsm.snap_turns_discarded snap)))].
Definition service_says (now : Z) (s : Supervisor.ServiceSnapshot) : list (str * JValue) :=
  [(lit "name", JString (Supervisor.snap_name s));
   (lit "state", JString (lit (Supervisor.service_state_name (Supervisor.snap_state s))));
   (lit "last_ok_ms_ago", JRaw (num (last_ok_ms_ago now s)));
   (lit "consecutive_failures", JRaw (num (Supervisor.snap_consecutive_failures s)));
   (lit "total_probes", JRaw (num (Supervisor.snap_total_probes s)));
   (lit "total_failures", JRaw (num (Supervisor.snap_total_failures s)));
   (lit "last_http_status", JRaw (num (Supervisor.snap_http_status s)))].
Definition apm_says (fmt_2f : Q → str) (a : ApmStats) : list (str * JValue) :=
  [(lit "active", JRaw (boolean (active a))); (lit "delay_ms", JRaw (num (delay_ms a)));
   (lit "erle_db", JRaw (match erle a with None => lit "null" | Some e => fmt_2f e end));
   (lit "frames_processed", JRaw (num (frames_processed a)))].

(** ** Lemmas *)

(** *** Reading *)

Definition reads (t : str) (o : list (str * JValue)) : Prop := ∀ rest, read_flat (t ++ rest) = Some (o, rest).
Definition renders_node (m : str) (kv : str * Node) : Prop := ∀ c rest,
  c = ","%char ∨ c = "}"%char → read_node (m ++ c :: rest) = Some (kv.1, kv.2, c :: rest).
Definition object_text (m : str) (ms : list str) : str := "{"%char :: members m ms ++ ["}"%char].

Lemma members_cons m m' ms : members m (m' :: ms) = m ++ ","%char :: members m' ms.
Proof. done. Qed.
Lemma members_length m ms : length ms ≤ length (members m ms).
Proof.
  unfold members. rewrite length_app. cut (length ms ≤ length (flat_map (cons ","%char) ms)); [lia|].
  induction ms as [|x ms IH]; cbn; [lia|]. rewrite length_app. lia.
Qed.

Lemma read_object_text m ms kv kvs : renders m kv → Forall2 renders ms kvs → reads (object_text m ms) (kv :: kvs).
Proof.
  intros Hm H rest. unfold object_text. cbn [app read_flat]. rewrite <- app_assoc. cbn [app].
  generalize (members_length m ms). intros Hl. assert (length ms < S (length (members m ms ++ "}"%char :: rest))) as Hf
    by (rewrite length_app; lia). clear Hl. revert Hf. generalize (S (length (members m ms ++ "}"%char :: rest))). intros fuel.
  revert m kv fuel Hm. induction H as [|m' kv' ms kvs Hm' H IH]; intros m [k v] [|fuel] Hm Hf; cbn [length] in Hf; try lia.
  - unfold members. cbn [flat_map app read_fields]. rewrite app_nil_r, Hm by auto. done.
  - rewrite members_cons, <- app_assoc. cbn [app read_fields]. rewrite Hm by auto. cbn [fst snd]. by rewrite (IH m' kv' fuel) by (done || lia).
Qed.

Lemma read_list_items ts os rest : Forall2 reads ts os →
  read_list (match ts with [] => [] | t :: ts => members t ts end ++ "]"%char :: rest) = Some (os, rest).
Proof.
  destruct 1 as [|t o ts os Ht H]; [done|]. unfold read_list.
  assert (∃ x, members t ts ++ "]"%char :: rest = "{"%char :: x) as [x Hx].
  { specialize (Ht []). unfold read_flat in Ht. rewrite app_nil_r in Ht. destruct t as [|c t]; [done|].
    exists (t ++ flat_map (cons ","%char) ts ++ "]"%char :: rest). unfold members. cbn [app]. rewrite <- app_assoc.
    destruct c as [[] [] [] [] [] [] [] []]; done. }
  pose proof (members_length t ts) as Hl. rewrite Hx. rewrite <- Hx.
  assert (length ts < S (length (members t ts ++ "]"%char :: rest))) as Hf by (rewrite length_app; lia).
  clear Hl Hx x. revert Hf. generalize (S (length (members t ts ++ "]"%char :: rest))). intros fuel.
  revert t o fuel Ht. induction H as [|t' o' ts os Ht' H IH]; intros t o [|fuel] Ht Hf; cbn [length] in Hf; try lia.
  - unfold members. cbn [flat_map app read_items]. by rewrite app_nil_r, Ht.
  - rewrite members_cons, <- app_assoc. cbn [app read_items]. rewrite Ht. by rewrite (IH t' o' fuel) by (done || lia).
Qed.

Lemma read_document_members m ms kv kvs :
  renders_node m kv → Forall2 renders_node ms kvs →
  read_document ("{"%char :: members m ms ++ ["}"; "010"]%char) = Some (kv :: kvs).
Proof.
  intros Hm H. unfold read_document. pose proof (members_length m ms) as Hl.
  assert (length ms < S (length (members m ms ++ ["}"; "010"]%char))) as Hf by (rewrite length_app; lia).
  clear Hl. revert Hf. generalize (S (length (members m ms ++ ["}"; "010"]%char))). intros fuel.
  revert m kv fuel Hm. induction H as [|m' kv' ms kvs Hm' H IH]; intros m [k v] [|fuel] Hm Hf; cbn [length] in Hf; try lia.
  - unfold members. cbn [flat_map app read_nodes]. rewrite app_nil_r, Hm by auto. done.
  - rewrite members_cons, <- app_assoc. cbn [app read_nodes]. rewrite Hm by auto. cbn [fst snd]. by rewrite (IH m' kv' fuel) by (done || lia).
Qed.

(** *** Writing *)

Definition opens (n : str) : bool := match n with [] => true | c :: _ => bool_decide (c ∈ ["{"; "["]%char) end.
Definition leaf_ok (v : JValue) : Prop := match v with JString _ => True | JRaw n => opens n = false end.

Lemma renders_leaf m k v : renders m (k, v) → leaf_ok v → renders_node m (k, Leaf v).
Proof.
  intros H Hv c rest Hc. specialize (H c rest Hc). cbn [fst snd] in *. unfold read_node. rewrite H. cbn [fmap option_fmap option_map].
  destruct (m ++ c :: rest) as [|q s]; [done|]. cbn [read_member read_key] in *. destruct (decide (q = quote)); [|done].
  destruct (read_string s) as [[k' [|x s']]|]; [done| |done].
  destruct (ascii_dec x ":"%char) as [->|Hx].
  2: { by destruct x as [[] [] [] [] [] [] [] []]. }
  destruct s' as [|d s']; [done|]. cbn [read_value] in H. destruct (decide (d = quote)) as [->|Hd]; [done|].
  destruct (read_raw (d :: s')) as [n r] eqn:Er. cbn in H. injection H as -> <- ->. cbn in Hv.
  cbn [read_raw] in Er. case_decide; [by injection Er as <- _|]. destruct (read_raw s') as [n' r']. injection Er as <- <-.
  cbn in Hv. apply bool_decide_eq_false in Hv.
  destruct d as [[] [] [] [] [] [] [] []]; try done; exfalso; apply Hv; set_solver.
Qed.

Lemma renders_object k t o : Forall Log.plain k → reads t o → (∃ t', t = "{"%char :: t') →
  renders_node (quote :: k ++ quote :: ":"%char :: t) (k, Object o).
Proof.
  intros Hk Ht [t' ->] c rest _. unfold read_node. cbn [app read_key]. rewrite decide_True by done.
  rewrite <- app_assoc. cbn [app]. rewrite <- (Log.escape_plain k) at 1 by done. rewrite (read_quoted Log.escape_char).
  specialize (Ht (c :: rest)). cbn [app] in Ht. by rewrite Ht.
Qed.

Lemma renders_objects k ts os : Forall Log.plain k → Forall2 reads ts os →
  renders_node (quote :: k ++ quote :: ":"%char :: "["%char :: match ts with [] => [] | t :: ts => members t ts end ++ ["]"%char])
    (k, Objects os).
Proof.
  intros Hk Ht c rest _. unfold read_node. cbn [app read_key]. rewrite decide_True by done.
  rewrite <- app_assoc. cbn [app]. rewrite <- (Log.escape_plain k) at 1 by done. rewrite (read_quoted Log.escape_char).
  rewrite <- app_assoc. cbn [app]. by rewrite (read_list_items ts os (c :: rest)).
Qed.

Definition key_text (k : string) (v : str) : str := quote :: lit k ++ quote :: ":"%char :: quote :: v ++ [quote].
Definition key_raw (k : string) (v : str) : str := quote :: lit k ++ quote :: ":"%char :: v.

(** A text that can stand as a number, [true] or [null]. *)
Definition bare (n : str) : Prop :=
  opens n = false ∧ (∃ d n', n = d :: n' ∧ d ≠ quote) ∧ Forall (λ x, x ≠ ","%char ∧ x ≠ "}"%char) n.

Lemma renders_key_text k v : Forall Log.plain (lit k) → Forall Log.plain v → renders (key_text k v) (lit k, JString v).
Proof.
  intros Hk Hv. unfold key_text. pose proof (renders_string Log.escape_char (lit k) v) as H.
  by rewrite !Log.escape_plain in H by done.
Qed.
Lemma renders_key_raw k v : Forall Log.plain (lit k) → bare v → renders (key_raw k v) (lit k, JRaw v).
Proof.
  intros Hk (_ & Hd & Hv). unfold key_raw. pose proof (renders_raw Log.escape_char (lit k) v Hd Hv) as H.
  by rewrite Log.escape_plain in H by done.
Qed.

Lemma digits_bare n : n ≠ [] → Forall (λ c, is_digit c ∨ c = "-"%char) n → bare n.
Proof.
  intros Hn H. assert (∀ c, is_digit c ∨ c = "-"%char → c ∉ [quote; "{"; "["; ","; "}"]%char) as Hc.
  { intros c [Hd| ->]; [|by apply (bool_decide_unpack _)]. intros Hi. unfold is_digit in Hd.
    repeat (apply elem_of_cons in Hi as [->|Hi]; [vm_compute in Hd; by destruct Hd|]). by apply elem_of_nil in Hi. }
  split_and!.
  - destruct H as [|d n Hd _]; [done|]. apply Hc in Hd. cbn. apply bool_decide_eq_false. set_solver.
  - destruct H as [|d n Hd _]; [done|]. apply Hc in Hd. exists d, n. split; [done|set_solver].
  - eapply Forall_impl; [exact H|]. intros c Hd%Hc. set_solver.
Qed.

Lemma num_bare z : bare (num z).
Proof.
  unfold num. destruct (decide (0 <= z)%Z) as [Hz|Hz].
  - destruct (pretty_digits z Hz) as [Hd Hn]. apply digits_bare; [done|]. eapply Forall_impl; [exact Hd|by left].
  - destruct z as [|p|p]; [lia|lia|]. change (lit (pretty (Z.neg p))) with ("-"%char :: lit (pretty (Z.pos p))).
    apply digits_bare; [done|]. constructor; [by right|]. eapply Forall_impl; [by apply (pretty_digits (Z.pos p))|by left].
Qed.
Lemma boolean_bare b : bare (boolean b).
Proof. destruct b; (split; [reflexivity|]; split; [by eexists _, _|by repeat constructor]). Qed.
Lemma null_bare : bare (lit "null").
Proof. split; [reflexivity|]. split; [by eexists _, _|by repeat constructor]. Qed.

(** *** The texts as members *)

Ltac literals := repeat match goal with |- context [jlit ?s] => let v := eval vm_compute in (jlit s) in change (jlit s) with v end.
Ltac texts := literals; repeat (progress (cbn [app flat_map]; rewrite <- ?app_assoc)); rewrite ?app_nil_r; reflexivity.

Definition fsm_member (snap : Fsm.FsmSnapshot) : str * list str :=
  (key_text "state" (lit (Fsm.state_to_string (Fsm.snap_state snap))),
   [key_raw "active_turn" (num (Fsm.snap_active_turn snap));
    key_text "outcome" (lit (Fsm.outcome_to_string (Fsm.snap_outcome snap)));
    key_raw "sentences_played" (num (Fsm.snap_sentences_played snap));
    key_raw "turns_completed" (num (Fsm.snap_turns_completed snap));
    key_raw "turns_interrupted" (num (Fsm.snap_turns_interrupted snap));
    key_raw "turns_discarded" (num (Fsm.snap_turns_discarded snap))]).
Lemma fsm_fields_members snap : fsm_fields snap = members (fsm_member snap).1 (fsm_member snap).2.
Proof. unfold fsm_fields, fsm_member, members, key_text, key_raw. cbn [fst snd]. texts. Qed.

Definition service_member (now : Z) (s : Supervisor.ServiceSnapshot) : str * list str :=
  (key_text "name" (Supervisor.snap_name s),
   [key_text "state" (lit (Supervisor.service_state_name (Supervisor.snap_state s)));
    key_raw "last_ok_ms_ago" (num (last_ok_ms_ago now s));
    key_raw "consecutive_failures" (num (Supervisor.snap_consecutive_failures s));
    key_raw "total_probes" (num (Supervisor.snap_total_probes s));
    key_raw "total_failures" (num (Supervisor.snap_total_failures s));
    key_raw "last_http_status" (num (Supervisor.snap_http_status s))]).
Lemma service_json_object now s : service_json now s = object_text (service_member now s).1 (service_member now s).2.
Proof. unfold service_json, service_member, object_text, members, key_text, key_raw. cbn [fst snd]. texts. Qed.

Definition apm_member (fmt_2f : Q → str) (a : ApmStats) : str * list str :=
  (key_raw "active" (boolean (active a)),
   [key_raw "delay_ms" (num (delay_ms a));
    key_raw "erle_db" (match erle a with None => lit "null" | Some e => fmt_2f e end);
    key_raw "frames_processed" (num (frames_processed a))]).
Lemma apm_json_object fmt_2f a :
  apm_json fmt_2f a = ","%char :: quote :: lit "apm" ++ quote :: ":"%char :: object_text (apm_member fmt_2f a).1 (apm_member fmt_2f a).2.
Proof. unfold apm_json, apm_member, object_text, members, key_raw. cbn [fst snd]. destruct (erle a); texts. Qed.

Lemma services_go clock i ss :
  services_json clock (S i) ss = flat_map (cons ","%char) (imap (λ j, service_json (clock (S i + j))) ss).
Proof.
  revert i. induction ss as [|s ss IH]; intros i; [done|]. cbn [services_json imap flat_map]. rewrite decide_False by done.
  rewrite IH, Nat.add_0_r. cbn [app].
  assert (imap (λ j, service_json (clock (S (S i) + j))) ss = imap ((λ j, service_json (clock (S i + j))) ∘ S) ss) as ->; [|done].
  apply imap_ext. intros j x _. cbn. by rewrite Nat.add_succ_r.
Qed.
Lemma services_members clock ss :
  services_json clock 0 ss =
  match imap (λ i, service_json (clock i)) ss with [] => [] | t :: ts => members t ts end.
Proof. destruct ss as [|s ss]; [done|]. cbn [services_json imap]. rewrite decide_True, services_go by done. done. Qed.

Lemma names_plain st o ss ps : Forall Log.plain (lit (Fsm.state_to_string st)) ∧ Forall Log.plain (lit (Fsm.outcome_to_string o)) ∧
  Forall Log.plain (lit (Supervisor.service_state_name ss)) ∧ Forall Log.plain (lit (Supervisor.Pipeline.pipeline_state_name ps)).
Proof. destruct st, o, ss, ps; split_and!; by repeat constructor. Qed.

Ltac members_ok := repeat first
  [ apply renders_key_text; [by repeat constructor|] | apply renders_key_raw; [by repeat constructor|]
  | apply num_bare | apply boolean_bare | apply null_bare | apply List.Forall2_nil | apply List.Forall2_cons ].

Lemma service_reads now s : Forall Log.plain (Supervisor.snap_name s) → reads (service_json now s) (service_says now s).
Proof.
  intros Hn. rewrite service_json_object. apply read_object_text; [by members_ok|].
  pose proof (names_plain Fsm.Idle Fsm.NotStarted (Supervisor.snap_state s) Supervisor.Pipeline.Ok) as (_ & _ & H & _). by members_ok.
Qed.

Lemma apm_reads fmt_2f a : (∀ q, bare (fmt_2f q)) →
  reads (object_text (apm_member fmt_2f a).1 (apm_member fmt_2f a).2) (apm_says fmt_2f a).
Proof. intros Hf. unfold apm_member, apm_says. destruct (erle a); apply read_object_text; members_ok; apply Hf. Qed.

Definition fsm_nodes (fsm : option Fsm.FsmSnapshot) : list (str * Node) :=
  match fsm with None => [(lit "state", text (lit "unknown"))] | Some snap => fsm_says snap end.
Definition extra_nodes (fmt_2f : Q → str) (clock : nat → Z) (st : Supervisor.Pipeline.PipelineState)
    (ss : list Supervisor.ServiceSnapshot) (apm : option ApmStats) : list (str * Node) :=
  [(lit "pipeline_state", text (lit (Supervisor.Pipeline.pipeline_state_name st)));
   (lit "services", Objects (imap (λ i, service_says (clock i)) ss))] ++
  match apm with Some a => [(lit "apm", Object (apm_says fmt_2f a))] | None => [] end.

Lemma fsm_body fsm : ∃ m ms kv kvs, match fsm with None => jlit "'state':'unknown'" | Some snap => fsm_fields snap end = members m ms ∧
  renders_node m kv ∧ Forall2 renders_node ms kvs ∧ kv :: kvs = fsm_nodes fsm.
Proof.
  destruct fsm as [snap|].
  - rewrite fsm_fields_members. unfold fsm_member, fsm_nodes, fsm_says. cbn [fst snd].
    pose proof (names_plain (Fsm.snap_state snap) (Fsm.snap_outcome snap) Supervisor.Healthy Supervisor.Pipeline.Ok) as (H1 & H2 & _).
    eexists _, _, _, _. split; [done|]. split_and!; [..|done]; repeat first [apply List.Forall2_nil|apply List.Forall2_cons];
      (apply renders_leaf; [members_ok; done|try apply num_bare; done]).
  - exists (key_text "state" (lit "unknown")), [], (lit "state", text (lit "unknown")), []. split_and!; [by vm_compute| |constructor|done].
    apply renders_leaf; [|done]. apply renders_key_text; by repeat constructor.
Qed.

Lemma extra_members fmt_2f clock st ss apm :
  (∀ q, bare (fmt_2f q)) → Forall (λ s, Forall Log.plain (Supervisor.snap_name s)) ss →
  ∃ ms, ","%char :: status_extra fmt_2f clock st ss apm = flat_map (cons ","%char) ms ∧
    Forall2 renders_node ms (extra_nodes fmt_2f clock st ss apm).
Proof.
  intros Hf Hs. set (ts := imap (λ i, service_json (clock i)) ss).
  set (services := quote :: lit "services" ++ quote :: ":"%char :: "["%char :: match ts with [] => [] | t :: ts => members t ts end ++ ["]"%char]).
  set (apms := match apm with
    | Some a => [quote :: lit "apm" ++ quote :: ":"%char :: object_text (apm_member fmt_2f a).1 (apm_member fmt_2f a).2] | None => [] end).
  exists (key_text "pipeline_state" (lit (Supervisor.Pipeline.pipeline_state_name st)) :: services :: apms). split.
  - unfold status_extra, services, apms, key_text. rewrite services_members. fold ts. destruct apm as [a|]; [rewrite apm_json_object|]; texts.
  - unfold extra_nodes. apply List.Forall2_cons; [|apply List.Forall2_cons].
    + apply renders_leaf; [|done]. apply renders_key_text; [by repeat constructor|apply (names_plain Fsm.Idle Fsm.NotStarted Supervisor.Healthy)].
    + apply renders_objects; [by repeat constructor|]. unfold ts. clear ts services apms. revert clock.
      induction Hs as [|s ss Hn _ IH]; intros clock; [constructor|]. cbn [imap].
      apply List.Forall2_cons; [by apply service_reads|exact (IH (clock ∘ S))].
    + unfold apms. destruct apm as [a|]; [|constructor]. apply List.Forall2_cons; [|constructor].
      apply renders_object; [by repeat constructor|by apply apm_reads|by eexists].
Qed.

(** ** Theorems *)

(** What /status says. The answer is one JSON document: the state machine's
    snapshot field by field (or an unknown state), and, when the supplier
    returns, the state of the pipeline, every service with its counters and
    the time since its last success, in order, and the echo canceller's
    figures when there is one; when the supplier throws the document is there
    without them. The names of the services need no escaping, and fmt prints
    a float as a bare number. *)
Theorem status_read fmt_2f clock fsm st ss apm :
  (∀ q, bare (fmt_2f q)) → Forall (λ s, Forall Log.plain (Supervisor.snap_name s)) ss →
  read_document (serialize_status fsm (Some (Some (status_extra fmt_2f clock st ss apm))))
  = Some (fsm_nodes fsm ++ extra_nodes fmt_2f clock st ss apm) ∧
  read_document (serialize_status fsm None) = Some (fsm_nodes fsm) ∧
  read_document (serialize_status fsm (Some None)) = Some (fsm_nodes fsm).
Proof.
  intros Hf Hs. destruct (fsm_body fsm) as (m & ms & kv & kvs & Hb & Hm & Hms & Hn).
  destruct (extra_members fmt_2f clock st ss apm Hf Hs) as (es & He & Hes).
  unfold serialize_status. rewrite Hb, <- Hn. split; [|split; by apply read_document_members].
  rewrite decide_False by (unfold status_extra; by vm_compute). rewrite He.
  change ((kv :: kvs) ++ ?l) with (kv :: kvs ++ l).
  assert ((members m ms ++ flat_map (cons ","%char) es) = members m (ms ++ es)) as ->
    by (unfold members; by rewrite flat_map_app, app_assoc).
  apply read_document_members; [done|by apply Forall2_app].
Qed.

Definition example_service : Supervisor.ServiceSnapshot :=
  Supervisor.MkSnap (lit "llm") Supervisor.Healthy 5000000 3000000 0 4 1 200 [] 0 true.

Example status_text :
  serialize_status None (Some (Some (status_extra (λ _, lit "12.50") (λ _, 5000000%Z) Supervisor.Pipeline.Ok
    [example_service] (Some (MkStats true (-1) None 7)))))
  = jlit "{'state':'unknown','pipeline_state':'ok','services':[{'name':'llm','state':'healthy','last_ok_ms_ago':2,'consecutive_failures':0,'total_probes':4,'total_failures':1,'last_http_status':200}],'apm':{'active':true,'delay_ms':-1,'erle_db':null,'frames_processed':7}}"
    ++ ["010"%char].
Proof. vm_compute. reflexivity. Qed.

Lemma status_read_witness :
  let fmt_2f (q : Q) := lit "12.50" in
  read_document (serialize_status None (Some (Some (status_extra fmt_2f (λ _, 5000000%Z) Supervisor.Pipeline.Ok
    [example_service] (Some (MkStats true 40 (Some 12%Q) 7))))))
  = Some (fsm_nodes None ++ extra_nodes fmt_2f (λ _, 5000000%Z) Supervisor.Pipeline.Ok [example_service]
      (Some (MkStats true 40 (Some 12%Q) 7))).
Proof.
  intros fmt_2f. apply (status_read fmt_2f (λ _, 5000000%Z) None Supervisor.Pipeline.Ok [example_service]).
  - intros q. split; [reflexivity|]. split; [eexists _, _; split; [reflexivity|discriminate]|repeat constructor; discriminate].
  - repeat constructor.
Defined.
