(* ===== verification/Db.v ===== *)
(** * The database handle (src/src/memory/db.hpp, db.cpp)

    The wrappers of sqlite3: who owns a handle and closes it, binding and
    reading of values, opening with its pragmas, and the transaction guard.
    SQLite is a parameter; what is assumed of its transactions is the class
    [Transactional]. *)
From S2P Require Import Prelude.

(** ** Ownership

    [Statement] and [Database] hold one handle each and differ only in the
    call that closes it. The objects alive with their handle (null: [None]),
    and the handles closed, in order. *)
Record heap := MkHeap { objects : gmap nat (option nat); closed : list nat }.
#[global] Instance eta_heap : Eta heap := λ s, MkHeap (objects s) (closed s).
Definition heap_new : heap := MkHeap ∅ [].

(** Construction from what [sqlite3_prepare_v2] or [sqlite3_open_v2] gave;
    move construction, move assignment, destruction. *)
Inductive Op := Construct (o : nat) (h : option nat) | MoveConstruct (o src : nat) | MoveAssign (o src : nat) | Destroy (o : nat).

Definition handle_of (o : nat) (s : heap) : option nat := objects s !! o ≫= id.
Definition finalize (o : nat) (s : heap) : heap :=
  match handle_of o s with Some h => s <| closed ::= λ l, l ++ [h] |> | None => s end.

Definition step (op : Op) (s : heap) : heap :=
  match op with
  | Construct o h => s <| objects ::= <[o := h]> |>
  | MoveConstruct o src =>
      s <| objects ::= λ m, <[src := None]> (<[o := handle_of src s]> m) |>
  | MoveAssign o src =>
      if decide (o = src) then s
      else (finalize o s) <| objects ::= λ m, <[src := None]> (<[o := handle_of src s]> m) |>
  | Destroy o => (finalize o s) <| objects ::= delete o |>
  end.
Fixpoint run (ops : list Op) (s : heap) : heap :=
  match ops with [] => s | op :: ops => run ops (step op s) end.

(** ** Values *)

Inductive Value := Null | Int (z : Z) | Real (d : spec_float) | Text (s : str).

Definition bind_text_opt (v : option str) : Value := match v with Some s => Text s | None => Null end.
Definition bind_int_opt (v : option Z) : Value := match v with Some z => Int z | None => Null end.
Definition column_is_null (v : Value) : bool := match v with Null => true | _ => false end.

Section values.
(** SQLite's conversions of a value of another type. *)
Context (to_int : Value → Z) (to_text : Value → option str).
Definition column_int64 (v : Value) : Z := match v with Int z => z | v => to_int v end.
Definition column_text (v : Value) : str := match v with Text s => s | Null => [] | v => default [] (to_text v) end.
Definition column_text_opt (v : Value) : option str := if column_is_null v then None else Some (column_text v).
Definition column_int64_opt (v : Value) : option Z := if column_is_null v then None else Some (column_int64 v).
End values.

Inductive StepResult := Row | Done | Error.
(** The codes of [sqlite3_step]. *)
Definition step_result (rc : Z) : StepResult :=
  if decide (rc = 100)%Z then Row else if decide (rc = 101)%Z then Done else Error.

(** ** Statements without rows, transactions *)

Definition begin_sql (immediate : bool) : str := lit (if immediate then "BEGIN IMMEDIATE;" else "BEGIN;").
Definition commit_sql : str := lit "COMMIT;".
Definition rollback_sql : str := lit "ROLLBACK;".

Section connection.
(** [sqlite3_exec]: success, or its message if any. *)
Context {C : Type} (sqlite_exec : str → C → option (option str) * C).

(** A connection with the statements run on it. *)
Record conn := MkConn { db : C; log : list str }.
Definition exec (sql : str) (c : conn) : option str * conn :=
  let '(rc, x) := sqlite_exec sql (db c) in
  ((λ msg, lit "sqlite exec: " ++ default (lit "unknown") msg) <$> rc, MkConn x (log c ++ [sql])).

(** The transaction guard: [active_] and the connection. *)
Record Transaction := MkTx { active_ : bool; tx_conn : conn }.
Definition tx_begin (immediate : bool) (c : conn) : Transaction := MkTx true (exec (begin_sql immediate) c).2.
Definition tx_commit (t : Transaction) : option str * Transaction :=
  if active_ t then let '(err, c) := exec commit_sql (tx_conn t) in (err, MkTx false c) else (None, t).
Definition tx_rollback (t : Transaction) : Transaction :=
  if active_ t then MkTx false (exec rollback_sql (tx_conn t)).2 else t.
Definition tx_end (t : Transaction) : conn := tx_conn (tx_rollback t).

(** The scope of a guard: the statements run in it, its two methods. *)
Inductive Call := Exec (sql : str) | Commit | Rollback.
Definition tx_step (k : Call) (t : Transaction) : Transaction :=
  match k with
  | Exec sql => MkTx (active_ t) (exec sql (tx_conn t)).2
  | Commit => (tx_commit t).2
  | Rollback => tx_rollback t
  end.
Definition scope (immediate : bool) (ks : list Call) (c : conn) : conn :=
  tx_end (foldl (flip tx_step) (tx_begin immediate c) ks).

(** [Database::open]; [opened]: the result of [sqlite3_open_v2], [inr] with
    its message and whether there is a handle all the same. The result: the
    connection or the error, and whether a handle was closed on the way. *)
Definition kPragmas : str :=
  lit "PRAGMA journal_mode=WAL;PRAGMA synchronous=NORMAL;PRAGMA foreign_keys=ON;PRAGMA temp_store=MEMORY;PRAGMA busy_timeout=5000;".
Definition kUserVersion : str := lit "PRAGMA user_version=1;".
Definition open (schema : str) (opened : C + str * bool) : (conn + str) * bool :=
  match opened with
  | inr (msg, handle) => (inr (lit "sqlite open failed: " ++ msg), handle)
  | inl x =>
      let '(e, c) := exec kPragmas (MkConn x []) in
      match e with Some e => (inr e, true) | None =>
      let '(e, c) := exec schema c in
      match e with Some e => (inr e, true) | None =>
      let '(e, c) := exec kUserVersion c in
      match e with Some e => (inr e, true) | None => (inl c, false) end end end
  end.
End connection.

(** ** Specification *)

(** What SQLite documents: BEGIN fails inside a transaction and starts one
    otherwise when it succeeds; COMMIT and ROLLBACK end one when they succeed,
    and a COMMIT that fails (SQLITE_BUSY) may leave it open; other statements
    do not end one when they succeed. *)
Class Transactional {C} (sqlite_exec : str → C → option (option str) * C) (in_tx : C → bool) : Prop := {
  begin_ok i x : (sqlite_exec (begin_sql i) x).1 = None → in_tx x = false ∧ in_tx (sqlite_exec (begin_sql i) x).2 = true;
  begin_err i x : (sqlite_exec (begin_sql i) x).1 ≠ None → in_tx (sqlite_exec (begin_sql i) x).2 = in_tx x;
  begin_nested i x : in_tx x = true → (sqlite_exec (begin_sql i) x).1 ≠ None;
  commit_ok x : (sqlite_exec commit_sql x).1 = None → in_tx (sqlite_exec commit_sql x).2 = false;
  rollback_done x : in_tx (sqlite_exec rollback_sql x).2 = false;
}.

(** An operation on objects that are alive, or new; a new handle is new. *)
Definition valid (op : Op) (s : heap) : Prop :=
  match op with
  | Construct o h => objects s !! o = None ∧ ∀ x, h = Some x → x ∉ closed s ∧ ∀ o', handle_of o' s ≠ Some x
  | MoveConstruct o src => objects s !! o = None ∧ is_Some (objects s !! src)
  | MoveAssign o src => is_Some (objects s !! o) ∧ is_Some (objects s !! src)
  | Destroy o => is_Some (objects s !! o)
  end.
Fixpoint valid_run (ops : list Op) (s : heap) : Prop :=
  match ops with [] => True | op :: ops => valid op s ∧ valid_run ops (step op s) end.
Definition opened (ops : list Op) : list nat :=
  omap (λ op, match op with Construct _ h => h | _ => None end) ops.

(** A handle has one owner or is closed, once; none is lost. *)
Record owned (all : list nat) (s : heap) : Prop := {
  o_unique o o' h : handle_of o s = Some h → handle_of o' s = Some h → o = o';
  o_open o h : handle_of o s = Some h → h ∉ closed s;
  o_once : NoDup (closed s);
  o_all h : h ∈ all ↔ h ∈ closed s ∨ ∃ o, handle_of o s = Some h;
}.

Lemma handle_insert o h s m : handle_of o (s <| objects ::= λ _, <[o := h]> m |>) = h.
Proof. unfold handle_of. cbn. by rewrite lookup_insert_eq. Qed.
Lemma handle_lookup o s : handle_of o s = objects s !! o ≫= id.
Proof. done. Qed.

Lemma owned_construct all o h s :
  owned all s → valid (Construct o h) s → owned (all ++ option_list h) (step (Construct o h) s).
Proof.
  intros [H1 H2 H3 H4] [Ho Hh]. assert (∀ o', handle_of o' (step (Construct o h) s) = if decide (o' = o) then h else handle_of o' s) as E.
  { intros o'. unfold handle_of. cbn. case_decide; subst; [by rewrite lookup_insert_eq|by rewrite lookup_insert_ne]. }
  assert (handle_of o s = None) as Hn by (unfold handle_of; by rewrite Ho).
  split.
  - intros o1 o2 x. rewrite !E. destruct (decide (o1 = o)), (decide (o2 = o)); subst; intros Ha Hb; eauto;
      exfalso; [by apply (proj2 (Hh x Ha) o2)|by apply (proj2 (Hh x Hb) o1)].
  - intros o1 x. rewrite E. case_decide; [intros Ha; by apply Hh|apply H2].
  - done.
  - intros x. rewrite elem_of_app, H4. cbn [closed step set_field]. split.
    + intros [[?|[o1 Ho1]]|Hx]; [by left| |].
      * right. exists o1. rewrite E, decide_False; [done|]. by intros ->; rewrite Hn in Ho1.
      * right. exists o. rewrite E, decide_True by done. destruct h; cbn in Hx; set_solver.
    + intros [?|[o1 Ho1]]; [by left; left|]. rewrite E in Ho1. case_decide; [right; subst; set_solver|eauto].
Qed.

(** Moving a handle between objects, and closing one. *)
Lemma owned_same all s s' :
  owned all s → closed s' = closed s → (∃ f : nat → nat, (∀ o h, handle_of o s' = Some h → handle_of (f o) s = Some h) ∧
    (∀ o o' h, handle_of o s' = Some h → handle_of o' s' = Some h → f o = f o' → o = o')) →
  (∀ o h, handle_of o s = Some h → ∃ o', handle_of o' s' = Some h) → owned all s'.
Proof.
  intros [H1 H2 H3 H4] Hc (f & Hf & Hi) Hb. split; rewrite ?Hc; try done.
  - intros o o' h Ha Hb'. apply (Hi o o' h Ha Hb'). eapply H1; eauto.
  - intros o h Ha. rewrite ?Hc. eauto.
  - intros h. rewrite H4. split; (intros [?|[o Ho]]; [by left|right]); eauto.
Qed.

Lemma owned_finalize all o s :
  owned all s → owned all ((finalize o s) <| objects ::= alter (λ _, None) o |>).
Proof.
  intros [H1 H2 H3 H4]. set (s' := (finalize o s) <| objects ::= _ |>).
  assert (∀ o', handle_of o' s' = if decide (o' = o) then None else handle_of o' s) as E.
  { intros o'. assert (objects s' = alter (λ _, None) o (objects s)) as Eo by (unfold s', finalize; by destruct (handle_of o s)).
    rewrite handle_lookup, Eo. destruct (decide (o' = o)) as [->|Hd].
    - rewrite lookup_alter_eq. by destruct (objects s !! o).
    - by rewrite lookup_alter_ne. }
  assert (closed s' = closed s ++ option_list (handle_of o s)) as Ec
    by (unfold s', finalize; destruct (handle_of o s); cbn; by rewrite ?app_nil_r).
  split; rewrite ?Ec.
  - intros o1 o2 h. rewrite !E. repeat case_decide; subst; try done. apply H1.
  - intros o1 h. rewrite E. case_decide as Hd; [done|]. intros Ho1. rewrite elem_of_app. intros [Hx|Hx]; [by eapply H2|].
    destruct (handle_of o s) as [x|] eqn:Ex; cbn in Hx; [|set_solver]. apply list_elem_of_singleton in Hx as ->. by apply Hd, (H1 _ _ x).
  - apply NoDup_app. split; [done|]. destruct (handle_of o s) as [x|] eqn:Ex; [|split; [set_solver|constructor]].
    split; [|apply NoDup_singleton]. intros y Hy Hx. apply list_elem_of_singleton in Hx as ->. by eapply H2.
  - intros h. rewrite H4, elem_of_app. split.
    + intros [?|[o1 Ho1]]; [by left; left|]. destruct (decide (o1 = o)) as [->|Hd].
      * left. right. rewrite Ho1. by left.
      * right. exists o1. by rewrite E, decide_False.
    + intros [[?|Hx]|[o1 Ho1]]; [by left| |].
      * destruct (handle_of o s) as [x|] eqn:Ex; cbn in Hx; [|set_solver]. apply list_elem_of_singleton in Hx as ->. eauto.
      * rewrite E in Ho1. case_decide; [done|eauto].
Qed.

Lemma finalize_objects o s : objects (finalize o s) = objects s.
Proof. unfold finalize. by destruct (handle_of o s). Qed.

Lemma finalized_handle o x s :
  handle_of x ((finalize o s) <| objects ::= alter (λ _, None) o |>) = if decide (x = o) then None else handle_of x s.
Proof.
  rewrite !handle_lookup. cbn. rewrite finalize_objects. destruct (decide (x = o)) as [->|Hd].
  - rewrite lookup_alter_eq. by destruct (objects s !! o).
  - by rewrite lookup_alter_ne.
Qed.

Lemma owned_ext all s s' : owned all s → closed s' = closed s → (∀ x, handle_of x s' = handle_of x s) → owned all s'.
Proof.
  intros H Hc He. apply (owned_same all s); [done|done| |].
  - exists id. split; [|done]. intros o h. by rewrite He.
  - intros o h Ho. exists o. by rewrite He.
Qed.

Lemma owned_move all o src s s' :
  owned all s → handle_of o s = None → o ≠ src → closed s' = closed s →
  (∀ x, handle_of x s' = if decide (x = src) then None else if decide (x = o) then handle_of src s else handle_of x s) →
  owned all s'.
Proof.
  intros H Hn Hne Hc He. apply (owned_same all s); [done|done| |].
  - exists (λ x, if decide (x = o) then src else x). split.
    + intros x h. rewrite He. by repeat case_decide; subst.
    + intros x y h. rewrite !He. repeat case_decide; subst; intros; congruence.
  - intros x h Hx. destruct (decide (x = src)) as [->|Hd].
    + exists o. by rewrite He, decide_False, decide_True.
    + exists x. rewrite He, decide_False by done. rewrite decide_False; [done|]. by intros ->; rewrite Hn in Hx.
Qed.

Lemma moved_handle o src h m s x : objects s = <[src := None]> (<[o := h]> m) →
  handle_of x s = if decide (x = src) then None else if decide (x = o) then h else m !! x ≫= id.
Proof.
  intros E. rewrite handle_lookup, E. destruct (decide (x = src)) as [->|H1]; [by rewrite lookup_insert_eq|].
  rewrite lookup_insert_ne by done. destruct (decide (x = o)) as [->|H2]; [by rewrite lookup_insert_eq|by rewrite lookup_insert_ne].
Qed.

Lemma owned_step all op s :
  owned all s → valid op s → owned (all ++ match op with Construct _ h => option_list h | _ => [] end) (step op s).
Proof.
  destruct op as [o h|o src|o src|o]; intros H Hv; [by apply owned_construct|rewrite app_nil_r; cbn [step]..].
  - destruct Hv as [Ho [hs Hs]]. apply (owned_move all o src s); [done|by rewrite handle_lookup, Ho|congruence|done|].
    intros x. apply moved_handle. done.
  - destruct (decide (o = src)) as [->|Hne]; [done|]. pose proof (owned_finalize all o s H) as H1.
    eapply (owned_move all o src _ _ H1); [by rewrite finalized_handle, decide_True|done|done|].
    intros x. rewrite !finalized_handle, (decide_False (P:=src = o)) by done. etrans; [by apply moved_handle|].
    rewrite finalize_objects. destruct (decide (x = src)), (decide (x = o)); done.
  - pose proof (owned_finalize all o s H) as H1. apply (owned_ext all _ _ H1); [done|].
    intros x. rewrite finalized_handle, !handle_lookup. cbn. rewrite finalize_objects.
    case_decide; subst; [by rewrite lookup_delete_eq|by rewrite lookup_delete_ne].
Qed.

Lemma owned_run all ops s : owned all s → valid_run ops s → owned (all ++ opened ops) (run ops s).
Proof.
  revert all s. induction ops as [|op ops IH]; intros all s H Hv; cbn [opened omap list_omap run]; [by rewrite app_nil_r|].
  destruct Hv as [Hv Hr]. apply (owned_step all op) in H; [|done]. apply IH in H; [|done].
  destruct op as [o [h|]| | |]; cbn in H |- *; rewrite <- ?app_assoc, ?app_nil_r in H; done.
Qed.

(** ** Theorems *)

(** Ownership. Over any constructions, moves, assignments (also to
    itself) and destructions of objects that are alive, no handle has two
    owners, none is closed twice or while an object holds it, and every handle
    ever opened is held or closed; so when no object is left each has been
    closed exactly once. *)
Theorem handles_closed_once ops :
  valid_run ops heap_new →
  let s := run ops heap_new in
  owned (opened ops) s ∧ (objects s = ∅ → ∀ h, h ∈ opened ops ↔ h ∈ closed s).
Proof.
  intros Hv s. assert (owned [] heap_new) as H.
  { split; [done|done|constructor|]. intros h. split; [by intros ?%elem_of_nil|].
    intros [?%elem_of_nil|[o Ho]]; [done|]. unfold handle_of in Ho. cbn in Ho. by rewrite lookup_empty in Ho. }
  apply (owned_run [] ops) in H; [|done]. cbn [app] in H. fold s in H. split; [done|]. intros He h.
  rewrite (o_all _ _ H). split; [|by left]. intros [?|[o Ho]]; [done|]. unfold handle_of in Ho. by rewrite He, lookup_empty in Ho.
Qed.

Lemma handles_closed_once_witness :
  let ops := [Construct 0 (Some 7); MoveConstruct 1 0; Construct 2 (Some 8); MoveAssign 2 1; MoveAssign 2 2;
              Destroy 0; Destroy 1; Destroy 2] in
  closed (run ops heap_new) = [8; 7] ∧ owned (opened ops) (run ops heap_new).
Proof.
  intros ops. split; [reflexivity|]. apply handles_closed_once.
  split; [|split; [|split; [|split; [|split; [|split; [|split; [|split]]]]]]].
  - split; [reflexivity|]. intros x [= <-]. split; [by intros ?%elem_of_nil|]. intros o'. unfold handle_of. cbn.
    by rewrite lookup_empty.
  - split; [reflexivity|by eexists].
  - split; [reflexivity|]. intros x [= <-]. split; [by intros ?%elem_of_nil|]. intros o'.
    destruct (decide (o' = 0)) as [->|H0]; [vm_compute; discriminate|].
    destruct (decide (o' = 1)) as [->|H1]; [vm_compute; discriminate|].
    unfold handle_of. cbn. by rewrite !lookup_insert_ne, lookup_empty by done.
  - split; by eexists.
  - split; by eexists.
  - by eexists.
  - by eexists.
  - by eexists.
  - exact I.
Defined.

(** Binding and reading. *)
Lemma value_round_trip to_int to_text :
  (∀ v, column_text_opt to_text (bind_text_opt v) = v) ∧ (∀ v, column_int64_opt to_int (bind_int_opt v) = v).
Proof. split; by intros []. Qed.

Section transactions.
Context {C : Type} (sqlite_exec : str → C → option (option str) * C) (in_tx : C → bool).
Context `{!Transactional sqlite_exec in_tx}.
Abbreviation scope := (scope sqlite_exec).
Abbreviation exec := (exec sqlite_exec).
Abbreviation tx_step := (tx_step sqlite_exec).

(** What a scope runs besides its guard, and the first of its ends. *)
Definition guarded (k : Call) : list str := match k with Exec sql => [sql] | _ => [] end.
Definition end_of (k : Call) : option str := match k with Exec _ => None | Commit => Some commit_sql | Rollback => Some rollback_sql end.
(** A statement that does not start a transaction. *)
Definition quiet (sql : str) : Prop := ∀ x, in_tx (sqlite_exec sql x).2 = true → in_tx x = true.

Lemma exec_log sql c : log (exec sql c).2 = log c ++ [sql].
Proof. unfold Db.exec. by destruct (sqlite_exec sql (db c)). Qed.
Lemma exec_db sql c : db (exec sql c).2 = (sqlite_exec sql (db c)).2.
Proof. unfold Db.exec. by destruct (sqlite_exec sql (db c)). Qed.

Definition is_end (sql : str) : bool := bool_decide (sql ∈ [commit_sql; rollback_sql]).
Definition first_end (ks : list Call) : option str := head (omap end_of ks).
Definition ends (l : list str) : list str := filter (λ sql, is_end sql = true) l.

Lemma ends_snoc l sql : ends (l ++ [sql]) = ends l ++ if is_end sql then [sql] else [].
Proof.
  unfold ends. rewrite filter_app. f_equal. destruct (is_end sql) eqn:E; [by rewrite filter_cons_True|].
  rewrite filter_cons_False; [done|congruence].
Qed.

(** From any position of a scope: the guard's own end, once. *)
Lemma scope_ends ks t :
  Forall (λ sql, is_end sql = false) (flat_map guarded ks) →
  ends (log (tx_end sqlite_exec (foldl (flip tx_step) t ks)))
  = ends (log (tx_conn t)) ++ if active_ t then [default rollback_sql (first_end ks)] else [].
Proof.
  revert t. induction ks as [|k ks IH]; intros t Hq; cbn [foldl flat_map] in *.
  - unfold tx_end, tx_rollback. destruct (active_ t); [|by rewrite app_nil_r]. cbn [tx_conn].
    by rewrite exec_log, ends_snoc.
  - apply Forall_app in Hq as [Hk Hq]. rewrite IH by done. unfold flip. destruct k as [sql| |]; cbn [Db.tx_step active_ tx_conn].
    + cbn [guarded] in Hk. rewrite Forall_singleton in Hk. by rewrite exec_log, ends_snoc, Hk, app_nil_r.
    + unfold tx_commit. destruct (active_ t) eqn:E; [|by cbn; rewrite E].
      pose proof (exec_log commit_sql (tx_conn t)) as Hl. destruct (exec commit_sql (tx_conn t)) as [err c]. cbn in Hl |- *.
      rewrite Hl, ends_snoc, app_nil_r. done.
    + unfold tx_rollback. destruct (active_ t) eqn:E; [|by cbn; rewrite E]. cbn. rewrite exec_log, ends_snoc, app_nil_r. done.
Qed.

(** What keeps a transaction open past its scope. *)
Lemma scope_open ks t :
  Forall quiet (flat_map guarded ks) → in_tx (db (tx_end sqlite_exec (foldl (flip tx_step) t ks))) = true →
  if active_ t then first_end ks = Some commit_sql ∧ ∃ x, (sqlite_exec commit_sql x).1 ≠ None
  else in_tx (db (tx_conn t)) = true.
Proof.
  revert t. induction ks as [|k ks IH]; intros t Hq; cbn [foldl flat_map] in *.
  - unfold tx_end, tx_rollback. destruct (active_ t); [|done]. cbn [tx_conn]. rewrite exec_db. intros H.
    by rewrite (rollback_done (in_tx:=in_tx)) in H.
  - apply Forall_app in Hq as [Hk Hq]. intros H. apply IH in H; [|done]. unfold flip in H.
    destruct k as [sql| |]; cbn [Db.tx_step active_ tx_conn] in H.
    + cbn [guarded] in Hk. rewrite Forall_singleton in Hk. destruct (active_ t); [done|]. rewrite exec_db in H. by apply Hk.
    + unfold tx_commit in H. destruct (active_ t) eqn:E; [|by cbn in H; rewrite E in H].
      pose proof (exec_db commit_sql (tx_conn t)) as Hd. destruct (exec commit_sql (tx_conn t)) as [err c]. cbn [snd active_ tx_conn] in Hd, H.
      split; [done|]. exists (db (tx_conn t)). intros Hc. pose proof (commit_ok (in_tx:=in_tx) _ Hc) as Hx. rewrite <- Hd, H in Hx. done.
    + unfold tx_rollback in H. destruct (active_ t) eqn:E; [|by cbn in H; rewrite E in H]. cbn in H.
      by rewrite exec_db, (rollback_done (in_tx:=in_tx)) in H.
Qed.

(** The transaction guard. Whatever is run in its scope (other than COMMIT
    and ROLLBACK themselves) and however often its methods are called, it
    ends its transaction with exactly one statement, that of the first method
    called, ROLLBACK when none was; the connection is outside a transaction
    after the scope, unless the first method was commit and a COMMIT failed:
    the guard then counts as done. On a connection left inside, the BEGIN of
    the next guard fails, which its constructor does not report. *)
Theorem transaction_guard i ks c :
  Forall (λ sql, is_end sql = false ∧ quiet sql) (flat_map guarded ks) →
  let c' := scope i ks c in
  ends (log c') = ends (log c) ++ [default rollback_sql (first_end ks)] ∧
  (in_tx (db c') = true → first_end ks = Some commit_sql ∧ ∃ x, (sqlite_exec commit_sql x).1 ≠ None) ∧
  (in_tx (db c') = true → ∀ j, (exec (begin_sql j) c').1 ≠ None ∧ active_ (tx_begin sqlite_exec j c') = true).
Proof.
  intros Hq c'. assert (Forall (λ sql, is_end sql = false) (flat_map guarded ks) ∧ Forall quiet (flat_map guarded ks)) as [H1 H2]
    by by apply Forall_and. unfold c', Db.scope. split; [|split].
  - rewrite scope_ends by done. unfold tx_begin. cbn. rewrite exec_log, ends_snoc. destruct i; by rewrite app_nil_r.
  - intros H. by apply scope_open in H.
  - intros H j. split; [|done]. unfold Db.exec. pose proof (begin_nested (in_tx:=in_tx) j _ H) as Hb.
    destruct (sqlite_exec _ _) as [[msg|] x]; [done|]. done.
Qed.
End transactions.

(** A database with its committed rows, the rows of the open transaction, and
    how many COMMITs are still refused. *)
Record toy := MkToy { rows : list str; pending : option (list str); busy : nat }.
Definition toy_exec (sql : str) (d : toy) : option (option str) * toy :=
  match pending d with
  | None =>
      if decide (sql = begin_sql true ∨ sql = begin_sql false) then (None, MkToy (rows d) (Some []) (busy d))
      else if decide (sql = commit_sql ∨ sql = rollback_sql) then (Some None, d)
      else (None, MkToy (rows d ++ [sql]) None (busy d))
  | Some p =>
      if decide (sql = begin_sql true ∨ sql = begin_sql false) then (Some None, d)
      else if decide (sql = commit_sql) then
        match busy d with S n => (Some None, MkToy (rows d) (Some p) n) | 0 => (None, MkToy (rows d ++ p) None 0) end
      else if decide (sql = rollback_sql) then (None, MkToy (rows d) None (busy d))
      else (None, MkToy (rows d) (Some (p ++ [sql])) (busy d))
  end.
Definition toy_in_tx (d : toy) : bool := bool_decide (pending d ≠ None).
#[global] Instance toy_transactional : Transactional toy_exec toy_in_tx.
Proof. split; unfold toy_in_tx; intros; destruct x as [r [p|] [|n]]; try destruct i; vm_compute in *; done. Qed.

(** A COMMIT that is refused once: the row of the first scope is lost with the
    roll-back of the second. *)
Example refused_commit :
  let c := MkConn (MkToy [] None 1) [] in
  let c := scope toy_exec true [Exec (lit "a"); Commit] c in
  rows (db (scope toy_exec true [Exec (lit "b")] c)) = [].
Proof. vm_compute. reflexivity. Qed.

Lemma transaction_guard_witness :
  let c := MkConn (MkToy [] None 0) [] in
  let c' := scope toy_exec true [Exec (lit "a"); Commit; Rollback] c in
  rows (db c') = [lit "a"] ∧ ends (log c') = [commit_sql].
Proof.
  intros c c'. split; [vm_compute; reflexivity|].
  apply (transaction_guard toy_exec toy_in_tx true [Exec (lit "a"); Commit; Rollback] c).
  repeat constructor. intros [r [p|] n]; vm_compute; done.
Defined.
