(* ===== verification/Runtime.v ===== *)
(** * The runtime (src/src/main.cpp, orchestrator/capture_stack.cpp,
      dialogue_stack.cpp, stt_stack.cpp)

    How the parts are put together and taken down: [Stacks], what each
    builder makes of the configuration and in which order its [stop] ends
    what runs; [Main], the construction of everything by [main], its four
    exits, and the destruction of the locals in reverse order. A step is the
    start, the end or the destruction of a part; what the parts do in between
    is in their own files. An exception out of a constructor is left out, and
    so are log lines. *)
From S2P Require Import Prelude Config.
From S2P Require AudioPipeline Endpointer FakeDriver Metrics Dsp.

(** ** The stacks *)

Module Stacks.

(** *** Capture *)

Definition endpointer_config (v : VadConfig) : Endpointer.EndpointerConfig :=
  Endpointer.MkEndpointerConfig (onset_threshold v) (offset_threshold v) (min_speech_ms v) (hangover_ms v)
    (pre_padding_ms v) (post_padding_ms v).
Definition pipeline_config (cfg : Config) : AudioPipeline.config :=
  AudioPipeline.MkConfig 16000 (endpointer_config (vad cfg)) (pre_padding_ms (vad cfg)) (post_padding_ms (vad cfg))
    (Z.to_nat (utt_max_in_flight (utterance cfg))) (max_duration_ms (utterance cfg)) (min_utterance_rms (stt cfg)).
Definition i32 (z : Z) : Z := ((z + 2 ^ 31) mod 2 ^ 32 - 2 ^ 31)%Z.
(** The rates of [Apm]'s configuration keep their defaults. *)
Definition apm_config (cfg : Config) : Dsp.Apm.ApmConfig :=
  Dsp.Apm.MkApmConfig (aec_enabled (apm cfg)) (ns_enabled (apm cfg)) (agc_enabled (apm cfg))
    (i32 (initial_delay_estimate_ms (apm cfg))) (i32 (max_delay_ms (apm cfg))) 16000 48000.

(** What is started and ended, of every stack ([BargeInStart] by [main]). *)
Inductive Action :=
  | CaptureStart | PipelineStart | CapturePollerStart | SetGate
  | CaptureStop | PipelineStop | CapturePollerJoin
  | RealtimeStart | SetLiveSink | RealtimeSubscribe | WorkerSubscribe | WorkerStart
  | RealtimeStop | WorkerJoin
  | FakeDriverStart | InsertSession | ManagerStart | TurnWriterStart | SummarizerStart | KeepAliveStart | ProbeLlm
  | BargeInStart | FakeDriverStop | BargeInStop | KeepAliveStop | ManagerStop | TurnWriterStop | SummarizerStop.
#[global] Instance action_eq_dec : EqDecision Action.
Proof. solve_decision. Defined.

Record capture_stack := MkCapture { capture_ : bool; gate_ : option Z; cap_poller : bool; cap_stopped : bool }.
#[global] Instance eta_capture : Eta capture_stack := λ s,
  MkCapture (capture_ s) (gate_ s) (cap_poller s) (cap_stopped s).
Definition capture_new : capture_stack := MkCapture false None false false.
Local Open Scope act_scope.

Definition build_capture_stack (cfg : Config) : Act capture_stack Action unit :=
  if negb (capture_enabled (audio cfg)) then skip else
  modify (λ s, s <| capture_ := true |>);;
  (when half_duplex_while_speaking (audio cfg) do
     (modify (λ s, s <| gate_ := Some (half_duplex_hangover_ms (audio cfg)) |>);; emit SetGate));;
  emit CaptureStart;; emit PipelineStart;; emit CapturePollerStart;;
  modify (λ s, s <| cap_poller := true |>).
Definition capture_stop : Act capture_stack Action unit :=
  s ← gets id;
  if cap_stopped s then skip else
  modify (λ s, s <| cap_stopped := true |>);;
  (when capture_ s do emit CaptureStop);;
  (when capture_ s do emit PipelineStop);;
  (when cap_poller s do (emit CapturePollerJoin;; modify (λ s, s <| cap_poller := false |>))).

(** The body of the poller's loop; [a]: the echo canceller's delay, ERLE and
    frames, where there is one. *)
Record Counters := MkCounters {
  frames_captured : Z; ring_overruns : Z; frames_processed : Z; false_starts : Z; utterances : Z; drops : Z; in_flight : Z;
}.
Definition poll_capture (c : Counters) (a : option (Z * spec_float * Z)) : list Metrics.Label :=
  let set g v := Metrics.Poll g (double_of v) in
  [set Metrics.capture_frames_total (frames_captured c); set Metrics.capture_ring_overruns_total (ring_overruns c);
   set Metrics.audio_pipeline_frames_total (frames_processed c); set Metrics.vad_false_starts_total (false_starts c);
   set Metrics.utterances_total (utterances c); set Metrics.utterance_drops_total (drops c);
   set Metrics.utterance_in_flight (in_flight c)] ++
  match a with
  | None => []
  | Some (delay, erle, frames) =>
      [set Metrics.aec_delay_estimate_ms delay; Metrics.Poll Metrics.aec_erle_db erle; set Metrics.aec_frames_processed_total frames]
  end.

(** *** Recognition *)

Record stt_stack := MkStt { realtime_ : bool; request_response_ : bool; worker_ : bool; stt_stopped : bool }.
#[global] Instance eta_stt_stack : Eta stt_stack := λ s,
  MkStt (realtime_ s) (request_response_ s) (worker_ s) (stt_stopped s).
Definition stt_new : stt_stack := MkStt false false false false.

(** [started]: what [start] of the streaming client returns. *)
Definition build_stt_stack (cfg : Config) (pipeline started : bool) : Act stt_stack Action unit :=
  if decide (stt_base_url (stt cfg) = []) then skip
  else if streaming (stt cfg) && capture_enabled (audio cfg) then
    emit RealtimeStart;;
    if negb started then emit RealtimeStop
    else
      modify (λ s, s <| realtime_ := true |>);;
      (when pipeline do emit SetLiveSink);;
      emit RealtimeSubscribe
  else
    modify (λ s, s <| request_response_ := true |>);; emit WorkerSubscribe;;
    emit WorkerStart;; modify (λ s, s <| worker_ := true |>).
Definition stt_stop : Act stt_stack Action unit :=
  s ← gets id;
  if stt_stopped s then skip else
  modify (λ s, s <| stt_stopped := true |>);;
  (when realtime_ s do emit RealtimeStop);;
  (when worker_ s do (emit WorkerJoin;; modify (λ s, s <| worker_ := false |>))).

(** *** Dialogue *)

Definition fake_driver_options (cfg : Config) : FakeDriver.FakeDriverOptions :=
  let o := FakeDriver.default_options in
  FakeDriver.Build_FakeDriverOptions (fake_idle_between_turns_ms (pipeline cfg)) (FakeDriver.user_speech_duration o)
    (FakeDriver.stt_processing o) (FakeDriver.llm_first_token_delay o) (FakeDriver.llm_per_sentence o)
    (FakeDriver.tts_first_audio o) (FakeDriver.playback_per_sentence o) (fake_sentences_per_turn (pipeline cfg))
    (fake_barge_in_probability (pipeline cfg)) (FakeDriver.seed o) (capture_enabled (audio cfg)).

Record dialogue_stack := MkDialogue { fake_driver_ : bool; manager_ : option Z; barge_in_ : bool; dlg_stopped : bool }.
#[global] Instance eta_dialogue_stack : Eta dialogue_stack := λ s,
  MkDialogue (fake_driver_ s) (manager_ s) (barge_in_ s) (dlg_stopped s).
Definition dialogue_new : dialogue_stack := MkDialogue false None false false.

Definition dialogue_stop : Act dialogue_stack Action unit :=
  s ← gets id;
  if dlg_stopped s then skip else
  modify (λ s, s <| dlg_stopped := true |>);;
  (when fake_driver_ s do emit FakeDriverStop);;
  (when barge_in_ s do emit BargeInStop);;
  (when bool_decide (is_Some (manager_ s)) do
     (emit KeepAliveStop;; emit ManagerStop;; emit TurnWriterStop;; emit SummarizerStop)).

(** [session]: the id of the new session, or the error of the database. The
    result: whether there is a stack; the one being built is destroyed when
    there is none. *)
Definition build_dialogue_stack (cfg : Config) (session : Z + str) : Act dialogue_stack Action (option str) :=
  (when fake_driver_enabled (Config.pipeline cfg) do
     (modify (λ s, s <| fake_driver_ := true |>);; emit FakeDriverStart));;
  if decide (llm_base_url (llm cfg) = []) then ret None
  else
    emit InsertSession;;
    match session with
    | inr err => dialogue_stop;; ret (Some err)
    | inl sid =>
        modify (λ s, s <| manager_ := Some sid |>);;
        emit ManagerStart;; emit TurnWriterStart;; emit SummarizerStart;; emit KeepAliveStart;; emit ProbeLlm;;
        modify (λ s, s <| barge_in_ := true |>);;
        ret None
    end.

(** [stop] and the destructor that calls it again: the order the headers
    promise, once. *)
Lemma capture_stops cfg :
  let s := exec (build_capture_stack cfg) capture_new in
  outs capture_stop s
  = (if capture_enabled (audio cfg) then [CaptureStop; PipelineStop; CapturePollerJoin] else []) ∧
  outs capture_stop (exec capture_stop s) = [].
Proof.
  unfold build_capture_stack. destruct (capture_enabled _); [|done].
  by destruct (half_duplex_while_speaking _).
Qed.
Lemma dialogue_stops cfg sid :
  let m := build_dialogue_stack cfg (inl sid) in
  outs dialogue_stop (exec m dialogue_new)
  = (if fake_driver_enabled (Config.pipeline cfg) then [FakeDriverStop] else []) ++
    (if decide (llm_base_url (llm cfg) = []) then []
     else [BargeInStop; KeepAliveStop; ManagerStop; TurnWriterStop; SummarizerStop]) ∧
  outs dialogue_stop (exec dialogue_stop (exec m dialogue_new)) = [].
Proof.
  unfold build_dialogue_stack. destruct (fake_driver_enabled _); by case_decide.
Qed.
(** Without a session the stack under construction is destroyed: the driver
    it had started is stopped, and nothing else was. *)
Lemma dialogue_refused cfg err :
  llm_base_url (llm cfg) ≠ [] →
  result (build_dialogue_stack cfg (inr err)) dialogue_new = Some err ∧
  outs (build_dialogue_stack cfg (inr err)) dialogue_new
  = if fake_driver_enabled (Config.pipeline cfg) then [FakeDriverStart; InsertSession; FakeDriverStop] else [InsertSession].
Proof.
  intros H. unfold build_dialogue_stack. destruct (fake_driver_enabled _); by rewrite decide_False.
Qed.
End Stacks.

(** ** main, from the event bus on *)

Module Main.
Import Stacks.

(** The locals of [main] that own something ([FsmMetrics]: the subscription
    that reads the state machine). *)
Inductive Part :=
  | Vram | TheBus | MetricSubs | Memory | TheFsm | FsmMetrics | TheSupervisor | Tts | Capture | Control | Stt
  | Dialogue | BiPoller | StdinReader.
#[global] Instance part_eq_dec : EqDecision Part.
Proof. solve_decision. Defined.

(** [Open]: a part is built, and started when it has a thread; [Assign]: a
    pointer declared earlier receives what was built. *)
Inductive Step := Open (p : Part) | Assign (p : Part) | Do (a : Action) | Stop (p : Part) | Destroy (p : Part).
#[global] Instance step_eq_dec : EqDecision Step.
Proof. solve_decision. Defined.

(** What the outside decides: the database, the port of the control server,
    the recogniser, the command line. *)
Record Env := MkEnv {
  memory_opens : bool; recovery_ok : bool; control_starts : bool; realtime_starts : bool; session : Z + str; stdin_mode : bool;
}.

Record main_state := MkMain {
  locals : list Part;        (* latest first *)
  running : list Part;       (* those whose [stop] has something to end *)
  the_capture : capture_stack; the_stt : stt_stack; the_dialogue : dialogue_stack;
}.
#[global] Instance eta_main : Eta main_state := λ s,
  MkMain (locals s) (running s) (the_capture s) (the_stt s) (the_dialogue s).
Definition main_init : main_state := MkMain [] [] capture_new stt_new dialogue_new.
Local Open Scope act_scope.

Definition declare (p : Part) : Act main_state Step unit := modify (λ s, s <| locals := p :: locals s |>).
Definition open (p : Part) : Act main_state Step unit :=
  declare p;; modify (λ s, s <| running := p :: running s |>);; emit (Open p).
(** Subscriptions end with the bus, which shares them. *)
Definition attach (p : Part) : Act main_state Step unit := declare p;; emit (Open p).
Definition stop (p : Part) : Act main_state Step unit :=
  s ← gets id;
  if decide (p ∈ running s) then modify (λ s, s <| running := filter (λ q, q ≠ p) (running s) |>);; emit (Stop p) else skip.
(** An operation of a stack, as a step of [main]. *)
Definition on_stack {T A} (get : main_state → T) (put : T → main_state → main_state) (m : Act T Action A) : Act main_state Step A :=
  λ s, let '(a, t, o) := m (get s) in (a, put t s, Do <$> o).
Definition on_capture {A} (m : Act capture_stack Action A) := on_stack the_capture (λ t s, s <| the_capture := t |>) m.
Definition on_stt {A} (m : Act stt_stack Action A) := on_stack the_stt (λ t s, s <| the_stt := t |>) m.
Definition on_dialogue {A} (m : Act dialogue_stack Action A) := on_stack the_dialogue (λ t s, s <| the_dialogue := t |>) m.

(** A destructor stops what runs; that of [std::thread] does not. *)
Definition destroy (p : Part) : Act main_state Step unit :=
  match p with
  | Capture => on_capture capture_stop
  | Stt => on_stt stt_stop
  | Dialogue => on_dialogue dialogue_stop
  | BiPoller | StdinReader => skip
  | _ => stop p
  end;; emit (Destroy p).
Fixpoint destroy_all (ps : list Part) : Act main_state Step unit :=
  match ps with [] => skip | p :: ps => destroy p;; destroy_all ps end.
Definition leave (code : Z) : Act main_state Step Z := s ← gets id; destroy_all (locals s);; ret code.

Definition shutdown : Act main_state Step Z :=
  stop StdinReader;;
  on_capture capture_stop;; on_stt stt_stop;; on_dialogue dialogue_stop;; stop Tts;;
  stop BiPoller;; stop TheSupervisor;; stop TheFsm;;
  destroy Control;;
  modify (λ s, s <| locals := filter (λ q, q ≠ Control) (locals s) |>);;
  stop TheBus;; leave 0.

Definition has_barge_in (s : main_state) : bool := barge_in_ (the_dialogue s).
Definition run_dialogue (env : Env) : Act main_state Step Z :=
  attach Dialogue;;
  s ← gets id;
  (when has_barge_in s do emit (Do BargeInStart));;
  (if has_barge_in s then open BiPoller else declare BiPoller);;
  (if stdin_mode env then open StdinReader else declare StdinReader);;
  shutdown.
Definition run_stacks (cfg : Config) (env : Env) : Act main_state Step Z :=
  on_capture (build_capture_stack cfg);; emit (Assign Capture);;
  on_stt (build_stt_stack cfg (capture_enabled (audio cfg)) (realtime_starts env));;
  attach Stt;;
  err ← on_dialogue (build_dialogue_stack cfg (session env));
  match err with
  | Some _ => stop TheFsm;; stop TheBus;; leave 1
  | None => run_dialogue env
  end.
Definition run_main (cfg : Config) (env : Env) : Act main_state Step Z :=
  open Vram;; open TheBus;; attach MetricSubs;;
  if negb (memory_opens env) then leave 1 else
  open Memory;;
  if negb (recovery_ok env) then leave 1 else
  open TheFsm;; attach FsmMetrics;; open TheSupervisor;; open Tts;; declare Capture;;
  if negb (control_starts env) then stop TheSupervisor;; stop TheFsm;; stop TheBus;; leave 1 else
  open Control;; run_stacks cfg env.

Definition trace (cfg : Config) (env : Env) : list Step := outs (run_main cfg env) main_init.
Definition exit_code (cfg : Config) (env : Env) : Z := result (run_main cfg env) main_init.

(** *** Lifetimes *)

(** A thread that runs between [from] and [til], and the destruction it must
    not outlive: it uses what is destroyed there. *)
Record Use := MkUse { from : Step; til : Step; gone : Step }.
Definition uses : list Use :=
  [ (* capture: ring, gate and loopback; the poller; the gate called by the state machine *)
    MkUse (Do CaptureStart) (Do CaptureStop) (Destroy Capture); MkUse (Do PipelineStart) (Do PipelineStop) (Destroy Capture);
    MkUse (Do PipelineStart) (Do PipelineStop) (Destroy Tts); MkUse (Do PipelineStart) (Do PipelineStop) (Destroy TheBus);
    MkUse (Do CapturePollerStart) (Do CapturePollerJoin) (Destroy Capture); MkUse (Do SetGate) (Stop TheFsm) (Destroy Capture);
    (* recognition: the live sink, called by the pipeline; the subscriptions; the worker *)
    MkUse (Do SetLiveSink) (Do PipelineStop) (Destroy Stt); MkUse (Do RealtimeSubscribe) (Stop TheBus) (Destroy Stt);
    MkUse (Do RealtimeSubscribe) (Do RealtimeStop) (Destroy TheBus);
    MkUse (Do WorkerSubscribe) (Stop TheBus) (Destroy Stt); MkUse (Do WorkerStart) (Do WorkerJoin) (Destroy Stt);
    MkUse (Do WorkerStart) (Do WorkerJoin) (Destroy TheBus);
    (* dialogue *)
    MkUse (Do FakeDriverStart) (Do FakeDriverStop) (Destroy TheBus);
    MkUse (Do ManagerStart) (Do ManagerStop) (Destroy Dialogue); MkUse (Do ManagerStart) (Do ManagerStop) (Destroy Memory);
    MkUse (Do ManagerStart) (Do ManagerStop) (Destroy TheFsm); MkUse (Do ManagerStart) (Do ManagerStop) (Destroy TheSupervisor);
    MkUse (Do TurnWriterStart) (Do TurnWriterStop) (Destroy Memory); MkUse (Do SummarizerStart) (Do SummarizerStop) (Destroy Memory);
    MkUse (Do SummarizerStart) (Do SummarizerStop) (Destroy Dialogue); MkUse (Do KeepAliveStart) (Do KeepAliveStop) (Destroy TheFsm);
    MkUse (Do KeepAliveStart) (Do KeepAliveStop) (Do ManagerStop); MkUse (Do BargeInStart) (Do BargeInStop) (Destroy Tts);
    MkUse (Do BargeInStart) (Do BargeInStop) (Destroy Capture); MkUse (Do BargeInStart) (Do BargeInStop) (Do ManagerStop);
    (* main: the status text, the subscription of the metrics, its own threads *)
    MkUse (Open Control) (Destroy Control) (Destroy Capture); MkUse (Open Control) (Destroy Control) (Destroy TheSupervisor);
    MkUse (Open Control) (Destroy Control) (Destroy TheFsm); MkUse (Open FsmMetrics) (Stop TheBus) (Destroy TheFsm);
    MkUse (Open BiPoller) (Stop BiPoller) (Destroy Dialogue); MkUse (Open BiPoller) (Stop BiPoller) (Destroy BiPoller);
    MkUse (Open StdinReader) (Stop StdinReader) (Destroy StdinReader); MkUse (Open StdinReader) (Stop StdinReader) (Destroy TheBus);
    MkUse (Open Tts) (Stop Tts) (Destroy TheBus); MkUse (Open TheSupervisor) (Stop TheSupervisor) (Destroy TheBus);
    MkUse (Open TheFsm) (Stop TheFsm) (Destroy TheBus) ].

(** What a use forbids: its end is missing between its start and the
    destruction. *)
Definition respected (u : Use) (tr : list Step) : Prop :=
  ∀ l m k, tr = l ++ from u :: m ++ gone u :: k → til u ∈ m.
Definition safe (tr : list Step) : Prop := Forall (λ u, respected u tr) uses.
Definition precedes (a b : Step) (tr : list Step) : Prop := ∃ l m k, tr = l ++ a :: m ++ b :: k.

(** Their decision. *)
Fixpoint ends_first (til gone : Step) (tr : list Step) : bool :=
  match tr with
  | [] => true
  | s :: tr => bool_decide (s = til) || (bool_decide (s ≠ gone) && ends_first til gone tr)
  end.
Fixpoint respectsb (u : Use) (tr : list Step) : bool :=
  match tr with
  | [] => true
  | s :: tr => (bool_decide (s ≠ from u) || ends_first (til u) (gone u) tr) && respectsb u tr
  end.
Definition safeb (tr : list Step) : bool := forallb (λ u, respectsb u tr) uses.

Lemma ends_first_spec t g tr :
  t ≠ g → ends_first t g tr = true ↔ ∀ m k, tr = m ++ g :: k → t ∈ m.
Proof.
  intros Hne. induction tr as [|s tr IH]; cbn [ends_first].
  - split; [|done]. intros _ [|??] ? [=].
  - rewrite orb_true_iff, andb_true_iff, !bool_decide_eq_true, IH. split.
    + intros H [|s' m] k [= -> Hm]; [by destruct H as [->|[? _]]|].
      destruct H as [->|[_ H]]; [left|right; exact (H m k Hm)].
    + intros H. destruct (decide (s = t)) as [->|Hs]; [by left|right]. split.
      * intros ->. by specialize (H [] tr eq_refl); apply elem_of_nil in H.
      * intros m k ->. specialize (H (s :: m) k eq_refl). by apply elem_of_cons in H as [?|?].
Qed.

Lemma respects_spec u tr : til u ≠ gone u → respectsb u tr = true ↔ respected u tr.
Proof.
  intros Hne. unfold respected. induction tr as [|s tr IH]; cbn [respectsb].
  - split; [|done]. intros _ [|??] ?? [=].
  - rewrite andb_true_iff, orb_true_iff, bool_decide_eq_true, ends_first_spec, IH by done. split.
    + intros [H1 H2] [|s' l] m k [= -> Hm]; [|exact (H2 l m k Hm)].
      destruct H1 as [?|H1]; [done|exact (H1 m k Hm)].
    + intros H. split; [|intros l m k ->; by apply (H (s :: l) m k)].
      destruct (decide (s = from u)) as [->|?]; [right|by left]. intros m k ->. by apply (H [] m k).
Qed.

Lemma safe_spec tr : safeb tr = true ↔ safe tr.
Proof.
  unfold safeb, safe. rewrite forallb_forall, Forall_forall.
  assert (Forall (λ u, til u ≠ gone u) uses) as Hu by (repeat constructor; done).
  rewrite Forall_forall in Hu. setoid_rewrite list_elem_of_In in Hu. setoid_rewrite list_elem_of_In.
  split; intros H u Hin; apply respects_spec; auto.
Qed.

(** The one run that is not. *)
Definition sink_outlived (cfg : Config) (env : Env) : bool :=
  memory_opens env && recovery_ok env && control_starts env && (if decide (llm_base_url (llm cfg) = []) then false else true) &&
  match session env with inr _ => true | inl _ => false end &&
  (if decide (stt_base_url (stt cfg) = []) then false else true) && streaming (stt cfg) && capture_enabled (audio cfg) && realtime_starts env.

(** All runs: the switches of the configuration and what the outside decides. *)
Ltac runs env :=
  unfold trace, exit_code, run_main, run_stacks, run_dialogue, build_capture_stack, build_stt_stack, build_dialogue_stack, sink_outlived;
  destruct env as [mem rec ctl rt ses inp]; (destruct mem; [|by vm_compute]); (destruct rec; [|by vm_compute]); (destruct ctl; [|by vm_compute]);
  destruct (fake_driver_enabled _);
  (destruct (capture_enabled _); [destruct (half_duplex_while_speaking _)|]);
  (destruct (decide (stt_base_url _ = [])); [|destruct (streaming _); [destruct rt|]]);
  (destruct (decide (llm_base_url _ = [])); [|destruct ses]); destruct inp; vm_compute; reflexivity.

Lemma lifetimes cfg env : safeb (trace cfg env) = negb (sink_outlived cfg env).
Proof. runs env. Qed.

(** Every thread that is started is ended, whatever the exit. *)
Definition threads : list (Step * Step) :=
  [ (Do CaptureStart, Do CaptureStop); (Do PipelineStart, Do PipelineStop); (Do CapturePollerStart, Do CapturePollerJoin);
    (Do WorkerStart, Do WorkerJoin); (Do FakeDriverStart, Do FakeDriverStop); (Do ManagerStart, Do ManagerStop);
    (Do TurnWriterStart, Do TurnWriterStop); (Do SummarizerStart, Do SummarizerStop); (Do KeepAliveStart, Do KeepAliveStop);
    (Do BargeInStart, Do BargeInStop); (Do RealtimeStart, Do RealtimeStop); (Open Vram, Stop Vram); (Open TheBus, Stop TheBus);
    (Open Memory, Stop Memory); (Open TheFsm, Stop TheFsm); (Open TheSupervisor, Stop TheSupervisor); (Open Tts, Stop Tts);
    (Open Control, Destroy Control); (Open BiPoller, Stop BiPoller); (Open StdinReader, Stop StdinReader) ].
Definition count (s : Step) (tr : list Step) : nat := length (filter (λ t, t = s) tr).
Definition ended (tr : list Step) : Prop := Forall (λ '(b, e), count e tr = count b tr ∧ count b tr ≤ 1) threads.
Definition endedb (tr : list Step) : bool :=
  forallb (λ '(b, e), bool_decide (count e tr = count b tr ∧ count b tr ≤ 1)) threads.

Lemma ended_spec tr : endedb tr = true ↔ ended tr.
Proof.
  unfold endedb, ended. rewrite forallb_forall, Forall_forall. setoid_rewrite list_elem_of_In.
  split; intros H [b e] Hin; specialize (H (b, e) Hin); by apply bool_decide_eq_true in H || apply bool_decide_eq_true.
Qed.

Lemma all_ended cfg env : endedb (trace cfg env) = true.
Proof. runs env. Qed.

Definition all_start (cfg : Config) (env : Env) : bool :=
  memory_opens env && recovery_ok env && control_starts env &&
  ((if decide (llm_base_url (llm cfg) = []) then true else false) || match session env with inl _ => true | inr _ => false end).
Lemma exits cfg env : exit_code cfg env = if all_start cfg env then 0%Z else 1%Z.
Proof. unfold all_start. runs env. Qed.

(** *** Setters called late *)

(** [b] happens only after [a]. *)
Definition late (a b : Step) (tr : list Step) : Prop := b ∈ tr → precedes a b tr.
Fixpoint lateb (a b : Step) (tr : list Step) : bool :=
  match tr with
  | [] => true
  | s :: tr => bool_decide (s ≠ b) && (bool_decide (s = a) || lateb a b tr)
  end.
Lemma lateb_spec a b tr : lateb a b tr = true → late a b tr.
Proof.
  induction tr as [|s tr IH]; cbn [lateb]; [by intros _ ?%elem_of_nil|].
  rewrite andb_true_iff, orb_true_iff, !bool_decide_eq_true. intros [Hb H] Hin.
  apply elem_of_cons in Hin as [->|Hin]; [done|]. destruct H as [->|H].
  - apply list_elem_of_split in Hin as (m & k & ->). by exists [], m, k.
  - destruct (IH H Hin) as (l & m & k & ->). by exists (s :: l), m, k.
Qed.

Lemma setters_late cfg env :
  lateb (Do PipelineStart) (Do SetLiveSink) (trace cfg env) && lateb (Open TheFsm) (Do SetGate) (trace cfg env) &&
  lateb (Open Control) (Assign Capture) (trace cfg env) = true.
Proof. runs env. Qed.

(** *** Properties *)

(** [C33] Lifetimes: over every configuration and every exit of [main], every
    thread, subscription or server is started at most once and ended as often
    as it was started, and nothing is destroyed while a thread that uses it
    runs - except on one path. When the session cannot be inserted and the
    streaming recogniser is up, [main] returns without stopping capture; the
    recogniser, declared later, is destroyed first, and the pipeline's worker
    still calls it through the live sink. The exit code is 0 exactly when the
    memory, the recovery, the control server and (with a language model) the
    session are there. *)
Theorem main_lifetimes cfg env :
  (safe (trace cfg env) ↔ sink_outlived cfg env = false) ∧ ended (trace cfg env) ∧
  exit_code cfg env = if all_start cfg env then 0%Z else 1%Z.
Proof.
  rewrite <-safe_spec, lifetimes, negb_true_iff, <-ended_spec, all_ended, exits. done.
Qed.

(** The live sink, the half-duplex observer and the capture pointer are
    set while their reader's thread already runs: the sink after the pipeline
    started, the observer after the state machine did, the pointer after the
    control server reads it. The headers ask for the first two before the
    start, and none is guarded. *)
Theorem set_while_read cfg env :
  late (Do PipelineStart) (Do SetLiveSink) (trace cfg env) ∧ late (Open TheFsm) (Do SetGate) (trace cfg env) ∧
  late (Open Control) (Assign Capture) (trace cfg env).
Proof.
  pose proof (setters_late cfg env) as H. rewrite !andb_true_iff in H.
  destruct H as [[H1 H2] H3]. auto using lateb_spec.
Qed.

(** The default switches with capture, the gate and the streaming recogniser. *)
Definition live_config : Config :=
  example_config <| audio := Build_AudioConfig [] [] true 48000 480 true 200 (Build_AudioLoopbackConfig 2) true |>
                 <| stt ::= λ s, s <| stt_base_url := lit "http://127.0.0.1" |> |>.
Example all_set : forallb (λ s, bool_decide (s ∈ trace live_config (MkEnv true true true true (inl 1%Z) true)))
  [Do SetLiveSink; Do SetGate; Assign Capture] = true.
Proof. vm_compute. reflexivity. Qed.
Example use_after_free :
  filter (λ u, negb (respectsb u (trace live_config (MkEnv true true true true (inr (lit "disk full")) false)))) uses
  = [MkUse (Do SetLiveSink) (Do PipelineStop) (Destroy Stt)].
Proof. vm_compute. reflexivity. Qed.
End Main.
