(* ===== verification/Demos.v ===== *)
(** * The demonstrations (src/src/demos/)

    The commands [acva demo <name>]: the [Catalog] and how [main] finds an
    entry; what each demonstration decides from what it observes ([Health],
    [Tts], [Wedge], [Stt], [Turns], [BargeInDemo], [Observers]); and
    [Lifecycle], what each starts, stops and removes on every way out. The
    load test is in [Soak], what is done with samples in [DemoAudio]. What is printed is left out,
    and so are destructors: only explicit stops are steps. *)
From S2P Require Import Prelude Config.
From S2P Require Event Turn PlaybackQueue TtsBridge AudioPipeline Startup Supervisor Runtime.

(** ** The catalog *)

Module Catalog.
Record Demo := MkDemo { name : str; milestone : str; description : str }.
Definition demo (n m d : string) : Demo := MkDemo (lit n) (lit m) (lit d).
Definition kDemos : list Demo := [
  demo "fsm" "M0" "synthetic FSM driver runs 3 turns end-to-end (no backends needed)";
  demo "health" "M2" "probe every configured backend's /health and print the result";
  demo "llm" "M1" "send a fixed prompt to llama and stream the reply to stdout";
  demo "tone" "M3" "play a 1.5 s 440 Hz tone through the audio device — no TTS";
  demo "tts" "M3+M4B" "synthesize 'Hello from acva.' via Speaches and play it";
  demo "chat" "M1+M3+M4B" "full text-in → speech-out loop (text → LLM → Speaches TTS → speakers)";
  demo "bargein" "M7" "auto-injected interrupt mid-turn — verifies the cancellation cascade";
  demo "loopback" "M4" "5 s mic → speakers passthrough through the SPSC ring + 48↔16 kHz resampler";
  demo "capture" "M4" "5 s mic capture + Silero VAD endpointing report (no STT)";
  demo "stt" "M4B" "self-contained STT smoke: TTS-fixture audio → Speaches /v1/audio/transcriptions";
  demo "transcribe" "M5" "30 s mic + Silero VAD + Speaches realtime STT — prints partial + final transcripts";
  demo "aec" "M6" "synthetic AEC validation: stimulus → loopback → APM → ERLE convergence";
  demo "aec-hw" "M6" "real-hardware AEC validation: speaker → mic → APM, asserts ERLE >= 25 dB";
  demo "aec-record" "M6B" "record original/raw/cleaned WAVs of speaker→air→mic→APM for offline analysis";
  demo "soak" "M6" "5-min Speaches TTS+STT throughput + VRAM monitor (silent; for leak detection)";
  demo "wedge" "M6" "reproduce the Speaches CUDA-OOM wedge (long Russian TTS) and diagnose"].

Fixpoint find_in (n : str) (ds : list Demo) : option Demo :=
  match ds with [] => None | d :: ds => if decide (name d = n) then Some d else find_in n ds end.
Definition find (n : str) : option Demo := find_in n kDemos.

(** [%-*.*s]: padded on the right. *)
Definition pad (w : nat) (s : str) : str := s ++ replicate (w - length s) " "%char.
Definition name_w : nat := foldl (λ w d, Nat.max w (length (name d))) 4 kDemos.
Definition row (d : Demo) : str :=
  lit "  " ++ pad name_w (name d) ++ lit "  " ++ pad 3 (milestone d) ++ lit "  " ++ description d.

Lemma find_in_spec n ds d : find_in n ds = Some d → d ∈ ds ∧ name d = n.
Proof.
  induction ds as [|e ds IH]; cbn; [done|]. case_decide; [intros [= ->]; split; [left|done]|].
  intros Hf%IH. destruct Hf. split; [by right|done].
Qed.
Lemma find_in_none n ds : find_in n ds = None ↔ n ∉ name <$> ds.
Proof.
  induction ds as [|e ds IH]; cbn; [set_solver|]. rewrite not_elem_of_cons.
  case_decide; [naive_solver|]. rewrite IH. naive_solver.
Qed.

(** Sixteen names, all different: every entry is found under its name. *)
Lemma catalog_complete d : d ∈ kDemos → find (name d) = Some d.
Proof.
  intros Hd. assert (Forall (λ d, find (name d) = Some d) kDemos) as H; [|rewrite Forall_forall in H; auto].
  repeat (constructor; [vm_compute; reflexivity|]). constructor.
Qed.

(** [main] runs a demonstration exactly when [find] has it. *)
Lemma main_finds n : n ∈ name <$> kDemos ↔ is_Some (find n).
Proof.
  rewrite <- not_eq_None_Some. unfold find. rewrite find_in_none. destruct (decide (n ∈ name <$> kDemos)); tauto.
Qed.
Example listed : row <$> find (lit "tone") = Some (lit "  tone        M3   play a 1.5 s 440 Hz tone through the audio device — no TTS").
Proof. vm_compute. reflexivity. Qed.
End Catalog.

(** How a demonstration ends; [Threw] is an exception no one catches. *)
Inductive Verdict := Success | Failure | Threw.
#[global] Instance verdict_eq_dec : EqDecision Verdict.
Proof. solve_decision. Defined.
Definition verdict (ok : bool) : Verdict := if ok then Success else Failure.

(** ** health *)

Module Health.
Record Target := MkTarget { name : str; url : str; critical : bool }.
Definition target (name : string) (h : ServiceHealthConfig) : Target := MkTarget (lit name) (health_url h) (fail_pipeline_if_down h).
Definition targets (cfg : Config) : list Target :=
  [target "llm" (llm_health (llm cfg)); target "stt" (stt_health (stt cfg)); target "tts" (tts_health (tts cfg))].

Section health.
(** [probe.get] of a URL. *)
Context (get : str → Supervisor.ProbeResult).

(** Whether anything was probed, and whether something critical failed. *)
Definition probe_target (s : bool * bool) (t : Target) : bool * bool :=
  if decide (url t = []) then s
  else (true, s.2 || (negb (Supervisor.ok (get (url t))) && critical t)).
Definition run_health (cfg : Config) : Verdict :=
  let '(any_probed, any_critical_failed) := foldl probe_target (false, false) (targets cfg) in
  if negb any_probed then Success else verdict (negb any_critical_failed).

(** It fails exactly when a critical service with a URL is down. *)
Theorem health_exact cfg :
  run_health cfg = Failure ↔
  Exists (λ t, url t ≠ [] ∧ critical t = true ∧ Supervisor.ok (get (url t)) = false) (targets cfg).
Proof.
  unfold run_health, targets. cbn [foldl]. set (a := target _ _). set (b := target _ _). set (c := target _ _).
  clearbody a b c. unfold probe_target.
  rewrite !Exists_cons, Exists_nil.
  destruct (decide (url a = [])), (decide (url b = [])), (decide (url c = [])); cbn;
    destruct (Supervisor.ok (get (url a))), (Supervisor.ok (get (url b))), (Supervisor.ok (get (url c)));
    destruct (critical a), (critical b), (critical c); cbn; split; intros H; try discriminate; try done; intuition congruence.
Qed.
End health.
End Health.

(** ** tts *)

Module Tts.
(** What the subscriptions gather. *)
Record observed := MkObserved { got_first_audio : bool; finished : bool; errors : Z }.
Definition observed_new : observed := MkObserved false false 0.
Definition on_event (e : Event.Event) (s : observed) : observed :=
  match e with
  | Event.TtsAudioChunk _ _ _ => MkObserved true (finished s) (errors s)
  | Event.TtsFinished _ _ => MkObserved (got_first_audio s) true (errors s)
  | Event.ErrorEvent component _ =>
      if decide (component = lit "tts_bridge" ∨ component = lit "openai_tts")
      then MkObserved (got_first_audio s) (finished s) (errors s + 1) else s
  | _ => s
  end.
Definition tts_exit (s : observed) : Verdict := if decide (0 < errors s)%Z then Failure else verdict (finished s).

(** The events of the bridge's outputs. *)
Definition published (os : list TtsBridge.BridgeOut) : list Event.Event :=
  omap (λ o, match o with TtsBridge.Publish e => Some e | _ => None end) os.
Definition is_error (e : Event.Event) : bool := match e with Event.ErrorEvent _ _ => true | _ => false end.

Section tts.
Context {R : Type} (rs_new : Z → Z → R) (rs_process : R → list Z → list Z * R) (rs_flush : R → option (list Z)).
Abbreviation run := (TtsBridge.run rs_new rs_process rs_flush).

Lemma bridge_no_error_step l s : Forall (λ e, is_error e = false) (published (TtsBridge.step rs_new rs_process rs_flush l s).2).
Proof.
  destruct l; cbn [TtsBridge.step]; try by constructor.
  - unfold TtsBridge.io_step. destruct (TtsBridge.pc s) as [|job| | | | | | |]; try by constructor.
    + unfold TtsBridge.io_begin. by repeat case_match; repeat constructor.
    + unfold TtsBridge.io_enqueue. by repeat case_match; repeat constructor.
    + unfold TtsBridge.io_eos. by repeat case_match; repeat constructor.
    + unfold TtsBridge.io_final. by repeat case_match; repeat constructor.
  - destruct (TtsBridge.pc s); by constructor.
  - destruct (TtsBridge.pc s); by constructor.
Qed.
Lemma bridge_no_error ls s : Forall (λ e, is_error e = false) (published (run ls s).2).
Proof.
  revert s. induction ls as [|l ls IH]; intros s; cbn [TtsBridge.run]; [constructor|].
  pose proof (bridge_no_error_step l s) as H. destruct (TtsBridge.step _ _ _ l s) as [s1 o1].
  specialize (IH s1). destruct (run ls s1) as [s2 o2]. unfold published in *. cbn [snd] in *.
  rewrite omap_app. by apply Forall_app.
Qed.
Lemma observe_no_error es s : Forall (λ e, is_error e = false) es → errors (foldl (λ s e, on_event e s) s es) = errors s.
Proof.
  intros H. revert s. induction H as [|e es He _ IH]; intros s; cbn; [done|]. rewrite IH. by destruct e.
Qed.

(** The error events the demonstration waits for are published by no one:
    whatever the TTS client reports to the bridge, the count stays 0, and a
    failed synthesis is only noticed when the deadline has passed. *)
Theorem tts_errors_unseen ls s :
  let o := foldl (λ o e, on_event e o) observed_new (published (run ls s).2) in
  errors o = 0%Z ∧ tts_exit o = verdict (finished o).
Proof.
  intros o. assert (errors o = 0%Z) as E by apply observe_no_error, bridge_no_error.
  split; [done|]. unfold tts_exit. by rewrite E.
Qed.
End tts.
End Tts.

(** ** wedge *)

Module Wedge.
Inductive Diagnosis := NotConfigured | NoVoice | AlreadyWedged | Reproduced | Partial | NoWedge.
(** Both the load test and this one ask for the resolved voice of the fallback
    language with [at], which throws when there is none. *)
Definition configured (cfg : Config) : option Diagnosis :=
  if decide (tts_base_url (tts cfg) = [] ∨ voices (tts cfg) = []) then Some NotConfigured
  else if decide (stt_base_url (stt cfg) = []) then Some NotConfigured
  else if smap_contains (fallback_lang (tts cfg)) (voices_resolved (tts cfg)) then None
  else Some NoVoice.

(** [warm], [post]: whether the first and the second transcription succeed;
    [tts_err]: whether the long synthesis fails. *)
Definition run_wedge (cfg : Config) (warm tts_err post : bool) : Diagnosis :=
  match configured cfg with
  | Some d => d
  | None =>
      if negb warm then AlreadyWedged
      else if negb post then Reproduced
      else if tts_err then Partial else NoWedge
  end.
Definition wedge_exit (d : Diagnosis) : Verdict :=
  match d with NotConfigured => Failure | NoVoice => Threw | _ => Success end.

(** The verdict reads that the synthesis failed and that the server answers
    500; neither is looked at. *)
Lemma reproduced_unexamined cfg tts_err :
  configured cfg = None → run_wedge cfg true tts_err false = Reproduced.
Proof. intros H. unfold run_wedge. by rewrite H. Qed.

(** A valid configuration has the voice: [at] never throws. *)
Lemma validated_voice cfg : config_ok cfg → configured cfg ≠ Some NoVoice.
Proof.
  intros Hok. unfold configured. destruct (decide _) as [|Hc]; [done|]. destruct (decide _); [done|].
  destruct (co_fallback _ Hok ltac:(tauto)) as [alias Ha].
  destruct (co_voices _ Hok _ _ (smap_find_elem _ _ _ Ha)) as (_ & v & Hv & _).
  unfold smap_contains. rewrite Hv. by rewrite bool_decide_true.
Qed.
End Wedge.

(** ** llm *)

Module Llm.
Definition escape (c : ascii) : str :=
  if decide (c = "034"%char) then lit "\" ++ ["034"%char]
  else if decide (c = "\"%char) then lit "\\"
  else if decide (c = "010"%char) then lit "\n" else [c].
(** A literal with a quote for each [']. *)
Definition quoted (s : string) : str := map (λ c, if decide (c = "'"%char) then "034"%char else c) (lit s).
(** [to_string] of the temperature. *)
Definition build_simple_body (to_string : fl → str) (cfg : Config) (prompt : str) : str :=
  quoted "{'model':'" ++ llm_model (llm cfg) ++ quoted "'," ++ quoted "'messages':[{'role':'user','content':'"
  ++ flat_map escape prompt ++ quoted "'}]," ++ quoted "'temperature':" ++ to_string (temperature (llm cfg)) ++ lit ","
  ++ quoted "'max_tokens':40,'stream':true}".
(** [probe]: the server answers; [tokens]: what was streamed. *)
Definition llm_exit (probe : bool) (tokens : nat) : Verdict := verdict (probe && negb (bool_decide (tokens = 0))).
End Llm.

(** ** stt *)

Module Stt.
Section stt.
(** The synthesis of a text, the conversion of what it gives to 16 kHz, and
    the transcription: an error, or what was asked for. *)
Context (synth : str → list Z + str) (downsample : list Z → list Z) (transcribe : list Z → str + str).

Definition try_synth (text : str) : option (list Z) := match synth text with inl buf => Some (downsample buf) | inr _ => None end.
Definition try_transcribe (slice : list Z) : option str :=
  match transcribe slice with
  | inl text => Some text
  | inr err => if decide (err = []) then Some [] else None
  end.
(** The transcript of the measured pass. *)
Definition run_stt (cfg : Config) : option str :=
  if decide (stt_base_url (stt cfg) = []) then None
  else if decide (tts_base_url (tts cfg) = [] ∨ voices (tts cfg) = []) then None
  else
    try_synth (lit "Hi.") ≫= λ warm_slice, try_transcribe warm_slice ≫= λ _,
    try_synth (lit "Hello from acva. The moon is bright tonight.") ≫= try_transcribe.
Definition stt_exit (r : option str) : Verdict := verdict (bool_decide (is_Some r)).
(** Printed, and not a failure. *)
Definition heard_hello (transcript : str) : bool := bool_decide (is_Some (str_find (lit "Hello") transcript)).
End stt.
End Stt.

(** ** fsm *)

Module Turns.
Record outcomes := MkOutcomes { completed : Z; interrupted : Z; discarded : Z }.
(** The observer of outcomes. *)
Definition observe (o : str) (s : outcomes) : outcomes :=
  if decide (o = lit "completed") then MkOutcomes (completed s + 1) (interrupted s) (discarded s)
  else if decide (o = lit "interrupted") then MkOutcomes (completed s) (interrupted s + 1) (discarded s)
  else if decide (o = lit "discarded") then MkOutcomes (completed s) (interrupted s) (discarded s + 1)
  else s.
Definition seen (s : outcomes) : Z := completed s + interrupted s + discarded s.
Definition kTurnsToObserve : Z := 3.
(** Milliseconds, in 32 bits. *)
Definition deadline_ms (cfg : Config) : Z := u32 (u32 (fake_idle_between_turns_ms (pipeline cfg) * 4) + 6000).
Definition waits (cfg : Config) (elapsed_ms : Z) (s : outcomes) : bool :=
  bool_decide (seen s < kTurnsToObserve ∧ elapsed_ms < deadline_ms cfg)%Z.
Definition fsm_exit (s : outcomes) : Verdict := verdict (negb (bool_decide (seen s = 0%Z))).

(** Every outcome the state machine names is counted, once. *)
Lemma outcomes_counted os s :
  Forall (λ o, o ∈ [lit "completed"; lit "interrupted"; lit "discarded"]) os →
  seen (foldl (λ s o, observe o s) s os) = (seen s + Z.of_nat (length os))%Z.
Proof.
  intros H. revert s. induction H as [|o os Ho _ IH]; intros s; [cbn; lia|]. cbn [foldl length]. rewrite IH.
  rewrite !elem_of_cons, elem_of_nil in Ho. destruct Ho as [->|[->|[->|[]]]]; unfold observe, seen; repeat (case_decide; try done); cbn [completed interrupted discarded]; lia.
Qed.
End Turns.

(** ** bargein *)

Module BargeInDemo.
(** [std::isspace], [std::stol]: an optional sign and digits, the rest
    ignored; [None] is an exception. *)
Definition is_space (c : ascii) : bool := bool_decide (byte_of c = 32 ∨ 9 ≤ byte_of c ≤ 13)%Z.
Fixpoint digits_value (acc : Z) (s : str) : Z :=
  match s with
  | c :: s' => if decide (48 ≤ byte_of c ≤ 57)%Z then digits_value (acc * 10 + (byte_of c - 48)) s' else acc
  | [] => acc
  end.
Definition starts_digit (s : str) : bool :=
  match s with c :: _ => bool_decide (48 ≤ byte_of c ≤ 57)%Z | [] => false end.
Fixpoint skip_space (s : str) : str := match s with c :: s' => if is_space c then skip_space s' else s | [] => [] end.
Definition std_stol (s : str) : option Z :=
  let s := skip_space s in
  let '(neg, s) := match s with "-"%char :: s => (true, s) | "+"%char :: s => (false, s) | _ => (false, s) end in
  if starts_digit s then
    let v := if neg then (- digits_value 0 s)%Z else digits_value 0 s in
    if decide (- 2 ^ 63 ≤ v < 2 ^ 63)%Z then Some v else None
  else None.

Inductive Args := Delay (ms : Z) | Help | Bad (arg : str) | NotInteger (arg : str) | Negative (ms : Z).
Definition kDelay : str := lit "--delay-ms".
Fixpoint parse_args (inject_delay_ms : Z) (args : list str) : Args :=
  match args with
  | [] => if decide (inject_delay_ms < 0)%Z then Negative inject_delay_ms else Delay inject_delay_ms
  | a :: rest =>
      match rest with
      | v :: rest' =>
          if decide (a = kDelay) then match std_stol v with Some ms => parse_args ms rest' | None => NotInteger v end
          else if starts_with (kDelay ++ lit "=") a then
            match std_stol (drop 11 a) with Some ms => parse_args ms rest | None => NotInteger a end
          else if decide (a = lit "-h" ∨ a = lit "--help") then Help else Bad a
      | [] =>
          if starts_with (kDelay ++ lit "=") a then
            match std_stol (drop 11 a) with Some ms => parse_args ms rest | None => NotInteger a end
          else if decide (a = lit "-h" ∨ a = lit "--help") then Help else Bad a
      end
  end.
Definition parse (args : list str) : Args := parse_args 1500 args.
(** How the arguments end the demonstration, unless it goes on. *)
Definition args_exit (a : Args) : option Verdict :=
  match a with Delay _ => None | Help => Some Success | _ => Some Failure end.

(** Both spellings mean the same, and the last one counts. *)
Lemma delay_value v ms rest acc : std_stol v = Some ms →
  parse_args acc (kDelay :: v :: rest) = parse_args ms rest ∧
  parse_args acc ((kDelay ++ lit "=" ++ v) :: rest) = parse_args ms rest.
Proof.
  intros H. split.
  - cbn [parse_args]. by rewrite decide_True, H.
  - assert (kDelay ++ lit "=" ++ v ≠ kDelay) as Hn by (intros E%(f_equal (drop 10)); discriminate E).
    assert (starts_with (kDelay ++ lit "=") (kDelay ++ lit "=" ++ v) = true) as Hs by reflexivity.
    assert (drop 11 (kDelay ++ lit "=" ++ v) = v) as Hd by reflexivity.
    destruct rest; cbn [parse_args]; rewrite ?decide_False by done; by rewrite Hs, Hd, H.
Qed.
Example parsed :
  parse [] = Delay 1500 ∧ parse [kDelay; lit "800"] = Delay 800 ∧ parse [lit "--delay-ms=0"] = Delay 0 ∧
  parse [kDelay; lit " +20ms"] = Delay 20 ∧ parse [kDelay; lit "-1"] = Negative (-1) ∧
  parse [kDelay; lit "-1"; lit "--delay-ms=5"] = Delay 5 ∧ parse [kDelay] = Bad kDelay ∧
  parse [kDelay; lit "99999999999999999999"] = NotInteger (lit "99999999999999999999").
Proof. repeat split. Qed.

(** From the command line to the demonstration. *)
Lemma command_line_delay ms :
  match Startup.parse_args [lit "acva"; lit "demo"; lit "bargein"; kDelay; ms] with
  | inl a => Startup.demo a = lit "bargein" ∧ parse (Startup.demo_args a) = parse [kDelay; ms]
  | inr _ => False
  end.
Proof. exact (conj eq_refl eq_refl). Qed.

(** What it has counted at the end. *)
Record observed := MkObserved { sentences_emitted : Z; sentences_played : Z; llm_cancelled : bool }.
Definition on_event (e : Event.Event) (s : observed) : observed :=
  match e with
  | Event.LlmSentence _ _ _ _ => MkObserved (sentences_emitted s + 1) (sentences_played s) (llm_cancelled s)
  | Event.PlaybackFinished _ _ => MkObserved (sentences_emitted s) (sentences_played s + 1) (llm_cancelled s)
  | Event.LlmFinished _ cancelled _ => MkObserved (sentences_emitted s) (sentences_played s) cancelled
  | _ => s
  end.
Definition observe_all (es : list Event.Event) : observed := foldl (λ s e, on_event e s) (MkObserved 0 0 false) es.
Definition sentences_dropped (s : observed) : Z :=
  if decide (sentences_played s < sentences_emitted s)%Z then sentences_emitted s - sentences_played s else 0.
Definition outcome (s : observed) : str := if llm_cancelled s then lit "interrupted" else lit "completed".
Definition cascade_fired (s : observed) : bool := llm_cancelled s || bool_decide (0 < sentences_dropped s)%Z.
(** [latency]: what the engine reports, negative for nothing;
    [since_inject]: the wall clock. *)
Definition time_to_cancel_ms (latency since_inject : spec_float) : spec_float :=
  if SFltb latency (S754_zero false) then since_inject else latency.
Definition bargein_exit (s : observed) (time_to_cancel : spec_float) : Verdict :=
  verdict (cascade_fired s && negb (SFltb (double_of 400) time_to_cancel)).

(** A sentence that is still playing counts as dropped: an answer that had
    ended by itself before the interruption passes, with the outcome
    completed, when nothing was cancelled and nothing silenced. *)
Lemma passes_uncancelled t lang ms :
  SFltb (double_of 400) ms = false →
  let s := observe_all [Event.LlmStarted t; Event.LlmSentence t 0 (lit "The Moon.") lang; Event.LlmFinished t false 3;
                        Event.TtsAudioChunk t 0 960; Event.UserInterrupted t 0] in
  outcome s = lit "completed" ∧ bargein_exit s (time_to_cancel_ms (double_of (-1)) ms) = Success.
Proof.
  intros H s. split; [done|]. unfold bargein_exit. change (cascade_fired s) with true.
  change (time_to_cancel_ms (double_of (-1)) ms) with ms. by rewrite H.
Qed.
End BargeInDemo.

(** ** capture, transcribe and chat *)

Module Observers.
Import Event.

(** The pipeline the two microphone demonstrations build. *)
Definition pipeline_config (cfg : Config) : AudioPipeline.config :=
  AudioPipeline.MkConfig 16000 (Runtime.Stacks.endpointer_config (vad cfg)) (pre_padding_ms (vad cfg)) (post_padding_ms (vad cfg))
    (Z.to_nat (utt_max_in_flight (utterance cfg))) (max_duration_ms (utterance cfg)) 0.

(** It is that of the assistant, except that quiet utterances are not
    dropped. *)
Lemma pipeline_as_production cfg :
  pipeline_config cfg = Runtime.Stacks.pipeline_config cfg ↔ min_utterance_rms (stt cfg) = 0%Z.
Proof.
  unfold pipeline_config, Runtime.Stacks.pipeline_config. split; [intros [= H]; congruence|intros ->; done].
Qed.

(** *** The log of utterances

    The list is in the order in which the handlers run; each of the two
    subscriptions has its own worker, so this need not be the order of
    publication. *)

Record UtteranceLog := MkLog { started_at : Z; ended_at : Z; log_samples : nat; log_rate : Z }.
Definition log_new : UtteranceLog := MkLog 0 0 0 16000.
Record capture_log := MkCaptureLog { log : list UtteranceLog; pending : UtteranceLog }.
Definition capture_event (e : Event) (s : capture_log) : capture_log :=
  match e with
  | SpeechStarted _ ts => MkCaptureLog (log s) (MkLog ts 0 0 16000)
  | UtteranceReady _ (Some a) =>
      let p := MkLog (started_at (pending s)) (slice_ended_at a) (length (slice_samples a)) (slice_sample_rate a) in
      MkCaptureLog (log s ++ [p]) p
  | _ => s
  end.
Definition capture_run (es : list Event) : capture_log := foldl (λ s e, capture_event e s) (MkCaptureLog [] log_new) es.

(** Speech that may start several times before an utterance comes of it. *)
Definition episode (starts : list Z) (start : Z) (t : TurnId) (a : AudioSlice) : list Event :=
  (SpeechStarted t <$> starts) ++ [SpeechStarted t start; SpeechEnded t (slice_ended_at a); UtteranceReady t (Some a)].
Definition entry (start : Z) (a : AudioSlice) : UtteranceLog :=
  MkLog start (slice_ended_at a) (length (slice_samples a)) (slice_sample_rate a).

(** As long as the handlers run in the order of publication, every utterance
    is logged, in order, under the last start of speech before it. *)
Lemma capture_logged (eps : list (list Z * Z * TurnId * AudioSlice)) :
  log (capture_run (eps ≫= λ '(starts, start, t, a), episode starts start t a))
  = (λ '(starts, start, t, a), entry start a) <$> eps.
Proof.
  unfold capture_run. cut (∀ s, log (foldl (λ s e, capture_event e s) s (eps ≫= λ '(starts, start, t, a), episode starts start t a))
    = log s ++ ((λ '(starts, start, t, a), entry start a) <$> eps)); [intros H; apply H|].
  induction eps as [|[[[starts start] t] a] eps IH]; intros s; [by rewrite app_nil_r|].
  rewrite bind_cons, foldl_app, IH. unfold episode. rewrite foldl_app.
  assert (∀ s, log (foldl (λ s e, capture_event e s) s (SpeechStarted t <$> starts)) = log s) as Hl.
  { clear. induction starts as [|x l IH]; intros s; cbn; [done|]. by rewrite IH. }
  cbn. rewrite Hl. by rewrite <- app_assoc.
Qed.

(** When the handler of the first utterance is late, it is logged under the
    start of the second. *)
Example logged_late t a b :
  log (capture_run [SpeechStarted t 10; SpeechStarted t 20; UtteranceReady t (Some a); UtteranceReady t (Some b)])
  = [entry 20 a; entry 20 b].
Proof. reflexivity. Qed.

(** *** transcribe *)

(** What the subscriptions ask of the recogniser, and what it calls back. *)
Inductive Ask := BeginUtterance | EndUtterance.
Definition transcribe_event (e : Event) : option Ask :=
  match e with SpeechStarted _ _ => Some BeginUtterance | SpeechEnded _ _ => Some EndUtterance | _ => None end.
Inductive Heard := Partial (e : Event) | Final (e : Event) | Error (m : str).
Definition transcribe_count (c : nat * nat) (h : Heard) : nat * nat :=
  match h with Partial _ => (S c.1, c.2) | Final _ => (c.1, S c.2) | Error _ => c end.
(** Thirty seconds, or a signal. *)
Definition transcribe_waits (elapsed_ms signal : Z) : bool := bool_decide (elapsed_ms < 30000 ∧ signal = 0)%Z.

(** *** chat *)

Record chat := MkChat { playback_turn : TurnId; llm_finished : bool; tokens : nat; chat_cancelled : bool }.
Definition chat_new : chat := MkChat kNoTurn false 0 false.
Definition chat_event (e : Event) (s : chat) : chat :=
  match e with
  | LlmStarted t => MkChat t (llm_finished s) (tokens s) (chat_cancelled s)
  | LlmFinished _ cancelled n => MkChat (playback_turn s) true n cancelled
  | _ => s
  end.
(** The prompt, as the transcript of a user. *)
Definition chat_prompt (cfg : Config) (prompt : str) : Event :=
  FinalTranscript kNoTurn prompt (fallback_lang (tts cfg)) (Some 1%Q) 0 0.
Definition waits_for_llm (elapsed_ms : Z) (s : chat) : bool := negb (llm_finished s) && bool_decide (elapsed_ms < 60000)%Z.
Definition waits_for_playback (elapsed_ms : Z) (queued : nat) (chunks_played : Z) : bool :=
  (bool_decide (0 < queued) || bool_decide (chunks_played = 0%Z)) && bool_decide (elapsed_ms < 30000)%Z.
End Observers.

(** ** What is started is stopped *)

Module Lifecycle.
(** The database is a file in the temporary directory. *)
Inductive Part := Database | Fsm | Engine | Bridge | Manager | Capture | Pipeline | SttClient | Worker | Printer.
#[global] Instance part_eq_dec : EqDecision Part.
Proof. solve_decision. Defined.
Inductive Op := Start (p : Part) | Stop (p : Part) | ShutdownBus.

Local Open Scope act_scope.
Abbreviation D := (Act unit Op).
(** [start()] of an engine: nothing runs when it fails. *)
Definition try_start (p : Part) (ok : bool) : D bool := (when ok do emit (Start p));; ret ok.
Fixpoint stop_all (ps : list Part) : D unit := match ps with [] => skip | p :: ps => emit (Stop p);; stop_all ps end.
(** Stops, in this order, and the bus. *)
Definition finish (ps : list Part) (v : Verdict) : D Verdict := stop_all ps;; emit ShutdownBus;; ret v.
Definition fail_after (ps : list Part) : D Verdict := stop_all ps;; ret Failure.

Definition run_tone (engine_starts : bool) (v : Verdict) : D Verdict :=
  ok ← try_start Engine engine_starts;
  if ok then finish [Engine] v else fail_after [].

Definition run_tts (cfg : Config) (engine_starts : bool) (v : Verdict) : D Verdict :=
  if decide (voices (tts cfg) = []) then fail_after [] else
  ok ← try_start Engine engine_starts;
  if negb ok then fail_after [] else emit (Start Bridge);; finish [Bridge; Engine] v.

Definition run_loopback (capture_starts engine_starts : bool) : D Verdict :=
  ok ← try_start Capture capture_starts;
  if negb ok then fail_after [] else
  ok ← try_start Engine engine_starts;
  if negb ok then fail_after [Capture] else
  emit (Start Worker);; finish [Worker; Capture; Engine] Success.

Definition run_capture (capture_starts : bool) : D Verdict :=
  ok ← try_start Capture capture_starts;
  if negb ok then fail_after [] else emit (Start Pipeline);; finish [Capture; Pipeline] Success.

(** [stt_ready]: the recogniser is ready in time; when it is not, its
    destructor ends it. *)
Definition run_transcribe (cfg : Config) (capture_starts capture_headless stt_ready : bool) : D Verdict :=
  if decide (stt_base_url (stt cfg) = []) then fail_after [] else
  ok ← try_start Capture capture_starts;
  if negb ok then fail_after [] else
  if capture_headless then fail_after [Capture] else
  ok ← try_start SttClient stt_ready;
  if negb ok then fail_after [Capture] else
  emit (Start Pipeline);; finish [Pipeline; Capture; SttClient] Success.

(** The two engines of the echo demonstrations, neither of them headless. *)
Definition run_devices (engine_starts engine_headless capture_starts capture_headless : bool) (k : D Verdict) : D Verdict :=
  ok ← try_start Engine engine_starts;
  if negb ok then fail_after [] else
  if engine_headless then fail_after [Engine] else
  ok ← try_start Capture capture_starts;
  if negb ok then fail_after [Engine] else
  if capture_headless then fail_after [Capture; Engine] else k.

(** [erle_db]: of the canceller at the end. *)
Definition run_aec_hw (cfg : Config) (engine_starts engine_headless capture_starts capture_headless apm_active : bool)
    (erle_db : fl) : D Verdict :=
  if negb (capture_enabled (audio cfg)) then fail_after [] else
  if decide (output_device (audio cfg) = lit "none") then fail_after [] else
  if negb (aec_enabled (apm cfg)) then fail_after [] else
  run_devices engine_starts engine_headless capture_starts capture_headless (
    emit (Start Pipeline);;
    if negb apm_active then fail_after [Pipeline; Capture; Engine] else
    emit (Start Printer);;
    finish [Printer; Pipeline; Capture; Engine] (verdict (fl_le (Some 25%Q) erle_db))).

(** [synth]: the samples and their rate, or an error; [write]: whether a file
    can be written. *)
Definition run_aec_record (cfg : Config) (mkdir_ok : bool) (synth : nat * Z + str) (write : str → bool)
    (engine_starts engine_headless capture_starts capture_headless apm_active : bool) : D Verdict :=
  if decide (voices (tts cfg) = []) then fail_after [] else
  if negb (capture_enabled (audio cfg)) then fail_after [] else
  if decide (output_device (audio cfg) = lit "none") then fail_after [] else
  if negb mkdir_ok then fail_after [] else
  match synth with
  | inr _ => fail_after []
  | inl (samples, rate) =>
      if bool_decide (samples = 0) || bool_decide (rate <= 0)%Z then fail_after [] else
      if negb (write (lit "original.wav")) then fail_after [] else
      run_devices engine_starts engine_headless capture_starts capture_headless (
        if aec_enabled (apm cfg) && negb apm_active then fail_after [Capture; Engine] else
        emit (Start Worker);;
        finish [Worker; Capture; Engine]
          (verdict (write (lit "raw_recording.wav") && write (lit "aec_recording.wav"))))
  end.

(** The two that run the dialogue over a database of their own; [k]: the part
    after the prompt, and whether it gave up waiting. *)
Definition run_dialogue (cfg : Config) (db_opens probe engine_starts waited : bool) (v : Verdict) : D Verdict :=
  if decide (voices (tts cfg) = []) then fail_after [] else
  ok ← try_start Database db_opens;
  if negb ok then fail_after [] else
  if negb probe then fail_after [Database] else
  emit (Start Fsm);;
  ok ← try_start Engine engine_starts;
  if negb ok then fail_after [Database] else
  emit (Start Bridge);; emit (Start Manager);;
  if negb waited then (stop_all [Manager; Bridge; Engine; Fsm];; emit ShutdownBus;; emit (Stop Database);; ret Failure)
  else (stop_all [Manager; Bridge; Engine; Fsm];; emit ShutdownBus;; emit (Stop Database);; ret v).
Definition chat_exit (tokens synthesized : nat) : Verdict := verdict (negb (bool_decide (tokens = 0)) && negb (bool_decide (synthesized = 0))).
Definition run_chat (cfg : Config) (db_opens probe engine_starts llm_finished : bool) (tokens synthesized : nat) : D Verdict :=
  run_dialogue cfg db_opens probe engine_starts llm_finished (chat_exit tokens synthesized).
Definition run_bargein (cfg : Config) (args : list str) (db_opens probe engine_starts first_chunk : bool)
    (o : BargeInDemo.observed) (time_to_cancel : spec_float) : D Verdict :=
  match BargeInDemo.args_exit (BargeInDemo.parse args) with
  | Some v => ret v
  | None => run_dialogue cfg db_opens probe engine_starts first_chunk (BargeInDemo.bargein_exit o time_to_cancel)
  end.

(** What is left running. *)
Definition after (l : list Part) (o : Op) : list Part :=
  match o with Start p => p :: l | Stop p => filter (λ q, q ≠ p) l | ShutdownBus => l end.
Definition left_running (os : list Op) : list Part := foldl after [] os.
Definition ends (m : D Verdict) : list Part := left_running (outs m tt).

(** All the ways through a demonstration: its tests one by one. *)
Ltac ways := repeat match goal with
  | b : bool |- _ => destruct b; try reflexivity
  | |- context [decide ?P] => destruct (decide P); try reflexivity
  | |- context [bool_decide ?P] => destruct (bool_decide P); try reflexivity
  | |- context [capture_enabled ?a] => destruct (capture_enabled a); try reflexivity
  | |- context [aec_enabled ?a] => destruct (aec_enabled a); try reflexivity
  end.

(** Whatever the devices and servers answer, a demonstration stops what it
    has started before it returns, on every way out. *)
Theorem audio_demos_stop cfg e eh c ch r a v erle m synth write :
  ends (run_tone e v) = [] ∧ ends (run_tts cfg e v) = [] ∧ ends (run_loopback c e) = [] ∧ ends (run_capture c) = [] ∧
  ends (run_transcribe cfg c ch r) = [] ∧ ends (run_aec_hw cfg e eh c ch a erle) = [] ∧
  ends (run_aec_record cfg m synth write e eh c ch a) = [].
Proof.
  split_and!.
  - clear. unfold run_tone. ways.
  - clear. unfold run_tts. ways.
  - clear. unfold run_loopback. ways.
  - clear. unfold run_capture. ways.
  - clear. unfold run_transcribe. ways.
  - clear. unfold run_aec_hw, run_devices. ways.
  - clear. unfold run_aec_record, run_devices. destruct synth as [[n rate]|err]; [|ways].
    destruct (write (lit "original.wav")); ways.
Qed.

(** The two that open a database remove it, and stop what they have started,
    with one exception: when the audio engine does not start, the state
    machine is left to its destructor. *)
Theorem dialogue_demos_stop cfg d p e w v :
  ends (run_dialogue cfg d p e w v)
  = if decide (voices (tts cfg) ≠ [] ∧ d = true ∧ p = true ∧ e = false) then [Fsm] else [].
Proof.
  unfold run_dialogue. destruct (decide (voices (tts cfg) = [])) as [Hv|Hv].
  - rewrite decide_False by naive_solver. done.
  - destruct d; [|by rewrite decide_False by naive_solver]. destruct p; [|by rewrite decide_False by naive_solver].
    destruct e; [rewrite decide_False by naive_solver|by rewrite decide_True]. by destruct w.
Qed.

(** The echo test of the hardware passes exactly when everything was there
    and the canceller reports 25 dB. *)
Theorem aec_hw_passes cfg e eh c ch a erle :
  result (run_aec_hw cfg e eh c ch a erle) tt = Success ↔
  capture_enabled (audio cfg) = true ∧ output_device (audio cfg) ≠ lit "none" ∧ aec_enabled (apm cfg) = true ∧
  e = true ∧ eh = false ∧ c = true ∧ ch = false ∧ a = true ∧ fl_le (Some 25%Q) erle = true.
Proof.
  unfold run_aec_hw, run_devices.
  destruct (capture_enabled (audio cfg)); [|split; [discriminate|intuition discriminate]].
  destruct (decide (output_device (audio cfg) = lit "none")) as [Hd|Hd]; [split; [discriminate|naive_solver]|].
  destruct (aec_enabled (apm cfg)); [|split; [discriminate|intuition discriminate]].
  destruct e; [|split; [discriminate|intuition discriminate]]. destruct eh; [split; [discriminate|intuition discriminate]|].
  destruct c; [|split; [discriminate|intuition discriminate]]. destruct ch; [split; [discriminate|intuition discriminate]|].
  destruct a; [|split; [discriminate|intuition discriminate]].
  set (x := fl_le (Some 25%Q) erle). clearbody x. destruct x; cbn.
  - split; [intuition|done].
  - split; [discriminate|intros H; decompose [and] H; discriminate].
Qed.
End Lifecycle.
