(* ===== verification/Soak.v ===== *)
(** * The load test (src/src/demos/soak.cpp, stt.cpp)

    [acva demo soak]: two workers, one per service, tally their requests
    while the main thread takes the tallies of the last second; then
    percentiles and the peak of the video memory. [Fixture]: the conversion
    of the synthesised sentence to 16 kHz, which stt.cpp has too. A counter
    is an atomic accessed once per step. *)
From stdpp Require Import sorting.
From S2P Require Import Prelude Config.
From S2P Require Dsp Demos.

(** ** The fixture *)

Module Fixture.
Definition ratio : spec_float := double_div (double_of 16000) (double_of 22050).
Definition out_length (n : nat) : nat := Dsp.Resampler.trunc (SFmul 53 1024 (double_of (Z.of_nat n)) ratio).
Definition source_index (i : nat) : nat := Dsp.Resampler.trunc (double_div (double_of (Z.of_nat i)) ratio).
Definition downsample_22050_to_16000 (src : list Z) : list Z :=
  (λ i, default 0%Z (src !! source_index i)) <$> seq 0 (out_length (length src)).

Lemma downsample_length src : length (downsample_22050_to_16000 src) = out_length (length src).
Proof. unfold downsample_22050_to_16000. by rewrite length_fmap, length_seq. Qed.
(** No sample is made up: each is one of the source, or silence. *)
Lemma downsample_in src x : x ∈ downsample_22050_to_16000 src → x ∈ src ∨ x = 0%Z.
Proof.
  unfold downsample_22050_to_16000. intros (i & -> & _)%list_elem_of_fmap.
  destruct (src !! source_index i) as [y|] eqn:E; [left|by right]. by apply list_elem_of_lookup_2 in E.
Qed.
Example one_second : Z.of_nat (out_length (Z.to_nat 22050)) = 16000%Z ∧ Z.of_nat (source_index (Z.to_nat 15999)) = 22048%Z.
Proof. split; vm_compute; reflexivity. Qed.
End Fixture.

(** ** Tallies *)

Module Tally.
(** A request that succeeded: milliseconds, milliseconds of audio, bytes. *)
Record Request := MkRequest { ms : Z; audio_ms : Z; bytes : Z }.
Record Counters := MkCounters {
  req : Z; errors : Z; total_ms : Z; total_bytes : Z; total_audio_ms : Z;
  w_count : Z; w_sum_ms : Z; w_audio_ms : Z; samples : list Z;
}.
#[global] Instance eta_counters : Eta Counters := λ c,
  MkCounters (req c) (errors c) (total_ms c) (total_bytes c) (total_audio_ms c) (w_count c) (w_sum_ms c) (w_audio_ms c) (samples c).
Definition counters_new : Counters := MkCounters 0 0 0 0 0 0 0 0 [].

(** The [k]-th access of [record]. *)
Definition record_step (k : nat) (r : Request) (c : Counters) : Counters :=
  match k with
  | 0 => c <| req ::= Z.succ |>
  | 1 => c <| total_ms ::= Z.add (ms r) |>
  | 2 => c <| total_audio_ms ::= Z.add (audio_ms r) |>
  | 3 => c <| total_bytes ::= Z.add (bytes r) |>
  | 4 => c <| w_count ::= Z.succ |>
  | 5 => c <| w_sum_ms ::= Z.add (ms r) |>
  | 6 => c <| w_audio_ms ::= Z.add (audio_ms r) |>
  | _ => c <| samples ::= λ l, l ++ [ms r] |>
  end.

(** The worker: before its test of [stop], in a request, in [record], gone;
    the main thread: between two windows, or with one and two of the three
    values of a window taken. *)
Inductive WorkerPc := WTest | WSubmit | WRecord (k : nat) (r : Request) | WDone.
Inductive MainPc := MIdle | MCount (n : Z) | MSum (n sum : Z).
Record sys := MkSys {
  c : Counters; stop_ : bool; worker : WorkerPc; main : MainPc;
  windows : list (Z * Z * Z);       (* the windows taken *)
  recorded : list Request;          (* the requests [record] was called for *)
}.
#[global] Instance eta_sys : Eta sys := λ s, MkSys (c s) (stop_ s) (worker s) (main s) (windows s) (recorded s).
Definition sys_new : sys := MkSys counters_new false WTest MIdle [] [].

(** [Returns]: [submit] comes back, [None] with an error. *)
Inductive Label := Work | Returns (r : option Request) | Snap | StopStore.
Definition step (l : Label) (s : sys) : sys :=
  match l with
  | Work =>
      match worker s with
      | WTest => s <| worker := if stop_ s then WDone else WSubmit |>
      | WRecord k r => s <| c ::= record_step k r |> <| worker := if Nat.ltb k 7 then WRecord (S k) r else WTest |>
      | _ => s
      end
  | Returns r =>
      match worker s with
      | WSubmit =>
          match r with
          | None => s <| c ::= (λ c, c <| errors ::= Z.succ |>) |> <| worker := WTest |>
          | Some r => s <| worker := WRecord 0 r |> <| recorded ::= λ l, l ++ [r] |>
          end
      | _ => s
      end
  | Snap =>
      match main s with
      | MIdle => s <| main := MCount (w_count (c s)) |> <| c ::= (λ c, c <| w_count := 0%Z |>) |>
      | MCount n => s <| main := MSum n (w_sum_ms (c s)) |> <| c ::= (λ c, c <| w_sum_ms := 0%Z |>) |>
      | MSum n sum =>
          s <| main := MIdle |> <| windows ::= λ ws, ws ++ [(n, sum, w_audio_ms (c s))] |>
            <| c ::= (λ c, c <| w_audio_ms := 0%Z |>) |>
      end
  | StopStore => s <| stop_ := true |>
  end.
Definition run (ls : list Label) (s : sys) : sys := foldl (λ s l, step l s) s ls.

(** ** The ledger *)

Definition total (f : Request → Z) (rs : list Request) : Z := foldr (λ r t, f r + t)%Z 0%Z rs.
Definition sum_w (f : Z * Z * Z → Z) (ws : list (Z * Z * Z)) : Z := foldr (λ w t, f w + t)%Z 0%Z ws.
(** The request whose [i]-th access is still to come. *)
Definition pending (i : nat) (s : sys) : list Request :=
  match worker s with WRecord k r => if Nat.leb k i then [r] else [] | _ => [] end.
Definition held_count (m : MainPc) : Z := match m with MIdle => 0 | MCount n | MSum n _ => n end.
Definition held_sum (m : MainPc) : Z := match m with MSum _ sum => sum | _ => 0 end.

Record ledger (s : sys) : Prop := {
  le_pc : ∀ k r, worker s = WRecord k r → k ≤ 7;
  le_req : (req (c s) + total (λ _, 1) (pending 0 s) = total (λ _, 1) (recorded s))%Z;
  le_ms : (total_ms (c s) + total ms (pending 1 s) = total ms (recorded s))%Z;
  le_audio : (total_audio_ms (c s) + total audio_ms (pending 2 s) = total audio_ms (recorded s))%Z;
  le_bytes : (total_bytes (c s) + total bytes (pending 3 s) = total bytes (recorded s))%Z;
  le_wcount : (sum_w (λ w, w.1.1) (windows s) + held_count (main s) + w_count (c s) + total (λ _, 1) (pending 4 s) = total (λ _, 1) (recorded s))%Z;
  le_wsum : (sum_w (λ w, w.1.2) (windows s) + held_sum (main s) + w_sum_ms (c s) + total ms (pending 5 s) = total ms (recorded s))%Z;
  le_waudio : (sum_w (λ w, w.2) (windows s) + w_audio_ms (c s) + total audio_ms (pending 6 s) = total audio_ms (recorded s))%Z;
  le_samples : samples (c s) ++ (ms <$> pending 7 s) = ms <$> recorded s;
}.

Lemma tally_app f a b : total f (a ++ b) = (total f a + total f b)%Z.
Proof. unfold total. induction a as [|r a IH]; cbn; [done|]. rewrite IH. lia. Qed.
Lemma sum_w_app f a b : sum_w f (a ++ b) = (sum_w f a + sum_w f b)%Z.
Proof. unfold sum_w. induction a as [|w a IH]; cbn; [done|]. rewrite IH. lia. Qed.

Lemma total_nil f : total f [] = 0%Z.
Proof. done. Qed.
Lemma total_one f r : total f [r] = f r.
Proof. cbn. lia. Qed.
Lemma sum_w_one f w : sum_w f [w] = f w.
Proof. cbn. lia. Qed.
#[local] Arguments total : simpl never.
#[local] Arguments sum_w : simpl never.
Ltac tally := rewrite ?tally_app, ?sum_w_app, ?total_one, ?total_nil, ?sum_w_one, ?fmap_app, ?app_nil_r in *; cbn in *.

Lemma step_ledger l s : ledger s → ledger (step l s).
Proof.
  destruct s as [ct st w m ws rs]. intros [H0 H1 H2 H3 H4 H5 H6 H7 H8]. cbn in *.
  destruct l as [|r| |]; cbn [step worker main stop_].
  - destruct w as [| |k r|]; try by (split; cbn in *; auto).
    + destruct st; split; cbn in *; auto; discriminate.
    + specialize (H0 k r eq_refl). unfold pending in *. cbn in *.
      do 8 (destruct k as [|k]; [by (split; unfold pending; cbn in *; tally; try (intros ?? [= <- <-]); try lia; try done)|]). lia.
  - destruct w as [| |k r'|]; try by (split; cbn in *; auto).
    destruct r as [r|]; [|split; cbn in *; auto; discriminate].
    split; unfold pending in *; cbn in *; tally; [intros ?? [= <- <-]; lia|lia..|]. by rewrite H8.
  - destruct m as [|n|n sm]; split; unfold pending in *; cbn in *; tally; auto; try lia.
  - split; unfold pending in *; cbn in *; auto.
Qed.

Lemma run_ledger ls : ledger (run ls sys_new).
Proof.
  unfold run. assert (ledger sys_new) as H by (split; cbn; done).
  revert H. generalize sys_new as s. induction ls as [|l ls IH]; intros s H; cbn; [done|]. by apply IH, step_ledger.
Qed.

(** Over every interleaving of a worker's tallying and the main thread's
    windows: once the worker is joined, the totals are those of the requests
    recorded, each of them with its sample, and every request is in exactly
    one window or in what is left for the next. *)
Theorem soak_ledger ls :
  let s := run ls sys_new in
  worker s = WDone → main s = MIdle →
  samples (c s) = ms <$> recorded s ∧ req (c s) = total (λ _, 1%Z) (recorded s) ∧
  total_ms (c s) = total ms (recorded s) ∧ total_audio_ms (c s) = total audio_ms (recorded s) ∧
  total_bytes (c s) = total bytes (recorded s) ∧
  (sum_w (λ w, w.1.1) (windows s) + w_count (c s) = req (c s))%Z ∧
  (sum_w (λ w, w.1.2) (windows s) + w_sum_ms (c s) = total_ms (c s))%Z ∧
  (sum_w (λ w, w.2) (windows s) + w_audio_ms (c s) = total_audio_ms (c s))%Z.
Proof.
  intros s Hw Hm. destruct (run_ledger ls) as [_ H1 H2 H3 H4 H5 H6 H7 H8]. fold s in H1, H2, H3, H4, H5, H6, H7, H8.
  unfold pending in *. rewrite Hw, Hm in *. cbn in *. tally. split_and!; [done|lia..].
Qed.
Lemma soak_ledger_witness :
  let r := MkRequest 40 900 2 in
  let s := run (Work :: Returns (Some r) :: replicate 5 Work ++ [Snap; Work; Snap; Snap] ++ replicate 2 Work ++ [StopStore; Work]) sys_new in
  worker s = WDone ∧ windows s = [(1, 40, 0)]%Z ∧ req (c s) = 1%Z.
Proof.
  cbv zeta. split; [vm_compute; reflexivity|]. split; [vm_compute; reflexivity|].
  pose proof (soak_ledger (Work :: Returns (Some (MkRequest 40 900 2)) :: replicate 5 Work ++ [Snap; Work; Snap; Snap] ++
    replicate 2 Work ++ [StopStore; Work]) ltac:(vm_compute; reflexivity) ltac:(vm_compute; reflexivity)) as (_ & H & _).
  rewrite H. vm_compute. reflexivity.
Defined.
End Tally.

(** ** The summary *)

Module Summary.
(** [std::sort]; [p] is a percentile as a double. *)
Definition sort (l : list Z) : list Z := merge_sort Z.le l.
Definition pct (sorted : list Z) (p : spec_float) : Z :=
  if decide (sorted = []) then 0
  else
    let i := Nat.min (length sorted - 1) (Dsp.Resampler.trunc (SFmul 53 1024 p (double_of (Z.of_nat (length sorted))))) in
    default 0%Z (sorted !! i).
Definition mean_ms (samples : list Z) : Z :=
  if decide (samples = []) then 0 else (foldl Z.add 0 samples / Z.of_nat (length samples))%Z.
(** Audio per wall-clock time. *)
Definition rtf (wall audio : Z) : spec_float :=
  if decide (wall = 0%Z) then S754_zero false else double_div (double_of audio) (double_of wall).
(** 0.50, 0.90, 0.95, 0.99. *)
Definition p50 : spec_float := S754_finite false 4503599627370496 (-53).
Definition p90 : spec_float := S754_finite false 8106479329266893 (-53).
Definition p95 : spec_float := S754_finite false 8556839292003942 (-53).
Definition p99 : spec_float := S754_finite false 8917127262193582 (-53).

Lemma sorted_ends l x : Sorted Z.le l → x ∈ l → (default 0 (head l) <= x <= default 0 (last l))%Z.
Proof.
  intros Hs%Sorted_StronglySorted; [|intros ???; lia]. induction Hs as [|y l Hs IH Hy]; [set_solver|].
  intros [->|Hx]%elem_of_cons.
  - cbn [head default]. split; [cbn; lia|]. destruct l as [|z l]; [cbn; lia|]. rewrite last_cons_cons.
    destruct (last (z :: l)) as [w|] eqn:E; [|by rewrite last_None in E]. cbn.
    rewrite Forall_forall in Hy. apply Hy. by apply last_Some_elem_of.
  - specialize (IH Hx). rewrite Forall_forall in Hy. specialize (Hy _ Hx). split; [cbn; lia|].
    destruct l as [|z l]; [set_solver|]. rewrite last_cons_cons. lia.
Qed.

(** A percentile is one of the samples, between the least and the greatest. *)
Theorem pct_between samples p :
  samples ≠ [] →
  let s := sort samples in
  pct s p ∈ samples ∧ (default 0 (head s) <= pct s p <= default 0 (last s))%Z.
Proof.
  intros Hne s. assert (s ≡ₚ samples) as Hp by apply merge_sort_Permutation.
  assert (s ≠ []) as Hs. { intros E. rewrite E in Hp. by apply Permutation_nil_l in Hp. }
  assert (pct s p ∈ s) as Hin.
  { unfold pct. rewrite decide_False by done. set (i := Nat.min _ _).
    assert (i < length s) as Hi by (destruct s; [done|cbn in *; lia]).
    apply lookup_lt_is_Some in Hi as [x Hx]. rewrite Hx. cbn. by eapply list_elem_of_lookup_2. }
  split; [by rewrite <- Hp|]. apply sorted_ends; [|done]. apply Sorted_merge_sort. intros ??. lia.
Qed.
Lemma pct_between_witness : pct (sort [30; 10; 20]%Z) p50 ∈ [30; 10; 20]%Z.
Proof. apply (pct_between [30; 10; 20]%Z p50). discriminate. Defined.
Example hundred : pct (Z.of_nat <$> seq 1 100) <$> [p50; p90; p95; p99] = [51; 91; 96; 100]%Z.
Proof. vm_compute. reflexivity. Qed.

(** *** Video memory *)

(** What [nvidia-smi] printed, if it did: used and free. *)
Definition snap_vram (out : option (Z * Z)) : Z * Z := default (-1, -1)%Z out.
Record vram := MkVram { vram_max_used : Z; vram_min_free : Z; vram_max_at_s : nat }.
Definition vram_new (baseline : Z * Z) : vram := MkVram baseline.1 baseline.2 0.
Definition vram_tick (sec : nat) (v : Z * Z) (s : vram) : vram :=
  let s := if decide (vram_max_used s < v.1)%Z then MkVram v.1 (vram_min_free s) sec else s in
  if decide (0 <= v.2 ∧ (vram_min_free s < 0 ∨ v.2 < vram_min_free s))%Z
  then MkVram (vram_max_used s) v.2 (vram_max_at_s s) else s.
Fixpoint vram_run (sec : nat) (vs : list (Z * Z)) (s : vram) : vram :=
  match vs with [] => s | v :: vs => vram_run (S sec) vs (vram_tick sec v s) end.

Lemma vram_tick_used sec v s : vram_max_used (vram_tick sec v s) = Z.max (vram_max_used s) v.1.
Proof. unfold vram_tick. repeat case_decide; cbn; lia. Qed.
(** The peak is the greatest of what was read, baseline included. *)
Lemma vram_peak vs sec s : vram_max_used (vram_run sec vs s) = foldl Z.max (vram_max_used s) vs.*1.
Proof. revert sec s. induction vs as [|v vs IH]; intros sec s; cbn; [done|]. by rewrite IH, vram_tick_used. Qed.
(** The least free memory forgets failed readings, the baseline's too. *)
Lemma vram_least vs sec s m :
  Forall (λ v, 0 <= v.2 → m <= v.2)%Z vs → (0 <= vram_min_free s → m <= vram_min_free s)%Z →
  let f := vram_min_free (vram_run sec vs s) in (0 <= f → m <= f)%Z.
Proof.
  intros H. revert sec s. induction H as [|v vs Hv _ IH]; intros sec s Hs; cbn; [done|]. apply IH.
  unfold vram_tick. destruct (decide (vram_max_used s < v.1)%Z); case_decide as Hd; cbn in *; tauto.
Qed.

(** *** The whole test *)

Definition kDurationSec : nat := 300.
(** [fixture]: what the first synthesis gives; [errors]: of both workers. *)
Definition run_soak (cfg : Config) (fixture : list Z + str) (errors : Z) : Demos.Verdict :=
  match Demos.Wedge.configured cfg with
  | Some d => Demos.Wedge.wedge_exit d
  | None =>
      match fixture with
      | inr _ | inl [] => Demos.Failure
      | inl _ => if decide (0 < errors)%Z then Demos.Failure else Demos.Success
      end
  end.
(** A short synthesis leaves a fixture without samples after the conversion,
    which the test goes on with: only what came before it is looked at. *)
Example empty_fixture : Fixture.downsample_22050_to_16000 [5%Z] = [].
Proof. vm_compute. reflexivity. Qed.
End Summary.
