(* ===== verification/DemoAudio.v ===== *)
(** * The audio demonstrations (src/src/demos/tone.cpp, loopback.cpp, aec.cpp,
      aec_hw.cpp, aec_record.cpp)

    What the demonstrations do with samples: [Producer], the loops that feed a
    signal to the playback queue while the engine takes from it; [Tone] and
    [Stimulus], the signals; [LoopbackWorker], from the microphone to the
    queue; [Recorder], the thread that records microphone and cleaned
    signal; [Statistics] and [Synthetic], what is reported.
    Doubles are IEEE binary64, [long double] is the 80-bit format of x86-64;
    [sin], [log10] and the random generator are parameters. *)
From S2P Require Import Prelude Event Turn PlaybackQueue.
From S2P Require Loopback Capture Dsp AudioPipeline.

(** ** Doubles *)

Definition add := SFadd 53 1024.
Definition sub := SFsub 53 1024.
Definition mul := SFmul 53 1024.
Definition div := SFdiv 53 1024.
(** [std::numbers::pi_v<double>]. *)
Definition pi : spec_float := S754_finite false 7074237752028440 (-51).
(** [static_cast<std::int64_t>] of a double, and [std::lround], which rounds
    halves away from zero; the next two narrow to 16 bits. *)
Definition truncate (x : spec_float) : Z :=
  match x with
  | S754_finite s m e => cond_Zopp s (if decide (0 <= e)%Z then Z.shiftl (Zpos m) e else Z.shiftr (Zpos m) (- e))
  | _ => 0
  end.
Definition lround (x : spec_float) : Z :=
  match x with
  | S754_finite s m e =>
      cond_Zopp s (if decide (0 <= e)%Z then Z.shiftl (Zpos m) e else Z.shiftr (Zpos m + Z.shiftl 1 (- e - 1)) (- e))
  | _ => 0
  end.
Definition i16 (z : Z) : Z := ((z + 2 ^ 15) mod 2 ^ 16 - 2 ^ 15)%Z.

(** ** Feeding the playback queue *)

Module Producer.
Definition kFakeTurn : TurnId := 1.

(** [i], [seq] of the loop over the signal, and the queue. *)
Record producer := MkProducer { i : nat; seq_ : Z; queue : PlaybackQueue }.
#[global] Instance eta_producer : Eta producer := λ s, MkProducer (i s) (seq_ s) (queue s).
Definition producer_new (cap : nat) : producer := MkProducer 0 0 (pq_new cap).

Section producer.
(** [precheck]: the loop waits while [queue.size() >= queue.capacity()]. *)
Context (precheck : bool) (buf : nat) (pcm : list Z).

(** An iteration of the loop, or a sleep of the wait in it. *)
Definition produce (s : producer) : producer :=
  if decide (length pcm ≤ i s) then s
  else
    let n := Nat.min buf (length pcm - i s) in
    let chunk := Chunk kFakeTurn (seq_ s) (take n (drop (i s) pcm)) false in
    if precheck && bool_decide (cap_ (queue s) ≤ size (queue s)) then s
    else s <| queue := (enqueue chunk (queue s)).2 |> <| seq_ ::= λ q, u32 (q + 1) |> <| i ::= Nat.add n |>.

(** [Render]: the audio callback asks for the next chunk. *)
Inductive Label := Produce | Render.
Definition step (l : Label) (s : producer * list AudioChunk) : producer * list AudioChunk :=
  let '(p, played) := s in
  match l with
  | Produce => (produce p, played)
  | Render =>
      let '(c, q) := dequeue_active kFakeTurn (queue p) in
      (p <| queue := q |>, played ++ option_list c)
  end.
Definition run (ls : list Label) (s : producer * list AudioChunk) : producer * list AudioChunk :=
  foldl (λ s l, step l s) s ls.

(** The chunk after the signal. *)
Definition eos (s : producer) : producer :=
  s <| queue := (enqueue (Chunk kFakeTurn (seq_ s) [] true) (queue s)).2 |> <| seq_ ::= λ q, u32 (q + 1) |>.

(** What has left the producer is played or waits in the queue: the signal up
    to [i], in order, nothing dropped. *)
Record fed (cap : nat) (s : producer * list AudioChunk) : Prop := {
  fe_cap : cap_ (queue s.1) = cap;
  fe_i : i s.1 ≤ length pcm;
  fe_turn : Forall (λ c, turn c = kFakeTurn) (q_ (queue s.1));
  fe_samples : mjoin (samples <$> s.2 ++ q_ (queue s.1)) = take (i s.1) pcm;
  fe_drops : drops_ (queue s.1) = 0;
  fe_room : cap ≠ 0 → size (queue s.1) ≤ cap;
}.

Lemma dequeue_live (q : PlaybackQueue) :
  Forall (λ c, turn c = kFakeTurn) (q_ q) →
  dequeue_active kFakeTurn q
  = match q_ q with [] => (None, q) | c :: r => (Some c, q <| q_ := r |> <| dequeued_ ::= S |>) end.
Proof.
  intros H. unfold dequeue_active.
  assert (skip_stale (length (q_ q)) kFakeTurn q = q) as ->; [|done].
  destruct (q_ q) as [|c r] eqn:E; [done|]. cbn. rewrite E.
  rewrite Forall_cons in H. destruct H as [-> _]. by rewrite decide_False by naive_solver.
Qed.

(** The queue takes every chunk: it has no bound, or the producer waited. *)
Lemma step_fed cap l s : cap = 0 ∨ precheck = true → fed cap s → fed cap (step l s).
Proof.
  destruct s as [[j sq q] played]. intros Hc [H1 H2 H3 H4 H5 H6]. unfold size in H6. cbn in H1, H2, H3, H4, H5, H6. destruct l; cbn [step].
  - unfold produce. cbn. case_decide as Hd; [done|].
    destruct (precheck && bool_decide _) eqn:E; [done|].
    unfold enqueue. rewrite H1.
    assert (cap = 0 ∨ length (q_ q) < cap) as Hr.
    { destruct Hc as [->|Hp]; [by left|right]. rewrite Hp, H1 in E. apply bool_decide_eq_false in E. unfold size in E. lia. }
    assert (negb (bool_decide (cap = 0)) && bool_decide (cap ≤ length (q_ q)) = false) as ->.
    { destruct Hr as [->|Hr]; [done|]. by rewrite (bool_decide_false (cap ≤ _)), andb_false_r by lia. }
    split; cbn; [done|lia| |  |done|unfold size; cbn; rewrite length_app; cbn; lia].
    + apply Forall_app. split; [done|]. by constructor.
    + rewrite !app_assoc, fmap_app, join_app, H4. cbn. rewrite app_nil_r.
      rewrite Nat.add_comm, <- take_take_drop. done.
  - cbn. rewrite dequeue_live by done. destruct q as [[|c r] cp dr en de]; cbn in *.
    + split; cbn; [done|done|constructor| |done|done]. rewrite !app_nil_r in *. done.
    + rewrite Forall_cons in H3. split; cbn; [done|done|by destruct H3| |done|unfold size; cbn; lia].
      rewrite <- app_assoc. done.
Qed.

Lemma run_fed cap ls : cap = 0 ∨ precheck = true → fed cap (run ls (producer_new cap, [])).
Proof.
  intros Hc. unfold run. assert (fed cap (producer_new cap, [])) as H by (split; unfold size; cbn; [done|lia|by constructor|done|done|lia]).
  revert H. generalize (producer_new cap, [] : list AudioChunk) as s.
  induction ls as [|l ls IH]; intros s H; cbn; [done|]. by apply IH, step_fed.
Qed.
End producer.

(** Over every interleaving of the producer with the audio callback: what is
    played is a prefix of the signal, chunks are not dropped, and what is not
    played is in the queue. *)
Theorem signal_played precheck buf pcm cap ls :
  cap = 0 ∨ precheck = true →
  let s := run precheck buf pcm ls (producer_new cap, []) in
  mjoin (samples <$> s.2) `prefix_of` pcm ∧ drops_ (queue s.1) = 0 ∧
  (i s.1 = length pcm → q_ (queue s.1) = [] → mjoin (samples <$> s.2) = pcm).
Proof.
  intros Hc s. destruct (run_fed precheck buf pcm cap ls Hc) as [_ _ _ H4 H5 _]. fold s in H4, H5.
  rewrite fmap_app, join_app in H4. split_and!; [|done|].
  - exists (mjoin (samples <$> q_ (queue s.1)) ++ drop (i s.1) pcm). by rewrite app_assoc, H4, take_drop.
  - intros Hi Hq. rewrite Hq, Hi, firstn_all in H4. cbn in H4. by rewrite app_nil_r in H4.
Qed.
End Producer.

(** ** The tone *)

Module Tone.
Import Producer.

(** 0.30, the nearest double. *)
Definition kAmplitude : spec_float := S754_finite false 5404319552844595 (-54).
Definition kDuration : spec_float := S754_finite false 6755399441055744 (-52).
Section tone.
Context (sin : spec_float → spec_float).

Definition tone_sample (rate : Z) (k : nat) : Z :=
  let t := div (double_of (Z.of_nat k)) (double_of rate) in
  let s := sin (mul (mul (mul (double_of 2) pi) (double_of 440)) t) in
  i16 (lround (mul (mul s kAmplitude) (double_of 32760))).
Definition tone_total (rate : Z) : nat := Z.to_nat (truncate (mul (double_of rate) kDuration)).
Definition tone (rate : Z) : list Z := tone_sample rate <$> List.seq 0 (tone_total rate).
End tone.

(** The loop that fills the queue. *)
Definition tone_run (sin : spec_float → spec_float) (rate : Z) (buf max_queue_chunks : nat) (ls : list Label) :=
  run true buf (tone sin rate) ls (producer_new max_queue_chunks, []).

(** How the demonstration ends, once the engine is started and the loop is
    over; [EXIT_SUCCESS] is true. *)
Definition tone_exit (headless : bool) (chunks_played : Z) : bool := headless || negb (bool_decide (chunks_played = 0%Z)).

Lemma stuck buf pcm p : cap_ (queue p) = 0 → produce true buf pcm p = p.
Proof.
  intros Hc. unfold produce. case_decide; [done|]. rewrite Hc, bool_decide_true by lia. done.
Qed.

(** With a queue without bound, which is the default of the configuration,
    the capacity is zero and the test before each chunk never succeeds: the
    demonstration waits for ever and nothing is played. *)
Theorem tone_unbounded_hangs sin rate buf ls :
  tone_run sin rate buf 0 ls = (producer_new 0, []).
Proof.
  unfold tone_run, run. induction ls as [|[] ls IH]; cbn [foldl step]; [done| |].
  - by rewrite stuck.
  - exact IH.
Qed.

(** With a bounded queue the tone gets through: from wherever producer and
    callback are, some further turns of the two end the loop. *)
Section ends.
Context (buf : nat) (pcm : list Z) (cap : nat).
Hypotheses (Hbuf : 0 < buf) (Hcap : 0 < cap).
Abbreviation sys := (producer * list AudioChunk)%type.
Definition left_ (s : sys) : nat := 2 * (length pcm - i s.1) + size (queue s.1).
Definition filled (s : sys) : Prop := i s.1 = length pcm.

Lemma some_turn s : fed pcm cap s → ¬ filled s → ∃ l, l ∈ [Produce; Render] ∧ left_ (step true buf pcm l s) < left_ s.
Proof.
  unfold filled, left_. destruct s as [[j sq q] played]. intros [H1 H2 H3 H4 H5 _] Hj. cbn in *.
  destruct (decide (cap ≤ size q)) as [Hf|Hf].
  - exists Render. split; [set_solver|]. cbn. rewrite dequeue_live by done. unfold size in *.
    destruct q as [[|c r] cp dr en de]; cbn in *; lia.
  - exists Produce. split; [set_solver|]. cbn. unfold produce. cbn. rewrite decide_False by lia.
    rewrite H1, bool_decide_false by done. cbn. unfold enqueue.
    rewrite H1. unfold size in Hf |- *. rewrite (bool_decide_false (cap ≤ _)), andb_false_r by lia.
    cbn. rewrite length_app. cbn. lia.
Qed.

Lemma tone_ends_from s : fed pcm cap s → ∃ ls, length ls ≤ left_ s ∧ filled (run true buf pcm ls s).
Proof.
  intros Hs.
  destruct (ends_within (step true buf pcm) (fed pcm cap) filled left_ [Produce; Render]) with (n := left_ s) (s := s)
    as (ls & _ & H); eauto.
  - intros l s' H'. apply step_fed; auto.
  - intros s' H' Hn. by apply some_turn.
Qed.
End ends.

Theorem tone_ends sin rate buf cap ls :
  0 < buf → 0 < cap →
  ∃ more, length more ≤ 2 * tone_total rate + cap ∧ i (tone_run sin rate buf cap (ls ++ more)).1 = tone_total rate.
Proof.
  intros Hb Hc. pose proof (run_fed true buf (tone sin rate) cap ls (or_intror eq_refl)) as Hf.
  assert (length (tone sin rate) = tone_total rate) as Hl by (unfold tone; by rewrite length_fmap, length_seq).
  destruct (tone_ends_from buf (tone sin rate) cap Hb Hc _ Hf) as (more & Hm & H).
  exists more. unfold tone_run, run in *. rewrite foldl_app, <- Hl. split; [|exact H].
  destruct Hf as [_ _ _ _ _ H6]. unfold left_ in Hm. specialize (H6 ltac:(lia)). lia.
Qed.
End Tone.

(** ** The stimulus of aec-hw *)

Module Stimulus.
Section stimulus.
(** [uni n]: the [n]-th number drawn from the generator, seeded alike in
    every run. *)
Context (sin : spec_float → spec_float) (uni : nat → spec_float).

Definition half : spec_float := S754_finite false 4503599627370496 (-53).
Definition kSec : nat := 3.
Definition part_length (rate : Z) : nat := Z.to_nat (truncate (mul (double_of rate) (double_of (Z.of_nat kSec)))).
Definition scaled (s : spec_float) : Z := i16 (lround (mul (mul s half) (double_of 32760))).

Definition chirp_sample (rate : Z) (k : nat) : Z :=
  let t := div (double_of (Z.of_nat k)) (double_of rate) in
  let sweep := div (mul (mul (sub (double_of 2000) (double_of 200)) t) t) (mul (double_of 2) (double_of 3)) in
  let phase := mul (mul (double_of 2) pi) (add (mul (double_of 200) t) sweep) in
  scaled (sin phase).

(** The five rows of the noise, their sum, and the draws made. *)
Record noise := MkNoise { rows : list spec_float; running : spec_float; draws : nat }.
Definition noise_new : noise := MkNoise (replicate 5 (S754_zero false)) (S754_zero false) 0.
Definition noise_row (k : nat) (s : noise) (r : nat) : noise :=
  if bool_decide (Z.land (Z.of_nat k) (Z.shiftl 1 (Z.of_nat r) - 1) = 0%Z) then
    let running := sub (running s) (default (S754_zero false) (rows s !! r)) in
    let x := uni (draws s) in
    MkNoise (<[r := x]> (rows s)) (add running x) (S (draws s))
  else s.
Definition noise_rows (k : nat) (s : noise) : noise := foldl (noise_row k) s (List.seq 0 5).
Fixpoint pink (n k : nat) (s : noise) : list Z :=
  match n with
  | O => []
  | S n => let s := noise_rows k s in scaled (div (running s) (double_of 5)) :: pink n (S k) s
  end.

Definition build_stimulus (rate : Z) : list Z :=
  (chirp_sample rate <$> List.seq 0 (part_length rate)) ++ pink (part_length rate) 0 noise_new.
End stimulus.

Lemma pink_length uni n k s : length (pink uni n k s) = n.
Proof. revert k s. induction n as [|n IH]; intros k s; cbn; [done|]. by rewrite IH. Qed.
Lemma stimulus_length sin uni rate : length (build_stimulus sin uni rate) = 2 * part_length rate.
Proof. unfold build_stimulus. rewrite length_app, length_fmap, length_seq, pink_length. lia. Qed.

(** A row is drawn anew every [2 ^ r] samples, so its bits are those of the
    sample's number: 31 draws in the first 16 samples. *)
Example rows_drawn uni : draws (foldl (λ s k, noise_rows uni k s) noise_new (List.seq 0 16)) = 31.
Proof. reflexivity. Qed.
Example six_seconds sin uni : Z.of_nat (length (build_stimulus sin uni 48000)) = 288000%Z.
Proof.
  rewrite stimulus_length, Nat2Z.inj_mul. unfold part_length.
  assert (truncate (mul (double_of 48000) (double_of (Z.of_nat kSec))) = 144000%Z) as -> by (vm_compute; reflexivity). lia.
Qed.

(** The whole stimulus goes through the queue, which has no bound, in order:
    once everything is enqueued and taken, it is what was played. *)
Lemma stimulus_played sin uni rate buf ls :
  let s := Producer.run false buf (build_stimulus sin uni rate) ls (Producer.producer_new 0, []) in
  Producer.i s.1 = length (build_stimulus sin uni rate) → q_ (Producer.queue s.1) = [] →
  mjoin (samples <$> s.2) = build_stimulus sin uni rate.
Proof. intros s. apply Producer.signal_played. by left. Qed.

(** The microphone's level in the report: sums over the blocks of the live
    sink, and the samples counted. *)
Definition mic_sample (sc : Z * Z) (block : list Z) : Z * Z :=
  (u64 (sc.1 + foldl (λ sumsq v, u64 (sumsq + v * v)) 0%Z block), u64 (sc.2 + Z.of_nat (length block))).
Definition mic_rms (sc : Z * Z) : spec_float :=
  if decide (0 < sc.2)%Z then SFsqrt 53 1024 (div (double_of sc.1) (double_of sc.2)) else S754_zero false.
End Stimulus.

(** ** The loopback worker *)

Module LoopbackWorker.
Import Producer.
Section worker.
(** The two resamplers, to 16 kHz and back. *)
Context {D U : Type} (down : list Z → D → list Z * D) (up : list Z → U → list Z * U).
Record worker := MkWorker { down_ : D; up_ : U; w_seq : Z; frames_processed : Z; w_queue : PlaybackQueue }.

(** One frame of the ring; a stage that gives nothing ends it. *)
Definition pass (f : Capture.AudioFrame) (s : worker) : worker :=
  let n := u64 (frames_processed s + Capture.count f) in
  let '(down_samples, d) := down (Capture.view f) (down_ s) in
  if decide (down_samples = []) then MkWorker d (up_ s) (w_seq s) n (w_queue s)
  else
    let '(up_samples, u) := up down_samples (up_ s) in
    if decide (up_samples = []) then MkWorker d u (w_seq s) n (w_queue s)
    else MkWorker d u (u32 (w_seq s + 1)) n (enqueue (Chunk kFakeTurn (w_seq s) up_samples false) (w_queue s)).2.
Definition pass_all (fs : list Capture.AudioFrame) (s : worker) : worker := foldl (λ s f, pass f s) s fs.

(** The signal after both stages. *)
Fixpoint through (fs : list Capture.AudioFrame) (d : D) (u : U) : list Z :=
  match fs with
  | [] => []
  | f :: fs =>
      let '(x, d) := down (Capture.view f) d in
      if decide (x = []) then through fs d u
      else let '(y, u) := up x u in y ++ through fs d u
  end.

(** With the queue unbounded, as the default is, what is queued is the
    signal after both stages: nothing is lost, no chunk is empty. *)
Theorem loopback_passes fs s :
  cap_ (w_queue s) = 0 → Forall (λ c, samples c ≠ []) (q_ (w_queue s)) →
  let q := w_queue (pass_all fs s) in
  mjoin (samples <$> q_ q) = mjoin (samples <$> q_ (w_queue s)) ++ through fs (down_ s) (up_ s) ∧
  Forall (λ c, samples c ≠ []) (q_ q) ∧ drops_ q = drops_ (w_queue s).
Proof.
  unfold pass_all. revert s. induction fs as [|f fs IH]; intros s Hc Hne; cbn [foldl through].
  { by rewrite app_nil_r. }
  unfold pass at 2 4 6. destruct (down (Capture.view f) (down_ s)) as [x d].
  case_decide as Hx; [by apply (IH (MkWorker d _ _ _ _))|]. destruct (up x (up_ s)) as [y u].
  case_decide as Hy; [rewrite Hy; by apply (IH (MkWorker d u _ _ _))|].
  set (s' := MkWorker d u _ _ _).
  assert (w_queue s' = accept (Chunk kFakeTurn (w_seq s) y false) (w_queue s)) as E by (unfold s'; cbn; unfold enqueue; by rewrite Hc).
  destruct (IH s') as (H1 & H2 & H3); rewrite ?E in *; [done| |].
  - cbn. apply Forall_app. split; [done|]. by repeat constructor.
  - split_and!; [|done|done]. rewrite H1. cbn. rewrite fmap_app, join_app. cbn. by rewrite app_nil_r, <- app_assoc.
Qed.
End worker.

(** Three frames through stages that halve and double. *)
Definition halve (xs : list Z) (d : unit) : list Z * unit := (take (length xs / 2) xs, d).
Definition double (xs : list Z) (u : unit) : list Z * unit := (xs ++ xs, u).
Lemma loopback_passes_witness :
  let f xs := Capture.MkFrame 0 (Z.of_nat (length xs)) 0 xs in
  mjoin (samples <$> q_ (w_queue (pass_all halve double [f [1; 2; 3; 4]; f [5]; f [6; 7]]%Z (MkWorker tt tt 0 0 (pq_new 0)))))
  = [1; 2; 1; 2; 6; 6]%Z.
Proof.
  cbv zeta. rewrite (proj1 (loopback_passes halve double _ (MkWorker tt tt 0 0 (pq_new 0)) eq_refl (Forall_nil_2 _))).
  vm_compute. reflexivity.
Defined.
End LoopbackWorker.

(** ** Statistics *)

Module Statistics.
(** [long double]. *)
Definition ld_of (z : Z) : spec_float := binary_normalize 64 16384 z 0 false.
Definition to_double (x : spec_float) : spec_float :=
  match x with S754_finite s m e => binary_normalize 53 1024 (cond_Zopp s (Zpos m)) e s | x => x end.

Record WavStats := MkStats { st_samples : nat; rate_hz : Z; st_rms : spec_float; peak : Z }.
Definition duration_s (s : WavStats) : spec_float :=
  if decide (0 < rate_hz s)%Z then div (double_of (Z.of_nat (st_samples s))) (double_of (rate_hz s)) else S754_zero false.

Definition peak_of (samples : list Z) : Z := foldl (λ peak v, if decide (peak < Z.abs v)%Z then Z.abs v else peak) 0%Z samples.
Definition compute_stats (samples : list Z) (rate : Z) : WavStats :=
  if decide (samples = []) then MkStats 0 rate (S754_zero false) 0
  else
    let sumsq := foldl (λ sum v, SFadd 64 16384 sum (SFmul 64 16384 (ld_of v) (ld_of v))) (S754_zero false) samples in
    MkStats (length samples) rate
      (SFsqrt 53 1024 (to_double (SFdiv 64 16384 sumsq (ld_of (Z.of_nat (length samples))))))
      (i16 (Z.min (peak_of samples) 32767)).

(** The average magnitude (aec.cpp). *)
Definition mean_abs (v : list Z) : spec_float :=
  if decide (v = []) then S754_zero false
  else to_double (SFdiv 64 16384 (foldl (λ s x, SFadd 64 16384 s (ld_of (Z.abs x))) (S754_zero false) v) (ld_of (Z.of_nat (length v)))).

Lemma peak_of_max samples p :
  (p ≤ foldl (λ peak v, if decide (peak < Z.abs v)%Z then Z.abs v else peak) p samples)%Z ∧
  Forall (λ v, Z.abs v ≤ foldl (λ peak v, if decide (peak < Z.abs v)%Z then Z.abs v else peak) p samples)%Z samples.
Proof.
  revert p. induction samples as [|v l IH]; intros p; cbn; [split; [lia|constructor]|].
  destruct (IH (if decide (p < Z.abs v)%Z then Z.abs v else p)) as [H1 H2].
  case_decide; (split; [lia|constructor; [lia|done]]).
Qed.
Lemma peak_of_in samples p :
  let m := foldl (λ peak v, if decide (peak < Z.abs v)%Z then Z.abs v else peak) p samples in
  m = p ∨ ∃ v, v ∈ samples ∧ m = Z.abs v.
Proof.
  revert p. induction samples as [|v l IH]; intros p; cbn; [by left|].
  destruct (IH (if decide (p < Z.abs v)%Z then Z.abs v else p)) as [->|(w & Hw & ->)].
  - case_decide; [right; exists v; split; [left|done]|by left].
  - right. exists w. split; [by right|done].
Qed.

(** The peak reported is the largest magnitude, and the one magnitude that
    16 bits do not have, that of -32768, is reported as 32767. *)
Theorem peak_exact samples rate :
  Forall (λ v, -32768 ≤ v ≤ 32767)%Z samples → samples ≠ [] →
  let p := peak (compute_stats samples rate) in
  (0 ≤ p ≤ 32767)%Z ∧ Forall (λ v, Z.min (Z.abs v) 32767 ≤ p)%Z samples ∧
  ∃ v, v ∈ samples ∧ p = Z.min (Z.abs v) 32767.
Proof.
  intros Hs Hne. unfold compute_stats. rewrite decide_False by done. cbn.
  destruct (peak_of_max samples 0) as [H0 Hm]. fold (peak_of samples) in H0, Hm.
  assert (∃ v, v ∈ samples ∧ peak_of samples = Z.abs v) as (w & Hw & Hp).
  { destruct (peak_of_in samples 0) as [H|H]; fold (peak_of samples) in H; [|done].
    destruct samples as [|v l]; [done|]. exists v. split; [left|].
    rewrite Forall_cons in Hm. destruct Hm as [Hm _]. lia. }
  assert (i16 (Z.min (peak_of samples) 32767) = Z.min (peak_of samples) 32767) as ->.
  { unfold i16. rewrite Z.mod_small; lia. }
  split_and!; [lia|lia| |].
  - eapply Forall_impl; [exact Hm|]. cbn. lia.
  - exists w. split; [done|]. lia.
Qed.
Lemma peak_exact_witness : peak (compute_stats [5; -32768; 7]%Z 16000) = 32767%Z.
Proof.
  destruct (peak_exact [5; -32768; 7]%Z 16000 ltac:(repeat constructor; lia) ltac:(done)) as (_ & H & _).
  vm_compute. reflexivity.
Defined.

(** A square wave of amplitude 1000 has that level. *)
Example level : st_rms (compute_stats (mjoin (replicate 50 [1000; -1000]%Z)) 16000) = double_of 1000 ∧
  mean_abs [1000; -1000]%Z = double_of 1000.
Proof. split; vm_compute; reflexivity. Qed.
End Statistics.

(** ** Recording *)

Module Recorder.
(** [std::getenv], where an empty value counts as unset. *)
Definition env_or (v : option str) (fallback : str) : str :=
  match v with Some v => if decide (v = []) then fallback else v | None => fallback end.

(** The processing asked for: [ACVA_AEC_NO_POSTPROC=1] turns two of three
    off. *)
Definition apm_config (cfg : Dsp.Apm.ApmConfig) (no_postproc_env : option str) (sample_rate : Z) : Dsp.Apm.ApmConfig :=
  let no_postproc := bool_decide (env_or no_postproc_env [] = lit "1") in
  Dsp.Apm.MkApmConfig (Dsp.Apm.aec_enabled cfg)
    (if no_postproc then false else Dsp.Apm.ns_enabled cfg) (if no_postproc then false else Dsp.Apm.agc_enabled cfg)
    (Dsp.Apm.initial_delay_estimate_ms cfg) (Dsp.Apm.max_delay_ms cfg) 16000 sample_rate.

Definition kApmFrameSamples : nat := 160.

Section drain.
Context {R A : Type} (resample : list Z → R → list Z * R) (apm_process : list Z → Z → A → list Z * A).

Record recorder := MkRecorder { raw_48k : list Z; aec_16k : list Z; apm_carry : list Z; rs : R; apm : A }.
#[global] Instance eta_recorder : Eta recorder := λ s, MkRecorder (raw_48k s) (aec_16k s) (apm_carry s) (rs s) (apm s).
Definition recorder_new (r : R) (a : A) : recorder := MkRecorder [] [] [] r a.

(** The inner loop: at most one block per sample carried. *)
Fixpoint blocks (fuel : nat) (captured_at : Z) (s : recorder) : recorder :=
  match fuel with
  | O => s
  | S fuel =>
      if decide (kApmFrameSamples ≤ length (apm_carry s)) then
        let '(cleaned, a) := apm_process (take kApmFrameSamples (apm_carry s)) captured_at (apm s) in
        blocks fuel captured_at
          (s <| apm := a |> <| aec_16k ::= λ l, l ++ cleaned |> <| apm_carry ::= drop kApmFrameSamples |>)
      else s
  end.
(** One frame of the ring. *)
Definition drain (f : Capture.AudioFrame) (s : recorder) : recorder :=
  let s := s <| raw_48k ::= λ l, l ++ Capture.view f |> in
  let '(down, r) := resample (Capture.view f) (rs s) in
  let s := s <| rs := r |> <| apm_carry ::= λ l, l ++ down |> in
  blocks (length (apm_carry s)) (Capture.captured_at f) s.
Definition drain_all (fs : list Capture.AudioFrame) (s : recorder) : recorder := foldl (λ s f, drain f s) s fs.

(** What the resampler makes of frames. *)
Fixpoint resampled (fs : list Capture.AudioFrame) (r : R) : list Z :=
  match fs with
  | [] => []
  | f :: fs => let '(down, r) := resample (Capture.view f) r in down ++ resampled fs r
  end.

(** The loop takes every whole block. *)
Lemma blocks_rest fuel t s : length (apm_carry s) ≤ fuel → length (apm_carry (blocks fuel t s)) < kApmFrameSamples.
Proof.
  revert s. induction fuel as [|fuel IH]; intros s Hf; cbn [blocks]; [unfold kApmFrameSamples; lia|].
  case_decide as Hd; [|lia].
  destruct (apm_process _ _ _) as [cleaned a]. apply IH. cbn. rewrite length_drop. unfold kApmFrameSamples in *. lia.
Qed.
Lemma blocks_kept fuel t s : raw_48k (blocks fuel t s) = raw_48k s ∧ rs (blocks fuel t s) = rs s.
Proof.
  revert s. induction fuel as [|fuel IH]; intros s; cbn [blocks]; [done|]. case_decide; [|done].
  destruct (apm_process _ _ _) as [cleaned a]. by destruct (IH (s <| apm := a |> <| aec_16k ::= λ l, l ++ cleaned |>
    <| apm_carry ::= drop kApmFrameSamples |>)) as [-> ->].
Qed.
(** Any relation between what is cleaned and what went in that blocks
    satisfy and that goes through concatenation. *)
Section related.
Context (P : list Z → list Z → Prop) (P_nil : P [] []).
Context (P_app : ∀ a b c d, P a b → P c d → P (a ++ c) (b ++ d)).
Context (P_block : ∀ l t a, length l = kApmFrameSamples → P (apm_process l t a).1 l).

Lemma blocks_related fuel t s fed :
  P (aec_16k s) fed →
  ∃ fed', P (aec_16k (blocks fuel t s)) fed' ∧ fed' ++ apm_carry (blocks fuel t s) = fed ++ apm_carry s.
Proof.
  revert s fed. induction fuel as [|fuel IH]; intros s fed Hs; cbn [blocks]; [by exists fed|].
  case_decide as Hd; [|by exists fed].
  pose proof (P_block (take kApmFrameSamples (apm_carry s)) t (apm s)) as Hb.
  destruct (apm_process _ _ _) as [cleaned a]. cbn [fst] in Hb.
  set (s' := s <| apm := a |> <| aec_16k ::= λ l, l ++ cleaned |> <| apm_carry ::= drop kApmFrameSamples |>).
  destruct (IH s' (fed ++ take kApmFrameSamples (apm_carry s))) as (fed' & H & E).
  - cbn. apply P_app; [done|]. apply Hb. rewrite length_take. lia.
  - exists fed'. split; [done|]. rewrite E. cbn. by rewrite <- app_assoc, take_drop.
Qed.

Lemma drain_all_related fs s fed :
  P (aec_16k s) fed → length (apm_carry s) < kApmFrameSamples →
  let s' := drain_all fs s in
  raw_48k s' = raw_48k s ++ mjoin (Capture.view <$> fs) ∧ length (apm_carry s') < kApmFrameSamples ∧
  ∃ fed', P (aec_16k s') fed' ∧ fed' ++ apm_carry s' = fed ++ apm_carry s ++ resampled fs (rs s).
Proof.
  revert s fed. unfold drain_all. induction fs as [|f fs IH]; intros s fed Hs Hc; cbn [foldl fmap list_fmap mjoin list_join].
  { cbn. rewrite !app_nil_r. eauto. }
  cbn [resampled]. unfold drain at 2 4 6 8. cbn [rs set_field].
  destruct (resample (Capture.view f) (rs s)) as [down r].
  set (s1 := s <| raw_48k ::= _ |> <| rs := r |> <| apm_carry ::= _ |>).
  destruct (blocks_related (length (apm_carry s1)) (Capture.captured_at f) s1 fed Hs) as (fed1 & H1 & E1).
  destruct (blocks_kept (length (apm_carry s1)) (Capture.captured_at f) s1) as [Hr Hrs].
  pose proof (blocks_rest (length (apm_carry s1)) (Capture.captured_at f) s1 ltac:(done)) as Hc1.
  destruct (IH _ _ H1 Hc1) as (Hraw & Hcarry & fed' & H' & E').
  rewrite Hr in Hraw. rewrite Hrs in E'. split_and!; [|done|].
  - rewrite Hraw. unfold s1. cbn. by rewrite <- app_assoc.
  - exists fed'. split; [done|]. rewrite E'. rewrite app_assoc, E1. unfold s1. cbn. by rewrite <- !app_assoc.
Qed.
End related.
End drain.

(** The raw recording is every frame taken from the ring; of the resampled
    stream less than 10 ms is missing at the end of the cleaned one, which
    has a sample per sample when the canceller keeps the length of a block. *)
Theorem recorded {R A} resample apm_process fs (r : R) (a : A) :
  (∀ l t a, length (apm_process l t a).1 = length l) →
  let s := drain_all resample apm_process fs (recorder_new r a) in
  raw_48k s = mjoin (Capture.view <$> fs) ∧ length (apm_carry s) < kApmFrameSamples ∧
  length (aec_16k s) + length (apm_carry s) = length (resampled resample fs r).
Proof.
  intros Hl s. destruct (drain_all_related resample apm_process (λ x y, length x = length y) ltac:(cbn; intros; rewrite !length_app; lia)
    ltac:(intros; apply Hl) fs (recorder_new r a) []) as (H1 & H2 & fed & H3 & H4); [done|cbn; unfold kApmFrameSamples; lia|].
  fold s in H1, H2, H3, H4. split_and!; [done|done|]. apply (f_equal length) in H4. rewrite length_app in H4. cbn in H4. lia.
Qed.

(** A canceller with nothing switched on copies its input: the cleaned
    recording is the resampled one, up to those 10 ms. *)
Theorem recorded_passing {R A} resample apm_process fs (r : R) (a : A) :
  (∀ l t a, (apm_process l t a).1 = l) →
  let s := drain_all resample apm_process fs (recorder_new r a) in
  aec_16k s ++ apm_carry s = resampled resample fs r ∧ length (apm_carry s) < kApmFrameSamples.
Proof.
  intros Hl s. destruct (drain_all_related resample apm_process eq ltac:(cbn; intros; by subst)
    ltac:(intros; apply Hl) fs (recorder_new r a) []) as (_ & H2 & fed & H3 & H4); [done|cbn; unfold kApmFrameSamples; lia|].
  fold s in H2, H3, H4. by rewrite H3.
Qed.

(** [Apm] is such a canceller when all three are off. *)
Lemma apm_passes {W R} delay reverse stream stats res (c : Dsp.Apm.ApmConfig) sink (w : option W) (r : R) lb l t :
  Dsp.Apm.aec_enabled c = false → Dsp.Apm.ns_enabled c = false → Dsp.Apm.agc_enabled c = false →
  (Dsp.Apm.process delay reverse stream stats res lb l t (Dsp.Apm.apm_new delay c sink w r)).1 = l.
Proof. intros H1 H2 H3. unfold Dsp.Apm.apm_new. by rewrite H1, H2, H3. Qed.
End Recorder.

(** ** The synthetic echo *)

Module Synthetic.
Definition kSampleRateHz : Z := 48000.
Definition kRefChunkSamples : nat := 480.
Definition kMicChunkSamples : nat := 160.
Definition total_ref : nat := Z.to_nat (truncate (mul (double_of kSampleRateHz) (double_of 6))).
Definition total_mic : nat := Z.to_nat (truncate (mul (double_of 16000) (double_of 6))).
Definition mic_shift : Z := truncate (div (mul (double_of 16000) (double_of 50)) (double_of 1000)).
(** 0.4, the nearest double. *)
Definition kEchoGain : spec_float := S754_finite false 7205759403792794 (-54).

(** When the next report is due, after the one at [frame]. *)
Definition next_report (frame : nat) : Z :=
  let secs := div (double_of (Z.of_nat frame)) (double_of 100) in
  if SFltb secs (double_of 1) then 100
  else if SFltb secs (double_of 2) then 200
  else if SFltb secs (double_of 4) then 400
  else -1.

Section synthetic.
Context (sin log10 : spec_float → spec_float).

Definition tau : spec_float := mul (mul (double_of 2) pi) (double_of 1000).
Definition ref_sample (k : nat) : Z :=
  i16 (truncate (mul (sin (div (mul tau (double_of (Z.of_nat k))) (double_of kSampleRateHz))) (double_of 16000))).
Definition mic_sample (k : nat) : Z :=
  let src := (Z.of_nat k - mic_shift)%Z in
  let s := if decide (src < 0)%Z then S754_zero false else sin (div (mul tau (double_of src)) (double_of 16000)) in
  i16 (truncate (mul (mul s kEchoGain) (double_of 16000))).

Context {A : Type} (apm_process : Loopback.sink → list Z → Z → A → list Z * A).
Record state := MkState {
  t_ : Z; lb : Loopback.sink; apm : A; next_report_frame : Z; reports : list nat; in_energy : spec_float; out_energy : spec_float;
}.

(** One turn of the loop: 10 ms of reference, 10 ms of microphone. *)
Definition frame_step (s : state) (frame : nat) : state :=
  let ref_chunk := ref_sample <$> List.seq (frame * kRefChunkSamples) kRefChunkSamples in
  let mic_chunk := mic_sample <$> List.seq (frame * kMicChunkSamples) kMicChunkSamples in
  let lb := Loopback.on_emitted ref_chunk (t_ s) (lb s) in
  let '(out, a) := apm_process lb mic_chunk (t_ s) (apm s) in
  let due := bool_decide (Z.of_nat frame = next_report_frame s) in
  MkState (t_ s + 10000000) lb a
    (if due then next_report frame else next_report_frame s) (if due then reports s ++ [frame] else reports s)
    (SFadd 64 16384 (in_energy s) (Statistics.mean_abs mic_chunk)) (SFadd 64 16384 (out_energy s) (Statistics.mean_abs out)).
(** The loop ends when either signal does. *)
Definition frames : nat := Nat.min (total_ref / kRefChunkSamples) (total_mic / kMicChunkSamples).
Definition synthetic_start (a : A) : state :=
  MkState (1000 * 1000000000) (Loopback.sink_new (Z.to_nat kSampleRateHz * 2) kSampleRateHz) a 50 [] (S754_zero false) (S754_zero false).
Definition synthetic_run (a : A) : state := foldl frame_step (synthetic_start a) (List.seq 0 frames).

Definition cancel_db (s : state) : spec_float :=
  if SFltb (S754_zero false) (out_energy s) && SFltb (S754_zero false) (in_energy s) then
    mul (double_of 20) (log10 (div (Statistics.to_double (in_energy s)) (Statistics.to_double (out_energy s))))
  else S754_zero false.
(** Success. *)
Definition aec_exit (active : bool) (a : A) : bool := active && negb (SFltb (cancel_db (synthetic_run a)) (double_of 1)).

Definition reported (s : state) : list nat * Z := (reports s, next_report_frame s).
Definition report_step (s : list nat * Z) (frame : nat) : list nat * Z :=
  if bool_decide (Z.of_nat frame = s.2) then (s.1 ++ [frame], next_report frame) else s.
Lemma reported_step s frame : reported (frame_step s frame) = report_step (reported s) frame.
Proof.
  unfold frame_step, report_step, reported. destruct (apm_process _ _ _ _) as [out a]. cbn. by destruct (bool_decide _).
Qed.
Lemma reported_run fs s : reported (foldl frame_step s fs) = foldl report_step (reported s) fs.
Proof. revert s. induction fs as [|f fs IH]; intros s; cbn; [done|]. by rewrite IH, reported_step. Qed.

Lemma frames_600 : frames = 600.
Proof.
  unfold frames, total_ref, total_mic.
  assert (truncate (mul (double_of kSampleRateHz) (double_of 6)) = 288000%Z) as -> by (vm_compute; reflexivity).
  assert (truncate (mul (double_of 16000) (double_of 6)) = 96000%Z) as -> by (vm_compute; reflexivity).
  apply Nat2Z.inj. rewrite Nat2Z.inj_min, !Nat2Z.inj_div, !Z2Nat.id by lia. reflexivity.
Qed.

(** Frames that are not due report nothing; the one that is sets the next. *)
Lemma report_quiet s fs : Forall (λ f, Z.of_nat f ≠ s.2) fs → foldl report_step s fs = s.
Proof.
  induction 1 as [|f fs Hf _ IH]; [done|]. cbn [foldl].
  assert (report_step s f = s) as -> by (unfold report_step; by rewrite bool_decide_false). done.
Qed.
Lemma report_due rs d n k :
  n ≤ d < n + k →
  foldl report_step (rs, Z.of_nat d) (List.seq n k) = foldl report_step (rs ++ [d], next_report d) (List.seq (S d) (n + k - S d)).
Proof.
  intros Hd. replace k with ((d - n) + S (n + k - S d)) at 1 by lia.
  rewrite List.seq_app, foldl_app, (report_quiet (rs, Z.of_nat d) (List.seq n (d - n))).
  - replace (n + (d - n)) with d by lia. change (List.seq d (S (n + k - S d))) with (d :: List.seq (S d) (n + k - S d)). cbn [foldl]. f_equal.
    unfold report_step. by rewrite bool_decide_true.
  - apply Forall_forall. intros f Hf. apply elem_of_seq in Hf. cbn. lia.
Qed.
Lemma next_reports :
  next_report 50 = 100%Z ∧ next_report 100 = 200%Z ∧ next_report 200 = 400%Z ∧ next_report 400 = (-1)%Z.
Proof. repeat split. Qed.

Lemma reports_after n s :
  n = 600 → reported s = ([], 50%Z) → reports (foldl frame_step s (List.seq 0 n)) = [50; 100; 200; 400].
Proof.
  intros Hn Hs. change (reports ?x) with (reported x).1. rewrite reported_run, Hs, Hn. destruct next_reports as (H1 & H2 & H3 & H4).
  rewrite (report_due [] 50), H1 by lia. rewrite (report_due _ 100), H2 by lia.
  rewrite (report_due _ 200), H3 by lia. rewrite (report_due _ 400), H4 by lia.
  rewrite report_quiet; [done|]. apply Forall_forall. intros f _. cbn. lia.
Qed.

(** Whatever the canceller does, six seconds are reported at 0.5, 1, 2 and 4
    seconds. *)
Theorem synthetic_reports a : reports (synthetic_run a) = [50; 100; 200; 400].
Proof. exact (reports_after frames (synthetic_start a) frames_600 eq_refl). Qed.
End synthetic.

(** The echo arrives 50 ms late, and is silent until then. *)
Lemma echo_delayed sin k : (Z.of_nat k < 800)%Z → mic_sample sin k = 0%Z.
Proof.
  intros H. unfold mic_sample. assert (mic_shift = 800%Z) as -> by (vm_compute; reflexivity).
  rewrite decide_True by lia. vm_compute. reflexivity.
Qed.
End Synthetic.
